(* ===== verification/_CoqProject ===== *)
-Q . S2P
Prelude.v
Chainbase.v
Names.v
Fc.v
Assets.v
Config.v
ChainConfig.v
ConfigOnChain.v
TxFee.v
Accumulator.v
ResourceLimits.v
ControllerLists.v
Authority.v
AuthorityChecker.v
Permissions.v
BlockTimestamp.v
Merkle.v
BlockHeader.v
Transaction.v
BlockHeaderState.v
HeaderChain.v
HeaderExamples.v
InputTransactions.v
ForkDatabase.v
ForkTree.v
ForkChoice.v
ForkFile.v
BlockLog.v
LogExamples.v
Whitelist.v
ProtocolFeatures.v
Controller.v
ControllerTheory.v
ChainReplay.v
ContractTables.v
TableTheory.v
DatabaseApi.v
TableScan.v
AccessLists.v
TransactionContext.v
Billing.v
ActionContext.v
Deferred.v
DeferredRam.v
SystemActions.v
SystemTheory.v
SystemRam.v
Genesis.v
GenesisTheory.v
ChainExamples.v
HostApi.v
ActionExec.v
ActionTheory.v
HostSafety.v
ActionLog.v
ActionEnds.v
FeeAction.v
ActionExamples.v
