(* ===== verification/Prelude.v ===== *)
(** * Codex.Relay: verification of the chain library

    Codex.Relay is a delegated proof-of-stake blockchain node derived from
    EOSIO 1.8.  Its chain library (src/libraries/chain) holds the rules every
    node must agree on; plugins and programs around it move blocks and
    transactions.  This development is a shallow embedding of the rules: each
    operation of the C++ code is a Rocq function with the same cases, guards
    and early returns, and the theorems are about these functions.

    ** How the code is translated

    - A throwing function returns [result A]: [Ok] or [Throw] with the class
      of the exception; [x ← m; k] sequences, [EOS_ASSERT] is the macro.
    - Machine integers are [Z] with the conversions of the source written out
      ([wrap w] for unsigned ones, [s64] for the signed 64-bit ones), so that
      overflow is visible in the statements.
    - Undefined behaviour of C++ (a null pointer, an index outside a vector,
      a division by zero) is [Throw undefined_behaviour].
    - A loop without a structural measure has a fuel argument that its caller
      computes from the data, and gives [Throw out_of_fuel] when it is used
      up.  The theorems say that this does not happen: the fuel of the fork
      database loops is the number of blocks ([descend], [descend_both],
      [remove_scan]), that of [collapse_loop] the number of entries, that of
      [satisfies_loop] the id of the permission, since ids decrease towards
      the root.  The authority checker needs none: its depth is limited by
      the code.
    - Records are structs, gmaps are the unique indices of the database and
      of the containers; lists are vectors and sorted sets.  Objects that are
      changed in place are threaded through as state.

    Code outside the repository is a type class of operations, with a second
    class for what the code relies on: [Chainbase]/[ChainbaseLaws] for the
    database, [Fc]/[FcLaws] for string and checked integer functions,
    [Crypto]/[CryptoLaws] for hashing, signatures and packing.  Theorems are
    proved from the laws; each witness uses a concrete instance
    ([map_chainbase], [ref_fc], [demo_crypto]), so the laws are consistent.

    ** Files

    - [Prelude]: the result monad, machine integers, list and arithmetic
      lemmas, tactics, hint databases.
    - [Chainbase], [Fc]: the interfaces of the two libraries.
    - [Names] (name.hpp, name.cpp): packing of names in 64 bits, and that the
      checked constructor accepts exactly the printed forms of words.
    - [Assets] (symbol.hpp, asset.hpp, asset.cpp): exactness of the checked
      arithmetic, round trips between text and values.
    - [Config] (config.hpp.in): constants.  [ConfigOnChain]
      (config_on_chain.cpp): configuration values in the database.
      [TxFee] (txfee_manager.cpp): the fee of a transaction is the sum of its
      actions' fees.
    - [Accumulator], [ResourceLimits] (resource_limits.hpp,
      resource_limits_private.hpp, resource_limits.cpp): the moving average,
      and every operation of the manager.  A step relation over the
      operations shows that the totals are the sums of the accounts' weights.
    - [ControllerLists] (controller.cpp, config_on_chain.cpp): the account
      lists and guaranteed resources changed by [setconfig].
    - [Authority], [AuthorityChecker], [Permissions] (authority.hpp,
      authority_checker.hpp, permission_object.hpp,
      authorization_manager.cpp): authorities, the search that decides
      whether keys and levels satisfy one, the permission tree and the
      authorization of transactions.  The search is sound for an inductive
      definition of satisfaction, and complete for authorities without
      levels; an accepted transaction has every action authorized by a
      permission that acts for the one required.
    - [BlockTimestamp], [Merkle] (block_timestamp.hpp, merkle.cpp,
      incremental_merkle.hpp): slots, and the agreement of the incremental
      tree with the batch computation.
    - [BlockHeader], [BlockHeaderState] (producer_schedule.hpp,
      block_header.cpp, protocol_feature_activation.cpp,
      block_header_state.cpp): headers and the consensus state derived from
      them.  [HeaderChain]: the chains of header states from genesis, with
      the invariant, the meaning of the two irreversible block numbers, the
      authenticity of accepted headers and the acceptance of produced ones.
      [HeaderExamples]: a concrete chain, on which the last irreversible
      block number goes back when the schedule changes.
    - [ForkDatabase] (fork_database.cpp, block_state.cpp): the tree of
      reversible blocks.  [ForkTree]: its invariant over all operations and
      the contracts of [remove], [advance_root] and [fetch_branch_from].
      [ForkFile]: the round trip through the file, and the failure of it that
      the chain of [HeaderExamples] causes.
    - [Whitelist] (whitelisted_intrinsics.cpp): the hashed multimap refines a
      set.  [ProtocolFeatures] (protocol_feature_manager.cpp): the recognized
      features and the activation manager, whose rollback is exact.

    ** How the parts interact

    [ForkDatabase.add] calls the extraction of [BlockHeader] and stores the
    states [BlockHeaderState] makes; block states carry the tree of [Merkle].
    [Permissions] runs [AuthorityChecker] over the authorities it stores and
    charges them with [ResourceLimits]; [ControllerLists] writes the
    guaranteed resources that [ResourceLimits] reads; [TxFee] computes with
    [Assets].

    ** What is not modelled

    WebAssembly execution and its engines, file and network I/O, variants and
    the plugins and programs are outside: they are I/O or engines whose
    sources are vendored or absent.  Of the chain library these parts are
    still to be added, in this order: transactions and the reference to a
    block (transaction.cpp); the limits and billing of a transaction
    (transaction_context.cpp); the application of actions and the contract
    tables with their iterator cache (apply_context.cpp); the other system
    actions (eosio_contract.cpp) and the bounds of the configuration
    (chain_config.cpp); block production, application and fork switching
    (controller.cpp) over [ForkDatabase] and [ProtocolFeatures]; the block
    log as two files (block_log.cpp); resolution and validation of ABIs
    (abi_serializer.cpp); the slot and watermark logic of the producer
    plugin and the synchronization of the net plugin as state machines. *)

From stdpp Require Export base gmap list strings sorting.
From Stdlib Require Export ZArith Lia.

#[export] Set Default Goal Selector "!".

(** ** Exceptions and the error monad

    [exn] lists the exception classes of [exceptions.hpp] that the modelled
    code throws, with the two families that do not come from that file:
    [std_out_of_range] and [std_logic_error] are what [chainbase] raises on a
    missing or a duplicate key, [undefined_behaviour] marks an operation
    the C++ standard gives no meaning to, and [out_of_fuel] a loop that was cut
    off by the bound of its model (theorems show that this does not happen). *)
Inductive exn :=
  | chain_type_exception | name_type_exception | asset_type_exception
  | symbol_type_exception | action_type_exception | overflow_exception
  | fork_database_exception | fork_db_block_not_found
  | block_validate_exception | unlinkable_block_exception
  | block_resource_exhausted | wrong_signing_key | wrong_producer
  | invalid_block_header_extension | ill_formed_protocol_feature_activation
  | transaction_exception | tx_cpu_usage_exceeded | tx_net_usage_exceeded
  | tx_irrelevant_sig | tx_not_found | unsatisfied_authorization
  | missing_auth_exception
  | authorization_exception | irrelevant_auth_exception
  | unlinkable_min_permission_action | invalid_permission
  | action_validate_exception | database_exception | permission_query_exception
  | ram_usage_exceeded | rate_limiting_state_inconsistent
  | resource_limit_exception | producer_schedule_exception
  | producer_double_confirm | protocol_feature_exception
  | protocol_feature_validation_exception | protocol_feature_iterator_exception
  | db_api_exception | overlapping_memory_error | inline_action_too_big
  | wasm_execution_error | wasm_serialization_error | abort_called
  | eosio_assert_message_exception | eosio_assert_code_exception
  | arithmetic_exception | crypto_api_exception
  | contract_whitelist_exception | action_blacklist_exception
  | account_query_exception | tx_too_big | unaccessible_api | unhandled_exception
  | table_not_in_cache | invalid_table_iterator | table_operation_not_permitted
  | table_access_violation | invalid_table_payer
  | subjective_block_production_exception | unauthorized_ram_usage_increase
  | disallowed_transaction_extensions_bad_block_exception
  | deferred_tx_duplicate | cfa_inside_generated_tx | invalid_transaction_extension
  | ill_formed_deferred_transaction_generation_context
  | block_net_usage_exceeded | block_cpu_usage_exceeded
  | greylist_net_usage_exceeded | greylist_cpu_usage_exceeded
  | deadline_exception | leeway_deadline_exception
  | tx_duplicate | tx_no_auths | tx_no_action | tx_duplicate_sig
  | tx_decompression_error | unknown_transaction_compression
  | expired_tx_exception | tx_exp_too_far_exception | invalid_ref_block_exception
  | action_not_found_exception | set_exact_code | invalid_contract_vm_type
  | account_name_exists_exception | actor_blacklist_exception
  | actor_whitelist_exception | contract_blacklist_exception
  | key_blacklist_exception | fork_db_exception | block_log_exception
  | unsupported_feature | fc_assert_exception | misc_exception
  | invalid_contract_vm_version | invalid_action_args_exception
  | protocol_feature_bad_block_exception | restricted_error_code_exception | bad_alloc
  | block_log_unsupported_version | block_log_append_fail | block_log_not_found
  | producer_priv_key_not_found | producer_exception | plugin_exception
  | invalid_type_inside_abi | duplicate_abi_type_def_exception
  | duplicate_abi_struct_def_exception | duplicate_abi_action_def_exception
  | duplicate_abi_table_def_exception | duplicate_abi_err_msg_def_exception
  | duplicate_abi_variant_def_exception | abi_circular_def_exception
  | abi_serialization_deadline_exception | abi_recursion_depth_exception
  | unpack_exception | pack_exception | abi_exception | unsupported_abi_version_exception
  | std_ios_failure | block_log_backup_dir_exist | reversible_blocks_exception
  | unknown_transaction_exception | database_guard_exception
  | controller_emit_signal_exception | block_num_exception | invalid_pinned_block_exception
  | std_out_of_range | std_logic_error | undefined_behaviour | out_of_fuel.

#[export] Instance exn_eq_dec : EqDecision exn.
Proof. solve_decision. Defined.

(** A computation that may throw. *)
Inductive result (A : Type) := Ok (a : A) | Throw (e : exn).
Arguments Ok {A} a.
Arguments Throw {A} e.

#[export] Instance result_ret : MRet result := @Ok.
#[export] Instance result_bind : MBind result :=
  λ A B f r, match r with Ok a => f a | Throw e => Throw e end.
#[export] Instance result_fmap : FMap result :=
  λ A B f r, match r with Ok a => Ok (f a) | Throw e => Throw e end.
#[export] Instance result_eq_dec {A} `{EqDecision A} : EqDecision (result A).
Proof. solve_decision. Defined.

(** The macro [EOS_ASSERT( expr, exc_type, ... )]. *)
Definition EOS_ASSERT (expr : bool) (exc_type : exn) : result unit :=
  if expr then Ok tt else Throw exc_type.

(** The macro [EOS_RETHROW_EXCEPTIONS]: exceptions of the chain library pass,
    those of other libraries become [exc_type]. *)
Definition EOS_RETHROW_EXCEPTIONS {A} (exc_type : exn) (r : result A) : result A :=
  match r with
  | Throw (std_out_of_range | std_logic_error) => Throw exc_type
  | _ => r
  end.

(** [optional<T>] read with the exception that a null value leads to. *)
Definition of_option {A} (e : exn) (o : option A) : result A :=
  match o with Some a => Ok a | None => Throw e end.

(** Loops whose body may throw. *)
Fixpoint fold_res {A S} (f : S → A → result S) (s : S) (l : list A) : result S :=
  match l with
  | [] => Ok s
  | x :: l => s' ← f s x; fold_res f s' l
  end.

(** ** Machine integers

    A [w]-bit unsigned integer is a [Z] in [0, 2^w); arithmetic that the
    source leaves unchecked wraps with [wrap w]. *)
Definition wrap (w x : Z) : Z := (x mod 2 ^ w)%Z.
Abbreviation u8 := (wrap 8).
Abbreviation u16 := (wrap 16).
Abbreviation u32 := (wrap 32).
Abbreviation u64 := (wrap 64).
Abbreviation u128 := (wrap 128).

(** Conversion to a signed 64-bit integer (two's complement). *)
Definition s64 (x : Z) : Z := ((x + 2 ^ 63) mod 2 ^ 64 - 2 ^ 63)%Z.
Definition s32 (x : Z) : Z := ((x + 2 ^ 31) mod 2 ^ 32 - 2 ^ 31)%Z.

Definition u8_max : Z := 255.
Definition u16_max : Z := 65535.
Definition u32_max : Z := 4294967295.
Definition u64_max : Z := 18446744073709551615.
Definition s64_max : Z := 9223372036854775807.

Definition in_u (w x : Z) : Prop := (0 ≤ x < 2 ^ w)%Z.
Definition in_s64 (x : Z) : Prop := (- 2 ^ 63 ≤ x < 2 ^ 63)%Z.

Create HintDb chain discriminated.

Section machine_integers.
Local Open Scope Z_scope.

Lemma wrap_small w x : in_u w x → wrap w x = x.
Proof. unfold wrap, in_u. intros H. apply Z.mod_small. lia. Qed.

Lemma wrap_range w x : 0 ≤ w → in_u w (wrap w x).
Proof. intros H. unfold wrap, in_u. apply Z.mod_pos_bound. lia. Qed.

Lemma wrap_le w x : 0 ≤ w → 0 ≤ x → wrap w x ≤ x.
Proof. intros. unfold wrap. apply Z.mod_le; lia. Qed.

Lemma s64_small x : in_s64 x → s64 x = x.
Proof. unfold s64, in_s64. intros H. rewrite Z.mod_small; lia. Qed.

Lemma s64_range x : in_s64 (s64 x).
Proof.
  unfold s64, in_s64. pose proof (Z.mod_pos_bound (x + 2 ^ 63) (2 ^ 64)). lia.
Qed.

(** A word fits in [w] bits iff nothing is left of it above bit [w]. *)
Lemma in_u_shiftr w x : 0 ≤ w → 0 ≤ x → in_u w x ↔ Z.shiftr x w = 0.
Proof.
  intros Hw Hx. unfold in_u. rewrite Z.shiftr_div_pow2 by done.
  pose proof (Z.pow_pos_nonneg 2 w ltac:(lia) Hw). split.
  - intros. apply Z.div_small. lia.
  - intros H0. apply Z.div_small_iff in H0; lia.
Qed.

Lemma in_u_lor w x y : 0 ≤ w → in_u w x → in_u w y → in_u w (Z.lor x y).
Proof.
  intros Hw Hx Hy. pose proof Hx as [? _]. pose proof Hy as [? _].
  apply in_u_shiftr; [done|by apply Z.lor_nonneg|].
  rewrite Z.shiftr_lor. apply in_u_shiftr in Hx, Hy; [|done..]. by rewrite Hx, Hy.
Qed.

Lemma in_u_land w x y : 0 ≤ w → 0 ≤ x → in_u w y → in_u w (Z.land x y).
Proof.
  intros Hw Hx Hy. pose proof Hy as [? _].
  apply in_u_shiftr; [done|apply Z.land_nonneg; by left|].
  rewrite Z.shiftr_land. apply in_u_shiftr in Hy as ->; [|done..]. apply Z.land_0_r.
Qed.

Lemma div_le_self a b : 0 ≤ a → 0 < b → a / b ≤ a.
Proof. intros. apply Z.div_le_upper_bound; nia. Qed.
End machine_integers.

#[export] Hint Resolve wrap_range s64_range in_u_lor in_u_land : chain.

(** ** Automation

    [res_inv] opens hypotheses that say a monadic computation returned [Ok]. *)
Lemma bind_Ok {A B} (m : result A) (f : A → result B) b :
  (m ≫= f) = Ok b ↔ ∃ a, m = Ok a ∧ f a = Ok b.
Proof. destruct m; simpl; naive_solver. Qed.

Lemma fmap_Ok {A B} (m : result A) (f : A → B) b :
  (f <$> m) = Ok b ↔ ∃ a, m = Ok a ∧ b = f a.
Proof. destruct m; simpl; naive_solver. Qed.

Lemma EOS_ASSERT_Ok c e u : EOS_ASSERT c e = Ok u ↔ c = true.
Proof. destruct c, u; naive_solver. Qed.

Lemma EOS_ASSERT_true e : EOS_ASSERT true e = Ok tt.
Proof. done. Qed.

Lemma of_option_Ok {A} e (o : option A) a : of_option e o = Ok a ↔ o = Some a.
Proof. destruct o; naive_solver. Qed.

Lemma fold_res_app {A S} (f : S → A → result S) s l1 l2 :
  fold_res f s (l1 ++ l2) = s' ← fold_res f s l1; fold_res f s' l2.
Proof.
  revert s. induction l1 as [|x l1 IH]; intros s; [done|]. simpl.
  destruct (f s x); simpl; [apply IH | done].
Qed.

(** An invariant of the loop body is an invariant of the loop. *)
Lemma fold_res_inv {A S} (I : S → Prop) (f : S → A → result S) l s s' :
  (∀ s x s', x ∈ l → I s → f s x = Ok s' → I s') →
  I s → fold_res f s l = Ok s' → I s'.
Proof.
  revert s. induction l as [|x l IH]; intros s Hf HI; simpl.
  - naive_solver.
  - intros (s1 & H1 & H2)%bind_Ok.
    apply (IH s1); [|by eapply Hf; [left|..]|done].
    intros; eapply Hf; [by right|..]; done.
Qed.

(** What the body establishes for its element, and later iterations keep, holds
    for every element after the loop. *)
Lemma fold_res_establish {A S} (P : A → S → Prop) (f : S → A → result S) l s s' :
  (∀ s x s', x ∈ l → f s x = Ok s' → P x s') →
  (∀ y s x s', P y s → f s x = Ok s' → P y s') →
  fold_res f s l = Ok s' → ∀ x, x ∈ l → P x s'.
Proof.
  intros Hest Hkeep. revert s Hest. induction l as [|y l IH]; intros s Hest H x Hx.
  { by apply elem_of_nil in Hx. }
  simpl in H. apply bind_Ok in H as (s1 & H1 & H2). apply elem_of_cons in Hx as [->|Hx].
  - apply (fold_res_inv (P y) f l s1 s'); [|by eapply Hest; [left|]|done].
    intros s0 z s0' _ HP. by apply Hkeep.
  - eapply IH; [|done|done]. intros. eapply Hest; [by right|done].
Qed.

Ltac res_inv :=
  repeat match goal with
  | H : mbind _ _ = Ok _ |- _ => apply bind_Ok in H; destruct H as (? & ? & H)
  | H : fmap _ _ = Ok _ |- _ => apply fmap_Ok in H; destruct H as (? & ? & H)
  | H : EOS_ASSERT _ _ = Ok _ |- _ => apply EOS_ASSERT_Ok in H
  | H : of_option _ _ = Ok _ |- _ => apply of_option_Ok in H
  | H : Ok _ = Ok _ |- _ => injection H as H; try subst
  | H : mret _ = Ok _ |- _ => injection H as H; try subst
  | H : Throw _ = Ok _ |- _ => discriminate H
  | H : (if ?c then Throw _ else _) = Ok _ |- _ => destruct c eqn:?; [discriminate H|]
  | H : (if ?c then _ else Throw _) = Ok _ |- _ => destruct c eqn:?; [|discriminate H]
  end.

(** [bool_prop] turns boolean hypotheses and goals into propositions. *)
Ltac bool_prop :=
  repeat match goal with
  | H : (_ && _) = true |- _ => apply andb_prop in H; destruct H
  | H : (_ || _) = false |- _ => apply orb_false_elim in H; destruct H
  | H : negb _ = true |- _ => apply negb_true_iff in H
  | H : negb _ = false |- _ => apply negb_false_iff in H
  | H : bool_decide _ = true |- _ => apply bool_decide_eq_true in H
  | H : bool_decide _ = false |- _ => apply bool_decide_eq_false in H
  | |- (_ && _) = true => apply andb_true_intro; split
  | |- bool_decide _ = true => apply bool_decide_eq_true
  | |- bool_decide _ = false => apply bool_decide_eq_false
  | |- negb _ = true => apply negb_true_iff
  end.

(** [bits i] proves an equation between words bit by bit. *)
#[export] Hint Rewrite Z.lor_spec Z.land_spec Z.testbit_0_l
  andb_false_r andb_true_r orb_false_r orb_true_r andb_false_l andb_true_l
  orb_false_l orb_true_l : bits.

(** ** Shared list lemmas *)

Section sums.
Local Open Scope Z_scope.

Definition sum_Z (l : list Z) : Z := foldr Z.add 0 l.

Lemma sum_Z_cons x l : sum_Z (x :: l) = x + sum_Z l.
Proof. done. Qed.

Lemma sum_Z_app l1 l2 : sum_Z (l1 ++ l2) = sum_Z l1 + sum_Z l2.
Proof. induction l1; simpl; lia. Qed.

Lemma sum_Z_nonneg l : Forall (λ x, 0 ≤ x) l → 0 ≤ sum_Z l.
Proof. induction 1; simpl; lia. Qed.

Lemma sum_Z_bound b l :
  0 ≤ b → Forall (λ x, 0 ≤ x ≤ b) l → 0 ≤ sum_Z l ≤ Z.of_nat (length l) * b.
Proof.
  intros Hb. induction 1 as [|x l Hx _ IH]; cbn [sum_Z foldr length]; [lia|].
  fold (sum_Z l). nia.
Qed.

(** Sums over the entries of a finite map. *)
Definition sum_map {K V} `{Countable K} (f : K → V → Z) (m : gmap K V) : Z :=
  map_fold (λ k v s, f k v + s) 0 m.

Lemma sum_map_empty {K V} `{Countable K} (f : K → V → Z) : sum_map f ∅ = 0.
Proof. apply map_fold_empty. Qed.

Lemma sum_map_insert {K V} `{Countable K} (f : K → V → Z) (m : gmap K V) k v :
  m !! k = None → sum_map f (<[k := v]> m) = f k v + sum_map f m.
Proof.
  intros Hk. unfold sum_map.
  apply (map_fold_insert_L (λ k v s, f k v + s)); [intros; lia|done].
Qed.

Lemma sum_map_delete {K V} `{Countable K} (f : K → V → Z) (m : gmap K V) k v :
  m !! k = Some v → sum_map f (delete k m) = sum_map f m - f k v.
Proof.
  intros Hk. rewrite <- (insert_delete_id m k v Hk) at 2.
  rewrite sum_map_insert by apply lookup_delete_eq. lia.
Qed.

Lemma sum_map_update {K V} `{Countable K} (f : K → V → Z) (m : gmap K V) k v v' :
  m !! k = Some v → sum_map f (<[k := v']> m) = sum_map f m - f k v + f k v'.
Proof.
  intros Hk. rewrite <- insert_delete_eq, sum_map_insert by apply lookup_delete_eq.
  rewrite (sum_map_delete f m k v Hk). lia.
Qed.

Lemma sum_map_nonneg {K V} `{Countable K} (f : K → V → Z) (m : gmap K V) :
  (∀ k v, 0 ≤ f k v) → 0 ≤ sum_map f m.
Proof.
  intros Hf. induction m as [|k v m Hk IH] using map_ind; [by rewrite sum_map_empty|].
  rewrite sum_map_insert by done. specialize (Hf k v). lia.
Qed.

Lemma sum_map_lookup {K V} `{Countable K} (f : K → V → Z) (m : gmap K V) k v :
  (∀ k v, 0 ≤ f k v) → m !! k = Some v → f k v ≤ sum_map f m.
Proof.
  intros Hf Hk. pose proof (sum_map_delete f m k v Hk).
  pose proof (sum_map_nonneg f (delete k m) Hf). lia.
Qed.

Lemma sum_map_pos {K V} `{Countable K} (f : K → V → Z) (m : gmap K V) :
  0 < sum_map f m → ∃ k v, m !! k = Some v ∧ 0 < f k v.
Proof.
  induction m as [|k v m Hk IH] using map_ind; [by rewrite sum_map_empty|].
  rewrite sum_map_insert by done. intros Hp. destruct (decide (0 < f k v)).
  - exists k, v. by rewrite lookup_insert_eq.
  - destruct IH as (k' & v' & Hk' & Hv'); [lia|]. exists k', v'.
    rewrite lookup_insert_ne by congruence. done.
Qed.

Lemma sum_map_zero {K V} `{Countable K} (m : gmap K V) : sum_map (λ _ _, 0) m = 0.
Proof.
  induction m as [|k v m Hk IH] using map_ind; [apply sum_map_empty|].
  rewrite sum_map_insert by done. lia.
Qed.

Lemma sum_map_ext {K V} `{Countable K} (f g : K → V → Z) (m : gmap K V) :
  (∀ k v, m !! k = Some v → f k v = g k v) → sum_map f m = sum_map g m.
Proof.
  induction m as [|k v m Hk IH] using map_ind; intros Hfg; [by rewrite !sum_map_empty|].
  rewrite !sum_map_insert by done. rewrite IH, (Hfg k v); [done|by rewrite lookup_insert_eq|].
  intros k' v' Hk'. apply Hfg. rewrite lookup_insert_ne by congruence. done.
Qed.

Lemma sum_Z_perm l1 l2 : l1 ≡ₚ l2 → sum_Z l1 = sum_Z l2.
Proof. induction 1; simpl; lia. Qed.
End sums.

Lemma filter_all {A} (P : A → Prop) `{∀ x, Decision (P x)} l : Forall P l → filter P l = l.
Proof. induction 1; [done|]. by rewrite filter_cons_True, IHForall. Qed.

Lemma filter_none {A} (P : A → Prop) `{∀ x, Decision (P x)} l :
  Forall (λ x, ¬ P x) l → filter P l = [].
Proof. induction 1; [done|]. by rewrite filter_cons_False. Qed.

#[export] Instance forallb_Permutation {A} (f : A → bool) :
  Proper ((≡ₚ) ==> (=)) (forallb f).
Proof.
  intros l1 l2. induction 1; simpl; [done|congruence|by destruct (f x), (f y)|congruence].
Qed.

(** Three-way comparison of a pair of words, as [std::tie] orders them. *)
Definition tie_lt (a b : Z * Z) : bool :=
  ((a.1 <? b.1) || ((a.1 =? b.1) && (a.2 <? b.2)))%Z.

Lemma tie_lt_spec a b :
  tie_lt a b = true ↔ (a.1 < b.1 ∨ (a.1 = b.1 ∧ a.2 < b.2))%Z.
Proof. unfold tie_lt. lia. Qed.
