(* ===== verification/Chainbase.v ===== *)
(** * The [chainbase] database, as the chain library relies on it

    [chainbase] is a git submodule whose sources are not in the repository, so
    its operations are parameters of every model that uses them.  An index is
    represented by its contents, a finite map from the key of one of its
    unique indices to the object; [Chainbase] holds the operations the code
    calls ([find], [get], [create], [modify], [remove]) and [ChainbaseLaws]
    their documented behaviour: [get] throws on a missing key, [create] throws
    when a uniqueness constraint is violated, [modify] runs the modifier on
    the object and keeps its key, [remove] erases it. *)

From S2P Require Import Prelude.

Class Chainbase := {
  db_find : ∀ {K V} `{Countable K}, gmap K V → K → option V;
  db_get : ∀ {K V} `{Countable K}, gmap K V → K → result V;
  db_create : ∀ {K V} `{Countable K}, gmap K V → K → V → result (gmap K V);
  db_modify : ∀ {K V} `{Countable K},
    gmap K V → K → (V → result V) → result (gmap K V);
  db_remove : ∀ {K V} `{Countable K}, gmap K V → K → gmap K V;
}.

Class ChainbaseLaws (db : Chainbase) : Prop := {
  db_find_spec : ∀ {K V} `{Countable K} (m : gmap K V) k, db_find m k = m !! k;
  db_get_spec : ∀ {K V} `{Countable K} (m : gmap K V) k,
    db_get m k = of_option std_out_of_range (m !! k);
  db_create_spec : ∀ {K V} `{Countable K} (m : gmap K V) k v,
    db_create m k v =
      match m !! k with None => Ok (<[k := v]> m) | Some _ => Throw std_logic_error end;
  db_modify_spec : ∀ {K V} `{Countable K} (m : gmap K V) k f,
    db_modify m k f =
      v ← of_option std_out_of_range (m !! k); v' ← f v; Ok (<[k := v']> m);
  db_remove_spec : ∀ {K V} `{Countable K} (m : gmap K V) k, db_remove m k = delete k m;
}.

(** The laws are consistent: finite maps with the evident operations satisfy
    them.  The witnesses of the development run on this instance. *)
#[export] Instance map_chainbase : Chainbase := {|
  db_find K V _ _ m k := m !! k;
  db_get K V _ _ m k := of_option std_out_of_range (m !! k);
  db_create K V _ _ m k v :=
    match m !! k with None => Ok (<[k := v]> m) | Some _ => Throw std_logic_error end;
  db_modify K V _ _ m k f :=
    v ← of_option std_out_of_range (m !! k); v' ← f v; Ok (<[k := v']> m);
  db_remove K V _ _ m k := delete k m;
|}.

#[export] Instance map_chainbase_laws : ChainbaseLaws map_chainbase.
Proof. by split. Qed.

(** [db_simpl] replaces database operations by what the laws say they do. *)
Ltac db_simpl :=
  rewrite ?db_find_spec, ?db_get_spec, ?db_create_spec, ?db_modify_spec, ?db_remove_spec.
Ltac db_simpl_in H :=
  rewrite ?db_find_spec, ?db_get_spec, ?db_create_spec, ?db_modify_spec, ?db_remove_spec in H.

Section derived.
Context {db : Chainbase} {laws : ChainbaseLaws db}.
Context {K V : Type} `{Countable K}.
Implicit Types (m : gmap K V) (k : K) (v : V).

Lemma db_get_Ok m k v : db_get m k = Ok v ↔ m !! k = Some v.
Proof. rewrite db_get_spec. apply of_option_Ok. Qed.

Lemma db_create_Ok m k v m' :
  db_create m k v = Ok m' ↔ m !! k = None ∧ m' = <[k := v]> m.
Proof. rewrite db_create_spec. destruct (m !! k); naive_solver. Qed.

Lemma db_modify_Ok m k f m' :
  db_modify m k f = Ok m' ↔
  ∃ v v', m !! k = Some v ∧ f v = Ok v' ∧ m' = <[k := v']> m.
Proof.
  rewrite db_modify_spec. rewrite bind_Ok. split.
  - intros (v & ?%of_option_Ok & H1). apply bind_Ok in H1 as (v' & ? & [= <-]).
    naive_solver.
  - intros (v & v' & Hv & Hf & ->). exists v. rewrite Hv; simpl. by rewrite Hf.
Qed.
End derived.

Ltac db_inv :=
  repeat (res_inv; match goal with
  | H : db_get _ _ = Ok _ |- _ => apply db_get_Ok in H
  | H : db_create _ _ _ = Ok _ |- _ => apply db_create_Ok in H; destruct H as [? H]
  | H : db_modify _ _ _ = Ok _ |- _ =>
      apply db_modify_Ok in H; destruct H as (? & ? & ? & ? & H)
  | H : context [db_find _ _] |- _ => rewrite db_find_spec in H
  | H : context [db_remove _ _] |- _ => rewrite db_remove_spec in H
  end); res_inv.
