(* ===== verification/Names.v ===== *)
(** * Account names ([name.hpp], [name.cpp])

    A [name] is a 64-bit word that packs up to thirteen characters: twelve
    5-bit digits from the top, and four bits for the thirteenth.  This file
    models the encoder [string_to_name], the decoder [name::operator string]
    and the checked constructor [name::set], and shows that they are inverse
    to each other on the whole range of 64-bit words. *)

From S2P Require Import Prelude.
From Stdlib Require Import Ascii.
Local Open Scope Z_scope.

(** A [const char*] is the list of the characters before its NUL; a
    [std::string] is a list of characters, and [c_str] cuts it at the first
    NUL, as a reader of the C string does. *)
Definition chars (s : string) : list ascii := String.list_ascii_of_string s.
Definition code (c : ascii) : Z := Z.of_N (N_of_ascii c).
Fixpoint c_str (s : list ascii) : list ascii :=
  match s with
  | [] => []
  | c :: s => if bool_decide (c = zero) then [] else c :: c_str s
  end.
(** [str[i]] of a C string, NUL at its end. *)
Definition char_at (str : list ascii) (i : nat) : ascii := default zero (str !! i).

Definition char_to_symbol (c : ascii) : Z :=
  if (code "a"%char <=? code c) && (code c <=? code "z"%char)
  then (code c - code "a"%char) + 6
  else if (code "1"%char <=? code c) && (code c <=? code "5"%char)
  then (code c - code "1"%char) + 1
  else 0.

(** The [for] loop of [string_to_name]; returns [name] and the final [i]. *)
Fixpoint string_to_name_loop (str : list ascii) (i : nat) (name : Z) : Z * nat :=
  match str with
  | [] => (name, i)
  | c :: str =>
      if (i <? 12)%nat then
        let digit := u64 (Z.shiftl (Z.land (char_to_symbol c) 0x1f)
                                   (64 - 5 * (Z.of_nat i + 1))) in
        string_to_name_loop str (S i) (Z.lor name digit)
      else (name, i)
  end.

Definition string_to_name (str : list ascii) : Z :=
  let '(name, i) := string_to_name_loop str 0 0 in
  if (i =? 12)%nat
  then Z.lor name (Z.land (char_to_symbol (char_at str 12)) 0x0F)
  else name.

Definition charmap : list ascii := chars ".12345abcdefghijklmnopqrstuvwxyz".

(** The loop of [name::operator string]: iteration [i] writes [str[12-i]], so
    the characters are produced from the right. *)
Fixpoint to_string_loop (n : nat) (i : nat) (tmp : Z) (str : list ascii) : list ascii :=
  match n with
  | O => str
  | S n =>
      let c := char_at charmap (Z.to_nat (Z.land tmp (if (i =? 0)%nat then 0x0f else 0x1f))) in
      to_string_loop n (S i) (Z.shiftr tmp (if (i =? 0)%nat then 4 else 5)) (c :: str)
  end.

(** The order on names: [operator <] compares the words. *)
Definition name_lt (a b : Z) : bool := a <? b.
Definition name_empty (a : Z) : bool := 0 =? a.

Section name.
(** [boost::algorithm::trim_right_if] *)
Context (trim_right_if : list ascii → (ascii → bool) → list ascii).

Definition is_dot (c : ascii) : bool := Ascii.eqb c "."%char.

Definition to_string (value : Z) : list ascii :=
  trim_right_if (to_string_loop 13 0 value []) is_dot.

Definition strnlen (str : list ascii) (maxlen : nat) : nat := length str `min` maxlen.

(** [name::set] *)
Definition set (str : list ascii) : result Z :=
  let len := strnlen str 14 in
  _ ← EOS_ASSERT (len <=? 13)%nat name_type_exception;
  let value := string_to_name str in
  _ ← EOS_ASSERT (bool_decide (to_string value = str)) name_type_exception;
  Ok value.

(** [name( const string& )] *)
Definition name_of_string (str : list ascii) : result Z := set (c_str str).

(** What Boost documents: the trailing characters that satisfy the
    predicate, and no other character, are removed. *)
Definition trim_right_spec : Prop := ∀ s p,
  ∃ suffix, s = trim_right_if s p ++ suffix ∧ Forall (λ c, p c = true) suffix ∧
    ∀ c, last (trim_right_if s p) = Some c → p c = false.
End name.

(** A concrete [trim_right_if], for the witnesses. *)
Fixpoint drop_while (p : ascii → bool) (s : list ascii) : list ascii :=
  match s with
  | [] => []
  | c :: s' => if p c then drop_while p s' else s
  end.
Definition trim_right_ref (s : list ascii) (p : ascii → bool) : list ascii :=
  rev (drop_while p (rev s)).

Lemma drop_while_spec p s :
  ∃ prefix, s = prefix ++ drop_while p s ∧ Forall (λ c, p c = true) prefix ∧
    ∀ c, head (drop_while p s) = Some c → p c = false.
Proof.
  induction s as [|c s (pre & Hs & Hpre & Hhd)]; simpl; [by exists []|].
  destruct (p c) eqn:Hc.
  - exists (c :: pre). simpl. split; [by f_equal|]. split; [by constructor|done].
  - exists []. split_and!; [done..|]. by intros c' [= <-].
Qed.

Lemma trim_right_ref_spec : trim_right_spec trim_right_ref.
Proof.
  intros s p. unfold trim_right_ref.
  destruct (drop_while_spec p (rev s)) as (pre & Hs & Hpre & Hhd).
  exists (rev pre). split_and!.
  - by rewrite <-rev_app_distr, <-Hs, rev_involutive.
  - by apply Forall_rev.
  - intros c. rewrite <-(rev_involutive (drop_while p (rev s))) in Hhd.
    intros Hc. apply Hhd. destruct (rev (drop_while p (rev s))) as [|x l] eqn:E using rev_ind;
      [done|]. rewrite rev_app_distr. rewrite last_snoc in Hc. by simplify_eq/=.
Qed.

(** ** Digits *)

Lemma char_to_symbol_range c : 0 ≤ char_to_symbol c < 32.
Proof.
  unfold char_to_symbol. change (code "a") with 97. change (code "z") with 122.
  change (code "1") with 49. change (code "5") with 53.
  repeat case_match; bool_prop; lia.
Qed.

Lemma char_to_symbol_charmap d :
  0 ≤ d < 32 → char_to_symbol (char_at charmap (Z.to_nat d)) = d.
Proof.
  intros Hd.
  assert (Forall (λ n, char_to_symbol (char_at charmap n) = Z.of_nat n) (seq 0 32)) as HF
    by (repeat constructor).
  rewrite Forall_forall in HF. rewrite HF; [lia|].
  apply elem_of_seq. lia.
Qed.

Lemma land_mask_range x w : 0 ≤ w → 0 ≤ Z.land x (Z.ones w) < 2 ^ w.
Proof. intros. rewrite Z.land_ones by done. apply Z.mod_pos_bound. lia. Qed.

(** The bits of [v] from [k] upwards. *)
Definition upper (k v : Z) : Z := Z.shiftl (Z.shiftr v k) k.

Lemma upper_step k w v :
  0 ≤ k → 0 ≤ w →
  Z.lor (upper (k + w) v) (Z.shiftl (Z.land (Z.shiftr v k) (Z.ones w)) k) = upper k v.
Proof.
  intros Hk Hw. unfold upper. apply Z.bits_inj'. intros n Hn.
  rewrite Z.lor_spec, !Z.shiftl_spec by done.
  destruct (decide (n < k)).
  { rewrite !(Z.testbit_neg_r _ (n - _)) by lia. done. }
  rewrite Z.land_spec, !(Z.shiftr_spec _ k) by lia.
  destruct (decide (n < k + w)).
  - rewrite (Z.testbit_neg_r _ (n - (k + w))) by lia.
    rewrite Z.ones_spec_low by lia. simpl. by rewrite andb_true_r.
  - rewrite Z.ones_spec_high, andb_false_r, orb_false_r by lia.
    rewrite Z.shiftr_spec by lia. f_equal. lia.
Qed.

Lemma upper_all v : in_u 64 v → upper 64 v = 0.
Proof.
  intros Hv. unfold upper, in_u in *.
  rewrite Z.shiftr_div_pow2, Z.div_small by lia. done.
Qed.

(** One step of the encoder on the character of one step of the decoder. *)
Lemma encode_digit v k s n :
  k = n → s = n → 0 ≤ n ≤ 59 →
  u64 (Z.shiftl (Z.land (char_to_symbol (char_at charmap (Z.to_nat
        (Z.land (Z.shiftr v k) 31)))) 31) s) =
  Z.shiftl (Z.land (Z.shiftr v n) (Z.ones 5)) n.
Proof.
  intros -> -> Hn. pose proof (land_mask_range (Z.shiftr v n) 5 ltac:(lia)) as Hd.
  change 31 with (Z.ones 5). rewrite char_to_symbol_charmap by done.
  rewrite <-Z.land_assoc. change (Z.land (Z.ones 5) (Z.ones 5)) with (Z.ones 5).
  apply wrap_small. unfold in_u. rewrite Z.shiftl_mul_pow2 by lia.
  assert (2 ^ n * 2 ^ 5 ≤ 2 ^ 64)
    by (rewrite <-Z.pow_add_r by lia; apply Z.pow_le_mono_r; lia).
  nia.
Qed.

Lemma encode_last_digit v :
  Z.land (char_to_symbol (char_at charmap (Z.to_nat (Z.land v 15)))) 15 =
  Z.shiftl (Z.land (Z.shiftr v 0) (Z.ones 4)) 0.
Proof.
  pose proof (land_mask_range v 4 ltac:(lia)) as Hd. change (Z.ones 4) with 15 in *.
  rewrite char_to_symbol_charmap by lia.
  rewrite <-Z.land_assoc, Z.shiftr_0_r, Z.shiftl_0_r. done.
Qed.

(** ** The encoder *)

Lemma string_to_name_loop_index str i name :
  (i ≤ 12)%nat → (string_to_name_loop str i name).2 = ((i + length str) `min` 12)%nat.
Proof.
  revert i name. induction str as [|c str IH]; intros i name Hi; simpl; [lia|].
  destruct (Nat.ltb_spec i 12); simpl; [rewrite IH by lia|]; lia.
Qed.

(** A trailing dot does not change the word. *)
Lemma string_to_name_loop_dot str i name :
  (string_to_name_loop (str ++ ["."%char]) i name).1 = (string_to_name_loop str i name).1.
Proof.
  revert i name. induction str as [|c str IH]; intros i name; simpl.
  - destruct (i <? 12)%nat; simpl; [|done].
    change (char_to_symbol ".") with 0. by rewrite Z.land_0_l, Z.shiftl_0_l, Z.lor_0_r.
  - destruct (i <? 12)%nat; simpl; [apply IH|done].
Qed.

Lemma string_to_name_dot str :
  (length str < 13)%nat → string_to_name (str ++ ["."%char]) = string_to_name str.
Proof.
  intros Hlen. unfold string_to_name.
  pose proof (string_to_name_loop_dot str 0 0) as Hn.
  pose proof (string_to_name_loop_index str 0 0 ltac:(lia)) as Hi1.
  pose proof (string_to_name_loop_index (str ++ ["."%char]) 0 0 ltac:(lia)) as Hi2.
  rewrite length_app in Hi2. simpl in Hi1, Hi2.
  destruct (string_to_name_loop (str ++ _) 0 0) as [n2 i2],
    (string_to_name_loop str 0 0) as [n1 i1]. simpl in *. subst.
  destruct (decide (length str = 12)%nat) as [E|E].
  - rewrite E. simpl. unfold char_at.
    rewrite lookup_app_r, E, (lookup_ge_None_2 str) by lia. done.
  - destruct (Nat.eqb_spec (length str `min` 12) 12); [lia|].
    destruct (Nat.eqb_spec ((length str + 1) `min` 12) 12) as [E'|]; [|done].
    assert (length str = 11)%nat as E'' by lia. unfold char_at.
    rewrite lookup_ge_None_2 by (rewrite length_app; simpl; lia).
    simpl. by rewrite Z.lor_0_r.
Qed.

Lemma string_to_name_dots str dots :
  Forall (λ c, is_dot c = true) dots → (length (str ++ dots) ≤ 13)%nat →
  string_to_name (str ++ dots) = string_to_name str.
Proof.
  intros Hd. induction dots as [|c dots IH] using rev_ind; intros Hlen.
  { by rewrite app_nil_r. }
  apply Forall_app in Hd as [Hd Hc]. apply Forall_singleton, Ascii.eqb_eq in Hc as ->.
  rewrite !length_app in Hlen. simpl in Hlen.
  rewrite app_assoc, string_to_name_dot, IH; rewrite ?length_app; done || lia.
Qed.

(** The thirteen untrimmed characters encode the word they come from. *)
Lemma string_to_name_full v :
  in_u 64 v → string_to_name (to_string_loop 13 0 v []) = v.
Proof.
  intros Hv. cbn -[Z.land Z.shiftr Z.shiftl Z.lor char_to_symbol char_at charmap wrap Z.to_nat].
  rewrite !Z.shiftr_shiftr by lia.
  repeat match goal with
  | |- context [char_to_symbol (char_at charmap (Z.to_nat (Z.land (Z.shiftr v ?k) 31)))] =>
      let n := eval vm_compute in k in erewrite (encode_digit v k _ n) by lia
  end.
  unfold char_at at 1. cbn [lookup list_lookup default option_fmap from_option id].
  rewrite encode_last_digit.
  match goal with |- context [Z.lor 0 ?x] =>
    replace (Z.lor 0 x) with (Z.lor (upper 64 v) x) by (by rewrite upper_all) end.
  repeat match goal with
  | |- context [Z.lor (upper ?a v) (Z.shiftl (Z.land (Z.shiftr v ?k) (Z.ones ?w)) ?k)] =>
      change (upper a v) with (upper (k + w) v); rewrite (upper_step k w v) by lia
  end.
  apply Z.shiftl_0_r.
Qed.

Lemma to_string_loop_length n i tmp str :
  length (to_string_loop n i tmp str) = (n + length str)%nat.
Proof. revert i tmp str. induction n as [|n IH]; intros; simpl; [done|]. rewrite IH. simpl. lia. Qed.

Lemma string_to_name_loop_range str i name :
  in_u 64 name → in_u 64 (string_to_name_loop str i name).1.
Proof.
  revert i name. induction str as [|c str IH]; intros i name Hn; simpl; [done|].
  destruct (i <? 12)%nat; simpl; [|done].
  apply IH, in_u_lor; auto with chain lia.
Qed.

Lemma string_to_name_range str : in_u 64 (string_to_name str).
Proof.
  unfold string_to_name. pose proof (string_to_name_loop_range str 0 0) as H.
  destruct (string_to_name_loop str 0 0) as [n i]. simpl in H.
  assert (in_u 64 n) by (apply H; unfold in_u; lia).
  case_match; [|done]. apply in_u_lor; [lia|done|].
  apply in_u_land; [lia|apply char_to_symbol_range|unfold in_u; lia].
Qed.

Section name_facts.
Context (trim_right_if : list ascii → (ascii → bool) → list ascii).
Hypothesis Htrim : trim_right_spec trim_right_if.

Lemma string_to_name_to_string v :
  in_u 64 v → string_to_name (to_string trim_right_if v) = v.
Proof.
  intros Hv. unfold to_string.
  destruct (Htrim (to_string_loop 13 0 v []) is_dot) as (dots & Hs & Hd & _).
  rewrite <-(string_to_name_full v Hv) at 2. rewrite Hs at 2.
  symmetry. apply string_to_name_dots; [done|].
  by rewrite <-Hs, to_string_loop_length.
Qed.

Lemma to_string_length v : (length (to_string trim_right_if v) ≤ 13)%nat.
Proof.
  unfold to_string.
  destruct (Htrim (to_string_loop 13 0 v []) is_dot) as (dots & Hs & _).
  apply (f_equal length) in Hs. rewrite to_string_loop_length, length_app in Hs.
  cbn [length] in Hs. lia.
Qed.

(** C36.  [name::set] accepts exactly the strings the decoder produces: it
    returns [v] if and only if [v] is a 64-bit word whose printed form is the
    given string, and on every other string it throws
    [name_type_exception].  In particular printing and parsing are inverse,
    on all 2^64 words, and no two accepted strings share a word. *)
Theorem set_iff_to_string str :
  (∀ v, set trim_right_if str = Ok v ↔ in_u 64 v ∧ to_string trim_right_if v = str) ∧
  (∀ e, set trim_right_if str = Throw e →
    e = name_type_exception ∧ ∀ v, in_u 64 v → to_string trim_right_if v ≠ str).
Proof.
  assert (∀ v, in_u 64 v → to_string trim_right_if v = str → set trim_right_if str = Ok v)
    as Hback.
  { intros v Hv <-. unfold set.
    pose proof (to_string_length v). rewrite string_to_name_to_string by done.
    rewrite bool_decide_true by done.
    destruct (Nat.leb_spec (strnlen (to_string trim_right_if v) 14) 13); [done|].
    unfold strnlen in *. lia. }
  split.
  - intros v. split; [|intros [??]; by apply Hback].
    intros H. unfold set in H. res_inv. bool_prop. auto using string_to_name_range.
  - intros e H. split.
    + revert H. unfold set, EOS_ASSERT. repeat case_match; simpl; naive_solver.
    + intros v Hv Hs. rewrite (Hback v) in H; done.
Qed.
End name_facts.

(** [set_iff_to_string] at the name of the system account. *)
Lemma set_iff_to_string_witness :
  trim_right_spec trim_right_ref ∧ set trim_right_ref (chars "codex") = Ok 4977232402976866304.
Proof.
  split; [exact trim_right_ref_spec|].
  apply (set_iff_to_string trim_right_ref trim_right_ref_spec).
  split; [unfold in_u; lia | vm_compute; reflexivity].
Defined.
