(* ===== verification/Fc.v ===== *)
(** * The [fc] utility library, as the chain library relies on it

    [fc] is a git submodule whose sources are not in the repository.  [Fc]
    holds the string and checked-arithmetic functions the modelled code calls
    and [FcLaws] what it relies on: [fc::trim] leaves a string without blank
    ends alone, [fc::to_string] prints decimal, [fc::to_int64] reads decimal
    digits with an optional sign, and [fc::safe<int64_t>] starts at zero and computes
    exactly while the result is representable. *)

From S2P Require Import Prelude Names.
From Stdlib Require Import Ascii.
Local Open Scope Z_scope.

Definition digit_char (d : Z) : ascii := ascii_of_N (Z.to_N (48 + d)).
Definition is_digit (c : ascii) : bool := (48 <=? code c) && (code c <=? 57).
Definition is_blank (c : ascii) : bool :=
  (code c =? 32) || ((9 <=? code c) && (code c <=? 13)).

(** Decimal notation of a non-negative integer, most significant digit first;
    twenty digits hold every 64-bit word. *)
Fixpoint decimal_loop (fuel : nat) (n : Z) (acc : list ascii) : list ascii :=
  match fuel with
  | O => acc
  | S fuel =>
      let acc := digit_char (n mod 10) :: acc in
      if n <? 10 then acc else decimal_loop fuel (n / 10) acc
  end.
Definition decimal (n : Z) : list ascii := decimal_loop 20 n [].

(** The number a string of digits denotes. *)
Definition dec_value (s : list ascii) : Z :=
  fold_left (λ v c, 10 * v + (code c - 48)) s 0.

Definition blank_ends (s : list ascii) : bool :=
  match s with
  | [] => false
  | c :: _ => is_blank c || is_blank (default " "%char (last s))
  end.

Class Fc := {
  fc_trim : list ascii → list ascii;
  fc_to_string : Z → list ascii;
  fc_to_int64 : list ascii → result Z;
  fc_safe_default : Z;
  fc_safe_add : Z → Z → result Z;
  fc_safe_mul : Z → Z → result Z;
}.

Class FcLaws (fc : Fc) : Prop := {
  fc_trim_spec : ∀ s, blank_ends s = false → fc_trim s = s;
  fc_to_string_spec : ∀ n, 0 ≤ n ≤ s64_max → fc_to_string n = decimal n;
  fc_to_int64_spec : ∀ s, s ≠ [] → forallb is_digit s = true → dec_value s ≤ s64_max →
    fc_to_int64 s = Ok (dec_value s);
  fc_to_int64_neg_spec : ∀ s, s ≠ [] → forallb is_digit s = true →
    dec_value s ≤ s64_max → fc_to_int64 ("-"%char :: s) = Ok (- dec_value s);
  fc_safe_default_spec : fc_safe_default = 0;
  fc_safe_add_spec : ∀ a b, in_s64 (a + b) → fc_safe_add a b = Ok (a + b);
  fc_safe_mul_spec : ∀ a b, in_s64 (a * b) → fc_safe_mul a b = Ok (a * b);
}.

(** An instance, on which the witnesses run. *)
Fixpoint drop_blank (s : list ascii) : list ascii :=
  match s with
  | [] => []
  | c :: s' => if is_blank c then drop_blank s' else s
  end.
Definition checked_s64 (x : Z) : result Z :=
  if (- 2 ^ 63 <=? x) && (x <? 2 ^ 63) then Ok x else Throw overflow_exception.
Definition read_digits (s : list ascii) : result Z :=
  if forallb is_digit s && negb (length s =? 0)%nat then Ok (dec_value s)
  else Throw overflow_exception.

#[export] Instance ref_fc : Fc := {|
  fc_trim s := reverse (drop_blank (reverse (drop_blank s)));
  fc_to_string n := if n <? 0 then "-"%char :: decimal (- n) else decimal n;
  fc_to_int64 s :=
    match s with
    | "-"%char :: s => v ← read_digits s; checked_s64 (- v)
    | s => v ← read_digits s; checked_s64 v
    end;
  fc_safe_default := 0;
  fc_safe_add a b := checked_s64 (a + b);
  fc_safe_mul a b := checked_s64 (a * b);
|}.

Lemma checked_s64_Ok x : in_s64 x → checked_s64 x = Ok x.
Proof.
  unfold in_s64, checked_s64. intros [H1 H2].
  by rewrite (proj2 (Z.leb_le _ _) H1), (proj2 (Z.ltb_lt _ _) H2).
Qed.

Lemma is_digit_value c : is_digit c = true → 0 ≤ code c - 48 ≤ 9.
Proof. unfold is_digit. lia. Qed.

Lemma dec_value_snoc s c : dec_value (s ++ [c]) = 10 * dec_value s + (code c - 48).
Proof. unfold dec_value. by rewrite fold_left_app. Qed.

Lemma dec_value_nonneg s : forallb is_digit s = true → 0 ≤ dec_value s.
Proof.
  induction s as [|c s IH] using rev_ind; [done|].
  rewrite forallb_app, dec_value_snoc. simpl. intros H. bool_prop.
  apply is_digit_value in H0. specialize (IH H). lia.
Qed.

Lemma drop_blank_head c s : is_blank c = false → drop_blank (c :: s) = c :: s.
Proof. intros H. simpl. by rewrite H. Qed.

Lemma ref_trim s : blank_ends s = false → reverse (drop_blank (reverse (drop_blank s))) = s.
Proof.
  destruct s as [|c s]; [done|]. intros H. unfold blank_ends in H. bool_prop.
  rewrite drop_blank_head by done.
  destruct (c :: s) as [|y l] using rev_ind; [done|].
  rewrite reverse_snoc, drop_blank_head, reverse_cons, reverse_involutive; [done|].
  by rewrite last_snoc in H0.
Qed.

Lemma read_digits_Ok s :
  s ≠ [] → forallb is_digit s = true → read_digits s = Ok (dec_value s).
Proof. intros Hs Hd. unfold read_digits. rewrite Hd. by destruct s. Qed.

#[export] Instance ref_fc_laws : FcLaws ref_fc.
Proof.
  split; cbn [fc_trim fc_to_string fc_to_int64 fc_safe_default fc_safe_add fc_safe_mul ref_fc].
  - apply ref_trim.
  - intros n Hn. by rewrite (proj2 (Z.ltb_ge n 0)) by lia.
  - intros s Hs Hd Hv. pose proof (dec_value_nonneg s Hd).
    assert (fc_to_int64 s = v ← read_digits s; checked_s64 v) as E.
    { destruct s as [|c s]; [done|]. destruct (decide (c = "-"%char)) as [->|Hc]; [done|].
      destruct c as [[] [] [] [] [] [] [] []]; try done. }
    cbn [fc_to_int64 ref_fc] in E. rewrite E, read_digits_Ok by done. simpl.
    apply checked_s64_Ok. unfold in_s64, s64_max in *. lia.
  - intros s Hs Hd Hv. pose proof (dec_value_nonneg s Hd).
    rewrite read_digits_Ok by done. simpl. apply checked_s64_Ok.
    unfold in_s64, s64_max in *. lia.
  - done.
  - intros. by apply checked_s64_Ok.
  - intros. by apply checked_s64_Ok.
Qed.

(** ** Decimal notation reads back *)
Lemma code_digit_char d : 0 ≤ d ≤ 9 → code (digit_char d) = 48 + d.
Proof.
  intros Hd. unfold code, digit_char. rewrite N_ascii_embedding; [lia|].
  change 256%N with (Z.to_N 256). lia.
Qed.

Lemma is_digit_digit_char d : 0 ≤ d ≤ 9 → is_digit (digit_char d) = true.
Proof. intros. unfold is_digit. rewrite code_digit_char by done. lia. Qed.

Lemma decimal_loop_acc fuel n acc :
  decimal_loop fuel n acc = decimal_loop fuel n [] ++ acc.
Proof.
  revert n acc. induction fuel as [|fuel IH]; intros n acc; [done|]. simpl.
  destruct (n <? 10); [done|]. rewrite IH, (IH _ [_]). by rewrite <- app_assoc.
Qed.

Lemma decimal_loop_spec fuel n : 0 ≤ n < 10 ^ Z.of_nat fuel → (0 < fuel)%nat →
  let s := decimal_loop fuel n [] in
  forallb is_digit s = true ∧ s ≠ [] ∧ dec_value s = n.
Proof.
  revert n. induction fuel as [|fuel IH]; intros n Hn Hf; [lia|]. simpl.
  pose proof (Z.mod_pos_bound n 10 ltac:(lia)) as Hm.
  destruct (Z.ltb_spec n 10).
  - rewrite Z.mod_small by lia. simpl. unfold dec_value. simpl.
    rewrite is_digit_digit_char, code_digit_char by lia. split_and!; [done|done|lia].
  - assert (0 ≤ n / 10 < 10 ^ Z.of_nat fuel) as Hq.
    { rewrite Nat2Z.inj_succ, Z.pow_succ_r in Hn by lia. split; [apply Z.div_pos; lia|].
      apply Z.div_lt_upper_bound; lia. }
    assert (0 < fuel)%nat as Hf' by (destruct fuel; [change (10 ^ Z.of_nat 0) with 1 in Hq|]; lia).
    destruct (IH _ Hq Hf') as (Hd & Hne & Hv). rewrite decimal_loop_acc.
    rewrite forallb_app, Hd, dec_value_snoc, Hv, code_digit_char by lia. simpl.
    rewrite is_digit_digit_char by lia. split_and!; [done| |].
    + by intros [? ?]%app_eq_nil.
    + pose proof (Z.div_mod n 10). lia.
Qed.

Lemma decimal_spec n : 0 ≤ n ≤ u64_max →
  forallb is_digit (decimal n) = true ∧ decimal n ≠ [] ∧ dec_value (decimal n) = n.
Proof. intros. apply decimal_loop_spec; [unfold u64_max in *|]; lia. Qed.
