(* ===== verification/Assets.v ===== *)
(** * Symbols and assets ([symbol.hpp], [asset.hpp], [asset.cpp])

    A symbol is a 64-bit word: the number of decimals in its low byte and up
    to seven upper-case letters above it.  An asset is a signed 64-bit amount
    with a symbol; its constructor bounds the amount by [max_amount], so that
    the checked operators [+] and [-] never leave the machine range. *)

From S2P Require Import Prelude Names Fc.
From Stdlib Require Import Ascii.
Local Open Scope Z_scope.

(** ** Symbols *)
Definition is_upper (c : ascii) : bool :=
  (code "A"%char <=? code c) && (code c <=? code "Z"%char).

(** [string_to_symbol_c], evaluated at compile time by the macro [SY]: the
    argument is an ASCII literal of at most seven characters. *)
Fixpoint string_to_symbol_c_loop (str : list ascii) (i : Z) (result : Z) : Z :=
  match str with
  | [] => result
  | c :: str =>
      string_to_symbol_c_loop str (i + 1)
        (Z.lor result (u64 (Z.shiftl (code c) (8 * (1 + i)))))
  end.
Definition string_to_symbol_c (precision : Z) (str : list ascii) : Z :=
  Z.lor (string_to_symbol_c_loop str 0 0) precision.
Definition CORE_SYMBOL : Z := string_to_symbol_c 4 (chars "CDX").

(** [string_to_symbol]; a shift by 64 bits or more is undefined. *)
Fixpoint string_to_symbol_loop (str : list ascii) (i : Z) (res : Z) : result Z :=
  match str with
  | [] => Ok res
  | c :: str =>
      _ ← EOS_ASSERT (is_upper c) symbol_type_exception;
      if 64 <=? 8 * (i + 1) then Throw undefined_behaviour else
      string_to_symbol_loop str (i + 1)
        (Z.lor res (u64 (Z.shiftl (code c) (8 * (i + 1)))))
  end.
Definition string_to_symbol (precision : Z) (str : list ascii) : result Z :=
  res ← string_to_symbol_loop str 0 0; Ok (Z.lor res precision).

Definition max_precision : Z := 18.

(** [symbol::name]: the loop runs while [v > 0], which is at most seven times
    for a word shifted right by 8. *)
Fixpoint symbol_name_loop (fuel : nat) (v : Z) : list ascii :=
  match fuel with
  | O => []
  | S fuel =>
      if 0 <? v
      then ascii_of_N (Z.to_N (Z.land v 0xFF)) :: symbol_name_loop fuel (Z.shiftr v 8)
      else []
  end.
Definition symbol_name (v : Z) : list ascii := symbol_name_loop 8 (Z.shiftr v 8).

Definition decimals (v : Z) : Z := Z.land v 0xFF.
Definition valid_name (name : list ascii) : bool := forallb is_upper name.
Definition symbol_valid (v : Z) : bool :=
  (decimals v <=? max_precision) && valid_name (symbol_name v).

(** The two constructors. *)
Definition symbol_of_value (v : Z) : result Z :=
  _ ← EOS_ASSERT (symbol_valid v) symbol_type_exception; Ok v.
Definition symbol_of_name (p : Z) (s : list ascii) : result Z :=
  v ← string_to_symbol p s; symbol_of_value v.

Fixpoint precision_loop (p : nat) (p10 : Z) : Z :=
  match p with O => p10 | S p => precision_loop p (u64 (p10 * 10)) end.
Definition precision (v : Z) : result Z :=
  _ ← EOS_ASSERT (decimals v <=? max_precision) symbol_type_exception;
  Ok (precision_loop (Z.to_nat (decimals v)) 1).

Definition symbol_to_string (v : Z) : list ascii :=
  decimal (Z.land v 0xFF) ++ ","%char :: symbol_name v.

Definition symbol_reflector_init (v : Z) : result unit :=
  _ ← EOS_ASSERT (decimals v <=? max_precision) symbol_type_exception;
  EOS_ASSERT (valid_name (symbol_name v)) symbol_type_exception.

(** [std::string::find] of a character. *)
Fixpoint find_char (c : ascii) (s : list ascii) : option nat :=
  match s with
  | [] => None
  | x :: s => if Ascii.eqb x c then Some O else S <$> find_char c s
  end.

Section strings.
Context {fc : Fc}.

(** [symbol::from_string]; [uint8_t p = fc::to_int64(prec_part)] keeps the
    low byte. *)
Definition symbol_from_string (from : list ascii) : result Z :=
  let s := fc_trim from in
  _ ← EOS_ASSERT (negb (length s =? 0)%nat) symbol_type_exception;
  comma_pos ← of_option symbol_type_exception (find_char ","%char s);
  prec ← fc_to_int64 (take comma_pos s);
  let p := u8 prec in
  let name_part := drop (S comma_pos) s in
  _ ← EOS_ASSERT (p <=? max_precision) symbol_type_exception;
  v ← string_to_symbol p (c_str name_part);
  symbol_of_value v.
End strings.

(** ** Assets *)
Record asset := Asset { amount : Z; sym : Z }.

#[export] Instance asset_eq_dec : EqDecision asset.
Proof. solve_decision. Defined.

Definition max_amount : Z := 2 ^ 62 - 1.
Definition is_amount_within_range (a : asset) : bool :=
  (- max_amount <=? amount a) && (amount a <=? max_amount).
Definition is_valid (a : asset) : bool := is_amount_within_range a && symbol_valid (sym a).

Definition asset_ctor (a : Z) (id : Z) : result asset :=
  let r := Asset a id in
  _ ← EOS_ASSERT (is_amount_within_range r) asset_type_exception;
  _ ← EOS_ASSERT (symbol_valid (sym r)) asset_type_exception;
  Ok r.
Definition asset_reflector_init (a : asset) : result unit :=
  _ ← EOS_ASSERT (is_amount_within_range a) asset_type_exception;
  EOS_ASSERT (symbol_valid (sym a)) asset_type_exception.

(** Signed 64-bit arithmetic: overflow is undefined. *)
Definition int64_op (x : Z) : result Z :=
  if (- 2 ^ 63 <=? x) && (x <? 2 ^ 63) then Ok x else Throw undefined_behaviour.

Definition asset_add_assign (a o : asset) : result asset :=
  _ ← EOS_ASSERT (sym a =? sym o) asset_type_exception;
  r ← int64_op (amount a + amount o);
  Ok (Asset r (sym a)).
Definition asset_sub_assign (a o : asset) : result asset :=
  _ ← EOS_ASSERT (sym a =? sym o) asset_type_exception;
  r ← int64_op (amount a - amount o);
  Ok (Asset r (sym a)).
Definition asset_neg (a : asset) : result asset :=
  r ← int64_op (- amount a); asset_ctor r (sym a).
Definition asset_add (a b : asset) : result asset :=
  _ ← EOS_ASSERT (sym a =? sym b) asset_type_exception;
  r ← int64_op (amount a + amount b); asset_ctor r (sym a).
Definition asset_sub (a b : asset) : result asset :=
  _ ← EOS_ASSERT (sym a =? sym b) asset_type_exception;
  r ← int64_op (amount a - amount b); asset_ctor r (sym a).

Definition asset_eq (a b : asset) : bool := (sym a =? sym b) && (amount a =? amount b).
Definition asset_lt (a b : asset) : result bool :=
  _ ← EOS_ASSERT (sym a =? sym b) asset_type_exception;
  Ok (tie_lt (amount a, sym a) (amount b, sym b)).
Definition asset_le (a b : asset) : result bool :=
  if asset_eq a b then Ok true else asset_lt a b.
Definition asset_gt (a b : asset) : result bool := negb <$> asset_le a b.
Definition asset_ge (a b : asset) : result bool := negb <$> asset_lt a b.

Section asset_strings.
Context {fc : Fc}.

Definition asset_to_string (a : asset) : result (list ascii) :=
  let sign := if amount a <? 0 then ["-"%char] else [] in
  if amount a =? - 2 ^ 63 then Throw undefined_behaviour else
  let abs_amount := Z.abs (amount a) in
  prec ← precision (sym a);
  let result := fc_to_string (abs_amount ÷ s64 prec) in
  let result :=
    if negb (decimals (sym a) =? 0)
    then result ++ "."%char ::
           drop 1 (fc_to_string (s64 prec + Z.rem abs_amount (s64 prec)))
    else result in
  Ok (sign ++ result ++ " "%char :: symbol_name (sym a)).

(** The part of [asset::from_string] after the amount and the symbol have been
    separated. *)
Definition asset_of_parts (amount_str symbol_str : list ascii) : result asset :=
  let dot_pos := find_char "."%char amount_str in
  _ ← match dot_pos with
      | Some d => EOS_ASSERT (negb (d =? length amount_str - 1)%nat) asset_type_exception
      | None => Ok tt
      end;
  let precision_digit_str :=
    match dot_pos with
    | Some d => decimal (Z.of_nat (length amount_str - d - 1))
    | None => ["0"%char]
    end in
  sm ← symbol_from_string (precision_digit_str ++ ","%char :: symbol_str);
  parts ← match dot_pos with
          | Some d =>
              int_part ← fc_to_int64 (take d amount_str);
              fract_part ← fc_to_int64 (drop (S d) amount_str);
              fract_part ← if Ascii.eqb (char_at amount_str 0) "-"%char
                           then fc_safe_mul fract_part (-1) else Ok fract_part;
              Ok (int_part, fract_part)
          | None => int_part ← fc_to_int64 amount_str; Ok (int_part, fc_safe_default)
          end;
  let '(int_part, fract_part) := parts in
  prec ← precision sm;
  amt ← fc_safe_mul int_part (s64 prec);
  amt ← fc_safe_add amt fract_part;
  asset_ctor amt sm.

Definition asset_from_string (from : list ascii) : result asset :=
  let s := fc_trim from in
  space_pos ← of_option asset_type_exception (find_char " "%char s);
  let symbol_str := fc_trim (drop (S space_pos) s) in
  let amount_str := take space_pos s in
  asset_of_parts amount_str symbol_str.
End asset_strings.

(** ** The packed form of a symbol *)
Fixpoint pack (s : list ascii) : Z :=
  match s with [] => 0 | c :: s => code c + 256 * pack s end.

Lemma code_range c : 0 ≤ code c < 256.
Proof. unfold code. pose proof (N_ascii_bounded c). lia. Qed.

Lemma is_upper_code c : is_upper c = true → 65 ≤ code c ≤ 90.
Proof. unfold is_upper. change (code "A") with 65. change (code "Z") with 90. lia. Qed.

Lemma lor_disjoint r x k : 0 ≤ k → 0 ≤ r < 2 ^ k → Z.lor r (x * 2 ^ k) = r + x * 2 ^ k.
Proof.
  intros Hk Hr. rewrite <- Z.add_lor_land, <- Z.shiftl_mul_pow2 by done.
  enough (Z.land r (Z.shiftl x k) = 0) by lia. apply Z.bits_inj'. intros n Hn. autorewrite with bits.
  rewrite Z.shiftl_spec by done. destruct (Z.ltb_spec n k).
  - rewrite (Z.testbit_neg_r x) by lia. by autorewrite with bits.
  - destruct (decide (r = 0)) as [->|]; [by rewrite Z.testbit_0_l|].
    rewrite (Z.bits_above_log2 r n); [done|lia|].
    apply Z.log2_lt_pow2; [lia|]. eapply Z.lt_le_trans; [apply Hr|].
    apply Z.pow_le_mono_r; lia.
Qed.

Lemma pack_bound s : 0 ≤ pack s < 256 ^ Z.of_nat (length s).
Proof.
  induction s as [|c s IH]; [done|]. cbn [pack length].
  rewrite Nat2Z.inj_succ, Z.pow_succ_r by lia. pose proof (code_range c). lia.
Qed.

Lemma pow256 i : 0 ≤ i → 256 ^ i = 2 ^ (8 * i).
Proof. intros. by rewrite Z.pow_mul_r by lia. Qed.

Lemma string_to_symbol_loop_spec s : ∀ i r,
  valid_name s = true → 0 ≤ i → i + Z.of_nat (length s) ≤ 7 → 0 ≤ r < 256 ^ (i + 1) →
  string_to_symbol_loop s i r = Ok (r + 256 ^ (i + 1) * pack s).
Proof.
  induction s as [|c s IH]; intros i r Hs Hi Hl Hr; cbn [string_to_symbol_loop pack].
  { f_equal. lia. }
  cbn [valid_name forallb] in Hs. bool_prop. rewrite H. cbn [length] in Hl.
  rewrite Nat2Z.inj_succ in Hl. cbn -[Z.pow Z.mul Z.shiftl]. rewrite (proj2 (Z.leb_gt _ _)) by lia.
  pose proof (is_upper_code c H) as Hc. rewrite pow256 in * by lia.
  assert (2 ^ (8 * (i + 1)) ≤ 2 ^ 56) by (apply Z.pow_le_mono_r; lia).
  rewrite Z.shiftl_mul_pow2 by lia.
  rewrite (wrap_small 64) by (unfold in_u; nia).
  rewrite lor_disjoint by lia.
  assert (2 ^ (8 * (i + 1 + 1)) = 256 * 2 ^ (8 * (i + 1))) as E.
  { replace (8 * (i + 1 + 1)) with (8 + 8 * (i + 1)) by lia. by rewrite Z.pow_add_r by lia. }
  rewrite IH; [|done|lia|lia|rewrite pow256, E by lia; nia].
  rewrite pow256, E by lia. f_equal. lia.
Qed.

Lemma string_to_symbol_pack p s : in_u 8 p → valid_name s = true → (length s ≤ 7)%nat →
  string_to_symbol p s = Ok (p + 256 * pack s).
Proof.
  intros Hp Hs Hl. unfold string_to_symbol.
  rewrite string_to_symbol_loop_spec by (done || lia). cbn [mbind result_bind]. f_equal.
  rewrite Z.lor_comm, Z.add_0_l. change (256 ^ (0 + 1)) with (2 ^ 8).
  rewrite (Z.mul_comm (2 ^ 8)), lor_disjoint; [|lia|apply Hp]. lia.
Qed.

Lemma symbol_parts p w : in_u 8 p → 0 ≤ w →
  decimals (p + 256 * w) = p ∧ Z.shiftr (p + 256 * w) 8 = w.
Proof.
  unfold in_u, decimals. change (2 ^ 8) with 256. intros Hp Hw.
  change 255 with (Z.ones 8). rewrite Z.land_ones, Z.shiftr_div_pow2 by lia.
  change (2 ^ 8) with 256. split.
  - rewrite Z.mul_comm, Z.mod_add by lia. apply Z.mod_small. lia.
  - rewrite Z.mul_comm, Z.div_add by lia. rewrite Z.div_small by lia. lia.
Qed.

Lemma symbol_split v : 0 ≤ v → v = decimals v + 256 * Z.shiftr v 8.
Proof.
  intros Hv. unfold decimals. change 255 with (Z.ones 8).
  rewrite Z.land_ones, Z.shiftr_div_pow2 by lia. pose proof (Z.div_mod v (2 ^ 8)). lia.
Qed.

Lemma decimals_range v : 0 ≤ v → in_u 8 (decimals v).
Proof. intros. apply in_u_land; [done|done|]. unfold in_u. lia. Qed.

Lemma symbol_name_loop_pack s fuel : valid_name s = true → (length s ≤ fuel)%nat →
  symbol_name_loop fuel (pack s) = s.
Proof.
  revert fuel. induction s as [|c s IH]; intros [|fuel] Hs Hl; cbn [length] in Hl; try lia.
  { done. } { done. }
  cbn [valid_name forallb] in Hs. bool_prop. pose proof (is_upper_code c H) as Hc.
  pose proof (pack_bound s) as [Hp _]. cbn [pack symbol_name_loop].
  rewrite (proj2 (Z.ltb_lt 0 _)) by lia.
  destruct (symbol_parts (code c) (pack s)) as [E1 E2]; [unfold in_u; lia|done|].
  unfold decimals in E1. rewrite E1, E2, IH by (done || lia).
  unfold code. by rewrite N2Z.id, ascii_N_embedding.
Qed.

Lemma pack_symbol_name_loop fuel v : 0 ≤ v < 256 ^ Z.of_nat fuel →
  pack (symbol_name_loop fuel v) = v ∧ (length (symbol_name_loop fuel v) ≤ fuel)%nat.
Proof.
  revert v. induction fuel as [|fuel IH]; intros v Hv; cbn [symbol_name_loop].
  { change (256 ^ Z.of_nat 0) with 1 in Hv. simpl. lia. }
  rewrite Nat2Z.inj_succ, Z.pow_succ_r in Hv by lia.
  destruct (Z.ltb_spec 0 v); [|simpl; lia].
  pose proof (symbol_split v ltac:(lia)) as E. pose proof (decimals_range v ltac:(lia)) as R.
  unfold decimals, in_u in *. change (2 ^ 8) with 256 in R.
  destruct (IH (Z.shiftr v 8)) as [E1 E2]; [lia|]. cbn [pack length].
  rewrite E1. unfold code. rewrite N_ascii_embedding by lia. lia.
Qed.

(** The name of a 64-bit symbol has at most seven letters, and with the number
    of decimals it determines the word. *)
Lemma symbol_name_pack v : in_u 64 v →
  v = decimals v + 256 * pack (symbol_name v) ∧ (length (symbol_name v) ≤ 7)%nat.
Proof.
  intros [Hv Hv']. pose proof (symbol_split v Hv) as E.
  assert (0 ≤ Z.shiftr v 8 < 256 ^ Z.of_nat 7) as Hs.
  { split; [by apply Z.shiftr_nonneg|]. rewrite Z.shiftr_div_pow2 by lia.
    apply Z.div_lt_upper_bound; lia. }
  assert (symbol_name v = symbol_name_loop 7 (Z.shiftr v 8)) as ->.
  { unfold symbol_name. revert Hs. generalize (Z.shiftr v 8). intros w.
    assert (∀ n u, 0 ≤ u < 256 ^ Z.of_nat n →
      symbol_name_loop (S n) u = symbol_name_loop n u) as Hn; [|apply (Hn 7%nat)].
    induction n as [|n IH]; intros u Hu.
    - change (256 ^ Z.of_nat 0) with 1 in Hu. by replace u with 0 by lia.
    - cbn [symbol_name_loop] in IH |- *. destruct (0 <? u); [|done]. f_equal. apply IH.
      rewrite Nat2Z.inj_succ, Z.pow_succ_r in Hu by lia.
      pose proof (symbol_split u ltac:(lia)). pose proof (decimals_range u ltac:(lia)) as R.
      unfold in_u in R. lia. }
  destruct (pack_symbol_name_loop 7 _ Hs) as [-> ?]. done.
Qed.

(** Symbols round trip in both directions: a name of at most seven
    upper-case letters and a byte of decimals are read back from the word
    [string_to_symbol] builds, and a valid 64-bit symbol is rebuilt from its
    decimals and its name. *)
Theorem symbol_roundtrip :
  (∀ p s, in_u 8 p → valid_name s = true → (length s ≤ 7)%nat →
     ∃ v, string_to_symbol p s = Ok v ∧ in_u 64 v ∧ decimals v = p ∧ symbol_name v = s) ∧
  (∀ v, in_u 64 v → symbol_valid v = true →
     symbol_of_name (decimals v) (symbol_name v) = Ok v).
Proof.
  split.
  - intros p s Hp Hs Hl. exists (p + 256 * pack s).
    pose proof (pack_bound s) as Hb.
    assert (256 ^ Z.of_nat (length s) ≤ 256 ^ 7) by (apply Z.pow_le_mono_r; lia).
    destruct (symbol_parts p (pack s) Hp ltac:(lia)) as [E1 E2].
    split_and!; [by apply string_to_symbol_pack| |done|].
    + unfold in_u in *. lia.
    + unfold symbol_name. rewrite E2. apply symbol_name_loop_pack; [done|lia].
  - intros v Hv Hval. destruct (symbol_name_pack v Hv) as [E Hl].
    pose proof Hval as Hval'. unfold symbol_valid in Hval'. bool_prop.
    unfold symbol_of_name. rewrite string_to_symbol_pack; [|apply decimals_range, Hv|done|done].
    rewrite <- E. simpl. unfold symbol_of_value. by rewrite Hval.
Qed.

Lemma symbol_roundtrip_witness :
  symbol_of_name (decimals CORE_SYMBOL) (symbol_name CORE_SYMBOL) = Ok CORE_SYMBOL ∧
  ∃ v, string_to_symbol 4 (chars "CODEXIO") = Ok v ∧ symbol_name v = chars "CODEXIO".
Proof.
  split.
  - apply (proj2 symbol_roundtrip); [split; vm_compute; congruence | vm_compute; reflexivity].
  - destruct (proj1 symbol_roundtrip 4 (chars "CODEXIO")) as (v & H & _ & _ & H').
    + split; vm_compute; congruence.
    + vm_compute; reflexivity.
    + vm_compute; lia.
    + exists v. split; assumption.
Defined.

(** ** Precision *)
Lemma precision_loop_spec n : ∀ p10,
  0 ≤ p10 → p10 * 10 ^ Z.of_nat n < 2 ^ 64 → precision_loop n p10 = p10 * 10 ^ Z.of_nat n.
Proof.
  induction n as [|n IH]; intros p10 H0 H1; cbn [precision_loop].
  { change (10 ^ Z.of_nat 0) with 1. lia. }
  rewrite Nat2Z.inj_succ, Z.pow_succ_r in * by lia.
  pose proof (Z.pow_pos_nonneg 10 (Z.of_nat n) ltac:(lia) ltac:(lia)).
  rewrite (wrap_small 64) by (unfold in_u; nia). rewrite IH; lia.
Qed.

Lemma pow10_le p : 0 ≤ p ≤ 18 → 1 ≤ 10 ^ p ≤ 10 ^ 18.
Proof. intros. split; [change 1 with (10 ^ 0)|]; apply Z.pow_le_mono_r; lia. Qed.

Lemma precision_spec v : 0 ≤ v → decimals v ≤ 18 → precision v = Ok (10 ^ decimals v).
Proof.
  intros Hv Hd. pose proof (decimals_range v Hv) as [Hd0 _]. unfold precision, max_precision.
  rewrite (proj2 (Z.leb_le _ _) Hd). simpl. pose proof (pow10_le (decimals v)).
  f_equal. rewrite precision_loop_spec; rewrite ?Z2Nat.id by done; lia.
Qed.

Lemma symbol_valid_decimals v : symbol_valid v = true → decimals v ≤ 18.
Proof. unfold symbol_valid, max_precision. lia. Qed.

(** ** Arithmetic *)
Lemma int64_op_Ok x : in_s64 x → int64_op x = Ok x.
Proof.
  unfold in_s64, int64_op. intros [H1 H2].
  by rewrite (proj2 (Z.leb_le _ _) H1), (proj2 (Z.ltb_lt _ _) H2).
Qed.

Lemma asset_ctor_spec x s : symbol_valid s = true →
  asset_ctor x s =
    if (- max_amount <=? x) && (x <=? max_amount) then Ok (Asset x s)
    else Throw asset_type_exception.
Proof.
  intros Hs. unfold asset_ctor, is_amount_within_range. simpl. rewrite Hs.
  by destruct (_ && _).
Qed.

Lemma is_valid_range a : is_valid a = true →
  - max_amount ≤ amount a ≤ max_amount ∧ symbol_valid (sym a) = true.
Proof. unfold is_valid, is_amount_within_range. intros H. bool_prop. split; [lia|done]. Qed.



(** [+=] has no range check: two valid assets add up to an invalid one. *)
Lemma asset_add_assign_invalid :
  let a := Asset max_amount CORE_SYMBOL in
  is_valid a = true ∧
  ∃ r, asset_add_assign a (Asset 1 CORE_SYMBOL) = Ok r ∧ is_valid r = false.
Proof.
  cbv zeta. split; [vm_compute; reflexivity|].
  exists (Asset (2 ^ 62) CORE_SYMBOL). split; vm_compute; reflexivity.
Qed.

(** ** Printing and reading *)
Section print_read.
Context {fc : Fc} {laws : FcLaws fc}.

Lemma find_char_app c l r : forallb (λ x, negb (Ascii.eqb x c)) l = true →
  find_char c (l ++ c :: r) = Some (length l).
Proof.
  induction l as [|x l IH]; simpl; [by rewrite Ascii.eqb_refl|].
  intros H. bool_prop. rewrite H. by rewrite IH.
Qed.

Lemma find_char_none c l : forallb (λ x, negb (Ascii.eqb x c)) l = true → find_char c l = None.
Proof.
  induction l as [|x l IH]; simpl; [done|]. intros H. bool_prop. rewrite H. by rewrite IH.
Qed.

Lemma forallb_impl {A} (f g : A → bool) l :
  (∀ x, f x = true → g x = true) → forallb f l = true → forallb g l = true.
Proof. intros Hfg. rewrite !forallb_forall. naive_solver. Qed.

Lemma is_digit_neq c d : is_digit d = false → is_digit c = true → negb (Ascii.eqb c d) = true.
Proof. intros Hd Hc. apply negb_true_iff, Ascii.eqb_neq. congruence. Qed.

Lemma blank_ends_app c s l : is_blank c = false → is_blank l = false →
  blank_ends (c :: s ++ [l]) = false.
Proof.
  intros Hc Hl. unfold blank_ends. rewrite app_comm_cons, last_snoc. simpl. by rewrite Hc, Hl.
Qed.

Lemma is_upper_not_blank c : is_upper c = true → is_blank c = false.
Proof. intros H%is_upper_code. unfold is_blank. lia. Qed.

Lemma is_digit_not_blank c : is_digit c = true → is_blank c = false.
Proof. intros H%is_digit_value. unfold is_blank. lia. Qed.

Lemma c_str_upper s : valid_name s = true → c_str s = s.
Proof.
  induction s as [|c s IH]; [done|]. cbn [valid_name forallb c_str]. intros H. bool_prop.
  destruct (bool_decide_reflect (c = Ascii.zero)) as [->|]; [done|]. by rewrite IH.
Qed.

Lemma valid_name_snoc s : valid_name s = true → s ≠ [] →
  ∃ s' l, s = s' ++ [l] ∧ is_upper l = true.
Proof.
  intros Hv Hs. destruct s as [|l s' _] using rev_ind; [done|].
  exists s', l. split; [done|]. unfold valid_name in Hv. rewrite forallb_app in Hv.
  simpl in Hv. bool_prop. done.
Qed.

Lemma valid_name_trim s : valid_name s = true → fc_trim s = s.
Proof.
  intros Hv. apply fc_trim_spec. destruct s as [|c s]; [done|].
  destruct (valid_name_snoc (c :: s) Hv) as (s' & l & E & Hl); [done|].
  unfold blank_ends. rewrite E, last_snoc. cbn [default from_option id].
  cbn [valid_name forallb] in Hv. bool_prop. by rewrite !is_upper_not_blank.
Qed.

Lemma decimal_head n : 0 ≤ n ≤ u64_max → ∃ c s, decimal n = c :: s ∧ is_digit c = true.
Proof.
  intros Hn. destruct (decimal_spec n Hn) as (Hd & Hne & _).
  destruct (decimal n) as [|c s]; [done|]. simpl in Hd. bool_prop. eauto.
Qed.

Lemma drop_S_length_app {A} (l r : list A) x : drop (S (length l)) (l ++ x :: r) = r.
Proof.
  change (l ++ x :: r) with (l ++ [x] ++ r). rewrite app_assoc.
  apply drop_app_length'. rewrite length_app. simpl. lia.
Qed.

(** [symbol::from_string] reads what [symbol::to_string] prints. *)
Lemma symbol_from_to_string v : in_u 64 v → symbol_valid v = true → symbol_name v ≠ [] →
  symbol_from_string (symbol_to_string v) = Ok v.
Proof.
  intros Hv Hval Hn. unfold symbol_from_string, symbol_to_string. fold (decimals v).
  pose proof (decimals_range v ltac:(apply Hv)) as Hd.
  assert (0 ≤ decimals v ≤ u64_max) as Hd' by (unfold in_u, u64_max in *; lia).
  destruct (decimal_spec _ Hd') as (D1 & D2 & D3).
  assert (valid_name (symbol_name v) = true) as Hvn
    by (unfold symbol_valid in Hval; by bool_prop).
  rewrite fc_trim_spec.
  2:{ destruct (decimal_head _ Hd') as (c & s & -> & Hc).
      destruct (valid_name_snoc _ Hvn Hn) as (s' & l & -> & Hl).
      rewrite app_comm_cons, app_assoc. cbn [app].
      apply blank_ends_app; [by apply is_digit_not_blank|by apply is_upper_not_blank]. }
  rewrite length_app. cbn [length]. rewrite (proj2 (Nat.eqb_neq _ 0)) by lia.
  rewrite find_char_app by (eapply forallb_impl, D1; intros; by apply is_digit_neq).
  cbn [negb EOS_ASSERT mbind result_bind of_option].
  rewrite take_app_length, fc_to_int64_spec, D3 by (done || (unfold s64_max, in_u in *; lia)).
  cbn [mbind result_bind]. rewrite wrap_small by done.
  pose proof (symbol_valid_decimals v Hval) as H18. unfold max_precision.
  rewrite (proj2 (Z.leb_le _ _) H18). cbn [EOS_ASSERT mbind result_bind].
  rewrite drop_S_length_app.
  destruct (symbol_name_pack v Hv) as [E Hl].
  rewrite c_str_upper, string_to_symbol_pack, <- E by done.
  cbn [mbind result_bind]. unfold symbol_of_value. by rewrite Hval.
Qed.

(** The digits after the point: [precision() + fract] without its first
    digit. *)
Lemma decimal_loop_pad p : ∀ fuel f, (p < fuel)%nat → 0 ≤ f < 10 ^ Z.of_nat p →
  ∃ r, decimal_loop fuel (10 ^ Z.of_nat p + f) [] = digit_char 1 :: r ∧
       length r = p ∧ forallb is_digit r = true ∧ dec_value r = f.
Proof.
  induction p as [|p IH]; intros [|fuel] f Hf Hp; try lia.
  { change (10 ^ Z.of_nat 0) with 1 in *. replace f with 0 by lia. by exists []. }
  rewrite Nat2Z.inj_succ, Z.pow_succ_r in * by lia.
  pose proof (Z.pow_pos_nonneg 10 (Z.of_nat p) ltac:(lia) ltac:(lia)).
  pose proof (Z.div_mod f 10 ltac:(lia)) as E. pose proof (Z.mod_pos_bound f 10 ltac:(lia)).
  destruct (IH fuel (f / 10)) as (r & Hr & Hl & Hd & Hv); [lia| |].
  { split; [apply Z.div_pos; lia|apply Z.div_lt_upper_bound; lia]. }
  exists (r ++ [digit_char (f mod 10)]). cbn [decimal_loop].
  rewrite (proj2 (Z.ltb_ge _ 10)) by lia.
  replace (10 * 10 ^ Z.of_nat p + f) with (f + 10 ^ Z.of_nat p * 10) by lia.
  rewrite Z.div_add, Z.mod_add by lia. rewrite decimal_loop_acc, (Z.add_comm (f / 10)), Hr.
  rewrite length_app, forallb_app, dec_value_snoc, Hd, Hv, code_digit_char by lia.
  cbn [forallb length]. rewrite is_digit_digit_char by lia. split_and!; [done|lia|done|lia].
Qed.

Lemma padded_fraction p f : 0 ≤ p ≤ 18 → 0 ≤ f < 10 ^ p →
  let r := drop 1 (decimal (10 ^ p + f)) in
  Z.of_nat (length r) = p ∧ forallb is_digit r = true ∧ dec_value r = f.
Proof.
  intros Hp Hf. destruct (decimal_loop_pad (Z.to_nat p) 20 f) as (r & Hr & Hl & Hd & Hv).
  - lia.
  - by rewrite Z2Nat.id by lia.
  - rewrite Z2Nat.id in Hr by lia. unfold decimal. rewrite Hr. simpl. rewrite drop_0.
    split_and!; [lia|done..].
Qed.

Definition sign_of (neg : bool) : list ascii := if neg then ["-"%char] else [].
Definition signed (neg : bool) (x : Z) : Z := if neg then - x else x.

Lemma to_int64_signed neg s : s ≠ [] → forallb is_digit s = true → dec_value s ≤ s64_max →
  fc_to_int64 (sign_of neg ++ s) = Ok (signed neg (dec_value s)).
Proof. intros. destruct neg; [by apply fc_to_int64_neg_spec | by apply fc_to_int64_spec]. Qed.

Lemma no_char_in_amount c neg s : Ascii.eqb "-"%char c = false → is_digit c = false →
  forallb is_digit s = true →
  forallb (λ x, negb (Ascii.eqb x c)) (sign_of neg ++ s) = true.
Proof.
  intros Hc Hd Hs. rewrite forallb_app. apply andb_true_intro. split.
  - destruct neg; [|done]. cbn [sign_of forallb]. by rewrite Hc.
  - eapply forallb_impl, Hs. intros. by apply is_digit_neq.
Qed.

Lemma asset_from_string_split am v : valid_name (symbol_name v) = true → symbol_name v ≠ [] →
  forallb (λ x, negb (Ascii.eqb x " "%char)) am = true →
  match am with [] => False | c :: _ => is_blank c = false end →
  asset_from_string (am ++ " "%char :: symbol_name v) = asset_of_parts am (symbol_name v).
Proof.
  intros Hn Hne Ham Hb. unfold asset_from_string. rewrite fc_trim_spec.
  2:{ destruct am as [|c am]; [done|].
      destruct (valid_name_snoc _ Hn Hne) as (s' & l & -> & Hl).
      rewrite app_comm_cons, app_assoc. cbn [app].
      apply blank_ends_app; [done|by apply is_upper_not_blank]. }
  rewrite find_char_app by done. cbn [of_option mbind result_bind].
  by rewrite drop_S_length_app, take_app_length, valid_name_trim.
Qed.

Lemma asset_of_parts_point neg ip fr v :
  in_u 64 v → symbol_valid v = true → symbol_name v ≠ [] → 0 < decimals v →
  ip ≠ [] → forallb is_digit ip = true → forallb is_digit fr = true →
  Z.of_nat (length fr) = decimals v → dec_value fr < 10 ^ decimals v →
  dec_value ip * 10 ^ decimals v + dec_value fr ≤ max_amount →
  asset_of_parts (sign_of neg ++ ip ++ "."%char :: fr) (symbol_name v) =
    Ok (Asset (signed neg (dec_value ip * 10 ^ decimals v + dec_value fr)) v).
Proof.
  intros Hv Hval Hn Hd Hip Hipd Hfrd Hlen Hfr Hmax. unfold asset_of_parts.
  pose proof (symbol_valid_decimals v Hval). pose proof (pow10_le (decimals v) ltac:(lia)).
  pose proof (dec_value_nonneg _ Hipd). pose proof (dec_value_nonneg _ Hfrd).
  assert (dec_value ip ≤ max_amount) as Hi by nia. unfold max_amount in *.
  rewrite app_assoc, find_char_app by by apply no_char_in_amount.
  rewrite drop_S_length_app, take_app_length, !length_app. cbn [length].
  assert (0 < length fr)%nat by lia.
  rewrite (proj2 (Nat.eqb_neq _ _)) by lia. cbn [negb EOS_ASSERT mbind result_bind].
  replace (_ - _ - 1)%nat with (length fr) by lia. rewrite Hlen.
  change (decimal (decimals v) ++ _) with (symbol_to_string v).
  rewrite symbol_from_to_string by done. cbn [mbind result_bind].
  rewrite to_int64_signed by (done || (unfold s64_max; lia)). cbn [mbind result_bind].
  rewrite fc_to_int64_spec; [|intros ->; simpl in *; lia|done|unfold s64_max; lia]. cbn [mbind result_bind].
  replace (Ascii.eqb _ _) with neg.
  2:{ destruct neg; [done|]. destruct ip as [|c ip]; [done|]. simpl in Hipd. bool_prop.
      unfold char_at. cbn. symmetry. apply Ascii.eqb_neq. by intros ->. }
  assert (in_s64 (dec_value fr * -1)) by (unfold in_s64; lia).
  replace (if neg then fc_safe_mul _ _ else _) with (Ok (signed neg (dec_value fr))).
  2:{ destruct neg; [|done]. rewrite fc_safe_mul_spec by done. f_equal. simpl. lia. }
  cbn [mbind result_bind]. rewrite precision_spec by (apply Hv || done). cbn [mbind result_bind].
  rewrite s64_small by (unfold in_s64; lia).
  rewrite fc_safe_mul_spec by (unfold in_s64; destruct neg; simpl; nia). cbn [mbind result_bind].
  rewrite fc_safe_add_spec by (unfold in_s64; destruct neg; simpl; nia). cbn [mbind result_bind].
  rewrite asset_ctor_spec by done. unfold max_amount.
  replace (signed neg (dec_value ip) * _ + _) with
    (signed neg (dec_value ip * 10 ^ decimals v + dec_value fr)) by (destruct neg; simpl; lia).
  rewrite (proj2 (andb_true_iff _ _)); [done|]. destruct neg; simpl; lia.
Qed.

Lemma asset_of_parts_integer neg ip v :
  in_u 64 v → symbol_valid v = true → symbol_name v ≠ [] → decimals v = 0 →
  ip ≠ [] → forallb is_digit ip = true → dec_value ip ≤ max_amount →
  asset_of_parts (sign_of neg ++ ip) (symbol_name v) =
    Ok (Asset (signed neg (dec_value ip)) v).
Proof.
  intros Hv Hval Hn Hd Hip Hipd Hmax. unfold asset_of_parts, max_amount in *.
  pose proof (dec_value_nonneg _ Hipd).
  rewrite find_char_none by by apply no_char_in_amount. cbn [mbind result_bind].
  replace (["0"%char] ++ _) with (symbol_to_string v)
    by (unfold symbol_to_string; fold (decimals v); by rewrite Hd).
  rewrite symbol_from_to_string by done. cbn [mbind result_bind].
  rewrite to_int64_signed by (done || (unfold s64_max; lia)). cbn [mbind result_bind].
  rewrite precision_spec by (apply Hv || lia). cbn [mbind result_bind]. rewrite Hd.
  change (s64 (10 ^ 0)) with 1. rewrite fc_safe_default_spec.
  rewrite fc_safe_mul_spec by (unfold in_s64; destruct neg; simpl; lia). cbn [mbind result_bind].
  rewrite fc_safe_add_spec by (unfold in_s64; destruct neg; simpl; lia). cbn [mbind result_bind].
  rewrite asset_ctor_spec by done. unfold max_amount.
  replace (signed neg (dec_value ip) * 1 + 0) with (signed neg (dec_value ip)) by lia.
  rewrite (proj2 (andb_true_iff _ _)); [done|]. destruct neg; simpl; lia.
Qed.
End print_read.

Section asset_roundtrip.
Context {fc : Fc} {laws : FcLaws fc}.

(** [asset::from_string] reads back what [asset::to_string] prints, for
    every valid asset whose symbol has a name: the sign, the integer part, the
    zero-padded fraction and the symbol are recovered exactly, also when the
    integer part is zero and the amount negative. *)
Theorem asset_string_roundtrip a :
  in_u 64 (sym a) → is_valid a = true → symbol_name (sym a) ≠ [] →
  ∃ s, asset_to_string a = Ok s ∧ asset_from_string s = Ok a.
Proof.
  intros Hu [Hr Hval]%is_valid_range Hn. destruct a as [x v]. simpl in *.
  pose proof (symbol_valid_decimals v Hval) as Hd18.
  pose proof (decimals_range v ltac:(apply Hu)) as [Hd0 _].
  pose proof (pow10_le (decimals v) ltac:(lia)) as HP. unfold max_amount in Hr.
  unfold asset_to_string. simpl. rewrite (proj2 (Z.eqb_neq _ _)) by lia.
  rewrite precision_spec by (apply Hu || done). simpl. rewrite s64_small by (unfold in_s64; lia).
  rewrite Z.quot_div_nonneg, Z.rem_mod_nonneg by lia.
  set (P := 10 ^ decimals v) in *. set (q := Z.abs x / P). set (f := Z.abs x mod P).
  assert (Z.abs x = P * q + f) as E by (apply Z.div_mod; lia).
  assert (0 ≤ f < P) as Hf by (apply Z.mod_pos_bound; lia).
  assert (0 ≤ q ≤ Z.abs x) as Hq
    by (split; [apply Z.div_pos; lia | apply div_le_self; lia]).
  rewrite !fc_to_string_spec by (unfold s64_max; lia).
  destruct (decimal_spec q) as (Q1 & Q2 & Q3); [unfold u64_max; lia|].
  destruct (padded_fraction (decimals v) f) as (F1 & F2 & F3); [lia|done|]. fold P in F1, F2, F3.
  set (neg := x <? 0). change (if neg then _ else _) with (sign_of neg).
  assert (signed neg (Z.abs x) = x) as Hneg by (unfold neg; destruct (Z.ltb_spec x 0); simpl; lia).
  assert (valid_name (symbol_name v) = true) as Hvn by (unfold symbol_valid in Hval; by bool_prop).
  assert (∀ t, match sign_of neg ++ decimal q ++ t with
               | [] => False | c :: _ => is_blank c = false end) as Hhead.
  { intros t. destruct neg; [done|]. destruct (decimal q); [done|].
    simpl in Q1 |- *. bool_prop. by apply is_digit_not_blank. }
  destruct (Z.eqb_spec (decimals v) 0) as [H0|H0]; cbn [negb]; eexists; (split; [reflexivity|]).
  - rewrite (app_assoc (sign_of neg)), asset_from_string_split; [|done|done| |].
    + assert (P = 1) as HP1 by (unfold P; by rewrite H0).
      rewrite asset_of_parts_integer by (done || (unfold max_amount; lia)).
      rewrite Q3. do 2 f_equal. rewrite <- Hneg. f_equal. lia.
    + by apply no_char_in_amount.
    + specialize (Hhead []). by rewrite app_nil_r in Hhead.
  - rewrite <- (app_assoc (decimal q)), <- app_comm_cons.
    rewrite app_comm_cons, (app_assoc (decimal q)), (app_assoc (sign_of neg)).
    rewrite asset_from_string_split; [|done|done| |apply Hhead].
    + rewrite asset_of_parts_point; try done; try lia.
      * rewrite Q3, F3. fold P. do 2 f_equal. rewrite <- Hneg. f_equal. lia.
      * rewrite Q3, F3. fold P. unfold max_amount. lia.
    + rewrite app_assoc, forallb_app, no_char_in_amount by done. simpl.
      eapply forallb_impl, F2. intros. by apply is_digit_neq.
Qed.
End asset_roundtrip.

Lemma asset_string_roundtrip_witness :
  ∃ s, asset_to_string (Asset (-15) CORE_SYMBOL) = Ok s ∧
       asset_from_string s = Ok (Asset (-15) CORE_SYMBOL).
Proof.
  apply asset_string_roundtrip.
  - split; vm_compute; congruence.
  - vm_compute; reflexivity.
  - vm_compute; congruence.
Defined.

(** [symbol::from_string] narrows the parsed number of decimals to a byte
    before it is checked against [max_precision]: a text whose number is 256
    too large is accepted as the symbol with the number reduced modulo 256. *)
Theorem symbol_from_string_truncates_precision :
  symbol_from_string (chars "260,CDX") = Ok CORE_SYMBOL ∧
  symbol_from_string (chars "260,CDX") = symbol_from_string (chars "4,CDX") ∧
  symbol_from_string (chars "19,CDX") = Throw symbol_type_exception.
Proof. vm_compute. done. Qed.
