(* ===== verification/Config.v ===== *)
(** * Chain constants ([config.hpp.in], [config_on_chain.hpp])

    The values the build substitutes in the template are those of the
    repository's [CMakeLists.txt]: root account [codex], one block per second,
    three blocks in a row per producer, at most 21 producers, resource model
    [RESOURCE_MODEL_DELEGATE]. *)

From S2P Require Import Prelude Names.
Local Open Scope Z_scope.

(** The macro [N(X)]. *)
Definition N_ (s : string) : Z := string_to_name (chars s).

Definition system_account_name : Z := N_ "codex".
Definition null_account_name : Z := N_ "codex.null".
Definition producers_account_name : Z := N_ "codex.prods".
Definition chain_config_name : Z := N_ "codex.config".
Definition token_account_name : Z := N_ "codex.token".
Definition msig_account_name : Z := N_ "codex.msig".
Definition relay_account_name : Z := N_ "codex.relay".
Definition eosio_any_name : Z := N_ "codex.any".
Definition eosio_code_name : Z := N_ "codex.code".
Definition native_account_name : Z := N_ "codex.native".
Definition fee_name : Z := N_ "fee".
Definition onblock_name : Z := N_ "onblock".
Definition active_name : Z := N_ "active".
Definition owner_name : Z := N_ "owner".

Definition block_interval_ms : Z := 1000.
Definition block_timestamp_epoch : Z := 946684800000.
Definition percent_100 : Z := 10000.
Definition percent_1 : Z := 100.
Definition RESOURCE_MODEL : Z := 2.

Definition default_gmr_cpu_limit : Z := 200000.
Definition default_gmr_net_limit : Z := 10 * 1024.
Definition default_gmr_ram_limit : Z := 8 * 1024.

Definition account_cpu_usage_average_window_ms : Z := 24 * 60 * 60 * 1000.
Definition account_net_usage_average_window_ms : Z := 24 * 60 * 60 * 1000.
Definition block_cpu_usage_average_window_ms : Z := 60 * 1000.
Definition block_size_average_window_ms : Z := 60 * 1000.
Definition rate_limiting_precision : Z := 1000 * 1000.

Definition default_max_block_net_usage : Z := 1024 * 1024.
Definition default_target_block_net_usage_pct : Z := 10 * percent_1.
Definition default_max_block_cpu_usage : Z := 1000000.
Definition default_target_block_cpu_usage_pct : Z := 10 * percent_1.

Definition default_max_transaction_net_usage : Z := default_max_block_net_usage / 2.
Definition default_base_per_transaction_net_usage : Z := 12.
Definition default_net_usage_leeway : Z := 500.
Definition default_context_free_discount_net_usage_num : Z := 20.
Definition default_context_free_discount_net_usage_den : Z := 100.
Definition transaction_id_net_usage : Z := 32.
Definition default_max_transaction_cpu_usage : Z := 3 * default_max_block_cpu_usage / 4.
Definition default_min_transaction_cpu_usage : Z := 100.
Definition default_max_trx_lifetime : Z := 60 * 60.
Definition default_deferred_trx_expiration_window : Z := 10 * 60.
Definition default_max_trx_delay : Z := 45 * 24 * 3600.
Definition default_max_inline_action_size : Z := 256 * 1024.
Definition default_max_inline_action_depth : Z := 4.
Definition default_max_auth_depth : Z := 6.
Definition min_net_usage_delta_between_base_and_max_for_trx : Z := 10 * 1024.
Definition fixed_net_overhead_of_packed_trx : Z := 16.
Definition overhead_per_account_ram_bytes : Z := 2 * 1024.
Definition setcode_ram_bytes_multiplier : Z := 10.

Definition producer_repetitions : Z := 3.
Definition max_producers : Z := 21.
Definition maximum_tracked_dpos_confirmations : Z := 1024.
Definition billable_alignment : Z := 16.
Definition overhead_per_row_per_index_ram_bytes : Z := 32.
Definition fixed_overhead_shared_vector_ram_bytes : Z := 16.

(** [billable_size_v<T>] for a type whose [billable_size<T>::value] is [v]. *)
Definition billable_size_v (v : Z) : Z :=
  ((v + billable_alignment - 1) / billable_alignment) * billable_alignment.

(** [EOS_PERCENT] on 64-bit words. *)
Definition EOS_PERCENT (value percentage : Z) : Z := u64 (value * percentage) / percent_100.

(** Keys of the on-chain configuration. *)
Definition cpu_per_fee : Z := N_ "res.cpufee".
Definition net_per_fee : Z := N_ "res.netfee".
Definition ram_rent_b_per_eos : Z := N_ "res.ramrent".
Definition list_actor_black : Z := N_ "l.actblack".
Definition list_contract_black : Z := N_ "l.crtblack".
Definition list_resource_grey : Z := N_ "l.resgrey".
Definition gmr_cpu : Z := N_ "gmr.cpu".
Definition gmr_ram : Z := N_ "gmr.ram".
Definition gmr_net : Z := N_ "gmr.net".
