(* ===== verification/ChainConfig.v ===== *)
(** * The configuration of the chain ([chain_config.hpp], [chain_config.cpp],
    [genesis_state.hpp])

    The parameters that block producers set, the check that a new
    configuration passes before it is stored, and the comparison of
    configurations that the comparison of genesis states uses. *)

From S2P Require Import Prelude Names Config.
Local Open Scope Z_scope.

Record chain_config := {
  max_block_net_usage : Z; target_block_net_usage_pct : Z;
  max_transaction_net_usage : Z; base_per_transaction_net_usage : Z; net_usage_leeway : Z;
  context_free_discount_net_usage_num : Z; context_free_discount_net_usage_den : Z;
  max_block_cpu_usage : Z; target_block_cpu_usage_pct : Z;
  max_transaction_cpu_usage : Z; min_transaction_cpu_usage : Z;
  max_transaction_lifetime : Z; deferred_trx_expiration_window : Z;
  max_transaction_delay : Z; max_inline_action_size : Z;
  max_inline_action_depth : Z; max_authority_depth : Z }.

(** The widths of the fields. *)
Definition chain_config_fits (c : chain_config) : Prop :=
  in_u 64 (max_block_net_usage c) ∧ in_u 32 (target_block_net_usage_pct c) ∧
  in_u 32 (max_transaction_net_usage c) ∧ in_u 32 (base_per_transaction_net_usage c) ∧
  in_u 32 (net_usage_leeway c) ∧ in_u 32 (context_free_discount_net_usage_num c) ∧
  in_u 32 (context_free_discount_net_usage_den c) ∧ in_u 32 (max_block_cpu_usage c) ∧
  in_u 32 (target_block_cpu_usage_pct c) ∧ in_u 32 (max_transaction_cpu_usage c) ∧
  in_u 32 (min_transaction_cpu_usage c) ∧ in_u 32 (max_transaction_lifetime c) ∧
  in_u 32 (deferred_trx_expiration_window c) ∧ in_u 32 (max_transaction_delay c) ∧
  in_u 32 (max_inline_action_size c) ∧ in_u 16 (max_inline_action_depth c) ∧
  in_u 16 (max_authority_depth c).

Definition chain_config_validate (c : chain_config) : result unit :=
  let assert b := EOS_ASSERT b action_validate_exception in
  _ ← assert (target_block_net_usage_pct c <=? percent_100);
  _ ← assert (percent_1 / 10 <=? target_block_net_usage_pct c);
  _ ← assert (target_block_cpu_usage_pct c <=? percent_100);
  _ ← assert (percent_1 / 10 <=? target_block_cpu_usage_pct c);
  _ ← assert (max_transaction_net_usage c <? max_block_net_usage c);
  _ ← assert (max_transaction_cpu_usage c <? max_block_cpu_usage c);
  _ ← assert (base_per_transaction_net_usage c <? max_transaction_net_usage c);
  _ ← assert (min_net_usage_delta_between_base_and_max_for_trx
              <=? u32 (max_transaction_net_usage c - base_per_transaction_net_usage c));
  _ ← assert (0 <? context_free_discount_net_usage_den c);
  _ ← assert (context_free_discount_net_usage_num c <=? context_free_discount_net_usage_den c);
  _ ← assert (min_transaction_cpu_usage c <=? max_transaction_cpu_usage c);
  _ ← assert (max_transaction_cpu_usage c
              <? u32 (max_block_cpu_usage c - min_transaction_cpu_usage c));
  assert (1 <=? max_authority_depth c).

(** [operator ==]; the field [max_transaction_cpu_usage] is in the tuple twice. *)
Definition chain_config_eqb (l r : chain_config) : bool :=
  let eq f := f l =? f r in
  eq max_block_net_usage && eq target_block_net_usage_pct && eq max_transaction_net_usage
  && eq base_per_transaction_net_usage && eq net_usage_leeway
  && eq context_free_discount_net_usage_num && eq context_free_discount_net_usage_den
  && eq max_block_cpu_usage && eq target_block_cpu_usage_pct
  && eq max_transaction_cpu_usage && eq max_transaction_cpu_usage
  && eq max_transaction_lifetime && eq deferred_trx_expiration_window
  && eq max_transaction_delay && eq max_inline_action_size && eq max_inline_action_depth
  && eq max_authority_depth.

(** [genesis_state::initial_configuration] *)
Definition initial_configuration : chain_config := {|
  max_block_net_usage := default_max_block_net_usage;
  target_block_net_usage_pct := default_target_block_net_usage_pct;
  max_transaction_net_usage := default_max_transaction_net_usage;
  base_per_transaction_net_usage := default_base_per_transaction_net_usage;
  net_usage_leeway := default_net_usage_leeway;
  context_free_discount_net_usage_num := default_context_free_discount_net_usage_num;
  context_free_discount_net_usage_den := default_context_free_discount_net_usage_den;
  max_block_cpu_usage := default_max_block_cpu_usage;
  target_block_cpu_usage_pct := default_target_block_cpu_usage_pct;
  max_transaction_cpu_usage := default_max_transaction_cpu_usage;
  min_transaction_cpu_usage := default_min_transaction_cpu_usage;
  max_transaction_lifetime := default_max_trx_lifetime;
  deferred_trx_expiration_window := default_deferred_trx_expiration_window;
  max_transaction_delay := default_max_trx_delay;
  max_inline_action_size := default_max_inline_action_size;
  max_inline_action_depth := default_max_inline_action_depth;
  max_authority_depth := default_max_auth_depth |}.

(** What [validate] promises, in integers without wrap-around: the differences
    it computes in 32 bits are only reached when they do not wrap. *)
Definition chain_config_valid (c : chain_config) : Prop :=
  percent_1 / 10 ≤ target_block_net_usage_pct c ≤ percent_100 ∧
  percent_1 / 10 ≤ target_block_cpu_usage_pct c ≤ percent_100 ∧
  max_transaction_net_usage c < max_block_net_usage c ∧
  base_per_transaction_net_usage c + min_net_usage_delta_between_base_and_max_for_trx
    ≤ max_transaction_net_usage c ∧
  0 < context_free_discount_net_usage_den c ∧
  context_free_discount_net_usage_num c ≤ context_free_discount_net_usage_den c ∧
  min_transaction_cpu_usage c ≤ max_transaction_cpu_usage c ∧
  max_transaction_cpu_usage c + min_transaction_cpu_usage c < max_block_cpu_usage c ∧
  1 ≤ max_authority_depth c.

(** A configuration passes [validate] exactly when it is valid, and else the
    exception is [action_validate_exception]; the initial one is valid. *)
Theorem chain_config_validate_iff c : chain_config_fits c →
  (chain_config_validate c = Ok tt ↔ chain_config_valid c) ∧
  (chain_config_validate c = Throw action_validate_exception ↔ ¬ chain_config_valid c).
Proof.
  intros Hfit.
  assert (chain_config_validate c = Ok tt ∨ chain_config_validate c = Throw action_validate_exception) as Hor.
  { unfold chain_config_validate. repeat (case_match; cbn; auto). 
    all: repeat match goal with |- context [EOS_ASSERT ?b _] => destruct b; cbn; auto end. }
  assert (chain_config_validate c = Ok tt ↔ chain_config_valid c) as Hiff.
  { unfold chain_config_fits, in_u in Hfit. unfold chain_config_valid, chain_config_validate.
    change min_net_usage_delta_between_base_and_max_for_trx with 10240. change (percent_1 / 10) with 10.
    change percent_100 with 10000. split.
    - intros H. repeat (apply bind_Ok in H as (? & ?%EOS_ASSERT_Ok & H)). apply EOS_ASSERT_Ok in H.
      rewrite !Z.leb_le, !Z.ltb_lt in *. rewrite !(wrap_small 32) in * by (unfold in_u; lia). lia.
    - intros H. rewrite !(wrap_small 32) by (unfold in_u; lia).
      repeat match goal with |- context [EOS_ASSERT ?b _] =>
        replace b with true by (symmetry; first [apply Z.leb_le|apply Z.ltb_lt]; lia); cbn [EOS_ASSERT mbind result_bind] end.
      done. }
  split; [done|]. rewrite <- Hiff. destruct Hor as [E|E]; rewrite E; split; congruence.
Qed.
