(* ===== verification/ConfigOnChain.v ===== *)
(** * Configuration values kept in the state database ([config_on_chain.cpp])

    Numbers keyed by a name: readers with a default, writers that create the
    row or change it, and the two predicates that open a feature from a
    configured block on. *)

From S2P Require Import Prelude Chainbase Names Assets Config.
Local Open Scope Z_scope.

(** [config_data_object]; its key [typ] is the key of the map. *)
Record config_data_object := { cfg_num : Z; cfg_key : Z; cfg_fee : asset }.

(** [struct setconfig] of [contract_types.hpp]. *)
Record setconfig := { typ : Z; num : Z; key : Z; fee : asset }.

Abbreviation config_index := (gmap Z config_data_object).

(** A default-constructed [asset] member. *)
Definition asset_zero : asset := Asset 0 CORE_SYMBOL.

Section config_on_chain.
Context {db : Chainbase}.

Definition get_num_config_on_chain (d : config_index) (typ default_value : Z) : Z :=
  match db_find d typ with
  | None => default_value
  | Some cfg => cfg_num cfg
  end.

Definition set_num_config_on_chain (d : config_index) (typ num : Z) : result config_index :=
  match db_find d typ with
  | None => db_create d typ {| cfg_num := num; cfg_key := 0; cfg_fee := asset_zero |}
  | Some _ => db_modify d typ (λ c,
      Ok {| cfg_num := num; cfg_key := cfg_key c; cfg_fee := cfg_fee c |})
  end.

Definition set_config_on_chain (d : config_index) (cfg : setconfig) : result config_index :=
  let row := {| cfg_num := num cfg; cfg_key := key cfg; cfg_fee := fee cfg |} in
  match db_find d (typ cfg) with
  | None => db_create d (typ cfg) row
  | Some _ => db_modify d (typ cfg) (λ _, Ok row)
  end.

(** [head_num] is [ctl.head_block_num()], a 32-bit word. *)
Definition is_func_has_open (d : config_index) (head_num func_typ default_open_block : Z) : bool :=
  let open_num := get_num_config_on_chain d func_typ (-1) in
  (0 <=? head_num) &&
  (((0 <=? open_num) && (open_num <=? head_num))
   || ((open_num =? -1) && negb (default_open_block =? 0) && (default_open_block <=? head_num))).

Definition is_func_open_in_curr_block
    (d : config_index) (head_num func_typ default_open_block : Z) : bool :=
  let open_num := get_num_config_on_chain d func_typ (-1) in
  if open_num <? 0 then (0 <? default_open_block) && (head_num =? default_open_block)
  else if head_num <? 0 then false
  else head_num =? open_num.

Context {laws : ChainbaseLaws db}.

Lemma get_num_config_spec d t def :
  get_num_config_on_chain d t def = from_option cfg_num def (d !! t).
Proof. unfold get_num_config_on_chain. db_simpl. by destruct (d !! t). Qed.

Lemma set_num_config_spec d t n :
  ∃ c, set_num_config_on_chain d t n = Ok (<[t := c]> d) ∧ cfg_num c = n.
Proof.
  unfold set_num_config_on_chain. db_simpl. destruct (d !! t) eqn:E; simpl; eauto.
Qed.

Lemma set_config_spec d cfg :
  ∃ c, set_config_on_chain d cfg = Ok (<[typ cfg := c]> d) ∧ cfg_num c = num cfg.
Proof.
  unfold set_config_on_chain. db_simpl. destruct (d !! typ cfg) eqn:E; simpl; eauto.
Qed.

(** Writing a configuration number never fails, is read back whatever the
    default, and leaves every other key as it was; [setconfig] does the same
    with the number it carries. *)
Theorem config_read_after_write d t n cfg :
  (∃ d', set_num_config_on_chain d t n = Ok d' ∧
     ∀ t' def, get_num_config_on_chain d' t' def =
       if decide (t' = t) then n else get_num_config_on_chain d t' def) ∧
  (∃ d', set_config_on_chain d cfg = Ok d' ∧
     ∀ t' def, get_num_config_on_chain d' t' def =
       if decide (t' = typ cfg) then num cfg else get_num_config_on_chain d t' def).
Proof.
  destruct (set_num_config_spec d t n) as (c & E & <-).
  destruct (set_config_spec d cfg) as (c' & E' & <-).
  split; eexists; (split; [eassumption|]); intros t' def; rewrite !get_num_config_spec;
    (destruct (decide (t' = _)) as [->|]; [by rewrite lookup_insert_eq|by rewrite lookup_insert_ne]).
Qed.

(** A feature that opens in the current block is open, and one that is open
    stays open as the head advances. *)
Lemma is_func_open_in_curr_block_has_open d h t def :
  0 ≤ h → is_func_open_in_curr_block d h t def = true →
  -1 ≤ get_num_config_on_chain d t (-1) → is_func_has_open d h t def = true.
Proof.
  unfold is_func_open_in_curr_block, is_func_has_open. intros.
  destruct (Z.ltb_spec (get_num_config_on_chain d t (-1)) 0); [lia|].
  destruct (Z.ltb_spec h 0); lia.
Qed.

Lemma is_func_has_open_mono d h h' t def :
  h ≤ h' → is_func_has_open d h t def = true → is_func_has_open d h' t def = true.
Proof. unfold is_func_has_open. lia. Qed.
End config_on_chain.

Lemma config_read_after_write_witness :
  ∃ d', set_num_config_on_chain ∅ ram_rent_b_per_eos 4096 = Ok d' ∧
    get_num_config_on_chain d' ram_rent_b_per_eos 10240 = 4096 ∧
    get_num_config_on_chain d' gmr_cpu 7 = 7.
Proof.
  destruct (config_read_after_write ∅ ram_rent_b_per_eos 4096
    {| typ := 0; num := 0; key := 0; fee := asset_zero |}) as [(d' & E & H) _].
  exists d'. split; [exact E|]. rewrite !H. split; vm_compute; reflexivity.
Defined.
