(* ===== verification/TxFee.v ===== *)
(** * Transaction fees ([txfee_manager.cpp], [txfee_manager.hpp])

    The fee of an action is the one set in the state database if there is a
    non-zero one, else the native fee of the table the manager's constructor
    fills; an action with neither is rejected.  The fee of a transaction is
    the sum over its actions. *)

From S2P Require Import Prelude Chainbase Names Assets Config ConfigOnChain.
Local Open Scope Z_scope.

Abbreviation fee_key := (Z * Z)%type.

(** [action_fee_object]; [account] and [message_type] are the key. *)
Record action_fee_object :=
  { af_fee : asset; cpu_limit : Z; net_limit : Z; ram_limit : Z }.

Abbreviation fee_map := (gmap fee_key asset).

Definition init_native_fee (m : fee_map) (acc act : Z) (fee : Z) : fee_map :=
  <[(acc, act) := Asset fee CORE_SYMBOL]> m.

(** The constructor's calls, in order. *)
Definition native_fees : list (Z * string * Z) :=
  [(system_account_name, "newaccount", 1000);
   (system_account_name, "updateauth", 1000);
   (system_account_name, "deleteauth", 1000);
   (system_account_name, "transfer", 100);
   (system_account_name, "vote", 1000);
   (system_account_name, "voteproducer", 1000);
   (system_account_name, "freeze", 500);
   (system_account_name, "unfreeze", 100);
   (system_account_name, "vote4ram", 500);
   (system_account_name, "claim", 300);
   (system_account_name, "updatebp", 100 * 10000);
   (system_account_name, "setemergency", 10 * 10000);
   (system_account_name, "addmortgage", 5 * 10000);
   (system_account_name, "claimmortgage", 5 * 10000);
   (system_account_name, "claimvote", 300);
   (system_account_name, "claimbp", 300);
   (system_account_name, "claimdevelop", 300);
   (system_account_name, "setparams", 100 * 10000);
   (system_account_name, "removebp", 100 * 10000);
   (token_account_name, "transfer", 100);
   (token_account_name, "issue", 100);
   (token_account_name, "create", 10 * 10000);
   (token_account_name, "trade", 100);
   (token_account_name, "castcoin", 100);
   (token_account_name, "takecoin", 1000);
   (system_account_name, "setabi", 1000);
   (system_account_name, "setfee", 1000);
   (system_account_name, "setcode", 1000);
   (system_account_name, "setconfig", 100);
   (system_account_name, "canceldelay", 5000);
   (system_account_name, "linkauth", 5000);
   (system_account_name, "unlinkauth", 5000);
   (msig_account_name, "propose", 15000);
   (msig_account_name, "approve", 10000);
   (msig_account_name, "unapprove", 10000);
   (msig_account_name, "cancel", 10000);
   (msig_account_name, "exec", 10000);
   (relay_account_name, "commit", 15000);
   (relay_account_name, "newchannel", 100 * 10000);
   (relay_account_name, "newmap", 100 * 10000)].

Definition txfee_manager_ctor : fee_map :=
  fold_left (λ m '(acc, act, fee), init_native_fee m acc (N_ act) fee) native_fees ∅.

Definition get_native_fee (m : fee_map) (acc act : Z) : asset :=
  default asset_zero (m !! (acc, act)).

Section txfee.
Context {db : Chainbase}.

Definition get_required_fee (d : gmap fee_key action_fee_object) (m : fee_map)
    (account act : Z) : result asset :=
  let native :=
    let native_fee := get_native_fee m account act in
    if negb (asset_eq native_fee asset_zero) then Ok native_fee
    else Throw action_validate_exception in
  match db_find d (account, act) with
  | Some fee_in_db =>
      if negb (asset_eq (af_fee fee_in_db) asset_zero) then Ok (af_fee fee_in_db) else native
  | None => native
  end.

(** [actions] lists the [(account, name)] pairs of [trx.actions]. *)
Definition get_required_fee_trx (d : gmap fee_key action_fee_object) (m : fee_map)
    (actions : list fee_key) : result asset :=
  fold_res (λ fee act, f ← get_required_fee d m act.1 act.2; asset_add_assign fee f)
    asset_zero actions.

Context {laws : ChainbaseLaws db}.

Lemma asset_eq_spec a b : asset_eq a b = true ↔ a = b.
Proof.
  unfold asset_eq. destruct a, b; simpl. rewrite andb_true_iff, !Z.eqb_eq. naive_solver.
Qed.

Lemma asset_neq_zero a : negb (asset_eq a asset_zero) = true → a ≠ asset_zero.
Proof.
  intros H ->. by rewrite (proj2 (asset_eq_spec asset_zero asset_zero) eq_refl) in H.
Qed.

Lemma get_required_fee_nonzero d m acc act f :
  get_required_fee d m acc act = Ok f → f ≠ asset_zero.
Proof.
  unfold get_required_fee. db_simpl.
  destruct (d !! (acc, act)); repeat case_match; intros; simplify_eq; by apply asset_neq_zero.
Qed.

Lemma int64_op_inv x r : int64_op x = Ok r → r = x ∧ in_s64 x.
Proof.
  unfold int64_op, in_s64. destruct (_ && _) eqn:E; [|done]. intros [= <-]. bool_prop. lia.
Qed.

(** A transaction's required fee is the exact sum of the required fees of
    its actions, all in the core symbol and none of them zero: no action is
    executed for free, and one action without a fee rejects the transaction. *)
Theorem get_required_fee_trx_sum d m actions r :
  get_required_fee_trx d m actions = Ok r →
  ∃ fees, mapM (λ k, match get_required_fee d m k.1 k.2 with Ok f => Some f | _ => None end)
            actions = Some fees ∧
    Forall (λ f, sym f = CORE_SYMBOL ∧ amount f ≠ 0) fees ∧
    r = Asset (sum_Z (amount <$> fees)) CORE_SYMBOL.
Proof.
  unfold get_required_fee_trx.
  assert (∀ acc, sym acc = CORE_SYMBOL →
    fold_res (λ fee act, f ← get_required_fee d m act.1 act.2; asset_add_assign fee f)
      acc actions = Ok r →
    ∃ fees, mapM (λ k, match get_required_fee d m k.1 k.2 with Ok f => Some f | _ => None end)
              actions = Some fees ∧
      Forall (λ f, sym f = CORE_SYMBOL ∧ amount f ≠ 0) fees ∧
      r = Asset (amount acc + sum_Z (amount <$> fees)) CORE_SYMBOL) as H; [|by apply H].
  induction actions as [|k actions IH]; intros acc Hs H; simpl in H.
  { injection H as <-. exists []. split_and!; [done..|]. destruct acc; simpl in *.
    subst. f_equal. lia. }
  apply bind_Ok in H as (acc' & (f & Hf & Ha)%bind_Ok & H).
  apply bind_Ok in Ha as (? & Hsym%EOS_ASSERT_Ok%Z.eqb_eq & Ha).
  apply bind_Ok in Ha as (s & [-> _]%int64_op_inv & [= <-]).
  destruct (IH (Asset _ (sym acc)) Hs H) as (fees & Hm & Hall & ->).
  exists (f :: fees). simpl. rewrite Hf, Hm. split_and!; [done| |].
  - constructor; [|done]. split; [congruence|]. intros H0.
    apply (get_required_fee_nonzero d m k.1 k.2 f Hf). destruct f; simpl in *.
    unfold asset_zero. congruence.
  - f_equal. symmetry. apply Z.add_assoc.
Qed.
End txfee.

Lemma get_required_fee_trx_sum_witness :
  ∃ fees,
    mapM (λ k, match get_required_fee ∅ txfee_manager_ctor k.1 k.2 with
               | Ok f => Some f | _ => None end)
      [(system_account_name, N_ "vote"); (token_account_name, N_ "transfer")] = Some fees ∧
    Forall (λ f, sym f = CORE_SYMBOL ∧ amount f ≠ 0) fees ∧
    Asset 1100 CORE_SYMBOL = Asset (sum_Z (amount <$> fees)) CORE_SYMBOL.
Proof.
  apply (get_required_fee_trx_sum ∅ txfee_manager_ctor
    [(system_account_name, N_ "vote"); (token_account_name, N_ "transfer")]).
  vm_compute. reflexivity.
Defined.
