(* ===== verification/Accumulator.v ===== *)
(** * Ratios and the moving-average accumulator
    ([resource_limits.hpp], [resource_limits_private.hpp])

    [exponential_moving_average_accumulator] keeps a usage average scaled by
    [rate_limiting_precision]; each new period decays it linearly over the
    window.  The theorems give its exact result without wrap-around, show that
    bounded usage keeps the average bounded, and that the checks inside [add]
    never fire while the usage respects its bound. *)

From S2P Require Import Prelude Config.
Local Open Scope Z_scope.

Record ratio := { numerator : Z; denominator : Z }.

#[export] Instance ratio_eq_dec : EqDecision ratio.
Proof. solve_decision. Defined.

(** [impl::operator*] on 64-bit words; division by zero is undefined. *)
Definition ratio_mul (value : Z) (r : ratio) : result Z :=
  _ ← EOS_ASSERT ((numerator r =? 0) || (value <=? u64_max / numerator r))
        rate_limiting_state_inconsistent;
  if denominator r =? 0 then Throw undefined_behaviour
  else Ok (u64 (value * numerator r) / denominator r).

Definition integer_divide_ceil (num den : Z) : Z :=
  num / den + (if 0 <? num mod den then 1 else 0).

(** [downgrade_cast] of an unsigned 128-bit value. *)
Definition downgrade_cast_u64 (val : Z) : result Z :=
  _ ← EOS_ASSERT ((0 <=? val) && (val <=? u64_max)) rate_limiting_state_inconsistent; Ok val.
Definition downgrade_cast_s64 (val : Z) : result Z :=
  _ ← EOS_ASSERT ((0 <=? val) && (val <=? s64_max)) rate_limiting_state_inconsistent; Ok val.

Record usage_accumulator := { last_ordinal : Z; value_ex : Z; consumed : Z }.

#[export] Instance usage_accumulator_eq_dec : EqDecision usage_accumulator.
Proof. solve_decision. Defined.

Definition accumulator_ctor : usage_accumulator :=
  {| last_ordinal := 0; value_ex := 0; consumed := 0 |}.

Definition max_raw_value : Z := u64_max / rate_limiting_precision.

Definition average (value_ex : Z) : Z :=
  integer_divide_ceil value_ex rate_limiting_precision.

(** The branch of [add] for a new ordinal. *)
Definition decay_to (a : usage_accumulator) (ordinal window_size : Z) :
    result usage_accumulator :=
  if last_ordinal a =? ordinal then Ok a else
  _ ← EOS_ASSERT (last_ordinal a <? ordinal) resource_limit_exception;
  v ← if ordinal <? u64 (last_ordinal a + window_size)
      then
        let delta := u32 (ordinal - last_ordinal a) in
        ratio_mul (value_ex a)
          {| numerator := u64 (window_size - delta); denominator := window_size |}
      else Ok 0;
  Ok {| last_ordinal := ordinal; value_ex := v; consumed := average v |}.

Definition add (a : usage_accumulator) (units ordinal window_size : Z) :
    result usage_accumulator :=
  _ ← EOS_ASSERT (units <=? max_raw_value) rate_limiting_state_inconsistent;
  _ ← EOS_ASSERT (units <=? u64_max - consumed a) rate_limiting_state_inconsistent;
  if window_size =? 0 then Throw undefined_behaviour else
  contrib ← downgrade_cast_u64
              (integer_divide_ceil (u128 (units * rate_limiting_precision)) window_size);
  _ ← EOS_ASSERT (contrib <=? u64_max - value_ex a) rate_limiting_state_inconsistent;
  a ← decay_to a ordinal window_size;
  Ok {| last_ordinal := last_ordinal a;
        value_ex := u64 (value_ex a + contrib);
        consumed := u64 (consumed a + units) |}.

(** ** Well-formedness and the exact result *)
Definition acc_ok (a : usage_accumulator) : Prop :=
  in_u 32 (last_ordinal a) ∧ in_u 64 (value_ex a) ∧ in_u 64 (consumed a).

(** What is left of [value_ex] when period [ordinal] begins. *)
Definition decayed (a : usage_accumulator) (ordinal w : Z) : Z :=
  if last_ordinal a =? ordinal then value_ex a
  else if ordinal <? last_ordinal a + w
  then value_ex a * (w - (ordinal - last_ordinal a)) / w
  else 0.

Lemma ratio_mul_exact v n d r :
  0 ≤ v → 0 ≤ n → ratio_mul v {| numerator := n; denominator := d |} = Ok r →
  r = v * n / d ∧ d ≠ 0 ∧ v * n ≤ u64_max.
Proof.
  unfold ratio_mul. simpl. intros Hv Hn H. res_inv.
  apply Z.eqb_neq in Heqb.
  assert (v * n ≤ u64_max) as Hle.
  { apply orb_true_iff in H0 as [->%Z.eqb_eq|H1%Z.leb_le]; [unfold u64_max; lia|].
    destruct (decide (n = 0)) as [->|]; [unfold u64_max; lia|].
    pose proof (Z.mul_div_le u64_max n ltac:(lia)). nia. }
  rewrite wrap_small by (unfold in_u, u64_max in *; nia). done.
Qed.

Lemma ratio_mul_ok v n d :
  0 ≤ v → 0 ≤ n → d ≠ 0 → v * n ≤ u64_max →
  ratio_mul v {| numerator := n; denominator := d |} = Ok (v * n / d).
Proof.
  intros Hv Hn Hd Hle. unfold ratio_mul. simpl. rewrite (proj2 (orb_true_iff _ _)).
  - simpl. rewrite (proj2 (Z.eqb_neq d 0)) by done.
    rewrite wrap_small; [done|]. unfold in_u, u64_max in *. nia.
  - destruct (decide (n = 0)) as [->|]; [by left|]. right. apply Z.leb_le.
    apply Z.div_le_lower_bound; lia.
Qed.

Lemma ceil_bounds n d : 0 ≤ n → 0 < d →
  n ≤ d * integer_divide_ceil n d < n + d.
Proof.
  intros Hn Hd. unfold integer_divide_ceil. pose proof (Z.div_mod n d ltac:(lia)).
  pose proof (Z.mod_pos_bound n d Hd). destruct (Z.ltb_spec 0 (n mod d)); lia.
Qed.

Lemma ceil_mono n m d : 0 ≤ n ≤ m → 0 < d →
  0 ≤ integer_divide_ceil n d ≤ integer_divide_ceil m d.
Proof.
  intros Hn Hd. pose proof (ceil_bounds n d). pose proof (ceil_bounds m d). nia.
Qed.

Lemma decayed_bounds a o w : acc_ok a → 0 < w → last_ordinal a ≤ o →
  0 ≤ decayed a o w ≤ value_ex a.
Proof.
  intros (_ & [Hv _] & _) Hw Ho. unfold decayed.
  destruct (Z.eqb_spec (last_ordinal a) o); [lia|].
  destruct (Z.ltb_spec o (last_ordinal a + w)); [|lia].
  split; [apply Z.div_pos; nia|apply Z.div_le_upper_bound; nia].
Qed.

Lemma decay_to_eq a o w : acc_ok a → in_u 32 o → in_u 32 w → w ≠ 0 →
  decay_to a o w =
    if last_ordinal a =? o then Ok a
    else if o <? last_ordinal a then Throw resource_limit_exception
    else if (o <? last_ordinal a + w)
            && (u64_max <? value_ex a * (w - (o - last_ordinal a)))
    then Throw rate_limiting_state_inconsistent
    else Ok {| last_ordinal := o; value_ex := decayed a o w;
               consumed := average (decayed a o w) |}.
Proof.
  intros (Hl & Hv & Hc) Ho Hw Hw0. unfold decay_to, decayed, in_u in *.
  destruct (Z.eqb_spec (last_ordinal a) o) as [E|E]; [done|].
  rewrite wrap_small by (unfold in_u; lia).
  destruct (Z.ltb_spec o (last_ordinal a)), (Z.ltb_spec (last_ordinal a) o); try lia; [done|].
  cbn [EOS_ASSERT mbind result_bind].
  destruct (Z.ltb_spec o (last_ordinal a + w)); [|done].
  rewrite (wrap_small 32), (wrap_small 64) by (unfold in_u; lia).
  destruct (Z.ltb_spec u64_max (value_ex a * (w - (o - last_ordinal a)))) as [H3|H3];
    cbn [andb]; [|by rewrite ratio_mul_ok by lia].
  unfold ratio_mul. simpl. rewrite !(proj2 (Z.eqb_neq _ 0)) by lia.
  rewrite (proj2 (Z.leb_gt _ _)); [done|]. apply Z.div_lt_upper_bound; lia.
Qed.

Lemma ceil_precision units w : 0 ≤ units ≤ max_raw_value → 0 < w →
  0 ≤ integer_divide_ceil (units * rate_limiting_precision) w ≤ u64_max.
Proof.
  change max_raw_value with 18446744073709. change rate_limiting_precision with 1000000.
  intros. pose proof (ceil_bounds (units * 1000000) w). unfold u64_max. nia.
Qed.

Lemma average_bounds v : in_u 64 v → 0 ≤ average v ≤ 18446744073710.
Proof.
  intros [? ?]. unfold average. change rate_limiting_precision with 1000000.
  pose proof (ceil_bounds v 1000000). lia.
Qed.

(** [add] without machine arithmetic: its three error conditions and its
    result. *)
Lemma add_eq a units o w : acc_ok a → in_u 64 units → in_u 32 o → in_u 32 w → w ≠ 0 →
  let c := integer_divide_ceil (units * rate_limiting_precision) w in
  add a units o w =
    if (max_raw_value <? units) || (u64_max <? consumed a + units)
       || (u64_max <? value_ex a + c)
    then Throw rate_limiting_state_inconsistent
    else if o <? last_ordinal a then Throw resource_limit_exception
    else if (last_ordinal a <? o) && (o <? last_ordinal a + w)
            && (u64_max <? value_ex a * (w - (o - last_ordinal a)))
    then Throw rate_limiting_state_inconsistent
    else Ok {| last_ordinal := o; value_ex := decayed a o w + c;
               consumed := (if last_ordinal a =? o then consumed a
                            else average (decayed a o w)) + units |}.
Proof.
  intros Hok Hu Ho Hw Hw0 c. pose proof Hok as (Hl & Hv & Hc). unfold add, in_u in *.
  rewrite (wrap_small 128) by (unfold in_u, rate_limiting_precision; lia).
  destruct (Z.ltb_spec max_raw_value units), (Z.leb_spec units max_raw_value); try lia; [done|].
  destruct (Z.ltb_spec u64_max (consumed a + units)),
    (Z.leb_spec units (u64_max - consumed a)); try lia; [done|].
  rewrite (proj2 (Z.eqb_neq w 0)) by done. cbn [EOS_ASSERT mbind result_bind orb].
  pose proof (ceil_precision units w ltac:(lia) ltac:(lia)) as Hcp. fold c. fold c in Hcp.
  unfold downgrade_cast_u64. rewrite !(proj2 (Z.leb_le _ _)) by lia.
  cbn [EOS_ASSERT mbind result_bind andb].
  destruct (Z.ltb_spec u64_max (value_ex a + c)),
    (Z.leb_spec c (u64_max - value_ex a)); try lia; [done|].
  cbn [EOS_ASSERT mbind result_bind]. rewrite decay_to_eq by done. unfold u64_max in *.
  destruct (Z.eqb_spec (last_ordinal a) o) as [E|E].
  - rewrite E, Z.ltb_irrefl. cbn [andb mbind result_bind]. unfold decayed.
    rewrite E, Z.eqb_refl. rewrite !wrap_small by (unfold in_u; lia). done.
  - destruct (Z.ltb_spec o (last_ordinal a)); [done|].
    rewrite (proj2 (Z.ltb_lt (last_ordinal a) o)) by lia. cbn [andb].
    destruct (_ && _) eqn:?; [done|]. cbn [mbind result_bind last_ordinal value_ex consumed].
    pose proof (decayed_bounds a o w Hok ltac:(lia) ltac:(lia)).
    pose proof (average_bounds (decayed a o w) ltac:(unfold in_u; lia)).
    change max_raw_value with 18446744073709 in *.
    rewrite !wrap_small by (unfold in_u; lia). done.
Qed.

(** Functional correctness of [add]: whenever it returns, nothing has
    wrapped; the stored average is the decayed one plus the rounded-up share
    of the new units, and [consumed] restarts from the decayed average in a
    new period and accumulates within a period. *)
Theorem add_exact a units o w a' :
  acc_ok a → in_u 64 units → in_u 32 o → in_u 32 w →
  add a units o w = Ok a' →
  acc_ok a' ∧ last_ordinal a' = o ∧ last_ordinal a ≤ o ∧
  value_ex a' = decayed a o w + integer_divide_ceil (units * rate_limiting_precision) w ∧
  consumed a' =
    (if last_ordinal a =? o then consumed a else average (decayed a o w)) + units.
Proof.
  intros Ha Hu Ho Hw H.
  assert (w ≠ 0) as Hw0 by (intros ->; unfold add in H; by res_inv).
  rewrite add_eq in H by done. destruct (_ || _) eqn:E1 in H; [done|].
  destruct (Z.ltb_spec o (last_ordinal a)) in H; [done|].
  destruct (_ && _) in H; [done|]. res_inv. cbn [last_ordinal value_ex consumed].
  split_and!; try done. unfold in_u in *.
  pose proof (ceil_precision units w ltac:(lia) ltac:(lia)).
  pose proof (decayed_bounds a o w Ha ltac:(lia) ltac:(lia)).
  pose proof Ha as (? & ? & ?). unfold in_u in *.
  pose proof (average_bounds (decayed a o w) ltac:(unfold in_u; lia)).
  change max_raw_value with 18446744073709 in *. unfold acc_ok, in_u, u64_max in *.
  cbn [last_ordinal value_ex consumed]. destruct (last_ordinal a =? o); lia.
Qed.

Lemma add_exact_witness :
  let a := {| last_ordinal := 10; value_ex := 5000000; consumed := 5 |} in
  ∃ a', add a 300 20 60 = Ok a' ∧ value_ex a' = 4166666 + 5000000 ∧ consumed a' = 5 + 300.
Proof.
  intros a.
  destruct (add a 300 20 60) as [a'|e] eqn:E; [|vm_compute in E; discriminate E].
  exists a'. split; [reflexivity|].
  destruct (add_exact a 300 20 60 a') as (_ & _ & _ & H1 & H2).
  - repeat split; vm_compute; congruence.
  - split; vm_compute; congruence.
  - split; vm_compute; congruence.
  - split; vm_compute; congruence.
  - exact E.
  - rewrite H1, H2. split; vm_compute; reflexivity.
Defined.

(** The largest average a usage of at most [u] units per period can reach. *)
Definition ema_cap (u w : Z) : Z := w * integer_divide_ceil (u * rate_limiting_precision) w.

Lemma decayed_cap a o w u :
  0 < w → 0 ≤ value_ex a ≤ ema_cap u w → 0 ≤ u → last_ordinal a < o →
  0 ≤ decayed a o w ≤ ema_cap u w - integer_divide_ceil (u * rate_limiting_precision) w.
Proof.
  intros Hw Hv Hu Ho. unfold decayed, ema_cap in *.
  pose proof (ceil_bounds (u * rate_limiting_precision) w
    ltac:(unfold rate_limiting_precision; lia) Hw) as Hc.
  set (c := integer_divide_ceil _ w) in *.
  assert (0 ≤ c) by (unfold rate_limiting_precision in *; nia).
  rewrite (proj2 (Z.eqb_neq _ _)) by lia.
  destruct (Z.ltb_spec o (last_ordinal a + w)); [|nia].
  split; [apply Z.div_pos; nia|]. apply Z.div_le_upper_bound; [done|]. nia.
Qed.

(** The accumulator while usage stays below [u] units per period. *)
Definition acc_bounded (u w : Z) (a : usage_accumulator) : Prop :=
  acc_ok a ∧ value_ex a ≤ ema_cap u w ∧ consumed a ≤ 2 ^ 46.

Lemma add_bounded a u w units o :
  1 < w < 2 ^ 32 → 0 ≤ u ≤ max_raw_value → w * ema_cap u w ≤ u64_max →
  acc_bounded u w a → 0 ≤ units ≤ u → last_ordinal a < o < 2 ^ 32 →
  ∃ a', add a units o w = Ok a' ∧ acc_bounded u w a' ∧ last_ordinal a' = o.
Proof.
  intros Hw Hu Hcap (Hok & Hv & Hc) Hun Ho. pose proof Hok as (Hl & Hv0 & Hc0).
  change max_raw_value with 18446744073709 in *. unfold u64_max, in_u in *.
  pose proof (decayed_cap a o w u ltac:(lia) ltac:(lia) ltac:(lia) ltac:(lia)) as Hd.
  destruct (ceil_mono (units * rate_limiting_precision) (u * rate_limiting_precision) w)
    as [C0 C1]; [unfold rate_limiting_precision; lia|lia|].
  pose proof (ceil_precision u w ltac:(change max_raw_value with 18446744073709; lia)
    ltac:(lia)) as C2.
  pose proof (average_bounds (decayed a o w)
    ltac:(unfold in_u; pose proof (decayed_bounds a o w Hok); lia)).
  rewrite add_eq by (unfold in_u; done || lia).
  unfold ema_cap, u64_max in *. change max_raw_value with 18446744073709.
  set (c := integer_divide_ceil (units * rate_limiting_precision) w) in *.
  set (cu := integer_divide_ceil (u * rate_limiting_precision) w) in *.
  assert (value_ex a * (w - (o - last_ordinal a)) ≤ w * (w * cu)) by nia.
  assert (cu ≤ w * cu) by nia. assert (2 * (w * cu) ≤ w * (w * cu)) by nia.
  rewrite (proj2 (Z.ltb_ge _ (value_ex a * _))) by lia. rewrite andb_false_r.
  rewrite !(proj2 (Z.ltb_ge _ _)) by lia.
  rewrite (proj2 (Z.eqb_neq (last_ordinal a) o)) by lia. cbn [orb].
  eexists. split; [done|]. split; [|done]. unfold acc_bounded, acc_ok, in_u.
  cbn [last_ordinal value_ex consumed]. unfold ema_cap. fold cu. lia.
Qed.

(** The accumulator under bounded usage: starting within the bound, any
    sequence of periods with increasing ordinals and at most [u] units each is
    processed without an exception, and the average never exceeds the one a
    constant usage of [u] units gives ([ema_cap], that is [u] scaled by the
    precision, rounded up to a multiple of the window). *)
Theorem add_all_bounded u w l : ∀ a,
  1 < w < 2 ^ 32 → 0 ≤ u ≤ max_raw_value → w * ema_cap u w ≤ u64_max →
  acc_bounded u w a →
  Forall (λ p : Z * Z, 0 ≤ p.1 ≤ u ∧ p.2 < 2 ^ 32) l →
  Sorted Z.lt (last_ordinal a :: (snd <$> l)) →
  ∃ a', fold_res (λ a p, add a p.1 p.2 w) a l = Ok a' ∧ acc_ok a' ∧
    value_ex a' ≤ ema_cap u w.
Proof.
  induction l as [|[units o] l IH]; intros a Hw Hu Hcap Ha Hl Hs.
  { exists a. split; [done|]. split; apply Ha. }
  inversion Hl as [|? ? [Hun Ho] Hl']; subst. inversion Hs as [|? ? Hs' Hhd]; subst.
  inversion Hhd as [|? ? Hlt]; subst. cbn [fst snd] in *.
  destruct (add_bounded a u w units o) as (a1 & E & Ha1 & <-); [done..|].
  cbn [fold_res fst snd]. rewrite E. cbn [mbind result_bind].
  by apply IH.
Qed.

(** The default block parameters: one second blocks, 60 periods, the default
    maximum of 10^6 microseconds per block. *)
Lemma add_all_bounded_witness :
  ∃ a', fold_res (λ a p, add a p.1 p.2 60) accumulator_ctor
          [(1000000, 1); (0, 2); (999, 50); (1000000, 4000)] = Ok a' ∧ acc_ok a' ∧
    value_ex a' ≤ ema_cap 1000000 60.
Proof.
  apply (add_all_bounded 1000000 60).
  - lia.
  - vm_compute; split; discriminate.
  - vm_compute; discriminate.
  - repeat split; vm_compute; congruence.
  - repeat constructor; simpl; lia.
  - repeat constructor; simpl; lia.
Defined.
