(* ===== verification/ResourceLimits.v ===== *)
(** * The resource limits manager ([resource_limits.cpp])

    Per-account limits (current and pending), per-account usage, the chain's
    configuration and state objects, and every operation of the manager.  The
    theorems show that the three totals of the state object are the sums of
    the accounts' positive weights, so that collapsing the pending limits at a
    block boundary never reports an inconsistent state and leaves no pending
    entry; that usage is accounted exactly; and how much an account may use. *)

From S2P Require Import Prelude Chainbase Names Assets Config ConfigOnChain Accumulator.
Local Open Scope Z_scope.

(** ** Data *)
Record elastic_limit_parameters := {
  target : Z; max : Z; periods : Z; max_multiplier : Z;
  contract_rate : ratio; expand_rate : ratio }.

#[export] Instance elastic_limit_parameters_eq_dec : EqDecision elastic_limit_parameters.
Proof. solve_decision. Defined.

Record gmr_parameters := { ram_byte : Z; cpu_us : Z; net_byte : Z }.
Record account_resource_limit := { used : Z; available : Z; arl_max : Z }.

(** [resource_limits_object]; [pending] and [owner] are the key. *)
Record resource_limits_object := { net_weight : Z; cpu_weight : Z; ram_bytes : Z }.
Record resource_usage_object :=
  { net_usage : usage_accumulator; cpu_usage : usage_accumulator; ram_usage : Z }.

Record resource_limits_config_object := {
  cpu_limit_parameters : elastic_limit_parameters;
  net_limit_parameters : elastic_limit_parameters;
  account_cpu_usage_average_window : Z;
  account_net_usage_average_window : Z }.

Record resource_limits_state_object := {
  average_block_net_usage : usage_accumulator;
  average_block_cpu_usage : usage_accumulator;
  pending_net_usage : Z; pending_cpu_usage : Z;
  total_net_weight : Z; total_cpu_weight : Z; total_ram_bytes : Z;
  virtual_net_limit : Z; virtual_cpu_limit : Z }.

(** The part of the state database the manager works on.  The singleton
    objects (configuration, guaranteed minimum resources, state) exist once
    [initialize_database] has run.  [vote4ram] holds, for the rows of the
    system contract's table [vote4ramsum], the staked amount. *)
Record resource_db := ResourceDb {
  limits : gmap (bool * Z) resource_limits_object;
  usages : gmap Z resource_usage_object;
  config : resource_limits_config_object;
  gmr : gmr_parameters;
  state : resource_limits_state_object;
  configs : config_index;
  vote4ram : gmap Z Z }.

Definition with_limits (d : resource_db) l :=
  ResourceDb l (usages d) (config d) (gmr d) (state d) (configs d) (vote4ram d).
Definition with_usages (d : resource_db) u :=
  ResourceDb (limits d) u (config d) (gmr d) (state d) (configs d) (vote4ram d).
Definition with_state (d : resource_db) s :=
  ResourceDb (limits d) (usages d) (config d) (gmr d) s (configs d) (vote4ram d).

(** ** Limits that follow the load *)
Definition update_elastic_limit (current_limit average_usage : Z)
    (params : elastic_limit_parameters) : result Z :=
  res ← if target params <? average_usage
        then ratio_mul current_limit (contract_rate params)
        else ratio_mul current_limit (expand_rate params);
  Ok (Z.min (Z.max res (max params)) (u64 (max params * max_multiplier params))).

Definition validate (p : elastic_limit_parameters) : result unit :=
  _ ← EOS_ASSERT (0 <? periods p) resource_limit_exception;
  _ ← EOS_ASSERT (0 <? denominator (contract_rate p)) resource_limit_exception;
  EOS_ASSERT (0 <? denominator (expand_rate p)) resource_limit_exception.

Definition gmr_validate (g : gmr_parameters) : result unit :=
  _ ← EOS_ASSERT (0 <? cpu_us g) resource_limit_exception;
  _ ← EOS_ASSERT (0 <? net_byte g) resource_limit_exception;
  EOS_ASSERT (0 <=? ram_byte g) resource_limit_exception.

Definition update_virtual_cpu_limit (s : resource_limits_state_object)
    (cfg : resource_limits_config_object) : result resource_limits_state_object :=
  v ← update_elastic_limit (virtual_cpu_limit s)
        (average (value_ex (average_block_cpu_usage s))) (cpu_limit_parameters cfg);
  Ok {| average_block_net_usage := average_block_net_usage s;
        average_block_cpu_usage := average_block_cpu_usage s;
        pending_net_usage := pending_net_usage s; pending_cpu_usage := pending_cpu_usage s;
        total_net_weight := total_net_weight s; total_cpu_weight := total_cpu_weight s;
        total_ram_bytes := total_ram_bytes s;
        virtual_net_limit := virtual_net_limit s; virtual_cpu_limit := v |}.

Definition update_virtual_net_limit (s : resource_limits_state_object)
    (cfg : resource_limits_config_object) : result resource_limits_state_object :=
  v ← update_elastic_limit (virtual_net_limit s)
        (average (value_ex (average_block_net_usage s))) (net_limit_parameters cfg);
  Ok {| average_block_net_usage := average_block_net_usage s;
        average_block_cpu_usage := average_block_cpu_usage s;
        pending_net_usage := pending_net_usage s; pending_cpu_usage := pending_cpu_usage s;
        total_net_weight := total_net_weight s; total_cpu_weight := total_cpu_weight s;
        total_ram_bytes := total_ram_bytes s;
        virtual_net_limit := v; virtual_cpu_limit := virtual_cpu_limit s |}.

(** Default member initialisers of the singleton objects. *)
Definition default_elastic (max pct window_ms : Z) : elastic_limit_parameters :=
  {| target := EOS_PERCENT max pct; max := max;
     periods := window_ms / block_interval_ms; max_multiplier := 1000;
     contract_rate := {| numerator := 99; denominator := 100 |};
     expand_rate := {| numerator := 1000; denominator := 999 |} |}.
Definition default_config : resource_limits_config_object :=
  {| cpu_limit_parameters := default_elastic default_max_block_cpu_usage
       default_target_block_cpu_usage_pct block_cpu_usage_average_window_ms;
     net_limit_parameters := default_elastic default_max_block_net_usage
       default_target_block_net_usage_pct block_size_average_window_ms;
     account_cpu_usage_average_window := account_cpu_usage_average_window_ms / block_interval_ms;
     account_net_usage_average_window := account_net_usage_average_window_ms / block_interval_ms |}.
Definition default_gmr : gmr_parameters :=
  {| ram_byte := default_gmr_ram_limit; cpu_us := default_gmr_cpu_limit;
     net_byte := default_gmr_net_limit |}.

Definition initialize_database (cfgs : config_index) (votes : gmap Z Z) : resource_db :=
  {| limits := ∅; usages := ∅; config := default_config; gmr := default_gmr;
     state := {| average_block_net_usage := accumulator_ctor;
                 average_block_cpu_usage := accumulator_ctor;
                 pending_net_usage := 0; pending_cpu_usage := 0;
                 total_net_weight := 0; total_cpu_weight := 0; total_ram_bytes := 0;
                 virtual_net_limit := max (net_limit_parameters default_config);
                 virtual_cpu_limit := max (cpu_limit_parameters default_config) |};
     configs := cfgs; vote4ram := votes |}.

(** ** Operations of [resource_limits_manager] *)
Section manager.
Context {db : Chainbase}.

Definition set_gmr_parameters (d : resource_db) (g : gmr_parameters) : result resource_db :=
  _ ← gmr_validate g;
  Ok (ResourceDb (limits d) (usages d) (config d) g (state d) (configs d) (vote4ram d)).

Definition initialize_account (d : resource_db) (account : Z) : result resource_db :=
  l ← db_create (limits d) (false, account)
        {| net_weight := -1; cpu_weight := -1; ram_bytes := -1 |};
  u ← db_create (usages d) account
        {| net_usage := accumulator_ctor; cpu_usage := accumulator_ctor; ram_usage := 0 |};
  Ok (with_usages (with_limits d l) u).

Definition set_block_parameters (d : resource_db) (cpu net : elastic_limit_parameters) :
    result resource_db :=
  _ ← validate cpu;
  _ ← validate net;
  if bool_decide (cpu_limit_parameters (config d) = cpu)
     && bool_decide (net_limit_parameters (config d) = net)
  then Ok d
  else Ok (ResourceDb (limits d) (usages d)
    {| cpu_limit_parameters := cpu; net_limit_parameters := net;
       account_cpu_usage_average_window := account_cpu_usage_average_window (config d);
       account_net_usage_average_window := account_net_usage_average_window (config d) |}
    (gmr d) (state d) (configs d) (vote4ram d)).

(** The modifier lambda of [update_account_usage] and [add_transaction_usage]. *)
Definition bill (c : resource_limits_config_object) (cpu net time_slot : Z)
    (bu : resource_usage_object) : result resource_usage_object :=
  n ← add (net_usage bu) net time_slot (account_net_usage_average_window c);
  p ← add (cpu_usage bu) cpu time_slot (account_cpu_usage_average_window c);
  Ok {| net_usage := n; cpu_usage := p; ram_usage := ram_usage bu |}.

Definition update_account_usage (d : resource_db) (accounts : list Z) (time_slot : Z) :
    result resource_db :=
  fold_res (λ d a,
    _ ← db_get (usages d) a;
    u ← db_modify (usages d) a (bill (config d) 0 0 time_slot);
    Ok (with_usages d u)) d accounts.

(** [get_account_ram_limit]; the signed product and sum may overflow. *)
Definition get_account_ram_limit (d : resource_db) (name : Z) : result Z :=
  if RESOURCE_MODEL =? 0 then Ok (-1) else
  let init_ram_size := s64 (ram_byte (gmr d)) in
  if (name =? system_account_name) || (name =? token_account_name)
     || (name =? msig_account_name) || (name =? N_ "codex.bios")
     || (name =? relay_account_name)
  then Ok (-1) else
  match vote4ram d !! name with
  | None => Ok init_ram_size
  | Some staked =>
      let ram_rent := get_num_config_on_chain (configs d) ram_rent_b_per_eos 10240 in
      prod ← int64_op (staked * ram_rent);
      int64_op (prod ÷ 1000000 + init_ram_size)
  end.

(** [get_account_limits]: [(ram_bytes, net_weight, cpu_weight)]. *)
Definition get_account_limits (d : resource_db) (account : Z) : result (Z * Z * Z) :=
  match db_find (limits d) (true, account) with
  | Some pending_buo =>
      ram ← get_account_ram_limit d account;
      Ok (ram, net_weight pending_buo, cpu_weight pending_buo)
  | None =>
      buo ← db_get (limits d) (false, account);
      ram ← get_account_ram_limit d account;
      Ok (ram, net_weight buo, cpu_weight buo)
  end.

(** What an account of weight [w] may use in the window, and what it has used,
    in unsigned 128-bit arithmetic. *)
Definition max_user_use (limit window w all_w free : Z) : Z :=
  u128 (u128 (u128 (limit * window) * w) / all_w + free).
Definition used_in_window (v window : Z) : Z := u128 (v * window) / rate_limiting_precision.

Definition add_transaction_usage_account (cpu net time_slot : Z) (d : resource_db) (a : Z) :
    result resource_db :=
  _ ← db_get (usages d) a;
  lim ← get_account_limits d a;
  let '(_, net_w, cpu_w) := lim in
  u ← db_modify (usages d) a (bill (config d) cpu net time_slot);
  usage ← db_get u a;
  let d := with_usages d u in
  let c := config d in
  let s := state d in
  _ ← (if (0 <=? cpu_w) && (0 <? total_cpu_weight s) then
         let w := account_cpu_usage_average_window c in
         EOS_ASSERT (used_in_window (value_ex (cpu_usage usage)) w
                     <=? max_user_use (virtual_cpu_limit s) w cpu_w (total_cpu_weight s)
                           (cpu_us (gmr d)))
           tx_cpu_usage_exceeded
       else Ok tt);
  _ ← (if (0 <=? net_w) && (0 <? total_net_weight s) then
         let w := account_net_usage_average_window c in
         EOS_ASSERT (used_in_window (value_ex (net_usage usage)) w
                     <=? max_user_use (virtual_net_limit s) w net_w (total_net_weight s)
                           (cpu_us (gmr d)))
           tx_net_usage_exceeded
       else Ok tt);
  Ok d.

Definition add_pending (s : resource_limits_state_object) (cpu net : Z) :
    resource_limits_state_object :=
  {| average_block_net_usage := average_block_net_usage s;
     average_block_cpu_usage := average_block_cpu_usage s;
     pending_net_usage := u64 (pending_net_usage s + net);
     pending_cpu_usage := u64 (pending_cpu_usage s + cpu);
     total_net_weight := total_net_weight s; total_cpu_weight := total_cpu_weight s;
     total_ram_bytes := total_ram_bytes s;
     virtual_net_limit := virtual_net_limit s; virtual_cpu_limit := virtual_cpu_limit s |}.

Definition add_transaction_usage (d : resource_db) (accounts : list Z)
    (cpu_usage net_usage time_slot : Z) : result resource_db :=
  d ← fold_res (add_transaction_usage_account cpu_usage net_usage time_slot) d accounts;
  let d := with_state d (add_pending (state d) cpu_usage net_usage) in
  _ ← EOS_ASSERT (pending_cpu_usage (state d) <=? max (cpu_limit_parameters (config d)))
        block_resource_exhausted;
  _ ← EOS_ASSERT (pending_net_usage (state d) <=? max (net_limit_parameters (config d)))
        block_resource_exhausted;
  Ok d.

(** [-ram_delta] overflows for the smallest 64-bit integer. *)
Definition add_pending_ram_usage (d : resource_db) (account ram_delta : Z) :
    result resource_db :=
  if ram_delta =? 0 then Ok d else
  usage ← db_get (usages d) account;
  _ ← EOS_ASSERT ((ram_delta <=? 0) || (u64 ram_delta <=? u64_max - ram_usage usage))
        transaction_exception;
  if ram_delta =? - 2 ^ 63 then Throw undefined_behaviour else
  _ ← EOS_ASSERT ((0 <=? ram_delta) || (u64 (- ram_delta) <=? ram_usage usage))
        transaction_exception;
  u ← db_modify (usages d) account (λ u,
        Ok {| net_usage := net_usage u; cpu_usage := cpu_usage u;
              ram_usage := u64 (ram_usage u + ram_delta) |});
  Ok (with_usages d u).

Definition verify_account_ram_usage (d : resource_db) (account : Z) : result unit :=
  lim ← get_account_limits d account;
  let '(ram, _, _) := lim in
  usage ← db_get (usages d) account;
  if 0 <=? ram then EOS_ASSERT (ram_usage usage <=? u64 ram) ram_usage_exceeded else Ok tt.

Definition get_account_ram_usage (d : resource_db) (name : Z) : result Z :=
  usage ← db_get (usages d) name; Ok (s64 (ram_usage usage)).

Definition find_or_create_pending_limits (d : resource_db) (account : Z) :
    result (resource_db * resource_limits_object) :=
  match db_find (limits d) (true, account) with
  | None =>
      lim ← db_get (limits d) (false, account);
      l ← db_create (limits d) (true, account) lim;
      Ok (with_limits d l, lim)
  | Some pending_limits => Ok (d, pending_limits)
  end.

Definition set_account_limits (d : resource_db) (account ram net cpu : Z) :
    result (resource_db * bool) :=
  r ← find_or_create_pending_limits d account;
  let '(d, lim) := r in
  let decreased_limit :=
    if 0 <=? ram then (ram_bytes lim <? 0) || (ram <? ram_bytes lim) else false in
  l ← db_modify (limits d) (true, account) (λ _,
        Ok {| net_weight := net; cpu_weight := cpu; ram_bytes := ram |});
  Ok (with_limits d l, decreased_limit).

(** [update_state_and_value]: the new total and the new value. *)
Definition update_state_and_value (total value pending_value : Z) : result (Z * Z) :=
  total ← (if 0 <? value then
             _ ← EOS_ASSERT (u64 value <=? total) rate_limiting_state_inconsistent;
             Ok (u64 (total - value))
           else Ok total);
  total ← (if 0 <? pending_value then
             _ ← EOS_ASSERT (u64 pending_value <=? u64_max - total)
                   rate_limiting_state_inconsistent;
             Ok (u64 (total + pending_value))
           else Ok total);
  Ok (total, pending_value).

(** [by_owner_index.lower_bound(true)]: the owner of the first pending entry. *)
Definition pending_owners (l : gmap (bool * Z) resource_limits_object) : list Z :=
  merge_sort Z.le
    (omap (λ kv : bool * Z * resource_limits_object, if kv.1.1 then Some kv.1.2 else None)
       (map_to_list l)).
Definition first_pending (l : gmap (bool * Z) resource_limits_object) : option Z :=
  head (pending_owners l).

Definition set_totals (s : resource_limits_state_object) (ram cpu net : Z) :
    resource_limits_state_object :=
  {| average_block_net_usage := average_block_net_usage s;
     average_block_cpu_usage := average_block_cpu_usage s;
     pending_net_usage := pending_net_usage s; pending_cpu_usage := pending_cpu_usage s;
     total_net_weight := net; total_cpu_weight := cpu; total_ram_bytes := ram;
     virtual_net_limit := virtual_net_limit s; virtual_cpu_limit := virtual_cpu_limit s |}.

(** One iteration of the [while] loop, for the pending entry of [owner]. *)
Definition collapse_one (d : resource_db) (owner : Z) : result resource_db :=
  pend ← db_get (limits d) (true, owner);
  actual ← db_get (limits d) (false, owner);
  let s := state d in
  ram ← update_state_and_value (total_ram_bytes s) (ram_bytes actual) (ram_bytes pend);
  cpu ← update_state_and_value (total_cpu_weight s) (cpu_weight actual) (cpu_weight pend);
  net ← update_state_and_value (total_net_weight s) (net_weight actual) (net_weight pend);
  l ← db_modify (limits d) (false, owner) (λ _,
        Ok {| net_weight := net.2; cpu_weight := cpu.2; ram_bytes := ram.2 |});
  Ok (with_state (with_limits d (db_remove l (true, owner))) (set_totals s ram.1 cpu.1 net.1)).

Fixpoint collapse_loop (fuel : nat) (d : resource_db) : result resource_db :=
  match fuel with
  | O => Throw out_of_fuel
  | S fuel =>
      match first_pending (limits d) with
      | None => Ok d
      | Some owner => d ← collapse_one d owner; collapse_loop fuel d
      end
  end.

(** Every iteration removes an entry, so the number of entries is fuel enough. *)
Definition process_account_limit_updates (d : resource_db) : result resource_db :=
  collapse_loop (S (size (limits d))) d.

Definition process_block_usage (d : resource_db) (block_num : Z) : result resource_db :=
  let s := state d in
  let c := config d in
  cpu ← add (average_block_cpu_usage s) (pending_cpu_usage s) block_num
          (periods (cpu_limit_parameters c));
  s ← update_virtual_cpu_limit
        {| average_block_net_usage := average_block_net_usage s;
           average_block_cpu_usage := cpu;
           pending_net_usage := pending_net_usage s; pending_cpu_usage := pending_cpu_usage s;
           total_net_weight := total_net_weight s; total_cpu_weight := total_cpu_weight s;
           total_ram_bytes := total_ram_bytes s;
           virtual_net_limit := virtual_net_limit s;
           virtual_cpu_limit := virtual_cpu_limit s |} c;
  net ← add (average_block_net_usage s) (pending_net_usage s) block_num
          (periods (net_limit_parameters c));
  s ← update_virtual_net_limit
        {| average_block_net_usage := net;
           average_block_cpu_usage := average_block_cpu_usage s;
           pending_net_usage := pending_net_usage s; pending_cpu_usage := 0;
           total_net_weight := total_net_weight s; total_cpu_weight := total_cpu_weight s;
           total_ram_bytes := total_ram_bytes s;
           virtual_net_limit := virtual_net_limit s;
           virtual_cpu_limit := virtual_cpu_limit s |} c;
  Ok (with_state d
    {| average_block_net_usage := average_block_net_usage s;
       average_block_cpu_usage := average_block_cpu_usage s;
       pending_net_usage := 0; pending_cpu_usage := pending_cpu_usage s;
       total_net_weight := total_net_weight s; total_cpu_weight := total_cpu_weight s;
       total_ram_bytes := total_ram_bytes s;
       virtual_net_limit := virtual_net_limit s;
       virtual_cpu_limit := virtual_cpu_limit s |}).

Definition get_virtual_block_cpu_limit (d : resource_db) : Z := virtual_cpu_limit (state d).
Definition get_virtual_block_net_limit (d : resource_db) : Z := virtual_net_limit (state d).
Definition get_block_cpu_limit (d : resource_db) : Z :=
  u64 (max (cpu_limit_parameters (config d)) - pending_cpu_usage (state d)).
Definition get_block_net_limit (d : resource_db) : Z :=
  u64 (max (net_limit_parameters (config d)) - pending_net_usage (state d)).

(** The common tail of the two [_ex] functions. *)
Definition account_limit (limit window w all_w free v : Z) : result account_resource_limit :=
  let max_user := max_user_use limit window w all_w free in
  let used := integer_divide_ceil (u128 (v * window)) rate_limiting_precision in
  av ← if max_user <=? used then Ok 0 else downgrade_cast_s64 (max_user - used);
  us ← downgrade_cast_s64 used;
  mx ← downgrade_cast_s64 max_user;
  Ok {| used := us; available := av; arl_max := mx |}.

Definition unlimited : account_resource_limit :=
  {| used := -1; available := -1; arl_max := -1 |}.

Definition get_account_cpu_limit_ex (d : resource_db) (name : Z) (elastic : bool) :
    result account_resource_limit :=
  usage ← db_get (usages d) name;
  lim ← get_account_limits d name;
  let '(_, _, cpu_w) := lim in
  let s := state d in
  if (cpu_w <? 0) || (total_cpu_weight s =? 0) then Ok unlimited else
  account_limit
    (if elastic then virtual_cpu_limit s else max (cpu_limit_parameters (config d)))
    (account_cpu_usage_average_window (config d)) cpu_w (total_cpu_weight s)
    (cpu_us (gmr d)) (value_ex (cpu_usage usage)).

Definition get_account_net_limit_ex (d : resource_db) (name : Z) (elastic : bool) :
    result account_resource_limit :=
  usage ← db_get (usages d) name;
  lim ← get_account_limits d name;
  let '(_, net_w, _) := lim in
  let s := state d in
  if (net_w <? 0) || (total_net_weight s =? 0) then Ok unlimited else
  account_limit
    (if elastic then virtual_net_limit s else max (net_limit_parameters (config d)))
    (account_net_usage_average_window (config d)) net_w (total_net_weight s)
    (net_byte (gmr d)) (value_ex (net_usage usage)).

Definition get_account_cpu_limit (d : resource_db) (name : Z) (elastic : bool) : result Z :=
  arl ← get_account_cpu_limit_ex d name elastic; Ok (available arl).
Definition get_account_net_limit (d : resource_db) (name : Z) (elastic : bool) : result Z :=
  arl ← get_account_net_limit_ex d name elastic; Ok (available arl).
End manager.

(** ** The totals invariant *)
Definition actual_weight (f : resource_limits_object → Z) (k : bool * Z)
    (r : resource_limits_object) : Z := if k.1 then 0 else Z.max 0 (f r).
Definition total_of (f : resource_limits_object → Z) l : Z := sum_map (actual_weight f) l.

(** Current and pending limits together: a bound for every total that can occur
    while the pending limits are collapsed. *)
Definition total_all (f : resource_limits_object → Z)
    (l : gmap (bool * Z) resource_limits_object) : Z := sum_map (λ _ r, Z.max 0 (f r)) l.

Definition weights_ok (r : resource_limits_object) : Prop :=
  in_s64 (net_weight r) ∧ in_s64 (cpu_weight r) ∧ in_s64 (ram_bytes r).

Definition same_totals (s s' : resource_limits_state_object) : Prop :=
  total_net_weight s' = total_net_weight s ∧ total_cpu_weight s' = total_cpu_weight s ∧
  total_ram_bytes s' = total_ram_bytes s.

Record rl_inv (d : resource_db) : Prop := {
  inv_net : total_net_weight (state d) = total_of net_weight (limits d);
  inv_cpu : total_cpu_weight (state d) = total_of cpu_weight (limits d);
  inv_ram : total_ram_bytes (state d) = total_of ram_bytes (limits d);
  inv_net_u : in_u 64 (total_net_weight (state d));
  inv_cpu_u : in_u 64 (total_cpu_weight (state d));
  inv_ram_u : in_u 64 (total_ram_bytes (state d));
  inv_weights : ∀ k r, limits d !! k = Some r → weights_ok r;
  inv_pending : ∀ o r, limits d !! (true, o) = Some r → is_Some (limits d !! (false, o)) }.

Lemma rl_inv_frame d d' :
  limits d' = limits d → same_totals (state d) (state d') → rl_inv d → rl_inv d'.
Proof.
  intros El (En & Ec & Er) [? ? ? ? ? ? ? ?]. split; rewrite ?El, ?En, ?Ec, ?Er; eauto.
Qed.

Lemma actual_weight_nonneg f k r : 0 ≤ actual_weight f k r.
Proof. unfold actual_weight. destruct k as [[] ?]; simpl; lia. Qed.

(** Writing a pending entry does not touch the totals. *)
Lemma total_of_pending f l o r :
  total_of f (<[(true, o) := r]> l) = total_of f l.
Proof.
  unfold total_of. destruct (l !! (true, o)) as [r'|] eqn:E.
  - rewrite (sum_map_update _ _ _ _ _ E). unfold actual_weight. simpl. lia.
  - by rewrite sum_map_insert.
Qed.

Lemma total_of_collapse f l o a p : l !! (false, o) = Some a →
  total_of f (delete (true, o) (<[(false, o) := p]> l)) =
    total_of f l - Z.max 0 (f a) + Z.max 0 (f p).
Proof.
  intros Ha. unfold total_of.
  assert (sum_map (actual_weight f) (delete (true, o) (<[(false, o):=p]> l)) =
          sum_map (actual_weight f) (<[(false, o):=p]> l)) as ->.
  { destruct ((<[(false, o):=p]> l) !! (true, o)) as [r|] eqn:E.
    - rewrite (sum_map_delete _ _ _ _ E). unfold actual_weight. simpl. lia.
    - by rewrite delete_id. }
  rewrite (sum_map_update _ _ _ _ _ Ha). done.
Qed.

Lemma total_all_collapse f l o a p :
  l !! (false, o) = Some a → l !! (true, o) = Some p →
  total_all f (delete (true, o) (<[(false, o) := p]> l)) = total_all f l - Z.max 0 (f a).
Proof.
  intros Ha Hp. unfold total_all. rewrite (sum_map_delete _ _ _ p).
  - rewrite (sum_map_update _ _ _ _ _ Ha). lia.
  - by rewrite lookup_insert_ne.
Qed.

Lemma total_all_pending f l o p : l !! (true, o) = Some p →
  total_of f l + Z.max 0 (f p) ≤ total_all f l.
Proof.
  intros Hp. unfold total_of, total_all.
  rewrite <- (insert_delete_id l _ _ Hp).
  rewrite !sum_map_insert by apply lookup_delete_eq.
  assert (∀ m, sum_map (actual_weight f) m ≤ sum_map (λ _ r, Z.max 0 (f r)) m) as Hle.
  { intros m. induction m as [|k r m Hk IH] using map_ind; [done|].
    rewrite !sum_map_insert by done. unfold actual_weight at 1. destruct k as [[] ?]; simpl; lia. }
  specialize (Hle (delete (true, o) l)). unfold actual_weight at 1. simpl. lia.
Qed.

Lemma update_state_and_value_eq total v p :
  in_u 64 total → in_s64 v → in_s64 p → Z.max 0 v ≤ total →
  update_state_and_value total v p =
    if total - Z.max 0 v + Z.max 0 p <=? u64_max
    then Ok (total - Z.max 0 v + Z.max 0 p, p)
    else Throw rate_limiting_state_inconsistent.
Proof.
  unfold update_state_and_value, in_u, in_s64, u64_max. intros Ht Hv Hp Hle.
  assert ((if 0 <? v then _ ← EOS_ASSERT (u64 v <=? total) rate_limiting_state_inconsistent;
             Ok (u64 (total - v)) else Ok total) = Ok (total - Z.max 0 v)) as ->.
  { destruct (Z.ltb_spec 0 v); [|do 2 f_equal; lia].
    rewrite !wrap_small by (unfold in_u; lia). rewrite (proj2 (Z.leb_le _ _)) by lia.
    simpl. do 2 f_equal. lia. }
  cbn [mbind result_bind]. destruct (Z.ltb_spec 0 p).
  - rewrite (wrap_small 64 p) by (unfold in_u; lia). rewrite (Z.max_r 0 p) by lia.
    destruct (Z.leb_spec p (18446744073709551615 - (total - Z.max 0 v))),
      (Z.leb_spec (total - Z.max 0 v + p) 18446744073709551615); try lia; [|done].
    cbn [EOS_ASSERT mbind result_bind]. rewrite wrap_small by (unfold in_u; lia). done.
  - rewrite (Z.max_l 0 p) by lia. rewrite (proj2 (Z.leb_le _ _)) by lia.
    cbn [mbind result_bind]. do 2 f_equal. lia.
Qed.

Section proofs.
Context {db : Chainbase} {laws : ChainbaseLaws db}.

Lemma elem_of_pending_owners l o : o ∈ pending_owners l ↔ is_Some (l !! (true, o)).
Proof.
  unfold pending_owners. rewrite merge_sort_Permutation, list_elem_of_omap. split.
  - intros ([[[] o'] r] & Hin & Heq); simplify_eq/=.
    apply elem_of_map_to_list in Hin. eauto.
  - intros [r Hr]. exists ((true, o), r). split; [by apply elem_of_map_to_list|done].
Qed.

Lemma first_pending_Some l o : first_pending l = Some o → is_Some (l !! (true, o)).
Proof.
  unfold first_pending. intros H. apply elem_of_pending_owners.
  destruct (pending_owners l); simplify_eq/=. left.
Qed.

Lemma first_pending_None l : first_pending l = None → ∀ o, l !! (true, o) = None.
Proof.
  unfold first_pending. intros H o. destruct (l !! (true, o)) eqn:E; [|done].
  assert (o ∈ pending_owners l) as Hin by by apply elem_of_pending_owners.
  destruct (pending_owners l); [by apply elem_of_nil in Hin|done].
Qed.

(** What one iteration of the loop does on a consistent state. *)
Lemma collapse_one_eq d o p a :
  rl_inv d → limits d !! (true, o) = Some p → limits d !! (false, o) = Some a →
  let new f := total_of f (limits d) - Z.max 0 (f a) + Z.max 0 (f p) in
  collapse_one d o =
    if (new ram_bytes <=? u64_max) && (new cpu_weight <=? u64_max)
       && (new net_weight <=? u64_max)
    then Ok (with_state (with_limits d (delete (true, o) (<[(false, o) := p]> (limits d))))
               (set_totals (state d) (new ram_bytes) (new cpu_weight) (new net_weight)))
    else Throw rate_limiting_state_inconsistent.
Proof.
  intros Hinv Hp Ha new. unfold collapse_one. db_simpl. rewrite Hp, Ha. cbn [of_option mbind result_bind].
  destruct (inv_weights d Hinv _ _ Hp) as (Pn & Pc & Pr).
  destruct (inv_weights d Hinv _ _ Ha) as (An & Ac & Ar).
  assert (∀ f total, total = total_of f (limits d) → in_u 64 total → in_s64 (f a) →
    in_s64 (f p) → update_state_and_value total (f a) (f p) =
      if new f <=? u64_max then Ok (new f, f p)
      else Throw rate_limiting_state_inconsistent) as Hu.
  { intros f total -> Htot Hfa Hfp. apply update_state_and_value_eq; try done.
    apply (sum_map_lookup (actual_weight f) _ _ _ (actual_weight_nonneg f) Ha). }
  rewrite (Hu ram_bytes), (Hu cpu_weight), (Hu net_weight) by (done || apply Hinv).
  destruct (new ram_bytes <=? u64_max); [|done]. cbn [mbind result_bind andb].
  destruct (new cpu_weight <=? u64_max); [|done]. cbn [mbind result_bind andb].
  destruct (new net_weight <=? u64_max); [|done]. cbn [mbind result_bind fst snd].
  db_simpl. rewrite Ha. cbn [of_option mbind result_bind]. db_simpl. by destruct p.
Qed.

Lemma total_of_nonneg f l : 0 ≤ total_of f l.
Proof. apply sum_map_nonneg, actual_weight_nonneg. Qed.

Lemma lookup_collapse (l : gmap (bool * Z) resource_limits_object) o p k r :
  delete (true, o) (<[(false, o) := p]> l) !! k = Some r →
  k ≠ (true, o) ∧ (k = (false, o) ∧ r = p ∨ k ≠ (false, o) ∧ l !! k = Some r).
Proof.
  rewrite lookup_delete_Some, lookup_insert_Some. naive_solver.
Qed.

Lemma collapse_one_inv d o d' : rl_inv d → collapse_one d o = Ok d' →
  rl_inv d' ∧ ∃ p a, limits d !! (true, o) = Some p ∧ limits d !! (false, o) = Some a ∧
    limits d' = delete (true, o) (<[(false, o) := p]> (limits d)).
Proof.
  intros Hinv H. pose proof H as H0. unfold collapse_one in H0.
  apply bind_Ok in H0 as (p & Hp%db_get_Ok & H0).
  apply bind_Ok in H0 as (a & Ha%db_get_Ok & _).
  rewrite (collapse_one_eq d o p a Hinv Hp Ha) in H.
  destruct (_ && _) eqn:E in H; [|done]. injection H as <-. bool_prop.
  split; [|by exists p, a].
  assert (∀ f, total_of f (delete (true, o) (<[(false, o):=p]> (limits d))) =
    total_of f (limits d) - Z.max 0 (f a) + Z.max 0 (f p)) as Ht
    by (intros; by apply total_of_collapse).
  pose proof (λ f, total_of_nonneg f (delete (true, o) (<[(false, o):=p]> (limits d)))) as Hn.
  setoid_rewrite Ht in Hn. unfold u64_max in *.
  split; cbn [with_state with_limits limits state set_totals total_net_weight
    total_cpu_weight total_ram_bytes]; rewrite ?Ht; try done;
    try (split; [apply Hn|lia]).
  - intros k r [_ [[_ ->]|[_ Hk]]]%lookup_collapse; eapply Hinv; eauto.
  - intros o' r [Hk [[? _]|[_ Hk']]]%lookup_collapse; [done|].
    assert (o' ≠ o) by congruence. rewrite lookup_delete_ne, lookup_insert_ne by congruence.
    eapply Hinv; eauto.
Qed.

(** Enough room for every total that occurs while pending limits collapse. *)
Definition totals_fit (d : resource_db) : Prop :=
  total_all net_weight (limits d) ≤ u64_max ∧ total_all cpu_weight (limits d) ≤ u64_max ∧
  total_all ram_bytes (limits d) ≤ u64_max.

Lemma collapse_one_total d o p :
  rl_inv d → totals_fit d → limits d !! (true, o) = Some p →
  ∃ d', collapse_one d o = Ok d' ∧ rl_inv d' ∧ totals_fit d' ∧
    limits d' = delete (true, o) (<[(false, o) := p]> (limits d)) ∧
    size (limits d) = S (size (limits d')).
Proof.
  intros Hinv (Fn & Fc & Fr) Hp. destruct (inv_pending d Hinv o p Hp) as [a Ha].
  pose proof (λ f, total_all_pending f _ _ _ Hp) as Hall.
  assert (∀ f, total_all f (limits d) ≤ u64_max →
    total_of f (limits d) - Z.max 0 (f a) + Z.max 0 (f p) ≤ u64_max) as Hfit.
  { intros f Hf. specialize (Hall f). lia. }
  pose proof (collapse_one_eq d o p a Hinv Hp Ha) as E. cbv zeta in E.
  rewrite !(proj2 (Z.leb_le _ u64_max)) in E by auto. cbn [andb] in E.
  eexists. split; [exact E|]. split; [by eapply collapse_one_inv|].
  unfold totals_fit. cbn [with_state with_limits limits].
  rewrite !(total_all_collapse _ _ _ _ _ Ha Hp). split; [lia|]. split; [done|].
  rewrite map_size_delete, lookup_insert_ne, Hp by done.
  rewrite map_size_insert_Some by done.
  assert (size (limits d) ≠ 0%nat); [|lia]. intros H0%map_size_empty_inv.
  by rewrite H0, lookup_empty in Hp.
Qed.

Lemma collapse_loop_total fuel : ∀ d,
  (size (limits d) < fuel)%nat → rl_inv d → totals_fit d →
  ∃ d', collapse_loop fuel d = Ok d' ∧ rl_inv d' ∧
    ∀ o, limits d' !! (true, o) = None ∧
         limits d' !! (false, o) =
           match limits d !! (true, o) with Some p => Some p | None => limits d !! (false, o) end.
Proof.
  induction fuel as [|fuel IH]; intros d Hf Hinv Hfit; [lia|]. simpl.
  destruct (first_pending (limits d)) as [o|] eqn:E.
  - apply first_pending_Some in E as [p Hp].
    destruct (collapse_one_total d o p Hinv Hfit Hp) as (d1 & -> & Hinv1 & Hfit1 & El & Es).
    cbn [mbind result_bind].
    destruct (IH d1) as (d' & -> & Hinv' & H'); [lia|done..|]. exists d'. split_and!; [done..|].
    intros o'. destruct (H' o') as [H1 H2]. split; [done|]. rewrite H2, El.
    destruct (decide (o' = o)) as [->|].
    + rewrite lookup_delete_eq, lookup_delete_ne, lookup_insert_eq, Hp by done. done.
    + by rewrite !lookup_delete_ne, !lookup_insert_ne by congruence.
  - exists d. split_and!; [done..|]. intros o.
    by rewrite (first_pending_None _ E).
Qed.

(** ** Reachable states *)
Inductive rl_step : resource_db → resource_db → Prop :=
  | step_initialize_account d a d' : initialize_account d a = Ok d' → rl_step d d'
  | step_set_account_limits d a ram net cpu d' b :
      in_s64 ram → in_s64 net → in_s64 cpu →
      set_account_limits d a ram net cpu = Ok (d', b) → rl_step d d'
  | step_process_account_limit_updates d d' :
      process_account_limit_updates d = Ok d' → rl_step d d'
  | step_process_block_usage d n d' : process_block_usage d n = Ok d' → rl_step d d'
  | step_add_transaction_usage d accs cpu net slot d' :
      add_transaction_usage d accs cpu net slot = Ok d' → rl_step d d'
  | step_update_account_usage d accs slot d' :
      update_account_usage d accs slot = Ok d' → rl_step d d'
  | step_add_pending_ram_usage d a delta d' :
      add_pending_ram_usage d a delta = Ok d' → rl_step d d'
  | step_set_block_parameters d cpu net d' :
      set_block_parameters d cpu net = Ok d' → rl_step d d'
  | step_set_gmr_parameters d g d' : set_gmr_parameters d g = Ok d' → rl_step d d'
  | step_other_tables d cfgs votes :
      rl_step d (ResourceDb (limits d) (usages d) (config d) (gmr d) (state d) cfgs votes).

Lemma initialize_account_inv d a d' :
  rl_inv d → initialize_account d a = Ok d' → rl_inv d'.
Proof.
  intros Hinv H. unfold initialize_account in H. db_inv. subst.
  destruct Hinv as [In Ic Ir Un Uc Ur Hw Hp].
  split; cbn [with_usages with_limits limits state]; unfold total_of;
    rewrite ?sum_map_insert by done;
    try (exact In || exact Ic || exact Ir || done).
  - intros k r [[<- <-]|[_ Hk]]%lookup_insert_Some; [|by eauto]. repeat split; simpl; lia.
  - intros o r [[? _]|[_ Hk]]%lookup_insert_Some; [done|].
    destruct (Hp o r Hk) as [r' Hr']. apply lookup_insert_is_Some'. eauto.
Qed.

Lemma insert_pending_inv d o r a :
  rl_inv d → weights_ok r → limits d !! (false, o) = Some a →
  rl_inv (with_limits d (<[(true, o) := r]> (limits d))).
Proof.
  intros [In Ic Ir Un Uc Ur Hw Hp] Hr Ha.
  split; cbn [with_limits limits state]; rewrite ?total_of_pending; try done.
  - intros k r' [[<- <-]|[_ Hk]]%lookup_insert_Some; eauto.
  - intros o' r' [[[= <-] _]|[_ Hk]]%lookup_insert_Some; rewrite lookup_insert_ne by done; eauto.
Qed.

Lemma set_account_limits_eq d o ram net cpu a :
  rl_inv d → limits d !! (false, o) = Some a →
  ∃ b, set_account_limits d o ram net cpu =
    Ok (with_limits d (<[(true, o) := {| net_weight := net; cpu_weight := cpu;
                                         ram_bytes := ram |}]> (limits d)), b).
Proof.
  intros Hinv Ha. unfold set_account_limits, find_or_create_pending_limits. db_simpl.
  destruct (limits d !! (true, o)) as [p|] eqn:Hp.
  - cbn [mbind result_bind]. db_simpl. rewrite Hp. eexists. done.
  - db_simpl. rewrite Ha. cbn [of_option mbind result_bind]. db_simpl. rewrite Hp.
    cbn [mbind result_bind with_limits limits]. db_simpl. rewrite lookup_insert_eq.
    cbn [of_option mbind result_bind]. eexists. rewrite insert_insert_eq. done.
Qed.

Lemma set_account_limits_inv d o ram net cpu d' b :
  rl_inv d → in_s64 ram → in_s64 net → in_s64 cpu →
  set_account_limits d o ram net cpu = Ok (d', b) → rl_inv d'.
Proof.
  intros Hinv Hr Hn Hc H.
  assert (is_Some (limits d !! (false, o))) as [a Ha].
  { unfold set_account_limits, find_or_create_pending_limits in H. rewrite db_find_spec in H.
    destruct (limits d !! (true, o)) eqn:Hp; [by eapply Hinv|].
    apply bind_Ok in H as (? & (a & Ha%db_get_Ok & _)%bind_Ok & _). eauto. }
  destruct (set_account_limits_eq d o ram net cpu a Hinv Ha) as [b' E].
  rewrite E in H. injection H as <- _. by eapply insert_pending_inv.
Qed.

Lemma collapse_loop_inv fuel : ∀ d d', rl_inv d → collapse_loop fuel d = Ok d' → rl_inv d'.
Proof.
  induction fuel as [|fuel IH]; simpl; intros d d' Hinv H; [by simplify_eq|].
  destruct (first_pending (limits d)) as [o|]; [|by simplify_eq].
  apply bind_Ok in H as (d1 & H1 & H2). eapply IH, H2. by eapply collapse_one_inv.
Qed.

Lemma process_block_usage_frame d n d' : process_block_usage d n = Ok d' →
  limits d' = limits d ∧ same_totals (state d) (state d').
Proof.
  unfold process_block_usage, update_virtual_cpu_limit, update_virtual_net_limit.
  intros H. res_inv. split; [done|]. repeat split.
Qed.

Lemma add_transaction_usage_account_frame cpu net slot d a d' :
  add_transaction_usage_account cpu net slot d a = Ok d' →
  ∃ u, d' = with_usages d u.
Proof.
  unfold add_transaction_usage_account. intros H.
  apply bind_Ok in H as (? & _ & H). apply bind_Ok in H as ([[? net_w] cpu_w] & _ & H).
  apply bind_Ok in H as (u & _ & H). apply bind_Ok in H as (? & _ & H).
  apply bind_Ok in H as (? & _ & H). apply bind_Ok in H as (? & _ & H).
  injection H as <-. by exists u.
Qed.

Lemma with_usages_fold {A} (f : resource_db → A → result resource_db) l d d' :
  (∀ d x d', f d x = Ok d' → ∃ u, d' = with_usages d u) →
  fold_res f d l = Ok d' → ∃ u, d' = with_usages d u.
Proof.
  intros Hf. apply (fold_res_inv (λ d', ∃ u, d' = with_usages d u)).
  - intros s x s' _ [u ->] [u' ->]%Hf. by exists u'.
  - exists (usages d). by destruct d.
Qed.

Lemma rl_step_inv d d' : rl_inv d → rl_step d d' → rl_inv d'.
Proof.
  intros Hinv Hstep. revert Hinv.
  destruct Hstep as [d a d' H|d a ram net cpu d' b Hr Hn Hc H|d d' H|d n d' H
    |d accs cpu net slot d' H|d accs slot d' H|d a delta d' H|d cpu net d' H|d g d' H|];
    intros Hinv.
  - by eapply initialize_account_inv.
  - by apply (set_account_limits_inv d a ram net cpu d' b).
  - unfold process_account_limit_updates in H. by eapply collapse_loop_inv.
  - apply process_block_usage_frame in H as [? ?]. by eapply rl_inv_frame.
  - unfold add_transaction_usage in H. apply bind_Ok in H as (d1 & H1 & H).
    apply with_usages_fold in H1 as [u ->]; [|by apply add_transaction_usage_account_frame].
    res_inv. eapply rl_inv_frame, Hinv; done.
  - unfold update_account_usage in H. apply with_usages_fold in H as [u ->].
    + eapply rl_inv_frame, Hinv; done.
    + intros ? ? ? ?. res_inv. eauto.
  - unfold add_pending_ram_usage in H. destruct (delta =? 0); res_inv; [done|].
    eapply rl_inv_frame, Hinv; done.
  - unfold set_block_parameters in H. res_inv. destruct (_ && _); res_inv; [done|].
    eapply rl_inv_frame, Hinv; done.
  - unfold set_gmr_parameters in H. res_inv. eapply rl_inv_frame, Hinv; done.
  - eapply rl_inv_frame, Hinv; done.
Qed.

Lemma initialize_database_inv cfgs votes : rl_inv (initialize_database cfgs votes).
Proof.
  split; simpl; try done; intros *; by rewrite lookup_empty.
Qed.

Lemma reachable_inv cfgs votes d :
  rtc rl_step (initialize_database cfgs votes) d → rl_inv d.
Proof.
  intros H. pose proof (initialize_database_inv cfgs votes) as Hinv. revert Hinv.
  induction H as [|d1 d2 d3 Hs _ IH]; [done|]. intros Hinv. by eapply IH, rl_step_inv.
Qed.

(** C13.  In every state reachable from the initial database by operations of
    the manager, each total of the state object is the sum of the positive
    limits of the accounts, pending limits excluded, without wrap-around, and
    every pending entry belongs to an account that has limits. *)
Theorem reachable_totals cfgs votes d :
  rtc rl_step (initialize_database cfgs votes) d →
  (total_net_weight (state d) = total_of net_weight (limits d) ∧
   total_cpu_weight (state d) = total_of cpu_weight (limits d) ∧
   total_ram_bytes (state d) = total_of ram_bytes (limits d)) ∧
  total_net_weight (state d) ≤ u64_max ∧ total_cpu_weight (state d) ≤ u64_max ∧
  total_ram_bytes (state d) ≤ u64_max ∧
  ∀ o, is_Some (limits d !! (true, o)) → is_Some (limits d !! (false, o)).
Proof.
  intros [In Ic Ir [_ Un] [_ Uc] [_ Ur] Hw Hp]%reachable_inv. unfold u64_max.
  split_and!; try done; try lia. intros o [r Hr]. eauto.
Qed.

(** Collapsing the pending limits of a reachable state succeeds: the check
    for an inconsistent total never fires, the loop ends with no pending entry,
    and every account then has its pending limits if it had any, and its
    former ones otherwise. The only requirement is that the limits add up to
    less than 2^64. *)
Theorem process_account_limit_updates_total cfgs votes d :
  rtc rl_step (initialize_database cfgs votes) d → totals_fit d →
  ∃ d', process_account_limit_updates d = Ok d' ∧
    ∀ o, limits d' !! (true, o) = None ∧
         limits d' !! (false, o) =
           match limits d !! (true, o) with Some p => Some p | None => limits d !! (false, o) end.
Proof.
  intros Hr Hfit. destruct (collapse_loop_total (S (size (limits d))) d)
    as (d' & H & _ & H'); [lia|by eapply reachable_inv|done|eauto].
Qed.

(** ** Elastic limits *)
Lemma update_elastic_limit_bounds cur avg p r :
  0 ≤ max p → 1 ≤ max_multiplier p → max p * max_multiplier p ≤ u64_max →
  update_elastic_limit cur avg p = Ok r → max p ≤ r ≤ max p * max_multiplier p.
Proof.
  unfold update_elastic_limit, u64_max. intros Hm H1 H2 H.
  apply bind_Ok in H as (res & _ & [= <-]).
  rewrite wrap_small by (unfold in_u; nia). nia.
Qed.

(** At the end of a block the pending usage is reset and both virtual
    limits lie between the block maximum and its configured multiple, whatever
    the load was. *)
Theorem process_block_usage_virtual_limits d n d' :
  let pc := cpu_limit_parameters (config d) in
  let pn := net_limit_parameters (config d) in
  0 ≤ max pc → 1 ≤ max_multiplier pc → max pc * max_multiplier pc ≤ u64_max →
  0 ≤ max pn → 1 ≤ max_multiplier pn → max pn * max_multiplier pn ≤ u64_max →
  process_block_usage d n = Ok d' →
  max pc ≤ get_virtual_block_cpu_limit d' ≤ max pc * max_multiplier pc ∧
  max pn ≤ get_virtual_block_net_limit d' ≤ max pn * max_multiplier pn ∧
  pending_cpu_usage (state d') = 0 ∧ pending_net_usage (state d') = 0 ∧
  usages d' = usages d ∧ config d' = config d.
Proof.
  intros pc pn Hc1 Hc2 Hc3 Hn1 Hn2 Hn3 H. unfold process_block_usage in H.
  apply bind_Ok in H as (cpu & _ & H). apply bind_Ok in H as (s1 & H1 & H).
  apply bind_Ok in H as (net & _ & H). apply bind_Ok in H as (s2 & H2 & [= <-]).
  apply bind_Ok in H1 as (vc & Hvc & [= <-]). apply bind_Ok in H2 as (vn & Hvn & [= <-]).
  split_and!; try done; by eapply update_elastic_limit_bounds.
Qed.

(** ** RAM *)

(** RAM accounting is exact: a delta is applied without wrap-around to
    the account it is for and to no other, or rejected when the usage would
    leave the range of an unsigned 64-bit integer. *)
Theorem add_pending_ram_usage_exact d a u delta :
  usages d !! a = Some u → in_u 64 (ram_usage u) → in_s64 delta → delta ≠ - 2 ^ 63 →
  add_pending_ram_usage d a delta =
    if (0 <=? ram_usage u + delta) && (ram_usage u + delta <=? u64_max)
    then Ok (with_usages d (<[a := {| net_usage := net_usage u; cpu_usage := cpu_usage u;
                                      ram_usage := ram_usage u + delta |}]> (usages d)))
    else Throw transaction_exception.
Proof.
  intros Hu Hr Hd Hm. unfold add_pending_ram_usage, in_u, in_s64, u64_max in *.
  destruct (Z.eqb_spec delta 0) as [->|H0].
  { rewrite Z.add_0_r, !(proj2 (Z.leb_le _ _)) by lia. simpl. f_equal.
    destruct u as [n c r], d. simpl in *. unfold with_usages. simpl. by rewrite insert_id. }
  db_simpl. rewrite Hu. cbn [of_option mbind result_bind]. rewrite (proj2 (Z.eqb_neq _ _)) by done.
  destruct (Z.leb_spec delta 0), (Z.leb_spec 0 delta); try lia; cbn [orb].
  - rewrite (wrap_small 64 (- delta)) by (unfold in_u; lia). cbn [EOS_ASSERT mbind result_bind].
    rewrite (proj2 (Z.leb_le (_ + _) _)) by lia. rewrite andb_true_r.
    destruct (Z.leb_spec (- delta) (ram_usage u)), (Z.leb_spec 0 (ram_usage u + delta));
      try lia; cbn [EOS_ASSERT mbind result_bind]; [|done].
    by rewrite wrap_small by (unfold in_u; lia).
  - rewrite (wrap_small 64 delta) by (unfold in_u; lia).
    rewrite (proj2 (Z.leb_le 0 _)) by lia. cbn [andb].
    destruct (Z.leb_spec delta (18446744073709551615 - ram_usage u)),
      (Z.leb_spec (ram_usage u + delta) 18446744073709551615);
      try lia; cbn [EOS_ASSERT mbind result_bind]; [|done].
    by rewrite wrap_small by (unfold in_u; lia).
Qed.

(** ** Billing *)

(** The account [a], billed to [u'], is within what its weights allow. *)
Definition within_limits (d : resource_db) (a : Z) (u' : resource_usage_object) : Prop :=
  ∃ ram net_w cpu_w, get_account_limits d a = Ok (ram, net_w, cpu_w) ∧
    (0 ≤ cpu_w → 0 < total_cpu_weight (state d) →
       let w := account_cpu_usage_average_window (config d) in
       used_in_window (value_ex (cpu_usage u')) w ≤
         max_user_use (virtual_cpu_limit (state d)) w cpu_w (total_cpu_weight (state d))
           (cpu_us (gmr d))).

Lemma add_transaction_usage_account_Ok cpu net slot d a d' :
  add_transaction_usage_account cpu net slot d a = Ok d' →
  ∃ u u', usages d !! a = Some u ∧ bill (config d) cpu net slot u = Ok u' ∧
    within_limits d a u' ∧ d' = with_usages d (<[a := u']> (usages d)).
Proof.
  unfold add_transaction_usage_account. intros H.
  apply bind_Ok in H as (u & Hu%db_get_Ok & H).
  apply bind_Ok in H as ([[ram net_w] cpu_w] & Hlim & H).
  apply bind_Ok in H as (us & (u0 & u' & Hu0 & Hb & ->)%db_modify_Ok & H).
  assert (u0 = u) as -> by congruence.
  apply bind_Ok in H as (u1 & Hu1%db_get_Ok & H). rewrite lookup_insert_eq in Hu1.
  injection Hu1 as <-.
  apply bind_Ok in H as (? & Hcpu & H). apply bind_Ok in H as (? & _ & [= <-]).
  exists u, u'. split_and!; [done..| |done]. exists ram, net_w, cpu_w. split; [done|].
  intros H1 H2. cbn [with_usages config state gmr] in Hcpu.
  rewrite (proj2 (Z.leb_le _ _) H1), (proj2 (Z.ltb_lt _ _) H2) in Hcpu. cbn [andb] in Hcpu.
  by apply EOS_ASSERT_Ok, Z.leb_le in Hcpu.
Qed.

Lemma bill_fold cpu net slot accs : ∀ d d', NoDup accs →
  fold_res (add_transaction_usage_account cpu net slot) d accs = Ok d' →
  (∃ us, d' = with_usages d us) ∧
  (∀ a, a ∈ accs → ∃ u u', usages d !! a = Some u ∧
     bill (config d) cpu net slot u = Ok u' ∧ within_limits d a u' ∧
     usages d' !! a = Some u') ∧
  (∀ a, a ∉ accs → usages d' !! a = usages d !! a).
Proof.
  induction accs as [|a accs IH]; intros d d' Hnd H; simpl in H.
  { injection H as <-. split; [exists (usages d); by destruct d|].
    split; [by intros a ?%elem_of_nil|done]. }
  apply NoDup_cons in Hnd as [Hna Hnd].
  apply bind_Ok in H as (d1 & (u & u' & Hu & Hb & Hw & ->)%add_transaction_usage_account_Ok & H).
  destruct (IH _ _ Hnd H) as ([us ->] & Hin & Hout). split_and!.
  - by exists us.
  - intros b [->|Hb']%elem_of_cons.
    + exists u, u'. split_and!; [done..|]. rewrite Hout by done. simpl. by rewrite lookup_insert_eq.
    + destruct (Hin b Hb') as (v & v' & Hv & Hv'). exists v, v'. split; [|done].
      simpl in Hv. rewrite lookup_insert_ne in Hv by congruence. done.
  - intros b [Hne Hb']%not_elem_of_cons. rewrite Hout by done. simpl.
    by rewrite lookup_insert_ne.
Qed.

Lemma bill_units c cpu net slot u u' : bill c cpu net slot u = Ok u' →
  cpu ≤ max_raw_value ∧ net ≤ max_raw_value.
Proof.
  unfold bill, add. intros H. apply bind_Ok in H as (n & Hn & H).
  apply bind_Ok in H as (p & Hp & _).
  apply bind_Ok in Hn as (? & Hn%EOS_ASSERT_Ok & _).
  apply bind_Ok in Hp as (? & Hp%EOS_ASSERT_Ok & _). lia.
Qed.

(** A transaction is billed to exactly its authorizing accounts, each once
    for the whole usage, each staying within what its CPU weight allows; the
    usage is added to the block without wrap-around and the block stays within
    its maxima. *)
Theorem add_transaction_usage_billing d accs cpu net slot d' :
  NoDup accs → accs ≠ [] → 0 ≤ cpu → 0 ≤ net →
  0 ≤ pending_cpu_usage (state d) ≤ 2 ^ 63 → 0 ≤ pending_net_usage (state d) ≤ 2 ^ 63 →
  add_transaction_usage d accs cpu net slot = Ok d' →
  (∀ a, a ∈ accs → ∃ u u', usages d !! a = Some u ∧
     bill (config d) cpu net slot u = Ok u' ∧ within_limits d a u' ∧
     usages d' !! a = Some u') ∧
  (∀ a, a ∉ accs → usages d' !! a = usages d !! a) ∧
  pending_cpu_usage (state d') = pending_cpu_usage (state d) + cpu ∧
  pending_net_usage (state d') = pending_net_usage (state d) + net ∧
  pending_cpu_usage (state d') ≤ max (cpu_limit_parameters (config d)) ∧
  pending_net_usage (state d') ≤ max (net_limit_parameters (config d)).
Proof.
  intros Hnd Hne Hc Hn Hpc Hpn H. unfold add_transaction_usage in H.
  apply bind_Ok in H as (d1 & H1 & H).
  apply bind_Ok in H as (? & Hmc%EOS_ASSERT_Ok%Z.leb_le & H).
  apply bind_Ok in H as (? & Hmn%EOS_ASSERT_Ok%Z.leb_le & [= <-]).
  destruct (bill_fold _ _ _ _ _ _ Hnd H1) as ([us ->] & Hin & Hout).
  destruct accs as [|a accs]; [done|].
  destruct (Hin a ltac:(left)) as (u & u' & _ & [Hu1 Hu2]%bill_units & _).
  change max_raw_value with 18446744073709 in *.
  split_and!; try done; simpl; rewrite wrap_small; try done; unfold in_u; lia.
Qed.
End proofs.

(** ** Witnesses *)
Definition demo_db : resource_db :=
  match (d ← initialize_account (initialize_database ∅ ∅) 1;
         d ← initialize_account d 2;
         r ← set_account_limits d 1 (-1) 100 100;
         Ok (fst r)) with
  | Ok d => d
  | Throw _ => initialize_database ∅ ∅
  end.

Lemma demo_db_reachable : rtc rl_step (initialize_database ∅ ∅) demo_db.
Proof.
  eapply rtc_l; [eapply (step_initialize_account _ 1); vm_compute; reflexivity|].
  eapply rtc_l; [eapply (step_initialize_account _ 2); vm_compute; reflexivity|].
  eapply rtc_l; [|apply rtc_refl].
  eapply (step_set_account_limits _ 1 (-1) 100 100 _ false);
    [vm_compute; split; congruence..|vm_compute; reflexivity].
Defined.

(** [demo_db] with the pending limits collapsed: account 1 has weight 100 of a
    total of 100. *)
Definition demo_db' : resource_db :=
  match process_account_limit_updates demo_db with Ok d => d | Throw _ => demo_db end.

Lemma reachable_totals_witness :
  total_cpu_weight (state demo_db) = total_of cpu_weight (limits demo_db) ∧
  total_cpu_weight (state demo_db') = total_of cpu_weight (limits demo_db').
Proof.
  split.
  - exact (proj1 (proj2 (proj1 (reachable_totals ∅ ∅ demo_db demo_db_reachable)))).
  - refine (proj1 (proj2 (proj1 (reachable_totals ∅ ∅ demo_db' _)))).
    eapply rtc_r; [exact demo_db_reachable|].
    apply step_process_account_limit_updates. vm_compute. reflexivity.
Defined.

Lemma process_account_limit_updates_total_witness :
  ∃ d', process_account_limit_updates demo_db = Ok d' ∧
    limits d' !! (true, 1) = None ∧
    limits d' !! (false, 1) = Some {| net_weight := 100; cpu_weight := 100; ram_bytes := -1 |}.
Proof.
  destruct (process_account_limit_updates_total ∅ ∅ demo_db demo_db_reachable)
    as (d' & H & Ho).
  - vm_compute. repeat split; congruence.
  - exists d'. split; [exact H|]. destruct (Ho 1) as [H1 H2]. split; [exact H1|].
    rewrite H2. vm_compute. reflexivity.
Defined.

Lemma process_block_usage_virtual_limits_witness :
  ∃ d', process_block_usage demo_db' 7 = Ok d' ∧
    1000000 ≤ get_virtual_block_cpu_limit d' ≤ 1000000 * 1000.
Proof.
  destruct (process_block_usage demo_db' 7) as [d'|e] eqn:E; [|vm_compute in E; discriminate E].
  exists d'. split; [reflexivity|].
  refine (proj1 (process_block_usage_virtual_limits demo_db' 7 d' _ _ _ _ _ _ E));
    vm_compute; congruence.
Defined.

Lemma add_pending_ram_usage_exact_witness :
  let u := {| net_usage := accumulator_ctor; cpu_usage := accumulator_ctor; ram_usage := 0 |} in
  add_pending_ram_usage demo_db' 1 4096 =
    Ok (with_usages demo_db'
      (<[1 := {| net_usage := accumulator_ctor; cpu_usage := accumulator_ctor;
                 ram_usage := 4096 |}]> (usages demo_db'))) ∧
  add_pending_ram_usage demo_db' 1 (-1) = Throw transaction_exception.
Proof.
  intros u. split.
  - refine (add_pending_ram_usage_exact demo_db' 1 u 4096 _ _ _ _);
      [vm_compute; reflexivity|vm_compute; split; congruence..|discriminate].
  - refine (add_pending_ram_usage_exact demo_db' 1 u (-1) _ _ _ _);
      [vm_compute; reflexivity|vm_compute; split; congruence..|discriminate].
Defined.

Lemma add_transaction_usage_billing_witness :
  ∃ d', add_transaction_usage demo_db' [1] 500 200 10 = Ok d' ∧
    pending_cpu_usage (state d') = 0 + 500 ∧ usages d' !! 2 = usages demo_db' !! 2.
Proof.
  destruct (add_transaction_usage demo_db' [1] 500 200 10) as [d'|e] eqn:E;
    [|vm_compute in E; discriminate E].
  exists d'. split; [reflexivity|].
  destruct (add_transaction_usage_billing demo_db' [1] 500 200 10 d')
    as (_ & Hout & Hc & _).
  - apply NoDup_singleton.
  - discriminate.
  - discriminate.
  - discriminate.
  - vm_compute. split; congruence.
  - vm_compute. split; congruence.
  - exact E.
  - split; [exact Hc|]. apply Hout. intros H%list_elem_of_singleton. discriminate H.
Defined.

(** The network check of [add_transaction_usage] adds the guaranteed CPU
    microseconds, where [get_account_net_limit_ex] adds the guaranteed bytes:
    an account of weight zero that is told it may use 10240 bytes in the
    window is not stopped at 20000 bytes. *)
Theorem net_check_uses_cpu_guarantee :
  let d0 := match (r ← set_account_limits demo_db' 2 (-1) 0 0;
                   process_account_limit_updates (fst r)) with
            | Ok d => d | Throw _ => demo_db' end in
  get_account_net_limit d0 2 true = Ok (default_gmr_net_limit) ∧
  ∃ d1, add_transaction_usage d0 [2] 0 20000 10 = Ok d1.
Proof. split; [vm_compute; reflexivity|]. eexists. vm_compute. reflexivity. Qed.
