(* ===== verification/ControllerLists.v ===== *)
(** * Name lists and guaranteed resources set through the chain
    ([config_on_chain.cpp], [controller.cpp])

    The action [setconfig] edits three account lists and the guaranteed
    minimum resources.  A list lives twice: as a set in the controller's
    configuration [conf], which is what the checks read, and as a vector in
    the [force_property_object] of the state database. *)

From S2P Require Import Prelude Chainbase Names Assets Config ConfigOnChain Accumulator.
From S2P Require Import ResourceLimits.
Local Open Scope Z_scope.

Inductive list_type :=
  | actor_blacklist_type | contract_blacklist_type | resource_greylist_type | list_type_count.
Inductive list_action_type := insert_type | remove_type | list_action_type_count.
Inductive gmr_type := cpu_us_type | ram_byte_type | net_byte_type | gmr_type_count.

#[export] Instance list_type_eq_dec : EqDecision list_type.
Proof. solve_decision. Defined.

Definition list_type_value (l : list_type) : Z :=
  match l with
  | actor_blacklist_type => 1 | contract_blacklist_type => 2
  | resource_greylist_type => 3 | list_type_count => 4
  end.

(** The three lists, as the vectors of pointers in the source order them. *)
Record name_lists (A : Type) :=
  { actor_blacklist : A; contract_blacklist : A; resource_greylist : A }.
Arguments actor_blacklist {A}.
Arguments contract_blacklist {A}.
Arguments resource_greylist {A}.

Definition list_at {A} (l : name_lists A) (t : list_type) : option A :=
  match t with
  | actor_blacklist_type => Some (actor_blacklist l)
  | contract_blacklist_type => Some (contract_blacklist l)
  | resource_greylist_type => Some (resource_greylist l)
  | list_type_count => None
  end.
Definition list_set {A} (l : name_lists A) (t : list_type) (a : A) : name_lists A :=
  match t with
  | actor_blacklist_type =>
      Build_name_lists A a (contract_blacklist l) (resource_greylist l)
  | contract_blacklist_type =>
      Build_name_lists A (actor_blacklist l) a (resource_greylist l)
  | resource_greylist_type =>
      Build_name_lists A (actor_blacklist l) (contract_blacklist l) a
  | list_type_count => l
  end.

(** The controller: [conf] is plain memory, the rest is in the state database. *)
Record controller_state := {
  conf : name_lists (gset Z);
  clfg : name_lists (list Z);
  force_gmr : gmr_parameters;
  resources : resource_db }.

(** Iterating over a [flat_set] visits its elements in ascending order. *)
Definition flat_set_elements (s : gset Z) : list Z := merge_sort Z.le (elements s).

Definition known_list (t : list_type) : bool :=
  (1 <=? list_type_value t) && (list_type_value t <? 4).

Definition sync_list_and_db (c : controller_state) (t : list_type) (isMerge : bool) :
    result controller_state :=
  _ ← EOS_ASSERT (known_list t) transaction_exception;
  lo ← of_option undefined_behaviour (list_at (clfg c) t);
  clo ← of_option undefined_behaviour (list_at (conf c) t);
  let clo := if isMerge then fold_left (λ s a, {[ a ]} ∪ s) lo clo else clo in
  Ok {| conf := list_set (conf c) t clo;
        clfg := list_set (clfg c) t (flat_set_elements clo);
        force_gmr := force_gmr c; resources := resources c |}.

Definition sync_name_list (c : controller_state) (t : list_type) (isMerge : bool) :
    result controller_state := sync_list_and_db c t isMerge.

Definition set_name_list (c : controller_state) (t : list_type) (action : list_action_type)
    (name_list : list Z) : result controller_state :=
  _ ← EOS_ASSERT (known_list t) transaction_exception;
  lo ← of_option undefined_behaviour (list_at (conf c) t);
  let lo := match action with
            | insert_type => lo ∪ list_to_set name_list
            | remove_type => lo ∖ list_to_set name_list
            | list_action_type_count => lo
            end in
  sync_name_list {| conf := list_set (conf c) t lo; clfg := clfg c;
                    force_gmr := force_gmr c; resources := resources c |} t false.

(** [sync_fpo_and_resource]: the vector holds the fields in the order of
    [gmr_type]; index 3 is past its end. *)
Definition sync_fpo_and_resource (gt : gmr_type) (value : Z) (g : gmr_parameters) :
    result gmr_parameters :=
  match gt with
  | cpu_us_type => Ok {| ram_byte := ram_byte g; cpu_us := value; net_byte := net_byte g |}
  | ram_byte_type => Ok {| ram_byte := value; cpu_us := cpu_us g; net_byte := net_byte g |}
  | net_byte_type => Ok {| ram_byte := ram_byte g; cpu_us := cpu_us g; net_byte := value |}
  | gmr_type_count => Throw undefined_behaviour
  end.

Definition set_gmr_config (c : controller_state) (gt : gmr_type) (value : Z) :
    result controller_state :=
  g ← sync_fpo_and_resource gt value (force_gmr c);
  r ← set_gmr_parameters (resources c)
        {| ram_byte := ram_byte g; cpu_us := cpu_us g; net_byte := net_byte g |};
  Ok {| conf := conf c; clfg := clfg c; force_gmr := g; resources := r |}.

Definition set_list_config_on_chain (c : controller_state) (cfg : setconfig) :
    result controller_state :=
  let set_type :=
    if typ cfg =? list_actor_black then Some actor_blacklist_type
    else if typ cfg =? list_contract_black then Some contract_blacklist_type
    else if typ cfg =? list_resource_grey then Some resource_greylist_type
    else None in
  match set_type with
  | None => Ok c
  | Some set_type =>
      if num cfg =? 1 then set_name_list c set_type insert_type [key cfg]
      else if num cfg =? 2 then set_name_list c set_type remove_type [key cfg]
      else Ok c
  end.

Definition set_guaranteed_minimum_config (c : controller_state) (cfg : setconfig) :
    result controller_state :=
  if typ cfg =? gmr_cpu then set_gmr_config c cpu_us_type (u64 (num cfg))
  else if typ cfg =? gmr_ram then set_gmr_config c ram_byte_type (u64 (num cfg))
  else if typ cfg =? gmr_net then set_gmr_config c net_byte_type (u64 (num cfg))
  else Ok c.

(** Undoing a transaction restores the state database to [before]; [conf] is
    not part of it. *)
Definition undo_session (before after : controller_state) : controller_state :=
  {| conf := conf after; clfg := clfg before; force_gmr := force_gmr before;
     resources := resources before |}.

Section setconfig.
Context {db : Chainbase}.

(** The native handler of the action; [has_authorization] is the context's. *)
Definition apply_system_native_setconfig (has_authorization : Z → bool)
    (c : controller_state) (cfg : setconfig) : result controller_state :=
  if negb (has_authorization chain_config_name || has_authorization producers_account_name)
  then Throw missing_auth_exception else
  cfgs ← set_config_on_chain (configs (resources c)) cfg;
  let r := resources c in
  let c := {| conf := conf c; clfg := clfg c; force_gmr := force_gmr c;
              resources := ResourceDb (limits r) (usages r) (config r) (gmr r) (state r)
                             cfgs (vote4ram r) |} in
  c ← set_list_config_on_chain c cfg;
  set_guaranteed_minimum_config c cfg.
End setconfig.

(** ** The two copies agree *)
Definition lists_synced (c : controller_state) : Prop :=
  ∀ t, list_at (clfg c) t = flat_set_elements <$> list_at (conf c) t.
Definition gmr_synced (c : controller_state) : Prop := gmr (resources c) = force_gmr c.

Lemma list_at_set {A} (l : name_lists A) t a : known_list t = true →
  list_at (list_set l t a) t = Some a.
Proof. by destruct t. Qed.

Lemma list_at_set_ne {A} (l : name_lists A) t t' a : t' ≠ t →
  list_at (list_set l t a) t' = list_at l t'.
Proof. by destruct t, t'. Qed.

Lemma list_at_known {A} (l : name_lists A) t : known_list t = true →
  ∃ a, list_at l t = Some a.
Proof. destruct t; [eauto..|done]. Qed.

Definition edit (action : list_action_type) (s : gset Z) (names : list Z) : gset Z :=
  match action with
  | insert_type => s ∪ list_to_set names
  | remove_type => s ∖ list_to_set names
  | list_action_type_count => s
  end.

Lemma set_name_list_eq c t action names s : known_list t = true →
  list_at (conf c) t = Some s →
  set_name_list c t action names =
    Ok {| conf := list_set (list_set (conf c) t (edit action s names)) t (edit action s names);
          clfg := list_set (clfg c) t (flat_set_elements (edit action s names));
          force_gmr := force_gmr c; resources := resources c |}.
Proof.
  intros Ht Hs. unfold set_name_list. rewrite Ht, Hs. cbn [EOS_ASSERT of_option mbind result_bind].
  unfold sync_name_list, sync_list_and_db. rewrite Ht. cbn [EOS_ASSERT mbind result_bind conf clfg].
  destruct (list_at_known (clfg c) t Ht) as [l Hl]. rewrite Hl, list_at_set by done. done.
Qed.

Lemma set_name_list_synced c t action names c' : lists_synced c →
  set_name_list c t action names = Ok c' → lists_synced c'.
Proof.
  intros Hs H. assert (known_list t = true) as Ht
    by (unfold set_name_list in H; by destruct (known_list t)).
  destruct (list_at_known (conf c) t Ht) as [s Es].
  rewrite (set_name_list_eq c t action names s Ht Es) in H. injection H as <-.
  intros t'. cbn [clfg conf]. destruct (decide (t' = t)) as [->|].
  - by rewrite !list_at_set.
  - by rewrite !list_at_set_ne.
Qed.

Lemma elem_of_flat_set_elements a s : a ∈ flat_set_elements s ↔ a ∈ s.
Proof. unfold flat_set_elements. rewrite merge_sort_Permutation. apply elem_of_elements. Qed.

Section setconfig_proofs.
Context {db : Chainbase} {laws : ChainbaseLaws db}.

Lemma set_list_config_frame c cfg c' : set_list_config_on_chain c cfg = Ok c' →
  force_gmr c' = force_gmr c ∧ resources c' = resources c ∧
  (lists_synced c → lists_synced c').
Proof.
  unfold set_list_config_on_chain. intros H.
  assert (∀ t a, set_name_list c t a [key cfg] = Ok c' →
    force_gmr c' = force_gmr c ∧ resources c' = resources c ∧
    (lists_synced c → lists_synced c')) as Hset.
  { intros t a Hs. assert (known_list t = true) as Ht
      by (unfold set_name_list in Hs; by destruct (known_list t)).
    split_and!; [| |intros; by eapply set_name_list_synced].
    all: destruct (list_at_known (conf c) t Ht) as [s Es];
      rewrite (set_name_list_eq c t a _ s Ht Es) in Hs; by injection Hs as <-. }
  repeat case_match; simplify_eq; eauto.
Qed.

Lemma set_gmr_config_frame c g v c' : set_gmr_config c g v = Ok c' →
  conf c' = conf c ∧ clfg c' = clfg c ∧ gmr_synced c' ∧
  0 < cpu_us (force_gmr c') ∧ 0 < net_byte (force_gmr c').
Proof.
  unfold set_gmr_config, set_gmr_parameters, gmr_validate. intros H.
  apply bind_Ok in H as (g' & _ & H). apply bind_Ok in H as (r & Hr & [= <-]).
  res_inv. unfold gmr_synced. cbn in *. split_and!; try done; try lia. by destruct g'.
Qed.

(** The action [setconfig] keeps the two copies of every list equal, and
    the guaranteed resources of the resource manager equal to those of the
    property object; the name it inserts is then in both copies of the list,
    the name it removes in neither. *)
Theorem setconfig_synced auth c cfg c' :
  lists_synced c → gmr_synced c →
  apply_system_native_setconfig auth c cfg = Ok c' →
  lists_synced c' ∧ gmr_synced c' ∧
  (typ cfg = list_actor_black → num cfg = 1 →
     key cfg ∈ actor_blacklist (conf c') ∧ key cfg ∈ actor_blacklist (clfg c')) ∧
  (typ cfg = list_actor_black → num cfg = 2 →
     key cfg ∉ actor_blacklist (conf c') ∧ key cfg ∉ actor_blacklist (clfg c')).
Proof.
  intros Hl Hg H. unfold apply_system_native_setconfig in H.
  destruct (negb _) in H; [done|]. apply bind_Ok in H as (cfgs & _ & H).
  apply bind_Ok in H as (x0 & Hlist & H).
  match type of Hlist with set_list_config_on_chain ?c0 _ = _ => set (c0' := c0) in * end.
  assert (lists_synced c0' ∧ gmr_synced c0') as [Hl0 Hg0] by done.
  destruct (set_list_config_frame _ _ _ Hlist) as (Fg & Fr & Fs).
  assert (conf c' = conf x0 ∧ clfg c' = clfg x0 ∧ gmr_synced c') as (Ec & El & Hg').
  { unfold set_guaranteed_minimum_config in H.
    repeat case_match; try (apply set_gmr_config_frame in H as (? & ? & ? & _); done).
    injection H as <-. split_and!; try done. unfold gmr_synced in *. by rewrite Fr, Fg. }
  assert (lists_synced c') as Hl' by (intros t; rewrite Ec, El; by apply Fs).
  split_and!; [done..| |]; intros Ht Hn; unfold set_list_config_on_chain in Hlist;
    rewrite Ht, Hn, Z.eqb_refl in Hlist; cbn [Z.eqb Pos.eqb] in Hlist;
    rewrite (set_name_list_eq c0' actor_blacklist_type _ _ (actor_blacklist (conf c))) in Hlist
      by done;
    injection Hlist as <-; rewrite Ec, El; cbn; rewrite elem_of_flat_set_elements; set_solver.
Qed.
End setconfig_proofs.

Definition empty_controller : controller_state :=
  {| conf := Build_name_lists (gset Z) ∅ ∅ ∅; clfg := Build_name_lists (list Z) [] [] [];
     force_gmr := default_gmr; resources := initialize_database ∅ ∅ |}.
Definition blacklist_cfg (n k : Z) : setconfig :=
  {| typ := list_actor_black; num := n; key := k; fee := asset_zero |}.

Lemma empty_controller_synced : lists_synced empty_controller.
Proof. intros []; vm_compute; reflexivity. Qed.

Lemma setconfig_synced_witness :
  ∃ c', apply_system_native_setconfig (λ _, true) empty_controller (blacklist_cfg 1 77) = Ok c' ∧
    77 ∈ actor_blacklist (clfg c').
Proof.
  destruct (apply_system_native_setconfig (λ _, true) empty_controller (blacklist_cfg 1 77))
    as [c'|e] eqn:E; [|vm_compute in E; discriminate E].
  exists c'. split; [reflexivity|].
  destruct (setconfig_synced (λ _, true) empty_controller (blacklist_cfg 1 77) c')
    as (_ & _ & H & _).
  - exact empty_controller_synced.
  - vm_compute. reflexivity.
  - exact E.
  - exact (proj2 (H eq_refl eq_refl)).
Defined.

