(* ===== verification/Authority.v ===== *)
(** * Authorities ([action.hpp], [authority.hpp])

    A permission level names an account's permission; an authority is a
    threshold with weighted keys, permission levels and waits.  [validate] is
    the check every authority passes before it is stored; the theorem gives
    its meaning without machine arithmetic.

    Public keys ([fc::crypto::public_key]) are only compared by the modelled
    code, so a key is represented by an integer that reflects the order [fc]
    gives to keys. *)

From S2P Require Import Prelude Config.
Local Open Scope Z_scope.

Abbreviation public_key := Z (only parsing).

Record permission_level := PermissionLevel { actor : Z; permission : Z }.

#[export] Instance permission_level_eq_dec : EqDecision permission_level.
Proof. solve_decision. Defined.
#[export] Instance permission_level_countable : Countable permission_level :=
  inj_countable' (λ p, (actor p, permission p)) (λ p, PermissionLevel p.1 p.2)
    (λ p, match p with PermissionLevel _ _ => eq_refl end).

Definition permission_level_lt (a b : permission_level) : bool :=
  tie_lt (actor a, permission a) (actor b, permission b).
Definition permission_level_ge (a b : permission_level) : bool := negb (permission_level_lt a b).

Record permission_level_weight :=
  { plw_permission : permission_level; plw_weight : Z }.
Record key_weight := { kw_key : public_key; kw_weight : Z }.
Record wait_weight := { wait_sec : Z; ww_weight : Z }.

Record authority := {
  threshold : Z;
  keys : list key_weight;
  accounts : list permission_level_weight;
  waits : list wait_weight }.

#[export] Instance permission_level_weight_eq_dec : EqDecision permission_level_weight.
Proof. solve_decision. Defined.
#[export] Instance key_weight_eq_dec : EqDecision key_weight.
Proof. solve_decision. Defined.
#[export] Instance wait_weight_eq_dec : EqDecision wait_weight.
Proof. solve_decision. Defined.
#[export] Instance authority_eq_dec : EqDecision authority.
Proof. solve_decision. Defined.

(** The constructors from one key and from one permission level. *)
Definition authority_of_key (k : public_key) (delay_sec : Z) : authority :=
  {| threshold := if 0 <? delay_sec then 2 else 1;
     keys := [{| kw_key := k; kw_weight := 1 |}]; accounts := [];
     waits := if 0 <? delay_sec then [{| wait_sec := delay_sec; ww_weight := 1 |}] else [] |}.
Definition authority_of_permission (p : permission_level) (delay_sec : Z) : authority :=
  {| threshold := if 0 <? delay_sec then 2 else 1;
     keys := []; accounts := [{| plw_permission := p; plw_weight := 1 |}];
     waits := if 0 <? delay_sec then [{| wait_sec := delay_sec; ww_weight := 1 |}] else [] |}.

(** [shared_authority::get_billable_size]; [pack_size] is [fc::raw::pack_size]
    of a key. *)
Definition get_billable_size (pack_size : public_key → Z) (a : authority) : Z :=
  let accounts_size := u64 (Z.of_nat (length (accounts a)) * billable_size_v 24) in
  let waits_size := u64 (Z.of_nat (length (waits a)) * billable_size_v 16) in
  let keys_size :=
    fold_left (λ s k, u64 (u64 (s + billable_size_v 8) + pack_size (kw_key k))) (keys a) 0 in
  u64 (u64 (accounts_size + waits_size) + keys_size).

(** ** Validation *)

(** One of the three loops of [validate]: [bad prev x] is its early return. *)
Fixpoint validate_loop {A} (bad : A → A → bool) (weight : A → Z)
    (prev : option A) (l : list A) (total_weight : Z) : option Z :=
  match l with
  | [] => Some total_weight
  | x :: l =>
      if match prev with Some p => bad p x | None => false end then None
      else validate_loop bad weight (Some x) l (u32 (total_weight + weight x))
  end.

Definition validate (auth : authority) : bool :=
  if 2 ^ 16 <? Z.of_nat (length (keys auth) + length (accounts auth) + length (waits auth))
  then false
  else if threshold auth =? 0 then false
  else
    match validate_loop (λ p k, negb (kw_key p <? kw_key k)) kw_weight None (keys auth) 0 with
    | None => false
    | Some t =>
    match validate_loop
            (λ p a, permission_level_ge (plw_permission p) (plw_permission a))
            plw_weight None (accounts auth) t with
    | None => false
    | Some t =>
    if match waits auth with w :: _ => wait_sec w =? 0 | [] => false end then false
    else
    match validate_loop (λ p w, wait_sec w <=? wait_sec p) ww_weight None (waits auth) t with
    | None => false
    | Some t => threshold auth <=? t
    end end end.

(** Field ranges: [uint32_t] threshold and waits, [uint16_t] weights. *)
Definition authority_ok (a : authority) : Prop :=
  in_u 32 (threshold a) ∧ Forall (λ k, in_u 16 (kw_weight k)) (keys a) ∧
  Forall (λ p, in_u 16 (plw_weight p)) (accounts a) ∧
  Forall (λ w, in_u 16 (ww_weight w) ∧ in_u 32 (wait_sec w)) (waits a).

(** The sum of all weights. *)
Definition total_weight (a : authority) : Z :=
  sum_Z (kw_weight <$> keys a) + sum_Z (plw_weight <$> accounts a) +
  sum_Z (ww_weight <$> waits a).

Lemma validate_loop_spec {A} (bad : A → A → bool) (weight : A → Z) l : ∀ prev t,
  0 ≤ t → Forall (λ x, in_u 16 (weight x)) l →
  t + Z.of_nat (length l) * 65535 < 2 ^ 32 →
  validate_loop bad weight prev l t =
    if bool_decide (Sorted (λ x y, bad x y = false) (option_list prev ++ l))
    then Some (t + sum_Z (weight <$> l)) else None.
Proof.
  induction l as [|x l IH]; intros prev t Ht Hl Hb; cbn [validate_loop].
  { rewrite bool_decide_true; [f_equal; cbn; lia|].
    destruct prev; simpl; repeat constructor. }
  inversion Hl as [|? ? Hx Hl']; subst. unfold in_u in Hx. change (2 ^ 16) with 65536 in Hx.
  cbn [length] in Hb. rewrite Nat2Z.inj_succ in Hb.
  rewrite (wrap_small 32) by (unfold in_u; lia). rewrite IH by (done || lia).
  cbn [option_list app fmap list_fmap sum_Z foldr]. fold (sum_Z (weight <$> l)).
  rewrite Z.add_assoc. destruct prev as [p|]; cbn [option_list app]; [|done].
  destruct (bad p x) eqn:E.
  - rewrite bool_decide_false; [done|]. intros Hs. inversion Hs as [|? ? _ Hhd]; subst.
    inversion Hhd; congruence.
  - erewrite (bool_decide_ext (Sorted _ (p :: x :: l))); [done|]. split.
    + by inversion 1.
    + intros Hs. constructor; [done|]. by constructor.
Qed.

Lemma sum_weights_bound {A} (weight : A → Z) l : Forall (λ x, in_u 16 (weight x)) l →
  0 ≤ sum_Z (weight <$> l) ≤ Z.of_nat (length l) * 65535.
Proof.
  intros H. rewrite <- (length_fmap weight). apply sum_Z_bound; [lia|].
  apply Forall_fmap. eapply Forall_impl; [exact H|]. unfold in_u. simpl. lia.
Qed.

Lemma Sorted_fmap_iff {A B} (f : A → B) (R : relation A) (S : relation B) l :
  (∀ x y, R x y ↔ S (f x) (f y)) → Sorted R l ↔ Sorted S (f <$> l).
Proof.
  intros HRS. induction l as [|x l IH]; [split; constructor|]. cbn [fmap list_fmap].
  split; intros H; inversion H as [|? ? Hs Hhd]; subst; constructor;
    try (by apply IH); destruct l; inversion Hhd; subst; constructor; by apply HRS.
Qed.

Lemma waits_positive (l : list wait_weight) : Forall (λ w, 0 ≤ wait_sec w) l →
  Sorted Z.lt (wait_sec <$> l) →
  (match l with w :: _ => wait_sec w =? 0 | [] => false end) = false ↔
  Forall (λ w, 0 < wait_sec w) l.
Proof.
  intros Hn Hs. destruct l as [|w l]; [split; [constructor|done]|].
  inversion Hn as [|? ? Hw _]; subst. split.
  - intros H0%Z.eqb_neq. apply Sorted_StronglySorted in Hs; [|intros ???; lia].
    cbn [fmap list_fmap] in Hs. inversion Hs as [|? ? _ Hall]; subst.
    constructor; [lia|]. rewrite Forall_fmap in Hall.
    eapply Forall_impl; [exact Hall|]. simpl. lia.
  - intros H. inversion H; subst. apply Z.eqb_neq. lia.
Qed.

Lemma validate_basic a : validate a = true →
  Z.of_nat (length (keys a) + length (accounts a) + length (waits a)) ≤ 2 ^ 16 ∧
  threshold a ≠ 0.
Proof.
  unfold validate. destruct (Z.ltb_spec (2 ^ 16)
    (Z.of_nat (length (keys a) + length (accounts a) + length (waits a)))); [done|].
  destruct (Z.eqb_spec (threshold a) 0); [done|]. done.
Qed.

(** [validate] accepts exactly the authorities that have at most 2^16
    entries and a positive threshold, whose keys, permission levels and waits
    are each strictly increasing, whose waits are positive, and whose weights
    really add up to the threshold: the 32-bit sum never wraps. *)
Theorem validate_iff a : authority_ok a →
  validate a = true ↔
    Z.of_nat (length (keys a) + length (accounts a) + length (waits a)) ≤ 2 ^ 16 ∧
    0 < threshold a ≤ total_weight a ∧
    Sorted Z.lt (kw_key <$> keys a) ∧
    Sorted (λ p q, permission_level_lt p q = true) (plw_permission <$> accounts a) ∧
    Sorted Z.lt (wait_sec <$> waits a) ∧ Forall (λ w, 0 < wait_sec w) (waits a).
Proof.
  intros (Ht & Hk & Hp & Hw). unfold in_u in Ht.
  assert (Forall (λ w, in_u 16 (ww_weight w)) (waits a)) as Hww
    by (eapply Forall_impl; [exact Hw|]; by intros ? [? _]).
  assert (Forall (λ w, 0 ≤ wait_sec w) (waits a)) as Hws
    by (eapply Forall_impl; [exact Hw|]; by intros ? [_ [? _]]).
  pose proof (sum_weights_bound _ _ Hk) as Bk. pose proof (sum_weights_bound _ _ Hp) as Bp.
  pose proof (sum_weights_bound _ _ Hww) as Bw.
  unfold validate. change (2 ^ 16) with 65536. rewrite Nat2Z.inj_add, Nat2Z.inj_add.
  destruct (Z.ltb_spec 65536 (Z.of_nat (length (keys a)) + Z.of_nat (length (accounts a))
    + Z.of_nat (length (waits a)))); [split; [done|lia]|].
  destruct (Z.eqb_spec (threshold a) 0) as [E|E]; [split; [done|lia]|].
  rewrite !validate_loop_spec by (done || lia). cbn [option_list app].
  rewrite <- (Sorted_fmap_iff kw_key (λ p k, negb (kw_key p <? kw_key k) = false) Z.lt)
    by (intros; rewrite negb_false_iff; lia).
  case_bool_decide; [|split; [done|naive_solver]].
  rewrite validate_loop_spec by (done || lia). cbn [option_list app].
  rewrite <- (Sorted_fmap_iff plw_permission
    (λ p q, permission_level_ge (plw_permission p) (plw_permission q) = false)
    (λ p q, permission_level_lt p q = true))
    by (intros; unfold permission_level_ge; by rewrite negb_false_iff).
  case_bool_decide; [|split; [done|naive_solver]].
  rewrite validate_loop_spec by (done || lia). cbn [option_list app].
  pose proof (Sorted_fmap_iff wait_sec (λ p w, (wait_sec w <=? wait_sec p) = false) Z.lt
    (waits a) ltac:(intros; cbv beta; lia)) as Sw.
  pose proof (waits_positive (waits a) Hws) as Hpos.
  destruct (match waits a with w :: _ => wait_sec w =? 0 | [] => false end).
  { split; [done|]. intros (_ & _ & _ & _ & Hs & Hall). by apply Hpos in Hall. }
  case_bool_decide as Hsw; [|split; [done|]; intros (_ & _ & _ & _ & Hs & _); by apply Sw in Hs].
  unfold total_weight. rewrite Z.leb_le. split; [|lia].
  intros Hle. split_and!; try done; try lia; [by apply Sw|]. apply Hpos; [by apply Sw|done].
Qed.

Definition demo_authority : authority :=
  {| threshold := 3;
     keys := [{| kw_key := 5; kw_weight := 1 |}; {| kw_key := 9; kw_weight := 1 |}];
     accounts := [{| plw_permission := PermissionLevel 7 8; plw_weight := 1 |}];
     waits := [{| wait_sec := 60; ww_weight := 1 |}] |}.

Lemma validate_iff_witness :
  validate demo_authority = true ∧ 0 < threshold demo_authority ≤ total_weight demo_authority.
Proof.
  assert (authority_ok demo_authority) as Hok.
  { repeat split; repeat constructor; vm_compute; congruence. }
  split; [vm_compute; reflexivity|].
  apply (proj1 (validate_iff demo_authority Hok)). vm_compute. reflexivity.
Defined.
