(* ===== verification/AuthorityChecker.v ===== *)
(** * The authority checker ([authority_checker.hpp])

    Decides whether a set of keys, already granted permission levels and a
    delay satisfy a permission, by a depth-limited search through the
    authorities it refers to, with a cache of the levels already evaluated.
    The theorems relate its positive answers to an inductive definition of
    satisfaction that knows neither depth nor cache, and show that it always
    terminates and gives back the keys it marked on a failed branch. *)

From S2P Require Import Prelude Config Authority.
Local Open Scope Z_scope.

(** ** Data *)
Inductive meta_permission :=
  | MPerm (p : permission_level_weight) | MKey (k : key_weight) | MWait (w : wait_weight).

Definition get_weight (m : meta_permission) : Z :=
  match m with MPerm p => plw_weight p | MKey k => kw_weight k | MWait w => ww_weight w end.
Definition which (m : meta_permission) : Z :=
  match m with MPerm _ => 0 | MKey _ => 1 | MWait _ => 2 end.

(** [meta_permission_comparator]: descending by weight, then by alternative. *)
Definition meta_permission_lt (lhs rhs : meta_permission) : bool :=
  tie_lt (get_weight rhs, which rhs) (get_weight lhs, which lhs).

(** Insertion into a [flat_multiset]: after the elements that are not greater. *)
Fixpoint meta_insert (x : meta_permission) (l : list meta_permission) : list meta_permission :=
  match l with
  | [] => [x]
  | y :: l' => if meta_permission_lt x y then x :: l else y :: meta_insert x l'
  end.

Definition factors (a : authority) : list meta_permission :=
  (MWait <$> waits a) ++ (MKey <$> keys a) ++ (MPerm <$> accounts a).
Definition meta_permissions (a : authority) : list meta_permission :=
  fold_left (λ l x, meta_insert x l) (factors a) [].

Inductive permission_cache_status :=
  | being_evaluated | permission_unsatisfied | permission_satisfied.

#[export] Instance permission_cache_status_eq_dec : EqDecision permission_cache_status.
Proof. solve_decision. Defined.

Abbreviation permission_cache_type := (gmap permission_level permission_cache_status).

(** The mutable members of the checker: [_used_keys] and the cache in use. *)
Record checker_state := { used_marks : list bool; cached : permission_cache_type }.

Definition with_cached (st : checker_state) (c : permission_cache_type) : checker_state :=
  {| used_marks := used_marks st; cached := c |}.

(** [boost::find] in the provided keys. *)
Fixpoint find_key (k : public_key) (l : list public_key) : option nat :=
  match l with
  | [] => None
  | x :: l => if x =? k then Some O else S <$> find_key k l
  end.

Definition permission_status_in_cache (permissions : permission_cache_type)
    (level : permission_level) : option permission_cache_status :=
  match permissions !! level with
  | Some s => Some s
  | None => permissions !! PermissionLevel (actor level) 0
  end.

(** [emplace]: an entry that is present stays. *)
Definition emplace_satisfied (c : permission_cache_type) (p : permission_level) :
    permission_cache_type :=
  match c !! p with Some _ => c | None => <[p := permission_satisfied]> c end.

Section checker.
(** [permission_to_authority], the provided keys, permission levels and delay
    (in microseconds). *)
Context (permission_to_authority : permission_level → result authority).
Context (provided_keys : list public_key) (provided_permissions : list permission_level).
Context (provided_delay : Z).

Definition initialize_permission_cache : permission_cache_type :=
  fold_left emplace_satisfied provided_permissions ∅.

(** [weight_tally_visitor]: the new [total_weight].  [recurse] is the nested
    call of [satisfied], absent once the recursion limit is reached. *)
Definition visit (recurse : option (authority → checker_state → result (bool * checker_state)))
    (m : meta_permission) (total_weight : Z) (st : checker_state) :
    result (Z * checker_state) :=
  match m with
  | MWait w =>
      Ok (if wait_sec w * 1000000 <=? provided_delay then u32 (total_weight + ww_weight w)
          else total_weight, st)
  | MKey k =>
      match find_key (kw_key k) provided_keys with
      | Some i => Ok (u32 (total_weight + kw_weight k),
                      {| used_marks := <[i := true]> (used_marks st); cached := cached st |})
      | None => Ok (total_weight, st)
      end
  | MPerm p =>
      let level := plw_permission p in
      match permission_status_in_cache (cached st) level with
      | None =>
          match recurse with
          | None => Ok (total_weight, st)
          | Some satisfied =>
              match permission_to_authority level with
              | Throw permission_query_exception => Ok (total_weight, st)
              | Throw e => Throw e
              | Ok auth =>
                  res ← satisfied auth (with_cached st (<[level := being_evaluated]> (cached st)));
                  let '(r, st) := res in
                  if (r : bool)
                  then Ok (u32 (total_weight + plw_weight p),
                           with_cached st (<[level := permission_satisfied]> (cached st)))
                  else Ok (total_weight,
                           with_cached st (<[level := permission_unsatisfied]> (cached st)))
              end
          end
      | Some permission_satisfied => Ok (u32 (total_weight + plw_weight p), st)
      | Some _ => Ok (total_weight, st)
      end
  end.

(** The loop over the sorted permissions. *)
Fixpoint tally (recurse : option (authority → checker_state → result (bool * checker_state)))
    (threshold : Z) (l : list meta_permission) (total_weight : Z) (st : checker_state) :
    result (bool * checker_state) :=
  match l with
  | [] => Ok (false, st)
  | m :: l =>
      res ← visit recurse m total_weight st;
      let '(total_weight, st) := res in
      if threshold <=? total_weight then Ok (true, st)
      else tally recurse threshold l total_weight st
  end.

(** [satisfied( authority, cached_permissions, depth )] with [n] levels left,
    that is [recursion_depth_limit - depth].  [KeyReverter] restores the used
    keys unless the authority is satisfied. *)
Fixpoint satisfied (n : nat) (a : authority) (st : checker_state) :
    result (bool * checker_state) :=
  let recurse := match n with O => None | S n => Some (satisfied n) end in
  res ← tally recurse (threshold a) (meta_permissions a) 0 st;
  let '(r, st') := res in
  if (r : bool) then Ok (true, st')
  else Ok (false, {| used_marks := used_marks st; cached := cached st' |}).

Definition recursion (recursion_depth_limit : nat) :=
  match recursion_depth_limit with O => None | S n => Some (satisfied n) end.

(** The public entry points, with an optional cache of the caller. *)
Definition satisfied_level (recursion_depth_limit : nat) (level : permission_level)
    (used : list bool) (cached_perms : option permission_cache_type) :
    result (bool * checker_state) :=
  let c := default initialize_permission_cache cached_perms in
  res ← visit (recursion recursion_depth_limit)
          (MPerm {| plw_permission := level; plw_weight := 1 |}) 0
          {| used_marks := used; cached := c |};
  let '(w, st) := res in Ok (0 <? w, st).

Definition satisfied_authority (recursion_depth_limit : nat) (a : authority)
    (used : list bool) (cached_perms : option permission_cache_type) :
    result (bool * checker_state) :=
  satisfied recursion_depth_limit a
    {| used_marks := used; cached := default initialize_permission_cache cached_perms |}.

Definition initial_used_keys : list bool := replicate (length provided_keys) false.
Definition all_keys_used (used : list bool) : bool := forallb id used.

(** [filter_data_by_marker]. *)
Definition filter_by_marker (marker : bool) (used : list bool) : list public_key :=
  omap (λ kb : public_key * bool, if bool_decide (kb.2 = marker) then Some kb.1 else None)
    (zip provided_keys used).
Definition used_keys (used : list bool) : list public_key := filter_by_marker true used.
Definition unused_keys (used : list bool) : list public_key := filter_by_marker false used.
End checker.

(** ** Specification *)
Section specification.
Context (pta : permission_level → result authority).
Context (provided_keys : list public_key) (provided_permissions : list permission_level).
Context (provided_delay : Z).

(** A level granted in advance, by itself or for all permissions of its actor. *)
Definition given (l : permission_level) : Prop :=
  l ∈ provided_permissions ∨ PermissionLevel (actor l) 0 ∈ provided_permissions.

(** A factor is satisfied by the delay, by a provided key, by a granted level,
    or because the authority of its level is satisfied: some of its factors
    are satisfied and weigh at least the threshold. *)
Inductive sat : meta_permission → Prop :=
  | sat_wait w : wait_sec w * 1000000 ≤ provided_delay → sat (MWait w)
  | sat_key k : kw_key k ∈ provided_keys → sat (MKey k)
  | sat_given p : given (plw_permission p) → sat (MPerm p)
  | sat_level p a l :
      pta (plw_permission p) = Ok a → l ⊆+ factors a → Forall sat l →
      threshold a ≤ sum_Z (get_weight <$> l) → sat (MPerm p).

Definition sat_authority (a : authority) : Prop :=
  ∃ l, l ⊆+ factors a ∧ Forall sat l ∧ threshold a ≤ sum_Z (get_weight <$> l).
Definition sat_permission (l : permission_level) : Prop :=
  sat (MPerm {| plw_permission := l; plw_weight := 1 |}).

Lemma sat_MPerm p : sat_permission (plw_permission p) → sat (MPerm p).
Proof.
  unfold sat_permission. inversion 1; subst; simpl in *; [by apply sat_given|].
  by eapply sat_level.
Qed.

Lemma meta_insert_perm x l : meta_insert x l ≡ₚ x :: l.
Proof.
  induction l as [|y l IH]; simpl; [done|]. destruct (meta_permission_lt x y); [done|].
  rewrite IH. apply Permutation_swap.
Qed.

Lemma meta_permissions_perm a : meta_permissions a ≡ₚ factors a.
Proof.
  unfold meta_permissions. rewrite <- (app_nil_r (factors a)) at 2. generalize (@nil meta_permission).
  induction (factors a) as [|x l IH]; intros acc; simpl; [done|].
  rewrite IH, meta_insert_perm. by rewrite Permutation_middle.
Qed.

Lemma find_key_Some k l i : find_key k l = Some i → k ∈ l.
Proof.
  revert i. induction l as [|x l IH]; intros i; simpl; [done|].
  destruct (Z.eqb_spec x k) as [->|]; [by left|].
  destruct (find_key k l); [|done]. intros _. right. by eapply IH.
Qed.

(** What the checker relies on: authorities have fields in range, and there is
    no permission with an empty name. *)
Hypothesis pta_ok : ∀ p a, pta p = Ok a → authority_ok a.
Hypothesis pta_named : ∀ p a, pta p = Ok a → permission p ≠ 0.

Definition cache_ok (c : permission_cache_type) : Prop :=
  ∀ p, c !! p = Some permission_satisfied →
    sat_permission p ∧ (permission p = 0 → p ∈ provided_permissions).

Lemma status_sat c l : cache_ok c →
  permission_status_in_cache c l = Some permission_satisfied → sat_permission l.
Proof.
  intros Hc. unfold permission_status_in_cache. destruct (c !! l) eqn:E.
  - intros [= ->]. by apply Hc.
  - intros [_ H]%Hc. apply sat_given. right. by apply H.
Qed.

Lemma cache_ok_insert c p s : cache_ok c →
  (s = permission_satisfied → sat_permission p ∧ permission p ≠ 0) → cache_ok (<[p := s]> c).
Proof.
  intros Hc Hs q [[<- ->]|[_ Hq]]%lookup_insert_Some; [|by apply Hc].
  destruct Hs as [H1 H2]; [done|]. by split.
Qed.

Lemma initialize_permission_cache_ok :
  cache_ok (initialize_permission_cache provided_permissions).
Proof.
  unfold initialize_permission_cache.
  assert (∀ l c, (∀ p, c !! p = Some permission_satisfied → p ∈ provided_permissions) →
    l ⊆ provided_permissions → ∀ p,
    fold_left emplace_satisfied l c !! p = Some permission_satisfied → p ∈ provided_permissions) as H.
  { induction l as [|x l IH]; intros c Hc Hl p; simpl; [apply Hc|].
    apply IH; [|set_solver]. intros q. unfold emplace_satisfied. destruct (c !! x); [apply Hc|].
    intros [[<- _]|[_ Hq]]%lookup_insert_Some; [set_solver|by apply Hc]. }
  intros p Hp. apply H in Hp; [|intros q; by rewrite lookup_empty|done].
  split; [|done]. apply sat_given. by left.
Qed.

Definition recurse_sound
    (rec : option (authority → checker_state → result (bool * checker_state))) : Prop :=
  ∀ f a st b st', rec = Some f → authority_ok a → cache_ok (cached st) →
    f a st = Ok (b, st') → cache_ok (cached st') ∧ (b = true → sat_authority a).

Abbreviation visit' := (visit pta provided_keys provided_delay).
Abbreviation tally' := (tally pta provided_keys provided_delay).
Abbreviation satisfied' := (satisfied pta provided_keys provided_delay).

Lemma visit_sound rec m w st w' st' :
  recurse_sound rec → cache_ok (cached st) → visit' rec m w st = Ok (w', st') →
  cache_ok (cached st') ∧ (w' = w ∨ (w' = u32 (w + get_weight m) ∧ sat m)).
Proof.
  intros Hrec Hc H. destruct m as [p|k|wt]; simpl in H.
  - destruct (permission_status_in_cache (cached st) (plw_permission p)) as [s|] eqn:Es.
    + destruct s; simplify_eq; split; try done; try by left.
      right. split; [done|]. by eapply sat_MPerm, status_sat.
    + destruct rec as [f|]; [|simplify_eq; by split; [|left]].
      destruct (pta (plw_permission p)) as [a|e] eqn:Ea; [|destruct e; simplify_eq; by split; [|left]].
      apply bind_Ok in H as ([r st1] & Hf & H).
      apply (Hrec f) in Hf as [Hc1 Hr]; [|done|by eapply pta_ok|by apply cache_ok_insert].
      destruct r; simplify_eq; simpl; split; try (by left); try by apply cache_ok_insert.
      * apply cache_ok_insert; [done|]. intros _. split; [|by eapply pta_named].
        destruct (Hr eq_refl) as (l & H1 & H2 & H3). by eapply sat_level.
      * right. split; [done|]. destruct (Hr eq_refl) as (l & H1 & H2 & H3). by eapply sat_level.
  - destruct (find_key (kw_key k) provided_keys) eqn:E; simplify_eq; split; try done; [|by left].
    right. split; [done|]. by eapply sat_key, find_key_Some.
  - simplify_eq. split; [done|]. destruct (Z.leb_spec (wait_sec wt * 1000000) provided_delay);
      [right|by left]. split; [done|]. by apply sat_wait.
Qed.

Lemma tally_sound rec t l : ∀ w st b st',
  recurse_sound rec → cache_ok (cached st) → 0 ≤ w → Forall (λ m, 0 ≤ get_weight m) l →
  tally' rec t l w st = Ok (b, st') →
  cache_ok (cached st') ∧
  (b = true → ∃ l', l' ⊆+ l ∧ Forall sat l' ∧ t ≤ w + sum_Z (get_weight <$> l')).
Proof.
  induction l as [|m l IH]; intros w st b st' Hrec Hc Hw Hl H; simpl in H; [by simplify_eq|].
  inversion Hl as [|? ? Hm Hl']; subst. apply bind_Ok in H as ([w1 st1] & Hv & H).
  apply visit_sound in Hv as [Hc1 Hv]; [|done..].
  assert (0 ≤ w1 ∧ w1 ≤ w + get_weight m) as [Hw1 Hle].
  { destruct Hv as [->|[-> _]]; [lia|]. pose proof (wrap_range 32 (w + get_weight m) ltac:(lia)) as [? _].
    pose proof (wrap_le 32 (w + get_weight m)). lia. }
  destruct (Z.leb_spec t w1) as [Ht|Ht].
  - simplify_eq. split; [done|]. intros _. destruct Hv as [->|[-> Hs]].
    + exists []. split_and!; [apply submseteq_nil_l|constructor|cbn; lia].
    + exists [m]. split_and!; [|by repeat constructor|cbn; lia].
      apply submseteq_skip, submseteq_nil_l.
  - destruct (IH w1 st1 b st' Hrec Hc1 Hw1 Hl' H) as [Hc' Hb]. split; [done|].
    intros (l' & H1 & H2 & H3)%Hb. destruct Hv as [->|[-> Hs]].
    + exists l'. split_and!; [by apply submseteq_cons|done|done].
    + exists (m :: l'). split_and!; [by apply submseteq_skip|by constructor|].
      rewrite fmap_cons, sum_Z_cons. lia.
Qed.

Lemma factors_nonneg a : authority_ok a → Forall (λ m, 0 ≤ get_weight m) (factors a).
Proof.
  intros (_ & Hk & Hp & Hw). unfold factors. rewrite !Forall_app, !Forall_fmap.
  split_and!; (eapply Forall_impl; [eassumption|]); intros x; simpl; unfold in_u; lia.
Qed.

Lemma satisfied_sound n : recurse_sound (Some (satisfied' n)).
Proof.
  induction n as [|n IH]; intros f a st b st' [= <-] Ha Hc H; cbn [satisfied] in H;
    apply bind_Ok in H as ([r st1] & Ht & H);
    apply tally_sound in Ht as [Hc1 Hr];
    try done; try (by rewrite meta_permissions_perm; apply factors_nonneg).
  all: split; [by destruct r; simplify_eq|].
  all: intros ->; destruct r; simplify_eq; destruct (Hr eq_refl) as (l & H1 & H2 & H3);
    exists l; split_and!; [by rewrite <- meta_permissions_perm|done|lia].
Qed.

Lemma recursion_sound n : recurse_sound (recursion pta provided_keys provided_delay n).
Proof. destruct n; [by intros ? * ?|apply satisfied_sound]. Qed.

Lemma satisfied_level_sound n l used st :
  satisfied_level pta provided_keys provided_permissions provided_delay n l used None
    = Ok (true, st) → sat_permission l.
Proof.
  intros H. unfold satisfied_level in H. apply bind_Ok in H as ([w st'] & Hv & H).
  apply visit_sound in Hv as [_ [->|[-> Hs]]];
    [done|done|apply recursion_sound|apply initialize_permission_cache_ok].
Qed.

(** C7.  Soundness of the checker: whatever the recursion limit and the keys
    already marked as used, a positive answer means that the permission, or the
    authority, is satisfied by the provided keys, levels and delay in the sense
    of [sat], which has no recursion limit and no cache. *)
Theorem checker_sound n used st :
  (∀ l, satisfied_level pta provided_keys provided_permissions provided_delay n l used None
          = Ok (true, st) → sat_permission l) ∧
  (∀ a, authority_ok a →
     satisfied_authority pta provided_keys provided_permissions provided_delay n a used None
       = Ok (true, st) → sat_authority a).
Proof.
  split; [intros l; apply satisfied_level_sound|].
  intros a Ha H. unfold satisfied_authority in H.
  eapply (satisfied_sound n) in H as [_ Hs];
    [by apply Hs|done|done|apply initialize_permission_cache_ok].
Qed.
End specification.

(** More delay satisfies more. *)
Lemma sat_delay_mono pta ks ps x y m : x ≤ y → sat pta ks ps x m → sat pta ks ps y m.
Proof.
  intros Hxy. revert m. fix IH 2. intros m [w Hw|k Hk|p Hp|p a l Hp Hl Hall Ht].
  - apply sat_wait. lia.
  - by apply sat_key.
  - by apply sat_given.
  - eapply sat_level; [done|done| |done]. clear -IH Hall.
    induction Hall as [|m l Hm _ IHl]; constructor; [by apply IH|done].
Qed.

(** ** Termination and the used keys *)
Section total.
Context (pta : permission_level → result authority).
Context (provided_keys : list public_key) (provided_permissions : list permission_level).
Context (provided_delay : Z).
(** A missing permission is reported as [permission_query_exception], unless a
    name is empty; stored authorities have no empty names. *)
Definition named (p : permission_level) : Prop := actor p ≠ 0 ∧ permission p ≠ 0.
Definition all_named (a : authority) : Prop := Forall (λ w, named (plw_permission w)) (accounts a).
Hypothesis pta_query : ∀ p e, named p → pta p = Throw e → e = permission_query_exception.
Hypothesis pta_named : ∀ p a, pta p = Ok a → all_named a.

Definition meta_named (m : meta_permission) : Prop :=
  match m with MPerm p => named (plw_permission p) | _ => True end.

Lemma meta_permissions_named a : all_named a → Forall meta_named (meta_permissions a).
Proof.
  intros Ha. rewrite meta_permissions_perm. unfold factors.
  rewrite !Forall_app, !Forall_fmap. split_and!; [by apply Forall_true..|exact Ha].
Qed.

(** Marks are only added. *)
Definition marks_grow (u u' : list bool) : Prop :=
  length u' = length u ∧ ∀ i, u !! i = Some true → u' !! i = Some true.

Lemma marks_grow_refl u : marks_grow u u.
Proof. by split. Qed.

Lemma marks_grow_trans u1 u2 u3 : marks_grow u1 u2 → marks_grow u2 u3 → marks_grow u1 u3.
Proof. intros [L1 G1] [L2 G2]. split; [congruence|auto]. Qed.

Lemma marks_grow_insert u i : marks_grow u (<[i := true]> u).
Proof.
  split; [by rewrite length_insert|]. intros j Hj. destruct (decide (i = j)) as [->|].
  - rewrite list_lookup_insert_eq; [done|]. by eapply lookup_lt_Some.
  - by rewrite list_lookup_insert_ne.
Qed.

Definition recurse_total
    (rec : option (authority → checker_state → result (bool * checker_state))) : Prop :=
  ∀ f a st, rec = Some f → all_named a → ∃ b st', f a st = Ok (b, st') ∧
    marks_grow (used_marks st) (used_marks st').

Lemma visit_total rec m w st : recurse_total rec → meta_named m →
  ∃ w' st', visit pta provided_keys provided_delay rec m w st = Ok (w', st') ∧
    marks_grow (used_marks st) (used_marks st').
Proof.
  intros Hrec Hm. destruct m as [p|k|wt]; simpl.
  - destruct (permission_status_in_cache _ _) as [[]|];
      try (eexists _, _; split; [done|apply marks_grow_refl]).
    destruct rec as [f|]; [|eexists _, _; split; [done|apply marks_grow_refl]].
    destruct (pta (plw_permission p)) as [a|e] eqn:E.
    + destruct (Hrec f a (with_cached st (<[plw_permission p:=being_evaluated]> (cached st))) eq_refl
        (pta_named _ _ E)) as (b & st' & -> & Hg). cbn [mbind result_bind]. destruct b; eauto.
    + apply (pta_query _ _ Hm) in E as ->. eexists _, _. split; [done|apply marks_grow_refl].
  - destruct (find_key _ _) as [i|]; eexists _, _; (split; [done|]);
      [apply marks_grow_insert|apply marks_grow_refl].
  - eexists _, _. split; [done|apply marks_grow_refl].
Qed.

Lemma tally_total rec t l : ∀ w st, recurse_total rec → Forall meta_named l →
  ∃ b st', tally pta provided_keys provided_delay rec t l w st = Ok (b, st') ∧
    marks_grow (used_marks st) (used_marks st').
Proof.
  induction l as [|m l IH]; intros w st Hrec Hl; simpl.
  { eexists _, _. split; [done|apply marks_grow_refl]. }
  apply Forall_cons in Hl as [Hm Hl]. destruct (visit_total rec m w st Hrec Hm) as (w1 & st1 & -> & G1). cbn [mbind result_bind].
  destruct (t <=? w1); [eauto|]. destruct (IH w1 st1 Hrec Hl) as (b & st' & -> & G2).
  eexists _, _. split; [done|]. by eapply marks_grow_trans.
Qed.

Lemma satisfied_total n : ∀ a st, all_named a → ∃ b st',
  satisfied pta provided_keys provided_delay n a st = Ok (b, st') ∧
  marks_grow (used_marks st) (used_marks st') ∧
  (b = false → used_marks st' = used_marks st).
Proof.
  induction n as [|n IH]; intros a st Ha%meta_permissions_named; cbn [satisfied].
  - destruct (tally_total None (threshold a) (meta_permissions a) 0 st) as (b & st' & -> & G);
      [by intros ?|done|]. cbn [mbind result_bind].
    destruct b; eexists _, _; (split; [done|]); split; try done; apply marks_grow_refl.
  - destruct (tally_total (Some (satisfied pta provided_keys provided_delay n)) (threshold a)
      (meta_permissions a) 0 st) as (b & st' & -> & G).
    { intros f a' st1 [= <-] Ha'. destruct (IH a' st1 Ha') as (b & st' & ? & ? & _). eauto. }
    { done. }
    cbn [mbind result_bind].
    destruct b; eexists _, _; (split; [done|]); split; try done; apply marks_grow_refl.
Qed.

(** C34.  The checker always answers: whatever named permissions the authorities
    refer to, missing ones and cycles included, the search ends within the
    recursion limit and throws nothing.
    Marks of used keys are only ever added, and a negative answer leaves them
    as they were. *)
Theorem checker_total n a used c : all_named a →
  ∃ b st, satisfied_authority pta provided_keys provided_permissions provided_delay n a used c
            = Ok (b, st) ∧
    marks_grow used (used_marks st) ∧ (b = false → used_marks st = used).
Proof.
  intros Ha. destruct (satisfied_total n a
    {| used_marks := used; cached := default (initialize_permission_cache provided_permissions) c |}
    Ha) as (b & st & H & G & R). eauto.
Qed.
End total.

(** ** Completeness without nested permissions *)
Section flat.
Context (pta : permission_level → result authority).
Context (provided_keys : list public_key) (provided_permissions : list permission_level).
Context (provided_delay : Z).

Definition flat (m : meta_permission) : bool := match m with MPerm _ => false | _ => true end.

(** The weight a key or wait contributes. *)
Definition sat_weight (m : meta_permission) : Z :=
  match m with
  | MPerm _ => 0
  | MKey k => if bool_decide (kw_key k ∈ provided_keys) then kw_weight k else 0
  | MWait w => if wait_sec w * 1000000 <=? provided_delay then ww_weight w else 0
  end.

Lemma find_key_None k l : find_key k l = None → k ∉ l.
Proof.
  induction l as [|x l IH]; simpl; [set_solver|].
  destruct (Z.eqb_spec x k); [done|]. destruct (find_key k l); [done|].
  intros _. specialize (IH eq_refl). set_solver.
Qed.

Lemma visit_flat rec m w st : flat m = true → 0 ≤ w → 0 ≤ get_weight m → w + get_weight m < 2 ^ 32 →
  ∃ st', visit pta provided_keys provided_delay rec m w st = Ok (w + sat_weight m, st').
Proof.
  intros Hf Hw Hm Hb. destruct m as [p|k|wt]; [done| |]; simpl in *.
  - case_bool_decide as Hk.
    + destruct (find_key (kw_key k) provided_keys) eqn:E; [|by apply find_key_None in E].
      rewrite wrap_small by (unfold in_u; lia). eauto.
    + destruct (find_key (kw_key k) provided_keys) eqn:E; [by apply find_key_Some in E|].
      rewrite Z.add_0_r. eauto.
  - destruct (wait_sec wt * 1000000 <=? provided_delay); rewrite ?Z.add_0_r; [|eauto].
    rewrite wrap_small by (unfold in_u; lia). eauto.
Qed.

Lemma sat_weight_bounds m : 0 ≤ get_weight m → 0 ≤ sat_weight m ≤ get_weight m.
Proof. destruct m; simpl; [lia|case_bool_decide; lia|destruct (_ <=? _); lia]. Qed.

Lemma tally_flat rec t l : ∀ w st, forallb flat l = true → 0 ≤ w →
  Forall (λ m, 0 ≤ get_weight m) l → w + sum_Z (get_weight <$> l) < 2 ^ 32 →
  ∃ st', tally pta provided_keys provided_delay rec t l w st =
    Ok (negb (bool_decide (l = [])) && (t <=? w + sum_Z (sat_weight <$> l)), st').
Proof.
  induction l as [|m l IH]; intros w st Hf Hw Hl Hb; cbn [tally]; [simpl; eauto|].
  rewrite fmap_cons, sum_Z_cons in Hb.
  simpl in Hf. bool_prop. inversion Hl as [|? ? Hm Hl']; subst.
  assert (0 ≤ sum_Z (sat_weight <$> l) ≤ sum_Z (get_weight <$> l)) as Hs.
  { clear -Hl'. induction Hl' as [|x l Hx _ IH']; [done|]. pose proof (sat_weight_bounds x Hx).
    rewrite !fmap_cons, !sum_Z_cons. lia. }
  pose proof (sat_weight_bounds m Hm) as Hsm.
  destruct (visit_flat rec m w st) as [st1 ->]; [done|done|done|lia|]. cbn [mbind result_bind].
  rewrite fmap_cons, sum_Z_cons. destruct (Z.leb_spec t (w + sat_weight m)).
  - exists st1. rewrite bool_decide_false by done. cbn [negb andb].
    rewrite (proj2 (Z.leb_le _ _)) by lia. done.
  - destruct (IH (w + sat_weight m) st1) as [st' ->]; [done|lia|done|lia|].
    exists st'. rewrite (bool_decide_false (m :: l = [])) by done. cbn [negb andb].
    do 2 f_equal. rewrite Z.add_assoc. case_bool_decide as E; [|done]. subst l. simpl. symmetry.
    apply Z.leb_gt. cbn. lia.
Qed.

Lemma sum_sat_spec l t :
  forallb flat l = true → Forall (λ m, 0 ≤ get_weight m) l →
  t ≤ sum_Z (sat_weight <$> l) ↔
  ∃ l', l' ⊆+ l ∧ Forall (sat pta provided_keys provided_permissions provided_delay) l' ∧
        t ≤ sum_Z (get_weight <$> l').
Proof.
  intros Hf Hn. split.
  - assert (∃ l', l' ⊆+ l ∧
      Forall (sat pta provided_keys provided_permissions provided_delay) l' ∧
      sum_Z (get_weight <$> l') = sum_Z (sat_weight <$> l)) as (l' & H1 & H2 & H3);
      [|intros Ht; exists l'; by rewrite H3].
    clear Hn t. induction l as [|m l IH]; [exists []; split_and!; [done|constructor|done]|].
    simpl in Hf. bool_prop. destruct (IH ltac:(done)) as (l' & H1 & H2 & H3).
    assert (sat pta provided_keys provided_permissions provided_delay m ∧
      sat_weight m = get_weight m ∨ sat_weight m = 0) as [[Hs E]|E].
    { destruct m as [p|k|w]; [done| |]; simpl.
      - case_bool_decide; [left|by right]. split; [by apply sat_key|done].
      - destruct (Z.leb_spec (wait_sec w * 1000000) provided_delay); [left|by right].
        split; [by apply sat_wait|done]. }
    + exists (m :: l'). split_and!; [by apply submseteq_skip|by constructor|].
      rewrite !fmap_cons, !sum_Z_cons. lia.
    + exists l'. split_and!; [by apply submseteq_cons|done|].
      rewrite fmap_cons, sum_Z_cons. lia.
  - intros (l' & [k Hk]%submseteq_Permutation & Hs & Ht).
    rewrite Hk, forallb_app in Hf. bool_prop. rewrite Hk, Forall_app in Hn. destruct Hn as [Hn1 Hn2].
    rewrite (sum_Z_perm _ (sat_weight <$> (l' ++ k))) by (by apply fmap_Permutation).
    rewrite fmap_app, sum_Z_app.
    assert (0 ≤ sum_Z (sat_weight <$> k)).
    { apply sum_Z_nonneg, Forall_fmap. eapply Forall_impl; [exact Hn2|].
      intros m Hm. by apply sat_weight_bounds. }
    enough (sum_Z (get_weight <$> l') = sum_Z (sat_weight <$> l')) by lia.
    clear -Hs H. f_equal. induction Hs as [|m l Hm _ IH]; [done|]. simpl in H. bool_prop.
    cbn. f_equal; [|by apply IH]. destruct m; [done| |]; inversion Hm; subst; simpl.
    + by rewrite bool_decide_true.
    + by rewrite (proj2 (Z.leb_le _ _)).
Qed.

(** Completeness on authorities without nested permissions: for a valid
    authority made of keys and waits the checker answers yes exactly when some
    of its satisfied factors reach the threshold, in whatever order the
    factors are visited. *)
Theorem flat_complete n a used c :
  validate a = true → authority_ok a → accounts a = [] →
  ∃ b st, satisfied_authority pta provided_keys provided_permissions provided_delay n a used c
            = Ok (b, st) ∧
    (b = true ↔ sat_authority pta provided_keys provided_permissions provided_delay a).
Proof.
  intros [Hlen Ht0]%validate_basic Hok Hacc. pose proof (factors_nonneg a Hok) as Hnn.
  assert (forallb flat (factors a) = true) as Hflat.
  { unfold factors. rewrite Hacc, !forallb_app. simpl. rewrite andb_true_r.
    apply andb_true_intro. split; apply forallb_forall;
      by intros x (y & -> & _)%list_elem_of_In%list_elem_of_fmap. }
  assert (sum_Z (get_weight <$> factors a) < 2 ^ 32) as Hsum.
  { destruct Hok as (_ & Hk & _ & Hw). unfold factors. rewrite Hacc, !fmap_app, !sum_Z_app.
    rewrite <- !list_fmap_compose. pose proof (sum_weights_bound kw_weight _ Hk).
    pose proof (sum_weights_bound ww_weight (waits a)
      ltac:(eapply Forall_impl; [exact Hw|]; by intros ? [? _])).
    change (get_weight ∘ MWait) with ww_weight. change (get_weight ∘ MKey) with kw_weight.
    simpl. change (sum_Z []) with 0. lia. }
  pose proof (meta_permissions_perm a) as Hp.
  unfold satisfied_authority.
  set (st0 := {| used_marks := used |}). destruct n as [|n]; cbn [satisfied].
  all: match goal with |- context [tally _ _ _ ?rec _ _ _ _] =>
    destruct (tally_flat rec (threshold a) (meta_permissions a) 0 st0) as [st' ->];
      [by rewrite Hp|done|by rewrite Hp|
       by rewrite (sum_Z_perm _ _ (fmap_Permutation get_weight _ _ Hp))|]
  end; cbn [mbind result_bind].
  all: rewrite (sum_Z_perm _ _ (fmap_Permutation sat_weight _ _ Hp)), Z.add_0_l.
  all: pose proof (sum_sat_spec (factors a) (threshold a) Hflat Hnn) as Hs.
  all: destruct Hok as [[Hth _] _].
  all: assert (meta_permissions a = [] → sum_Z (sat_weight <$> factors a) = 0) as Hnil
    by (intros E; rewrite E in Hp; apply Permutation_nil_l in Hp; by rewrite <- Hp).
  all: case_bool_decide as E; simpl.
  all: try (eexists _, _; split; [done|]; split; [done|]; intros Hsat%Hs;
            specialize (Hnil E); lia).
  all: destruct (Z.leb_spec (threshold a) (sum_Z (sat_weight <$> factors a)));
    eexists _, _; (split; [done|]); split; try done; [by intros _; apply Hs|].
  all: intros Hsat%Hs; lia.
Qed.
End flat.

(** ** Witnesses *)

(** Accounts 1 to 3: the permission of 1 needs that of 2 or that of 3; that of
    2 needs that of 3 and one that does not exist; that of 3 needs key 100. *)
Definition demo_pta (p : permission_level) : result authority :=
  let one l := {| plw_permission := l; plw_weight := 1 |} in
  if bool_decide (p = PermissionLevel 1 1) then
    Ok {| threshold := 1; keys := []; waits := [];
          accounts := [one (PermissionLevel 2 1); one (PermissionLevel 3 1)] |}
  else if bool_decide (p = PermissionLevel 2 1) then
    Ok {| threshold := 2; keys := []; waits := [];
          accounts := [one (PermissionLevel 3 1); one (PermissionLevel 4 1)] |}
  else if bool_decide (p = PermissionLevel 3 1) then
    Ok {| threshold := 1; keys := [{| kw_key := 100; kw_weight := 1 |}]; accounts := []; waits := [] |}
  else if (actor p =? 0) || (permission p =? 0) then Throw invalid_permission
  else Throw permission_query_exception.

Lemma demo_pta_Ok p a : demo_pta p = Ok a → authority_ok a ∧ permission p ≠ 0.
Proof.
  unfold demo_pta. destruct (_ || _); repeat case_bool_decide; intros; simplify_eq;
    (split; [repeat split; repeat constructor; vm_compute; congruence|done]).
Qed.

Lemma checker_sound_witness :
  sat_permission demo_pta [100] [] 0 (PermissionLevel 3 1).
Proof.
  refine (proj1 (checker_sound demo_pta [100] [] 0 (λ p a H, proj1 (demo_pta_Ok p a H))
    (λ p a H, proj2 (demo_pta_Ok p a H)) 6 [false]
    {| used_marks := [true];
       cached := {[ PermissionLevel 3 1 := permission_satisfied ]} |}) _ _).
  vm_compute. reflexivity.
Defined.

Lemma checker_total_witness :
  ∃ b st, satisfied_authority demo_pta [100] [] 0 6 demo_authority [false] None = Ok (b, st) ∧
    marks_grow [false] (used_marks st) ∧ (b = false → used_marks st = [false]).
Proof.
  apply (checker_total demo_pta [100] [] 0).
  - intros p e [Ha Hp]. unfold demo_pta.
    rewrite (proj2 (Z.eqb_neq _ _) Ha), (proj2 (Z.eqb_neq _ _) Hp).
    repeat case_bool_decide; intros; simplify_eq/=; congruence.
  - intros p a. unfold demo_pta. destruct (_ || _); repeat case_bool_decide; intros;
      simplify_eq; repeat constructor; done.
  - repeat constructor; done.
Defined.

Lemma flat_complete_witness :
  let a := authority_of_key 100 60 in
  ∃ b st, satisfied_authority demo_pta [100] [] 60000000 0 a [false] None = Ok (b, st) ∧
    (b = true ↔ sat_authority demo_pta [100] [] 60000000 a).
Proof.
  intros a. apply (flat_complete demo_pta [100] [] 60000000).
  - vm_compute. reflexivity.
  - repeat split; repeat constructor; vm_compute; congruence.
  - reflexivity.
Defined.

(** The cache outlives the marks of used keys: when an authority fails
    after one of its permissions was satisfied, the marks are undone but the
    permission stays cached as satisfied.  The permission of account 1 is then
    granted thanks to key 100 while the key counts as unused, and the same
    request without the key is refused. *)
Theorem cached_permission_loses_key :
  (∃ st, satisfied_level demo_pta [100] [] 0 6 (PermissionLevel 1 1) [false] None
           = Ok (true, st) ∧
         used_keys [100] (used_marks st) = [] ∧ all_keys_used (used_marks st) = false) ∧
  (∃ st, satisfied_level demo_pta [] [] 0 6 (PermissionLevel 1 1) [] None = Ok (false, st)).
Proof.
  split.
  - eexists. split; [vm_compute; reflexivity|]. vm_compute. done.
  - eexists. vm_compute. reflexivity.
Qed.
