(* ===== verification/Permissions.v ===== *)
(** * Permissions and authorization checks
    ([permission_object.hpp], [permission_link_object.hpp],
    [authorization_manager.cpp])

    The permissions of an account form a tree under [owner]; a permission may
    act for its descendants.  The manager creates, changes and removes
    permissions, finds the permission an action needs, and checks that a
    transaction's declared authorizations are relevant and satisfied.  The
    callback [checktime], which may end a check when its time is up, is the
    default one that does nothing. *)

From S2P Require Import Prelude Chainbase Names Config Authority AuthorityChecker.
Local Open Scope Z_scope.

(** ** Data *)
Record permission_object := {
  id : Z; usage_id : Z; parent : Z; owner : Z; name : Z; last_updated : Z; auth : authority }.

(** [permission_link_object], keyed by account, code and message type. *)
Record permission_link_object := { required_permission : Z }.

(** The deferred transactions of index [by_trx_id]: sender, dates, and the
    authorizations of the actions of the unpacked transaction. *)
Record generated_transaction := {
  sender : Z; delay_until : Z; published : Z; gen_authorizations : list (list permission_level) }.

(** The objects the manager works on.  [permissions] is the index [by_owner];
    ids come from a counter, as [chainbase] assigns them. *)
Record auth_db := AuthDb {
  permissions : gmap (Z * Z) permission_object; next_id : Z;
  permission_usages : gmap Z Z; next_usage_id : Z;
  links : gmap (Z * Z * Z) permission_link_object;
  generated : gmap Z generated_transaction }.

(** What the manager reads from the controller. *)
Record control := {
  pending_block_time : Z;
  fix_linkauth_restriction : bool;
  max_transaction_delay : Z;
  max_authority_depth : Z }.

(** The index [by_id]. *)
Definition find_by_id (d : auth_db) (i : Z) : option permission_object :=
  List.find (λ o, id o =? i) (snd <$> map_to_list (permissions d)).

(** ** The permission tree *)

(** The walk up the parents: [p] is the object [parent] points to.  A
    dereferenced end iterator is undefined. *)
Fixpoint satisfies_loop (fuel : nat) (d : auth_db) (self : Z) (p : permission_object) :
    result bool :=
  match fuel with
  | O => Throw out_of_fuel
  | S fuel =>
      if self =? parent p then Ok true
      else if parent p =? 0 then Ok false
      else p ← of_option undefined_behaviour (find_by_id d (parent p));
           satisfies_loop fuel d self p
  end.

(** [permission_object::satisfies]; ids decrease along the walk. *)
Definition satisfies (d : auth_db) (self other : permission_object) : result bool :=
  if negb (owner self =? owner other) then Ok false
  else if (id self =? id other) || (id self =? parent other) then Ok true
  else p ← of_option undefined_behaviour (find_by_id d (parent other));
       satisfies_loop (S (Z.to_nat (id p))) d (id self) p.

(** Authorizations to be satisfied, each with a delay. *)
Abbreviation to_satisfy := (gmap permission_level Z).

Section manager.
Context {db : Chainbase}.

(** [create_permission]; [creation_time] is [initial_creation_time], or the
    time of the pending block when it is the epoch. *)
Definition create_permission (c : control) (d : auth_db) (account nm par : Z) (a : authority)
    (initial_creation_time : Z) : result (auth_db * permission_object) :=
  let creation_time :=
    if initial_creation_time =? 0 then pending_block_time c else initial_creation_time in
  us ← db_create (permission_usages d) (next_usage_id d) creation_time;
  let perm := {| id := next_id d; usage_id := next_usage_id d; parent := par;
                 owner := account; name := nm; last_updated := creation_time; auth := a |} in
  ps ← db_create (permissions d) (account, nm) perm;
  Ok (AuthDb ps (next_id d + 1) us (next_usage_id d + 1) (links d) (generated d), perm).

Definition modify_permission (c : control) (d : auth_db) (p : permission_object)
    (a : authority) : result auth_db :=
  ps ← db_modify (permissions d) (owner p, name p) (λ po,
    Ok {| id := id po; usage_id := usage_id po; parent := parent po; owner := owner po;
          name := name po; last_updated := pending_block_time c; auth := a |});
  Ok (AuthDb ps (next_id d) (permission_usages d) (next_usage_id d) (links d) (generated d)).

(** The range of [by_parent] for an id is empty. *)
Definition has_children (d : auth_db) (i : Z) : bool :=
  existsb (λ o, parent o =? i) (snd <$> map_to_list (permissions d)).

Definition remove_permission (d : auth_db) (p : permission_object) : result auth_db :=
  _ ← EOS_ASSERT (negb (has_children d (id p))) action_validate_exception;
  _ ← db_get (permission_usages d) (usage_id p);
  Ok (AuthDb (db_remove (permissions d) (owner p, name p)) (next_id d)
        (db_remove (permission_usages d) (usage_id p)) (next_usage_id d)
        (links d) (generated d)).

Definition update_permission_usage (c : control) (d : auth_db) (p : permission_object) :
    result auth_db :=
  us ← db_modify (permission_usages d) (usage_id p) (λ _, Ok (pending_block_time c));
  Ok (AuthDb (permissions d) (next_id d) us (next_usage_id d) (links d) (generated d)).

Definition get_permission_last_used (d : auth_db) (p : permission_object) : result Z :=
  db_get (permission_usages d) (usage_id p).

Definition find_permission (d : auth_db) (level : permission_level) :
    result (option permission_object) :=
  EOS_RETHROW_EXCEPTIONS permission_query_exception
    (_ ← EOS_ASSERT (negb (name_empty (actor level)) && negb (name_empty (permission level)))
           invalid_permission;
     Ok (db_find (permissions d) (actor level, permission level))).

Definition get_permission (d : auth_db) (level : permission_level) :
    result permission_object :=
  EOS_RETHROW_EXCEPTIONS permission_query_exception
    (_ ← EOS_ASSERT (negb (name_empty (actor level)) && negb (name_empty (permission level)))
           invalid_permission;
     db_get (permissions d) (actor level, permission level)).

Definition lookup_linked_permission (d : auth_db) (authorizer_account scope act_name : Z) :
    option Z :=
  let link := match db_find (links d) (authorizer_account, scope, act_name) with
              | None => db_find (links d) (authorizer_account, scope, 0)
              | Some l => Some l
              end in
  required_permission <$> link.

Definition is_native_auth_action (act_name : Z) : bool :=
  (act_name =? N_ "updateauth") || (act_name =? N_ "deleteauth")
  || (act_name =? N_ "linkauth") || (act_name =? N_ "unlinkauth")
  || (act_name =? N_ "canceldelay").

Definition lookup_minimum_permission (d : auth_db) (authorizer_account scope act_name : Z) :
    result (option Z) :=
  _ ← (if scope =? system_account_name
       then EOS_ASSERT (negb (is_native_auth_action act_name)) unlinkable_min_permission_action
       else Ok tt);
  Ok (match lookup_linked_permission d authorizer_account scope act_name with
      | None => Some active_name
      | Some linked => if linked =? eosio_any_name then None else Some linked
      end).

(** ** Authorization of the native actions *)

(** The payloads, as [contract_types.hpp] declares them. *)
Record updateauth := { up_account : Z; up_permission : Z; up_parent : Z; up_auth : authority }.
Record deleteauth := { del_account : Z; del_permission : Z }.
Record linkauth := { lk_account : Z; lk_code : Z; lk_type : Z; lk_requirement : Z }.
Record unlinkauth := { ul_account : Z; ul_code : Z; ul_type : Z }.
Record canceldelay := { canceling_auth : permission_level; cancel_trx_id : Z }.

(** [auths.size() == 1] and [auths[0]]. *)
Definition single_auth (auths : list permission_level) : result permission_level :=
  match auths with
  | [a] => Ok a
  | _ => Throw irrelevant_auth_exception
  end.

Definition assert_satisfies (d : auth_db) (a : permission_level) (min : permission_object) :
    result unit :=
  p ← get_permission d a;
  b ← satisfies d p min;
  EOS_ASSERT b irrelevant_auth_exception.

Definition check_updateauth_authorization (d : auth_db) (update : updateauth)
    (auths : list permission_level) : result unit :=
  a ← single_auth auths;
  _ ← EOS_ASSERT (actor a =? up_account update) irrelevant_auth_exception;
  found ← find_permission d (PermissionLevel (up_account update) (up_permission update));
  min ← match found with
        | Some p => Ok p
        | None => get_permission d (PermissionLevel (up_account update) (up_parent update))
        end;
  assert_satisfies d a min.

Definition check_deleteauth_authorization (d : auth_db) (del : deleteauth)
    (auths : list permission_level) : result unit :=
  a ← single_auth auths;
  _ ← EOS_ASSERT (actor a =? del_account del) irrelevant_auth_exception;
  min ← get_permission d (PermissionLevel (del_account del) (del_permission del));
  assert_satisfies d a min.

Definition check_linkauth_authorization (c : control) (d : auth_db) (link : linkauth)
    (auths : list permission_level) : result unit :=
  a ← single_auth auths;
  _ ← EOS_ASSERT (actor a =? lk_account link) irrelevant_auth_exception;
  _ ← (if (lk_code link =? system_account_name) || negb (fix_linkauth_restriction c)
       then EOS_ASSERT (negb (is_native_auth_action (lk_type link))) action_validate_exception
       else Ok tt);
  linked ← lookup_minimum_permission d (lk_account link) (lk_code link) (lk_type link);
  match linked with
  | None => Ok tt
  | Some n =>
      p ← get_permission d a;
      min ← get_permission d (PermissionLevel (lk_account link) n);
      b ← satisfies d p min;
      EOS_ASSERT b irrelevant_auth_exception
  end.

Definition check_unlinkauth_authorization (d : auth_db) (unlink : unlinkauth)
    (auths : list permission_level) : result unit :=
  a ← single_auth auths;
  _ ← EOS_ASSERT (actor a =? ul_account unlink) irrelevant_auth_exception;
  match lookup_linked_permission d (ul_account unlink) (ul_code unlink) (ul_type unlink) with
  | None => Throw transaction_exception
  | Some n =>
      if n =? eosio_any_name then Ok tt else
      p ← get_permission d a;
      min ← get_permission d (PermissionLevel (ul_account unlink) n);
      b ← satisfies d p min;
      EOS_ASSERT b irrelevant_auth_exception
  end.

(** Returns the delay of the cancelled transaction. *)
Definition check_canceldelay_authorization (d : auth_db) (cancel : canceldelay)
    (auths : list permission_level) : result Z :=
  a ← single_auth auths;
  p ← get_permission d a;
  min ← get_permission d (canceling_auth cancel);
  b ← satisfies d p min;
  _ ← EOS_ASSERT b irrelevant_auth_exception;
  match generated d !! cancel_trx_id cancel with
  | None => Throw tx_not_found
  | Some gtx =>
      _ ← EOS_ASSERT (sender gtx =? 0) tx_not_found;
      _ ← EOS_ASSERT (existsb (existsb (λ x, bool_decide (x = canceling_auth cancel)))
                        (gen_authorizations gtx)) action_validate_exception;
      Ok (delay_until gtx - published gtx)
  end.

(** ** Transactions *)

(** An action as the check sees it; [data] is what [data_as<T>] unpacks, [DOther]
    if none of these payloads does. *)
Inductive native_data :=
  | DUpdateauth (u : updateauth) | DDeleteauth (x : deleteauth) | DLinkauth (l : linkauth)
  | DUnlinkauth (u : unlinkauth) | DCanceldelay (x : canceldelay) | DOther.
Record action := {
  act_account : Z; act_name : Z; authorization : list permission_level; data : native_data }.

(** [act.data_as<T>()] on data that is not a [T] throws. *)
Definition bad_data {A} : result A := Throw action_type_exception.

(** The native actions with their own rule: whether there is one, and the delay
    the action's authorizations are checked with. *)
Definition check_native_action (c : control) (d : auth_db) (act : action) (delay : Z) :
    result (bool * Z) :=
  if negb (act_account act =? system_account_name) then Ok (false, delay)
  else if act_name act =? N_ "updateauth" then
    match data act with
    | DUpdateauth u =>
        _ ← check_updateauth_authorization d u (authorization act); Ok (true, delay)
    | _ => bad_data end
  else if act_name act =? N_ "deleteauth" then
    match data act with
    | DDeleteauth x =>
        _ ← check_deleteauth_authorization d x (authorization act); Ok (true, delay)
    | _ => bad_data end
  else if act_name act =? N_ "linkauth" then
    match data act with
    | DLinkauth l =>
        _ ← check_linkauth_authorization c d l (authorization act); Ok (true, delay)
    | _ => bad_data end
  else if act_name act =? N_ "unlinkauth" then
    match data act with
    | DUnlinkauth u =>
        _ ← check_unlinkauth_authorization d u (authorization act); Ok (true, delay)
    | _ => bad_data end
  else if act_name act =? N_ "canceldelay" then
    match data act with
    | DCanceldelay x =>
        dl ← check_canceldelay_authorization d x (authorization act);
        Ok (true, Z.max delay dl)
    | _ => bad_data end
  else Ok (false, delay).

(** The body of the loop over an action's declared authorizations. *)
Definition declare_auth (d : auth_db) (act : action) (special_case : bool) (delay : Z)
    (satisfied_authorizations : list permission_level) (m : to_satisfy)
    (declared_auth : permission_level) : result to_satisfy :=
  _ ← (if special_case then Ok tt else
       n ← lookup_minimum_permission d (actor declared_auth) (act_account act) (act_name act);
       match n with
       | None => Ok tt
       | Some n =>
           min ← get_permission d (PermissionLevel (actor declared_auth) n);
           assert_satisfies d declared_auth min
       end);
  Ok (if bool_decide (declared_auth ∈ satisfied_authorizations) then m
      else match m !! declared_auth with
           | None => <[declared_auth := delay]> m
           | Some old => if delay <? old then <[declared_auth := delay]> m else m
           end).

Definition declare_action (c : control) (d : auth_db) (effective_delay : Z)
    (satisfied_authorizations : list permission_level) (m : to_satisfy) (act : action) :
    result to_satisfy :=
  r ← check_native_action c d act effective_delay;
  let '(special_case, delay) := r in
  fold_res (declare_auth d act special_case delay satisfied_authorizations) m (authorization act).

Definition microseconds_maximum : Z := s64_max.

Definition effective_provided_delay (c : control) (provided_delay : Z) : Z :=
  if max_transaction_delay c * 1000000 <=? provided_delay then microseconds_maximum
  else provided_delay.

Definition permission_to_authority (d : auth_db) (p : permission_level) : result authority :=
  o ← get_permission d p; Ok (auth o).

(** [map<permission_level, ...>] is traversed in ascending order. *)
Definition level_le (a b : permission_level * Z) : Prop := permission_level_lt b.1 a.1 = false.
#[global] Instance level_le_dec : RelDecision level_le := λ a b, bool_eq_dec _ _.

Definition check_satisfied (c : control) (d : auth_db) (provided_keys : list public_key)
    (provided_permissions : list permission_level) (used : list bool)
    (p : permission_level * Z) : result (list bool) :=
  r ← satisfied_level (permission_to_authority d) provided_keys provided_permissions p.2
        (Z.to_nat (max_authority_depth c)) p.1 used None;
  let '(ok, st) := r in
  _ ← EOS_ASSERT ok unsatisfied_authorization;
  Ok (used_marks st).

Definition check_authorization (c : control) (d : auth_db) (actions : list action)
    (provided_keys : list public_key) (provided_permissions : list permission_level)
    (provided_delay : Z) (allow_unused_keys : bool)
    (satisfied_authorizations : list permission_level) : result unit :=
  let delay := effective_provided_delay c provided_delay in
  m ← fold_res (declare_action c d delay satisfied_authorizations) ∅ actions;
  used ← fold_res (check_satisfied c d provided_keys provided_permissions)
           (initial_used_keys provided_keys) (merge_sort level_le (map_to_list m));
  if allow_unused_keys then Ok tt else EOS_ASSERT (all_keys_used used) tx_irrelevant_sig.

(** The overload for one permission. *)
Definition check_authorization_permission (c : control) (d : auth_db) (account perm : Z)
    (provided_keys : list public_key) (provided_permissions : list permission_level)
    (provided_delay : Z) (allow_unused_keys : bool) : result unit :=
  r ← satisfied_level (permission_to_authority d) provided_keys provided_permissions
        (effective_provided_delay c provided_delay) (Z.to_nat (max_authority_depth c))
        (PermissionLevel account perm) (initial_used_keys provided_keys) None;
  let '(ok, st) := r in
  _ ← EOS_ASSERT ok unsatisfied_authorization;
  if allow_unused_keys then Ok tt
  else EOS_ASSERT (all_keys_used (used_marks st)) tx_irrelevant_sig.

Definition get_required_keys (c : control) (d : auth_db) (actions : list action)
    (candidate_keys : list public_key) (provided_delay : Z) : result (list public_key) :=
  used ← fold_res (λ used a,
           fold_res (λ used l, check_satisfied c d candidate_keys [] used (l, provided_delay))
             used (authorization a))
           (initial_used_keys candidate_keys) actions;
  Ok (used_keys candidate_keys used).
End manager.

(** The database as the controller initialises it: id 0 is reserved by an
    object without owner and name. *)
Definition reserved_permission : permission_object :=
  {| id := 0; usage_id := 0; parent := 0; owner := 0; name := 0; last_updated := 0;
     auth := {| threshold := 0; keys := []; accounts := []; waits := [] |} |}.
Definition initial_auth_db : auth_db :=
  AuthDb {[ (0, 0) := reserved_permission ]} 1 ∅ 0 ∅ ∅.

(** ** The tree invariant *)
Record perm_inv (d : auth_db) : Prop := {
  pi_key : ∀ k o, permissions d !! k = Some o → k = (owner o, name o);
  pi_range : ∀ k o, permissions d !! k = Some o → 0 ≤ id o < next_id d;
  pi_inj : ∀ k1 o1 k2 o2, permissions d !! k1 = Some o1 → permissions d !! k2 = Some o2 →
    id o1 = id o2 → k1 = k2;
  pi_root : ∃ o, permissions d !! (0, 0) = Some o ∧ id o = 0 ∧ parent o = 0;
  pi_parent : ∀ k o, permissions d !! k = Some o → id o ≠ 0 →
    0 ≤ parent o < id o ∧
    ∃ k' o', permissions d !! k' = Some o' ∧ id o' = parent o ∧
             (parent o ≠ 0 → owner o' = owner o);
  pi_auth : ∀ k o, permissions d !! k = Some o → authority_ok (auth o) }.

Lemma find_by_id_Some d i o : perm_inv d →
  find_by_id d i = Some o ↔ ∃ k, permissions d !! k = Some o ∧ id o = i.
Proof.
  intros Hinv. unfold find_by_id. split.
  - intros [Hin Hi]%List.find_some. apply list_elem_of_In, list_elem_of_fmap in Hin as ([k o'] & -> & Hk).
    apply elem_of_map_to_list in Hk. exists k. split; [done|]. simpl in *. lia.
  - intros (k & Hk & Hi). destruct (List.find _ _) as [o'|] eqn:E.
    + apply List.find_some in E as [Hin Hi'].
      apply list_elem_of_In, list_elem_of_fmap in Hin as ([k' o''] & -> & Hk').
      apply elem_of_map_to_list in Hk'. simpl in *. assert (id o'' = id o) as Hid by lia.
      rewrite (pi_inj d Hinv _ _ _ _ Hk' Hk Hid) in Hk'. congruence.
    + eapply List.find_none in E; [by rewrite (proj2 (Z.eqb_eq _ _) Hi) in E|].
      apply list_elem_of_In, list_elem_of_fmap. exists (k, o). split; [done|].
      by apply elem_of_map_to_list.
Qed.

(** [i] is the id of a proper ancestor of [o]. *)
Inductive ancestor (d : auth_db) (i : Z) : permission_object → Prop :=
  | ancestor_parent o : i = parent o → ancestor d i o
  | ancestor_up o p : find_by_id d (parent o) = Some p → ancestor d i p → ancestor d i o.

Lemma ancestor_root d i o : perm_inv d → i ≠ 0 → parent o = 0 → ¬ ancestor d i o.
Proof.
  intros Hinv Hi Hp Ha. revert Hp.
  induction Ha as [o ->|o p Hf _ IH]; intros Hp; [done|]. apply IH. rewrite Hp in Hf.
  destruct (pi_root d Hinv) as (r & Hr & Hr0 & Hrp).
  assert (find_by_id d 0 = Some r) by (apply find_by_id_Some; eauto). congruence.
Qed.

Lemma parent_found d k o : perm_inv d → permissions d !! k = Some o →
  ∃ p, find_by_id d (parent o) = Some p ∧ (∃ k', permissions d !! k' = Some p) ∧
    0 ≤ id p ∧ (id o ≠ 0 → id p < id o).
Proof.
  intros Hinv Ho. destruct (decide (id o = 0)) as [E|E].
  - destruct (pi_root d Hinv) as (r & Hr & Hr0 & Hrp).
    assert (k = (0, 0)) as -> by (eapply pi_inj; [done|done|done|congruence]).
    assert (o = r) as -> by congruence. exists r. rewrite Hrp.
    split_and!; [apply find_by_id_Some; eauto|eauto|lia|done].
  - destruct (pi_parent d Hinv k o Ho E) as (Hr & k' & p & Hp & Hip & _).
    exists p. split_and!; [apply find_by_id_Some; eauto|eauto|lia|lia].
Qed.

Lemma satisfies_loop_spec fuel : ∀ d i k p, perm_inv d →
  permissions d !! k = Some p → id p < Z.of_nat fuel →
  ∃ b, satisfies_loop fuel d i p = Ok b ∧ (b = true ↔ ancestor d i p).
Proof.
  induction fuel as [|fuel IH]; intros d i k p Hinv Hp Hf; cbn [satisfies_loop].
  { pose proof (pi_range d Hinv _ _ Hp). lia. }
  destruct (Z.eqb_spec i (parent p)) as [->|Hne].
  { exists true. split; [done|]. split; [|done]. intros _. by constructor. }
  destruct (Z.eqb_spec (parent p) 0) as [H0|H0].
  { exists false. split; [done|]. split; [done|]. intros Ha.
    by apply (ancestor_root d i p) in Ha; [|done|congruence|done]. }
  destruct (parent_found d k p Hinv Hp) as (q & Hq & (k' & Hk') & Hq0 & Hlt).
  rewrite Hq. cbn [of_option mbind result_bind].
  assert (id p ≠ 0) as Hp0.
  { intros E. destruct (pi_root d Hinv) as (r & Hr & Hr0 & Hrp).
    assert (k = (0, 0)) as -> by (eapply pi_inj; [done|done|done|congruence]). congruence. }
  destruct (IH d i k' q Hinv Hk') as (b & Hb & Hiff); [specialize (Hlt Hp0); lia|].
  exists b. split; [done|]. rewrite Hiff. split; [by apply ancestor_up|].
  inversion 1; subst; [done|]. congruence.
Qed.

Lemma satisfies_spec d k k' self other : perm_inv d →
  permissions d !! k = Some self → permissions d !! k' = Some other →
  ∃ b, satisfies d self other = Ok b ∧
    (b = true ↔ owner self = owner other ∧
       (id self = id other ∨ ancestor d (id self) other)).
Proof.
  intros Hinv Hs Ho. unfold satisfies.
  destruct (Z.eqb_spec (owner self) (owner other)) as [E|E]; cbn [negb];
    [|exists false; naive_solver].
  destruct (Z.eqb_spec (id self) (id other)); cbn [orb]; [exists true; naive_solver|].
  destruct (Z.eqb_spec (id self) (parent other)) as [Hp|Hp].
  { exists true. split; [done|]. split; [|done]. intros _. split; [done|]. right. by constructor. }
  destruct (parent_found d k' other Hinv Ho) as (q & Hq & (kq & Hkq) & Hq0 & _).
  rewrite Hq. cbn [of_option mbind result_bind].
  destruct (satisfies_loop_spec (S (Z.to_nat (id q))) d (id self) kq q Hinv Hkq)
    as (b & Hb & Hiff); [lia|].
  exists b. split; [done|]. rewrite Hiff. split.
  - intros Ha. split; [done|]. right. by eapply ancestor_up.
  - intros [_ [?|Ha]]; [done|]. inversion Ha; subst; [done|congruence].
Qed.

Section proofs.
Context {db : Chainbase} {laws : ChainbaseLaws db}.

Inductive perm_step (c : control) : auth_db → auth_db → Prop :=
  | step_create d account nm par a t d' p :
      (par = 0 ∨ ∃ k o, permissions d !! k = Some o ∧ id o = par ∧ owner o = account) →
      authority_ok a →
      create_permission c d account nm par a t = Ok (d', p) → perm_step c d d'
  | step_modify d k p a d' :
      permissions d !! k = Some p → authority_ok a →
      modify_permission c d p a = Ok d' → perm_step c d d'
  | step_remove d k p d' :
      permissions d !! k = Some p → remove_permission d p = Ok d' → perm_step c d d'
  | step_usage d p d' : update_permission_usage c d p = Ok d' → perm_step c d d'
  | step_other_indices d ls gs :
      perm_step c d (AuthDb (permissions d) (next_id d) (permission_usages d)
                       (next_usage_id d) ls gs).

Lemma perm_inv_frame d d' : permissions d' = permissions d → next_id d' = next_id d →
  perm_inv d → perm_inv d'.
Proof. intros Ep En [? ? ? ? ? ?]. split; rewrite ?Ep, ?En; eauto. Qed.

Lemma create_permission_inv c d account nm par a t d' p :
  perm_inv d →
  (par = 0 ∨ ∃ k o, permissions d !! k = Some o ∧ id o = par ∧ owner o = account) →
  authority_ok a → create_permission c d account nm par a t = Ok (d', p) → perm_inv d'.
Proof.
  intros [Hkey Hrange Hinj Hroot Hpar Hauth] Hp Ha H. unfold create_permission in H.
  apply bind_Ok in H as (us & _ & H).
  apply bind_Ok in H as (ps & [Hnone ->]%db_create_Ok & [= <- _]).
  destruct Hroot as (r & Hr & Hr0 & Hrp).
  assert (account ≠ 0 ∨ nm ≠ 0) as Hne
    by (destruct (decide (account = 0)), (decide (nm = 0)); subst; [congruence|auto..]).
  assert (0 < next_id d) as Hpos by (pose proof (Hrange _ _ Hr); lia).
  assert (∀ k o, permissions d !! k = Some o → k ≠ (account, nm)) as Hfresh by congruence.
  split; cbn [permissions next_id].
  - intros k o [[<- <-]|[_ Hk]]%lookup_insert_Some; [done|eauto].
  - intros k o [[<- <-]|[_ Hk]]%lookup_insert_Some; simpl; [lia|].
    pose proof (Hrange _ _ Hk). lia.
  - intros k1 o1 k2 o2 [[<- <-]|[_ H1]]%lookup_insert_Some [[<- <-]|[_ H2]]%lookup_insert_Some;
      simpl; intros E; [done| | |by eapply Hinj].
    + pose proof (Hrange _ _ H2). lia.
    + pose proof (Hrange _ _ H1). lia.
  - exists r. split; [|done]. apply lookup_insert_Some. right. split; [|done].
    intros [= ? ?]. destruct Hne; congruence.
  - intros k o [[<- <-]|[_ Hk]]%lookup_insert_Some H0; simpl in *.
    + assert (∃ k' o', permissions d !! k' = Some o' ∧ id o' = par ∧ (par ≠ 0 → owner o' = account))
        as (k' & o' & Hk' & Hi & Ho).
      { destruct Hp as [->|(k & o & ? & ? & ?)]; 
          [exists (0, 0), r|exists k, o]; naive_solver. }
      pose proof (Hrange _ _ Hk'). split; [lia|]. exists k', o'. split; [|auto].
      apply lookup_insert_Some. right. split; [|done]. by apply not_eq_sym, Hfresh with o'.
    + destruct (Hpar _ _ Hk H0) as (Hlt & k' & o' & Hk' & Hrest). split; [done|].
      exists k', o'. split; [|done]. apply lookup_insert_Some. right. split; [|done].
      by apply not_eq_sym, Hfresh with o'.
  - intros k o [[<- <-]|[_ Hk]]%lookup_insert_Some; [done|eauto].
Qed.

Lemma modify_permission_inv c d k p a d' : perm_inv d → permissions d !! k = Some p →
  authority_ok a → modify_permission c d p a = Ok d' → perm_inv d'.
Proof.
  intros [Hkey Hrange Hinj Hroot Hpar Hauth] Hp Ha H. unfold modify_permission in H.
  apply bind_Ok in H as (ps & (v & v' & Hv & [= <-] & ->)%db_modify_Ok & [= <-]).
  rewrite <- (Hkey _ _ Hp), Hp in Hv. injection Hv as <-. rewrite <- (Hkey _ _ Hp).
  set (p' := {| id := id p; auth := a |}).
  assert (∀ q o, <[k:=p']> (permissions d) !! q = Some o →
    ∃ o0, permissions d !! q = Some o0 ∧ id o = id o0 ∧ parent o = parent o0 ∧
      owner o = owner o0 ∧ name o = name o0 ∧ (auth o = a ∨ o = o0)) as Hlook.
  { intros q o [[<- <-]|[_ Hq]]%lookup_insert_Some; [exists p|exists o]; naive_solver. }
  assert (∀ q o0, permissions d !! q = Some o0 →
    ∃ o, <[k:=p']> (permissions d) !! q = Some o ∧ id o = id o0 ∧ parent o = parent o0 ∧
      owner o = owner o0) as Hlook'.
  { intros q o0 Hq. destruct (decide (k = q)) as [<-|].
    - exists p'. rewrite lookup_insert_eq. naive_solver.
    - exists o0. by rewrite lookup_insert_ne. }
  split; cbn [permissions next_id].
  - intros q o (o0 & Hq & _ & _ & -> & -> & _)%Hlook. eauto.
  - intros q o (o0 & Hq & -> & _)%Hlook. eauto.
  - intros k1 o1 k2 o2 (o1' & H1 & -> & _)%Hlook (o2' & H2 & -> & _)%Hlook. eauto.
  - destruct Hroot as (r & (r' & Hr' & E1 & E2 & _)%Hlook' & Hr0 & Hrp).
    exists r'. rewrite E1, E2. auto.
  - intros q o (o0 & Hq & -> & -> & -> & _)%Hlook H0.
    destruct (Hpar _ _ Hq H0) as (Hlt & k' & o' & Hk' & Hi & Ho). split; [done|].
    apply Hlook' in Hk' as (o'' & Hk'' & Hi' & _ & Ho').
    exists k', o''. rewrite Hi', Ho'. auto.
  - intros q o (o0 & Hq & _ & _ & _ & _ & [->| ->])%Hlook; eauto.
Qed.

Lemma has_children_false d i : has_children d i = false →
  ∀ k o, permissions d !! k = Some o → parent o ≠ i.
Proof.
  unfold has_children. intros H k o Ho E.
  assert (existsb (λ o, parent o =? i) (snd <$> map_to_list (permissions d)) = true); [|congruence].
  apply existsb_exists. exists o. split; [|by apply Z.eqb_eq].
  apply list_elem_of_In, list_elem_of_fmap. exists (k, o). split; [done|].
  by apply elem_of_map_to_list.
Qed.

Lemma remove_permission_inv d k p d' : perm_inv d → permissions d !! k = Some p →
  remove_permission d p = Ok d' → perm_inv d'.
Proof.
  intros Hinv Hp H. unfold remove_permission in H.
  apply bind_Ok in H as (? & Hc%EOS_ASSERT_Ok%negb_true_iff & H).
  apply bind_Ok in H as (? & _ & [= <-]).
  pose proof (has_children_false d (id p) Hc) as Hno. rewrite db_remove_spec.
  rewrite <- (pi_key d Hinv k p Hp). destruct Hinv as [Hkey Hrange Hinj Hroot Hpar Hauth].
  split; cbn [permissions next_id].
  - intros q o [_ Hq]%lookup_delete_Some. eauto.
  - intros q o [_ Hq]%lookup_delete_Some. eauto.
  - intros k1 o1 k2 o2 [_ H1]%lookup_delete_Some [_ H2]%lookup_delete_Some. eauto.
  - destruct Hroot as (r & Hr & Hr0 & Hrp). exists r. split; [|done].
    apply lookup_delete_Some. split; [|done]. intros ->.
    apply (Hno _ _ Hr). congruence.
  - intros q o [_ Hq]%lookup_delete_Some H0.
    destruct (Hpar _ _ Hq H0) as (Hlt & k' & o' & Hk' & Hi & Ho). split; [done|].
    exists k', o'. split; [|done]. apply lookup_delete_Some. split; [|done]. intros <-.
    apply (Hno _ _ Hq). congruence.
  - intros q o [_ Hq]%lookup_delete_Some. eauto.
Qed.

Lemma perm_step_inv c d d' : perm_inv d → perm_step c d d' → perm_inv d'.
Proof.
  intros Hinv Hs. revert Hinv.
  destruct Hs as [d account nm par a t d' p Hp Ha H|d k p a d' Hp Ha H|d k p d' Hp H|d p d' H|];
    intros Hinv.
  - by eapply create_permission_inv.
  - by eapply modify_permission_inv.
  - by eapply remove_permission_inv.
  - unfold update_permission_usage in H. res_inv. eapply perm_inv_frame, Hinv; done.
  - eapply perm_inv_frame, Hinv; done.
Qed.

Lemma initial_auth_db_inv : perm_inv initial_auth_db.
Proof.
  split; cbn [initial_auth_db permissions next_id].
  - intros k o [<- <-]%lookup_singleton_Some. done.
  - intros k o [<- <-]%lookup_singleton_Some. simpl. lia.
  - intros k1 o1 k2 o2 [<- _]%lookup_singleton_Some [<- _]%lookup_singleton_Some. done.
  - exists reserved_permission. by rewrite lookup_singleton_eq.
  - intros k o [<- <-]%lookup_singleton_Some. done.
  - intros k o [<- <-]%lookup_singleton_Some.
    repeat split; repeat constructor; vm_compute; congruence.
Qed.

Lemma perm_reachable_inv c d : rtc (perm_step c) initial_auth_db d → perm_inv d.
Proof.
  intros H. pose proof initial_auth_db_inv as Hinv. revert Hinv.
  induction H as [|d1 d2 d3 Hs _ IH]; [done|]. intros Hinv. by eapply IH, perm_step_inv.
Qed.

(** C33.  In every reachable permission database, [satisfies] returns, never
    dereferencing a missing parent, and tells exactly whether a permission is
    the other one or one of its ancestors in the tree of the same account. *)
Theorem satisfies_iff_ancestor c d k k' self other :
  rtc (perm_step c) initial_auth_db d →
  permissions d !! k = Some self → permissions d !! k' = Some other →
  ∃ b, satisfies d self other = Ok b ∧
    (b = true ↔ owner self = owner other ∧
       (id self = id other ∨ ancestor d (id self) other)).
Proof. intros Hr. by apply satisfies_spec, (perm_reachable_inv c). Qed.

(** ** Soundness of the transaction check *)
Lemma get_permission_Ok d l p : get_permission d l = Ok p ↔
  actor l ≠ 0 ∧ permission l ≠ 0 ∧ permissions d !! (actor l, permission l) = Some p.
Proof.
  unfold get_permission, name_empty. rewrite db_get_spec.
  destruct (Z.eqb_spec 0 (actor l)), (Z.eqb_spec 0 (permission l)); simpl; try naive_solver.
  destruct (permissions d !! _); simpl; naive_solver.
Qed.

Lemma pta_spec d : perm_inv d →
  (∀ p a, permission_to_authority d p = Ok a → authority_ok a) ∧
  (∀ p a, permission_to_authority d p = Ok a → permission p ≠ 0).
Proof.
  intros Hinv. unfold permission_to_authority. split; intros p a H;
    apply bind_Ok in H as (o & (H1 & H2 & Ho)%get_permission_Ok & [= <-]); [|done].
  by eapply pi_auth.
Qed.

(** [l] may act for the permission [min]. *)
Definition acts_for (d : auth_db) (l min : permission_level) : Prop :=
  ∃ self o, get_permission d l = Ok self ∧ get_permission d min = Ok o ∧
    owner self = owner o ∧ (id self = id o ∨ ancestor d (id self) o).

Lemma assert_satisfies_Ok d l min o : perm_inv d → get_permission d min = Ok o →
  assert_satisfies d l o = Ok tt → acts_for d l min.
Proof.
  intros Hinv Hmin H. unfold assert_satisfies in H. apply bind_Ok in H as (self & Hl & H).
  pose proof Hl as (_ & _ & Hs)%get_permission_Ok.
  pose proof Hmin as (_ & _ & Ho)%get_permission_Ok.
  destruct (satisfies_spec d _ _ self o Hinv Hs Ho) as (b & Hb & Hiff). rewrite Hb in H.
  apply bind_Ok in H as (b' & [= <-] & H%EOS_ASSERT_Ok). exists self, o. naive_solver.
Qed.

(** What is known of a declared authorization once it has been collected. *)
Definition covered (sats : list permission_level) (m : to_satisfy) (l : permission_level)
    (delay : Z) : Prop :=
  l ∈ sats ∨ ∃ x, m !! l = Some x ∧ x ≤ delay.

Lemma declare_auth_Ok d act special delay sats m l m' : perm_inv d →
  declare_auth d act special delay sats m l = Ok m' →
  covered sats m' l delay ∧
  (∀ l' x, covered sats m l' x → covered sats m' l' x) ∧
  (special = false → ∀ n,
     lookup_minimum_permission d (actor l) (act_account act) (act_name act) = Ok (Some n) →
     acts_for d l (PermissionLevel (actor l) n)).
Proof.
  intros Hinv H. unfold declare_auth in H. apply bind_Ok in H as ([] & Hrel & [= <-]).
  split; [|split].
  - unfold covered. case_bool_decide as E; [by left|]. right.
    destruct (m !! l) as [old|] eqn:El; [|exists delay; by rewrite lookup_insert_eq].
    destruct (Z.ltb_spec delay old); [exists delay; by rewrite lookup_insert_eq|eauto].
  - unfold covered. intros l' x [?|(y & Hy & Hle)]; [by left|]. right.
    case_bool_decide; [eauto|]. destruct (decide (l' = l)) as [->|Hne].
    + rewrite Hy. destruct (Z.ltb_spec delay y); [|eauto]. exists delay.
      rewrite lookup_insert_eq. split; [done|lia].
    + exists y. split; [|done]. destruct (m !! l) as [old|];
        [destruct (delay <? old)|]; rewrite ?lookup_insert_ne by done; done.
  - intros -> n Hn. rewrite Hn in Hrel. cbn [mbind result_bind] in Hrel.
    apply bind_Ok in Hrel as (o & Ho & Hs). by eapply assert_satisfies_Ok.
Qed.

(** The action's authorization [l] is relevant and will be checked with the
    delay the action has. *)
Definition collected (c : control) (d : auth_db) (delay : Z) (sats : list permission_level)
    (act : action) (m : to_satisfy) : Prop :=
  ∀ l, l ∈ authorization act → ∃ special delay',
    check_native_action c d act delay = Ok (special, delay') ∧ covered sats m l delay' ∧
    (special = false → ∀ n,
       lookup_minimum_permission d (actor l) (act_account act) (act_name act) = Ok (Some n) →
       acts_for d l (PermissionLevel (actor l) n)).

Lemma declare_action_mono c d delay sats m act m' l x : perm_inv d →
  covered sats m l x → declare_action c d delay sats m act = Ok m' → covered sats m' l x.
Proof.
  intros Hinv Hc H. unfold declare_action in H. apply bind_Ok in H as ([special dl] & _ & H).
  revert H. apply (fold_res_inv (λ m, covered sats m l x)); [|done].
  intros s y s' _ Hs Hd. by eapply declare_auth_Ok.
Qed.

Lemma declare_action_Ok c d delay sats m act m' : perm_inv d →
  declare_action c d delay sats m act = Ok m' → collected c d delay sats act m'.
Proof.
  intros Hinv H l Hl. unfold declare_action in H.
  apply bind_Ok in H as ([special dl] & Hn & H). exists special, dl. split; [done|].
  revert l Hl. eapply (fold_res_establish (λ l m, covered sats m l dl ∧ (special = false → ∀ n,
    lookup_minimum_permission d (actor l) (act_account act) (act_name act) = Ok (Some n) →
    acts_for d l (PermissionLevel (actor l) n)))); [| |done].
  - intros s x s' _ Hd. by apply declare_auth_Ok in Hd as (? & _ & ?).
  - intros y s x s' [Hc Hr] Hd. split; [|done]. by eapply declare_auth_Ok.
Qed.

Lemma check_satisfied_Ok c d ks ps used p used' : perm_inv d →
  check_satisfied c d ks ps used p = Ok used' →
  sat_permission (permission_to_authority d) ks ps p.2 p.1.
Proof.
  intros Hinv H. unfold check_satisfied in H. apply bind_Ok in H as ([ok st] & Hs & H).
  apply bind_Ok in H as (? & Hok%EOS_ASSERT_Ok & _). subst ok.
  destruct (pta_spec d Hinv) as [H1 H2].
  by eapply satisfied_level_sound in Hs.
Qed.

(** C8.  Soundness of [check_authorization]: when the check of a transaction
    passes, every authorization declared by every action either was satisfied
    before or is satisfied by the provided keys, levels and delay (in the sense
    of [sat], with the delay [canceldelay] may add), and, but for the native
    actions that have a rule of their own, it may act for the permission the
    account linked to the action. *)
Theorem check_authorization_sound c d actions ks ps delay unused sats act l :
  rtc (perm_step c) initial_auth_db d →
  check_authorization c d actions ks ps delay unused sats = Ok tt →
  act ∈ actions → l ∈ authorization act →
  ∃ special delay',
    check_native_action c d act (effective_provided_delay c delay) = Ok (special, delay') ∧
    (l ∈ sats ∨ sat_permission (permission_to_authority d) ks ps delay' l) ∧
    (special = false → ∀ n,
       lookup_minimum_permission d (actor l) (act_account act) (act_name act) = Ok (Some n) →
       acts_for d l (PermissionLevel (actor l) n)).
Proof.
  intros Hinv%perm_reachable_inv H Hact Hl. unfold check_authorization in H.
  apply bind_Ok in H as (m & Hm & H). apply bind_Ok in H as (used & Hu & _).
  assert (collected c d (effective_provided_delay c delay) sats act m) as Hc.
  { revert act Hact Hl. intros act Hact _. revert act Hact.
    eapply fold_res_establish; [| |exact Hm].
    - intros s x s' _ Hd. by eapply declare_action_Ok.
    - intros y s x s' Hy Hd l' Hl'. destruct (Hy l' Hl') as (sp & dl & ? & ? & ?).
      exists sp, dl. split_and!; [done| |done]. by eapply declare_action_mono. }
  destruct (Hc l Hl) as (special & dl & Hn & Hcov & Hrel). exists special, dl.
  split_and!; [done| |done]. destruct Hcov as [?|(x & Hx & Hle)]; [by left|right].
  assert (sat_permission (permission_to_authority d) ks ps x l) as Hs.
  { change l with (l, x).1. change x with (l, x).2 at 1.
    eapply (fold_res_establish (λ p _, sat_permission (permission_to_authority d) ks ps p.2 p.1));
      [| |exact Hu|].
    - intros s y s' _. by apply check_satisfied_Ok.
    - done.
    - rewrite merge_sort_Permutation. by apply elem_of_map_to_list. }
  by eapply sat_delay_mono.
Qed.
End proofs.

(** ** Witnesses *)
Definition demo_control : control :=
  {| pending_block_time := 5; fix_linkauth_restriction := true;
     max_transaction_delay := 3888000; max_authority_depth := 6 |}.
Definition demo_perm (i : Z) (par nm k : Z) : permission_object :=
  {| id := i; usage_id := i - 1; parent := par; owner := 7; name := nm; last_updated := 5;
     auth := authority_of_key k 0 |}.

(** Account 7 with its owner (key 100) and active (key 200) permissions. *)
Definition demo_auth_db : auth_db :=
  AuthDb (<[(7, active_name) := demo_perm 2 1 active_name 200]>
            (<[(7, owner_name) := demo_perm 1 0 owner_name 100]> {[ (0, 0) := reserved_permission ]}))
    3 (<[1 := 5]> {[ 0 := 5 ]}) 2 ∅ ∅.

Lemma demo_auth_db_reachable : rtc (perm_step demo_control) initial_auth_db demo_auth_db.
Proof.
  eapply rtc_l.
  { eapply (step_create _ _ 7 owner_name 0 (authority_of_key 100 0) 0);
      [left; reflexivity| |vm_compute; reflexivity].
    repeat split; repeat constructor; vm_compute; congruence. }
  eapply rtc_l; [|apply rtc_refl].
  eapply (step_create _ _ 7 active_name 1 (authority_of_key 200 0) 0).
  - right. exists (7, owner_name), (demo_perm 1 0 owner_name 100). vm_compute. split_and!; reflexivity.
  - repeat split; repeat constructor; vm_compute; congruence.
  - vm_compute. reflexivity.
Defined.

Lemma satisfies_iff_ancestor_witness :
  ∃ b, satisfies demo_auth_db (demo_perm 1 0 owner_name 100) (demo_perm 2 1 active_name 200) = Ok b ∧
    (b = true ↔ 7 = 7 ∧ (1 = 2 ∨ ancestor demo_auth_db 1 (demo_perm 2 1 active_name 200))).
Proof.
  apply (satisfies_iff_ancestor demo_control demo_auth_db (7, owner_name) (7, active_name)
    (demo_perm 1 0 owner_name 100) (demo_perm 2 1 active_name 200)).
  - exact demo_auth_db_reachable.
  - vm_compute. reflexivity.
  - vm_compute. reflexivity.
Defined.

Definition demo_action : action :=
  {| act_account := token_account_name; act_name := N_ "transfer";
     authorization := [PermissionLevel 7 active_name]; data := DOther |}.

Lemma check_authorization_sound_witness :
  ∃ special delay',
    check_native_action demo_control demo_auth_db demo_action
      (effective_provided_delay demo_control 0) = Ok (special, delay') ∧
    (PermissionLevel 7 active_name ∈ @nil permission_level ∨
     sat_permission (permission_to_authority demo_auth_db) [200] [] delay'
       (PermissionLevel 7 active_name)) ∧
    (special = false → ∀ n,
       lookup_minimum_permission demo_auth_db 7 token_account_name (N_ "transfer") = Ok (Some n) →
       acts_for demo_auth_db (PermissionLevel 7 active_name) (PermissionLevel 7 n)).
Proof.
  apply (check_authorization_sound demo_control demo_auth_db [demo_action] [200] [] 0 false []
    demo_action (PermissionLevel 7 active_name)).
  - exact demo_auth_db_reachable.
  - vm_compute. reflexivity.
  - left.
  - left.
Defined.
