(* ===== verification/BlockTimestamp.v ===== *)
(** * Block timestamps ([block_timestamp.hpp])

    A block timestamp is a 32-bit slot number; slot [s] starts at
    [EpochMs + s * IntervalMs] milliseconds.  The template parameters
    [IntervalMs] and [EpochMs] are section variables, and
    [config::block_interval_ms], [config::block_timestamp_epoch] instantiate
    them.  The conversions to and from [fc::time_point] are modelled with the
    C++ integer conversions of the source written out. *)

From S2P Require Import Prelude Config.
Local Open Scope Z_scope.

Section block_timestamp.
Context (IntervalMs EpochMs : Z).
(** [fc::milliseconds( n ).count()]: the microseconds in [n] milliseconds. *)
Context (milliseconds : Z → Z).

Definition maximum : Z := 0xffff.
Definition min : Z := 0.

(** [block_timestamp::next] *)
Definition next (slot : Z) : result Z :=
  _ ← EOS_ASSERT (u32_max - slot >=? 1) overflow_exception;
  Ok (u32 (slot + 1)).

(** [operator fc::time_point]: microseconds since the Unix epoch. *)
Definition to_time_point (slot : Z) : Z :=
  let msec := slot * IntervalMs in
  let msec := s64 (msec + EpochMs) in
  milliseconds msec.

(** [set_time_point(const fc::time_point&)]: [int64_t] division by 1000
    truncates, the subtraction happens in [uint64_t]. *)
Definition set_time_point (t : Z) : Z :=
  let micro_since_epoch := t in
  let msec_since_epoch := Z.quot micro_since_epoch 1000 in
  u32 (u64 (msec_since_epoch - EpochMs) / IntervalMs).

(** [set_time_point(const fc::time_point_sec&)] *)
Definition set_time_point_sec (sec : Z) : Z :=
  let sec_since_epoch := sec in
  u32 (u64 (sec_since_epoch * 1000 - EpochMs) / IntervalMs).

(** The configuration constraints the conversions rely on: a positive 16-bit
    interval, an epoch that leaves room for all slots in 63 bits. *)
Definition config_ok : Prop :=
  0 < IntervalMs < 2 ^ 16 ∧ 0 ≤ EpochMs < 2 ^ 52.
Definition milliseconds_spec : Prop :=
  ∀ ms, - 2 ^ 53 ≤ ms ≤ 2 ^ 53 → milliseconds ms = ms * 1000.

Context (Hcfg : config_ok) (Hms : milliseconds_spec).

Lemma to_time_point_eq slot :
  in_u 32 slot → to_time_point slot = (slot * IntervalMs + EpochMs) * 1000.
Proof.
  unfold in_u, to_time_point. intros Hs. destruct Hcfg as [HI HE].
  assert (0 ≤ slot * IntervalMs ≤ 2 ^ 32 * 2 ^ 16) by nia.
  rewrite s64_small by (unfold in_s64; lia). apply Hms. lia.
Qed.

(** The slot of a time point at or after the epoch that fits in 32 bits. *)
Lemma set_time_point_eq t :
  EpochMs * 1000 ≤ t → t / 1000 - EpochMs < 2 ^ 32 * IntervalMs →
  set_time_point t = (t / 1000 - EpochMs) / IntervalMs.
Proof.
  unfold set_time_point. intros Ht Hmax. destruct Hcfg as [HI HE].
  rewrite Z.quot_div_nonneg by lia.
  assert (EpochMs ≤ t / 1000) by (apply Z.div_le_lower_bound; lia).
  rewrite (wrap_small 64) by (unfold in_u; lia).
  apply wrap_small. split; [apply Z.div_pos; lia|].
  apply Z.div_lt_upper_bound; lia.
Qed.

(** Converting a slot to a time point and back gives the slot, for every
    32-bit slot; and a time point is mapped to the slot that contains it:
    the slot starts no later than [t] and the next slot starts after [t]. *)
Theorem time_point_roundtrip :
  (∀ slot, in_u 32 slot → set_time_point (to_time_point slot) = slot) ∧
  (∀ t, EpochMs * 1000 ≤ t → t / 1000 - EpochMs < (2 ^ 32 - 1) * IntervalMs →
    ∃ slot', next (set_time_point t) = Ok slot' ∧
      to_time_point (set_time_point t) ≤ t < to_time_point slot').
Proof.
  pose proof Hcfg as [HI HE]. split.
  - intros slot Hs. rewrite to_time_point_eq by done. unfold in_u in Hs.
    rewrite set_time_point_eq; rewrite ?Z.div_mul by lia; [|nia..].
    replace (slot * IntervalMs + EpochMs - EpochMs) with (slot * IntervalMs) by lia.
    apply Z.div_mul. lia.
  - intros t Ht Hmax. rewrite set_time_point_eq by lia.
    set (d := t / 1000 - EpochMs) in *.
    assert (0 ≤ d) by (unfold d; pose proof (Z.div_le_lower_bound t 1000 EpochMs); lia).
    assert (0 ≤ d / IntervalMs < 2 ^ 32 - 1) as Hq.
    { split; [apply Z.div_pos; lia|apply Z.div_lt_upper_bound; lia]. }
    pose proof (Z.div_mod d IntervalMs ltac:(lia)) as Hdm.
    pose proof (Z.mod_pos_bound d IntervalMs ltac:(lia)) as Hm.
    pose proof (Z.div_mod t 1000 ltac:(lia)). pose proof (Z.mod_pos_bound t 1000 ltac:(lia)).
    exists (d / IntervalMs + 1). split.
    + unfold next, EOS_ASSERT, u32_max.
      destruct (Z.geb_spec (4294967295 - d / IntervalMs) 1); [|lia]. simpl.
      rewrite wrap_small by (unfold in_u; lia). done.
    + rewrite !to_time_point_eq by (unfold in_u; lia). unfold d in *. nia.
Qed.
End block_timestamp.

Lemma time_point_roundtrip_witness :
  config_ok block_interval_ms block_timestamp_epoch ∧
  milliseconds_spec (λ ms, ms * 1000) ∧
  set_time_point block_interval_ms block_timestamp_epoch
    (to_time_point block_interval_ms block_timestamp_epoch (λ ms, ms * 1000) 4294967295) = 4294967295.
Proof.
  assert (config_ok block_interval_ms block_timestamp_epoch) as H1
    by (unfold config_ok, block_interval_ms, block_timestamp_epoch; lia).
  assert (milliseconds_spec (λ ms, ms * 1000)) as H2 by (intros ? ?; reflexivity).
  split; [exact H1|]. split; [exact H2|].
  apply (time_point_roundtrip _ _ _ H1 H2). unfold in_u. lia.
Defined.

(** [maximum()] is the largest 16-bit slot although slots have 32 bits, so it
    is not an upper bound of the timestamps. *)
Lemma maximum_not_upper_bound : ∃ slot, in_u 32 slot ∧ maximum < slot.
Proof. exists 65536. unfold in_u, maximum. lia. Qed.
