(* ===== verification/Merkle.v ===== *)
(** * Merkle trees ([merkle.cpp], [incremental_merkle.hpp])

    The batch root [merkle] and the incremental tree that block headers carry
    ([append], [get_root]), with the bit tricks that compute its depth.  The
    main result is that the incremental tree agrees with the batch
    computation on every sequence of leaves, and never reads past the end of
    its list of active nodes. *)

From S2P Require Import Prelude.
Local Open Scope Z_scope.

(** [digest_type] is [fc::sha256]: four 64-bit words [_hash[0..3]]. *)
Record digest_type := mk_digest { hash0 : Z; hash1 : Z; hash2 : Z; hash3 : Z }.

#[export] Instance digest_eq_dec : EqDecision digest_type.
Proof. solve_decision. Defined.
#[export] Instance digest_inhabited : Inhabited digest_type := populate (mk_digest 0 0 0 0).
#[export] Instance digest_countable : Countable digest_type.
Proof.
  refine (inj_countable' (λ d, (hash0 d, hash1 d, hash2 d, hash3 d))
    (λ '(a, b, c, d), mk_digest a b c d) _). by intros [].
Defined.

(** [digest_type()] *)
Definition zero_digest : digest_type := mk_digest 0 0 0 0.

Definition digest_ok (d : digest_type) : Prop :=
  in_u 64 (hash0 d) ∧ in_u 64 (hash1 d) ∧ in_u 64 (hash2 d) ∧ in_u 64 (hash3 d).

Definition make_canonical_left (val : digest_type) : digest_type :=
  mk_digest (Z.land (hash0 val) 0xFFFFFFFFFFFFFF7F) (hash1 val) (hash2 val) (hash3 val).
Definition make_canonical_right (val : digest_type) : digest_type :=
  mk_digest (Z.lor (hash0 val) 0x0000000000000080) (hash1 val) (hash2 val) (hash3 val).
Definition is_canonical_left (val : digest_type) : bool :=
  Z.land (hash0 val) 0x0000000000000080 =? 0.
Definition is_canonical_right (val : digest_type) : bool :=
  negb (Z.land (hash0 val) 0x0000000000000080 =? 0).
Definition make_canonical_pair (l r : digest_type) : digest_type * digest_type :=
  (make_canonical_left l, make_canonical_right r).

(** ** Depth of the implied tree *)

Definition next_power_of_2 (value : Z) : Z :=
  let value := u64 (value - 1) in
  let value := Z.lor value (Z.shiftr value 1) in
  let value := Z.lor value (Z.shiftr value 2) in
  let value := Z.lor value (Z.shiftr value 4) in
  let value := Z.lor value (Z.shiftr value 8) in
  let value := Z.lor value (Z.shiftr value 16) in
  let value := Z.lor value (Z.shiftr value 32) in
  u64 (value + 1).

Definition clz_power_2 (value : Z) : Z :=
  let lz := 64 in
  let hit mask := negb (Z.land value mask =? 0) in
  let lz := if negb (value =? 0) then lz - 1 else lz in
  let lz := if hit 0x00000000FFFFFFFF then lz - 32 else lz in
  let lz := if hit 0x0000FFFF0000FFFF then lz - 16 else lz in
  let lz := if hit 0x00FF00FF00FF00FF then lz - 8 else lz in
  let lz := if hit 0x0F0F0F0F0F0F0F0F then lz - 4 else lz in
  let lz := if hit 0x3333333333333333 then lz - 2 else lz in
  if hit 0x5555555555555555 then lz - 1 else lz.

Definition calcluate_max_depth (node_count : Z) : Z :=
  if node_count =? 0 then 0
  else clz_power_2 (next_power_of_2 node_count) + 1.

(** [incremental_merkle_impl] *)
Record incremental_merkle := mk_merkle {
  _node_count : Z;
  _active_nodes : list digest_type;
}.
Definition empty_merkle : incremental_merkle := mk_merkle 0 [].

Section merkle.
(** [digest_type::hash] of a packed pair of digests. *)
Context (hash : digest_type * digest_type → digest_type).

(** ** [merkle( vector<digest_type> )] *)

(** The in-place loop: [ids[i] = hash(ids[2*i], ids[2*i+1])]. *)
Definition merkle_pairs (ids : list digest_type) : list digest_type :=
  foldl (λ ids i, <[i := hash (make_canonical_pair (ids !!! (2 * i)%nat)
                                                   (ids !!! (2 * i + 1)%nat))]> ids)
    ids (seq 0 (length ids / 2)).

(** The body of the [while]: double the last node of an odd level, hash the
    pairs, keep the first half. *)
Definition merkle_level (ids : list digest_type) : list digest_type :=
  let ids := if Nat.odd (length ids) then ids ++ [List.last ids zero_digest] else ids in
  take (length ids / 2) (merkle_pairs ids).

Fixpoint merkle_loop (fuel : nat) (ids : list digest_type) : option digest_type :=
  match fuel with
  | O => None
  | S fuel =>
      if (1 <? length ids)%nat then merkle_loop fuel (merkle_level ids)
      else head ids
  end.

Definition merkle (ids : list digest_type) : option digest_type :=
  if (0 =? length ids)%nat then Some zero_digest
  else merkle_loop (S (length ids)) ids.

(** ** [incremental_merkle_impl::append] *)

(** The [while (current_depth > 0)] loop; reading [*active_iter] at the end
    of the old active nodes is undefined. *)
Fixpoint append_loop (current_depth : nat) (index : Z) (top : digest_type)
    (active_iter : list digest_type) (partial : bool) (updated : list digest_type) :
    result (digest_type * list digest_type) :=
  match current_depth with
  | O => Ok (top, updated)
  | S current_depth =>
      if Z.land index 1 =? 0 then
        let updated := if negb partial then updated ++ [top] else updated in
        append_loop current_depth (Z.shiftr index 1)
          (hash (make_canonical_pair top top)) active_iter true updated
      else
        match active_iter with
        | [] => Throw undefined_behaviour
        | left_value :: active_iter =>
            let updated := if partial then updated ++ [left_value] else updated in
            append_loop current_depth (Z.shiftr index 1)
              (hash (make_canonical_pair left_value top)) active_iter partial updated
        end
  end.

Definition append (m : incremental_merkle) (digest : digest_type) :
    result incremental_merkle :=
  let max_depth := calcluate_max_depth (u64 (_node_count m + 1)) in
  let current_depth := max_depth - 1 in
  '(top, updated) ← append_loop (Z.to_nat current_depth) (_node_count m) digest
                      (_active_nodes m) false [];
  Ok (mk_merkle (u64 (_node_count m + 1)) (updated ++ [top])).

(** [get_root]; [back()] of an empty vector is undefined. *)
Definition get_root (m : incremental_merkle) : result digest_type :=
  if 0 <? _node_count m
  then of_option undefined_behaviour (last (_active_nodes m))
  else Ok zero_digest.

(** All leaves of a list, appended in order. *)
Definition append_all (leaves : list digest_type) : result incremental_merkle :=
  fold_res append empty_merkle leaves.
End merkle.

(** ** The depth computation *)

(** [x] has its bits [m-w+1 .. m] set and none above [m]. *)
Definition smeared (m w x : Z) : Prop :=
  0 ≤ x ∧ (∀ i, m < i → Z.testbit x i = false) ∧
  (∀ i, 0 ≤ i → m - w < i ≤ m → Z.testbit x i = true).

Lemma smeared_step m w w' x :
  0 < w → w' = 2 * w → smeared m w x → smeared m w' (Z.lor x (Z.shiftr x w)).
Proof.
  intros Hw -> (Hx & Hhi & Hlo). split_and!.
  - apply Z.lor_nonneg. split; [done|by apply Z.shiftr_nonneg].
  - intros i Hi. destruct (decide (i < 0)); [by apply Z.testbit_neg_r|].
    rewrite Z.lor_spec, Z.shiftr_spec, !Hhi by lia. done.
  - intros i Hi0 Hi. rewrite Z.lor_spec, Z.shiftr_spec by lia.
    destruct (decide (m - w < i)); [by rewrite Hlo by lia|].
    rewrite (Hlo (i + w)) by lia. apply orb_true_r.
Qed.

Lemma smeared_log2 x : 0 < x → smeared (Z.log2 x) 1 x.
Proof.
  intros Hx. split_and!; [lia| |].
  - intros i Hi. destruct (decide (i < 0)); [by apply Z.testbit_neg_r|].
    apply Z.bits_above_log2; lia.
  - intros i Hi0 Hi. replace i with (Z.log2 x) by lia. by apply Z.bit_log2.
Qed.

Lemma smeared_full m w x : 0 ≤ m < w → smeared m w x → x = 2 ^ (m + 1) - 1.
Proof.
  intros Hm (Hx & Hhi & Hlo). rewrite Z.sub_1_r, <-Z.ones_equiv. apply Z.bits_inj'.
  intros i Hi. destruct (decide (i ≤ m)).
  - rewrite Z.ones_spec_low, Hlo by lia. done.
  - rewrite Z.ones_spec_high, Hhi by lia. done.
Qed.

Lemma next_power_of_2_spec value :
  1 ≤ value ≤ 2 ^ 63 → next_power_of_2 value = 2 ^ Z.log2_up value.
Proof.
  intros Hv. unfold next_power_of_2. rewrite (wrap_small 64 (value - 1)) by (unfold in_u; lia).
  destruct (decide (value = 1)) as [->|Hne]; [done|].
  rewrite Z.log2_up_eqn, <-Z.sub_1_r, <-Z.add_1_r by lia.
  assert (0 ≤ Z.log2 (value - 1) < 63) as Hm.
  { split; [apply Z.log2_nonneg|apply Z.log2_lt_pow2; lia]. }
  pose proof (smeared_log2 (value - 1) ltac:(lia)) as Hs.
  apply (smeared_step _ 1 2), (smeared_step _ 2 4), (smeared_step _ 4 8),
    (smeared_step _ 8 16), (smeared_step _ 16 32), (smeared_step _ 32 64) in Hs; [|lia..].
  apply smeared_full in Hs; [|lia]. rewrite Hs.
  rewrite wrap_small; [lia|]. unfold in_u.
  assert (2 ^ (Z.log2 (value - 1) + 1) ≤ 2 ^ 63) by (apply Z.pow_le_mono_r; lia). lia.
Qed.

Lemma clz_power_2_spec k : 0 ≤ k < 64 → clz_power_2 (2 ^ k) = k.
Proof.
  intros Hk.
  assert (Forall (λ n, clz_power_2 (2 ^ Z.of_nat n) = Z.of_nat n) (seq 0 64)) as HF
    by (repeat constructor).
  rewrite Forall_forall in HF. specialize (HF (Z.to_nat k)).
  rewrite Z2Nat.id in HF by lia. apply HF, elem_of_seq. lia.
Qed.

Lemma calcluate_max_depth_spec n :
  1 ≤ n ≤ 2 ^ 63 → calcluate_max_depth n = Z.log2_up n + 1.
Proof.
  intros Hn. unfold calcluate_max_depth. destruct (Z.eqb_spec n 0); [lia|].
  rewrite next_power_of_2_spec, clz_power_2_spec; [done| |lia].
  split; [apply Z.log2_up_nonneg|].
  pose proof (Z.log2_up_le_mono n (2 ^ 63) ltac:(lia)) as H.
  rewrite Z.log2_up_pow2 in H; lia.
Qed.

(** ** Levels of the batch computation *)

Lemma half_SS n : (S (S n) / 2 = S (n / 2))%nat.
Proof. replace (S (S n)) with (1 * 2 + n)%nat by lia. by rewrite Nat.div_add_l. Qed.

Section equivalence.
Context (hash : digest_type * digest_type → digest_type).
Notation H a b := (hash (make_canonical_pair a b)).

(** The parents of the complete pairs of a level. *)
Fixpoint pair_full (l : list digest_type) : list digest_type :=
  match l with
  | a :: b :: l => H a b :: pair_full l
  | _ => []
  end.

Lemma pair_full_length l : length (pair_full l) = (length l / 2)%nat.
Proof.
  induction l as [l IH] using (induction_ltof1 _ length). unfold ltof in IH.
  destruct l as [|a [|b l]]; [done..|]. cbn [pair_full length].
  rewrite IH by (simpl; lia). by rewrite half_SS.
Qed.

Lemma pair_full_app l1 l2 :
  Nat.even (length l1) = true → pair_full (l1 ++ l2) = pair_full l1 ++ pair_full l2.
Proof.
  induction l1 as [l1 IH] using (induction_ltof1 _ length). unfold ltof in IH.
  destruct l1 as [|a [|b l1]]; intros He; [done..|]. simpl. f_equal.
  apply IH; [simpl; lia|done].
Qed.

Lemma pair_full_seq l :
  Nat.even (length l) = true →
  (λ i, H (l !!! (2 * i)%nat) (l !!! (2 * i + 1)%nat)) <$> seq 0 (length l / 2) = pair_full l.
Proof.
  induction l as [l IH] using (induction_ltof1 _ length). unfold ltof in IH.
  destruct l as [|a [|b l]]; intros He; [done..|].
  cbn [pair_full length]. rewrite half_SS.
  cbn [seq fmap list_fmap Nat.add]. f_equal.
  rewrite <-IH by (simpl; lia || done). rewrite <-seq_shift.
  change (list_fmap _ _) with fmap. rewrite <-list_fmap_compose.
  apply list_fmap_ext. intros j i _. simpl.
  replace (i + S (i + 0))%nat with (S (2 * i))%nat by lia.
  replace (S (2 * i) + 1)%nat with (S (2 * i + 1))%nat by lia.
  by replace (i + (i + 0))%nat with (2 * i)%nat by lia.
Qed.

Lemma merkle_pairs_prefix l k :
  (2 * k ≤ length l)%nat →
  foldl (λ ids i, <[i := H (ids !!! (2 * i)%nat) (ids !!! (2 * i + 1)%nat)]> ids)
    l (seq 0 k) =
  ((λ i, H (l !!! (2 * i)%nat) (l !!! (2 * i + 1)%nat)) <$> seq 0 k) ++ drop k l.
Proof.
  induction k as [|k IH]; intros Hk; [by rewrite drop_0|].
  rewrite seq_S, foldl_app, IH, fmap_app by lia. simpl foldl.
  set (hs := _ <$> seq 0 k). assert (length hs = k) as Hhs.
  { unfold hs. by rewrite length_fmap, length_seq. }
  destruct (lookup_lt_is_Some_2 l k ltac:(lia)) as [x Hx].
  rewrite (drop_S _ _ _ Hx). rewrite insert_app_r_alt by lia.
  rewrite Hhs, Nat.sub_diag. simpl. rewrite <-app_assoc. simpl. f_equal. f_equal.
  assert (∀ j, (k ≤ j)%nat → (hs ++ x :: drop (S k) l) !!! j = l !!! j) as Hl.
  { intros j Hj. rewrite <-(drop_S _ _ _ Hx), !list_lookup_total_alt.
    rewrite lookup_app_r, lookup_drop, Hhs by lia.
    by replace (k + (j - k))%nat with j by lia. }
  by rewrite !Hl by lia.
Qed.

Lemma merkle_pairs_spec l :
  Nat.even (length l) = true → take (length l / 2) (merkle_pairs hash l) = pair_full l.
Proof.
  intros He. unfold merkle_pairs. rewrite merkle_pairs_prefix.
  - rewrite pair_full_seq by done. by rewrite take_app_le, take_ge;
      rewrite ?pair_full_length.
  - apply Nat.Div0.mul_div_le.
Qed.

(** One level up, with the level split into its complete nodes and its last
    node. *)
Definition parent_top (C : list digest_type) (top : digest_type) : digest_type :=
  if Nat.even (length C) then H top top else H (List.last C zero_digest) top.

Lemma pair_full_odd C top :
  Nat.even (length C) = false →
  pair_full (C ++ [top]) = pair_full C ++ [H (List.last C zero_digest) top].
Proof.
  intros He. assert (C ≠ []) as Hne by (by destruct C).
  rewrite (List.app_removelast_last zero_digest Hne) in He |- *.
  generalize dependent (List.last C zero_digest). intros x.
  generalize (List.removelast C). intros C0 He. rewrite List.last_last.
  rewrite length_app, Nat.even_add in He. simpl in He.
  assert (Nat.even (length C0) = true) as HC0 by (by destruct (Nat.even (length C0))).
  rewrite <-app_assoc, !(pair_full_app C0) by done. simpl. by rewrite app_nil_r.
Qed.

Lemma merkle_level_pair_full l :
  merkle_level hash l =
  pair_full (if Nat.odd (length l) then l ++ [List.last l zero_digest] else l).
Proof.
  unfold merkle_level. rewrite merkle_pairs_spec; [done|].
  rewrite <-Nat.negb_even. destruct (Nat.even (length l)) eqn:He; [done|].
  simpl. rewrite length_app, Nat.even_add, He. done.
Qed.

Lemma merkle_level_snoc C top :
  merkle_level hash (C ++ [top]) = pair_full C ++ [parent_top C top].
Proof.
  rewrite merkle_level_pair_full. unfold parent_top.
  rewrite length_app, Nat.add_1_r, Nat.odd_succ, List.last_last.
  destruct (Nat.even (length C)) eqn:He.
  - rewrite <-app_assoc. by rewrite pair_full_app.
  - by apply pair_full_odd.
Qed.

(** ** The incremental loop follows the levels *)

(** The complete nodes a level list leaves on the path to the root: the last
    node of every level of odd length, over [d] levels. *)
Fixpoint lefts (d : nat) (C : list digest_type) : list digest_type :=
  match d with
  | O => []
  | S d => (if Nat.odd (length C) then [List.last C zero_digest] else []) ++
           lefts d (pair_full C)
  end.

(** [d] levels up from the level [C ++ [top]]. *)
Fixpoint climb (d : nat) (C : list digest_type) (top : digest_type) : digest_type :=
  match d with
  | O => top
  | S d => climb d (pair_full C) (parent_top C top)
  end.

Lemma land_1_even n : (Z.land (Z.of_nat n) 1 =? 0) = Nat.even n.
Proof.
  change 1 with (Z.ones 1). rewrite Z.land_ones by lia.
  destruct (Nat.even n) eqn:E.
  - apply Nat.even_spec in E as [k ->]. apply Z.eqb_eq.
    rewrite Nat2Z.inj_mul, Z.mul_comm. apply Z_mod_mult.
  - rewrite <-Nat.negb_odd, negb_false_iff, Nat.odd_spec in E. destruct E as [k ->].
    apply Z.eqb_neq. rewrite Nat2Z.inj_add, Nat2Z.inj_mul, Z.add_comm, Z.mul_comm.
    by rewrite Z_mod_plus_full.
Qed.

Lemma shiftr_1_half n : Z.shiftr (Z.of_nat n) 1 = Z.of_nat (n / 2).
Proof. rewrite Z.shiftr_div_pow2 by lia. by rewrite Nat2Z.inj_div. Qed.

(** Once a partial node was met, the rest of the loop copies the complete
    left nodes. *)
Lemma append_loop_partial d C top tail upd :
  append_loop hash d (Z.of_nat (length C)) top (lefts d C ++ tail) true upd =
  Ok (climb d C top, upd ++ lefts d C).
Proof.
  revert C top upd. induction d as [|d IH]; intros C top upd; cbn [append_loop lefts climb].
  { by rewrite app_nil_r. }
  rewrite land_1_even, shiftr_1_half, <-pair_full_length. unfold parent_top.
  rewrite <-Nat.negb_even. destruct (Nat.even (length C)); simpl; [apply IH|].
  by rewrite IH, <-app_assoc.
Qed.

(** Before that, the loop consumes the old left nodes and records the new
    ones. *)
Lemma append_loop_full d C top tail upd :
  append_loop hash d (Z.of_nat (length C)) top (lefts d C ++ tail) false upd =
  Ok (climb d C top, upd ++ lefts d (C ++ [top])).
Proof.
  revert C top upd. induction d as [|d IH]; intros C top upd; cbn [append_loop lefts climb].
  { by rewrite app_nil_r. }
  rewrite land_1_even, shiftr_1_half, <-pair_full_length. unfold parent_top.
  rewrite length_app, Nat.add_1_r, Nat.odd_succ, <-Nat.negb_even, List.last_last.
  destruct (Nat.even (length C)) eqn:He; cbn [negb app].
  - rewrite append_loop_partial, <-app_assoc, pair_full_app by done. simpl.
    by rewrite app_nil_r.
  - rewrite IH. do 4 f_equal. by rewrite pair_full_odd.
Qed.

(** ** The batch loop reaches the same node *)

(** [depth n] levels bring a level of [n + 1] nodes down to its root. *)
Definition depth (n : nat) : nat := if (n =? 0)%nat then 0%nat else S (Nat.log2 n).

Lemma depth_log2_up n : Z.log2_up (Z.of_nat n + 1) = Z.of_nat (depth n).
Proof.
  unfold depth. destruct (Nat.eqb_spec n 0) as [->|Hn]; [done|].
  rewrite Z.log2_up_eqn by lia. rewrite <-Z.add_1_r, Nat2Z.inj_succ, Z.add_1_r. f_equal.
  apply Z.log2_unique; [lia|].
  pose proof (Nat.log2_spec n ltac:(lia)) as [H1 H2].
  replace (Z.pred (Z.of_nat n + 1)) with (Z.of_nat n) by lia.
  apply inj_le in H1. apply inj_lt in H2. rewrite Nat2Z.inj_pow in H1, H2.
  change (Z.of_nat 2) with 2 in *. rewrite Nat2Z.inj_succ in H2. lia.
Qed.

Lemma depth_half n : (0 < n)%nat → depth n = S (depth (n / 2)).
Proof.
  intros Hn. unfold depth. destruct (Nat.eqb_spec n 0); [lia|].
  pose proof (Nat.div_mod_eq n 2) as Hdm.
  pose proof (Nat.mod_upper_bound n 2 ltac:(done)) as Hm.
  destruct (Nat.eqb_spec (n / 2) 0) as [E|E].
  - assert (n = 1)%nat as -> by lia. done.
  - f_equal. destruct (decide (n mod 2 = 0)%nat) as [E0|E0]; rewrite Hdm at 1.
    + rewrite E0, Nat.add_0_r. apply Nat.log2_double. lia.
    + replace (n mod 2)%nat with 1%nat by lia. apply Nat.log2_succ_double. lia.
Qed.

Lemma depth_le n : (depth n ≤ n)%nat.
Proof.
  unfold depth. destruct (Nat.eqb_spec n 0); [lia|].
  pose proof (Nat.log2_lt_lin n). lia.
Qed.

Lemma merkle_loop_climb fuel C top :
  (depth (length C) < fuel)%nat →
  merkle_loop hash fuel (C ++ [top]) = Some (climb (depth (length C)) C top).
Proof.
  revert C top. induction fuel as [|fuel IH]; intros C top Hf; [lia|].
  cbn [merkle_loop]. rewrite length_app, Nat.add_1_r. cbn [length].
  destruct (decide (length C = 0)%nat) as [E|E].
  { destruct C; done. }
  destruct (Nat.ltb_spec 1 (S (length C))); [|lia].
  rewrite merkle_level_snoc, (depth_half (length C)) by lia. cbn [climb].
  rewrite <-pair_full_length. apply IH. rewrite pair_full_length.
  rewrite depth_half in Hf; lia.
Qed.

Lemma merkle_snoc C top : merkle hash (C ++ [top]) = Some (climb (depth (length C)) C top).
Proof.
  unfold merkle. rewrite length_app, Nat.add_1_r. cbn [length Nat.eqb].
  apply merkle_loop_climb. pose proof (depth_le (length C)). lia.
Qed.

(** ** The state of the incremental tree *)

(** When the number of leaves reaches a power of two, the root becomes the
    one complete left node of the next depth. *)
Lemma lefts_full d C top :
  (length C + 1 = 2 ^ d)%nat →
  lefts (S d) (C ++ [top]) = lefts d (C ++ [top]) ++ [climb d C top].
Proof.
  revert C top. induction d as [|d IH]; intros C top Hlen.
  { destruct C; [done|simpl in Hlen; lia]. }
  cbn [climb]. rewrite Nat.pow_succ_r' in Hlen.
  assert (Nat.even (length C) = false) as He.
  { rewrite <-Nat.negb_odd, negb_false_iff. apply Nat.odd_spec.
    exists (2 ^ d - 1)%nat. lia. }
  assert (Nat.odd (length (C ++ [top])) = false) as Ho
    by (by rewrite length_app, Nat.add_1_r, Nat.odd_succ).
  remember (S d) as d' eqn:Hd'. cbn [lefts]. rewrite Ho, Hd' at 1. subst d'.
  cbn [lefts]. rewrite Ho. cbn [app].
  rewrite pair_full_odd by done. unfold parent_top. rewrite He. apply IH.
  rewrite pair_full_length. pose proof (Nat.div_mod_eq (length C) 2) as Hdm.
  pose proof (Nat.mod_upper_bound (length C) 2 ltac:(done)). lia.
Qed.

Lemma depth_succ n :
  depth (n + 1) = depth n ∨ (depth (n + 1) = S (depth n) ∧ (n + 1 = 2 ^ depth n)%nat).
Proof.
  unfold depth. rewrite Nat.add_1_r. cbn [Nat.eqb].
  destruct (Nat.eqb_spec n 0) as [->|Hn]; [by right|].
  pose proof (Nat.log2_spec n ltac:(lia)) as [H1 H2].
  destruct (decide (S n = 2 ^ S (Nat.log2 n))%nat) as [E|E].
  - right. split; [|done]. rewrite E at 1. by rewrite Nat.log2_pow2 by lia.
  - left. f_equal. apply Nat.log2_unique; lia.
Qed.

Definition merkle_inv (m : incremental_merkle) (L : list digest_type) : Prop :=
  _node_count m = Z.of_nat (length L) ∧
  (∃ tail, _active_nodes m = lefts (depth (length L)) L ++ tail) ∧
  (L ≠ [] → last (_active_nodes m) = merkle hash L).

Lemma append_inv m L x :
  merkle_inv m L → Z.of_nat (length L) < 2 ^ 63 →
  ∃ m', append hash m x = Ok m' ∧ merkle_inv m' (L ++ [x]).
Proof.
  intros (Hn & [tail Ha] & _) Hlen. unfold append. rewrite Hn, Ha.
  rewrite wrap_small by (unfold in_u; lia).
  rewrite calcluate_max_depth_spec, depth_log2_up by lia.
  rewrite Z.add_simpl_r, Nat2Z.id, append_loop_full. simpl.
  eexists. split; [done|]. split_and!; simpl.
  - rewrite length_app. simpl. lia.
  - rewrite length_app. simpl.
    destruct (depth_succ (length L)) as [->|[-> Hp]]; [by eexists|].
    exists []. by rewrite lefts_full, app_nil_r.
  - intros _. by rewrite last_snoc, merkle_snoc.
Qed.

(** The root of the incremental tree is the batch root of its leaves. *)
Lemma merkle_inv_root m leaves :
  merkle_inv m leaves → ∃ root, get_root m = Ok root ∧ merkle hash leaves = Some root.
Proof.
  intros (Hn & _ & Hr). unfold get_root. rewrite Hn.
  destruct leaves as [|x L]; [by exists zero_digest|].
  specialize (Hr ltac:(done)). rewrite Hr.
  destruct (merkle hash (x :: L)) as [root|] eqn:E.
  - exists root. split; [|done]. simpl length.
    destruct (Z.ltb_spec 0 (Z.of_nat (S (length L)))); [done|lia].
  - exfalso. destruct (exists_last (l:=x :: L)) as (C & top & HC); [done|].
    rewrite HC, merkle_snoc in E. done.
Qed.

(** C27.  For every sequence of fewer than 2^63 leaves, appending them one by
    one to the incremental tree succeeds, never reading past the end of the
    active nodes, and the root it then reports is the root the batch
    function [merkle] computes for the whole sequence; the batch loop
    terminates. *)
Theorem incremental_merkle_correct leaves :
  Z.of_nat (length leaves) < 2 ^ 63 →
  ∃ m root, append_all hash leaves = Ok m ∧ _node_count m = Z.of_nat (length leaves) ∧
    get_root m = Ok root ∧ merkle hash leaves = Some root.
Proof.
  intros Hlen.
  assert (∃ m, append_all hash leaves = Ok m ∧ merkle_inv m leaves) as (m & Hm & Hinv).
  { unfold append_all. induction leaves as [|x L IH] using rev_ind.
    - exists empty_merkle. split; [done|]. split_and!; [done|by exists []|done].
    - rewrite length_app in Hlen. simpl in Hlen. destruct IH as (m & Hm & Hinv); [lia|].
      destruct (append_inv m L x Hinv ltac:(lia)) as (m' & Hm' & Hinv').
      exists m'. rewrite fold_res_app, Hm. simpl. by rewrite Hm'. }
  destruct (merkle_inv_root m leaves Hinv) as (root & Hr & Hroot).
  exists m, root. by destruct Hinv.
Qed.
End equivalence.

(** A hash for the witnesses (any function will do). *)
Definition demo_hash (p : digest_type * digest_type) : digest_type :=
  mk_digest (u64 (7 * hash0 p.1 + 3 * hash0 p.2 + 1)) 0 0 0.
Definition demo_leaves : list digest_type :=
  (λ i, mk_digest (Z.of_nat i) 0 0 0) <$> seq 0 11.

Lemma incremental_merkle_correct_witness :
  Z.of_nat (length demo_leaves) < 2 ^ 63 ∧
  ∃ m root, append_all demo_hash demo_leaves = Ok m ∧
    _node_count m = Z.of_nat (length demo_leaves) ∧
    get_root m = Ok root ∧ merkle demo_hash demo_leaves = Some root.
Proof.
  split; [vm_compute; reflexivity|].
  apply (incremental_merkle_correct demo_hash demo_leaves). vm_compute; reflexivity.
Defined.

(** ** Canonical sides *)

Lemma testbit_128 i : 0 ≤ i → Z.testbit 0x80 i = (i =? 7).
Proof. intros. change 0x80 with (2 ^ 7). rewrite Z.pow2_bits_eqb by lia. lia. Qed.

Lemma land_128 x : (Z.land x 0x80 =? 0) = negb (Z.testbit x 7).
Proof.
  destruct (Z.testbit x 7) eqn:E; simpl.
  - apply Z.eqb_neq. intros H0. apply (f_equal (λ z, Z.testbit z 7)) in H0.
    rewrite Z.land_spec, E in H0. done.
  - apply Z.eqb_eq, Z.bits_inj'. intros i Hi.
    rewrite Z.land_spec, testbit_128, Z.testbit_0_l by done.
    destruct (Z.eqb_spec i 7) as [->|]; [by rewrite E|apply andb_false_r].
Qed.

Lemma testbit_mask i : 0 ≤ i < 64 → Z.testbit 0xFFFFFFFFFFFFFF7F i = negb (i =? 7).
Proof.
  intros Hi. change 0xFFFFFFFFFFFFFF7F with (Z.ldiff (Z.ones 64) 0x80).
  rewrite Z.ldiff_spec, testbit_128, Z.ones_spec_low by lia. done.
Qed.

Lemma testbit_above_u64 x i : in_u 64 x → 64 ≤ i → Z.testbit x i = false.
Proof.
  intros [Hx0 Hx] Hi. destruct (decide (x = 0)) as [->|]; [apply Z.testbit_0_l|].
  apply Z.bits_above_log2; [done|]. apply Z.log2_lt_pow2; [lia|].
  assert (2 ^ 64 ≤ 2 ^ i) by (apply Z.pow_le_mono_r; lia). lia.
Qed.

(** The side marking is unambiguous: a digest is canonical for exactly one
    side, [make_canonical_left] and [make_canonical_right] produce digests of
    their side that stay 64-bit words and differ from the input in bit 7 of
    the first word only, and they leave digests already on their side alone. *)
Theorem canonical_sides d :
  digest_ok d →
  is_canonical_left d = negb (is_canonical_right d) ∧
  is_canonical_left (make_canonical_left d) = true ∧
  is_canonical_right (make_canonical_right d) = true ∧
  (is_canonical_left d = true → make_canonical_left d = d) ∧
  (is_canonical_right d = true → make_canonical_right d = d) ∧
  digest_ok (make_canonical_left d) ∧ digest_ok (make_canonical_right d) ∧
  (∀ i, 0 ≤ i < 64 → i ≠ 7 →
    Z.testbit (hash0 (make_canonical_left d)) i = Z.testbit (hash0 d) i ∧
    Z.testbit (hash0 (make_canonical_right d)) i = Z.testbit (hash0 d) i).
Proof.
  destruct d as [w0 w1 w2 w3]. intros (H0 & H1 & H2 & H3).
  unfold is_canonical_left, is_canonical_right, make_canonical_left, make_canonical_right,
    digest_ok; cbn [hash0 hash1 hash2 hash3] in *.
  rewrite !land_128, !negb_involutive. split_and!; try done.
  - rewrite Z.land_spec, testbit_mask by lia. by rewrite andb_false_r.
  - rewrite Z.lor_spec, testbit_128 by lia. by rewrite orb_true_r.
  - intros Hb. f_equal. apply Z.bits_inj'. intros i Hi. rewrite Z.land_spec.
    destruct (decide (i < 64)); [|by rewrite (testbit_above_u64 w0) by (done || lia)].
    rewrite testbit_mask by lia. destruct (Z.eqb_spec i 7) as [->|]; cbn [negb].
    + by rewrite (proj1 (negb_true_iff _) Hb).
    + apply andb_true_r.
  - intros Hb. f_equal. apply Z.bits_inj'. intros i Hi.
    rewrite Z.lor_spec, testbit_128 by done.
    destruct (Z.eqb_spec i 7) as [->|]; [by rewrite Hb|apply orb_false_r].
  - apply in_u_land; unfold in_u in *; lia.
  - apply in_u_lor; unfold in_u in *; lia.
  - intros i Hi Hne. rewrite Z.land_spec, Z.lor_spec, testbit_mask, testbit_128 by lia.
    destruct (Z.eqb_spec i 7); [done|]. by rewrite andb_true_r, orb_false_r.
Qed.

Lemma canonical_sides_witness :
  digest_ok (mk_digest 255 1 2 3) ∧
  is_canonical_left (make_canonical_left (mk_digest 255 1 2 3)) = true.
Proof.
  assert (digest_ok (mk_digest 255 1 2 3)) as H
    by (unfold digest_ok, in_u; simpl; lia).
  split; [exact H|]. exact (proj1 (proj2 (canonical_sides _ H))).
Defined.

(** On a power of two the function counts the trailing zeros, although its
    comment announces the leading ones. *)
Lemma clz_power_2_counts_trailing_zeros : clz_power_2 1 = 0 ∧ clz_power_2 (2 ^ 63) = 63.
Proof. split; reflexivity. Qed.
