(* ===== verification/BlockHeader.v ===== *)
(** * Producer schedules and block headers ([producer_schedule.hpp],
    [block_header.hpp], [block_header.cpp], [protocol_feature_activation.cpp])

    The header of a block, the id that carries its number, and the protocol
    feature activation extension.  Hashing, key recovery and serialization
    come from [fc]; [Crypto] holds the functions the headers use and
    [CryptoLaws] what is relied on: [endian_reverse_u32] is an involution on
    32-bit words and unpacking undoes packing. *)

From S2P Require Import Prelude Merkle.
Local Open Scope Z_scope.

Abbreviation block_id_type := digest_type (only parsing).
Abbreviation signature_type := Z (only parsing).
Abbreviation public_key_type := Z (only parsing).

(** ** Producer schedules *)

Record producer_key := mk_producer_key {
  producer_name : Z;
  block_signing_key : public_key_type;
}.
#[export] Instance producer_key_eq_dec : EqDecision producer_key.
Proof. solve_decision. Defined.
#[export] Instance producer_key_inhabited : Inhabited producer_key := populate (mk_producer_key 0 0).

Record producer_schedule_type := mk_schedule {
  version : Z;
  producers : list producer_key;
}.
#[export] Instance producer_schedule_eq_dec : EqDecision producer_schedule_type.
Proof. solve_decision. Defined.
Definition empty_schedule : producer_schedule_type := mk_schedule 0 [].

(** [producer_schedule_type::get_producer_key]; [0] is [public_key_type()]. *)
Fixpoint get_producer_key_loop (l : list producer_key) (p : Z) : public_key_type :=
  match l with
  | [] => 0
  | i :: l => if producer_name i =? p then block_signing_key i else get_producer_key_loop l p
  end.
Definition get_producer_key (s : producer_schedule_type) (p : Z) : public_key_type :=
  get_producer_key_loop (producers s) p.

(** [operator == ( const producer_schedule_type&, const producer_schedule_type& )]:
    the loop compares the entries of two vectors of one length. *)
Definition producer_schedule_eqb (a b : producer_schedule_type) : bool :=
  if negb (version a =? version b) then false
  else if negb (length (producers a) =? length (producers b))%nat then false
  else forallb (λ i, bool_decide (producers a !! i = producers b !! i))
         (seq 0 (length (producers a))).

(** [shared_producer_schedule_type]: the database's copy of a schedule, written
    by assignment and read by conversion, both one element at a time. *)
Record shared_producer_schedule_type := mk_shared_schedule {
  shared_version : Z;
  shared_producers : list producer_key;
}.
Definition assign_shared_schedule (a : producer_schedule_type) : shared_producer_schedule_type :=
  mk_shared_schedule (version a) (foldl (λ ps p, ps ++ [p]) [] (producers a)).
Definition of_shared_schedule (s : shared_producer_schedule_type) : producer_schedule_type :=
  mk_schedule (shared_version s) (foldl (λ ps p, ps ++ [p]) [] (shared_producers s)).

(** ** Block headers *)

(** [extensions_type] *)
Abbreviation extensions_type := (list (Z * list Z)) (only parsing).

Record block_header := mk_block_header {
  timestamp : Z;
  producer : Z;
  confirmed : Z;
  previous : block_id_type;
  transaction_mroot : digest_type;
  action_mroot : digest_type;
  schedule_version : Z;
  new_producers : option producer_schedule_type;
  header_extensions : extensions_type;
}.
#[export] Instance block_header_eq_dec : EqDecision block_header.
Proof. solve_decision. Defined.

Record signed_block_header := mk_signed_block_header {
  sbh_header :> block_header;
  producer_signature : signature_type;
}.
#[export] Instance signed_block_header_eq_dec : EqDecision signed_block_header.
Proof. solve_decision. Defined.

(** [block_header() = default] *)
Definition default_header : block_header :=
  mk_block_header 0 0 1 zero_digest zero_digest zero_digest 0 None [].

Class Crypto := {
  hash_header : block_header → digest_type;
  hash_pair : digest_type * digest_type → digest_type;
  hash_schedule : producer_schedule_type → digest_type;
  recover_key : signature_type → digest_type → bool → result public_key_type;
  endian_reverse_u32 : Z → Z;
  pack_digests : list digest_type → list Z;
  unpack_digests : list Z → result (list digest_type);
  max_array_size : nat;
}.

Class CryptoLaws (cr : Crypto) : Prop := {
  endian_reverse_range : ∀ x, in_u 32 x → in_u 32 (endian_reverse_u32 x);
  endian_reverse_involutive : ∀ x, in_u 32 x → endian_reverse_u32 (endian_reverse_u32 x) = x;
  endian_reverse_zero : endian_reverse_u32 0 = 0;
  hash_header_range : ∀ h, digest_ok (hash_header h);
  unpack_pack_digests : ∀ l, (length l ≤ max_array_size)%nat →
    unpack_digests (pack_digests l) = Ok l;
}.

Section headers.
Context `{cr : Crypto}.

(** [block_header::num_from_id]: the argument of [endian_reverse_u32] is
    converted to 32 bits. *)
Definition num_from_id (id : block_id_type) : Z := endian_reverse_u32 (u32 (hash0 id)).

(** [block_header::block_num] *)
Definition header_block_num (h : block_header) : Z := u32 (num_from_id (previous h) + 1).

(** [block_header::digest] *)
Definition header_digest (h : block_header) : digest_type := hash_header h.

(** [block_header::id] *)
Definition header_id (h : block_header) : block_id_type :=
  let result := header_digest h in
  let w := Z.land (hash0 result) 0xffffffff00000000 in
  let w := u64 (w + endian_reverse_u32 (header_block_num h)) in
  mk_digest w (hash1 result) (hash2 result) (hash3 result).

(** ** Protocol feature activation *)

(** [protocol_feature_activation::reflector_init]: the digests are inserted in
    a set one by one. *)
Definition reflector_init (protocol_features : list digest_type) : result (list digest_type) :=
  _ ← EOS_ASSERT (negb (length protocol_features =? 0)%nat) ill_formed_protocol_feature_activation;
  _ ← fold_res (λ (s : gset digest_type) d,
        _ ← EOS_ASSERT (bool_decide (d ∉ s)) ill_formed_protocol_feature_activation;
        Ok ({[d]} ∪ s)) ∅ protocol_features;
  Ok protocol_features.

(** [decompose<protocol_feature_activation>::extract]: the only extension is
    the one with id 0, which must be unique; [None] is "no match". *)
Definition extension_id : Z := 0.
Definition enforce_unique : bool := true.
Definition extract (id : Z) (data : list Z) : result (option (bool * list digest_type)) :=
  if id =? extension_id then
    l ← unpack_digests data;
    l ← reflector_init l;
    Ok (Some (enforce_unique, l))
  else Ok None.

(** [block_header::validate_and_extract_header_extensions] *)
Fixpoint extract_loop (first : bool) (id_type_lower_bound : Z) (exts : extensions_type)
    (results : list (list digest_type)) : result (list (list digest_type)) :=
  match exts with
  | [] => Ok results
  | (id, data) :: exts =>
      _ ← EOS_ASSERT (id_type_lower_bound <=? id) invalid_block_header_extension;
      match_ ← extract id data;
      '(unique, ext) ← of_option invalid_block_header_extension match_;
      _ ← EOS_ASSERT (negb unique || (first || (id_type_lower_bound <? id)))
            invalid_block_header_extension;
      extract_loop false id exts (results ++ [ext])
  end.
Definition validate_and_extract_header_extensions (h : block_header) :
    result (list (list digest_type)) :=
  extract_loop true 0 (header_extensions h) [].
End headers.

(** [protocol_feature_activation_set( orig, additional, enforce_disjoint )]:
    the sorted merge into a [flat_set]; as a set it is the union, and its size
    falls short of the expected one iff an element is repeated. *)
Definition protocol_feature_activation_set (orig_pfa_set : gset digest_type)
    (additional_features : list digest_type) (enforce_disjoint : bool) :
    result (gset digest_type) :=
  let expected_size := (size orig_pfa_set + length additional_features)%nat in
  let protocol_features := orig_pfa_set ∪ list_to_set additional_features in
  _ ← EOS_ASSERT (negb enforce_disjoint || (size protocol_features =? expected_size)%nat)
        invalid_block_header_extension;
  Ok protocol_features.

(** ** Lemmas on schedules *)

Lemma foldl_push_back {A} (acc l : list A) : foldl (λ ps p, ps ++ [p]) acc l = acc ++ l.
Proof.
  revert acc. induction l as [|x l IH]; intros acc; simpl; [by rewrite app_nil_r|].
  rewrite IH. by rewrite <- app_assoc.
Qed.

Lemma shared_schedule_roundtrip a : of_shared_schedule (assign_shared_schedule a) = a.
Proof.
  unfold of_shared_schedule, assign_shared_schedule. simpl.
  rewrite !foldl_push_back. by destruct a.
Qed.

Lemma producer_schedule_eqb_spec a b : producer_schedule_eqb a b = true ↔ a = b.
Proof.
  destruct a as [va pa], b as [vb pb]. unfold producer_schedule_eqb. simpl.
  destruct (Z.eqb_spec va vb) as [->|Hv]; simpl; [|naive_solver].
  destruct (Nat.eqb_spec (length pa) (length pb)) as [Hl|Hl]; simpl; [|naive_solver].
  rewrite forallb_forall. split; [|intros [= ->] i _; by bool_prop].
  intros H. f_equal. apply list_eq. intros i.
  destruct (decide (i < length pa)%nat) as [Hi|Hi].
  - specialize (H i). rewrite in_seq in H. specialize (H ltac:(lia)). by bool_prop.
  - rewrite !lookup_ge_None_2 by lia. done.
Qed.

(** ** The number in the id *)

Lemma land_high_word x : in_u 64 x → Z.land x 0xffffffff00000000 = (x / 2 ^ 32) * 2 ^ 32.
Proof.
  intros [H0 H1]. change 0xffffffff00000000 with (Z.shiftl (Z.ones 32) 32).
  transitivity (Z.shiftl (Z.land (Z.shiftr x 32) (Z.ones 32)) 32).
  - apply Z.bits_inj'. intros i Hi. rewrite Z.land_spec, !Z.shiftl_spec by lia.
    destruct (Z.ltb_spec i 32) as [Hl|Hl].
    + rewrite !(Z.testbit_neg_r _ (i - 32)) by lia. apply andb_false_r.
    + rewrite Z.land_spec, Z.shiftr_spec by lia. by replace (i - 32 + 32) with i by lia.
  - rewrite Z.land_ones, Z.shiftr_div_pow2, Z.shiftl_mul_pow2 by lia.
    rewrite Z.mod_small; [done|]. split; [apply Z.div_pos; lia|].
    apply Z.div_lt_upper_bound; lia.
Qed.

Section header_laws.
Context `{cr : Crypto} {crl : CryptoLaws cr}.

Lemma num_from_id_range id : in_u 32 (num_from_id id).
Proof. apply endian_reverse_range, wrap_range. lia. Qed.

Lemma header_block_num_range h : in_u 32 (header_block_num h).
Proof. apply wrap_range. lia. Qed.

Lemma header_id_word h :
  hash0 (header_id h) =
    (hash0 (header_digest h) / 2 ^ 32) * 2 ^ 32 + endian_reverse_u32 (header_block_num h) ∧
  in_u 64 (hash0 (header_id h)).
Proof.
  unfold header_id. simpl. destruct (hash_header_range h) as [Hd _].
  unfold header_digest. rewrite land_high_word by done.
  pose proof (endian_reverse_range _ (header_block_num_range h)) as He.
  unfold in_u in *.
  assert (hash0 (hash_header h) / 2 ^ 32 < 2 ^ 32) by (apply Z.div_lt_upper_bound; lia).
  assert (0 ≤ hash0 (hash_header h) / 2 ^ 32) by (apply Z.div_pos; lia).
  assert (in_u 64 ((hash0 (hash_header h) / 2 ^ 32) * 2 ^ 32 + endian_reverse_u32 (header_block_num h)))
    as Hr by (unfold in_u; lia).
  rewrite (wrap_small 64) by done. done.
Qed.

Lemma num_from_header_id h : num_from_id (header_id h) = header_block_num h.
Proof.
  unfold num_from_id. destruct (header_id_word h) as [-> _].
  pose proof (endian_reverse_range _ (header_block_num_range h)) as He.
  unfold wrap. rewrite Z.add_comm, Z_mod_plus_full, Z.mod_small by exact He.
  apply endian_reverse_involutive, header_block_num_range.
Qed.

(** The id of a block is the hash of its header with the low word of the
    first 64 bits replaced by the big-endian block number: the number read back
    from the id is the number after the one in the previous block's id, and
    all other 224 bits are those of the hash. *)
Theorem block_id_carries_number h :
  num_from_id (header_id h) = u32 (num_from_id (previous h) + 1) ∧
  Z.shiftr (hash0 (header_id h)) 32 = Z.shiftr (hash0 (hash_header h)) 32 ∧
  hash1 (header_id h) = hash1 (hash_header h) ∧ hash2 (header_id h) = hash2 (hash_header h) ∧
  hash3 (header_id h) = hash3 (hash_header h).
Proof.
  split; [apply num_from_header_id|]. split; [|done].
  rewrite !Z.shiftr_div_pow2 by lia. destruct (header_id_word h) as [-> _].
  rewrite Z.div_add_l by lia.
  rewrite (Z.div_small (endian_reverse_u32 _)) by apply endian_reverse_range, header_block_num_range.
  unfold header_digest. lia.
Qed.

(** ** Header extensions *)

Lemma reflector_init_loop l (s : gset digest_type) s' :
  fold_res (λ (s : gset digest_type) d,
    _ ← EOS_ASSERT (bool_decide (d ∉ s)) ill_formed_protocol_feature_activation;
    Ok ({[d]} ∪ s)) s l = Ok s' →
  NoDup l ∧ ∀ d, d ∈ l → d ∉ s.
Proof.
  revert s. induction l as [|d l IH]; intros s; simpl; [split; [constructor|set_solver]|].
  intros (s1 & (u & Ha & Hs1)%bind_Ok & H)%bind_Ok.
  apply EOS_ASSERT_Ok in Ha. bool_prop. injection Hs1 as <-. apply IH in H as [Hnd Hn].
  split; [constructor; [|done]; set_solver|set_solver].
Qed.

Lemma reflector_init_loop_Ok l (s : gset digest_type) :
  NoDup l → (∀ d, d ∈ l → d ∉ s) →
  ∃ s', fold_res (λ (s : gset digest_type) d,
    _ ← EOS_ASSERT (bool_decide (d ∉ s)) ill_formed_protocol_feature_activation;
    Ok ({[d]} ∪ s)) s l = Ok s'.
Proof.
  intros Hnd. revert s. induction Hnd as [|d l Hd Hnd IH]; intros s Hs; simpl; [by eexists|].
  rewrite bool_decide_eq_true_2 by set_solver. simpl. apply IH. set_solver.
Qed.

Lemma reflector_init_Ok l l' : reflector_init l = Ok l' ↔ l' = l ∧ l ≠ [] ∧ NoDup l.
Proof.
  unfold reflector_init. split.
  - intros (u & Ha & (s & Hs & [= ->])%bind_Ok)%bind_Ok. apply EOS_ASSERT_Ok in Ha.
    apply reflector_init_loop in Hs as [? _]. by destruct l'.
  - intros (-> & Hne & Hnd).
    destruct (reflector_init_loop_Ok l ∅ Hnd ltac:(set_solver)) as [s ->]. by destruct l.
Qed.

(** A header has no extension, or exactly the feature activation one. *)
Lemma header_extensions_Ok h exts :
  validate_and_extract_header_extensions h = Ok exts ↔
  (header_extensions h = [] ∧ exts = []) ∨
  ∃ data l, header_extensions h = [(extension_id, data)] ∧ exts = [l] ∧
    unpack_digests data = Ok l ∧ l ≠ [] ∧ NoDup l.
Proof.
  unfold validate_and_extract_header_extensions. split.
  - destruct (header_extensions h) as [|[id data] rest]; simpl; [intros [= <-]; by left|].
    intros (u & _ & (m & Hm & Hrest)%bind_Ok)%bind_Ok. right.
    unfold extract in Hm. case_match eqn:Hid; [|by injection Hm as <-].
    apply Z.eqb_eq in Hid as ->.
    apply bind_Ok in Hm as (l & Hl & (l' & Hl' & [= <-])%bind_Ok).
    apply reflector_init_Ok in Hl' as (-> & Hne & Hnd). simpl in Hrest.
    destruct rest as [|[id2 data2] rest]; simpl in Hrest.
    { injection Hrest as <-. naive_solver. }
    apply bind_Ok in Hrest as (u2 & _ & (m2 & Hm2 & H)%bind_Ok).
    unfold extract in Hm2. case_match eqn:Hid2; [|by injection Hm2 as <-].
    apply Z.eqb_eq in Hid2 as ->.
    apply bind_Ok in Hm2 as (l2 & _ & (l2' & _ & [= <-])%bind_Ok). done.
  - intros [[-> ->]|(data & l & -> & -> & Hl & Hne & Hnd)]; [done|].
    simpl. unfold extract. simpl. rewrite Hl. simpl.
    by rewrite (proj2 (reflector_init_Ok l l)).
Qed.
End header_laws.

Lemma size_add_list_le (orig : gset digest_type) l :
  (size (orig ∪ list_to_set l) ≤ size orig + length l)%nat.
Proof.
  revert orig. induction l as [|d l IH]; intros orig; simpl.
  - rewrite (right_id_L ∅ (∪)). lia.
  - rewrite (union_comm_L {[d]}), assoc_L by apply _.
    rewrite size_union_alt.
    assert (size ({[d]} ∖ (orig ∪ list_to_set l)) ≤ size ({[d]} : gset digest_type))%nat
      by (apply subseteq_size; set_solver).
    rewrite size_singleton in *. specialize (IH orig). lia.
Qed.

Lemma size_add_list (orig : gset digest_type) l :
  size (orig ∪ list_to_set l) = (size orig + length l)%nat ↔
  NoDup l ∧ ∀ d, d ∈ l → d ∉ orig.
Proof.
  revert orig. induction l as [|d l IH]; intros orig; simpl.
  { rewrite (right_id_L ∅ (∪)). split; [split; [constructor|set_solver]|lia]. }
  rewrite assoc_L, (union_comm_L orig) by apply _. destruct (decide (d ∈ orig)) as [Hd|Hd].
  - replace ({[d]} ∪ orig) with orig by set_solver.
    pose proof (size_add_list_le orig l). split; [lia|]. set_solver.
  - pose proof (size_union {[d]} orig ltac:(set_solver)) as Hsz. rewrite size_singleton in Hsz.
    rewrite NoDup_cons. split.
    + intros H. destruct (proj1 (IH ({[d]} ∪ orig))) as [Hnd Hn]; [lia|].
      split; [split; [|done]; set_solver|set_solver].
    + intros [[Hdl Hnd] Hn].
      rewrite (proj2 (IH ({[d]} ∪ orig))); [lia|]. set_solver.
Qed.

(** The activation set grows by exactly the new digests, and repetitions are
    refused. *)
Lemma activation_set_Ok orig l s :
  protocol_feature_activation_set orig l true = Ok s ↔
  s = orig ∪ list_to_set l ∧ NoDup l ∧ ∀ d, d ∈ l → d ∉ orig.
Proof.
  unfold protocol_feature_activation_set. simpl. rewrite <- size_add_list.
  destruct (Nat.eqb_spec (size (orig ∪ list_to_set l)) (size orig + length l)); simpl; naive_solver.
Qed.
