(* ===== verification/Transaction.v ===== *)
(** * Transactions ([transaction.hpp], [transaction.cpp], [action.hpp])

    The data of a transaction, its packed form with and without compression,
    the keys recovered from its signatures through a cache, its extensions and
    its reference to a block.  Serialization ([fc::raw]), hashing, key recovery
    and the zlib filters of boost are not part of the sources: they are the
    class [TrxFc], and [TrxFcLaws] states what the code relies on.  Clock
    readings are arguments. *)

From S2P Require Import Prelude Names Config Authority Merkle BlockHeader.
Local Open Scope Z_scope.

(** ** Data *)
Abbreviation bytes := (list Z) (only parsing).
Abbreviation transaction_id_type := digest_type (only parsing).

Record action := mk_action {
  a_account : Z; a_name : Z; a_authorization : list permission_level; a_data : bytes }.

(** [deferred_transaction_generation_context] *)
Record generation_context := {
  gc_sender_trx_id : transaction_id_type; gc_sender_id : Z; gc_sender : Z }.

Record transaction_header := {
  expiration : Z; ref_block_num : Z; ref_block_prefix : Z;
  max_net_usage_words : Z; max_cpu_usage_ms : Z; delay_sec : Z }.

Record transaction := mk_transaction {
  trx_header : transaction_header;
  context_free_actions : list action;
  actions : list action;
  transaction_extensions : list (Z * bytes) }.

Record signed_transaction := mk_signed {
  trx_of : transaction; signatures : list signature_type; context_free_data : list bytes }.

(** [compression_type], an enum of one byte that other values reach as well. *)
Definition compression_none : Z := 0.
Definition compression_zlib : Z := 1.

(** The wire form. *)
Record packed_transaction := mk_packed {
  p_signatures : list signature_type; compression : Z;
  packed_context_free_data : bytes; packed_trx : bytes }.

(** The cache of recovered keys: first entry first; the index by signature is
    unique. *)
Record cached_pub_key := mk_cached {
  ck_trx_id : transaction_id_type; ck_pub_key : public_key_type; ck_sig : signature_type;
  ck_cpu_usage : Z }.
Abbreviation recovery_cache_type := (list cached_pub_key).

(** ** Code outside the sources *)
Class TrxFc := {
  sha256 : bytes → digest_type;
  pack_digest : digest_type → bytes;
  pack_trx : transaction → bytes;
  unpack_trx : bytes → result transaction;
  pack_cfd : list bytes → bytes;
  unpack_cfd : bytes → result (list bytes);
  pack_signatures : list signature_type → bytes;
  pack_bytes : bytes → bytes;
  unpack_context : bytes → result generation_context;
  (** The chunks a zlib filter writes for an input, and whether it ends well. *)
  deflate : bytes → bytes;
  inflate : bytes → list bytes * bool;
  (** [public_key_type( sig, digest )] *)
  recover : signature_type → digest_type → result public_key_type;
}.

Class TrxFcLaws (fc : TrxFc) : Prop := {
  unpack_pack_trx : ∀ t, unpack_trx (pack_trx t) = Ok t;
  unpack_pack_cfd : ∀ c, unpack_cfd (pack_cfd c) = Ok c;
  (** A vector is preceded by its length, and a zlib stream has a header. *)
  pack_cfd_nonempty : ∀ c, pack_cfd c ≠ [];
  deflate_nonempty : ∀ b, deflate b ≠ [];
  inflate_deflate : ∀ b, (inflate (deflate b)).2 = true ∧ concat (inflate (deflate b)).1 = b;
}.

(** ** Header *)
Section trx.
Context {cr : Crypto} {fc : TrxFc}.

(** [ref_block_num] has 16 bits and [ref_block_prefix] 32. *)
Definition set_reference_block (h : transaction_header) (reference_block : block_id_type) :
    transaction_header :=
  {| expiration := expiration h;
     ref_block_num := wrap 16 (endian_reverse_u32 (u32 (hash0 reference_block)));
     ref_block_prefix := u32 (hash1 reference_block);
     max_net_usage_words := max_net_usage_words h; max_cpu_usage_ms := max_cpu_usage_ms h;
     delay_sec := delay_sec h |}.

Definition verify_reference_block (h : transaction_header) (reference_block : block_id_type) : bool :=
  (ref_block_num h =? wrap 16 (endian_reverse_u32 (u32 (hash0 reference_block))))
  && (ref_block_prefix h =? u32 (hash1 reference_block)).

Definition get_ref_blocknum (head_blocknum : Z) : Z :=
  u32 (u32 (head_blocknum / 0xffff * 0xffff) + head_blocknum mod 0xffff).

Definition header_validate (h : transaction_header) : result unit :=
  EOS_ASSERT (max_net_usage_words h <? (2 ^ 32 - 1) / 8) transaction_exception.

Definition total_actions (t : transaction) : Z :=
  u32 (Z.of_nat (length (context_free_actions t)) + Z.of_nat (length (actions t))).

Fixpoint first_authorizer_loop (l : list action) : Z :=
  match l with
  | [] => 0
  | a :: l => match a_authorization a with u :: _ => actor u | [] => first_authorizer_loop l end
  end.
Definition first_authorizer (t : transaction) : Z := first_authorizer_loop (actions t).

(** ** Digests *)
Definition trx_id (t : transaction) : transaction_id_type := sha256 (pack_trx t).

Definition sig_digest (t : transaction) (chain_id : digest_type) (cfd : list bytes) : digest_type :=
  sha256 (pack_digest chain_id ++ pack_trx t
          ++ pack_digest (match cfd with [] => zero_digest | _ => sha256 (pack_cfd cfd) end)).

Definition packed_digest (p : packed_transaction) : digest_type :=
  let prunable :=
    sha256 (pack_signatures (p_signatures p) ++ pack_bytes (packed_context_free_data p)) in
  sha256 (compression p :: pack_bytes (packed_trx p) ++ pack_digest prunable).

(** ** Extensions *)

(** [transaction_extension_types] has one type, with id 0, which may not repeat. *)
Definition extract_extension (id : Z) (data : bytes) : result (option (generation_context * bool)) :=
  if id =? 0 then
    c ← unpack_context data;
    _ ← EOS_ASSERT (negb (gc_sender c =? 0)) ill_formed_deferred_transaction_generation_context;
    Ok (Some (c, true))
  else Ok None.

Fixpoint extract_loop (exts : list (Z * bytes)) (first : bool) (id_type_lower_bound : Z) :
    result (list generation_context) :=
  match exts with
  | [] => Ok []
  | (id, data) :: exts =>
      _ ← EOS_ASSERT (id_type_lower_bound <=? id) invalid_transaction_extension;
      m ← extract_extension id data;
      '(c, enforce_unique) ← of_option invalid_transaction_extension m;
      _ ← (if enforce_unique : bool
           then EOS_ASSERT (first || (id_type_lower_bound <? id)) invalid_transaction_extension
           else Ok tt);
      rest ← extract_loop exts false id;
      Ok (c :: rest)
  end.
Definition validate_and_extract_extensions (t : transaction) : result (list generation_context) :=
  extract_loop (transaction_extensions t) true 0.

(** ** Packed transactions *)

(** [read_limiter<Limit>::write], for the chunks of a stream. *)
Definition read_limit : Z := 1 * 1024 * 1024.
Definition limiter_write (acc : Z * bytes) (s : bytes) : result (Z * bytes) :=
  let '(_total, out) := acc in
  let count := Z.of_nat (length s) in
  _ ← EOS_ASSERT (_total + count <=? read_limit) tx_decompression_error;
  Ok (_total + count, out ++ s).

Definition zlib_decompress (data : bytes) : result bytes :=
  let '(chunks, ok) := inflate data in
  '(_, out) ← fold_res limiter_write (0, []) chunks;
  if ok : bool then Ok out else Throw unhandled_exception.

Definition unpack_context_free_data (data : bytes) : result (list bytes) :=
  match data with [] => Ok [] | _ => unpack_cfd data end.
Definition zlib_decompress_context_free_data (data : bytes) : result (list bytes) :=
  match data with [] => Ok [] | _ => out ← zlib_decompress data; unpack_context_free_data out end.
Definition zlib_decompress_transaction (data : bytes) : result transaction :=
  out ← zlib_decompress data; unpack_trx out.

Definition pack_context_free_data (cfd : list bytes) : bytes :=
  match cfd with [] => [] | _ => pack_cfd cfd end.
Definition zlib_compress_context_free_data (cfd : list bytes) : bytes :=
  match cfd with [] => [] | _ => deflate (pack_context_free_data cfd) end.
Definition zlib_compress_transaction (t : transaction) : bytes := deflate (pack_trx t).

Definition by_compression {A} (c : Z) (none zlib : result A) : result A :=
  if c =? compression_none then none
  else if c =? compression_zlib then zlib
  else Throw unknown_transaction_compression.

Definition get_raw_transaction (p : packed_transaction) : result bytes :=
  by_compression (compression p) (Ok (packed_trx p)) (zlib_decompress (packed_trx p)).

Definition local_pack_transaction (c : Z) (t : transaction) : result bytes :=
  by_compression c (Ok (pack_trx t)) (Ok (zlib_compress_transaction t)).
Definition local_pack_context_free_data (c : Z) (cfd : list bytes) : result bytes :=
  by_compression c (Ok (pack_context_free_data cfd)) (Ok (zlib_compress_context_free_data cfd)).

Definition local_unpack_transaction (p : packed_transaction) (cfd : list bytes) :
    result signed_transaction :=
  t ← by_compression (compression p) (unpack_trx (packed_trx p))
        (zlib_decompress_transaction (packed_trx p));
  Ok (mk_signed t (p_signatures p) cfd).
Definition local_unpack_context_free_data (p : packed_transaction) (u : signed_transaction) :
    result signed_transaction :=
  _ ← EOS_ASSERT (bool_decide (context_free_data u = [])) tx_decompression_error;
  cfd ← by_compression (compression p) (unpack_context_free_data (packed_context_free_data p))
          (zlib_decompress_context_free_data (packed_context_free_data p));
  Ok (mk_signed (trx_of u) (signatures u) cfd).

(** The constructor from a signed transaction. *)
Definition pack_signed (t : signed_transaction) (c : Z) : result packed_transaction :=
  packed ← local_pack_transaction c (trx_of t);
  cfd ← local_pack_context_free_data c (context_free_data t);
  Ok (mk_packed (signatures t) c cfd packed).

(** [reflector_init], after the fields were read from a stream. *)
Definition unpack_packed (p : packed_transaction) : result signed_transaction :=
  u ← local_unpack_transaction p [];
  local_unpack_context_free_data p u.

(** The constructor [packed_transaction( bytes&&, vector<signature_type>&&, bytes&&, ... )]:
    empty data is not unpacked. *)
Definition packed_of_bytes (p : packed_transaction) : result signed_transaction :=
  u ← local_unpack_transaction p [];
  match packed_context_free_data p with [] => Ok u | _ => local_unpack_context_free_data p u end.

(** The constructor [packed_transaction( bytes&&, vector<signature_type>&&, vector<bytes>&&, ... )]. *)
Definition packed_of_data (packed_txn : bytes) (sigs : list signature_type) (cfd : list bytes)
    (c : Z) : result (packed_transaction * signed_transaction) :=
  let p := mk_packed sigs c [] packed_txn in
  u ← local_unpack_transaction p cfd;
  packed_cfd ← match cfd with [] => Ok [] | _ => local_pack_context_free_data c cfd end;
  Ok (mk_packed sigs c packed_cfd packed_txn, u).

(** The constructor [packed_transaction( transaction&&, vector<signature_type>&&, bytes&&, ... )]. *)
Definition packed_of_trx (t : transaction) (sigs : list signature_type) (packed_cfd : bytes)
    (c : Z) : result (packed_transaction * signed_transaction) :=
  packed ← local_pack_transaction c t;
  let p := mk_packed sigs c packed_cfd packed in
  let u := mk_signed t sigs [] in
  u ← match packed_cfd with [] => Ok u | _ => local_unpack_context_free_data p u end;
  Ok (p, u).

Definition checked_size (size : Z) : result Z :=
  let size := u64 size in
  _ ← EOS_ASSERT (size <=? 2 ^ 32 - 1) tx_too_big; Ok (u32 size).
Definition get_unprunable_size (p : packed_transaction) : result Z :=
  checked_size (fixed_net_overhead_of_packed_trx + Z.of_nat (length (packed_trx p))).
Definition get_prunable_size (p : packed_transaction) : result Z :=
  checked_size (Z.of_nat (length (pack_signatures (p_signatures p)))
                + Z.of_nat (length (packed_context_free_data p))).

(** ** Recovered keys *)
Definition recovery_cache_size : Z := 10000.

Definition find_sig (c : recovery_cache_type) (s : signature_type) : option cached_pub_key :=
  List.find (λ e, ck_sig e =? s) c.
Definition emplace_back (c : recovery_cache_type) (e : cached_pub_key) : recovery_cache_type :=
  match find_sig c (ck_sig e) with Some _ => c | None => c ++ [e] end.

(** One signature; [clock] gives the two readings around the recovery. *)
Definition recover_one (t : transaction) (digest : digest_type) (deadline : Z)
    (allow_duplicate_keys : bool) (acc : recovery_cache_type * gset Z * Z)
    (s : signature_type * (Z * Z)) : result (recovery_cache_type * gset Z * Z) :=
  let '(cache, recovered_pub_keys, sig_cpu_usage) := acc in
  let '(sig, (sig_start, sig_end)) := s in
  _ ← EOS_ASSERT (sig_start <? deadline) tx_cpu_usage_exceeded;
  let tid := trx_id t in
  let compute :=
    recov ← recover sig digest;
    let cpu_usage := sig_end - sig_start in
    Ok (recov, emplace_back cache (mk_cached tid recov sig cpu_usage), cpu_usage) in
  '(recov, cache, cpu_usage) ←
    match find_sig cache sig with
    | Some it => if decide (ck_trx_id it = tid) then Ok (ck_pub_key it, cache, ck_cpu_usage it)
                 else compute
    | None => compute
    end;
  _ ← EOS_ASSERT (allow_duplicate_keys || bool_decide (recov ∉ recovered_pub_keys)) tx_duplicate_sig;
  Ok (cache, {[ recov ]} ∪ recovered_pub_keys, sig_cpu_usage + cpu_usage).

(** The cache afterwards, the keys, and the time it took; [digest_time] is the
    time for the digest. *)
Definition get_signature_keys (cache : recovery_cache_type) (t : transaction)
    (sigs : list (signature_type * (Z * Z))) (chain_id : digest_type) (deadline digest_time : Z)
    (cfd : list bytes) (allow_duplicate_keys : bool) :
    result (recovery_cache_type * gset Z * Z) :=
  '(cache, keys, cpu) ←
    fold_res (recover_one t (sig_digest t chain_id cfd) deadline allow_duplicate_keys)
      (cache, ∅, 0) sigs;
  Ok (drop (length cache - Z.to_nat recovery_cache_size) cache, keys, cpu + digest_time).
End trx.

(** ** Round trip of the packed form *)
Section packed.
Context {cr : Crypto} {fc : TrxFc} {laws : TrxFcLaws fc}.

Lemma limiter_fold chunks : ∀ n out, 0 ≤ n ≤ read_limit →
  fold_res limiter_write (n, out) chunks =
    if n + Z.of_nat (length (concat chunks)) <=? read_limit
    then Ok (n + Z.of_nat (length (concat chunks)), out ++ concat chunks)
    else Throw tx_decompression_error.
Proof.
  induction chunks as [|s chunks IH]; intros n out Hn; cbn [fold_res concat].
  - cbn [length]. rewrite app_nil_r, Z.add_0_r. by rewrite (proj2 (Z.leb_le _ _)) by lia.
  - rewrite length_app, app_assoc, Nat2Z.inj_add, Z.add_assoc.
    destruct (limiter_write (n, out) s) as [r|e] eqn:E; unfold limiter_write in E;
      destruct (Z.leb_spec (n + Z.of_nat (length s)) read_limit) as [H|H]; try done; injection E as <-.
    + cbn [mbind result_bind]. by rewrite IH by lia.
    + cbn [mbind result_bind]. by rewrite (proj2 (Z.leb_gt _ _)) by lia.
Qed.

(** Decompression undoes compression exactly up to the limit. *)
Lemma zlib_decompress_deflate b :
  zlib_decompress (deflate b) =
    if Z.of_nat (length b) <=? read_limit then Ok b else Throw tx_decompression_error.
Proof.
  unfold zlib_decompress. destruct (inflate_deflate b) as [Hok Hc].
  destruct (inflate (deflate b)) as [chunks ok]. cbn [fst snd] in *. subst ok.
  rewrite limiter_fold by (unfold read_limit; lia). rewrite Hc. cbn [app]. rewrite Z.add_0_l.
  by destruct (_ <=? _).
Qed.

(** What the stream may grow to, whatever was sent. *)
Lemma zlib_decompress_bounded data out : zlib_decompress data = Ok out → Z.of_nat (length out) ≤ read_limit.
Proof.
  unfold zlib_decompress. destruct (inflate data) as [chunks ok]. rewrite limiter_fold by (unfold read_limit; lia).
  destruct (Z.leb_spec (0 + Z.of_nat (length (concat chunks))) read_limit); [|done].
  cbn [mbind result_bind app]. destruct ok; [|done]. intros [= <-]. lia.
Qed.

(** The parts of a transaction that a zlib stream can carry. *)
Definition fits_zlib (t : signed_transaction) : bool :=
  (Z.of_nat (length (pack_trx (trx_of t))) <=? read_limit)
  && (bool_decide (context_free_data t = [])
      || (Z.of_nat (length (pack_cfd (context_free_data t))) <=? read_limit)).

Lemma unpack_pack_context_free_data c : unpack_context_free_data (pack_context_free_data c) = Ok c.
Proof.
  destruct c as [|b c]; [done|]. unfold pack_context_free_data, unpack_context_free_data.
  destruct (pack_cfd (b :: c)) eqn:E; [by apply pack_cfd_nonempty in E|]. rewrite <- E. apply unpack_pack_cfd.
Qed.

Lemma zlib_context_free_data c :
  zlib_decompress_context_free_data (zlib_compress_context_free_data c) =
    if bool_decide (c = []) || (Z.of_nat (length (pack_cfd c)) <=? read_limit) then Ok c
    else Throw tx_decompression_error.
Proof.
  destruct c as [|b c]; [done|]. rewrite bool_decide_eq_false_2 by done. cbn [orb].
  unfold zlib_compress_context_free_data, zlib_decompress_context_free_data.
  destruct (deflate _) eqn:E; [by apply deflate_nonempty in E|]. rewrite <- E, zlib_decompress_deflate.
  unfold pack_context_free_data at 1. destruct (_ <=? _); [|done]. apply unpack_pack_context_free_data.
Qed.

(** C29.  A packed transaction unpacks to the transaction it was made from: always
    without compression, and with zlib exactly when neither the transaction nor
    its context-free data exceeds one mebibyte; else unpacking throws.  Other
    compression bytes are refused on both sides. *)
Theorem packed_roundtrip t c :
  pack_signed t c ≫= unpack_packed =
    if c =? compression_none then Ok t
    else if c =? compression_zlib then (if fits_zlib t then Ok t else Throw tx_decompression_error)
    else Throw unknown_transaction_compression.
Proof.
  unfold pack_signed, unpack_packed, local_pack_transaction, local_pack_context_free_data, by_compression.
  destruct (Z.eqb_spec c compression_none) as [->|Hn].
  - cbn. unfold by_compression. cbn. rewrite unpack_pack_trx. cbn.
    unfold local_unpack_context_free_data, by_compression. cbn.
    rewrite unpack_pack_context_free_data. cbn. by destruct t.
  - destruct (Z.eqb_spec c compression_zlib) as [->|Hz]; [|done].
    cbn [mbind result_bind]. unfold local_unpack_transaction, by_compression. cbn [compression packed_trx].
    change (compression_zlib =? compression_none) with false. change (compression_zlib =? compression_zlib) with true.
    cbn [mbind result_bind p_signatures]. unfold zlib_decompress_transaction, zlib_compress_transaction, fits_zlib.
    rewrite zlib_decompress_deflate. destruct (_ <=? _); [|done]. cbn [mbind result_bind andb].
    rewrite unpack_pack_trx. cbn [mbind result_bind]. unfold local_unpack_context_free_data, by_compression.
    cbn [compression packed_context_free_data context_free_data].
    change (compression_zlib =? compression_none) with false. change (compression_zlib =? compression_zlib) with true.
    rewrite bool_decide_eq_true_2 by done. cbn [EOS_ASSERT mbind result_bind].
    rewrite zlib_context_free_data. destruct (_ || _); [|done]. by destruct t.
Qed.
End packed.

(** ** The cache of recovered keys *)
Section keys.
Context {cr : Crypto} {fc : TrxFc}.

(** The keys without a cache. *)
Definition recover_plain (digest : digest_type) (deadline : Z) (allow_duplicate_keys : bool)
    (keys : gset Z) (s : signature_type * (Z * Z)) : result (gset Z) :=
  _ ← EOS_ASSERT (s.2.1 <? deadline) tx_cpu_usage_exceeded;
  recov ← recover s.1 digest;
  _ ← EOS_ASSERT (allow_duplicate_keys || bool_decide (recov ∉ keys)) tx_duplicate_sig;
  Ok ({[ recov ]} ∪ keys).
Definition plain_keys (digest : digest_type) (sigs : list (signature_type * (Z * Z)))
    (deadline : Z) (allow_duplicate_keys : bool) : result (gset Z) :=
  fold_res (recover_plain digest deadline allow_duplicate_keys) ∅ sigs.

(** What is signed: a transaction, the chain and the context-free data. *)
Abbreviation signed_content := (transaction * digest_type * list (list Z))%type.
Definition content_digest (x : signed_content) : digest_type := sig_digest x.1.1 x.1.2 x.2.

(** The id of a transaction tells which digest was signed. *)
Definition id_fixes_digest (U : signed_content → Prop) : Prop :=
  ∀ x y, U x → U y → trx_id x.1.1 = trx_id y.1.1 → content_digest x = content_digest y.

(** An entry holds the key of its signature for every content with its id. *)
Definition cache_good (U : signed_content → Prop) (c : recovery_cache_type) : Prop :=
  ∀ e, e ∈ c → ∀ x, U x → ck_trx_id e = trx_id x.1.1 →
    recover (ck_sig e) (content_digest x) = Ok (ck_pub_key e).

Lemma find_sig_Some c s e : find_sig c s = Some e → e ∈ c ∧ ck_sig e = s.
Proof. intros [Hin Hs]%List.find_some. apply list_elem_of_In in Hin. split; [done|lia]. Qed.

Lemma emplace_back_good U c t chain cfd sig k cpu : id_fixes_digest U → cache_good U c →
  U (t, chain, cfd) → recover sig (sig_digest t chain cfd) = Ok k →
  cache_good U (emplace_back c (mk_cached (trx_id t) k sig cpu)).
Proof.
  intros Hfix Hgood Hx Hr. unfold emplace_back. destruct (find_sig _ _); [done|].
  intros e [He|He%list_elem_of_singleton]%elem_of_app x HU Hid; [by apply Hgood|subst e].
  cbn in *. rewrite (Hfix x (t, chain, cfd)); done.
Qed.

Lemma recover_one_plain U c keys cpu t chain cfd deadline allow s :
  id_fixes_digest U → cache_good U c → U (t, chain, cfd) →
  match recover_one t (sig_digest t chain cfd) deadline allow (c, keys, cpu) s with
  | Ok (c', keys', _) =>
      cache_good U c' ∧ recover_plain (sig_digest t chain cfd) deadline allow keys s = Ok keys'
  | Throw e => recover_plain (sig_digest t chain cfd) deadline allow keys s = Throw e
  end.
Proof.
  intros Hfix Hgood Hx. destruct s as [sig [start stop]]. unfold recover_one, recover_plain. cbn [fst snd].
  destruct (start <? deadline); [|done]. cbn [EOS_ASSERT mbind result_bind].
  assert (∀ k c', recover sig (sig_digest t chain cfd) = Ok k → cache_good U c' →
    ∀ cp, match (_ ← EOS_ASSERT (allow || bool_decide (k ∉ keys)) tx_duplicate_sig;
           Ok (c', {[ k ]} ∪ keys, cpu + cp)) with
    | Ok (c', keys', _) => cache_good U c' ∧
        (recov ← recover sig (sig_digest t chain cfd);
         _ ← EOS_ASSERT (allow || bool_decide (recov ∉ keys)) tx_duplicate_sig; Ok ({[recov]} ∪ keys)) = Ok keys'
    | Throw e =>
        (recov ← recover sig (sig_digest t chain cfd);
         _ ← EOS_ASSERT (allow || bool_decide (recov ∉ keys)) tx_duplicate_sig; Ok ({[recov]} ∪ keys)) = Throw e
    end) as Hend.
  { intros k c' Hk Hc' cp. rewrite Hk. cbn [mbind result_bind]. by destruct (allow || _). }
  assert (∀ k, recover sig (sig_digest t chain cfd) = Ok k →
    cache_good U (emplace_back c (mk_cached (trx_id t) k sig (stop - start)))) as Hput.
  { intros k Hk. by eapply emplace_back_good. }
  destruct (find_sig c sig) as [e|] eqn:Hf.
  - apply find_sig_Some in Hf as [He <-]. destruct (decide (ck_trx_id e = trx_id t)) as [Hid|Hid].
    + cbn [mbind result_bind]. apply Hend; [|done]. by apply (Hgood e He (t, chain, cfd)).
    + destruct (recover (ck_sig e) _) as [k|ex] eqn:Hk; [|done].
      exact (Hend k _ eq_refl (Hput k eq_refl) _).
  - destruct (recover sig _) as [k|ex] eqn:Hk; [|done].
    exact (Hend k _ eq_refl (Hput k eq_refl) _).
Qed.
End keys.

Section cache.
Context {cr : Crypto} {fc : TrxFc}.

Lemma recover_fold_plain U t chain cfd deadline allow sigs : ∀ c keys cpu,
  id_fixes_digest U → cache_good U c → U (t, chain, cfd) →
  match fold_res (recover_one t (sig_digest t chain cfd) deadline allow) (c, keys, cpu) sigs with
  | Ok (c', keys', _) => cache_good U c' ∧
      fold_res (recover_plain (sig_digest t chain cfd) deadline allow) keys sigs = Ok keys'
  | Throw e => fold_res (recover_plain (sig_digest t chain cfd) deadline allow) keys sigs = Throw e
  end.
Proof.
  induction sigs as [|s sigs IH]; intros c keys cpu Hfix Hgood Hx; cbn [fold_res]; [done|].
  pose proof (recover_one_plain U c keys cpu t chain cfd deadline allow s Hfix Hgood Hx) as H1.
  destruct (recover_one _ _ _ _ _ s) as [[[c1 k1] cpu1]|e]; cbn [mbind result_bind].
  - destruct H1 as [Hg1 E1]. rewrite E1. by apply IH.
  - by rewrite H1.
Qed.

End cache.

(** ** An instance of the outside code *)
#[export] Instance transaction_header_eq_dec : EqDecision transaction_header.
Proof. solve_decision. Defined.
#[export] Instance trx_action_eq_dec : EqDecision action.
Proof. solve_decision. Defined.
#[export] Instance transaction_eq_dec : EqDecision transaction.
Proof. solve_decision. Defined.

#[export] Instance trx_action_countable : Countable action.
Proof.
  refine (inj_countable' (λ a, (a_account a, a_name a, a_authorization a, a_data a))
    (λ p, mk_action p.1.1.1 p.1.1.2 p.1.2 p.2) _).
  by intros [].
Defined.
#[export] Instance transaction_countable : Countable transaction.
Proof.
  refine (inj_countable' (λ t, let h := trx_header t in
      ((expiration h, ref_block_num h, ref_block_prefix h, max_net_usage_words h,
        max_cpu_usage_ms h, delay_sec h),
       (context_free_actions t, actions t, transaction_extensions t)))
    (λ p, mk_transaction {| expiration := p.1.1.1.1.1.1; ref_block_num := p.1.1.1.1.1.2;
        ref_block_prefix := p.1.1.1.1.2; max_net_usage_words := p.1.1.1.2;
        max_cpu_usage_ms := p.1.1.2; delay_sec := p.1.2 |} p.2.1.1 p.2.1.2 p.2.2) _).
  by intros [[] ? ? ?].
Defined.

(** A value as one number. *)
Definition pack_one {A} `{Countable A} (x : A) : list Z := [Z.pos (encode x)].
Definition unpack_one {A} `{Countable A} (b : list Z) : result A :=
  match b with
  | [Z.pos p] => of_option std_out_of_range (decode p)
  | _ => Throw std_out_of_range
  end.

Lemma unpack_pack_one {A} `{Countable A} (x : A) : unpack_one (pack_one x) = Ok x.
Proof. unfold unpack_one, pack_one. by rewrite decode_encode. Qed.

#[export] Instance demo_trx_fc : TrxFc := {|
  sha256 b := mk_digest (fold_left (λ h x, (h * 31 + x) mod 2 ^ 61) b 7) 0 0 0;
  pack_digest d := [hash0 d; hash1 d; hash2 d; hash3 d];
  pack_trx := pack_one;
  unpack_trx := unpack_one;
  pack_cfd := pack_one;
  unpack_cfd := unpack_one;
  pack_signatures l := Z.of_nat (length l) :: l;
  pack_bytes l := Z.of_nat (length l) :: l;
  unpack_context _ := Throw std_out_of_range;
  deflate b := 120 :: b;
  inflate b := match b with _ :: b => ([b], true) | [] => ([], false) end;
  recover s d := Ok (s + hash0 d);
|}.

#[export] Instance demo_trx_fc_laws : TrxFcLaws demo_trx_fc.
Proof.
  split; intros; cbn; [apply unpack_pack_one..|done|done|by rewrite app_nil_r].
Qed.

Definition plain_header : transaction_header :=
  {| expiration := 1000; ref_block_num := 0; ref_block_prefix := 0; max_net_usage_words := 0;
     max_cpu_usage_ms := 0; delay_sec := 0 |}.
Definition demo_trx : transaction :=
  mk_transaction plain_header [] [mk_action 5 6 [{| actor := 5; permission := 7 |}] [1; 2]] [].
Definition demo_signed (cfd : list (list Z)) : signed_transaction := mk_signed demo_trx [11] cfd.

Lemma packed_roundtrip_witness :
  pack_signed (demo_signed [[3]]) compression_zlib ≫= unpack_packed = Ok (demo_signed [[3]]) ∧
  pack_signed (demo_signed [[3]]) 9 ≫= unpack_packed = Throw unknown_transaction_compression.
Proof.
  split; [|exact (packed_roundtrip (demo_signed [[3]]) 9)].
  rewrite (packed_roundtrip (demo_signed [[3]]) compression_zlib). vm_compute. reflexivity.
Defined.

Definition demo_content (x : transaction * digest_type * list (list Z)) : Prop :=
  x = (demo_trx, zero_digest, []).


(** The id of a transaction leaves out its context-free data, the signed
    digest does not.  After a transaction was seen, the same signature on the
    same transaction with other context-free data yields the key cached for the
    first one, although recovery from the new digest gives a different key. *)
Theorem cached_key_for_other_data :
  let keys_for cache cfd := get_signature_keys cache demo_trx [(11, (0, 3))] zero_digest 10 1 cfd false in
  match keys_for [] [[3]], keys_for [] [[4]] with
  | Ok (cache, keys, _), Ok (_, keys', _) =>
      match keys_for cache [[4]] with
      | Ok (_, returned, _) => returned = keys ∧ keys' ≠ keys
      | Throw _ => False
      end
  | _, _ => False
  end.
Proof. vm_compute. by split. Qed.
