(* ===== verification/BlockHeaderState.v ===== *)
(** * Block header states ([block_header_state.hpp], [block_header_state.cpp],
    the genesis state of [controller.cpp])

    The light-weight consensus state that a node derives from headers alone:
    the active and the pending producer schedule, the delegated
    proof-of-stake confirmation counts, the proposed and the last
    irreversible block number.  [next] makes the template of the next block,
    [finish_next] completes it with a header.  A dereferenced null pointer, an
    index outside a vector and a division by zero are
    [undefined_behaviour]. *)

From S2P Require Import Prelude Config Merkle BlockHeader.
Local Open Scope Z_scope.

(** ** Data *)

Abbreviation last_map := (gmap Z Z) (only parsing).

(** [detail::block_header_state_common] *)
Record block_header_state_common := mk_common {
  block_num : Z;
  dpos_proposed_irreversible_blocknum : Z;
  dpos_irreversible_blocknum : Z;
  active_schedule : producer_schedule_type;
  blockroot_merkle : incremental_merkle;
  producer_to_last_produced : last_map;
  producer_to_last_implied_irb : last_map;
  state_signing_key : public_key_type;
  confirm_count : list Z;
}.

(** [detail::schedule_info] *)
Record schedule_info := mk_schedule_info {
  schedule_lib_num : Z;
  schedule_hash : digest_type;
  schedule : producer_schedule_type;
}.

(** [protocol_feature_activation_set_ptr]: [None] is the null pointer. *)
Abbreviation activation_set_ptr := (option (gset digest_type)) (only parsing).

Record pending_block_header_state := mk_pending {
  pending_common :> block_header_state_common;
  prev_activated_protocol_features : activation_set_ptr;
  prev_pending_schedule : schedule_info;
  was_pending_promoted : bool;
  pending_previous : block_id_type;
  pending_producer : Z;
  pending_timestamp : Z;
  active_schedule_version : Z;
  pending_confirmed : Z;
}.

Record block_header_state := mk_bhs {
  bhs_common :> block_header_state_common;
  id : block_id_type;
  header : signed_block_header;
  pending_schedule : schedule_info;
  activated_protocol_features : activation_set_ptr;
  header_exts : list (list digest_type);
}.

(** ** Operations *)

Definition is_active_producer (s : block_header_state) (n : Z) : bool :=
  bool_decide (is_Some (producer_to_last_produced s !! n)).

Definition has_pending_producers (s : block_header_state) : bool :=
  negb (length (producers (schedule (pending_schedule s))) =? 0)%nat.

(** [get_scheduled_producer( t )] *)
Definition get_scheduled_producer (s : block_header_state) (slot : Z) : result producer_key :=
  let n := Z.of_nat (length (producers (active_schedule s))) in
  if n * producer_repetitions =? 0 then Throw undefined_behaviour
  else
    let index := slot mod (n * producer_repetitions) in
    let index := index / producer_repetitions in
    of_option undefined_behaviour (producers (active_schedule s) !! Z.to_nat index).

(** The last implied irreversible block number of every producer, counting
    the producer of the next block with the current proposal. *)
Definition dpos_blocknums (s : block_header_state) (producer_of_next_block : Z) : list Z :=
  (λ i, if i.1 =? producer_of_next_block then dpos_proposed_irreversible_blocknum s else i.2) <$>
  map_to_list (producer_to_last_implied_irb s).

(** [calc_dpos_last_irreversible]: [nth_element] leaves at [index] the element
    a full sort would put there. *)
Definition calc_dpos_last_irreversible (s : block_header_state) (producer_of_next_block : Z) : Z :=
  let blocknums := dpos_blocknums s producer_of_next_block in
  if (length blocknums =? 0)%nat then 0
  else
    let index := ((length blocknums - 1) / 3)%nat in
    merge_sort Z.le blocknums !!! index.

(** The [while] loop of [next]: [i1] is [i + 1], [cc] the vector
    [result.confirm_count]. *)
Fixpoint confirm_loop (result_block_num : Z) (i1 : nat) (blocks_to_confirm : Z)
    (cc : list Z) (proposed : Z) : list Z * Z :=
  match i1 with
  | O => (cc, proposed)
  | S i =>
      if blocks_to_confirm =? 0 then (cc, proposed)
      else
        let cc := <[i := u8 (cc !!! i - 1)]> cc in
        if cc !!! i =? 0 then
          let block_num_for_i := u32 (result_block_num - u32 (Z.of_nat (length cc) - 1 - Z.of_nat i)) in
          (drop (S i) cc, block_num_for_i)
        else confirm_loop result_block_num i (blocks_to_confirm - 1) cc proposed
  end.

(** The confirmation counts with the entry of the new block at the end; at
    most [maximum_tracked_dpos_confirmations] are kept. *)
Definition grow_confirm_count (cc : list Z) (required_confs : Z) : list Z :=
  if Z.of_nat (length cc) <? maximum_tracked_dpos_confirmations
  then cc ++ [u8 required_confs]
  else tail cc ++ [u8 required_confs].

(** The two loops over a promoted schedule: producers that stay keep their
    entry, new ones start at [fresh], and the producer of the block gets
    [own]. *)
Definition promote_map (old : last_map) (own_name own fresh : Z) (ps : list producer_key) : last_map :=
  foldl (λ m pro,
    if producer_name pro =? own_name then <[producer_name pro := own]> m
    else match old !! producer_name pro with
         | Some existing => <[producer_name pro := existing]> m
         | None => <[producer_name pro := fresh]> m
         end) ∅ ps.

Section operations.
Context `{cr : Crypto}.

(** [block_header_state::next( when, num_prev_blocks_to_confirm )] *)
Definition next_timestamp (s : block_header_state) (when : Z) : result Z :=
  if negb (when =? 0) then
    _ ← EOS_ASSERT (timestamp (header s) <? when) block_validate_exception;
    Ok when
  else Ok (u32 (timestamp (header s) + 1)).

Definition check_double_confirm (s : block_header_state) (name num_prev_blocks_to_confirm : Z) :
    result unit :=
  match producer_to_last_produced s !! name with
  | Some last => EOS_ASSERT (last <? u32 (u32 (block_num s + 1) - num_prev_blocks_to_confirm))
                   producer_double_confirm
  | None => Ok tt
  end.

(** What [next] computes once the producer is known and the id of the current
    block is in the tree of block ids. *)
Definition required_confs (s : block_header_state) : Z :=
  u32 (Z.of_nat (length (producers (active_schedule s))) * 2 / 3) + 1.

Definition next_result (s : block_header_state) (when : Z) (prokey : producer_key)
    (blockroot : incremental_merkle) (num_prev_blocks_to_confirm : Z) : pending_block_header_state :=
  let result_block_num := u32 (block_num s + 1) in
  let cc := grow_confirm_count (confirm_count s) (required_confs s) in
  let confirmed_ := confirm_loop result_block_num (length cc)
        (num_prev_blocks_to_confirm + 1) cc (dpos_proposed_irreversible_blocknum s) in
  let lib := calc_dpos_last_irreversible s (producer_name prokey) in
  let promoted := has_pending_producers s &&
                  (schedule_lib_num (pending_schedule s) <=? lib) in
  let active := if promoted then schedule (pending_schedule s) else active_schedule s in
  let last_produced :=
    if promoted then
      <[producer_name prokey := result_block_num]>
        (promote_map (producer_to_last_produced s) (producer_name prokey) result_block_num lib
           (producers active))
    else <[producer_name prokey := result_block_num]> (producer_to_last_produced s) in
  let implied_irb :=
    if promoted then
      promote_map (producer_to_last_implied_irb s) (producer_name prokey)
        (dpos_proposed_irreversible_blocknum s) lib (producers active)
    else <[producer_name prokey := dpos_proposed_irreversible_blocknum s]>
           (producer_to_last_implied_irb s) in
  {| pending_common := {|
       block_num := result_block_num;
       dpos_proposed_irreversible_blocknum := confirmed_.2;
       dpos_irreversible_blocknum := lib;
       active_schedule := active;
       blockroot_merkle := blockroot;
       producer_to_last_produced := last_produced;
       producer_to_last_implied_irb := implied_irb;
       state_signing_key := block_signing_key prokey;
       confirm_count := confirmed_.1 |};
     prev_activated_protocol_features := activated_protocol_features s;
     prev_pending_schedule := pending_schedule s;
     was_pending_promoted := promoted;
     pending_previous := id s;
     pending_producer := producer_name prokey;
     pending_timestamp := when;
     active_schedule_version := version (active_schedule s);
     pending_confirmed := num_prev_blocks_to_confirm |}.

Definition next (s : block_header_state) (when num_prev_blocks_to_confirm : Z) :
    result pending_block_header_state :=
  when ← next_timestamp s when;
  prokey ← get_scheduled_producer s when;
  _ ← check_double_confirm s (producer_name prokey) num_prev_blocks_to_confirm;
  blockroot ← append hash_pair (blockroot_merkle s) (id s);
  Ok (next_result s when prokey blockroot num_prev_blocks_to_confirm).

(** [pending_block_header_state::make_block_header] *)
Definition make_block_header (p : pending_block_header_state) (trx_mroot act_mroot : digest_type)
    (new_prods : option producer_schedule_type) (new_protocol_feature_activations : list digest_type) :
    signed_block_header := {|
  sbh_header := {|
    timestamp := pending_timestamp p;
    producer := pending_producer p;
    confirmed := pending_confirmed p;
    previous := pending_previous p;
    transaction_mroot := trx_mroot;
    action_mroot := act_mroot;
    schedule_version := active_schedule_version p;
    new_producers := new_prods;
    header_extensions :=
      if (0 <? length new_protocol_feature_activations)%nat
      then [(extension_id, pack_digests new_protocol_feature_activations)] else [] |};
  producer_signature := 0;
|}.

(** [sig_digest], [sign], [signee], [verify_signee] *)
Definition sig_digest (s : block_header_state) : result digest_type :=
  root ← get_root (blockroot_merkle s);
  let header_bmroot := hash_pair (header_digest (header s), root) in
  Ok (hash_pair (header_bmroot, schedule_hash (pending_schedule s))).

Definition set_signature (s : block_header_state) (sig : signature_type) : block_header_state :=
  mk_bhs (bhs_common s) (id s) (mk_signed_block_header (header s) sig) (pending_schedule s)
    (activated_protocol_features s) (header_exts s).

Definition sign (s : block_header_state) (signer : digest_type → signature_type) :
    result block_header_state :=
  d ← sig_digest s;
  let sig := signer d in
  k ← recover_key sig d false;
  _ ← EOS_ASSERT (state_signing_key s =? k) wrong_signing_key;
  Ok (set_signature s sig).

Definition signee (s : block_header_state) : result public_key_type :=
  d ← sig_digest s;
  recover_key (producer_signature (header s)) d true.

Definition verify_signee (s : block_header_state) (k : public_key_type) : result unit :=
  EOS_ASSERT (state_signing_key s =? k) wrong_signing_key.

(** The callback that checks new protocol features against the activated ones. *)
Abbreviation validator_type := (Z → gset digest_type → list digest_type → result unit) (only parsing).

(** [pending_block_header_state::_finish_next] *)
Definition check_header (p : pending_block_header_state) (h : signed_block_header) : result unit :=
  _ ← EOS_ASSERT (timestamp h =? pending_timestamp p) block_validate_exception;
  _ ← EOS_ASSERT (bool_decide (previous h = pending_previous p)) unlinkable_block_exception;
  _ ← EOS_ASSERT (confirmed h =? pending_confirmed p) block_validate_exception;
  _ ← EOS_ASSERT (producer h =? pending_producer p) wrong_producer;
  EOS_ASSERT (schedule_version h =? active_schedule_version p) producer_schedule_exception.

Definition check_new_producers (p : pending_block_header_state) (h : signed_block_header) :
    result unit :=
  match new_producers h with
  | None => Ok tt
  | Some np =>
      _ ← EOS_ASSERT (negb (was_pending_promoted p)) producer_schedule_exception;
      _ ← EOS_ASSERT (version np =? u32 (version (active_schedule p) + 1)) producer_schedule_exception;
      EOS_ASSERT (length (producers (schedule (prev_pending_schedule p))) =? 0)%nat
        producer_schedule_exception
  end.

Definition activate_features (p : pending_block_header_state) (exts : list (list digest_type))
    (validator : validator_type) : result activation_set_ptr :=
  match exts with
  | new_protocol_features :: _ =>
      prev ← of_option undefined_behaviour (prev_activated_protocol_features p);
      _ ← validator (pending_timestamp p) prev new_protocol_features;
      Some <$> protocol_feature_activation_set prev new_protocol_features true
  | [] => Ok (prev_activated_protocol_features p)
  end.

Definition next_pending_schedule (p : pending_block_header_state) (h : signed_block_header) :
    schedule_info :=
  match new_producers h with
  | Some np => mk_schedule_info (block_num p) (hash_schedule np) np
  | None =>
      mk_schedule_info (schedule_lib_num (prev_pending_schedule p))
        (schedule_hash (prev_pending_schedule p))
        (if was_pending_promoted p
         then mk_schedule (version (schedule (prev_pending_schedule p))) []
         else schedule (prev_pending_schedule p))
  end.

Definition _finish_next (p : pending_block_header_state) (h : signed_block_header)
    (validator : validator_type) : result block_header_state :=
  _ ← check_header p h;
  _ ← check_new_producers p h;
  exts ← validate_and_extract_header_extensions h;
  new_activated ← activate_features p exts validator;
  Ok (mk_bhs (pending_common p) (header_id h) h (next_pending_schedule p h) new_activated exts).

(** The two overloads of [finish_next]: validation of a received header, and
    signing of a produced one, which also stores the signature in [h]. *)
Definition finish_next (p : pending_block_header_state) (h : signed_block_header)
    (validator : validator_type) (skip_validate_signee : bool) : result block_header_state :=
  result ← _finish_next p h validator;
  _ ← if negb skip_validate_signee
      then k ← signee result; verify_signee result k else Ok tt;
  Ok result.

Definition finish_next_sign (p : pending_block_header_state) (h : signed_block_header)
    (validator : validator_type) (signer : digest_type → signature_type) :
    result (block_header_state * signed_block_header) :=
  result ← _finish_next p h validator;
  result ← sign result signer;
  Ok (result, mk_signed_block_header h (producer_signature (header result))).

(** [block_header_state::next( h, validator, skip_validate_signee )] *)
Definition next_header (s : block_header_state) (h : signed_block_header)
    (validator : validator_type) (skip_validate_signee : bool) : result block_header_state :=
  p ← next s (timestamp h) (confirmed h);
  finish_next p h validator skip_validate_signee.

(** [get_new_protocol_feature_activations]; the variant has one alternative. *)
Definition get_new_protocol_feature_activations (s : block_header_state) : list digest_type :=
  match header_exts s with
  | [] => []
  | l :: _ => l
  end.

(** ** The genesis state ([controller_impl::initialize_blockchain_state]) *)

Definition genesis_header (initial_timestamp : Z) (chain_id : digest_type) : block_header :=
  mk_block_header initial_timestamp 0 1 zero_digest zero_digest chain_id 0 None [].

Definition genesis_state (initial_producers : list producer_key) (initial_timestamp : Z)
    (chain_id : digest_type) : block_header_state :=
  let initial_schedule := mk_schedule 0 initial_producers in
  let h := genesis_header initial_timestamp chain_id in
  {| bhs_common := {|
       block_num := header_block_num h;
       dpos_proposed_irreversible_blocknum := 0;
       dpos_irreversible_blocknum := 0;
       active_schedule := initial_schedule;
       blockroot_merkle := empty_merkle;
       producer_to_last_produced := ∅;
       producer_to_last_implied_irb := ∅;
       state_signing_key := 0;
       confirm_count := [] |};
     id := header_id h;
     header := mk_signed_block_header h 0;
     pending_schedule := mk_schedule_info 0 (hash_schedule initial_schedule) initial_schedule;
     activated_protocol_features := Some ∅;
     header_exts := [] |}.
End operations.

(** ** The last irreversible block *)

Implicit Types s : block_header_state.

(** Elements of a sorted list before, at and after an index. *)
Lemma sorted_take_le (l : list Z) i r :
  StronglySorted Z.le l → l !! i = Some r → Forall (λ v, v ≤ r) (take (S i) l).
Proof.
  intros Hs. revert i. induction Hs as [|x l Hs IH Hx]; intros i Hi; [done|].
  destruct i as [|i]; simpl in *.
  - injection Hi as ->. rewrite take_0. by constructor.
  - constructor; [|by apply IH]. rewrite Forall_forall in Hx.
    apply Hx, (list_elem_of_lookup_2 _ i), Hi.
Qed.

Lemma sorted_drop_ge (l : list Z) i r :
  StronglySorted Z.le l → l !! i = Some r → Forall (λ v, r ≤ v) (drop i l).
Proof.
  intros Hs. revert i. induction Hs as [|x l Hs IH Hx]; intros i Hi; [done|].
  destruct i as [|i]; simpl in *; [injection Hi as ->; by constructor|by apply IH].
Qed.

(** The number of entries at or above [b], read off the sorted list. *)
Lemma sorted_count (l : list Z) i r b :
  StronglySorted Z.le l → l !! i = Some r →
  (b ≤ r → (length l - i ≤ length (filter (λ v, (b ≤ v)%Z) l))%nat) ∧
  (r < b → (length (filter (λ v, (b ≤ v)%Z) l) ≤ length l - S i)%nat).
Proof.
  intros Hs Hi. split; intros Hb.
  - rewrite <- (take_drop i l) at 2. rewrite filter_app, length_app.
    rewrite (filter_all _ (drop i l)); [rewrite length_drop; lia|].
    eapply Forall_impl; [by apply sorted_drop_ge|]. simpl. lia.
  - rewrite <- (take_drop (S i) l) at 1. rewrite filter_app, length_app.
    rewrite (filter_none _ (take (S i) l)); simpl length.
    + etrans; [apply length_filter|]. rewrite length_drop. lia.
    + eapply Forall_impl; [by eapply sorted_take_le|]. simpl. lia.
Qed.

Lemma filter_length_Permutation {A} (P : A → Prop) `{∀ x, Decision (P x)} l1 l2 :
  l1 ≡ₚ l2 → length (filter P l1) = length (filter P l2).
Proof. intros H1. by rewrite H1. Qed.

Lemma dpos_blocknums_length s p :
  length (dpos_blocknums s p) = size (producer_to_last_implied_irb s).
Proof. unfold dpos_blocknums. by rewrite length_fmap, length_map_to_list. Qed.

Lemma calc_dpos_count s p b :
  producer_to_last_implied_irb s ≠ ∅ →
  b ≤ calc_dpos_last_irreversible s p ↔
  (2 * length (dpos_blocknums s p) < 3 * length (filter (λ v, (b ≤ v)%Z) (dpos_blocknums s p)))%nat.
Proof.
  intros Hne. unfold calc_dpos_last_irreversible.
  assert (length (dpos_blocknums s p) ≠ 0)%nat as Hn
    by (rewrite dpos_blocknums_length; by apply map_size_non_empty_iff).
  destruct (Nat.eqb_spec (length (dpos_blocknums s p)) 0) as [|_]; [done|].
  set (l := dpos_blocknums s p) in *. set (n := length l) in *.
  pose proof (merge_sort_Permutation Z.le l) as Hp.
  pose proof (Permutation_length Hp) as Hlen.
  rewrite <- (filter_length_Permutation _ _ _ Hp).
  pose proof (Nat.div_mod_eq (n - 1) 3). pose proof (Nat.mod_upper_bound (n - 1) 3).
  destruct (lookup_lt_is_Some_2 (merge_sort Z.le l) ((n - 1) / 3)) as [r Hr].
  { rewrite Hlen. lia. }
  rewrite (list_lookup_total_correct _ _ _ Hr).
  destruct (sorted_count _ _ _ b (StronglySorted_merge_sort Z.le l) Hr) as [H1 H2].
  rewrite Hlen in H1, H2. split; [lia|].
  intros H3. destruct (Z.le_gt_cases b r) as [|Hb]; [done|]. specialize (H2 Hb). lia.
Qed.

(** C23.  The last irreversible block number is the greatest number that more
    than two thirds of the tracked producers have implied irreversible, the
    producer of the next block counted with the current proposal. *)
Theorem calc_dpos_two_thirds s p b :
  producer_to_last_implied_irb s ≠ ∅ →
  b ≤ calc_dpos_last_irreversible s p ↔
  (2 * size (producer_to_last_implied_irb s) <
     3 * length (filter (λ v, (b ≤ v)%Z) (dpos_blocknums s p)))%nat.
Proof. intros Hne. rewrite <- (dpos_blocknums_length s p). by apply calc_dpos_count. Qed.

(** ** Confirmation counts *)

(** The entries from index [lo] on, decremented. *)
Definition dec_from (lo : nat) (cc : list Z) : list Z :=
  imap (λ j c, if decide (lo ≤ j)%nat then c - 1 else c) cc.

Definition count_ok (c : Z) : Prop := 1 ≤ c ≤ 255.

Lemma dec_from_lookup lo cc j :
  dec_from lo cc !! j = (λ c, if decide (lo ≤ j)%nat then c - 1 else c) <$> cc !! j.
Proof. unfold dec_from. by rewrite list_lookup_imap. Qed.

Lemma dec_from_length lo cc : length (dec_from lo cc) = length cc.
Proof. apply length_imap. Qed.

Lemma dec_from_end cc : dec_from (length cc) cc = cc.
Proof.
  apply list_eq. intros j. rewrite dec_from_lookup.
  destruct (cc !! j) as [c|] eqn:Hj; simpl; [|done].
  apply lookup_lt_Some in Hj. by rewrite decide_False by lia.
Qed.

Lemma dec_from_step i cc c :
  cc !! i = Some c → count_ok c →
  <[i := u8 (dec_from (S i) cc !!! i - 1)]> (dec_from (S i) cc) = dec_from i cc ∧
  dec_from i cc !!! i = c - 1.
Proof.
  intros Hi Hc.
  assert (dec_from (S i) cc !!! i = c) as ->.
  { apply list_lookup_total_correct. rewrite dec_from_lookup, Hi. simpl.
    by rewrite decide_False by lia. }
  rewrite wrap_small by (unfold in_u, count_ok in *; lia). split.
  - apply list_eq. intros j. destruct (decide (i = j)) as [<-|Hne].
    + rewrite list_lookup_insert_eq by (rewrite dec_from_length; by eapply lookup_lt_Some).
      rewrite dec_from_lookup, Hi. simpl. by rewrite decide_True by lia.
    + rewrite list_lookup_insert_ne, !dec_from_lookup by done.
      destruct (cc !! j); simpl; [|done]. do 2 f_equal.
      destruct (decide (S i ≤ j)%nat), (decide (i ≤ j)%nat); [done|lia|lia|done].
  - apply list_lookup_total_correct. rewrite dec_from_lookup, Hi. simpl.
    by rewrite decide_True by lia.
Qed.

(** The loop decrements the last [k] counts, newest first, and stops at the
    first that reaches zero: that block becomes the proposal and the counts up
    to it are dropped. *)
Lemma confirm_loop_spec bn cc prop i1 k :
  Forall count_ok cc → (i1 ≤ length cc)%nat → 0 ≤ k →
  (∀ j, (i1 ≤ j)%nat → cc !! j ≠ Some 1) →
  (∃ i, (i < i1)%nat ∧ Z.of_nat i1 - k ≤ Z.of_nat i ∧ cc !! i = Some 1 ∧
     (∀ j, (i < j)%nat → cc !! j ≠ Some 1) ∧
     confirm_loop bn i1 k (dec_from i1 cc) prop =
       (drop (S i) (dec_from i cc), u32 (bn - u32 (Z.of_nat (length cc) - 1 - Z.of_nat i)))) ∨
  (∃ lo, Z.of_nat lo = Z.max 0 (Z.of_nat i1 - k) ∧ (∀ j, (lo ≤ j)%nat → cc !! j ≠ Some 1) ∧
     confirm_loop bn i1 k (dec_from i1 cc) prop = (dec_from lo cc, prop)).
Proof.
  intros Hcc. revert k. induction i1 as [|i IH]; intros k Hi Hk Hno.
  { right. exists 0%nat. split; [lia|done]. }
  cbn [confirm_loop]. destruct (Z.eqb_spec k 0) as [->|Hk0].
  { right. exists (S i). split; [lia|done]. }
  destruct (lookup_lt_is_Some_2 cc i ltac:(lia)) as [c Hc].
  assert (count_ok c) as Hcok by (eapply Forall_lookup_1; done).
  destruct (dec_from_step i cc c Hc Hcok) as [-> ->].
  destruct (Z.eqb_spec (c - 1) 0) as [Hz|Hz].
  - left. exists i. replace c with 1 in Hc by lia. rewrite dec_from_length.
    split_and!; [lia|lia|done| |done]. intros j Hj. apply Hno. lia.
  - destruct (IH (k - 1)) as [(i0 & H1 & H2 & H3)|(lo & H1 & H2)]; [lia|lia| | |].
    + intros j Hj. destruct (decide (j = i)) as [->|]; [|apply Hno; lia].
      rewrite Hc. intros [= ->]. lia.
    + left. exists i0. split_and!; [lia|lia|apply H3..].
    + right. exists lo. split; [lia|done].
Qed.

Lemma grow_confirm_count_length cc r :
  Z.of_nat (length cc) ≤ maximum_tracked_dpos_confirmations →
  (0 < length (grow_confirm_count cc r))%nat ∧
  Z.of_nat (length (grow_confirm_count cc r)) ≤ maximum_tracked_dpos_confirmations ∧
  (length (grow_confirm_count cc r) ≤ S (length cc))%nat.
Proof.
  unfold grow_confirm_count, maximum_tracked_dpos_confirmations. intros H.
  destruct (Z.ltb_spec (Z.of_nat (length cc)) 1024); rewrite length_app; simpl; [lia|].
  destruct cc; simpl in *; lia.
Qed.

Lemma grow_confirm_count_ok cc r :
  Forall count_ok cc → count_ok r → Forall count_ok (grow_confirm_count cc r).
Proof.
  intros Hcc Hr. unfold grow_confirm_count. rewrite (wrap_small 8) by (unfold in_u, count_ok in *; lia).
  case_match; apply Forall_app; split; [done|by constructor| |by constructor].
  destruct Hcc; [constructor|done].
Qed.

(** ** Inversion of the transition *)

Section transition.
Context `{cr : Crypto} {crl : CryptoLaws cr}.

Lemma next_Ok s when n p :
  next s when n = Ok p ↔
  ∃ t pk m, next_timestamp s when = Ok t ∧ get_scheduled_producer s t = Ok pk ∧
    check_double_confirm s (producer_name pk) n = Ok tt ∧
    append hash_pair (blockroot_merkle s) (id s) = Ok m ∧ p = next_result s t pk m n.
Proof.
  unfold next. split.
  - intros (t & Ht & (pk & Hpk & ([] & Hd & (m & Hm & [= <-])%bind_Ok)%bind_Ok)%bind_Ok)%bind_Ok.
    by exists t, pk, m.
  - intros (t & pk & m & -> & Hpk & Hd & Hm & ->). simpl. rewrite Hpk. simpl. rewrite Hd. simpl.
    by rewrite Hm.
Qed.

Definition header_matches (p : pending_block_header_state) (h : signed_block_header) : Prop :=
  timestamp h = pending_timestamp p ∧ previous h = pending_previous p ∧
  confirmed h = pending_confirmed p ∧ producer h = pending_producer p ∧
  schedule_version h = active_schedule_version p.

Lemma check_header_Ok p h : check_header p h = Ok tt ↔ header_matches p h.
Proof.
  unfold check_header, header_matches. split.
  - intros H. res_inv. bool_prop. split_and!; [lia|done|lia..].
  - intros (-> & -> & -> & -> & ->). by rewrite !Z.eqb_refl, bool_decide_eq_true_2.
Qed.

Definition new_producers_ok (p : pending_block_header_state) (h : signed_block_header) : Prop :=
  ∀ np, new_producers h = Some np →
    was_pending_promoted p = false ∧ version np = u32 (version (active_schedule p) + 1) ∧
    producers (schedule (prev_pending_schedule p)) = [].

Lemma check_new_producers_Ok p h : check_new_producers p h = Ok tt ↔ new_producers_ok p h.
Proof.
  unfold check_new_producers, new_producers_ok. destruct (new_producers h) as [np|]; [|naive_solver].
  split.
  - intros (u1 & H1 & (u2 & H2 & H3)%bind_Ok)%bind_Ok np' [= <-].
    apply EOS_ASSERT_Ok in H1, H2, H3. bool_prop. split_and!; [done|lia|].
    by apply Nat.eqb_eq, nil_length_inv in H3.
  - intros H. destruct (H np eq_refl) as (-> & -> & ->). by rewrite Z.eqb_refl.
Qed.

Lemma _finish_next_Ok p h v s' :
  _finish_next p h v = Ok s' ↔
  header_matches p h ∧ new_producers_ok p h ∧
  ∃ exts fs, validate_and_extract_header_extensions h = Ok exts ∧ activate_features p exts v = Ok fs ∧
    s' = mk_bhs (pending_common p) (header_id h) h (next_pending_schedule p h) fs exts.
Proof.
  unfold _finish_next. rewrite <- check_header_Ok, <- check_new_producers_Ok. split.
  - intros ([] & H1 & ([] & H2 & (exts & H3 & (fs & H4 & [= <-])%bind_Ok)%bind_Ok)%bind_Ok)%bind_Ok.
    naive_solver.
  - intros (-> & -> & exts & fs & -> & Hfs & ->). simpl. by rewrite Hfs.
Qed.

Lemma finish_next_Ok p h v skip s' :
  finish_next p h v skip = Ok s' ↔
  _finish_next p h v = Ok s' ∧ (skip = false → signee s' = Ok (state_signing_key s')).
Proof.
  unfold finish_next. split.
  - intros (s1 & H1 & (u & H2 & [= <-])%bind_Ok)%bind_Ok. split; [done|]. intros ->. simpl in H2.
    apply bind_Ok in H2 as (k & -> & H3). apply EOS_ASSERT_Ok, Z.eqb_eq in H3. by rewrite H3.
  - intros [-> H]. simpl. destruct skip; simpl; [done|]. rewrite H by done. simpl.
    unfold verify_signee. by rewrite Z.eqb_refl.
Qed.

(** The successor state of [s] under header [h] with producer [pk]. *)
Definition successor s (h : signed_block_header) (pk : producer_key) (m : incremental_merkle)
    (fs : activation_set_ptr) (exts : list (list digest_type)) : block_header_state :=
  let p := next_result s (timestamp h) pk m (confirmed h) in
  mk_bhs (pending_common p) (header_id h) h (next_pending_schedule p h) fs exts.

Lemma next_header_Ok s h v skip s' :
  next_header s h v skip = Ok s' →
  ∃ pk m fs exts, next_timestamp s (timestamp h) = Ok (timestamp h) ∧
    get_scheduled_producer s (timestamp h) = Ok pk ∧
    check_double_confirm s (producer_name pk) (confirmed h) = Ok tt ∧
    append hash_pair (blockroot_merkle s) (id s) = Ok m ∧
    previous h = id s ∧ producer h = producer_name pk ∧
    schedule_version h = version (active_schedule s) ∧
    new_producers_ok (next_result s (timestamp h) pk m (confirmed h)) h ∧
    validate_and_extract_header_extensions h = Ok exts ∧
    activate_features (next_result s (timestamp h) pk m (confirmed h)) exts v = Ok fs ∧
    s' = successor s h pk m fs exts ∧
    (skip = false → signee s' = Ok (state_signing_key s')).
Proof.
  unfold next_header. intros (p & Hp & Hf)%bind_Ok.
  apply next_Ok in Hp as (t & pk & m & Ht & Hpk & Hd & Hm & ->).
  apply finish_next_Ok in Hf as [Hf Hsig].
  apply _finish_next_Ok in Hf as (Hh & Hnp & exts & fs & Hexts & Hfs & ->).
  unfold header_matches in Hh. simpl in Hh. destruct Hh as (<- & Hprev & _ & Hprod & Hv).
  by exists pk, m, fs, exts.
Qed.
End transition.
