(* ===== verification/HeaderChain.v ===== *)
(** * Chains of header states

    Reachable header states: the genesis state of [controller.cpp] followed
    by accepted headers ([BlockHeaderState.next_header]).  An invariant of
    these chains gives the consensus guarantees: block numbers and ids, the
    tree of block ids, the meaning of the confirmation counts, the order of
    the irreversible block numbers, the discipline of schedule versions.  A
    block that a producer builds and signs is accepted, with the same result,
    by every node in the same state. *)

From S2P Require Import Prelude Config Merkle BlockHeader BlockHeaderState.
Local Open Scope Z_scope.

Implicit Types s : block_header_state.

(** [more than two thirds] of the producers that sign on top of [s]. *)
Lemma required_confs_eq s :
  (length (producers (active_schedule s)) ≤ Z.to_nat max_producers)%nat →
  required_confs s = Z.of_nat (length (producers (active_schedule s))) * 2 / 3 + 1 ∧
  count_ok (required_confs s).
Proof.
  unfold required_confs, max_producers, count_ok. intros H.
  set (n := Z.of_nat (length (producers (active_schedule s)))) in *.
  assert (0 ≤ n ≤ 21) by lia. clearbody n.
  assert (0 ≤ n * 2 / 3) by (apply Z.div_pos; lia).
  assert (n * 2 / 3 ≤ 14) by (apply Z.div_le_upper_bound; lia).
  rewrite (wrap_small 32) by (unfold in_u; lia). lia.
Qed.

(** The producer of slot [t] is at place [t / producer_repetitions] of the
    schedule, counted round. *)
Lemma get_scheduled_producer_Ok s t pk :
  get_scheduled_producer s t = Ok pk ↔
  producers (active_schedule s) ≠ [] ∧
  producers (active_schedule s) !!
    Z.to_nat ((t / producer_repetitions) mod Z.of_nat (length (producers (active_schedule s)))) = Some pk.
Proof.
  unfold get_scheduled_producer, producer_repetitions.
  set (l := producers (active_schedule s)).
  destruct (Z.eqb_spec (Z.of_nat (length l) * 3) 0) as [H0|H0].
  { assert (l = []) as -> by (apply nil_length_inv; lia). naive_solver. }
  rewrite of_option_Ok.
  assert (t mod (Z.of_nat (length l) * 3) / 3 = (t / 3) mod Z.of_nat (length l)) as ->.
  { rewrite (Z.mul_comm _ 3), Z.rem_mul_r by lia. rewrite Z.mul_comm, Z.div_add by lia.
    rewrite (Z.div_small (t mod 3)) by (apply Z.mod_pos_bound; lia). lia. }
  split; [|naive_solver]. intros H. split; [|done]. intros Hl. by rewrite Hl in H0.
Qed.

(** ** Promotion of a schedule *)

Lemma promote_map_lookup old own_name own fresh ps k :
  promote_map old own_name own fresh ps !! k =
    if decide (k ∈ producer_name <$> ps) then
      Some (if k =? own_name then own else default fresh (old !! k))
    else None.
Proof.
  set (val k := if k =? own_name then own else default fresh (old !! k)).
  change (if k =? own_name then own else default fresh (old !! k)) with (val k).
  assert (promote_map old own_name own fresh ps =
    foldl (λ m pro, <[producer_name pro := val (producer_name pro)]> m) ∅ ps) as ->.
  { unfold promote_map. generalize (∅ : gmap Z Z). induction ps as [|pro ps IH]; intros m; [done|].
    simpl. rewrite IH. f_equal. subst val. simpl. case_match; [done|]. by case_match. }
  clearbody val. induction ps as [|pro ps IH] using rev_ind; [done|].
  rewrite foldl_app, fmap_app. simpl.
  destruct (decide (k = producer_name pro)) as [->|Hne].
  - rewrite lookup_insert_eq, decide_True; [done|set_solver].
  - rewrite lookup_insert_ne, IH by done. apply decide_ext. set_solver.
Qed.

Lemma promote_map_dom old own_name own fresh ps :
  dom (promote_map old own_name own fresh ps) = list_to_set (C := gset Z) (producer_name <$> ps).
Proof.
  apply set_eq. intros k. rewrite elem_of_dom, promote_map_lookup, elem_of_list_to_set.
  case_decide; split; naive_solver.
Qed.

Lemma promote_map_Forall (P : Z → Prop) old own_name own fresh ps :
  map_Forall (λ _ v, P v) old → P own → P fresh →
  map_Forall (λ _ v, P v) (promote_map old own_name own fresh ps).
Proof.
  intros Hold Ho Hf k v. rewrite promote_map_lookup. case_decide; [|done]. intros [= <-].
  case_match; [done|]. destruct (old !! k) eqn:E; [by eapply Hold|done].
Qed.

Section chains.
Context `{cr : Crypto} {crl : CryptoLaws cr}.

(** What the field widths of a header and the producer limit of
    [set_proposed_producers] guarantee. *)
Definition header_ok (h : block_header) : Prop :=
  in_u 16 (confirmed h) ∧ in_u 32 (timestamp h) ∧
  ∀ np, new_producers h = Some np → (length (producers np) ≤ Z.to_nat max_producers)%nat.

(** [chain pre s]: [s] is the head of a chain, [pre] the states before it,
    genesis first. *)
Inductive chain : list block_header_state → block_header_state → Prop :=
  | chain_genesis ps t chain_id :
      (length ps ≤ Z.to_nat max_producers)%nat →
      chain [] (genesis_state ps t chain_id)
  | chain_next pre s (h : signed_block_header) validator skip s' :
      chain pre s → header_ok h → block_num s + 1 < 2 ^ 32 →
      next_header s h validator skip = Ok s' →
      chain (pre ++ [s]) s'.

(** The blocks of a chain (genesis apart) whose header confirms block [b]. *)
Definition confirms (b : Z) (y : block_header_state) : Prop :=
  block_num y - confirmed (header y) ≤ b ≤ block_num y.
#[local] Instance confirms_dec b y : Decision (confirms b y).
Proof. unfold confirms. apply _. Defined.
Definition confirmations (ch : list block_header_state) (b : Z) : Z :=
  Z.of_nat (length (filter (confirms b) (tail ch))).

(** The count of block [b] is what is left of the confirmations it needs. *)
Definition counts_confirmations (ch : list block_header_state) (b c : Z) : Prop :=
  ∃ parent, ch !! Z.to_nat (b - 2) = Some parent ∧ 2 ≤ b ∧
    c = required_confs parent - confirmations ch b.

Record chain_inv (pre : list block_header_state) (s : block_header_state) : Prop := {
  inv_num : block_num s = Z.of_nat (S (length pre)) ∧ block_num s < 2 ^ 32;
  inv_pre : Forall (λ y : block_header_state, block_num y ≤ block_num s) pre;
  inv_id : id s = header_id (header s) ∧ header_block_num (header s) = block_num s;
  inv_merkle : merkle_inv hash_pair (blockroot_merkle s) (id <$> pre);
  inv_counts : Forall count_ok (confirm_count s) ∧
    Z.of_nat (length (confirm_count s)) ≤ maximum_tracked_dpos_confirmations;
  inv_proposed : 0 ≤ dpos_proposed_irreversible_blocknum s ∧
    dpos_proposed_irreversible_blocknum s + Z.of_nat (length (confirm_count s)) ≤ block_num s;
  inv_lib : 0 ≤ dpos_irreversible_blocknum s ≤ dpos_proposed_irreversible_blocknum s;
  inv_irb : map_Forall (λ _ v, 0 ≤ v ≤ dpos_proposed_irreversible_blocknum s)
    (producer_to_last_implied_irb s);
  inv_dom : dom (producer_to_last_implied_irb s) =
      list_to_set (C := gset Z) (producer_name <$> producers (active_schedule s)) ∨
    producer_to_last_implied_irb s = ∅ ∧ schedule (pending_schedule s) = active_schedule s ∧
      schedule_lib_num (pending_schedule s) = 0;
  inv_size : (length (producers (active_schedule s)) ≤ Z.to_nat max_producers)%nat ∧
    (length (producers (schedule (pending_schedule s))) ≤ Z.to_nat max_producers)%nat;
  inv_version : producers (schedule (pending_schedule s)) = [] ∨
    schedule_hash (pending_schedule s) = hash_schedule (schedule (pending_schedule s)) ∧
    (schedule (pending_schedule s) = active_schedule s ∨
     version (schedule (pending_schedule s)) = u32 (version (active_schedule s) + 1));
  inv_confirmations : ∀ i c, confirm_count s !! i = Some c →
    counts_confirmations (pre ++ [s])
      (block_num s - (Z.of_nat (length (confirm_count s)) - 1 - Z.of_nat i)) c;
}.

(** ** One step *)

Lemma calc_dpos_range s p :
  0 ≤ dpos_proposed_irreversible_blocknum s →
  map_Forall (λ _ v, 0 ≤ v ≤ dpos_proposed_irreversible_blocknum s)
    (producer_to_last_implied_irb s) →
  0 ≤ calc_dpos_last_irreversible s p ≤ dpos_proposed_irreversible_blocknum s.
Proof.
  intros H0 Hirb. unfold calc_dpos_last_irreversible.
  destruct (Nat.eqb_spec (length (dpos_blocknums s p)) 0) as [|Hne]; [lia|].
  set (i := ((_ - 1) / 3)%nat).
  assert (merge_sort Z.le (dpos_blocknums s p) !!! i ∈ dpos_blocknums s p) as Hin.
  { rewrite <- (merge_sort_Permutation Z.le (dpos_blocknums s p)) at 2.
    apply list_elem_of_lookup_total_2. rewrite (Permutation_length (merge_sort_Permutation _ _)).
    subst i. pose proof (Nat.div_mod_eq (length (dpos_blocknums s p) - 1) 3). lia. }
  unfold dpos_blocknums in Hin at 2. apply list_elem_of_fmap in Hin as ([k v] & -> & Hkv).
  apply elem_of_map_to_list in Hkv. specialize (Hirb k v Hkv). simpl in *. case_match; lia.
Qed.

(** How the counts and the proposal change: either the count of a block [b]
    reaches zero and it is the new proposal, or no count does. *)
Lemma counts_step pre s n :
  chain_inv pre s → block_num s + 1 < 2 ^ 32 → 0 ≤ n →
  let cc := grow_confirm_count (confirm_count s) (required_confs s) in
  let bn := block_num s + 1 in
  let r := confirm_loop (u32 (block_num s + 1)) (length cc) (n + 1) cc
             (dpos_proposed_irreversible_blocknum s) in
  Forall count_ok cc ∧ (0 < length cc)%nat ∧
  Z.of_nat (length cc) ≤ maximum_tracked_dpos_confirmations ∧
  dpos_proposed_irreversible_blocknum s + Z.of_nat (length cc) ≤ bn ∧
  ((∃ i, (i < length cc)%nat ∧ Z.of_nat (length cc) - (n + 1) ≤ Z.of_nat i ∧ cc !! i = Some 1 ∧
      (∀ j, (i < j)%nat → cc !! j ≠ Some 1) ∧
      r = (drop (S i) (dec_from i cc), bn - (Z.of_nat (length cc) - 1 - Z.of_nat i))) ∨
   (∃ lo, Z.of_nat lo = Z.max 0 (Z.of_nat (length cc) - (n + 1)) ∧
      (∀ j, (lo ≤ j)%nat → cc !! j ≠ Some 1) ∧
      r = (dec_from lo cc, dpos_proposed_irreversible_blocknum s))).
Proof.
  intros Hinv Hbn Hn cc bn r.
  destruct (inv_num _ _ Hinv) as [Hnum _]. destruct (inv_counts _ _ Hinv) as [Hok Hlen].
  destruct (inv_proposed _ _ Hinv) as [Hp0 Hp].
  destruct (required_confs_eq s) as [_ Hreq]; [apply Hinv|].
  pose proof (grow_confirm_count_length (confirm_count s) (required_confs s) Hlen) as (Hl0 & Hl1 & Hl2).
  pose proof (grow_confirm_count_ok _ _ Hok Hreq) as Hcc. fold cc in Hl0, Hl1, Hl2, Hcc.
  assert (dpos_proposed_irreversible_blocknum s + Z.of_nat (length cc) ≤ bn) by lia.
  split_and!; [done..|]. subst r. rewrite (wrap_small 32) by (unfold in_u; lia).
  destruct (confirm_loop_spec (block_num s + 1) cc (dpos_proposed_irreversible_blocknum s)
    (length cc) (n + 1)) as [(i & H1 & H2 & H3 & H4 & H5)|H']; [done|lia|lia| | |].
  - intros j Hj. by rewrite lookup_ge_None_2.
  - left. exists i. split_and!; [done..|]. rewrite dec_from_end in H5. rewrite H5. f_equal.
    assert (Z.of_nat (length cc) ≤ bn) by lia. unfold maximum_tracked_dpos_confirmations in *.
    rewrite (wrap_small 32 (_ - _ - _)) by (unfold in_u; lia). apply wrap_small. unfold in_u. lia.
  - right. by rewrite dec_from_end in H'.
Qed.

Lemma counts_step_ok pre s n r :
  chain_inv pre s → block_num s + 1 < 2 ^ 32 → 0 ≤ n →
  r = confirm_loop (u32 (block_num s + 1))
        (length (grow_confirm_count (confirm_count s) (required_confs s))) (n + 1)
        (grow_confirm_count (confirm_count s) (required_confs s))
        (dpos_proposed_irreversible_blocknum s) →
  Forall count_ok r.1 ∧ Z.of_nat (length r.1) ≤ maximum_tracked_dpos_confirmations ∧
  dpos_proposed_irreversible_blocknum s ≤ r.2 ∧
  r.2 + Z.of_nat (length r.1) ≤ block_num s + 1.
Proof.
  intros Hinv Hbn Hn ->.
  destruct (counts_step pre s n Hinv Hbn Hn) as (Hok & Hl0 & Hl & Hp & [(i & Hi & _ & _ & Hno & ->)|(lo & Hlo & Hno & ->)]);
    simpl; rewrite ?length_drop, dec_from_length; (split; [|lia]);
    apply Forall_lookup_2; intros j c Hj; rewrite ?lookup_drop, dec_from_lookup in Hj;
    apply fmap_Some in Hj as (c0 & Hc0 & ->); pose proof (Forall_lookup_1 _ _ _ _ Hok Hc0);
    unfold count_ok in *; case_decide; [|lia| |lia].
  - assert (c0 ≠ 1) by (intros ->; apply (Hno (S i + j)%nat); [lia|done]). lia.
  - assert (c0 ≠ 1) by (intros ->; by apply (Hno j)). lia.
Qed.

Lemma confirmations_snoc ch s s' b :
  confirmations ((ch ++ [s]) ++ [s']) b =
  confirmations (ch ++ [s]) b + (if decide (confirms b s') then 1 else 0).
Proof.
  unfold confirmations.
  assert (tail ((ch ++ [s]) ++ [s']) = tail (ch ++ [s]) ++ [s']) as -> by (by destruct ch).
  rewrite filter_app, length_app. case_decide.
  - rewrite filter_cons_True by done. simpl. lia.
  - rewrite filter_cons_False by done. simpl. lia.
Qed.

Lemma confirmations_future pre s b :
  Forall (λ y : block_header_state, block_num y ≤ block_num s) pre → block_num s < b → confirmations (pre ++ [s]) b = 0.
Proof.
  intros Hpre Hb. unfold confirmations. rewrite filter_none; [done|].
  assert (Forall (λ y, ¬ confirms b y) (pre ++ [s])) as H.
  { apply Forall_app. split; [|constructor; [|done]; unfold confirms; lia].
    eapply Forall_impl; [done|]. unfold confirms. simpl. lia. }
  destruct H; [done|]. simpl. done.
Qed.

(** The grown vector, before the new block's confirmations. *)
Lemma grown_confirmations pre s :
  chain_inv pre s →
  let cc := grow_confirm_count (confirm_count s) (required_confs s) in
  ∀ k c, cc !! k = Some c →
    counts_confirmations (pre ++ [s]) (block_num s + 1 - (Z.of_nat (length cc) - 1 - Z.of_nat k)) c.
Proof.
  intros Hinv cc k c Hk.
  destruct (inv_num _ _ Hinv) as [Hnum Hbn]. destruct (inv_counts _ _ Hinv) as [_ Hlen].
  destruct (required_confs_eq s) as [_ Hreq]; [apply Hinv|].
  assert (∃ old, cc = old ++ [required_confs s] ∧
    ∀ k c, old !! k = Some c → counts_confirmations (pre ++ [s])
      (block_num s - (Z.of_nat (length old) - 1 - Z.of_nat k)) c) as (old & Hcc & Hold).
  { subst cc. unfold grow_confirm_count. rewrite (wrap_small 8) by (unfold in_u, count_ok in *; lia).
    pose proof (inv_confirmations _ _ Hinv) as Hc. case_match.
    - by exists (confirm_count s).
    - exists (tail (confirm_count s)). split; [done|]. intros k0 c0 Hk0.
      destruct (confirm_count s) as [|x l]; [done|]. simpl in Hk0.
      specialize (Hc (S k0) c0 Hk0). simpl length in Hc.
      by replace (block_num s - (Z.of_nat (length (tail (x :: l))) - 1 - Z.of_nat k0))
        with (block_num s - (Z.of_nat (S (length l)) - 1 - Z.of_nat (S k0))) by (simpl; lia). }
  rewrite Hcc in *. rewrite length_app. simpl length.
  apply lookup_app_Some in Hk as [Hk|[Hk1 Hk2]].
  - apply Hold in Hk. by replace (block_num s + 1 - (Z.of_nat (length old + 1) - 1 - Z.of_nat k))
      with (block_num s - (Z.of_nat (length old) - 1 - Z.of_nat k)) by lia.
  - apply list_lookup_singleton_Some in Hk2 as [Hk0 <-]. exists s.
    replace (Z.to_nat _) with (length pre) by lia.
    rewrite list_lookup_middle by done. split_and!; [done|lia|].
    rewrite confirmations_future by (apply Hinv || lia). lia.
Qed.

(** Confirmations counted in the extended chain. *)
Lemma counts_confirmations_snoc ch s s' b c c' :
  b ≤ Z.of_nat (length (ch ++ [s])) + 1 →
  counts_confirmations (ch ++ [s]) b c →
  c' = c - (if decide (confirms b s') then 1 else 0) →
  counts_confirmations ((ch ++ [s]) ++ [s']) b c'.
Proof.
  intros Hb (parent & Hp & Hb2 & ->) ->. exists parent.
  rewrite lookup_app_l by (apply lookup_lt_Some in Hp; lia).
  rewrite confirmations_snoc. split_and!; [done|done|lia].
Qed.

(** The counts of the successor are again what is left to confirm; and a new
    proposal has received all the confirmations it needs. *)
Lemma step_confirmations pre s s' n r :
  chain_inv pre s → block_num s + 1 < 2 ^ 32 → 0 ≤ n →
  r = confirm_loop (u32 (block_num s + 1))
        (length (grow_confirm_count (confirm_count s) (required_confs s))) (n + 1)
        (grow_confirm_count (confirm_count s) (required_confs s))
        (dpos_proposed_irreversible_blocknum s) →
  block_num s' = block_num s + 1 → confirmed (header s') = n →
  (∀ i c, r.1 !! i = Some c → counts_confirmations ((pre ++ [s]) ++ [s'])
     (block_num s' - (Z.of_nat (length r.1) - 1 - Z.of_nat i)) c) ∧
  (r.2 ≠ dpos_proposed_irreversible_blocknum s →
     r.2 ≤ block_num s' ∧ counts_confirmations ((pre ++ [s]) ++ [s']) r.2 0).
Proof.
  intros Hinv Hbn Hn -> Hs' Hconf.
  pose proof (grown_confirmations pre s Hinv) as Hg. cbv zeta in Hg.
  destruct (inv_num _ _ Hinv) as [Hnum _].
  assert (∀ k c c', grow_confirm_count (confirm_count s) (required_confs s) !! k = Some c →
    c' = c - (if decide (Z.of_nat (length (grow_confirm_count (confirm_count s) (required_confs s)))
                         - (n + 1) ≤ Z.of_nat k) then 1 else 0) →
    counts_confirmations ((pre ++ [s]) ++ [s']) (block_num s + 1 -
      (Z.of_nat (length (grow_confirm_count (confirm_count s) (required_confs s))) - 1 - Z.of_nat k)) c')
    as Hstep.
  { intros k c c' Hk ->. pose proof (lookup_lt_Some _ _ _ Hk).
    eapply counts_confirmations_snoc; [|by apply Hg|].
    - rewrite length_app. simpl. lia.
    - repeat case_decide; unfold confirms in *; rewrite ?Hs', ?Hconf in *; lia. }
  destruct (counts_step pre s n Hinv Hbn Hn)
    as (Hok & Hl0 & Hl & Hp & [(i & Hi & Hin & Hone & Hno & ->)|(lo & Hlo & Hno & ->)]); simpl.
  - split.
    + intros j c Hj. rewrite lookup_drop, dec_from_lookup in Hj.
      apply fmap_Some in Hj as (c0 & Hc0 & ->). rewrite length_drop, dec_from_length, Hs'.
      apply lookup_lt_Some in Hc0 as Hlt.
      eapply Hstep in Hc0; [|done]. rewrite decide_True in Hc0 by lia. rewrite decide_True by lia.
      by replace (Z.of_nat (_ - S i) - 1 - Z.of_nat j) with
        (Z.of_nat (length (grow_confirm_count (confirm_count s) (required_confs s))) - 1 -
           Z.of_nat (S i + j)) by lia.
    + intros _. split; [lia|]. eapply Hstep; [done|]. by rewrite decide_True by lia.
  - split; [|done]. intros j c Hj. rewrite dec_from_lookup in Hj.
    apply fmap_Some in Hj as (c0 & Hc0 & ->). rewrite dec_from_length, Hs'.
    eapply Hstep; [done|]. repeat case_decide; lia.
Qed.

Lemma genesis_inv ps t chain_id :
  (length ps ≤ Z.to_nat max_producers)%nat → chain_inv [] (genesis_state ps t chain_id).
Proof.
  intros Hps.
  assert (header_block_num (genesis_header t chain_id) = 1) as Hbn.
  { unfold header_block_num, num_from_id. simpl. change (u32 0) with 0. by rewrite endian_reverse_zero. }
  split; simpl; rewrite ?Hbn; try done; try lia.
  - split_and!; [done|by exists []|done].
  - by right.
  - right. split; [done|by left].
Qed.

Lemma promoted_ok pre s pk t :
  chain_inv pre s → get_scheduled_producer s t = Ok pk →
  has_pending_producers s &&
    (schedule_lib_num (pending_schedule s) <=? calc_dpos_last_irreversible s (producer_name pk)) = false →
  dom (<[producer_name pk := dpos_proposed_irreversible_blocknum s]> (producer_to_last_implied_irb s)) =
    list_to_set (C := gset Z) (producer_name <$> producers (active_schedule s)) ∧
  producer_name pk ∈ dom (producer_to_last_implied_irb s).
Proof.
  intros Hinv [Hne Hpk]%get_scheduled_producer_Ok Hnp.
  assert (producer_name pk ∈ producer_name <$> producers (active_schedule s)) as Hin
    by (apply list_elem_of_fmap; exists pk; split; [done|by eapply list_elem_of_lookup_2]).
  destruct (inv_dom _ _ Hinv) as [Hd|(He & Hs & H0)].
  - rewrite dom_insert_L, Hd. split; set_solver.
  - exfalso. unfold has_pending_producers, calc_dpos_last_irreversible, dpos_blocknums in Hnp.
    rewrite Hs, H0, He, map_to_list_empty in Hnp. simpl in Hnp.
    by destruct (producers (active_schedule s)).
Qed.

Lemma successor_schedules pre s (h : signed_block_header) pk m fs exts :
  chain_inv pre s → header_ok h →
  new_producers_ok (next_result s (timestamp h) pk m (confirmed h)) h →
  let s' := successor s h pk m fs exts in
  ((length (producers (active_schedule s')) ≤ Z.to_nat max_producers)%nat ∧
   (length (producers (schedule (pending_schedule s'))) ≤ Z.to_nat max_producers)%nat) ∧
  (producers (schedule (pending_schedule s')) = [] ∨
   schedule_hash (pending_schedule s') = hash_schedule (schedule (pending_schedule s')) ∧
   (schedule (pending_schedule s') = active_schedule s' ∨
    version (schedule (pending_schedule s')) = u32 (version (active_schedule s') + 1))).
Proof.
  intros Hinv (_ & _ & Hnp) Hnew. destruct (inv_size _ _ Hinv) as [Ha Hp].
  pose proof (inv_version _ _ Hinv) as Hv.
  unfold new_producers_ok in Hnew. simpl in *. unfold next_pending_schedule. simpl.
  destruct (new_producers h) as [np|].
  - destruct (Hnew np eq_refl) as (Hpr & Hver & _). rewrite Hpr in *. simpl.
    split; [split; [done|by apply Hnp]|]. right. split; [done|by right].
  - simpl. case_match; simpl; [|done]. split; [split; [done|lia]|by left].
Qed.

Lemma successor_inv pre s (h : signed_block_header) pk m fs exts :
  chain_inv pre s → header_ok h → block_num s + 1 < 2 ^ 32 →
  get_scheduled_producer s (timestamp h) = Ok pk →
  append hash_pair (blockroot_merkle s) (id s) = Ok m → previous h = id s →
  new_producers_ok (next_result s (timestamp h) pk m (confirmed h)) h →
  chain_inv (pre ++ [s]) (successor s h pk m fs exts).
Proof.
  intros Hinv Hh Hbn Hpk Hm Hprev Hnew.
  destruct (successor_schedules pre s h pk m fs exts Hinv Hh Hnew) as [Hsize Hver].
  destruct Hh as [[Hc0 _] _].
  set (s' := successor s h pk m fs exts).
  destruct (inv_num _ _ Hinv) as [Hnum _]. destruct (inv_id _ _ Hinv) as [Hid Hidn].
  destruct (inv_proposed _ _ Hinv) as [Hp0 _].
  assert (block_num s' = block_num s + 1) as Hn' by (apply wrap_small; unfold in_u; lia).
  destruct (counts_step_ok pre s (confirmed h) _ Hinv Hbn Hc0 eq_refl) as (Hc1 & Hc2 & Hc3 & Hc4).
  pose proof (step_confirmations pre s s' (confirmed h) _ Hinv Hbn Hc0 eq_refl Hn' eq_refl) as [Hconf _].
  pose proof (calc_dpos_range s (producer_name pk) Hp0 (inv_irb _ _ Hinv)) as Hlib.
  assert (∀ v, 0 ≤ v ≤ dpos_proposed_irreversible_blocknum s →
    0 ≤ v ≤ dpos_proposed_irreversible_blocknum s') as Hmono by (simpl; lia).
  split.
  - rewrite Hn', length_app. simpl. lia.
  - apply Forall_app. split; [|constructor; [lia|done]].
    eapply Forall_impl; [apply Hinv|]. intros y Hy. cbv beta in *. lia.
  - split; [done|]. rewrite Hn'. simpl. unfold header_block_num.
    rewrite Hprev, Hid, num_from_header_id, Hidn. apply wrap_small. unfold in_u. lia.
  - destruct (append_inv hash_pair _ _ (id s) (inv_merkle _ _ Hinv)) as (m' & Hm' & Hmi).
    { rewrite length_fmap. lia. }
    rewrite Hm in Hm'. injection Hm' as <-. by rewrite fmap_app.
  - done.
  - rewrite Hn'. simpl. lia.
  - simpl. lia.
  - simpl. case_match.
    + apply promote_map_Forall; [|apply Hmono; lia|apply Hmono; lia].
      intros k v Hk. by apply Hmono, (inv_irb _ _ Hinv k).
    + apply map_Forall_insert_2; [apply Hmono; lia|].
      intros k v Hk. by apply Hmono, (inv_irb _ _ Hinv k).
  - left. simpl. case_match eqn:Hpr; [apply promote_map_dom|]. by eapply promoted_ok.
  - exact Hsize.
  - exact Hver.
  - exact Hconf.
Qed.

Lemma chain_inv_holds pre s : chain pre s → chain_inv pre s.
Proof.
  induction 1 as [ps t cid Hps|pre s h v skip s' _ IH Hh Hbn Hnext]; [by apply genesis_inv|].
  apply next_header_Ok in Hnext
    as (pk & m & fs & exts & _ & Hpk & _ & Hm & Hprev & _ & _ & Hnp & _ & _ & -> & _).
  by apply successor_inv.
Qed.

Lemma chain_member_size pre s (x : block_header_state) :
  chain pre s → x ∈ pre ++ [s] →
  (length (producers (active_schedule x)) ≤ Z.to_nat max_producers)%nat.
Proof.
  intros Hch. pose proof (inv_size _ _ (chain_inv_holds _ _ Hch)) as [Hs _].
  induction Hch as [|pre s h v skip s' Hch IH]; intros Hx.
  - by apply list_elem_of_singleton in Hx as ->.
  - apply elem_of_app in Hx as [Hx|Hx%list_elem_of_singleton]; [|by subst].
    apply IH; [|done]. apply (inv_size _ _ (chain_inv_holds _ _ Hch)).
Qed.

(** C2.  When the proposed irreversible block changes, it moves forward to a
    block [b] that has been confirmed by exactly as many blocks of the chain
    as it needs: more than two thirds of the number of producers of the
    schedule that signed [b]. *)
Theorem proposed_block_confirmed pre s (h : signed_block_header) v skip s' :
  chain pre s → header_ok h → block_num s + 1 < 2 ^ 32 → next_header s h v skip = Ok s' →
  let b := dpos_proposed_irreversible_blocknum s' in
  let ch := (pre ++ [s]) ++ [s'] in
  b ≠ dpos_proposed_irreversible_blocknum s →
  dpos_proposed_irreversible_blocknum s < b ≤ block_num s' ∧
  ∃ parent, ch !! Z.to_nat (b - 2) = Some parent ∧
    confirmations ch b = required_confs parent ∧
    2 * Z.of_nat (length (producers (active_schedule parent))) < 3 * confirmations ch b.
Proof.
  intros Hch Hh Hbn Hnext b ch Hb. pose proof (chain_inv_holds _ _ Hch) as Hinv.
  pose proof (chain_next _ _ _ _ _ _ Hch Hh Hbn Hnext) as Hch'.
  destruct Hh as [[Hc0 _] _].
  apply next_header_Ok in Hnext as (pk & m & fs & exts & _ & _ & _ & _ & _ & _ & _ & _ & _ & _ & Hs' & _).
  assert (block_num s' = block_num s + 1) as Hn'.
  { rewrite Hs'. apply wrap_small. destruct (inv_num _ _ Hinv). unfold in_u. lia. }
  assert (confirmed (header s') = confirmed h) as Hconf by (by rewrite Hs').
  destruct (counts_step_ok pre s (confirmed h) _ Hinv Hbn Hc0 eq_refl) as (_ & _ & Hle & _).
  destruct (step_confirmations pre s s' (confirmed h) _ Hinv Hbn Hc0 eq_refl Hn' Hconf) as [_ Hnew].
  assert (b = (confirm_loop (u32 (block_num s + 1))
      (length (grow_confirm_count (confirm_count s) (required_confs s))) (confirmed h + 1)
      (grow_confirm_count (confirm_count s) (required_confs s))
      (dpos_proposed_irreversible_blocknum s)).2) as Hbr by (subst b; by rewrite Hs').
  rewrite <- Hbr in Hle, Hnew. destruct (Hnew Hb) as (Hb1 & parent & Hp & Hb2 & Hreq).
  split; [lia|]. exists parent. split_and!; [done|fold ch in Hreq; lia|].
  assert (length (producers (active_schedule parent)) ≤ Z.to_nat max_producers)%nat as Hsz.
  { eapply chain_member_size; [exact Hch'|]. by eapply list_elem_of_lookup_2. }
  destruct (required_confs_eq parent Hsz) as [Heq _]. fold ch in Hreq.
  pose proof (Z.div_mod (Z.of_nat (length (producers (active_schedule parent))) * 2) 3).
  pose proof (Z.mod_pos_bound (Z.of_nat (length (producers (active_schedule parent))) * 2) 3). lia.
Qed.
(** ** Acceptance of headers *)

Lemma next_timestamp_fixed s when t :
  in_u 32 (timestamp (header s)) → next_timestamp s when = Ok t → next_timestamp s t = Ok t.
Proof.
  unfold next_timestamp. intros Hts. destruct (Z.eqb_spec when 0) as [->|Hw]; simpl.
  - intros [= <-]. destruct (Z.eqb_spec (u32 (timestamp (header s) + 1)) 0) as [H0|H0]; simpl.
    { by rewrite H0. }
    destruct (decide (timestamp (header s) + 1 < 2 ^ 32)) as [Hlt|Hge].
    + rewrite (wrap_small 32) by (unfold in_u in *; lia).
      by rewrite (proj2 (Z.ltb_lt _ _)) by lia.
    + exfalso. apply H0. replace (timestamp (header s) + 1) with (2 ^ 32) by (unfold in_u in Hts; lia). done.
  - intros (u & Ha & [= <-])%bind_Ok. rewrite (proj2 (Z.eqb_neq when 0) Hw). simpl. by rewrite Ha.
Qed.

(** ** Irreversibility under one schedule *)

Lemma filter_fmap_length {A B} (f : A → B) (P : B → Prop) `{∀ x, Decision (P x)} l :
  length (filter P (f <$> l)) = length (filter (λ x, P (f x)) l).
Proof.
  induction l as [|x l IH]; [done|]. rewrite fmap_cons, !filter_cons.
  case_decide; simpl; by rewrite IH.
Qed.

(** Entries that satisfy a predicate, compared across two maps. *)
Lemma map_count_mono (m1 m2 : gmap Z Z) (P1 P2 : Z * Z → Prop)
    `{∀ x, Decision (P1 x)} `{∀ x, Decision (P2 x)} :
  (∀ k v1, m1 !! k = Some v1 → P1 (k, v1) → ∃ v2, m2 !! k = Some v2 ∧ P2 (k, v2)) →
  (length (filter P1 (map_to_list m1)) ≤ length (filter P2 (map_to_list m2)))%nat.
Proof.
  intros HP. rewrite <- (length_fmap fst (filter P1 _)), <- (length_fmap fst (filter P2 _)).
  apply submseteq_length, NoDup_submseteq.
  - apply NoDup_fmap_fst; [|apply NoDup_filter, NoDup_map_to_list].
    intros k v1 v2 [_ H1]%list_elem_of_filter [_ H2]%list_elem_of_filter.
    apply elem_of_map_to_list in H1, H2. congruence.
  - intros k ([k1 v1] & -> & [HP1 Hin]%list_elem_of_filter)%list_elem_of_fmap.
    apply elem_of_map_to_list in Hin. destruct (HP k1 v1 Hin HP1) as (v2 & Hv2 & HP2).
    apply list_elem_of_fmap. exists (k1, v2). split; [done|].
    apply list_elem_of_filter. split; [done|]. by apply elem_of_map_to_list.
Qed.

Lemma calc_dpos_mono s1 s2 p1 p2 :
  producer_to_last_implied_irb s1 ≠ ∅ →
  dom (producer_to_last_implied_irb s1) = dom (producer_to_last_implied_irb s2) →
  (∀ k v1 v2, producer_to_last_implied_irb s1 !! k = Some v1 →
     producer_to_last_implied_irb s2 !! k = Some v2 →
     (if k =? p1 then dpos_proposed_irreversible_blocknum s1 else v1) ≤
     (if k =? p2 then dpos_proposed_irreversible_blocknum s2 else v2)) →
  calc_dpos_last_irreversible s1 p1 ≤ calc_dpos_last_irreversible s2 p2.
Proof.
  intros Hne Hdom Hle.
  assert (producer_to_last_implied_irb s2 ≠ ∅) as Hne2.
  { intros He. rewrite He, dom_empty_L in Hdom. by apply dom_empty_inv_L in Hdom. }
  apply calc_dpos_count; [done|].
  pose proof (proj1 (calc_dpos_count s1 p1 _ Hne) (Z.le_refl _)) as Hc.
  rewrite !dpos_blocknums_length, <- !size_dom, Hdom in *. eapply Nat.lt_le_trans; [exact Hc|].
  apply Nat.mul_le_mono_l. unfold dpos_blocknums. rewrite !filter_fmap_length.
  apply map_count_mono. intros k v1 Hk HP. simpl in *.
  assert (k ∈ dom (producer_to_last_implied_irb s2)) as [v2 Hv2]%elem_of_dom
    by (rewrite <- Hdom; by apply elem_of_dom_2 in Hk).
  exists v2. split; [done|]. specialize (Hle k v1 v2 Hk Hv2). lia.
Qed.

Lemma successor_irb pre s (h : signed_block_header) pk m fs exts k :
  chain_inv pre s → get_scheduled_producer s (timestamp h) = Ok pk →
  producer_to_last_implied_irb s ≠ ∅ →
  active_schedule (successor s h pk m fs exts) = active_schedule s →
  producer_to_last_implied_irb (successor s h pk m fs exts) !! k =
    (λ v, if k =? producer_name pk then dpos_proposed_irreversible_blocknum s else v) <$>
      producer_to_last_implied_irb s !! k.
Proof.
  intros Hinv Hpk Hne Hact. destruct (inv_dom _ _ Hinv) as [Hd|(He & _)]; [|done].
  simpl in *. case_match eqn:Hpr.
  - rewrite promote_map_lookup, Hact.
    destruct (producer_to_last_implied_irb s !! k) as [v|] eqn:Hk; simpl.
    + rewrite decide_True; [done|]. apply (elem_of_list_to_set (C := gset Z)). rewrite <- Hd.
      by apply elem_of_dom_2 in Hk.
    + rewrite decide_False; [done|]. intros Hin. apply (elem_of_list_to_set (C := gset Z)) in Hin.
      rewrite <- Hd in Hin. by apply not_elem_of_dom in Hk.
  - destruct (promoted_ok pre s pk _ Hinv Hpk Hpr) as [_ [v Hv]%elem_of_dom].
    destruct (Z.eqb_spec k (producer_name pk)) as [->|Hk].
    + by rewrite lookup_insert_eq, Hv.
    + rewrite lookup_insert_ne by done. by destruct (_ !! k).
Qed.

(** C24.  While the schedule does not change, the last irreversible block
    number never decreases: for two accepted headers in a row, if the first
    keeps the active schedule, the second's irreversible block is not below
    the first's. *)
Theorem irreversible_monotone pre s (h1 h2 : signed_block_header) v1 v2 skip1 skip2 s1 s2 :
  chain pre s → header_ok h1 → header_ok h2 → block_num s + 2 < 2 ^ 32 →
  next_header s h1 v1 skip1 = Ok s1 → next_header s1 h2 v2 skip2 = Ok s2 →
  active_schedule s1 = active_schedule s →
  dpos_irreversible_blocknum s1 ≤ dpos_irreversible_blocknum s2.
Proof.
  intros Hch Hh1 Hh2 Hbn Hn1 Hn2 Hact. pose proof (chain_inv_holds _ _ Hch) as Hinv.
  pose proof (chain_inv_holds _ _ (chain_next _ _ _ _ _ _ Hch Hh1 ltac:(lia) Hn1)) as Hinv1.
  apply next_header_Ok in Hn1 as (pk & m & fs & exts & _ & Hpk & _ & _ & _ & _ & _ & _ & _ & _ & Hs1 & _).
  apply next_header_Ok in Hn2 as (pk2 & m2 & fs2 & exts2 & _ & _ & _ & _ & _ & _ & _ & _ & _ & _ & Hs2 & _).
  assert (dpos_irreversible_blocknum s1 = calc_dpos_last_irreversible s (producer_name pk)) as HL1
    by (by rewrite Hs1).
  assert (dpos_irreversible_blocknum s2 = calc_dpos_last_irreversible s1 (producer_name pk2)) as HL2
    by (by rewrite Hs2).
  destruct (decide (producer_to_last_implied_irb s = ∅)) as [He|Hne].
  { rewrite HL1, HL2. unfold calc_dpos_last_irreversible at 1. unfold dpos_blocknums at 1.
    rewrite He, map_to_list_empty. simpl.
    apply calc_dpos_range; [apply (inv_proposed _ _ Hinv1)|apply (inv_irb _ _ Hinv1)]. }
  assert (∀ k, producer_to_last_implied_irb s1 !! k =
    (λ v, if k =? producer_name pk then dpos_proposed_irreversible_blocknum s else v) <$>
      producer_to_last_implied_irb s !! k) as Hirb.
  { intros k. rewrite Hs1 in Hact |- *. by eapply successor_irb. }
  rewrite HL1, HL2. apply calc_dpos_mono; [done| |].
  - apply set_eq. intros k. rewrite !elem_of_dom, Hirb, fmap_is_Some. done.
  - intros k w w' Hk Hk'. rewrite Hirb, Hk in Hk'. simpl in Hk'. injection Hk' as <-.
    pose proof (inv_irb _ _ Hinv k w Hk). destruct (inv_proposed _ _ Hinv) as [? _].
    assert (dpos_proposed_irreversible_blocknum s ≤ dpos_proposed_irreversible_blocknum s1).
    { destruct Hh1 as [[Hc0 _] _]. rewrite Hs1.
      eapply (counts_step_ok pre s (confirmed h1)); [done|lia|done|reflexivity]. }
    simpl in *. repeat case_match; lia.
Qed.

(** C22.  An accepted header builds on the current block, is later than it, is
    produced by the producer whose turn the slot is (the schedule is gone
    through in order, [producer_repetitions] slots each), carries the version
    of the active schedule and is signed with that producer's key over the
    header, the root of the tree of earlier block ids and the hash of the
    pending schedule. *)
Theorem accepted_header_authentic s (h : signed_block_header) v s' :
  timestamp (header s) + 1 < 2 ^ 32 → in_u 32 (timestamp (header s)) →
  next_header s h v false = Ok s' →
  let ps := producers (active_schedule s) in
  previous h = id s ∧ timestamp (header s) < timestamp h ∧
  schedule_version h = version (active_schedule s) ∧
  id s' = header_id h ∧ header s' = h ∧
  ∃ pk root, ps !! Z.to_nat (timestamp h / producer_repetitions mod Z.of_nat (length ps)) = Some pk ∧
    producer h = producer_name pk ∧ get_root (blockroot_merkle s') = Ok root ∧
    recover_key (producer_signature h)
      (hash_pair (hash_pair (hash_header h, root), schedule_hash (pending_schedule s'))) true =
      Ok (block_signing_key pk).
Proof.
  intros Hts [Hts0 _] Hnext ps. apply next_header_Ok in Hnext
    as (pk & m & fs & exts & Ht & Hpk & _ & _ & Hprev & Hprod & Hver & _ & _ & _ & Hs' & Hsig).
  specialize (Hsig eq_refl). rewrite Hs' in *. split_and!; [done| |done..|].
  - unfold next_timestamp in Ht. destruct (Z.eqb_spec (timestamp h) 0) as [H0|H0]; simpl in Ht.
    + injection Ht as Ht. rewrite wrap_small in Ht by (unfold in_u; lia). lia.
    + apply bind_Ok in Ht as (u & Ha%EOS_ASSERT_Ok & _). lia.
  - apply get_scheduled_producer_Ok in Hpk as [_ Hpk].
    unfold signee, sig_digest in Hsig. apply bind_Ok in Hsig as (d & (root & Hroot & [= <-])%bind_Ok & Hrec).
    by exists pk, root.
Qed.

(** C21.  A block that a producer makes on top of a state (template, header,
    signature) is accepted, signature check included, by every node in the
    same state, and leads it to the same state. *)
Theorem produced_block_validates s when n p trx_mroot act_mroot np feats v signer s' h :
  in_u 32 (timestamp (header s)) →
  (∀ d k, recover_key (signer d) d false = Ok k → recover_key (signer d) d true = Ok k) →
  next s when n = Ok p →
  finish_next_sign p (make_block_header p trx_mroot act_mroot np feats) v signer = Ok (s', h) →
  next_header s h v false = Ok s'.
Proof.
  intros Hts Hcanon Hp Hfin. apply next_Ok in Hp as (t & pk & m & Ht & Hpk & Hd & Hm & Hp).
  assert (next s (pending_timestamp p) (pending_confirmed p) = Ok p) as Hnext.
  { apply next_Ok. exists t, pk, m. rewrite Hp. simpl. split_and!; [|done..].
    by eapply next_timestamp_fixed. }
  unfold finish_next_sign in Hfin.
  apply bind_Ok in Hfin as (s1 & Hs1 & (s2 & Hs2 & [= <- <-])%bind_Ok).
  apply _finish_next_Ok in Hs1 as (Hm1 & Hnp & exts & fs & Hexts & Hfs & Hs1).
  unfold sign in Hs2. apply bind_Ok in Hs2 as (d & Hdig & (k & Hk & (u & Hkey & [= <-])%bind_Ok)%bind_Ok).
  apply EOS_ASSERT_Ok, Z.eqb_eq in Hkey.
  unfold next_header. simpl. rewrite Hnext. simpl. apply finish_next_Ok. split.
  - apply _finish_next_Ok. split_and!; [done..|]. exists exts, fs. split_and!; [done..|]. by rewrite Hs1.
  - intros _. unfold signee. change (sig_digest (set_signature s1 (signer d))) with (sig_digest s1).
    rewrite Hdig. simpl. rewrite Hkey. by apply Hcanon.
Qed.

(** The check against confirming a range twice compares unsigned 32-bit
    words: it accepts exactly the disjoint ranges and every range that starts
    before the first block, which it should refuse. *)
Theorem double_confirm_wraps s p last n :
  producer_to_last_produced s !! p = Some last → 0 ≤ last ≤ block_num s → block_num s < 2 ^ 31 →
  in_u 16 n →
  check_double_confirm s p n = Ok tt ↔ (last < block_num s + 1 - n ∨ block_num s + 1 < n).
Proof.
  intros Hlast Hl Hbn [Hn0 Hn]. unfold check_double_confirm. rewrite Hlast, EOS_ASSERT_Ok, Z.ltb_lt.
  rewrite (wrap_small 32 (block_num s + 1)) by (unfold in_u; lia).
  destruct (decide (n ≤ block_num s + 1)) as [Hle|Hgt].
  - rewrite wrap_small by (unfold in_u; lia). lia.
  - replace (block_num s + 1 - n) with ((block_num s + 1 - n + 2 ^ 32) + (-1) * 2 ^ 32) at 1 by lia.
    unfold wrap. rewrite Z_mod_plus_full, Z.mod_small by lia. lia.
Qed.
End chains.
