(* ===== verification/HeaderExamples.v ===== *)
(** * A concrete header chain

    An instance of [Crypto] (real byte order, a toy hash, signatures that are
    sums) and a chain of headers produced on it: four producers of which one
    never produces, then a schedule of two that takes over.  The theorems on
    header states are applied to it. *)

From S2P Require Import Prelude Config Merkle BlockHeader BlockHeaderState HeaderChain.
Local Open Scope Z_scope.

(** ** Byte order *)

Definition byte_swap (x : Z) : Z :=
  (x mod 256) * 2 ^ 24 + ((x / 2 ^ 8) mod 256) * 2 ^ 16 +
  ((x / 2 ^ 16) mod 256) * 2 ^ 8 + (x / 2 ^ 24) mod 256.

Lemma byte_swap_bytes a b c d :
  0 ≤ a < 256 → 0 ≤ b < 256 → 0 ≤ c < 256 → 0 ≤ d < 256 →
  byte_swap (a + b * 2 ^ 8 + c * 2 ^ 16 + d * 2 ^ 24) = d + c * 2 ^ 8 + b * 2 ^ 16 + a * 2 ^ 24.
Proof. intros. unfold byte_swap. Z.to_euclidean_division_equations. lia. Qed.

Lemma bytes_of x : in_u 32 x → ∃ a b c d,
  0 ≤ a < 256 ∧ 0 ≤ b < 256 ∧ 0 ≤ c < 256 ∧ 0 ≤ d < 256 ∧
  x = a + b * 2 ^ 8 + c * 2 ^ 16 + d * 2 ^ 24.
Proof.
  intros [H0 H1]. exists (x mod 256), ((x / 2 ^ 8) mod 256), ((x / 2 ^ 16) mod 256), (x / 2 ^ 24).
  Z.to_euclidean_division_equations. lia.
Qed.

(** ** The instance *)

Fixpoint demo_unpack (l : list Z) : result (list digest_type) :=
  match l with
  | [] => Ok []
  | a :: b :: c :: d :: l => rest ← demo_unpack l; Ok (mk_digest a b c d :: rest)
  | _ => Throw std_out_of_range
  end.

#[export] Instance demo_crypto : Crypto := {|
  hash_header h := mk_digest (u64 (timestamp h * 2 ^ 32 + producer h * 2 ^ 48))
    (u64 (producer h)) (u64 (hash0 (previous h))) (u64 (confirmed h));
  hash_pair p := mk_digest (u64 (31 * hash0 p.1 + hash0 p.2)) (u64 (31 * hash1 p.1 + hash1 p.2))
    (u64 (31 * hash2 p.1 + hash2 p.2)) (u64 (31 * hash3 p.1 + hash3 p.2));
  hash_schedule s := mk_digest (u64 (version s)) (u64 (sum_Z (producer_name <$> producers s))) 0 0;
  recover_key sig d _ := Ok (u64 (sig - hash0 d));
  endian_reverse_u32 := byte_swap;
  pack_digests l := l ≫= λ d, [hash0 d; hash1 d; hash2 d; hash3 d];
  unpack_digests := demo_unpack;
  max_array_size := 1024;
|}.

#[export] Instance demo_crypto_laws : CryptoLaws demo_crypto.
Proof.
  split.
  - intros x (a & b & c & d & Ha & Hb & Hc & Hd & ->)%bytes_of. simpl.
    rewrite byte_swap_bytes by done. unfold in_u. lia.
  - intros x (a & b & c & d & Ha & Hb & Hc & Hd & ->)%bytes_of. simpl.
    by rewrite byte_swap_bytes, byte_swap_bytes by done.
  - done.
  - intros h. split_and!; apply wrap_range; lia.
  - intros l _. simpl. induction l as [|[a b c d] l IH]; [done|]. simpl.
    change (list_bind _ _ _ _) with (l ≫= λ d, [hash0 d; hash1 d; hash2 d; hash3 d]).
    by rewrite IH.
Qed.

(** ** The chain *)

Definition accept_all (_ : Z) (_ : gset digest_type) (_ : list digest_type) : result unit := Ok tt.

(** The key of producer [n] is [100 + n]. *)
Definition demo_producer (n : Z) : producer_key := mk_producer_key n (100 + n).
Definition demo_genesis : block_header_state :=
  genesis_state (demo_producer <$> [1; 2; 3; 4]) 0 (mk_digest 7 7 7 7).

(** A header for a slot, confirming [n] blocks, with the producers it sets. *)
Definition demo_header (s : block_header_state) (slot n : Z) (np : option (list Z)) :
    signed_block_header :=
  match next s slot n with
  | Ok p => make_block_header p zero_digest zero_digest
              (mk_schedule 1 <$> (fmap demo_producer <$> np)) []
  | Throw _ => mk_signed_block_header default_header 0
  end.
Definition demo_step (s : block_header_state) (i : Z * Z * option (list Z)) :
    result block_header_state :=
  next_header s (demo_header s i.1.1 i.1.2 i.2) accept_all true.

(** Producers 2, 3 and 4 take their turns, producer 1 does not; block 5 sets
    the schedule of producers 1 and 5, which is promoted by block 10; producer
    5 makes block 11. *)
Definition demo_inputs : list (Z * Z * option (list Z)) :=
  [(3, 0, None); (6, 1, None); (9, 2, None); (15, 2, Some [1; 5]); (18, 2, None); (21, 2, None);
   (27, 2, None); (30, 2, None); (33, 2, None); (39, 2, None)].
Definition demo_input (k : nat) : Z * Z * option (list Z) := nth k demo_inputs (0, 0, None).
Definition demo_state (k : nat) : block_header_state :=
  match fold_res demo_step demo_genesis (take k demo_inputs) with
  | Ok s => s
  | Throw _ => demo_genesis
  end.
Definition demo_next_header (k : nat) : signed_block_header :=
  demo_header (demo_state k) (demo_input k).1.1 (demo_input k).1.2 (demo_input k).2.

Definition header_okb (h : block_header) : bool :=
  (0 <=? confirmed h) && (confirmed h <? 2 ^ 16) && (0 <=? timestamp h) && (timestamp h <? 2 ^ 32) &&
  match new_producers h with
  | Some np => (length (producers np) <=? Z.to_nat max_producers)%nat
  | None => true
  end.

Lemma header_okb_ok h : header_okb h = true → header_ok h.
Proof.
  unfold header_okb, header_ok, in_u. intros H. bool_prop. split_and!; try lia.
  intros np Hnp. rewrite Hnp in *. by apply Nat.leb_le.
Qed.

(** Applies a tactic to each of the ten steps of the chain. *)
Ltac each_demo_step k tac :=
  do 10 (destruct k as [|k]; [tac|]); exfalso; lia.

Lemma demo_next k :
  (k < 10)%nat →
  next_header (demo_state k) (demo_next_header k) accept_all true = Ok (demo_state (S k)).
Proof. intros Hk. each_demo_step k ltac:(vm_compute; reflexivity). Qed.

Lemma demo_header_ok k : (k < 10)%nat → header_ok (demo_next_header k).
Proof. intros Hk. apply header_okb_ok. each_demo_step k ltac:(vm_compute; reflexivity). Qed.

Lemma demo_block_num k : (k ≤ 10)%nat → block_num (demo_state k) = Z.of_nat (S k).
Proof.
  intros Hk. do 11 (destruct k as [|k]; [vm_compute; reflexivity|]). exfalso. lia.
Qed.

Lemma demo_chain k : (k ≤ 10)%nat → chain (demo_state <$> seq 0 k) (demo_state k).
Proof.
  induction k as [|k IH]; intros Hk.
  - apply chain_genesis. simpl. unfold max_producers. lia.
  - rewrite seq_S, fmap_app. apply (chain_next _ _ (demo_next_header k) accept_all true).
    + apply IH. lia.
    + apply demo_header_ok. lia.
    + rewrite demo_block_num by lia. lia.
    + apply demo_next. lia.
Qed.

(** ** The theorems on the chain *)

Lemma block_id_carries_number_witness :
  num_from_id (header_id (demo_next_header 3)) = u32 (num_from_id (previous (demo_next_header 3)) + 1).
Proof. exact (proj1 (block_id_carries_number (demo_next_header 3))). Defined.

Lemma calc_dpos_two_thirds_witness :
  producer_to_last_implied_irb (demo_state 8) ≠ ∅ ∧
  5 ≤ calc_dpos_last_irreversible (demo_state 8) 4.
Proof.
  assert (producer_to_last_implied_irb (demo_state 8) ≠ ∅) as Hne
    by (intros H; apply (f_equal size) in H; vm_compute in H; discriminate H).
  split; [done|]. apply (proj2 (calc_dpos_two_thirds (demo_state 8) 4 5 Hne)).
  apply Nat.ltb_lt. vm_compute. reflexivity.
Defined.


Lemma proposed_block_confirmed_witness :
  dpos_proposed_irreversible_blocknum (demo_state 5) ≠ dpos_proposed_irreversible_blocknum (demo_state 4) ∧
  dpos_proposed_irreversible_blocknum (demo_state 4) < dpos_proposed_irreversible_blocknum (demo_state 5).
Proof.
  assert (dpos_proposed_irreversible_blocknum (demo_state 5) ≠
          dpos_proposed_irreversible_blocknum (demo_state 4)) as Hne by (vm_compute; discriminate).
  split; [done|].
  apply (proposed_block_confirmed (demo_state <$> seq 0 4) (demo_state 4) (demo_next_header 4)
    accept_all true (demo_state 5)); [apply demo_chain; lia|apply demo_header_ok; lia| | |done].
  - vm_compute. reflexivity.
  - apply demo_next. lia.
Defined.

Lemma irreversible_monotone_witness :
  dpos_irreversible_blocknum (demo_state 7) ≤ dpos_irreversible_blocknum (demo_state 8).
Proof.
  apply (irreversible_monotone (demo_state <$> seq 0 6) (demo_state 6) (demo_next_header 6)
    (demo_next_header 7) accept_all accept_all true true (demo_state 7) (demo_state 8)).
  - apply demo_chain. lia.
  - apply demo_header_ok. lia.
  - apply demo_header_ok. lia.
  - vm_compute. reflexivity.
  - apply demo_next. lia.
  - apply demo_next. lia.
  - vm_compute. reflexivity.
Defined.

(** A signer that holds producer [n]'s key. *)
Definition demo_signer (n : Z) (d : digest_type) : Z := u64 (100 + n + hash0 d).

(** The block producer 5 makes on block 10, with its signature. *)
Definition demo_produced : result (block_header_state * signed_block_header) :=
  p ← next (demo_state 9) 39 2;
  finish_next_sign p (make_block_header p zero_digest zero_digest None []) accept_all (demo_signer 5).
Definition demo_produced_state : block_header_state :=
  match demo_produced with Ok r => r.1 | Throw _ => demo_genesis end.
Definition demo_produced_header : signed_block_header :=
  match demo_produced with Ok r => r.2 | Throw _ => mk_signed_block_header default_header 0 end.
Definition demo_pending : pending_block_header_state :=
  next_result (demo_state 9) 39 (demo_producer 5) (blockroot_merkle demo_produced_state) 2.

Lemma produced_block_validates_witness :
  next_header (demo_state 9) demo_produced_header accept_all false = Ok demo_produced_state.
Proof.
  apply (produced_block_validates (demo_state 9) 39 2 demo_pending zero_digest zero_digest None []
    accept_all (demo_signer 5)).
  - vm_compute. split; discriminate || reflexivity.
  - intros d k H. exact H.
  - vm_compute. reflexivity.
  - vm_compute. reflexivity.
Defined.

Lemma accepted_header_authentic_witness :
  previous demo_produced_header = id (demo_state 9) ∧
  timestamp (header (demo_state 9)) < timestamp demo_produced_header.
Proof.
  destruct (accepted_header_authentic (demo_state 9) demo_produced_header accept_all demo_produced_state)
    as (H1 & H2 & _).
  - vm_compute. reflexivity.
  - vm_compute. split; discriminate || reflexivity.
  - vm_compute. reflexivity.
  - exact (conj H1 H2).
Defined.

(** Producer 2 last made block 8; on block 9 it could not confirm 2 blocks more,
    but it may claim to confirm 20. *)
Lemma double_confirm_wraps_witness :
  check_double_confirm (demo_state 8) 2 20 = Ok tt ∧ check_double_confirm (demo_state 8) 2 2 ≠ Ok tt.
Proof.
  split.
  - apply (double_confirm_wraps (demo_state 8) 2 8 20); [vm_compute; reflexivity|..].
    + vm_compute. split; discriminate.
    + vm_compute. reflexivity.
    + split; [lia|vm_compute; reflexivity].
    + right. vm_compute. reflexivity.
  - vm_compute. discriminate.
Defined.

(** Across a change of schedule the last irreversible block number of a
    header state can decrease: in the example chain it is 5 in block 10, which
    promotes the new schedule, and 0 in block 11. *)
Theorem irreversible_can_regress :
  ∃ pre s (h : signed_block_header) s', chain pre s ∧ header_ok h ∧ next_header s h accept_all true = Ok s' ∧
    dpos_irreversible_blocknum s' < dpos_irreversible_blocknum s.
Proof.
  exists (demo_state <$> seq 0 9), (demo_state 9), (demo_next_header 9), (demo_state 10).
  split_and!; [apply demo_chain; lia|apply demo_header_ok; lia|apply demo_next; lia|].
  vm_compute. reflexivity.
Qed.
