(* ===== verification/InputTransactions.v ===== *)
(** * Admission of input transactions ([controller.cpp], [transaction_context.cpp])

    Before an input transaction executes, the controller checks its expiration,
    that it refers to a block of this chain (the ids of the last 65536 blocks
    are kept in a ring, [block_summary_object]) and that it was not included
    before ([transaction_object], removed when the transaction has expired). *)

From stdpp Require Import sorting.
From S2P Require Import Prelude Chainbase Names Config Authority Merkle BlockHeader Transaction.
From S2P Require Import BlockHeaderState HeaderExamples.
Local Open Scope Z_scope.

(** [transaction_object]; [trx_id] is the key. *)
Record transaction_object := mk_trx_object { to_expiration : Z; to_id : Z }.
Record dedupe_index := mk_dedupe {
  recorded : gmap digest_type transaction_object; next_object_id : Z }.

(** The index [by_expiration]. *)
Definition expires_before (a b : digest_type * transaction_object) : Prop :=
  to_expiration a.2 < to_expiration b.2
  ∨ to_expiration a.2 = to_expiration b.2 ∧ to_id a.2 ≤ to_id b.2.
#[export] Instance expires_before_dec : RelDecision expires_before.
Proof. intros a b. unfold expires_before. apply _. Defined.
Definition first_expiring (m : gmap digest_type transaction_object) :
    option (digest_type * transaction_object) :=
  head (merge_sort expires_before (map_to_list m)).

(** [fc::time_point( time_point_sec )], in microseconds. *)
Definition time_point_of (sec : Z) : Z := sec * 1000000.

Section input.
Context {db : Chainbase} {cr : Crypto} {fc : TrxFc}.

(** ** The ring of block ids *)
Definition initialize_block_summaries (head_id : block_id_type) : result (gmap Z block_id_type) :=
  m ← fold_res (λ m i, db_create m i zero_digest) ∅ (seqZ 0 0x10000);
  db_modify m 1 (λ _, Ok head_id).

Definition create_block_summary (m : gmap Z block_id_type) (id : block_id_type) :
    result (gmap Z block_id_type) :=
  let block_num := num_from_id id in
  let sid := Z.land block_num 0xffff in
  _ ← db_get m sid;
  db_modify m sid (λ _, Ok id).

Definition validate_tapos (m : gmap Z block_id_type) (h : transaction_header) : result unit :=
  tapos_block_summary ← db_get m (wrap 16 (ref_block_num h));
  EOS_ASSERT (verify_reference_block h tapos_block_summary) invalid_ref_block_exception.

(** ** Expiration and duplicates *)
Definition validate_expiration (max_transaction_lifetime pending_block_time : Z)
    (h : transaction_header) : result unit :=
  _ ← EOS_ASSERT (pending_block_time <=? time_point_of (expiration h)) expired_tx_exception;
  EOS_ASSERT (time_point_of (expiration h)
              <=? pending_block_time + max_transaction_lifetime * 1000000) tx_exp_too_far_exception.

(** Every exception of [create] becomes [tx_duplicate]. *)
Definition record_transaction (d : dedupe_index) (id : transaction_id_type) (expire : Z) :
    result dedupe_index :=
  match db_create (recorded d) id (mk_trx_object expire (next_object_id d)) with
  | Ok m => Ok (mk_dedupe m (next_object_id d + 1))
  | Throw _ => Throw tx_duplicate
  end.

Fixpoint clear_loop (fuel : nat) (now : Z) (m : gmap digest_type transaction_object) :
    result (gmap digest_type transaction_object) :=
  match fuel with
  | O => Throw out_of_fuel
  | S fuel =>
      match first_expiring m with
      | Some (k, o) =>
          if time_point_of (to_expiration o) <? now then clear_loop fuel now (db_remove m k) else Ok m
      | None => Ok m
      end
  end.
Definition clear_expired_input_transactions (now : Z) (d : dedupe_index) : result dedupe_index :=
  m ← clear_loop (S (size (recorded d))) now (recorded d);
  Ok (mk_dedupe m (next_object_id d)).

(** The checks of [init_for_input_trx], in its order, and the record of the
    transaction. *)
Definition admit_input (max_transaction_lifetime now : Z) (summaries : gmap Z block_id_type)
    (d : dedupe_index) (t : transaction) : result dedupe_index :=
  _ ← validate_expiration max_transaction_lifetime now (trx_header t);
  _ ← validate_tapos summaries (trx_header t);
  record_transaction d (trx_id t) (expiration (trx_header t)).
End input.

Section theory.
Context {db : Chainbase} {laws : ChainbaseLaws db} {cr : Crypto} {fc : TrxFc}.

#[local] Instance expires_before_trans : Transitive expires_before.
Proof. intros a b c. unfold expires_before. lia. Qed.
#[local] Instance expires_before_total : Total expires_before.
Proof. intros a b. unfold expires_before. lia. Qed.

Lemma first_expiring_spec m :
  match first_expiring m with
  | Some (k, o) => m !! k = Some o ∧
      ∀ k' o', m !! k' = Some o' → to_expiration o ≤ to_expiration o'
  | None => m = ∅
  end.
Proof.
  unfold first_expiring. pose proof (merge_sort_Permutation expires_before (map_to_list m)) as Hp.
  pose proof (StronglySorted_merge_sort expires_before (map_to_list m)) as Hs.
  destruct (merge_sort _ _) as [|[k o] l]; cbn [head].
  - apply map_to_list_empty_iff. symmetry in Hp. by apply Permutation_nil_r in Hp.
  - split; [apply elem_of_map_to_list; rewrite <- Hp; by left|]. intros k' o' Hk'.
    apply elem_of_map_to_list in Hk'. rewrite <- Hp in Hk'. apply elem_of_cons in Hk' as [[= <- <-]|Hin]; [done|].
    apply StronglySorted_inv in Hs as [_ Hf]. rewrite Forall_forall in Hf.
    specialize (Hf _ Hin). unfold expires_before in Hf. cbn in Hf. lia.
Qed.

(** The loop removes the expired entries, and only them. *)
Lemma clear_loop_spec now : ∀ fuel m, (size m < fuel)%nat →
  clear_loop fuel now m =
    Ok (filter (λ ko : digest_type * transaction_object, now ≤ time_point_of (to_expiration ko.2)) m).
Proof.
  induction fuel as [|fuel IH]; intros m Hf; [lia|]. cbn [clear_loop].
  pose proof (first_expiring_spec m) as Hfirst. destruct (first_expiring m) as [[k o]|].
  - destruct Hfirst as [Hk Hmin]. destruct (Z.ltb_spec (time_point_of (to_expiration o)) now) as [Hlt|Hge].
    + rewrite db_remove_spec, IH.
      2:{ rewrite map_size_delete_Some by done. pose proof (map_size_non_empty_iff m) as Hne.
          destruct (size m) eqn:E; [|lia]. apply map_size_empty_iff in E. by rewrite E in Hk. }
      f_equal. rewrite map_filter_delete. apply map_eq. intros k'.
      destruct (decide (k = k')) as [<-|Hne]; [|by rewrite lookup_delete_ne].
      rewrite lookup_delete_eq. symmetry. apply map_lookup_filter_None. right. intros o' Ho'. simplify_eq. cbn. lia.
    + f_equal. symmetry. apply map_filter_id. intros k' o' Hk'. cbn. specialize (Hmin _ _ Hk').
      unfold time_point_of in *. lia.
  - subst m. by rewrite map_filter_empty.
Qed.

(** ** No transaction is included twice *)

(** Time passes, other transactions are admitted, expired ones are forgotten. *)
Inductive input_step : Z * dedupe_index → Z * dedupe_index → Prop :=
  | step_time now now' d : now ≤ now' → input_step (now, d) (now', d)
  | step_admit lifetime summaries now d t d' :
      admit_input lifetime now summaries d t = Ok d' → input_step (now, d) (now, d')
  | step_clear now d d' :
      clear_expired_input_transactions now d = Ok d' → input_step (now, d) (now, d').

(** The transaction is remembered, or too old. *)
Definition remembered (t : transaction) (s : Z * dedupe_index) : Prop :=
  (∃ o, recorded s.2 !! trx_id t = Some o ∧ to_expiration o = expiration (trx_header t)) ∨
  time_point_of (expiration (trx_header t)) < s.1.

Lemma admit_input_Ok lifetime now summaries d t d' :
  admit_input lifetime now summaries d t = Ok d' →
  now ≤ time_point_of (expiration (trx_header t)) ∧ recorded d !! trx_id t = None ∧
  recorded d' = <[trx_id t := mk_trx_object (expiration (trx_header t)) (next_object_id d)]> (recorded d).
Proof.
  intros H. unfold admit_input in H. apply bind_Ok in H as (? & Hexp & H). apply bind_Ok in H as (? & _ & H).
  unfold validate_expiration in Hexp. apply bind_Ok in Hexp as (? & ?%EOS_ASSERT_Ok & _).
  unfold record_transaction in H. destruct (db_create _ _ _) as [m|e] eqn:E; [|done].
  apply db_create_Ok in E as [? ->]. injection H as <-. split; [lia|done].
Qed.

Lemma remembered_step t s s' : input_step s s' → remembered t s → remembered t s'.
Proof.
  intros [now now' d Hle|lifetime summaries now d t' d' H|now d d' H] [(o & Ho & He)|Hold]; cbn [fst snd] in *;
    try (right; cbn; lia).
  - left. by exists o.
  - apply admit_input_Ok in H as (_ & Hnew & E). left. exists o. cbn [snd]. rewrite E.
    rewrite lookup_insert_ne; [done|]. intros E'. rewrite E' in Hnew. congruence.
  - unfold clear_expired_input_transactions in H. apply bind_Ok in H as (m & Hm & [= <-]).
    rewrite clear_loop_spec in Hm by lia. injection Hm as <-.
    destruct (decide (now ≤ time_point_of (to_expiration o))) as [Hle|Hgt].
    + left. exists o. split; [|done]. by apply map_lookup_filter_Some.
    + right. cbn. rewrite <- He. lia.
Qed.

Lemma remembered_steps t s s' : rtc input_step s s' → remembered t s → remembered t s'.
Proof. induction 1; eauto using remembered_step. Qed.


(** ** The ring of block ids *)
Definition has_all_slots (m : gmap Z block_id_type) : Prop := ∀ k, 0 ≤ k < 65536 → is_Some (m !! k).

Lemma slot_range id : 0 ≤ Z.land (num_from_id id) 0xffff < 65536.
Proof. change 0xffff with (Z.ones 16). rewrite Z.land_ones by lia. by apply Z.mod_pos_bound. Qed.

Lemma create_all_keep l (i : Z) : ∀ m m', fold_res (λ m i, db_create m i zero_digest) m l = Ok m' →
  is_Some (m !! i) → is_Some (m' !! i).
Proof.
  induction l as [|j l IH]; intros m m' H Hi; cbn [fold_res] in H; [by simplify_eq|].
  apply bind_Ok in H as (m1 & [_ ->]%db_create_Ok & H). apply (IH _ _ H). rewrite lookup_insert_is_Some'. auto.
Qed.

Lemma create_all l : ∀ m, NoDup l → (∀ i, i ∈ l → m !! i = None) →
  ∃ m', fold_res (λ m i, db_create m i zero_digest) m l = Ok m' ∧
    ∀ i : Z, i ∈ l → is_Some (m' !! i).
Proof.
  induction l as [|i l IH]; intros m Hnd Hnew; cbn [fold_res].
  { exists m. split; [done|]. intros i Hi. by apply not_elem_of_nil in Hi. }
  apply NoDup_cons in Hnd as [Hni Hnd]. rewrite db_create_spec, (Hnew i) by (by left). cbn [mbind result_bind].
  destruct (IH (<[i := zero_digest]> m) Hnd) as (m' & Hm' & Hall).
  { intros j Hj. rewrite lookup_insert_ne by (by intros ->). apply Hnew. by right. }
  exists m'. split; [done|]. intros j [->|Hj]%elem_of_cons; [|by apply Hall].
  eapply create_all_keep; [done|]. rewrite lookup_insert_eq. eauto.
Qed.

Lemma initialize_block_summaries_Ok head_id :
  ∃ m, initialize_block_summaries head_id = Ok m ∧ has_all_slots m ∧ m !! 1 = Some head_id.
Proof.
  destruct (create_all (seqZ 0 0x10000) ∅) as (m & Hm & Hall); [apply NoDup_seqZ|done|].
  unfold initialize_block_summaries. rewrite Hm. cbn [mbind result_bind].
  destruct (Hall 1) as [x Hx]; [apply elem_of_seqZ; lia|]. rewrite db_modify_spec, Hx. cbn [of_option mbind result_bind].
  eexists. split; [done|]. split; [|apply lookup_insert_eq]. intros k Hk.
  rewrite lookup_insert_is_Some'. right. apply Hall, elem_of_seqZ. lia.
Qed.

(** Each slot holds the last block with its number. *)
Lemma create_block_summaries ids : ∀ m, has_all_slots m →
  ∃ m', fold_res create_block_summary m ids = Ok m' ∧ has_all_slots m' ∧
    ∀ k, m' !! k = match last (filter (λ id, Z.land (num_from_id id) 0xffff = k) ids) with
                   | Some id => Some id | None => m !! k end.
Proof.
  induction ids as [|id ids IH] using rev_ind; intros m Hm.
  { exists m. by split_and!. }
  destruct (IH m Hm) as (m' & Hf & Hall & Hlook). rewrite fold_res_app, Hf. cbn [mbind result_bind fold_res].
  unfold create_block_summary. destruct (Hall _ (slot_range id)) as [x Hx].
  rewrite db_get_spec, db_modify_spec, Hx. cbn [of_option mbind result_bind].
  eexists. split; [done|]. split.
  { intros k Hk. rewrite lookup_insert_is_Some'. right. by apply Hall. }
  intros k. rewrite filter_app, filter_cons. destruct (decide (Z.land (num_from_id id) 0xffff = k)) as [<-|Hne].
  - rewrite filter_nil, last_snoc. apply lookup_insert_eq.
  - rewrite filter_nil, app_nil_r, lookup_insert_ne by done. apply Hlook.
Qed.

(** The summaries of a chain, genesis block first. *)
Definition chain_summaries (genesis : block_id_type) (ids : list block_id_type) :
    result (gmap Z block_id_type) :=
  m ← initialize_block_summaries genesis; fold_res create_block_summary m ids.

(** Block [i] of the chain has number [i + 1]. *)
Definition numbered (chain : list block_id_type) : Prop :=
  ∀ i id, chain !! i = Some id → num_from_id id = Z.of_nat i + 1.

(** The newest block whose number has the same low 16 bits as that of block [i]. *)
Definition newest (n i : nat) : nat :=
  Z.to_nat (Z.of_nat i + 65536 * ((Z.of_nat n - 1 - Z.of_nat i) / 65536)).

Lemma newest_spec n i : (i < n)%nat → (i ≤ newest n i < n)%nat ∧
  (Z.of_nat (newest n i) + 1) mod 65536 = (Z.of_nat i + 1) mod 65536 ∧
  ∀ j, (newest n i < j < n)%nat → (Z.of_nat j + 1) mod 65536 ≠ (Z.of_nat i + 1) mod 65536.
Proof.
  intros Hi. unfold newest.
  pose proof (Z.div_mod (Z.of_nat n - 1 - Z.of_nat i) 65536 ltac:(lia)) as Hdm.
  pose proof (Z.mod_pos_bound (Z.of_nat n - 1 - Z.of_nat i) 65536 ltac:(lia)) as Hub.
  set (q := (Z.of_nat n - 1 - Z.of_nat i) / 65536) in *. split; [lia|]. split.
  - rewrite Z2Nat.id by lia. replace (Z.of_nat i + 65536 * q + 1) with (Z.of_nat i + 1 + q * 65536) by lia.
    apply Z.mod_add. lia.
  - intros j Hj E. pose proof (Z.div_mod (Z.of_nat j + 1) 65536 ltac:(lia)) as H1.
    pose proof (Z.div_mod (Z.of_nat i + 1) 65536 ltac:(lia)) as H2. lia.
Qed.

Lemma last_filter {A} (P : A → Prop) `{∀ x, Decision (P x)} (l : list A) j x :
  l !! j = Some x → P x → (∀ j' y, (j < j')%nat → l !! j' = Some y → ¬ P y) →
  last (filter P l) = Some x.
Proof.
  intros Hj HP Hafter. rewrite <- (take_drop_middle l j x Hj), filter_app, filter_cons_True by done.
  destruct (filter P (drop (S j) l)) as [|y l'] eqn:E; [by rewrite last_snoc|].
  assert (y ∈ filter P (drop (S j) l)) as Hy by (rewrite E; by left).
  apply list_elem_of_filter in Hy as [HPy [i Hi]%list_elem_of_lookup]. rewrite lookup_drop in Hi.
  exfalso. eapply (Hafter (S j + i)%nat); [lia|done..].
Qed.

Lemma chain_summaries_Ok genesis ids : numbered (genesis :: ids) →
  ∃ m, chain_summaries genesis ids = Ok m ∧ ∀ i, (i < length (genesis :: ids))%nat →
    m !! ((Z.of_nat i + 1) mod 65536) = (genesis :: ids) !! newest (length (genesis :: ids)) i.
Proof.
  intros Hnum. destruct (initialize_block_summaries_Ok genesis) as (m0 & H0 & Hall0 & H1).
  destruct (create_block_summaries (genesis :: ids) m0 Hall0) as (m & Hf & _ & Hlook).
  assert (num_from_id genesis = 1) as Hg by (by apply (Hnum 0%nat)).
  assert (create_block_summary m0 genesis = Ok m0) as Hsame.
  { unfold create_block_summary. rewrite Hg. change (Z.land 1 0xffff) with 1.
    rewrite db_get_spec, db_modify_spec, H1. cbn [of_option mbind result_bind]. by rewrite insert_id. }
  cbn [fold_res] in Hf. rewrite Hsame in Hf. cbn [mbind result_bind] in Hf.
  exists m. split; [unfold chain_summaries; by rewrite H0|]. intros i Hi.
  set (chain := genesis :: ids) in *. destruct (newest_spec _ _ Hi) as ([Hle Hlt] & Hmod & Hnone).
  destruct (lookup_lt_is_Some_2 chain _ Hlt) as [x Hx]. rewrite Hx, Hlook.
  assert (∀ id, Z.land (num_from_id id) 0xffff = num_from_id id mod 65536) as Hland.
  { intros id. change 0xffff with (Z.ones 16). by rewrite Z.land_ones. }
  erewrite last_filter; [done|exact Hx| |].
  - by rewrite Hland, (Hnum _ _ Hx).
  - intros j y Hj Hy. rewrite Hland, (Hnum _ _ Hy). apply Hnone. split; [done|]. by eapply lookup_lt_Some.
Qed.

(** C28.  Whatever the length of the chain, a transaction that refers to block
    [i] passes the check against the chain exactly when the newest block in the
    slot of block [i] has the same 32-bit prefix; that block is block [i]
    itself when at most 65535 blocks follow it. *)
Theorem tapos_exact genesis ids i id h : numbered (genesis :: ids) → (genesis :: ids) !! i = Some id →
  ∃ m id', chain_summaries genesis ids = Ok m ∧
    (genesis :: ids) !! newest (length (genesis :: ids)) i = Some id' ∧
    (validate_tapos m (set_reference_block h id) = Ok tt ↔ u32 (hash1 id') = u32 (hash1 id)) ∧
    (Z.of_nat (length (genesis :: ids)) - Z.of_nat i ≤ 65536 → id' = id).
Proof.
  intros Hnum Hid. destruct (chain_summaries_Ok genesis ids Hnum) as (m & Hm & Hlook).
  set (chain := genesis :: ids) in *. pose proof (lookup_lt_Some _ _ _ Hid) as Hi.
  destruct (newest_spec _ _ Hi) as ([Hle Hlt] & Hmod & _).
  destruct (lookup_lt_is_Some_2 chain _ Hlt) as [id' Hid']. exists m, id'. split; [done|]. split; [done|].
  assert (∀ k idk, chain !! k = Some idk →
    wrap 16 (endian_reverse_u32 (u32 (hash0 idk))) = (Z.of_nat k + 1) mod 65536) as Hslot.
  { intros k idk Hk. by rewrite <- (Hnum _ _ Hk). }
  split.
  - unfold validate_tapos. cbn [set_reference_block ref_block_num].
    rewrite (wrap_small 16 (wrap 16 _)) by (by apply wrap_range).
    rewrite (Hslot i id Hid), db_get_spec, Hlook, Hid' by done. cbn [of_option mbind result_bind].
    unfold verify_reference_block. cbn [set_reference_block ref_block_num ref_block_prefix].
    rewrite (Hslot i id Hid), (Hslot _ id' Hid').
    rewrite Hmod.
    rewrite Z.eqb_refl. cbn [andb]. rewrite EOS_ASSERT_Ok. lia.
  - intros Hlen. assert (newest (length chain) i = i) as E; [|congruence].
    unfold newest. rewrite Z.div_small; lia.
Qed.
End theory.

(** ** Witnesses *)
Definition demo_id (n prefix : Z) : block_id_type := mk_digest (n * 2 ^ 24) prefix 0 0.

(** A transaction is admitted, another one too, and the first again two blocks later. *)
Definition other_trx : transaction := mk_transaction plain_header [] [] [].
Definition empty_dedupe : dedupe_index := mk_dedupe ∅ 0.
Definition demo_summaries : gmap Z block_id_type := {[ 0 := mk_digest 0 0 0 0 ]}.
Definition dedupe_after (now : Z) (d : dedupe_index) (t : transaction) : dedupe_index :=
  match admit_input 3600 now demo_summaries d t with Ok d => d | Throw _ => d end.

Lemma dedupe_after_step now d t : rtc input_step (now, d) (now, dedupe_after now d t).
Proof.
  unfold dedupe_after. destruct (admit_input _ _ _ _ _) eqn:E; [|apply rtc_refl].
  eapply rtc_once, step_admit. exact E.
Qed.


Definition demo_chain : list block_id_type := [demo_id 2 71; demo_id 3 72].

Lemma tapos_exact_witness :
  ∃ m id', chain_summaries (demo_id 1 70) demo_chain = Ok m ∧
    (demo_id 1 70 :: demo_chain) !! newest (length (demo_id 1 70 :: demo_chain)) 1 = Some id' ∧
    (validate_tapos m (set_reference_block plain_header (demo_id 2 71)) = Ok tt ↔
      u32 (hash1 id') = u32 (hash1 (demo_id 2 71))) ∧
    (Z.of_nat (length (demo_id 1 70 :: demo_chain)) - Z.of_nat 1 ≤ 65536 → id' = demo_id 2 71).
Proof.
  apply (tapos_exact (demo_id 1 70) demo_chain 1 (demo_id 2 71) plain_header); [|reflexivity].
  intros [|[|[|i]]] id Hi; cbn in Hi; simplify_eq; vm_compute; reflexivity.
Defined.
