(* ===== verification/ForkDatabase.v ===== *)
(** * The fork database ([fork_database.cpp], [block_state.hpp],
    [block_state.cpp])

    The tree of reversible blocks above the last irreversible one, the root.
    The multi-index container is a map from block ids; its other two indices
    are computed from it: [by_prev] is the set of children of a block, and
    [by_lib_block_num] the list of blocks sorted by the composite key.  Block
    states are values: the only field the database changes in place is
    [validated], and the invariant shows that the value stored as [head] is
    always the one in the map (or the root).  Loops that follow [previous]
    links have a fuel argument, the number of blocks; the theorems show that
    it is never exhausted. *)

From S2P Require Import Prelude Merkle BlockHeader BlockHeaderState.
Local Open Scope Z_scope.

(** ** Block states *)

(** [transaction_receipt::trx]; the packed transactions are not inspected. *)
Inductive receipt_trx (packed_transaction : Type) :=
  | trx_id (id : digest_type)
  | trx_packed (p : packed_transaction).
Arguments trx_id {_} id.
Arguments trx_packed {_} p.

(** [signed_block] *)
Record signed_block (packed_transaction : Type) := mk_signed_block {
  sb_header :> signed_block_header;
  transactions : list (receipt_trx packed_transaction);
  block_extensions : list (Z * list Z);
}.
Arguments mk_signed_block {_}.
Arguments sb_header {_}.
Arguments transactions {_}.
Arguments block_extensions {_}.

(** [block_state]; [None] is the null pointer, and a transaction's metadata is
    represented by the packed transaction it is made from. *)
Record block_state (packed_transaction : Type) := mk_block_state {
  bs_header_state :> block_header_state;
  block : option (signed_block packed_transaction);
  validated : bool;
  trxs : list packed_transaction;
}.
Arguments mk_block_state {_}.
Arguments bs_header_state {_}.
Arguments block {_}.
Arguments validated {_}.
Arguments trxs {_}.

(** ** Orders *)

(** Lexicographic comparison of tuples of integers. *)
Fixpoint lex_lt (a b : list Z) : bool :=
  match a, b with
  | x :: a, y :: b => (x <? y) || ((x =? y) && lex_lt a b)
  | _, _ => false
  end.

Definition words (d : digest_type) : list Z := [hash0 d; hash1 d; hash2 d; hash3 d].
Definition sha256_less (a b : digest_type) : bool := lex_lt (words a) (words b).

Section fork_database.
Context {packed_transaction : Type}.
Abbreviation bstate := (block_state packed_transaction).
Abbreviation index_type := (gmap digest_type bstate).

Definition is_valid (b : bstate) : bool := validated b.

Definition set_validated (v : bool) (b : bstate) : bstate :=
  mk_block_state (bs_header_state b) (block b) v (trxs b).

(** The composite key of [by_lib_block_num]: [greater] on the first three
    components, [sha256_less] on the id. *)
Definition lib_key (b : bstate) : list Z :=
  [- Z.b2z (validated b); - dpos_irreversible_blocknum b; - block_num b] ++ words (id b).
Definition lib_before (a b : bstate) : bool := lex_lt (lib_key a) (lib_key b).
Definition lib_le (a b : bstate) : Prop := lib_before b a = false.
#[export] Instance lib_le_dec a b : Decision (lib_le a b).
Proof. unfold lib_le. apply _. Defined.

(** The index [by_lib_block_num], first element first. *)
Definition by_lib_block_num (idx : index_type) : list bstate :=
  merge_sort lib_le (map_to_list idx).*2.

(** The equal range of [by_prev]. *)
Definition by_prev (idx : index_type) (prev : block_id_type) : list bstate :=
  filter (λ b : bstate, previous (header b) = prev) (map_to_list idx).*2.

Definition first_preferred (lhs rhs : block_header_state) : bool :=
  lex_lt [dpos_irreversible_blocknum rhs; block_num rhs]
         [dpos_irreversible_blocknum lhs; block_num lhs].

(** ** The database *)

Record fork_database := mk_fork_db {
  index : index_type;
  root : option bstate;
  head : option bstate;
}.

(** [fork_database_impl( ... )] *)
Definition empty_fork_db : fork_database := mk_fork_db ∅ None None.

Definition get_block (db : fork_database) (i : block_id_type) : option bstate := index db !! i.

(** Reading through [my->root] or [my->head] when it is null is undefined. *)
Definition deref (p : option bstate) : result bstate := of_option undefined_behaviour p.

Definition get_block_header (db : fork_database) (i : block_id_type) :
    result (option block_header_state) :=
  deref (root db) ≫= λ r : bstate,
  if decide (id r = i) then Ok (Some (bs_header_state r))
  else Ok (bs_header_state <$> index db !! i).

Definition reset (root_bhs : block_header_state) : fork_database :=
  let r := mk_block_state root_bhs None true [] in
  mk_fork_db ∅ (Some r) (Some r).

Definition rollback_head_to_root (db : fork_database) : fork_database :=
  mk_fork_db (set_validated false <$> index db) (root db) (root db).

(** [fork_database_impl::add]; the validator is the callback of [BlockHeaderState]. *)
Definition check_features (validator : Z → gset digest_type → list digest_type → result unit)
    (prev_bh : block_header_state) (n : bstate) : result unit :=
  match header_exts n with
  | new_protocol_features :: _ =>
      fs ← of_option undefined_behaviour (activated_protocol_features prev_bh);
      EOS_RETHROW_EXCEPTIONS fork_database_exception
        (validator (timestamp (header n)) fs new_protocol_features)
  | [] => Ok tt
  end.

Definition add_impl (db : fork_database) (n : option bstate) (ignore_duplicate validate : bool)
    (validator : Z → gset digest_type → list digest_type → result unit) : result fork_database :=
  _ ← EOS_ASSERT (bool_decide (is_Some (root db))) fork_database_exception;
  of_option fork_database_exception n ≫= λ n : bstate,
  prev_bh ← get_block_header db (previous (header n));
  prev_bh ← of_option unlinkable_block_exception prev_bh;
  _ ← (if validate then check_features validator prev_bh n else Ok tt);
  match index db !! id n with
  | Some _ => if ignore_duplicate then Ok db else Throw fork_database_exception
  | None =>
      let idx := <[id n := n]> (index db) in
      candidate ← of_option undefined_behaviour (hd_error (by_lib_block_num idx));
      Ok (mk_fork_db idx (root db) (if is_valid candidate then Some candidate else head db))
  end.

(** [fork_database::add] *)
Definition add (db : fork_database) (n : option bstate) (ignore_duplicate : bool) :
    result fork_database :=
  add_impl db n ignore_duplicate false (λ _ _ _, Ok tt).

(** [lower_bound( false )] is the first block that is not validated. *)
Definition pending_head (db : fork_database) : result (option bstate) :=
  match List.find (λ b, negb (is_valid b)) (by_lib_block_num (index db)) with
  | Some b =>
      deref (head db) ≫= λ h : bstate,
      if first_preferred b h then Ok (Some b) else Ok (head db)
  | None => Ok (head db)
  end.

(** The blocks from [s] down along [previous], while they are in the index. *)
Fixpoint branch_loop (fuel : nat) (db : fork_database) (s : option bstate) : result (list bstate) :=
  match s with
  | None => Ok []
  | Some b =>
      match fuel with
      | O => Throw out_of_fuel
      | S fuel =>
          rest ← branch_loop fuel db (get_block db (previous (header b)));
          Ok (b :: rest)
      end
  end.

Definition fetch_branch (db : fork_database) (h : block_id_type) (trim_after_block_num : Z) :
    result (list bstate) :=
  l ← branch_loop (size (index db)) db (get_block db h);
  Ok (filter (λ s : bstate, block_num s ≤ trim_after_block_num) l).

Definition search_on_branch (db : fork_database) (h : block_id_type) (num : Z) :
    result (option bstate) :=
  l ← branch_loop (size (index db)) db (get_block db h);
  Ok (List.find (λ s : bstate, block_num s =? num) l).

(** [(prev == my->root->id) ? my->root : get_block( prev )] *)
Definition root_or_block (db : fork_database) (i : block_id_type) : result bstate :=
  deref (root db) ≫= λ r : bstate,
  if decide (i = id r) then Ok r
  else of_option fork_db_block_not_found (get_block db i).

(** The loops that bring the higher branch down to the height of the other. *)
Fixpoint descend (fuel : nat) (db : fork_database) (b : bstate) (num : Z) (acc : list bstate) :
    result (bstate * list bstate) :=
  if num <? block_num b then
    match fuel with
    | O => Throw out_of_fuel
    | S fuel =>
        b' ← root_or_block db (previous (header b));
        descend fuel db b' num (acc ++ [b])
    end
  else Ok (b, acc).

(** The loop that goes down both branches until the previous ids agree. *)
Fixpoint descend_both (fuel : nat) (db : fork_database) (b1 b2 : bstate) (acc1 acc2 : list bstate) :
    result ((bstate * list bstate) * (bstate * list bstate)) :=
  if decide (previous (header b1) = previous (header b2)) then Ok ((b1, acc1), (b2, acc2))
  else
    match fuel with
    | O => Throw out_of_fuel
    | S fuel =>
        b1' ← of_option fork_db_block_not_found (get_block db (previous (header b1)));
        b2' ← of_option fork_db_block_not_found (get_block db (previous (header b2)));
        descend_both fuel db b1' b2' (acc1 ++ [b1]) (acc2 ++ [b2])
    end.

Definition fetch_branch_from (db : fork_database) (first second : block_id_type) :
    result (list bstate * list bstate) :=
  let fuel := S (size (index db)) in
  root_or_block db first ≫= λ b1 : bstate,
  root_or_block db second ≫= λ b2 : bstate,
  descend fuel db b1 (block_num b2) [] ≫= λ '((b1, r1) : bstate * list bstate),
  descend fuel db b2 (block_num b1) [] ≫= λ '((b2, r2) : bstate * list bstate),
  if decide (id b1 = id b2) then Ok (r1, r2)
  else
    '((b1, r1), (b2, r2)) ← descend_both fuel db b1 b2 r1 r2;
    Ok (r1 ++ [b1], r2 ++ [b2]).

(** [fork_database::remove]: the queue of ids to remove is [done ++ todo], the
    ids in [todo] are still to be looked at. *)
Fixpoint remove_scan (fuel : nat) (idx : index_type) (head_id : block_id_type)
    (todo done : list block_id_type) : result (list block_id_type) :=
  match todo with
  | [] => Ok done
  | x :: todo =>
      match fuel with
      | O => Throw out_of_fuel
      | S fuel =>
          _ ← EOS_ASSERT (bool_decide (x ≠ head_id)) fork_database_exception;
          remove_scan fuel idx head_id (todo ++ ((λ b : bstate, id b) <$> by_prev idx x)) (done ++ [x])
      end
  end.

Definition remove (db : fork_database) (i : block_id_type) : result fork_database :=
  deref (head db) ≫= λ h : bstate,
  queue ← remove_scan (S (size (index db))) (index db) (id h) [i] [];
  Ok (mk_fork_db (foldl (λ idx x, delete x idx) (index db) queue) (root db) (head db)).

(** [fork_database::advance_root]; of a call that throws only the exception
    is modelled, not the state it leaves.  The ids of the blocks below the new root,
    down to the old root. *)
Fixpoint blocks_to_remove (fuel : nat) (db : fork_database) (root_id : block_id_type) (b : bstate) :
    result (list block_id_type) :=
  match fuel with
  | O => Throw out_of_fuel
  | S fuel =>
      let prev := previous (header b) in
      match get_block db prev with
      | Some b' => rest ← blocks_to_remove fuel db root_id b'; Ok (prev :: rest)
      | None => _ ← EOS_ASSERT (bool_decide (prev = root_id)) fork_database_exception; Ok [prev]
      end
  end.

Definition advance_root (db : fork_database) (i : block_id_type) : result fork_database :=
  of_option fork_database_exception (root db) ≫= λ r : bstate,
  new_root ← of_option fork_database_exception (get_block db i);
  _ ← EOS_ASSERT (is_valid new_root) fork_database_exception;
  ids ← blocks_to_remove (size (index db)) db (id r) new_root;
  let db1 := mk_fork_db (delete i (index db)) (root db) (head db) in
  db2 ← fold_res remove db1 ids;
  Ok (mk_fork_db (index db2) (Some new_root) (head db2)).

(** [fork_database::mark_valid] *)
Definition mark_valid (db : fork_database) (h : bstate) : result fork_database :=
  if validated h then Ok db
  else
    b ← of_option fork_database_exception (index db !! id h);
    let idx := <[id h := set_validated true b]> (index db) in
    of_option undefined_behaviour (hd_error (by_lib_block_num idx)) ≫= λ candidate : bstate,
    deref (head db) ≫= λ hd : bstate,
    Ok (mk_fork_db idx (root db) (if first_preferred candidate hd then Some candidate else head db)).

(** ** The file between two runs

    What [close] writes and [open] reads, unpacked: [fc::raw] stores the
    reflected fields only, which leaves out [header_exts] and [trxs]. *)
Record fork_db_file := mk_file {
  f_totem : Z;
  f_version : Z;
  f_root : block_header_state;
  f_count : Z;
  f_blocks : list bstate;
  f_head : option block_id_type;
}.

Definition magic_number : Z := 0x30510FDB.
Definition min_supported_version : Z := 1.
Definition max_supported_version : Z := 1.

Definition reflected_header_state (s : block_header_state) : block_header_state :=
  mk_bhs (bhs_common s) (id s) (header s) (pending_schedule s) (activated_protocol_features s) [].
Definition reflected (b : bstate) : bstate :=
  mk_block_state (reflected_header_state b) (block b) (validated b) [].

(** The order in which [close] writes the blocks: the validated and the
    unvalidated part of [by_lib_block_num], each backwards, merged so that a
    block comes before those preferred to it. *)
Definition not_preferred (x y : bstate) : Prop := first_preferred x y = false.
#[export] Instance not_preferred_dec x y : Decision (not_preferred x y).
Proof. unfold not_preferred. apply _. Defined.

Definition close_order (idx : index_type) : list bstate :=
  let indx := by_lib_block_num idx in
  let unvalidated := reverse (filter (λ b, is_valid b = false) indx) in
  let validated := reverse (filter (λ b, is_valid b = true) indx) in
  list_merge not_preferred validated unvalidated.

(** [fork_database::close]; no file is written when there is no root. *)
Definition close (db : fork_database) : option fork_db_file * fork_database :=
  match root db with
  | None => (None, db)
  | Some r =>
      (Some (mk_file magic_number max_supported_version (reflected_header_state r)
               (u32 (Z.of_nat (size (index db)))) (reflected <$> close_order (index db))
               ((λ h : bstate, id h) <$> head db)),
       mk_fork_db ∅ (root db) (head db))
  end.

(** Recapturing the transactions of a block that was read. *)
Definition packed_of (t : receipt_trx packed_transaction) : option packed_transaction :=
  match t with trx_packed p => Some p | trx_id _ => None end.

Context `{cr : Crypto}.

Definition restore (s : bstate) : result bstate :=
  of_option undefined_behaviour (block s) ≫= λ b : signed_block packed_transaction,
  exts ← validate_and_extract_header_extensions b;
  Ok (mk_block_state
        (mk_bhs (bhs_common s) (id s) (header s) (pending_schedule s) (activated_protocol_features s) exts)
        (block s) (validated s) (trxs s ++ omap packed_of (transactions b))).

Definition open_block (validator : Z → gset digest_type → list digest_type → result unit)
    (db : fork_database) (s : bstate) : result fork_database :=
  s ← restore s;
  add_impl db (Some s) false true validator.

(** [fork_database::open]; [None] is a missing file. *)
Definition open (db : fork_database) (file : option fork_db_file)
    (validator : Z → gset digest_type → list digest_type → result unit) : result fork_database :=
  match file with
  | None => Ok db
  | Some f =>
      _ ← EOS_ASSERT (f_totem f =? magic_number) fork_database_exception;
      _ ← EOS_ASSERT ((min_supported_version <=? f_version f) && (f_version f <=? max_supported_version))
            fork_database_exception;
      let db := reset (f_root f) in
      _ ← EOS_ASSERT (f_count f <=? Z.of_nat (length (f_blocks f))) std_out_of_range;
      db ← fold_res (open_block validator) db (take (Z.to_nat (f_count f)) (f_blocks f));
      head_id ← of_option std_out_of_range (f_head f);
      deref (root db) ≫= λ r : bstate,
      (if decide (id r = head_id) then Ok r
       else of_option fork_database_exception (get_block db head_id)) ≫= λ h : bstate,
      _ ← match hd_error (by_lib_block_num (index db)) with
          | Some candidate =>
              if is_valid candidate
              then EOS_ASSERT (negb (first_preferred candidate h)) fork_database_exception
              else EOS_ASSERT (bool_decide (id h = id r)) fork_database_exception
          | None => EOS_ASSERT (bool_decide (id h = id r)) fork_database_exception
          end;
      Ok (mk_fork_db (index db) (root db) (Some h))
  end.

(** ** Making block states ([block_state.cpp]) *)

Abbreviation validator_type := (Z → gset digest_type → list digest_type → result unit) (only parsing).

(** A received block on top of its predecessor. *)
Definition block_state_of_received (prev : block_header_state) (b : signed_block packed_transaction)
    (validator : validator_type) (skip_validate_signee : bool) : result bstate :=
  s ← next_header prev b validator skip_validate_signee;
  Ok (mk_block_state s (Some b) false []).

(** A block just produced, which is signed here. *)
Definition block_state_of_produced (cur : pending_block_header_state)
    (b : signed_block packed_transaction) (trx_metas : list packed_transaction)
    (validator : validator_type) (signer : digest_type → Z) : result bstate :=
  '(s, h) ← finish_next_sign cur b validator signer;
  Ok (mk_block_state s (Some (mk_signed_block h (transactions b) (block_extensions b))) false trx_metas).

(** A block that was assembled from a received one. *)
Definition block_state_of_applied (cur : pending_block_header_state)
    (b : signed_block packed_transaction) (trx_metas : list packed_transaction)
    (validator : validator_type) (skip_validate_signee : bool) : result bstate :=
  s ← finish_next cur b validator skip_validate_signee;
  Ok (mk_block_state s (Some b) false trx_metas).
End fork_database.
