(* ===== verification/ForkTree.v ===== *)
(** * Correctness of the fork database

    The blocks of a fork database form a tree over its root: every block's
    [previous] is another block of the index or the root, one lower.  Every
    operation keeps this, the head is always a validated block (or the root)
    to which no validated block is preferred, [remove] removes exactly the
    descendants of a block, [advance_root] keeps exactly those of the new
    root, and [fetch_branch_from] finds the common ancestor. *)

From S2P Require Import Prelude Merkle BlockHeader BlockHeaderState ForkDatabase.
Local Open Scope Z_scope.

(** ** Orders *)

Lemma lex_lt_irrefl a : lex_lt a a = false.
Proof. induction a as [|x a IH]; simpl; [done|]. rewrite IH. lia. Qed.

Lemma lex_lt_total a b :
  length a = length b → lex_lt a b = false → lex_lt b a = false → a = b.
Proof.
  revert b. induction a as [|x a IH]; intros [|y b]; simpl; try done.
  intros [= Hl] H1 H2. bool_prop.
  assert (x = y) as -> by lia. rewrite Z.eqb_refl in *. f_equal. by apply IH.
Qed.

Lemma lex_le_trans a b c :
  length a = length b → length b = length c →
  lex_lt b a = false → lex_lt c b = false → lex_lt c a = false.
Proof.
  revert b c. induction a as [|x a IH]; intros [|y b] [|z c]; simpl; try done.
  intros [= Hl1] [= Hl2] H1 H2. bool_prop.
  destruct (Z.ltb_spec z x); [lia|]. destruct (Z.eqb_spec z x) as [->|]; [|done]. simpl.
  assert (y = x) as -> by lia. rewrite Z.eqb_refl in *. by apply (IH b c).
Qed.

Lemma lex_lt_asym a b : lex_lt a b = true → lex_lt b a = false.
Proof.
  revert b. induction a as [|x a IH]; intros [|y b]; simpl; try done. intros H.
  destruct (Z.ltb_spec y x); [lia|]. destruct (Z.eqb_spec y x) as [->|]; [|done]. simpl. apply IH.
  rewrite Z.eqb_refl in H. destruct (Z.ltb_spec x x); [lia|done].
Qed.

Section theory.
Context {packed_transaction : Type}.
Abbreviation bstate := (block_state packed_transaction).
Abbreviation index_type := (gmap digest_type bstate).
Abbreviation fork_db := (@fork_database packed_transaction).
Implicit Types (b x y : bstate) (idx : index_type) (db : fork_db) (i k a : digest_type).

#[export] Instance lib_le_total : Total (@lib_le packed_transaction).
Proof.
  intros x y. unfold lib_le, lib_before. destruct (lex_lt (lib_key y) (lib_key x)) eqn:H; [|by left].
  right. by apply lex_lt_asym.
Qed.
#[export] Instance lib_le_trans : Transitive (@lib_le packed_transaction).
Proof. intros x y z. unfold lib_le, lib_before. by apply lex_le_trans. Qed.
#[export] Instance not_preferred_total : Total (@not_preferred packed_transaction).
Proof.
  intros x y. unfold not_preferred, first_preferred.
  destruct (lex_lt _ _) eqn:H; [right; by apply lex_lt_asym|by left].
Qed.
#[export] Instance not_preferred_trans : Transitive (@not_preferred packed_transaction).
Proof. intros x y z Hxy Hyz. eapply lex_le_trans; [..|exact Hxy|exact Hyz]; done. Qed.

(** What the composite key says about two blocks. *)
Lemma lib_le_spec x y :
  lib_le x y → (validated y = true → validated x = true) ∧
    (validated x = validated y → first_preferred y x = false).
Proof.
  unfold lib_le, lib_before, lib_key, first_preferred. simpl. intros H.
  destruct (validated x), (validated y); simpl in *; bool_prop; split; intros; try done; lia.
Qed.

(** The first block of [by_lib_block_num]. *)
Lemma by_lib_elem idx b : b ∈ by_lib_block_num idx ↔ ∃ k, idx !! k = Some b.
Proof.
  unfold by_lib_block_num. rewrite (merge_sort_Permutation _ _), list_elem_of_fmap. split.
  - intros ([k b'] & -> & H%elem_of_map_to_list). by exists k.
  - intros [k H]. exists (k, b). split; [done|]. by apply elem_of_map_to_list.
Qed.

Lemma candidate_best idx c :
  hd_error (by_lib_block_num idx) = Some c →
  (∃ k, idx !! k = Some c) ∧
  ∀ k b, idx !! k = Some b → validated b = true →
    validated c = true ∧ first_preferred b c = false.
Proof.
  intros Hc. split; [apply by_lib_elem; destruct (by_lib_block_num idx); [done|]; simplify_eq/=; left|].
  intros k b Hb Hv. assert (lib_le c b) as Hle.
  { pose proof (proj2 (by_lib_elem idx b) (ex_intro _ k Hb)) as Hin.
    pose proof (StronglySorted_merge_sort lib_le (map_to_list idx).*2) as Hs.
    fold (by_lib_block_num idx) in Hs. destruct (by_lib_block_num idx) as [|c' l]; [done|].
    simplify_eq/=. apply elem_of_cons in Hin as [->|Hin]; [apply lex_lt_irrefl|].
    apply StronglySorted_inv in Hs as [_ HF]. rewrite Forall_forall in HF. by apply HF. }
  destruct (lib_le_spec c b Hle) as [H1 H2]. split; [by apply H1|]. apply H2. rewrite H1; done.
Qed.

Lemma candidate_exists idx k b : idx !! k = Some b → ∃ c, hd_error (by_lib_block_num idx) = Some c.
Proof.
  intros Hb. pose proof (proj2 (by_lib_elem idx b) (ex_intro _ k Hb)) as Hin.
  destruct (by_lib_block_num idx) as [|c l]; [by apply elem_of_nil in Hin|by exists c].
Qed.

(** ** Paths *)

Context `{cr : Crypto} {crl : CryptoLaws cr}.

(** The number of a block is the one in its id, one above its predecessor's;
    block states made by [BlockHeaderState.next_header] have this property. *)
Definition block_ok b : Prop :=
  num_from_id (id b) = block_num b ∧ num_from_id (previous (header b)) + 1 = block_num b.

Definition index_ok idx : Prop := ∀ k b, idx !! k = Some b → id b = k ∧ block_ok b.

(** [path idx k l a]: the blocks [l] lead from [k] down to [a], which is not
    part of [l]. *)
Inductive path idx : digest_type → list bstate → digest_type → Prop :=
  | path_nil a : path idx a [] a
  | path_cons k b l a : idx !! k = Some b → path idx (previous (header b)) l a → path idx k (b :: l) a.

(** [k] is [a] or descends from it. *)
Definition desc idx a k : Prop := ∃ l, path idx k l a.

Lemma desc_refl idx a : desc idx a a.
Proof. exists []. constructor. Qed.

Lemma desc_step idx a k b : idx !! k = Some b → desc idx a (previous (header b)) → desc idx a k.
Proof. intros Hb [l Hl]. exists (b :: l). by econstructor. Qed.

Lemma desc_inv idx a k :
  desc idx a k → k = a ∨ ∃ b, idx !! k = Some b ∧ desc idx a (previous (header b)).
Proof. intros [l Hl]. destruct Hl as [|k b l a Hb Hl]; [by left|]. right. exists b. split; [done|by exists l]. Qed.

Lemma path_app idx k1 l1 k2 l2 k3 :
  path idx k1 l1 k2 → path idx k2 l2 k3 → path idx k1 (l1 ++ l2) k3.
Proof. induction 1; intros H2; simpl; [done|]. econstructor; [done|by auto]. Qed.

Lemma path_mono idx idx' k l a : idx ⊆ idx' → path idx k l a → path idx' k l a.
Proof. intros Hs. induction 1; [constructor|]. econstructor; [by eapply lookup_weaken|done]. Qed.

Lemma desc_trans idx a k1 k2 : desc idx a k1 → desc idx k1 k2 → desc idx a k2.
Proof. intros [l1 H1] [l2 H2]. exists (l2 ++ l1). by eapply path_app. Qed.

Lemma path_num idx k l a :
  index_ok idx → path idx k l a → num_from_id k = num_from_id a + Z.of_nat (length l).
Proof.
  intros Hok. induction 1 as [|k b l a Hb Hl IH]; simpl; [lia|].
  destruct (Hok k b Hb) as [<- [H1 H2]]. lia.
Qed.

Lemma path_elem idx k l a b :
  index_ok idx → path idx k l a → b ∈ l →
  idx !! id b = Some b ∧ ∃ l1 l2, l = l1 ++ b :: l2 ∧ path idx k l1 (id b) ∧ path idx (id b) (b :: l2) a.
Proof.
  intros Hok. induction 1 as [|k b' l a Hb Hl IH]; intros Hin; [by apply elem_of_nil in Hin|].
  destruct (Hok k b' Hb) as [Hid _]. apply elem_of_cons in Hin as [->|Hin].
  - rewrite Hid. split; [done|]. exists [], l. split_and!; [done|constructor|by econstructor].
  - destruct (IH Hin) as (H1 & l1 & l2 & -> & H2 & H3). split; [done|].
    exists (b' :: l1), l2. split_and!; [done|by econstructor|done].
Qed.

Lemma path_unique idx k l l' a :
  index_ok idx → path idx k l a → path idx k l' a → l = l'.
Proof.
  intros Hok Hl. revert l'. induction Hl as [a|k b l a Hb Hl IH]; intros l' Hl'.
  - pose proof (path_num _ _ _ _ Hok Hl'). symmetry. apply nil_length_inv. lia.
  - inversion Hl' as [|? b' l'' ? Hb' Hl'']; subst.
    + assert (path idx a (b :: l) a) as Hc by (by econstructor).
      pose proof (path_num _ _ _ _ Hok Hc). simpl in *. lia.
    + rewrite Hb in Hb'. injection Hb' as <-. f_equal. by apply IH.
Qed.

(** A path visits distinct blocks. *)
Lemma path_length idx k l a : index_ok idx → path idx k l a → (length l ≤ size idx)%nat.
Proof.
  intros Hok Hl.
  assert (NoDup ((λ b, id b) <$> l) ∧ Forall (λ b, idx !! id b = Some b ∧ num_from_id (id b) ≤ num_from_id k) l)
    as [Hnd Hin].
  { induction Hl as [|k b l a Hb Hl [IH1 IH2]]; [split; constructor|].
    destruct (Hok k b Hb) as [Hid [H1 H2]]. rewrite fmap_cons, NoDup_cons, Forall_cons.
    assert (Forall (λ b0, idx !! id b0 = Some b0 ∧ num_from_id (id b0) ≤ num_from_id k) l) as HF.
    { eapply Forall_impl; [exact IH2|]. intros b0 [? ?]. split; [done|]. rewrite <- Hid. lia. }
    rewrite Hid. split_and!; [|done|done|lia|done].
    intros (b0 & Hb0 & Hin)%list_elem_of_fmap. rewrite Forall_forall in IH2.
    specialize (IH2 b0 Hin) as [_ Hle]. rewrite <- Hb0, <- Hid in Hle. lia. }
  rewrite <- (length_fmap (λ b, id b) l), <- size_dom, <- (size_list_to_set (C := gset digest_type)) by done.
  apply subseteq_size. intros i (b & -> & Hb)%elem_of_list_to_set%list_elem_of_fmap.
  rewrite Forall_forall in Hin. apply elem_of_dom. exists b. by apply Hin.
Qed.

(** ** [remove] *)

(** The state of the queue: it holds the children of the ids already looked
    at, each once. *)
Record queue_inv idx i head_id (todo done : list digest_type) : Prop := {
  q_nodup : NoDup (done ++ todo);
  q_desc : ∀ k, k ∈ done ++ todo → desc idx i k;
  q_parent : ∀ k, k ∈ done ++ todo → k = i ∨ ∃ b, idx !! k = Some b ∧ previous (header b) ∈ done;
  q_closed : ∀ k b, idx !! k = Some b → previous (header b) ∈ done → k ∈ done ++ todo;
  q_start : i ∈ done ++ todo;
  q_head : head_id ∉ done;
}.

Lemma by_prev_elem idx i k :
  index_ok idx →
  k ∈ (λ b, id b) <$> by_prev idx i ↔ ∃ b, idx !! k = Some b ∧ previous (header b) = i.
Proof.
  intros Hok. unfold by_prev. rewrite list_elem_of_fmap. split.
  - intros (b & -> & [Hp ([k' b'] & Hb' & Hin)%list_elem_of_fmap]%list_elem_of_filter).
    simpl in Hb'. subst b'. apply elem_of_map_to_list in Hin.
    destruct (Hok k' b Hin) as [-> _]. by exists b.
  - intros (b & Hb & Hp). exists b. destruct (Hok k b Hb) as [Hid _]. split; [done|].
    apply list_elem_of_filter. split; [done|]. apply list_elem_of_fmap. exists (k, b).
    split; [done|]. by apply elem_of_map_to_list.
Qed.

Lemma by_prev_NoDup idx i : index_ok idx → NoDup ((λ b, id b) <$> by_prev idx i).
Proof.
  intros Hok. apply NoDup_fmap_2_strong.
  - intros x y Hx Hy Hxy. unfold by_prev in *.
    apply list_elem_of_filter in Hx as [_ ([kx x'] & Hx' & Hx)%list_elem_of_fmap].
    apply list_elem_of_filter in Hy as [_ ([ky y'] & Hy' & Hy)%list_elem_of_fmap]. simpl in *. subst.
    apply elem_of_map_to_list in Hx, Hy.
    destruct (Hok _ _ Hx) as [Hix _], (Hok _ _ Hy) as [Hiy _]. congruence.
  - apply NoDup_filter, NoDup_fmap_2_strong; [|apply NoDup_map_to_list].
    intros [kx x] [ky y] Hx%elem_of_map_to_list Hy%elem_of_map_to_list Hxy. simpl in Hxy. subst.
    destruct (Hok _ _ Hx) as [Hix _], (Hok _ _ Hy) as [Hiy _]. congruence.
Qed.

Lemma queue_step idx i head_id j todo done :
  index_ok idx → j ≠ head_id → queue_inv idx i head_id (j :: todo) done →
  queue_inv idx i head_id (todo ++ ((λ b, id b) <$> by_prev idx j)) (done ++ [j]).
Proof.
  intros Hok Hj [Hnd Hdesc Hpar Hcl Hst Hh].
  assert (∀ k, k ∈ (done ++ [j]) ++ todo ↔ k ∈ done ++ j :: todo) as Heq by set_solver.
  assert (j ∉ done) as Hjd by (apply NoDup_app in Hnd; set_solver).
  split; rewrite ?app_assoc.
  - apply NoDup_app. split_and!; [by rewrite <- app_assoc| |by apply by_prev_NoDup].
    intros k Hk%Heq (b & Hb & Hp)%by_prev_elem; [|done].
    destruct (Hpar k Hk) as [->|(b' & Hb' & Hp')]; [|congruence].
    destruct (Hdesc j ltac:(set_solver)) as [l Hl].
    apply path_num in Hl; [|done]. destruct (Hok i b Hb) as [Hib [H1 H2]].
    rewrite Hib in H1. rewrite Hp in H2. lia.
  - intros k [Hk%Heq|Hk]%elem_of_app; [by apply Hdesc|].
    apply by_prev_elem in Hk as (b & Hb & Hp); [|done]. eapply desc_step; [done|].
    rewrite Hp. apply Hdesc. set_solver.
  - intros k [Hk%Heq|Hk]%elem_of_app.
    + destruct (Hpar k Hk) as [?|(b & ? & ?)]; [by left|right; exists b; set_solver].
    + apply by_prev_elem in Hk as (b & Hb & Hp); [|done]. right. exists b. set_solver.
  - intros k b Hb [Hp|Hp%list_elem_of_singleton]%elem_of_app; apply elem_of_app.
    + left. apply Heq. by eapply Hcl.
    + right. apply by_prev_elem; [done|]. by exists b.
  - apply elem_of_app. left. by apply Heq.
  - set_solver.
Qed.

Lemma queue_length idx i head_id todo done :
  queue_inv idx i head_id todo done → (length (done ++ todo) ≤ S (size idx))%nat.
Proof.
  intros [Hnd _ Hpar _ _ _].
  rewrite <- (size_list_to_set (C := gset digest_type)) by done.
  etrans; [apply (subseteq_size _ ({[i]} ∪ dom idx))|].
  - intros k [->|(b & Hb & _)]%elem_of_list_to_set%Hpar; [set_solver|].
    apply elem_of_union. right. by apply elem_of_dom_2 in Hb.
  - rewrite size_union_alt, size_singleton, <- size_dom.
    assert (size (dom idx ∖ {[i]}) ≤ size (dom idx))%nat by (apply subseteq_size; set_solver). lia.
Qed.

Lemma remove_scan_spec idx i head_id fuel todo done :
  index_ok idx → queue_inv idx i head_id todo done → (S (size idx) ≤ fuel + length done)%nat →
  (∃ q, remove_scan fuel idx head_id todo done = Ok q ∧ head_id ∉ q ∧ ∀ k, k ∈ q ↔ desc idx i k) ∨
  (remove_scan fuel idx head_id todo done = Throw fork_database_exception ∧ desc idx i head_id).
Proof.
  intros Hok. revert todo done. induction fuel as [|fuel IH]; intros todo done Hq Hfuel.
  all: destruct todo as [|j todo]; cbn [remove_scan].
  1, 3: left; exists done; destruct Hq as [Hnd Hdesc Hpar Hcl Hst Hh]; rewrite app_nil_r in *;
    split_and!; [done..|]; intros k; split; [by apply Hdesc|]; intros [l Hl];
    induction Hl as [|k b l a Hb Hl IHl]; [done|];
    by apply (Hcl k b Hb), IHl.
  - pose proof (queue_length _ _ _ _ _ Hq) as Hlen. rewrite length_app in Hlen. simpl in Hlen. lia.
  - destruct (decide (j = head_id)) as [->|Hj].
    + right. rewrite bool_decide_eq_false_2 by naive_solver. split; [done|].
      apply (q_desc _ _ _ _ _ Hq). set_solver.
    + rewrite bool_decide_eq_true_2 by done. cbn [EOS_ASSERT mbind result_bind].
      apply IH; [by apply queue_step|]. rewrite length_app. simpl. lia.
Qed.

Lemma foldl_delete_lookup (q : list digest_type) idx k :
  foldl (λ idx j, delete j idx) idx q !! k = if decide (k ∈ q) then None else idx !! k.
Proof.
  revert idx. induction q as [|x q IH]; intros idx; simpl; [done|]. rewrite IH.
  destruct (decide (k ∈ q)) as [Hk|Hk].
  - by rewrite decide_True by set_solver.
  - destruct (decide (k = x)) as [->|Hne].
    + rewrite lookup_delete_eq, decide_True by set_solver. done.
    + rewrite lookup_delete_ne, decide_False by set_solver. done.
Qed.

(** [remove] succeeds unless the head is the block or one of its descendants,
    and then leaves exactly the blocks that do not descend from it. *)
Lemma remove_spec db i hd :
  index_ok (index db) → head db = Some hd →
  (desc (index db) i (id hd) ∧ remove db i = Throw fork_database_exception) ∨
  (¬ desc (index db) i (id hd) ∧ ∃ db', remove db i = Ok db' ∧ root db' = root db ∧ head db' = head db ∧
     ∀ k b, index db' !! k = Some b ↔ index db !! k = Some b ∧ ¬ desc (index db) i k).
Proof.
  intros Hok Hhd. unfold remove. rewrite Hhd. simpl.
  destruct (remove_scan_spec (index db) i (id hd) (S (size (index db))) [i] [])
    as [(q & Hq & Hh & Hspec)|[Hq Hd]]; [done| |simpl; lia|..].
  - split; simpl.
    + apply NoDup_singleton.
    + intros k ->%list_elem_of_singleton. apply desc_refl.
    + intros k ->%list_elem_of_singleton. by left.
    + intros k b _ []%elem_of_nil.
    + by left.
    + apply not_elem_of_nil.
  - right. split; [by rewrite <- Hspec|]. simpl in Hq. rewrite Hq. eexists. split; [done|].
    split_and!; [done..|]. intros k b. simpl. rewrite foldl_delete_lookup, <- Hspec.
    destruct (decide (k ∈ q)); split; [done|by intros []|by intros ?; split|by intros []].
  - left. simpl in Hq. by rewrite Hq.
Qed.

(** ** The invariant *)

Record wf db (r hd : bstate) : Prop := {
  wf_root : root db = Some r;
  wf_head : head db = Some hd;
  wf_index : index_ok (index db);
  wf_root_num : num_from_id (id r) = block_num r;
  wf_link : ∀ k b, index db !! k = Some b →
    previous (header b) = id r ∨ is_Some (index db !! previous (header b));
  wf_head_in : hd = r ∨ index db !! id hd = Some hd;
  wf_head_valid : validated hd = true ∧ validated r = true;
  wf_head_best : ∀ k b, index db !! k = Some b → validated b = true → first_preferred b hd = false;
}.

(** Every block descends from the root and is above it. *)
Lemma wf_desc_above db r hd k b :
  wf db r hd → index db !! k = Some b →
  desc (index db) (id r) k ∧ num_from_id (id r) < num_from_id k.
Proof.
  intros Hwf. remember (Z.to_nat (num_from_id k)) as n eqn:Hn. revert k b Hn.
  induction n as [n IH] using lt_wf_ind. intros k b Hn Hb.
  destruct (wf_index _ _ _ Hwf k b Hb) as [Hid [H1 H2]]. rewrite Hid in H1.
  destruct (wf_link _ _ _ Hwf k b Hb) as [Hp|[b' Hb']].
  - split; [|rewrite Hp in H2; lia]. eapply desc_step; [done|]. rewrite Hp. apply desc_refl.
  - pose proof (num_from_id_range (previous (header b))) as Hr. unfold in_u in Hr.
    destruct (IH (Z.to_nat (num_from_id (previous (header b)))) ltac:(lia) _ _ eq_refl Hb') as [Hd Hlt].
    split; [by eapply desc_step|lia].
Qed.

Lemma wf_root_not_in db r hd : wf db r hd → index db !! id r = None.
Proof.
  intros Hwf. destruct (index db !! id r) as [b|] eqn:Hb; [|done].
  destruct (wf_desc_above _ _ _ _ _ Hwf Hb). lia.
Qed.

(** *** The operations keep it *)

Lemma reset_wf s r : r = mk_block_state s None true [] → num_from_id (id s) = block_num s →
  wf (reset s) r r.
Proof. intros -> Hs. split; simpl; try done. by left. Qed.

(** Changing flags does not change the tree. *)
Lemma index_ok_flags idx idx' :
  (∀ k b', idx' !! k = Some b' → ∃ b, idx !! k = Some b ∧ bs_header_state b' = bs_header_state b) →
  index_ok idx → index_ok idx'.
Proof.
  intros Hsub Hok k b' Hb'. destruct (Hsub k b' Hb') as (b & Hb & Hs).
  destruct (Hok k b Hb) as [H1 H2]. unfold block_ok. by rewrite Hs.
Qed.

Lemma rollback_wf db r hd : wf db r hd → wf (rollback_head_to_root db) r r.
Proof.
  intros Hwf. split; simpl; [apply Hwf..| |apply Hwf| |by left| |].
  - apply (index_ok_flags (index db)); [|apply Hwf]. intros k b' (b & <- & Hb)%lookup_fmap_Some.
    by exists b.
  - intros k b' (b & <- & Hb)%lookup_fmap_Some. simpl.
    destruct (wf_link _ _ _ Hwf k b Hb) as [?|[b1 Hb1]]; [by left|right].
    rewrite lookup_fmap, Hb1. by eexists.
  - split; apply Hwf.
  - by intros k b' (b & <- & Hb)%lookup_fmap_Some.
Qed.

Lemma add_impl_wf db r hd n ign validate v db' :
  wf db r hd → block_ok n → add_impl db (Some n) ign validate v = Ok db' → ∃ hd', wf db' r hd'.
Proof.
  intros Hwf Hn. unfold add_impl. rewrite (wf_root _ _ _ Hwf). simpl.
  intros (pbh & Hp & (p & Hp' & (u & _ & H)%bind_Ok)%bind_Ok)%bind_Ok.
  apply of_option_Ok in Hp'. subst pbh.
  destruct (index db !! id n) as [b0|] eqn:Hdup.
  { destruct ign; [|done]. injection H as <-. by exists hd. }
  apply bind_Ok in H as (c & Hc%of_option_Ok & [= <-]).
  destruct (candidate_best _ _ Hc) as [[kc Hkc] Hbest].
  assert (index_ok (<[id n := n]> (index db))) as Hok'.
  { intros k b [[<- <-]|[? Hb]]%lookup_insert_Some; [done|]. by apply (wf_index _ _ _ Hwf). }
  assert (∀ k, is_Some (index db !! k) → is_Some (<[id n := n]> (index db) !! k)) as Hmono.
  { intros k Hk. rewrite lookup_insert_is_Some'. by right. }
  assert (∀ k b, <[id n := n]> (index db) !! k = Some b →
    previous (header b) = id r ∨ is_Some (<[id n := n]> (index db) !! previous (header b))) as Hlink.
  { intros k b [[<- <-]|[? Hb]]%lookup_insert_Some.
    - unfold get_block_header in Hp. rewrite (wf_root _ _ _ Hwf) in Hp. simpl in Hp.
      destruct (decide (id r = previous (header n))); [by left|]. injection Hp as Hp.
      apply fmap_Some in Hp as (b1 & Hb1 & _). right. apply Hmono. by exists b1.
    - destruct (wf_link _ _ _ Hwf k b Hb); [by left|right; by apply Hmono]. }
  unfold is_valid. destruct (validated c) eqn:Hv.
  - exists c. split; simpl; [first [done|apply Hwf]..| |split; [done|apply Hwf]|].
    + right. destruct (Hok' kc c Hkc) as [-> _]. done.
    + intros k b Hb Hvb. by apply (Hbest k b).
  - exists hd. split; simpl; [first [done|apply Hwf]..| |apply Hwf|].
    + destruct (wf_head_in _ _ _ Hwf) as [?|Hin]; [by left|right].
      rewrite lookup_insert_ne by congruence. done.
    + intros k b Hb Hvb. destruct (Hbest k b Hb Hvb). congruence.
Qed.

Lemma mark_valid_wf db r hd h db' :
  wf db r hd → mark_valid db h = Ok db' → ∃ hd', wf db' r hd'.
Proof.
  intros Hwf. unfold mark_valid. destruct (validated h); [intros [= <-]; by exists hd|].
  intros (b & Hb%of_option_Ok & (c & Hc%of_option_Ok & (h0 & Hh0 & [= <-])%bind_Ok)%bind_Ok)%bind_Ok.
  rewrite (wf_head _ _ _ Hwf) in Hh0. injection Hh0 as <-.
  destruct (candidate_best _ _ Hc) as [[kc Hkc] Hbest]. set (idx' := <[id h := set_validated true b]> (index db)) in *.
  assert (∀ k b', idx' !! k = Some b' → ∃ b, index db !! k = Some b ∧ bs_header_state b' = bs_header_state b)
    as Hsub.
  { intros k b' [[<- <-]|[? Hb']]%lookup_insert_Some; [by exists b|by exists b']. }
  assert (index_ok idx') as Hok' by (eapply index_ok_flags; [done|apply Hwf]).
  assert (∀ k b', idx' !! k = Some b' → previous (header b') = id r ∨ is_Some (idx' !! previous (header b')))
    as Hlink.
  { intros k b' Hb'. destruct (Hsub k b' Hb') as (b1 & Hb1 & Hs). rewrite Hs.
    destruct (wf_link _ _ _ Hwf k b1 Hb1); [by left|right]. subst idx'.
    rewrite lookup_insert_is_Some'. by right. }
  assert (idx' !! id h = Some (set_validated true b)) as Hnew by apply lookup_insert_eq.
  assert (validated c = true) as Hvc by (by apply (Hbest _ _ Hnew)).
  destruct (first_preferred c hd) eqn:Hpref.
  - exists c. split; simpl; [first [done|apply Hwf]..| |split; [done|apply Hwf]|].
    + right. destruct (Hok' kc c Hkc) as [-> _]. done.
    + intros k b1 Hb1 Hv. by apply (Hbest k b1).
  - exists hd. split; simpl; [first [done|apply Hwf]..| |apply Hwf|].
    + destruct (wf_head_in _ _ _ Hwf) as [?|Hin]; [by left|right]. subst idx'.
      destruct (decide (id h = id hd)) as [Heq|Hne]; [|by rewrite lookup_insert_ne].
      rewrite Heq, lookup_insert_eq in *. rewrite Hin in Hb. injection Hb as ->.
      pose proof (wf_head_valid _ _ _ Hwf) as [Hv _]. destruct b; simpl in *. by subst.
    + intros k b1 Hb1 Hv. destruct (Hbest k b1 Hb1 Hv) as [_ Hbc].
      eapply lex_le_trans; [..|exact Hbc|exact Hpref]; done.
Qed.

(** A subset of the blocks that is closed under [previous] and keeps the head. *)
Lemma sub_index_ok idx idx' :
  (∀ k b, idx' !! k = Some b → idx !! k = Some b) → index_ok idx → index_ok idx'.
Proof. intros Hsub Hok k b Hb. by apply Hok, Hsub. Qed.

Lemma remove_wf db r hd i db' : wf db r hd → remove db i = Ok db' → wf db' r hd.
Proof.
  intros Hwf Hrm.
  destruct (remove_spec db i hd) as [[_ Ht]|(Hnd & db1 & Hdb1 & Hr & Hh & Hidx)]; [apply Hwf..|congruence|].
  rewrite Hrm in Hdb1. injection Hdb1 as <-.
  split; rewrite ?Hr, ?Hh; [apply Hwf|apply Hwf| |apply Hwf| | |apply Hwf|].
  - eapply sub_index_ok; [|apply Hwf]. intros k b Hb. by apply Hidx in Hb as [? _].
  - intros k b [Hb Hk]%Hidx. destruct (wf_link _ _ _ Hwf k b Hb) as [?|[b1 Hb1]]; [by left|right].
    exists b1. apply Hidx. split; [done|]. intros Hd. apply Hk. by eapply desc_step.
  - destruct (wf_head_in _ _ _ Hwf) as [?|Hin]; [by left|right]. by apply Hidx.
  - intros k b [Hb _]%Hidx. by apply (wf_head_best _ _ _ Hwf k).
Qed.

(** ** [advance_root] *)

(** The ids below the new root: ancestors, the last one the root. *)
Lemma blocks_to_remove_spec db r hd k b l fuel :
  wf db r hd → index db !! k = Some b → path (index db) k l (id r) → (length l ≤ fuel)%nat →
  ∃ ids, blocks_to_remove fuel db (id r) b = Ok (ids ++ [id r]) ∧
    Forall (λ j, num_from_id j < num_from_id k) (ids ++ [id r]).
Proof.
  intros Hwf. revert k b fuel. induction l as [|b' l IH]; intros k b fuel Hb Hl Hfuel.
  - inversion Hl; subst. by rewrite (wf_root_not_in _ _ _ Hwf) in Hb.
  - inversion Hl as [|? ? ? ? Hb' Hl']; subst. rewrite Hb in Hb'. injection Hb' as <-.
    destruct (wf_index _ _ _ Hwf k b Hb) as [Hid [H1 H2]]. rewrite Hid in H1.
    destruct fuel as [|fuel]; simpl in Hfuel; [lia|]. simpl. unfold get_block.
    destruct (wf_link _ _ _ Hwf k b Hb) as [Hp|[b1 Hb1]].
    + rewrite Hp, (wf_root_not_in _ _ _ Hwf), bool_decide_eq_true_2 by done.
      exists []. split; [done|]. constructor; [|done]. rewrite Hp in H2. lia.
    + rewrite Hb1. destruct (IH _ _ fuel Hb1 Hl') as (ids & -> & HF); [lia|]. simpl.
      exists (previous (header b) :: ids). split; [done|]. simpl. constructor; [lia|].
      eapply Forall_impl; [exact HF|]. simpl. lia.
Qed.

(** While the blocks below [i] are removed one by one, the descendants of [i]
    stay, and every remaining block hangs on one that remains, on [i] or on
    the root. *)
Record advancing idx i (rid : digest_type) (cur : index_type) : Prop := {
  adv_sub : ∀ k b, cur !! k = Some b → idx !! k = Some b ∧ k ≠ i;
  adv_keep : ∀ k b, idx !! k = Some b → k ≠ i → desc idx i k → cur !! k = Some b;
  adv_link : ∀ k b, cur !! k = Some b →
    is_Some (cur !! previous (header b)) ∨ previous (header b) = i ∨ previous (header b) = rid;
}.

(** A path to an ancestor of [i] cannot go through the descendants of [i]. *)
Lemma advancing_not_desc idx i rid cur j k :
  index_ok idx → advancing idx i rid cur → num_from_id j < num_from_id i →
  desc idx i k → ¬ desc cur j k.
Proof.
  intros Hok Hadv Hj Hik [l Hl]. revert Hik. induction Hl as [j|k b l j Hb Hl IH]; intros Hik.
  - destruct Hik as [l Hl]. apply path_num in Hl; [lia|done].
  - destruct (adv_sub _ _ _ _ Hadv k b Hb) as [Hb' Hki].
    destruct (desc_inv _ _ _ Hik) as [->|(b1 & Hb1 & Hd)]; [done|].
    apply IH; [done|]. congruence.
Qed.

Lemma advancing_remove idx i rid db db' hd j :
  index_ok idx → advancing idx i rid (index db) → head db = Some hd →
  num_from_id j < num_from_id i → remove db j = Ok db' → advancing idx i rid (index db').
Proof.
  intros Hok Hadv Hhd Hj Hrm.
  destruct (remove_spec db j hd) as [[_ Ht]|(_ & db1 & Hdb1 & _ & _ & Hidx)];
    [|done|congruence|].
  { eapply sub_index_ok; [|exact Hok]. intros k b Hb. by apply Hadv in Hb as [? _]. }
  rewrite Hrm in Hdb1. injection Hdb1 as <-. split.
  - intros k b [Hb _]%Hidx. by apply Hadv.
  - intros k b Hb Hki Hd. apply Hidx. split; [by eapply Hadv|]. by eapply advancing_not_desc.
  - intros k b [Hb Hnd]%Hidx. destruct (adv_link _ _ _ _ Hadv k b Hb) as [[b1 Hb1]|?]; [left|by right].
    exists b1. apply Hidx. split; [done|]. intros Hd. apply Hnd. by eapply desc_step.
Qed.

Lemma advancing_index_ok idx i rid cur : index_ok idx → advancing idx i rid cur → index_ok cur.
Proof. intros Hok Hadv. eapply sub_index_ok; [|exact Hok]. intros k b Hb. by apply Hadv in Hb as [? _]. Qed.

(** The loop over the blocks below [i]: it succeeds when the head descends
    from [i], and otherwise can only fail with the exception of [remove]. *)
Lemma advance_loop idx i rid hd ids db :
  index_ok idx → advancing idx i rid (index db) → head db = Some hd →
  Forall (λ j, num_from_id j < num_from_id i) ids →
  (fold_res remove db ids = Throw fork_database_exception ∧ ¬ desc idx i (id hd)) ∨
  ∃ db', fold_res remove db ids = Ok db' ∧ advancing idx i rid (index db') ∧ head db' = Some hd ∧
    (index db !! id hd = Some hd → index db' !! id hd = Some hd).
Proof.
  intros Hok. revert db. induction ids as [|j ids IH]; intros db Hadv Hhd Hids; simpl.
  { right. by exists db. }
  apply Forall_cons in Hids as [Hj Hids].
  destruct (remove_spec db j hd (advancing_index_ok _ _ _ _ Hok Hadv) Hhd)
    as [[Hd Ht]|(Hnd & db1 & Hdb1 & Hr1 & Hh1 & Hidx)].
  - left. rewrite Ht. split; [done|]. intros Hi. by eapply advancing_not_desc.
  - rewrite Hdb1. simpl.
    destruct (IH db1) as [?|(db' & Hdb' & Hadv' & Hhd' & Hin)]; [|congruence|done|by left|].
    { by eapply advancing_remove. }
    right. exists db'. split_and!; [done..|]. intros Hh. apply Hin, Hidx. done.
Qed.

(** After the root itself was removed, only descendants of [i] are left. *)
Lemma advance_last idx i rid db db' hd k b :
  index_ok idx → advancing idx i rid (index db) → head db = Some hd →
  remove db rid = Ok db' → index db' !! k = Some b → desc idx i k.
Proof.
  intros Hok Hadv Hhd Hrm.
  destruct (remove_spec db rid hd (advancing_index_ok _ _ _ _ Hok Hadv) Hhd)
    as [[_ Ht]|(_ & db1 & Hdb1 & _ & _ & Hidx)]; [congruence|].
  rewrite Hrm in Hdb1. injection Hdb1 as <-.
  remember (Z.to_nat (num_from_id k)) as n eqn:Hn. revert k b Hn.
  induction n as [n IH] using lt_wf_ind. intros k b Hn Hb.
  apply Hidx in Hb as [Hb Hnd]. destruct (adv_sub _ _ _ _ Hadv k b Hb) as [Hb' _].
  destruct (Hok k b Hb') as [Hid [H1 H2]]. rewrite Hid in H1.
  destruct (adv_link _ _ _ _ Hadv k b Hb) as [[b1 Hb1]|[Hp|Hp]].
  - eapply desc_step; [done|].
    pose proof (num_from_id_range (previous (header b))) as Hr. unfold in_u in Hr.
    apply (IH (Z.to_nat (num_from_id (previous (header b)))) ltac:(lia) _ b1 eq_refl).
    apply Hidx. split; [done|]. intros Hd. apply Hnd. by eapply desc_step.
  - eapply desc_step; [done|]. rewrite Hp. apply desc_refl.
  - exfalso. apply Hnd. eapply desc_step; [done|]. rewrite Hp. apply desc_refl.
Qed.

Lemma advancing_start db r hd i :
  wf db r hd → advancing (index db) i (id r) (delete i (index db)).
Proof.
  intros Hwf. split.
  - by intros k b [Hne Hb]%lookup_delete_Some.
  - intros k b Hb Hne _. by rewrite lookup_delete_ne.
  - intros k b [Hne Hb]%lookup_delete_Some.
    destruct (wf_link _ _ _ Hwf k b Hb) as [?|[b1 Hb1]]; [by auto|].
    destruct (decide (i = previous (header b))) as [->|Hi]; [by auto|].
    left. rewrite lookup_delete_ne by done. by exists b1.
Qed.

(** [advance_root] to a validated block succeeds iff the head descends from
    it, and then keeps exactly the blocks that descend from it. *)
Lemma advance_root_spec db r hd i nr :
  wf db r hd → index db !! i = Some nr → validated nr = true →
  (¬ desc (index db) i (id hd) ∧ advance_root db i = Throw fork_database_exception) ∨
  (desc (index db) i (id hd) ∧ ∃ db', advance_root db i = Ok db' ∧
     root db' = Some nr ∧ head db' = Some hd ∧
     ∀ k b, index db' !! k = Some b ↔ index db !! k = Some b ∧ k ≠ i ∧ desc (index db) i k).
Proof.
  intros Hwf Hnr Hv. pose proof (wf_index _ _ _ Hwf) as Hok.
  destruct (wf_desc_above _ _ _ _ _ Hwf Hnr) as [[l Hl] _].
  destruct (blocks_to_remove_spec _ _ _ _ _ l (size (index db)) Hwf Hnr Hl) as (ids & Hids & HF).
  { by eapply path_length. }
  unfold advance_root. rewrite (wf_root _ _ _ Hwf). simpl. unfold get_block. rewrite Hnr. simpl.
  unfold is_valid. rewrite Hv. simpl. rewrite Hids. simpl. rewrite fold_res_app.
  apply Forall_app in HF as [HF HFr]. set (db1 := mk_fork_db (delete i (index db)) _ _).
  destruct (advance_loop (index db) i (id r) hd ids db1 Hok (advancing_start _ _ _ i Hwf))
    as [[-> Hnd]|(db2 & -> & Hadv & Hhd & Hin)]; [apply Hwf|done|by left|]. cbn [mbind result_bind].
  destruct (advance_loop (index db) i (id r) hd [id r] db2 Hok Hadv Hhd HFr)
    as [[-> Hnd]|(db3 & Hdb3 & Hadv3 & Hhd3 & Hin3)]; [by left|]. rewrite Hdb3. simpl. right.
  assert (remove db2 (id r) = Ok db3) as Hrm.
  { simpl in Hdb3. destruct (remove db2 (id r)); [|done]. done. }
  assert (∀ k b, index db3 !! k = Some b → desc (index db) i k) as Hlast
    by (intros; by eapply (advance_last (index db) i (id r) db2)).
  split.
  - destruct (decide (id hd = i)) as [->|Hne]; [apply desc_refl|].
    destruct (wf_head_in _ _ _ Hwf) as [->|Hhin].
    + exfalso. destruct (remove_spec db2 (id r) r (advancing_index_ok _ _ _ _ Hok Hadv) Hhd) as [[_ ?]|[Hn _]];
        [congruence|]. apply Hn, desc_refl.
    + apply (Hlast _ hd), Hin3, Hin. subst db1. simpl. by rewrite lookup_delete_ne.
  - eexists. split; [done|]. split_and!; [done..|]. intros k b. simpl. split.
    + intros Hb. destruct (adv_sub _ _ _ _ Hadv3 k b Hb). split_and!; [done..|by eapply Hlast].
    + intros (Hb & Hk & Hd). by eapply Hadv3.
Qed.

Lemma advance_root_wf db r hd i db' :
  wf db r hd → advance_root db i = Ok db' → ∃ nr, wf db' nr hd.
Proof.
  intros Hwf Hadv. destruct (index db !! i) as [nr|] eqn:Hnr.
  2: { unfold advance_root, get_block in Hadv. rewrite (wf_root _ _ _ Hwf) in Hadv. simpl in Hadv.
       by rewrite Hnr in Hadv. }
  destruct (validated nr) eqn:Hv.
  2: { unfold advance_root, get_block, is_valid in Hadv. rewrite (wf_root _ _ _ Hwf) in Hadv.
       simpl in Hadv. rewrite Hnr in Hadv. simpl in Hadv. by rewrite Hv in Hadv. }
  destruct (advance_root_spec _ _ _ _ _ Hwf Hnr Hv)
    as [[_ ?]|(Hd & db1 & Hdb1 & Hr & Hh & Hidx)]; [congruence|].
  rewrite Hadv in Hdb1. injection Hdb1 as <-. exists nr.
  destruct (wf_index _ _ _ Hwf i nr Hnr) as [Hid [Hn _]].
  split; [done|done| |done| | |split; [apply Hwf|done]|].
  - eapply sub_index_ok; [|apply Hwf]. by intros k b [? _]%Hidx.
  - intros k b (Hb & Hk & Hdk)%Hidx. rewrite Hid.
    destruct (desc_inv _ _ _ Hdk) as [?|(b1 & Hb1 & Hp)]; [done|].
    rewrite Hb in Hb1. injection Hb1 as <-.
    destruct (decide (previous (header b) = i)) as [?|Hpi]; [by left|right].
    destruct (desc_inv _ _ _ Hp) as [?|(b2 & Hb2 & _)]; [done|]. exists b2. by apply Hidx.
  - destruct (wf_head_in _ _ _ Hwf) as [->|Hin].
    + destruct (desc_inv _ _ _ Hd) as [Hri|(b1 & Hb1 & _)];
        [rewrite <- Hri in Hnr|]; by rewrite (wf_root_not_in _ _ _ Hwf) in *.
    + destruct (decide (id hd = i)) as [<-|Hne]; [left; congruence|right]. by apply Hidx.
  - intros k b (Hb & _)%Hidx. by apply (wf_head_best _ _ _ Hwf k).
Qed.

(** ** Reachable databases *)

(** A block state that [BlockHeaderState] derives from the state of its
    predecessor in the database. *)
Definition made_by_next db (n : bstate) : Prop :=
  ∃ prev h v skip, get_block_header db (previous (header n)) = Ok (Some prev) ∧
    block_num prev + 1 < 2 ^ 32 ∧ next_header prev h v skip = Ok (bs_header_state n).

Lemma header_state_num db r hd k s :
  wf db r hd → get_block_header db k = Ok (Some s) → id s = k ∧ num_from_id (id s) = block_num s.
Proof.
  intros Hwf. unfold get_block_header. rewrite (wf_root _ _ _ Hwf). simpl.
  destruct (decide (id r = k)) as [Hk|Hk].
  - intros [= <-]. split; [done|apply Hwf].
  - intros [= Hs]. apply fmap_Some in Hs as (b & Hb & ->).
    destruct (wf_index _ _ _ Hwf k b Hb) as [? [? _]]. done.
Qed.

Lemma made_by_next_ok db r hd n : wf db r hd → made_by_next db n → block_ok n.
Proof.
  intros Hwf (prev & h & v & skip & Hprev & Hbn & Hnext).
  destruct (header_state_num _ _ _ _ _ Hwf Hprev) as [Hid Hnum].
  pose proof (num_from_id_range (id prev)) as Hr. unfold in_u in Hr.
  apply next_header_Ok in Hnext
    as (pk & m & fs & exts & _ & _ & _ & _ & Hp & _ & _ & _ & _ & _ & Hn & _).
  unfold block_ok. rewrite Hn. simpl.
  rewrite num_from_header_id, (wrap_small 32 (block_num prev + 1)) by (unfold in_u; lia).
  unfold header_block_num. rewrite Hp, Hnum. split; [apply wrap_small; unfold in_u; lia|done].
Qed.

Inductive fork_step : fork_db → fork_db → Prop :=
  | step_reset db s : num_from_id (id s) = block_num s → fork_step db (reset s)
  | step_rollback db : fork_step db (rollback_head_to_root db)
  | step_add db n ign db' : made_by_next db n → add db (Some n) ign = Ok db' → fork_step db db'
  | step_mark_valid db h db' : mark_valid db h = Ok db' → fork_step db db'
  | step_remove db i db' : remove db i = Ok db' → fork_step db db'
  | step_advance_root db i db' : advance_root db i = Ok db' → fork_step db db'.

Lemma fork_step_wf db db' r hd : fork_step db db' → wf db r hd → ∃ r' hd', wf db' r' hd'.
Proof.
  intros Hs. revert r hd. destruct Hs as [db s Hs|db|db n ign db' Hm Ha|db h db' Hm|db i db' Hr|db i db' Ha];
    intros r hd Hwf.
  - eexists _, _. by eapply reset_wf.
  - exists r, r. by eapply rollback_wf.
  - exists r. eapply add_impl_wf; [done| |done]. by eapply made_by_next_ok.
  - exists r. by eapply mark_valid_wf.
  - exists r, hd. by eapply remove_wf.
  - destruct (advance_root_wf _ _ _ _ _ Hwf Ha) as [nr ?]. by exists nr, hd.
Qed.

Lemma reachable_wf s db :
  num_from_id (id s) = block_num s → rtc fork_step (reset s) db → ∃ r hd, wf db r hd.
Proof.
  intros Hs Hr. assert (∃ r hd, wf (reset s) r hd) as H0 by (eexists _, _; by eapply reset_wf).
  clear Hs. induction Hr as [|db1 db2 db3 Hstep _ IH]; [done|].
  apply IH. destruct H0 as (r & hd & Hwf). by eapply fork_step_wf.
Qed.

(** C5.  In every reachable fork database the blocks form a tree over the
    root: each is one higher than its predecessor, which is in the index or is
    the root, and every block descends from the root.  The head is the root or
    the copy of a block of the index, it is validated, and no validated block
    is preferred to it (by irreversible block number, then by height). *)
Theorem fork_database_invariant s db :
  num_from_id (id s) = block_num s → rtc fork_step (reset s) db →
  ∃ r hd, root db = Some r ∧ head db = Some hd ∧
    (∀ k b, index db !! k = Some b →
       id b = k ∧ desc (index db) (id r) k ∧ block_num r < block_num b ∧
       ∃ p, get_block_header db (previous (header b)) = Ok (Some p) ∧ block_num b = block_num p + 1) ∧
    (hd = r ∨ index db !! id hd = Some hd) ∧ validated hd = true ∧
    ∀ k b, index db !! k = Some b → validated b = true → first_preferred b hd = false.
Proof.
  intros Hs Hr. destruct (reachable_wf s db Hs Hr) as (r & hd & Hwf). exists r, hd.
  split_and!; [apply Hwf|apply Hwf| |apply Hwf|apply Hwf|apply Hwf].
  intros k b Hb. destruct (wf_index _ _ _ Hwf k b Hb) as [Hid [H1 H2]].
  destruct (wf_desc_above _ _ _ _ _ Hwf Hb) as [Hd Hlt].
  rewrite (wf_root_num _ _ _ Hwf), <- Hid, H1 in Hlt. split_and!; [done|done|done|].
  unfold get_block_header. rewrite (wf_root _ _ _ Hwf). simpl.
  destruct (wf_link _ _ _ Hwf k b Hb) as [Hp|[p Hp]].
  - rewrite decide_True by done. exists r. split; [done|]. rewrite Hp, (wf_root_num _ _ _ Hwf) in H2. lia.
  - destruct (wf_index _ _ _ Hwf _ _ Hp) as [Hidp [Hnp _]].
    rewrite decide_False by (intros Heq; by rewrite <- Heq, (wf_root_not_in _ _ _ Hwf) in Hp).
    exists p. rewrite Hp. split; [done|]. rewrite <- Hnp, Hidp. lia.
Qed.

(** In every reachable fork database: [remove] always returns; it fails
    exactly when the head is the block or descends from it, and else deletes
    exactly the block and its descendants. *)
Theorem remove_deletes_descendants s db i :
  num_from_id (id s) = block_num s → rtc fork_step (reset s) db →
  ∃ hd, head db = Some hd ∧
  ((desc (index db) i (id hd) ∧ remove db i = Throw fork_database_exception) ∨
   (¬ desc (index db) i (id hd) ∧ ∃ db', remove db i = Ok db' ∧
      root db' = root db ∧ head db' = head db ∧
      ∀ k b, index db' !! k = Some b ↔ index db !! k = Some b ∧ ¬ desc (index db) i k)).
Proof.
  intros Hs Hr. destruct (reachable_wf s db Hs Hr) as (r & hd & Hwf). exists hd.
  split; [apply Hwf|]. apply remove_spec; apply Hwf.
Qed.

(** C25.  In every reachable fork database: advancing the root to a validated
    block succeeds exactly when the head descends from that block, and then
    leaves exactly the blocks that descend from the new root. *)
Theorem advance_root_keeps_descendants s db i nr :
  num_from_id (id s) = block_num s → rtc fork_step (reset s) db →
  index db !! i = Some nr → validated nr = true →
  ∃ hd, head db = Some hd ∧
  ((¬ desc (index db) i (id hd) ∧ advance_root db i = Throw fork_database_exception) ∨
   (desc (index db) i (id hd) ∧ ∃ db', advance_root db i = Ok db' ∧
      root db' = Some nr ∧ head db' = Some hd ∧
      ∀ k b, index db' !! k = Some b ↔ index db !! k = Some b ∧ k ≠ i ∧ desc (index db) i k)).
Proof.
  intros Hs Hr Hnr Hv. destruct (reachable_wf s db Hs Hr) as (r & hd & Hwf). exists hd.
  split; [apply Hwf|]. by eapply advance_root_spec.
Qed.

(** ** Branches *)

Definition in_tree db (r : bstate) b : Prop := b = r ∨ index db !! id b = Some b.

Lemma in_tree_num db r hd b : wf db r hd → in_tree db r b →
  num_from_id (id b) = block_num b ∧ block_num r ≤ block_num b ∧
  block_num b ≤ block_num r + Z.of_nat (size (index db)).
Proof.
  intros Hwf [->|Hb]; [split; [apply Hwf|lia]|].
  destruct (wf_index _ _ _ Hwf _ _ Hb) as [_ [Hn _]].
  destruct (wf_desc_above _ _ _ _ _ Hwf Hb) as [[l Hl] Hlt].
  pose proof (path_length _ _ _ _ (wf_index _ _ _ Hwf) Hl).
  apply path_num in Hl; [|apply Hwf]. rewrite (wf_root_num _ _ _ Hwf) in *. lia.
Qed.

Lemma root_or_block_tree db r hd k b :
  wf db r hd → in_tree db r b → id b = k → root_or_block db k = Ok b.
Proof.
  intros Hwf Hb <-. unfold root_or_block. rewrite (wf_root _ _ _ Hwf). simpl. destruct Hb as [->|Hb].
  - by rewrite decide_True.
  - rewrite decide_False; [unfold get_block; by rewrite Hb|]. intros Heq.
    rewrite Heq, (wf_root_not_in _ _ _ Hwf) in Hb. done.
Qed.

Lemma tree_parent db r hd b :
  wf db r hd → index db !! id b = Some b →
  ∃ p, in_tree db r p ∧ id p = previous (header b) ∧ block_num b = block_num p + 1.
Proof.
  intros Hwf Hb. destruct (wf_index _ _ _ Hwf _ _ Hb) as [_ [_ H2]].
  destruct (wf_link _ _ _ Hwf _ _ Hb) as [Hp|[p Hp]].
  - exists r. split_and!; [by left|done|]. rewrite Hp in H2. rewrite <- (wf_root_num _ _ _ Hwf). lia.
  - exists p. destruct (wf_index _ _ _ Hwf _ _ Hp) as [Hid [H1 _]].
    split_and!; [right; by rewrite Hid|done|]. rewrite Hid in H1. lia.
Qed.

Lemma descend_spec db r hd fuel b num acc :
  wf db r hd → in_tree db r b → block_num r ≤ num → block_num b - num ≤ Z.of_nat fuel →
  ∃ b' l, descend fuel db b num acc = Ok (b', acc ++ l) ∧ in_tree db r b' ∧
    path (index db) (id b) l (id b') ∧ block_num b' = Z.min num (block_num b) ∧
    (block_num b ≤ num → l = []).
Proof.
  intros Hwf. revert b acc. induction fuel as [|fuel IH]; intros b acc Hb Hr Hfuel; simpl.
  all: destruct (Z.ltb_spec num (block_num b)) as [Hlt|Hge].
  1: lia.
  1, 3: exists b, []; rewrite app_nil_r; split_and!; [done|done|constructor|lia|done].
  assert (index db !! id b = Some b) as Hin by (destruct Hb as [->|?]; [lia|done]).
  destruct (tree_parent _ _ _ _ Hwf Hin) as (p & Hp & Hid & Hnum).
  rewrite (root_or_block_tree _ _ _ _ _ Hwf Hp Hid). simpl.
  destruct (IH p (acc ++ [b]) Hp Hr ltac:(lia)) as (b' & l & Hd & Hb' & Hpath & Hn & Hl).
  exists b', (b :: l). rewrite Hd, <- app_assoc. split_and!; [done|done| |lia|lia].
  econstructor; [done|]. by rewrite <- Hid.
Qed.

(** Two blocks of one height: neither is the root. *)
Lemma same_height db r hd b1 b2 :
  wf db r hd → in_tree db r b1 → in_tree db r b2 → block_num b1 = block_num b2 → id b1 ≠ id b2 →
  index db !! id b1 = Some b1 ∧ index db !! id b2 = Some b2.
Proof.
  intros Hwf Hb1 Hb2 Hn Hne.
  assert (∀ b, index db !! id b = Some b → block_num r < block_num b) as Habove.
  { intros b Hb. destruct (wf_desc_above _ _ _ _ _ Hwf Hb) as [_ Hlt].
    destruct (in_tree_num _ _ _ _ Hwf (or_intror Hb)) as [<- _]. by rewrite <- (wf_root_num _ _ _ Hwf). }
  destruct Hb1 as [->|Hb1], Hb2 as [->|Hb2]; [done| | |done].
  - specialize (Habove _ Hb2). lia.
  - specialize (Habove _ Hb1). lia.
Qed.

Lemma descend_both_spec db r hd fuel b1 b2 acc1 acc2 :
  wf db r hd → in_tree db r b1 → in_tree db r b2 → block_num b1 = block_num b2 → id b1 ≠ id b2 →
  block_num b1 - block_num r ≤ Z.of_nat fuel →
  ∃ b1' b2' l1 l2, descend_both fuel db b1 b2 acc1 acc2 = Ok ((b1', acc1 ++ l1), (b2', acc2 ++ l2)) ∧
    path (index db) (id b1) l1 (id b1') ∧ path (index db) (id b2) l2 (id b2') ∧
    index db !! id b1' = Some b1' ∧ index db !! id b2' = Some b2' ∧
    previous (header b1') = previous (header b2') ∧ id b1' ≠ id b2'.
Proof.
  intros Hwf. revert b1 b2 acc1 acc2.
  induction fuel as [|fuel IH]; intros b1 b2 acc1 acc2 Hb1 Hb2 Hn Hne Hfuel.
  all: destruct (same_height _ _ _ _ _ Hwf Hb1 Hb2 Hn Hne) as [Hi1 Hi2].
  all: simpl; destruct (decide (previous (header b1) = previous (header b2))) as [Hp|Hp].
  1, 3: exists b1, b2, [], []; rewrite !app_nil_r; split_and!; [done|constructor|constructor|done..].
  all: destruct (tree_parent _ _ _ _ Hwf Hi1) as (p1 & Hp1 & Hid1 & Hn1);
    destruct (tree_parent _ _ _ _ Hwf Hi2) as (p2 & Hp2 & Hid2 & Hn2);
    destruct (in_tree_num _ _ _ _ Hwf Hp1) as (Hm1 & Hr1 & _).
  { lia. }
  assert (id p1 ≠ id p2) as Hpne by congruence.
  destruct (same_height _ _ _ p1 p2 Hwf Hp1 Hp2 ltac:(lia) Hpne) as [Hj1 Hj2].
  unfold get_block. rewrite <- Hid1, <- Hid2, Hj1, Hj2. simpl.
  destruct (IH p1 p2 (acc1 ++ [b1]) (acc2 ++ [b2]) Hp1 Hp2 ltac:(lia) Hpne ltac:(lia))
    as (b1' & b2' & l1 & l2 & Hd & Hl1 & Hl2 & Hrest).
  exists b1', b2', (b1 :: l1), (b2 :: l2). rewrite Hd, <- !app_assoc.
  split_and!; [done| | |apply Hrest..]; econstructor; try done; congruence.
Qed.

(** Paths that share a block share all blocks below it. *)
Lemma paths_last idx k1 k2 l1 l2 b1 b2 a b :
  index_ok idx → path idx k1 (l1 ++ [b1]) a → path idx k2 (l2 ++ [b2]) a →
  b ∈ l1 ++ [b1] → b ∈ l2 ++ [b2] → b1 = b2.
Proof.
  intros Hok H1 H2 Hb1 Hb2.
  destruct (path_elem _ _ _ _ _ Hok H1 Hb1) as (_ & p1 & q1 & E1 & _ & P1).
  destruct (path_elem _ _ _ _ _ Hok H2 Hb2) as (_ & p2 & q2 & E2 & _ & P2).
  pose proof (path_unique _ _ _ _ _ Hok P1 P2) as [= ->].
  apply (f_equal last) in E1, E2. rewrite !last_snoc in E1, E2. rewrite last_app_cons in E1, E2.
  congruence.
Qed.

Lemma fetch_branch_from_spec db r hd b1 b2 :
  wf db r hd → in_tree db r b1 → in_tree db r b2 →
  ∃ l1 l2 a, fetch_branch_from db (id b1) (id b2) = Ok (l1, l2) ∧
    path (index db) (id b1) l1 a ∧ path (index db) (id b2) l2 a ∧ ∀ b, b ∈ l1 → b ∉ l2.
Proof.
  intros Hwf Hb1 Hb2.
  pose proof (in_tree_num _ _ _ _ Hwf Hb1) as (_ & Hr1 & Hs1).
  pose proof (in_tree_num _ _ _ _ Hwf Hb2) as (_ & Hr2 & Hs2).
  unfold fetch_branch_from. rewrite (root_or_block_tree _ _ _ _ b1 Hwf Hb1 eq_refl). cbn [mbind result_bind].
  rewrite (root_or_block_tree _ _ _ _ b2 Hwf Hb2 eq_refl). cbn [mbind result_bind].
  destruct (descend_spec db r hd (S (size (index db))) b1 (block_num b2) [] Hwf Hb1 Hr2 ltac:(lia))
    as (c1 & m1 & -> & Hc1 & Hm1 & Hn1 & He1). cbn [mbind result_bind].
  pose proof (in_tree_num _ _ _ _ Hwf Hc1) as (_ & Hrc1 & Hsc1).
  destruct (descend_spec db r hd (S (size (index db))) b2 (block_num c1) [] Hwf Hb2 Hrc1 ltac:(lia))
    as (c2 & m2 & -> & Hc2 & Hm2 & Hn2 & He2). cbn [mbind result_bind]. rewrite !app_nil_l.
  destruct (decide (id c1 = id c2)) as [Heq|Hne].
  - exists m1, m2, (id c1). split_and!; [done|done|by rewrite Heq|].
    destruct (decide (block_num b1 ≤ block_num b2)) as [Hle|Hgt].
    + rewrite He1 by done. by intros b Hb%elem_of_nil.
    + rewrite He2 by lia. intros b _. apply not_elem_of_nil.
  - destruct (descend_both_spec db r hd (S (size (index db))) c1 c2 m1 m2 Hwf Hc1 Hc2 ltac:(lia) Hne ltac:(lia))
      as (d1 & d2 & n1 & n2 & -> & Hp1 & Hp2 & Hd1 & Hd2 & Hprev & Hdne). cbn [mbind result_bind].
    assert (path (index db) (id b1) ((m1 ++ n1) ++ [d1]) (previous (header d1))) as HP1.
    { eapply path_app; [by eapply path_app|]. econstructor; [done|constructor]. }
    assert (path (index db) (id b2) ((m2 ++ n2) ++ [d2]) (previous (header d1))) as HP2.
    { eapply path_app; [by eapply path_app|]. econstructor; [done|]. rewrite Hprev. constructor. }
    eexists _, _, _. split_and!; [done|exact HP1|exact HP2|].
    intros b H1 H2. pose proof (paths_last _ _ _ _ _ _ _ _ _ (wf_index _ _ _ Hwf) HP1 HP2 H1 H2).
    congruence.
Qed.

(** C26.  For any two blocks of the tree (the root included)
    [fetch_branch_from] returns; its two lists are the blocks from each of
    them down to a common ancestor, and have no block in common, so that the
    ancestor is the nearest one. *)
Theorem fetch_branch_from_common_ancestor s db r b1 b2 :
  num_from_id (id s) = block_num s → rtc fork_step (reset s) db → root db = Some r →
  in_tree db r b1 → in_tree db r b2 →
  ∃ l1 l2 a, fetch_branch_from db (id b1) (id b2) = Ok (l1, l2) ∧
    path (index db) (id b1) l1 a ∧ path (index db) (id b2) l2 a ∧ ∀ b, b ∈ l1 → b ∉ l2.
Proof.
  intros Hs Hreach Hroot Hb1 Hb2.
  destruct (reachable_wf s db Hs Hreach) as (r' & hd & Hwf).
  rewrite (wf_root _ _ _ Hwf) in Hroot. injection Hroot as ->.
  by eapply fetch_branch_from_spec.
Qed.
End theory.
