(* ===== verification/ForkChoice.v ===== *)
(** * The choice of the next head in the fork database

    [pending_head] chooses the block that the controller moves to.  When the
    blocks that lead to it have been applied and marked valid it is the head of
    the fork database, whatever the heights and irreversible block numbers on
    the way are. *)

From S2P Require Import Prelude Merkle BlockHeader BlockHeaderState ForkDatabase ForkTree.
Local Open Scope Z_scope.

Section choice.
Context {packed_transaction : Type} `{cr : Crypto} {crl : CryptoLaws cr}.
Abbreviation bstate := (block_state packed_transaction).
Abbreviation index_type := (gmap digest_type bstate).
Abbreviation fork_db := (@fork_database packed_transaction).
Implicit Types (db : fork_db) (b n : bstate) (idx : index_type).

Lemma preferred_spec (x y : block_header_state) : first_preferred x y = true ↔
  dpos_irreversible_blocknum y < dpos_irreversible_blocknum x ∨
  dpos_irreversible_blocknum y = dpos_irreversible_blocknum x ∧ block_num y < block_num x.
Proof.
  unfold first_preferred. simpl. rewrite andb_false_r, orb_false_r, orb_true_iff, andb_true_iff, !Z.ltb_lt, Z.eqb_eq. done.
Qed.

Lemma not_preferred_spec (x y : block_header_state) : first_preferred x y = false ↔
  dpos_irreversible_blocknum x < dpos_irreversible_blocknum y ∨
  dpos_irreversible_blocknum y = dpos_irreversible_blocknum x ∧ block_num x ≤ block_num y.
Proof. rewrite <- not_true_iff_false, preferred_spec. lia. Qed.

(** ** [pending_head] *)

Lemma find_first {A} (R : A → A → Prop) `{!Reflexive R} (P : A → bool) l x y :
  StronglySorted R l → List.find P l = Some x → y ∈ l → P y = true → R x y.
Proof.
  induction 1 as [|z l Hs IH HF]; [done|]. simpl. destruct (P z) eqn:Ez.
  - intros [= ->] [->|Hin]%elem_of_cons _; [done|]. rewrite Forall_forall in HF. by apply HF.
  - intros Hx [->|Hin]%elem_of_cons Hy; [congruence|by apply IH].
Qed.

#[local] Instance lib_le_refl : Reflexive (@lib_le packed_transaction).
Proof. intros x. apply lex_lt_irrefl. Qed.

(** The first block of the index that is not validated is preferred to all
    others that are not. *)
Lemma first_unvalidated idx b :
  List.find (λ b, negb (is_valid b)) (by_lib_block_num idx) = Some b →
  (∃ k, idx !! k = Some b) ∧ validated b = false ∧
  ∀ k b', idx !! k = Some b' → validated b' = false → first_preferred b' b = false.
Proof.
  intros Hf. pose proof Hf as [Hin Hv]%find_some. apply list_elem_of_In in Hin.
  split; [by apply by_lib_elem|]. apply negb_true_iff in Hv. split; [done|]. intros k b' Hb' Hv'.
  assert (b' ∈ by_lib_block_num idx) as Hin' by (apply by_lib_elem; by exists k).
  assert (lib_le b b') as Hle.
  { eapply (find_first lib_le); [apply (StronglySorted_merge_sort lib_le)|exact Hf|done|].
    unfold is_valid. by rewrite Hv'. }
  apply lib_le_spec in Hle as [_ Hle]. apply Hle. unfold is_valid in Hv. congruence.
Qed.

Lemma all_validated idx : List.find (λ b, negb (is_valid b)) (by_lib_block_num idx) = None →
  ∀ k b, idx !! k = Some b → validated b = true.
Proof.
  intros Hf k b Hb. assert (b ∈ by_lib_block_num idx) as Hin by (apply by_lib_elem; by exists k).
  apply list_elem_of_In in Hin. apply (find_none _ _ Hf) in Hin. by apply negb_false_iff in Hin.
Qed.

(** ** The chosen block *)

(** The index has the block, possibly with the flag set since. *)
Definition held idx b : Prop :=
  ∃ v, idx !! id b = Some (set_validated v b) ∧ (validated b = true → v = true).

Lemma set_validated_twice v w b : set_validated v (set_validated w b) = set_validated v b.
Proof. done. Qed.

Lemma set_validated_same b : set_validated (validated b) b = b.
Proof. by destruct b. Qed.

Lemma held_insert idx b y : held idx b → held idx y → held (<[id y := set_validated true y]> idx) b.
Proof.
  intros [v [Hb Hv]] [w [Hy Hw]]. destruct (decide (id y = id b)) as [E|E].
  - exists true. rewrite E, lookup_insert_eq. split; [|done]. rewrite E, Hb in Hy.
    rewrite <- (set_validated_twice true v b), <- (set_validated_twice true w y). congruence.
  - exists v. by rewrite lookup_insert_ne.
Qed.

(** [n] is preferred to all blocks, and strictly to the validated ones unless
    it is the head already. *)
Record chosen db (hd n : bstate) : Prop := {
  ch_best : ∀ k b, index db !! k = Some b → first_preferred b n = false;
  ch_head : bs_header_state hd = bs_header_state n ∨ held (index db) n ∧ first_preferred n hd = true ∧
    ∀ k b, index db !! k = Some b → validated b = true → k ≠ id n → first_preferred n b = true;
}.

Lemma pending_head_chosen db r hd n : wf db r hd → pending_head db = Ok (Some n) →
  chosen db hd n ∧ (n = hd ∨ index db !! id n = Some n).
Proof.
  intros Hwf. unfold pending_head. rewrite (wf_head _ _ _ Hwf).
  destruct (List.find _ _) as [b|] eqn:Ef.
  - destruct (first_unvalidated _ _ Ef) as ([k Hk] & Hv & Hbest). simpl.
    destruct (wf_index _ _ _ Hwf _ _ Hk) as [<- _].
    destruct (first_preferred b hd) eqn:Ep; intros [= <-].
    + split; [|by right]. split.
      * intros k' b' Hb'. destruct (validated b') eqn:Ev; [|by apply (Hbest k')].
        pose proof (wf_head_best _ _ _ Hwf _ _ Hb' Ev) as Hb. apply not_preferred_spec in Hb.
        apply preferred_spec in Ep. apply not_preferred_spec. lia.
      * right. split; [exists (validated b); by rewrite set_validated_same|]. split; [done|]. intros k' b' Hb' Ev _.
        pose proof (wf_head_best _ _ _ Hwf _ _ Hb' Ev) as Hb. apply not_preferred_spec in Hb.
        apply preferred_spec in Ep. apply preferred_spec. lia.
    + split; [|by left]. split; [|by left]. intros k' b' Hb'.
      destruct (validated b') eqn:Ev; [by apply (wf_head_best _ _ _ Hwf k')|].
      pose proof (Hbest _ _ Hb' Ev) as Hb. rewrite not_preferred_spec in Hb, Ep |- *. lia.
  - intros [= <-]. split; [|by left]. split; [|by left]. intros k' b' Hb'.
    apply (wf_head_best _ _ _ Hwf k'); [done|]. by eapply all_validated.
Qed.

(** ** Marking the blocks on the way *)

Lemma mark_valid_spec db r hd y : wf db r hd → held (index db) y →
  ∃ db' hd', mark_valid db y = Ok db' ∧ wf db' r hd' ∧
    index db' = <[id y := set_validated true y]> (index db) ∧
    (hd' = hd ∨ index db' !! id hd' = Some hd' ∧ first_preferred hd' hd = true).
Proof.
  intros Hwf [v [Hy Hv]]. destruct (mark_valid db y) as [db'|e] eqn:E.
  2:{ exfalso. unfold mark_valid in E. destruct (validated y); [done|]. rewrite Hy in E. simpl in E.
      destruct (candidate_exists (<[id y := set_validated true (set_validated v y)]> (index db)) (id y)
        (set_validated true (set_validated v y))) as [cd Hc]; [by rewrite lookup_insert_eq|].
      rewrite Hc in E. simpl in E. by rewrite (wf_head _ _ _ Hwf) in E. }
  destruct (mark_valid_wf _ _ _ _ _ Hwf E) as [hd' Hwf'].
  assert (index db' = <[id y := set_validated true y]> (index db)) as Hidx.
  { unfold mark_valid in E. destruct (validated y) eqn:Evy.
    - injection E as <-. symmetry. apply insert_id. by rewrite Hy, (Hv eq_refl).
    - rewrite Hy in E. simpl in E. destruct (hd_error _); [|done]. simpl in E.
      rewrite (wf_head _ _ _ Hwf) in E. simpl in E. injection E as <-. done. }
  exists db', hd'. split; [done|]. split; [done|]. split; [done|].
  assert (head db' = Some hd ∨ ∃ c, head db' = Some c ∧ first_preferred c hd = true ∧ index db' !! id c = Some c) as Hh.
  { unfold mark_valid in E. destruct (validated y); [injection E as <-; left; apply Hwf|].
    rewrite Hy in E. simpl in E. destruct (hd_error _) as [cd|] eqn:Ec; [|done]. simpl in E.
    rewrite (wf_head _ _ _ Hwf) in E. simpl in E. injection E as E.
    destruct (first_preferred cd hd) eqn:Ep; [right|left; by rewrite <- E].
    exists cd. rewrite <- E. split; [done|]. split; [done|]. simpl.
    destruct (candidate_best _ _ Ec) as [[k Hk] _].
    rewrite <- E in Hwf'. destruct (wf_index _ _ _ Hwf' _ _ Hk) as [<- _]. done. }
  rewrite (wf_head _ _ _ Hwf') in Hh. destruct Hh as [Hh|(cd & Hh & Hp & Hi)]; simplify_eq; [by left|right]. done.
Qed.

(** Marking a block on the way keeps the choice; when the chosen block itself
    has been marked it is the head. *)
Lemma mark_chosen db r hd n y : wf db r hd → chosen db hd n → held (index db) y →
  block_num y < block_num n ∨ bs_header_state y = bs_header_state n →
  ∃ db' hd', mark_valid db y = Ok db' ∧ wf db' r hd' ∧
    index db' = <[id y := set_validated true y]> (index db) ∧ chosen db' hd' n ∧
    (bs_header_state y = bs_header_state n → bs_header_state hd' = bs_header_state n).
Proof.
  intros Hwf [Hbest Hhead] Hy Hyn. destruct (mark_valid_spec db r hd y Hwf Hy) as (db' & hd' & Hm & Hwf' & Hidx & Hhd).
  exists db', hd'. split; [done|]. split; [done|]. split; [done|].
  assert (∀ k b, index db' !! k = Some b → first_preferred b n = false) as Hbest'.
  { rewrite Hidx. intros k b [[<- <-]|[_ Hb]]%lookup_insert_Some; [|by apply (Hbest k)].
    destruct Hy as [v [Hy _]]. apply (Hbest _ _ Hy). }
  destruct Hhead as [Hh|(Hn & Hp & Hall)].
  { assert (bs_header_state hd' = bs_header_state n) as Hh'.
    { destruct Hhd as [->|[Hi Hpr]]; [done|]. exfalso. apply Hbest' in Hi. rewrite <- Hh in Hi. congruence. }
    split; [|done]. split; [done|by left]. }
  assert (held (index db') n) as Hn' by (rewrite Hidx; by apply held_insert).
  assert (∀ k b, index db' !! k = Some b → validated b = true → k ≠ id n → first_preferred n b = true) as Hall'.
  { intros k b Hb Hv Hk. rewrite Hidx in Hb. apply lookup_insert_Some in Hb as [[<- <-]|[_ Hb]]; [|by apply (Hall k)].
    destruct Hyn as [Hlt|Heq]; [|by rewrite Heq in Hk].
    destruct Hy as [v [Hy _]]. pose proof (Hbest _ _ Hy) as Hb. simpl in *.
    rewrite not_preferred_spec in Hb. apply preferred_spec. simpl in *. lia. }
  assert (bs_header_state hd' = bs_header_state n ∨ first_preferred n hd' = true) as Hhd'.
  { destruct Hhd as [->|[Hi _]]; [by right|]. destruct (decide (id hd' = id n)) as [E|E].
    - left. destruct Hn' as [v [Hn' _]]. rewrite <- E, Hi in Hn'. by injection Hn' as ->.
    - right. apply (Hall' _ _ Hi); [apply Hwf'|done]. }
  split; [split; [done|]|].
  - destruct Hhd' as [?|?]; [by left|by right].
  - intros Heq. destruct Hhd' as [?|Hlt]; [done|]. exfalso.
    assert (index db' !! id y = Some (set_validated true y)) as Hy' by (rewrite Hidx; apply lookup_insert_eq).
    pose proof (wf_head_best _ _ _ Hwf' _ _ Hy' eq_refl) as Hb. simpl in Hb. rewrite Heq in Hb. congruence.
Qed.
End choice.
