(* ===== verification/ForkFile.v ===== *)
(** * The fork database file

    [open] of what [close] wrote gives the database back, provided that the
    irreversible block number does not decrease from a block to its
    successors: the blocks are written in the order of preference, so that a
    block comes after its predecessor.  Without that condition the file
    cannot be read again, and [HeaderExamples] has a chain of headers where it
    fails. *)

From S2P Require Import Prelude Merkle BlockHeader BlockHeaderState HeaderChain HeaderExamples.
From S2P Require Import ForkDatabase ForkTree.
Local Open Scope Z_scope.

Section file.
Context {packed_transaction : Type}.
Context `{cr : Crypto} {crl : CryptoLaws cr}.
Abbreviation bstate := (block_state packed_transaction).
Abbreviation index_type := (gmap digest_type bstate).
Abbreviation fork_db := (@fork_database packed_transaction).
Implicit Types (b x y : bstate) (idx : index_type) (db : fork_db) (i k a : digest_type).
Context (validator : Z → gset digest_type → list digest_type → result unit).

(** The fields that are not stored can be recomputed from the block. *)
Definition caches_ok b : Prop :=
  ∃ sb, block b = Some sb ∧ validate_and_extract_header_extensions sb = Ok (header_exts b) ∧
    trxs b = omap packed_of (transactions sb).

(** What relates a block to the state of its predecessor: the irreversible
    block number does not decrease and the new features are accepted. *)
Definition follows (p : block_header_state) b : Prop :=
  dpos_irreversible_blocknum p ≤ dpos_irreversible_blocknum b ∧
  check_features validator p b = Ok tt.

Definition storable db : Prop :=
  Z.of_nat (size (index db)) < 2 ^ 32 ∧
  ∀ k b, index db !! k = Some b → caches_ok b ∧
    ∀ p, get_block_header db (previous (header b)) = Ok (Some p) → follows p b.

Lemma restore_reflected b : caches_ok b → restore (reflected b) = Ok b.
Proof.
  intros (sb & Hb & He & Ht). unfold restore. simpl. rewrite Hb. simpl. rewrite He. simpl.
  rewrite <- Ht, <- Hb. by destruct b as [[] ? ? ?].
Qed.

(** ** The order of the blocks in the file *)

Lemma close_order_Permutation idx : close_order idx ≡ₚ (map_to_list idx).*2.
Proof.
  unfold close_order. rewrite merge_Permutation, !reverse_Permutation.
  unfold by_lib_block_num. rewrite <- (merge_sort_Permutation lib_le (map_to_list idx).*2) at 3.
  generalize (merge_sort lib_le (map_to_list idx).*2). clear. intros l.
  induction l as [|b l IH]; [done|]. rewrite !filter_cons. unfold is_valid in *.
  destruct (validated b); simpl; [by rewrite IH|].
  rewrite <- Permutation_middle. by rewrite IH.
Qed.

Lemma close_order_elem idx b : b ∈ close_order idx ↔ ∃ k, idx !! k = Some b.
Proof.
  rewrite close_order_Permutation, list_elem_of_fmap. split.
  - intros ([k b'] & -> & H%elem_of_map_to_list). by exists k.
  - intros [k H]. exists (k, b). split; [done|]. by apply elem_of_map_to_list.
Qed.

Lemma reverse_filter_sorted idx (v : bool) :
  Sorted not_preferred (reverse (filter (λ b, is_valid b = v) (by_lib_block_num idx))).
Proof.
  apply StronglySorted_Sorted.
  pose proof (StronglySorted_merge_sort lib_le (map_to_list idx).*2) as Hs.
  fold (by_lib_block_num idx) in Hs. induction Hs as [|b l Hs IH Hb]; [constructor|].
  rewrite filter_cons. destruct (decide (is_valid b = v)) as [Hv|Hv]; [|done].
  rewrite reverse_cons. apply StronglySorted_app_2; [|done|repeat constructor].
  intros x y Hx Hy. apply list_elem_of_singleton in Hy as ->.
  apply elem_of_reverse, list_elem_of_filter in Hx as [Hvx Hx].
  rewrite Forall_forall in Hb. specialize (Hb x Hx).
  apply lib_le_spec in Hb as [_ Hp]. apply Hp. unfold is_valid in *. congruence.
Qed.

Lemma close_order_sorted idx : StronglySorted not_preferred (close_order idx).
Proof.
  apply Sorted_StronglySorted; [apply _|]. unfold close_order.
  apply Sorted_list_merge; [apply _|apply reverse_filter_sorted|apply reverse_filter_sorted].
Qed.

(** ** Reading the blocks back *)

(** The root that [open] restores. *)
Definition stored_root (r : bstate) : bstate := mk_block_state (reflected_header_state r) None true [].

(** After the prefix [l] of the file: exactly its blocks are in the index. *)
Definition loaded idx (r : bstate) (l : list bstate) db : Prop :=
  root db = Some (stored_root r) ∧
  ∀ k b, index db !! k = Some b ↔ idx !! k = Some b ∧ b ∈ l.

(** The predecessor of a block stands before it in the file. *)
Lemma predecessor_first db r hd l1 b l2 k p :
  wf db r hd → storable db → close_order (index db) = l1 ++ b :: l2 →
  index db !! k = Some b → index db !! previous (header b) = Some p → p ∈ l1.
Proof.
  intros Hwf [_ Hst] Hl Hb Hp. destruct (wf_index _ _ _ Hwf k b Hb) as [Hid [Hn1 Hn2]].
  destruct (wf_index _ _ _ Hwf _ _ Hp) as [Hidp [Hnp _]]. rewrite Hidp in Hnp.
  assert (p ∈ l1 ++ b :: l2) as Hin by (rewrite <- Hl; apply close_order_elem; by eexists).
  apply elem_of_app in Hin as [Hin|[->|Hin]%elem_of_cons]; [done|lia|].
  assert (not_preferred b p) as Hnp'.
  { pose proof (close_order_sorted (index db)) as Hs. rewrite Hl in Hs.
    apply StronglySorted_app_1_r in Hs. apply StronglySorted_inv in Hs as [_ HF].
    rewrite Forall_forall in HF. by apply HF. }
  destruct (Hst k b Hb) as [_ Hf]. destruct (Hf p) as [Hlib _].
  { unfold get_block_header. rewrite (wf_root _ _ _ Hwf). simpl.
    rewrite decide_False; [by rewrite Hp|]. intros Heq. by rewrite <- Heq, (wf_root_not_in _ _ _ Hwf) in Hp. }
  unfold not_preferred, first_preferred in Hnp'. simpl in Hnp'. lia.
Qed.

Lemma load_block db r hd l1 b l2 k db1 :
  wf db r hd → storable db → close_order (index db) = l1 ++ b :: l2 → NoDup (l1 ++ b :: l2) →
  index db !! k = Some b → loaded (index db) r l1 db1 →
  ∃ db2, open_block validator db1 (reflected b) = Ok db2 ∧ loaded (index db) r (l1 ++ [b]) db2.
Proof.
  intros Hwf Hst Hl Hnd Hb [Hroot Hidx]. pose proof Hst as [_ Hst'].
  destruct (Hst' k b Hb) as [Hcache Hf]. destruct (wf_index _ _ _ Hwf k b Hb) as [Hid _].
  unfold open_block. rewrite restore_reflected by done. cbn [mbind result_bind].
  unfold add_impl. rewrite Hroot. simpl.
  assert (∃ p, get_block_header db1 (previous (header b)) = Ok (Some p) ∧
    check_features validator p b = Ok tt) as (p & -> & Hcheck).
  { unfold get_block_header in *. rewrite Hroot. rewrite (wf_root _ _ _ Hwf) in Hf. simpl in *.
    destruct (decide (id r = previous (header b))) as [Hr|Hr].
    - eexists. split; [done|]. by apply (Hf r).
    - destruct (wf_link _ _ _ Hwf k b Hb) as [?|[p Hp]]; [congruence|].
      rewrite Hp in Hf. exists p. split; [|by apply (Hf p)].
      rewrite (proj2 (Hidx (previous (header b)) p)); [done|]. split; [done|].
      by eapply predecessor_first. }
  simpl. rewrite Hcheck. simpl.
  assert (index db1 !! id b = None) as Hnew.
  { destruct (index db1 !! id b) as [b'|] eqn:Hb'; [|done]. apply Hidx in Hb' as [Hb' Hin].
    rewrite Hid, Hb in Hb'. injection Hb' as <-. apply NoDup_app in Hnd as (_ & Hd & _).
    exfalso. apply (Hd b Hin). left. }
  rewrite Hnew. destruct (candidate_exists (<[id b := b]> (index db1)) (id b) b) as [c Hc].
  { apply lookup_insert_eq. }
  rewrite Hc. simpl. eexists. split; [done|]. split; [done|]. simpl. intros k' b'.
  rewrite lookup_insert_Some, Hidx, elem_of_app, list_elem_of_singleton. split.
  - intros [[<- <-]|[Hne [? ?]]]; [rewrite Hid; by auto|by auto].
  - intros [Hb' [Hin| ->]].
    + right. split; [|done]. intros <-. rewrite Hid, Hb in Hb'. injection Hb' as <-.
      apply NoDup_app in Hnd as (_ & Hd & _). apply (Hd b Hin). left.
    + left. split; [|done]. destruct (wf_index _ _ _ Hwf k' b Hb') as [? _]. done.
Qed.

Lemma load_all db r hd :
  wf db r hd → storable db →
  ∃ db1, fold_res (open_block validator) (reset (reflected_header_state r))
           (reflected <$> close_order (index db)) = Ok db1 ∧
    root db1 = Some (stored_root r) ∧ index db1 = index db.
Proof.
  intros Hwf Hst.
  assert (NoDup (close_order (index db))) as Hnd.
  { rewrite close_order_Permutation. apply NoDup_fmap_2_strong; [|apply NoDup_map_to_list].
    intros [k1 b1] [k2 b2] H1%elem_of_map_to_list H2%elem_of_map_to_list Heq. simpl in Heq. subst.
    destruct (wf_index _ _ _ Hwf _ _ H1) as [? _], (wf_index _ _ _ Hwf _ _ H2) as [? _]. congruence. }
  assert (∀ l2 l1 db1, close_order (index db) = l1 ++ l2 → loaded (index db) r l1 db1 →
    ∃ db2, fold_res (open_block validator) db1 (reflected <$> l2) = Ok db2 ∧
      loaded (index db) r (close_order (index db)) db2) as Hload.
  { induction l2 as [|b l2 IH]; intros l1 db1 Hl Hld.
    - exists db1. rewrite app_nil_r in Hl. by rewrite Hl.
    - assert (∃ k, index db !! k = Some b) as [k Hb] by (apply close_order_elem; rewrite Hl; set_solver).
      destruct (load_block db r hd l1 b l2 k db1) as (db2 & Hdb2 & Hld2); [done..|by rewrite <- Hl|done|done|].
      rewrite fmap_cons. cbn [fold_res]. rewrite Hdb2. cbn [mbind result_bind].
      apply (IH (l1 ++ [b])); [by rewrite <- app_assoc|done]. }
  destruct (Hload (close_order (index db)) [] (reset (reflected_header_state r))) as (db1 & Hdb1 & Hr1 & Hidx1).
  - done.
  - split; [done|]. intros k b. rewrite elem_of_nil. simpl. rewrite lookup_empty. naive_solver.
  - exists db1. split_and!; [done|done|]. apply map_eq. intros k. apply option_eq. intros b.
    rewrite Hidx1, close_order_elem. split; [by intros []|]. intros Hb. split; [done|by exists k].
Qed.

(** The consistency check on the head passes. *)
Lemma head_check db r hd :
  wf db r hd →
  match hd_error (by_lib_block_num (index db)) with
  | Some candidate =>
      if is_valid candidate
      then EOS_ASSERT (negb (first_preferred candidate hd)) fork_database_exception
      else EOS_ASSERT (bool_decide (id hd = id r)) fork_database_exception
  | None => EOS_ASSERT (bool_decide (id hd = id r)) fork_database_exception
  end = Ok tt.
Proof.
  intros Hwf. destruct (hd_error _) as [c|] eqn:Hc.
  - destruct (candidate_best _ _ Hc) as [[k Hk] Hbest]. unfold is_valid.
    destruct (validated c) eqn:Hv; [by rewrite (wf_head_best _ _ _ Hwf k c Hk Hv)|].
    destruct (wf_head_in _ _ _ Hwf) as [->|Hin]; [by rewrite bool_decide_eq_true_2|].
    destruct (wf_head_valid _ _ _ Hwf) as [Hvh _]. by destruct (Hbest _ _ Hin Hvh).
  - destruct (wf_head_in _ _ _ Hwf) as [->|Hin]; [by rewrite bool_decide_eq_true_2|].
    destruct (candidate_exists _ _ _ Hin) as [c ?]. congruence.
Qed.

End file.

(** ** Examples *)

(** The blocks of the chain of [HeaderExamples], without transactions, and a
    sibling of block 8. *)
Abbreviation demo_db := (@fork_database unit) (only parsing).
Definition demo_block_of (s : block_header_state) : block_state unit :=
  mk_block_state s (Some (mk_signed_block (header s) [] [])) false [].
Definition demo_block (k : nat) : block_state unit := demo_block_of (demo_state k).
Definition demo_fork_header : signed_block_header := demo_header (demo_state 6) 30 0 None.
Definition demo_fork_state : block_header_state :=
  match next_header (demo_state 6) demo_fork_header accept_all true with
  | Ok s => s
  | Throw _ => demo_genesis
  end.
Definition demo_fork : block_state unit := demo_block_of demo_fork_state.

Definition or_empty (r : result demo_db) : demo_db :=
  match r with Ok db => db | Throw _ => empty_fork_db end.

(** Root block 6, blocks 7 and 8 validated, block 9 and the sibling of 8 not. *)
Definition demo_db0 : demo_db := reset (demo_state 5).
Definition demo_db1 : demo_db := or_empty (add demo_db0 (Some (demo_block 6)) false).
Definition demo_db2 : demo_db := or_empty (mark_valid demo_db1 (demo_block 6)).
Definition demo_db3 : demo_db := or_empty (add demo_db2 (Some (demo_block 7)) false).
Definition demo_db4 : demo_db := or_empty (mark_valid demo_db3 (demo_block 7)).
Definition demo_db5 : demo_db := or_empty (add demo_db4 (Some demo_fork) false).
Definition demo_db6 : demo_db := or_empty (add demo_db5 (Some (demo_block 8)) false).

Ltac demo_add b :=
  apply (step_add _ b false); [|vm_compute; reflexivity];
  eexists _, _, accept_all, true; split_and!;
    [vm_compute; reflexivity|vm_compute; reflexivity|].
Ltac demo_mark b := apply (step_mark_valid _ b); vm_compute; reflexivity.

Lemma demo_db6_reachable : rtc fork_step demo_db0 demo_db6.
Proof.
  apply (rtc_l _ _ demo_db1); [demo_add (demo_block 6); apply (demo_next 5); lia|].
  apply (rtc_l _ _ demo_db2); [demo_mark (demo_block 6)|].
  apply (rtc_l _ _ demo_db3); [demo_add (demo_block 7); apply (demo_next 6); lia|].
  apply (rtc_l _ _ demo_db4); [demo_mark (demo_block 7)|].
  apply (rtc_l _ _ demo_db5).
  { demo_add demo_fork. instantiate (1 := demo_fork_header). vm_compute. reflexivity. }
  apply rtc_once. demo_add (demo_block 8). apply (demo_next 7). lia.
Qed.

Lemma demo_db0_num : num_from_id (id (demo_state 5)) = block_num (demo_state 5).
Proof. vm_compute. reflexivity. Qed.

Lemma fork_database_invariant_witness :
  rtc fork_step demo_db0 demo_db6 ∧ ∃ r hd, root demo_db6 = Some r ∧ head demo_db6 = Some hd.
Proof.
  split; [exact demo_db6_reachable|].
  destruct (fork_database_invariant (demo_state 5) demo_db6 demo_db0_num demo_db6_reachable)
    as (r & hd & Hr & Hh & _).
  exists r, hd. exact (conj Hr Hh).
Defined.

Lemma remove_deletes_descendants_witness :
  ∃ hd, head demo_db6 = Some hd ∧
    (¬ desc (index demo_db6) (id demo_fork) (id hd) ∨ desc (index demo_db6) (id demo_fork) (id hd)).
Proof.
  destruct (remove_deletes_descendants (demo_state 5) demo_db6 (id demo_fork) demo_db0_num demo_db6_reachable)
    as (hd & Hh & [[Hd _]|[Hd _]]); exists hd; split; [exact Hh|right; exact Hd|exact Hh|left; exact Hd].
Defined.

Lemma advance_root_keeps_descendants_witness :
  ∃ nr hd, index demo_db6 !! id (demo_block 6) = Some nr ∧ validated nr = true ∧
    head demo_db6 = Some hd.
Proof.
  destruct (index demo_db6 !! id (demo_block 6)) as [nr|] eqn:Hnr; [|vm_compute in Hnr; discriminate Hnr].
  assert (validated nr = true) as Hv by (vm_compute in Hnr; injection Hnr as <-; reflexivity).
  destruct (advance_root_keeps_descendants (demo_state 5) demo_db6 (id (demo_block 6)) nr
    demo_db0_num demo_db6_reachable Hnr Hv) as (hd & Hh & _).
  exists nr, hd. exact (conj eq_refl (conj Hv Hh)).
Defined.

Lemma fetch_branch_from_common_ancestor_witness :
  ∃ l1 l2 a, fetch_branch_from demo_db6 (id demo_fork) (id (demo_block 8)) = Ok (l1, l2) ∧
    path (index demo_db6) (id demo_fork) l1 a.
Proof.
  destruct (fetch_branch_from_common_ancestor (demo_state 5) demo_db6 (stored_root (demo_block 5))
    demo_fork (demo_block 8) demo_db0_num demo_db6_reachable) as (l1 & l2 & a & Hf & Hp & _).
  - vm_compute. reflexivity.
  - right. vm_compute. reflexivity.
  - right. vm_compute. reflexivity.
  - exists l1, l2, a. exact (conj Hf Hp).
Defined.

(** In the example the irreversible block numbers do not decrease. *)
Definition demo_storable_check (db : demo_db) : bool :=
  forallb (λ kb : digest_type * block_state unit,
    match get_block_header db (previous (header kb.2)) with
    | Ok (Some p) => (dpos_irreversible_blocknum p <=? dpos_irreversible_blocknum kb.2) &&
                     bool_decide (check_features accept_all p kb.2 = Ok tt)
    | _ => true
    end &&
    match block kb.2 with
    | Some sb => bool_decide (validate_and_extract_header_extensions sb = Ok (header_exts kb.2)) &&
                 bool_decide (trxs kb.2 = omap packed_of (transactions sb))
    | None => false
    end) (map_to_list (index db)).

Lemma demo_storable db :
  Z.of_nat (size (index db)) < 2 ^ 32 → demo_storable_check db = true → storable accept_all db.
Proof.
  intros Hsz Hc. split; [done|]. intros k b Hb. unfold demo_storable_check in Hc.
  rewrite forallb_forall in Hc. specialize (Hc (k, b)). cbn [snd] in Hc.
  rewrite <- list_elem_of_In, elem_of_map_to_list in Hc. specialize (Hc Hb).
  apply andb_prop in Hc as [Hf Hcache]. split.
  - destruct (block b) as [sb|] eqn:Hsb; [|done]. bool_prop. by exists sb.
  - intros p Hp. rewrite Hp in Hf. bool_prop. split; [lia|done].
Qed.


(** *** A database that cannot be reopened *)

(** Root block 9, then blocks 10 and 11, both added and validated; block 11's
    irreversible block number is lower than block 10's. *)
Definition regress_db0 : demo_db := reset (demo_state 8).
Definition regress_db1 : demo_db := or_empty (add regress_db0 (Some (demo_block 9)) false).
Definition regress_db2 : demo_db := or_empty (mark_valid regress_db1 (demo_block 9)).
Definition regress_db3 : demo_db := or_empty (add regress_db2 (Some (demo_block 10)) false).
Definition regress_db4 : demo_db := or_empty (mark_valid regress_db3 (demo_block 10)).

Lemma regress_reachable : rtc fork_step regress_db0 regress_db4.
Proof.
  apply (rtc_l _ _ regress_db1); [demo_add (demo_block 9); apply (demo_next 8); lia|].
  apply (rtc_l _ _ regress_db2); [demo_mark (demo_block 9)|].
  apply (rtc_l _ _ regress_db3); [demo_add (demo_block 10); apply (demo_next 9); lia|].
  apply rtc_once. demo_mark (demo_block 10).
Qed.

(** C39.  When a change of schedule lowers the irreversible block number, a
    validated successor of the head does not become the head, and the file
    that [close] writes is refused by [open]: there is a reachable database
    with such a block whose file [open] rejects with
    [unlinkable_block_exception]. *)
Theorem regression_breaks_fork_database :
  ∃ s (db : demo_db) (hd b : block_state unit),
    num_from_id (id s) = block_num s ∧ rtc fork_step (reset s) db ∧
    head db = Some hd ∧ index db !! id b = Some b ∧ validated b = true ∧ previous (header b) = id hd ∧
    open db (close db).1 accept_all = Throw unlinkable_block_exception.
Proof.
  exists (demo_state 8), regress_db4, (set_validated true (demo_block 9)), (set_validated true (demo_block 10)).
  split_and!; [vm_compute; reflexivity|exact regress_reachable|vm_compute; reflexivity..].
Qed.
