(* ===== verification/BlockLog.v ===== *)
(** * The block log ([block_log.hpp], [block_log.cpp])

    Irreversible blocks are kept in two files: the log, a header followed by
    the packed blocks, each with its own position after it, and the index, the
    list of the positions.  The files are lists of bytes.  A stream is the
    position reached, the bytes after it and the state that [fail()] tells:
    the streams of an open log throw when a read fails, those of [repair_log]
    and [extract_genesis_state] do not, and then leave the variable that was
    to be read partly or not at all written.  The files of an open log stay
    open until it is destroyed, so that [check_open_files] does nothing; the
    state has no flag for it.  Buffers are flushed at the end of every
    operation; what a crash may leave of the log is a prefix of its bytes.

    The theorems: the files refine a list of consecutive blocks, the index is
    restored from the log, and the repair of a damaged log keeps every block
    that was completely written. *)

From S2P Require Import Prelude Merkle BlockHeader ForkDatabase.
Local Open Scope Z_scope.

(** ** Little-endian words, as they are written from memory *)

Fixpoint le_bytes (n : nat) (x : Z) : list Z :=
  match n with
  | O => []
  | S n => u8 x :: le_bytes n (Z.shiftr x 8)
  end.

Fixpoint le_word (l : list Z) : Z :=
  match l with
  | [] => 0
  | b :: l => Z.lor b (Z.shiftl (le_word l) 8)
  end.

(** ** Streams *)

(** What [fc::raw::unpack] does to a stream: a value and the bytes not yet
    read; a value of which a part could not be read, the stream having failed;
    or an exception. *)
Inductive unpacked (A : Type) :=
  | Unpacked (a : A) (rest : list Z)
  | Exhausted (a : A)
  | Raised (e : exn) (rest : list Z).
Arguments Unpacked {A} a rest.
Arguments Exhausted {A} a.
Arguments Raised {A} e rest.

Record stream := mk_stream { at_pos : Z; ahead : list Z; failed : bool }.

(** [tellg]: -1 after a failure. *)
Definition tellg (s : stream) : Z := if failed s then -1 else at_pos s.

(** [read]: all bytes that are there are stored, also when there are too few. *)
Definition read (n : nat) (s : stream) : list Z * stream :=
  if failed s then ([], s)
  else if (n <=? length (ahead s))%nat
  then (take n (ahead s), mk_stream (at_pos s + Z.of_nat n) (drop n (ahead s)) false)
  else (ahead s, mk_stream (at_pos s + Z.of_nat (length (ahead s))) [] true).

(** [read] into the bytes of a variable that had a value before. *)
Definition read_over (old : list Z) (s : stream) : list Z * stream :=
  let '(bytes, s') := read (length old) s in (bytes ++ drop (length bytes) old, s').

(** [read] on a stream whose failures are exceptions. *)
Definition read_or_throw (n : nat) (s : stream) : result (list Z * stream) :=
  let '(bytes, s') := read n s in
  _ ← EOS_ASSERT (negb (failed s')) std_ios_failure;
  Ok (bytes, s').

(** The stream after [unpack] has left [rest] to be read. *)
Definition moved_to (rest : list Z) (s : stream) : stream :=
  mk_stream (at_pos s + Z.of_nat (length (ahead s) - length rest)) rest (failed s).

Definition unpack_or_throw {A} (unpack : list Z → unpacked A) (s : stream) : result (A * stream) :=
  match unpack (ahead s) with
  | Unpacked a rest => Ok (a, moved_to rest s)
  | Exhausted _ => Throw std_ios_failure
  | Raised e _ => Throw e
  end.

(** [seekg( pos )] of a position given as an unsigned word. *)
Definition seekg (file : list Z) (pos : Z) : result stream :=
  _ ← EOS_ASSERT (0 <=? s64 pos) std_ios_failure;
  Ok (mk_stream pos (drop (Z.to_nat pos) file) false).

(** [seekg( -sizeof(uint64_t), std::ios::end )] followed by the read of the word. *)
Definition read_last (file : list Z) : result Z :=
  _ ← EOS_ASSERT (8 <=? length file)%nat std_ios_failure;
  Ok (le_word (drop (length file - 8) file)).

(** ** The packing of blocks and of the genesis state, which is code of fc *)
Class BlockFc (PT : Type) := {
  pack_block : signed_block PT → list Z;
  unpack_block : list Z → unpacked (signed_block PT);
}.

Class StateFc (G : Type) := {
  pack_genesis : G → list Z;
  unpack_genesis : list Z → unpacked G;
}.

(** A packed value is read back whatever follows it, and a part of it is not
    taken for a value. *)
Class BlockFcLaws {PT} (bf : BlockFc PT) : Prop := {
  unpack_pack_block : ∀ b rest, unpack_block (pack_block b ++ rest) = Unpacked b rest;
  unpack_part_of_block : ∀ b n b' rest, (n < length (pack_block b))%nat →
    unpack_block (take n (pack_block b)) ≠ Unpacked b' rest;
  unpack_block_shorter : ∀ l b rest, unpack_block l = Unpacked b rest → (length rest ≤ length l)%nat;
  unpack_block_raises : ∀ l e rest, unpack_block l = Raised e rest → e ≠ out_of_fuel;
}.

Class StateFcLaws {G} (sf : StateFc G) : Prop := {
  unpack_pack_genesis : ∀ g rest, unpack_genesis (pack_genesis g ++ rest) = Unpacked g rest;
  pack_genesis_nonempty : ∀ g, pack_genesis g ≠ [];
  unpack_genesis_shorter : ∀ l g rest, unpack_genesis l = Unpacked g rest → (length rest ≤ length l)%nat;
  unpack_genesis_raises : ∀ l e rest, unpack_genesis l = Raised e rest → e ≠ out_of_fuel;
}.

Section block_log.
Context {PT G : Type} {cr : Crypto} {bf : BlockFc PT} {sf : StateFc G}.

Abbreviation block := (signed_block PT).

Definition npos : Z := u64_max.
Definition min_supported_version : Z := 1.
Definition max_supported_version : Z := 2.

(** [block_log_impl], with the contents of the two files. *)
Record block_log := mk_block_log {
  log_head : option block;
  log_head_id : block_id_type;
  block_file : list Z;
  index_file : list Z;
  genesis_written_to_block_log : bool;
  log_version : Z;
  first_block_num : Z;
}.

(** [append] *)
Definition append (l : block_log) (b : block) : result (Z * block_log) :=
  _ ← EOS_ASSERT (genesis_written_to_block_log l) block_log_append_fail;
  let pos := Z.of_nat (length (block_file l)) in
  _ ← EOS_ASSERT (Z.of_nat (length (index_file l)) =?
                    u64 (8 * u32 (header_block_num b - first_block_num l))) block_log_append_fail;
  Ok (pos, mk_block_log (Some b) (header_id b)
             ((block_file l ++ pack_block b) ++ le_bytes 8 pos)
             (index_file l ++ le_bytes 8 pos)
             (genesis_written_to_block_log l) (log_version l) (first_block_num l)).

(** [reset]: the version is written as 0 first, and again when all the rest is
    in the file. *)
Definition reset (gs : G) (first_block : option block) (first : Z) : result block_log :=
  let header := le_bytes 4 0 ++ le_bytes 4 first ++ pack_genesis gs ++ le_bytes 8 npos in
  let l := mk_block_log None zero_digest header [] true 0 first in
  l ← (match first_block with
       | Some b => '(_, l') ← append l b; Ok l'
       | None => Ok l
       end);
  Ok (mk_block_log (log_head l) (log_head_id l)
        (le_bytes 4 max_supported_version ++ drop 4 (block_file l))
        (index_file l) true max_supported_version (first_block_num l)).

(** [read_block] *)
Definition read_block (file : list Z) (pos : Z) : result (block * Z) :=
  s ← seekg file pos;
  '(b, s) ← unpack_or_throw unpack_block s;
  Ok (b, u64 (u64 (tellg s) + 8)).

(** [get_block_pos] *)
Definition get_block_pos (l : block_log) (block_num : Z) : result Z :=
  if negb (bool_decide (is_Some (log_head l)) && (block_num <=? num_from_id (log_head_id l))
           && (first_block_num l <=? block_num))
  then Ok npos
  else
    s ← seekg (index_file l) (u64 (8 * u32 (block_num - first_block_num l)));
    '(bytes, _) ← read_or_throw 8 s;
    Ok (le_word bytes).

(** [read_block_by_num] *)
Definition read_block_by_num (l : block_log) (block_num : Z) : result (option block) :=
  pos ← get_block_pos l block_num;
  if bool_decide (pos ≠ npos) then
    '(b, _) ← read_block (block_file l) pos;
    _ ← EOS_ASSERT (header_block_num (sb_header b) =? block_num) reversible_blocks_exception;
    Ok (Some b)
  else Ok None.

(** [read_block_by_id] *)
Definition read_block_by_id (l : block_log) (id : block_id_type) : result (option block) :=
  read_block_by_num l (num_from_id id).

(** [read_head] *)
Definition read_head (file : list Z) : result (option block) :=
  if (length file <=? 8)%nat then Ok None
  else
    pos ← read_last file;
    if bool_decide (pos ≠ npos) then '(b, _) ← read_block file pos; Ok (Some b) else Ok None.

(** The loop of [construct_index]; the fuel is the length of the file. *)
Fixpoint index_loop (fuel : nat) (s : stream) (pos end_pos : Z) (index : list Z) : result (list Z) :=
  match fuel with
  | O => Throw out_of_fuel
  | S fuel =>
      if pos <? end_pos then
        '(_, s) ← unpack_or_throw unpack_block s;
        '(bytes, s) ← read_or_throw 8 s;
        let pos := le_word bytes in
        index_loop fuel s pos end_pos (index ++ le_bytes 8 pos)
      else Ok index
  end.

(** [construct_index]: the contents of the new index file. *)
Definition construct_index (version : Z) (file : list Z) : result (list Z) :=
  end_pos ← read_last file;
  if end_pos =? npos then Ok []
  else
    let pos := if version =? 1 then 4 else 8 in
    s ← seekg file pos;
    '(_, s) ← unpack_or_throw unpack_genesis s;
    s ← (if 1 <? version then '(_, s) ← read_or_throw 8 s; Ok s else Ok s);
    index_loop (S (length file)) s pos end_pos [].

(** The part of [open] that compares the last positions of the two files. *)
Definition check_index (version : Z) (blocks index : list Z) : result (list Z) :=
  if (length index =? 0)%nat then construct_index version blocks
  else
    block_pos ← read_last blocks;
    index_pos ← read_last index;
    if block_pos <? index_pos then construct_index version blocks
    else if index_pos <? block_pos then construct_index version blocks
    else Ok index.

(** [open] with the files found in the directory; an absent file is empty. *)
Definition open_log (blocks index : list Z) : result block_log :=
  if (length blocks =? 0)%nat then Ok (mk_block_log None zero_digest [] [] false 0 0)
  else
    s ← seekg blocks 0;
    '(bytes, s) ← read_or_throw 4 s;
    let version := le_word bytes in
    _ ← EOS_ASSERT (0 <? version) block_log_exception;
    _ ← EOS_ASSERT ((min_supported_version <=? version) && (version <=? max_supported_version))
          block_log_unsupported_version;
    first ← (if 1 <? version then
               '(bytes, _) ← read_or_throw 4 s;
               let first := le_word bytes in
               _ ← EOS_ASSERT (0 <? first) block_log_exception;
               Ok first
             else Ok 1);
    head ← read_head blocks;
    let head_id := match head with Some b => header_id (sb_header b) | None => zero_digest end in
    index' ← check_index version blocks index;
    Ok (mk_block_log head head_id blocks index' true version first).

(** ** Repair *)

(** What [repair_log] leaves in the new directory: the log, and the file for
    the bytes that could not be read as a block. *)
Record repaired := mk_repaired { new_log : list Z; bad_tail : option (list Z) }.

(** The loop of [repair_log]; the fuel is the length of the old file.  The
    second result is [incomplete_block_data]. *)
Fixpoint repair_loop (fuel : nat) (truncate_at_block : Z) (old : stream) (end_pos pos : Z)
    (new : list Z) : result (list Z * list Z) :=
  match fuel with
  | O => Throw out_of_fuel
  | S fuel =>
      if pos <? end_pos then
        let after tmp old :=
          let tmp_pos := le_bytes 8 u64_max in
          let '(tmp_pos, old) :=
            if u64 (u64 (tellg old) + 8) <=? end_pos then read_over tmp_pos old else (tmp_pos, old) in
          if bool_decide (pos ≠ le_word tmp_pos) then Ok (new, [])
          else
            let new := (new ++ pack_block tmp) ++ le_bytes 8 pos in
            if header_block_num (sb_header tmp) =? truncate_at_block then Ok (new, [])
            else repair_loop fuel truncate_at_block old end_pos (Z.of_nat (length new)) new in
        match unpack_block (ahead old) with
        | Unpacked tmp rest => after tmp (moved_to rest old)
        | Exhausted tmp => after tmp (mk_stream (at_pos old) [] true)
        | Raised _ rest =>
            Ok (new, (read_over (replicate (Z.to_nat (end_pos - pos)) 0) (moved_to rest old)).1)
        end
      else Ok (new, [])
  end.

(** [unpack] on a stream whose failures are not exceptions. *)
Definition unpack_quietly {A} (unpack : list Z → unpacked A) (s : stream) : result (A * stream) :=
  match unpack (ahead s) with
  | Unpacked a rest => Ok (a, moved_to rest s)
  | Exhausted a => Ok (a, mk_stream (at_pos s) [] true)
  | Raised e _ => Throw e
  end.

(** The version at the start of the file, read without exceptions and checked. *)
Definition read_version (s : stream) : result (Z * stream) :=
  let '(bytes, s) := read_over (le_bytes 4 0) s in
  let version := le_word bytes in
  _ ← EOS_ASSERT (0 <? version) block_log_exception;
  _ ← EOS_ASSERT ((min_supported_version <=? version) && (version <=? max_supported_version))
        block_log_unsupported_version;
  Ok (version, s).

(** [repair_log]: the contents of [blocks.log], when the directory and the
    file exist, and whether the directory for the backup exists. *)
Definition repair_log (found : option (list Z)) (backup_exists : bool) (truncate_at_block : Z)
    : result repaired :=
  old_file ← of_option block_log_not_found found;
  _ ← EOS_ASSERT (negb backup_exists) block_log_backup_dir_exist;
  let end_pos := Z.of_nat (length old_file) in
  '(version, old) ← read_version (mk_stream 0 old_file false);
  let new := le_bytes 4 version in
  let '(first, old) := if negb (version =? 1) then read_over (le_bytes 4 1) old else ([], old) in
  let new := new ++ first in
  '(gs, old) ← unpack_quietly unpack_genesis old;
  let new := new ++ pack_genesis gs in
  '(totem, old) ← (if negb (version =? 1) then
      let '(actual, old) := read 8 old in
      (* the variable was not initialized *)
      _ ← EOS_ASSERT (length actual =? 8)%nat undefined_behaviour;
      _ ← EOS_ASSERT (le_word actual =? npos) block_log_exception;
      Ok (actual, old)
    else Ok ([], old));
  let new := new ++ totem in
  '(new, incomplete) ← repair_loop (S (length old_file)) truncate_at_block old end_pos (u64 (tellg old)) new;
  Ok (mk_repaired new (if (0 <? length incomplete)%nat then Some incomplete else None)).

(** [extract_genesis_state] *)
Definition extract_genesis_state (found : option (list Z)) : result G :=
  file ← of_option block_log_not_found found;
  '(version, s) ← read_version (mk_stream 0 file false);
  let s := if negb (version =? 1) then (read_over (le_bytes 4 1) s).2 else s in
  '(gs, _) ← unpack_quietly unpack_genesis s;
  Ok gs.

(** ** The files of a list of blocks *)

(** A block with its position after it. *)
Definition entry (pos : Z) (b : block) : list Z := pack_block b ++ le_bytes 8 pos.
Definition entry_size (b : block) : nat := length (pack_block b) + 8.

Fixpoint entries (pos : Z) (bs : list block) : list Z :=
  match bs with
  | [] => []
  | b :: bs => entry pos b ++ entries (pos + Z.of_nat (entry_size b)) bs
  end.

Fixpoint positions (pos : Z) (bs : list block) : list Z :=
  match bs with
  | [] => []
  | b :: bs => pos :: positions (pos + Z.of_nat (entry_size b)) bs
  end.

Definition log_header (version first : Z) (gs : G) : list Z :=
  if version =? 1 then le_bytes 4 1 ++ pack_genesis gs
  else le_bytes 4 2 ++ le_bytes 4 first ++ pack_genesis gs ++ le_bytes 8 npos.

Definition header_size version first gs : Z := Z.of_nat (length (log_header version first gs)).

Definition log_bytes (version first : Z) (gs : G) (bs : list block) : list Z :=
  log_header version first gs ++ entries (header_size version first gs) bs.

Definition index_bytes (version first : Z) (gs : G) (bs : list block) : list Z :=
  positions (header_size version first gs) bs ≫= le_bytes 8.

(** The position of the last block, or the separator of an empty log. *)
Definition last_pos (pos : Z) (bs : list block) : Z := default npos (last (positions pos bs)).

(** The logs that are written: consecutive numbers from the first one; a log
    of version 1 starts with the first block of the chain. *)
Record log_ok (version first : Z) (gs : G) (bs : list block) : Prop := {
  lo_version : version = 1 ∧ first = 1 ∧ bs ≠ [] ∨ version = 2;
  lo_first : 0 < first < 2 ^ 32;
  lo_numbers : ∀ i (b : block), bs !! i = Some b → header_block_num b = first + Z.of_nat i;
  lo_size : Z.of_nat (length (log_bytes version first gs bs)) < 2 ^ 63;
}.

(** The state of an open log that holds [bs]. *)
Definition holding (version first : Z) (gs : G) (bs : list block) : block_log :=
  mk_block_log (last bs) (match last bs with Some b => header_id (sb_header b) | None => zero_digest end)
    (log_bytes version first gs bs) (index_bytes version first gs bs) true version first.

(** The blocks of which [room] bytes hold the whole entry, up to [stop]. *)
Fixpoint whole (room : nat) (stop : Z) (bs : list block) : list block :=
  match bs with
  | [] => []
  | b :: bs =>
      if (entry_size b <=? room)%nat
      then b :: (if header_block_num b =? stop then [] else whole (room - entry_size b) stop bs)
      else []
  end.
End block_log.

(** ** Words *)

Lemma length_le_bytes n x : length (le_bytes n x) = n.
Proof. revert x. induction n; intros; simpl; [done|]. by rewrite IHn. Qed.

Lemma le_word_bytes n x : in_u (8 * Z.of_nat n) x → le_word (le_bytes n x) = x.
Proof.
  revert x. induction n as [|n IH]; intros x Hx; cbn [le_bytes le_word].
  { unfold in_u in Hx. simpl in Hx. lia. }
  assert (in_u (8 * Z.of_nat n) (Z.shiftr x 8)) as Hs.
  { unfold in_u in *. rewrite Z.shiftr_div_pow2 by lia. split; [apply Z.div_pos; lia|].
    apply Z.div_lt_upper_bound; [lia|]. rewrite <- Z.pow_add_r by lia.
    replace (8 + 8 * Z.of_nat n) with (8 * Z.of_nat (S n)) by lia. lia. }
  rewrite IH by done. apply Z.bits_inj'. intros i Hi. unfold wrap.
  rewrite <- Z.land_ones, Z.lor_spec, Z.land_spec by lia. destruct (Z.ltb_spec i 8).
  - rewrite Z.shiftl_spec_low, Z.ones_spec_low by lia. by rewrite andb_true_r, orb_false_r.
  - rewrite Z.shiftl_spec_high, Z.shiftr_spec, Z.ones_spec_high by lia.
    rewrite andb_false_r, orb_false_l. f_equal. lia.
Qed.

Lemma le_word_8 x : 0 ≤ x < 2 ^ 63 ∨ x = npos → le_word (le_bytes 8 x) = x.
Proof. intros H. apply le_word_bytes. change (8 * Z.of_nat 8) with 64. unfold in_u, npos, u64_max in *. lia. Qed.

#[local] Arguments le_bytes : simpl never.
#[local] Arguments le_word : simpl never.

(** One step of a computation whose first part has been evaluated. *)
Local Ltac go := cbn [mbind result_bind negb].

Section log_theory.
Context {PT G : Type} {cr : Crypto} {crl : CryptoLaws cr}.
Context {bf : BlockFc PT} {bl : BlockFcLaws bf} {sf : StateFc G} {sl : StateFcLaws sf}.
Implicit Types (b : signed_block PT) (bs : list (signed_block PT)) (gs : G).

(** ** The layout *)

Lemma length_entries pos bs : length (entries pos bs) = sum_list_with entry_size bs.
Proof.
  revert pos. induction bs as [|b bs IH]; intros pos; [done|]. simpl.
  rewrite length_app, IH. f_equal. unfold entry, entry_size. by rewrite length_app, length_le_bytes.
Qed.

Definition end_of (pos : Z) (bs : list (signed_block PT)) : Z :=
  pos + Z.of_nat (length (entries pos bs)).

Lemma end_of_cons pos b bs : end_of pos (b :: bs) = end_of (pos + Z.of_nat (entry_size b)) bs.
Proof. unfold end_of. rewrite !length_entries. simpl. lia. Qed.

Lemma entries_app pos bs1 bs2 :
  entries pos (bs1 ++ bs2) = entries pos bs1 ++ entries (end_of pos bs1) bs2.
Proof.
  revert pos. induction bs1 as [|b bs1 IH]; intros pos; simpl.
  - unfold end_of. simpl. by rewrite Z.add_0_r.
  - by rewrite IH, end_of_cons, app_assoc.
Qed.

Lemma positions_app pos bs1 bs2 :
  positions pos (bs1 ++ bs2) = positions pos bs1 ++ positions (end_of pos bs1) bs2.
Proof.
  revert pos. induction bs1 as [|b bs1 IH]; intros pos; simpl.
  - unfold end_of. simpl. by rewrite Z.add_0_r.
  - by rewrite IH, end_of_cons.
Qed.

Lemma length_positions pos bs : length (positions pos bs) = length bs.
Proof. revert pos. induction bs; intros; simpl; [done|]. by rewrite IHbs. Qed.

Lemma length_index version first gs bs :
  length (index_bytes version first gs bs) = (8 * length bs)%nat.
Proof.
  unfold index_bytes. rewrite <- (length_positions (header_size version first gs) bs).
  induction (positions _ bs) as [|p l IH]; [done|].
  cbn [mbind list_bind length]. rewrite length_app, length_le_bytes. fold (mbind (M := list) (le_bytes 8) l).
  lia.
Qed.

Lemma last_pos_snoc pos bs b : last_pos pos (bs ++ [b]) = end_of pos bs.
Proof. unfold last_pos. rewrite positions_app, last_app. done. Qed.

Lemma length_bs pos bs : (8 * length bs ≤ length (entries pos bs))%nat.
Proof.
  rewrite length_entries. induction bs as [|b bs IH]; simpl; [done|]. unfold entry_size at 1. lia.
Qed.

Lemma log_bytes_snoc version first gs bs b :
  log_bytes version first gs (bs ++ [b]) =
  log_bytes version first gs bs ++
  entry (Z.of_nat (length (log_bytes version first gs bs))) b.
Proof.
  unfold log_bytes. rewrite entries_app, app_assoc. simpl. rewrite app_nil_r. f_equal. f_equal.
  unfold end_of, header_size. rewrite length_app. lia.
Qed.

Lemma index_bytes_snoc version first gs bs b :
  index_bytes version first gs (bs ++ [b]) =
  index_bytes version first gs bs ++ le_bytes 8 (Z.of_nat (length (log_bytes version first gs bs))).
Proof.
  unfold index_bytes, log_bytes. rewrite positions_app, bind_app. cbn [positions mbind list_bind].
  rewrite app_nil_r. f_equal. f_equal.
  unfold end_of, header_size. rewrite length_app. lia.
Qed.

Lemma log_ok_head version first gs bs b :
  log_ok version first gs (bs ++ [b]) →
  (version = 1 → bs ≠ []) → log_ok version first gs bs.
Proof.
  intros H Hne. destruct H as [Hv Hf Hn Hs]. rewrite log_bytes_snoc, length_app in Hs. split.
  - naive_solver.
  - done.
  - intros i b' Hi. apply Hn. by apply lookup_app_l_Some.
  - lia.
Qed.

Lemma log_ok_snoc version first gs bs b :
  log_ok version first gs bs → header_block_num b = first + Z.of_nat (length bs) →
  Z.of_nat (length (log_bytes version first gs (bs ++ [b]))) < 2 ^ 63 →
  log_ok version first gs (bs ++ [b]).
Proof.
  intros [Hv Hf Hn Hs] Hb Hl. split; [|done| |done].
  - destruct Hv as [(?&?&?)|?]; [left|by right]. split_and!; [done..|]. by destruct bs.
  - intros i b' [Hi|[Hi Hb']]%lookup_app_Some; [by apply Hn|].
    destruct (i - length bs)%nat as [|k] eqn:E; [|done]. simpl in Hb'. simplify_eq. rewrite Hb. lia.
Qed.

(** ** Writing *)

(** Appending: the next block is added at the end of both files, and no other
    block is. *)
Lemma append_holding version first gs bs b :
  0 < first < 2 ^ 32 → first + Z.of_nat (length bs) < 2 ^ 32 →
  append (holding version first gs bs) b =
    (if decide (header_block_num b = first + Z.of_nat (length bs))
     then Ok (Z.of_nat (length (log_bytes version first gs bs)), holding version first gs (bs ++ [b]))
     else Throw block_log_append_fail).
Proof.
  intros Hf Hr. unfold append, holding. simpl. rewrite length_index.
  pose proof (header_block_num_range b) as Hb. unfold in_u in Hb.
  rewrite (wrap_small 64).
  2:{ pose proof (wrap_range 32 (header_block_num b - first)). unfold in_u in *. lia. }
  assert (u32 (header_block_num b - first) = Z.of_nat (length bs) ↔
          header_block_num b = first + Z.of_nat (length bs)) as E.
  { unfold wrap. split; [|intros ->; rewrite Z.mod_small; lia].
    intros E. pose proof (Z.div_mod (header_block_num b - first) (2 ^ 32)).
    assert (header_block_num b - first = 2 ^ 32 * ((header_block_num b - first) / 2 ^ 32) + Z.of_nat (length bs)) by lia.
    nia. }
  destruct (decide _) as [Ed|Ed].
  - rewrite (proj2 E Ed). rewrite (proj2 (Z.eqb_eq _ _)) by lia. simpl.
    rewrite last_snoc, <- app_assoc, log_bytes_snoc, index_bytes_snoc. done.
  - rewrite (proj2 (Z.eqb_neq _ _)); [done|]. rewrite <- E in Ed. lia.
Qed.
(** ** Reading *)

Lemma seekg_app l1 l2 pos : pos = Z.of_nat (length l1) → pos < 2 ^ 63 →
  seekg (l1 ++ l2) pos = Ok (mk_stream pos l2 false).
Proof.
  intros -> H. unfold seekg. rewrite s64_small by (unfold in_s64; lia).
  rewrite (proj2 (Z.leb_le _ _)) by lia. simpl. rewrite Nat2Z.id, drop_app_length. done.
Qed.

Lemma read_app n l1 l2 pos : length l1 = n →
  read n (mk_stream pos (l1 ++ l2) false) = (l1, mk_stream (pos + Z.of_nat n) l2 false).
Proof.
  intros <-. unfold read. simpl. rewrite (proj2 (Nat.leb_le _ _)) by (rewrite length_app; lia).
  by rewrite take_app_length, drop_app_length.
Qed.

Lemma read_or_throw_app n l1 l2 pos : length l1 = n →
  read_or_throw n (mk_stream pos (l1 ++ l2) false) = Ok (l1, mk_stream (pos + Z.of_nat n) l2 false).
Proof. intros H. unfold read_or_throw. by rewrite read_app. Qed.

Lemma moved_past l1 l2 pos :
  moved_to l2 (mk_stream pos (l1 ++ l2) false) = mk_stream (pos + Z.of_nat (length l1)) l2 false.
Proof. unfold moved_to. simpl. rewrite length_app. do 2 f_equal. lia. Qed.

Lemma unpack_block_app b l pos :
  unpack_or_throw unpack_block (mk_stream pos (pack_block b ++ l) false) =
  Ok (b, mk_stream (pos + Z.of_nat (length (pack_block b))) l false).
Proof. unfold unpack_or_throw. simpl. rewrite unpack_pack_block. by rewrite moved_past. Qed.

Lemma unpack_genesis_app gs l pos :
  unpack_or_throw unpack_genesis (mk_stream pos (pack_genesis gs ++ l) false) =
  Ok (gs, mk_stream (pos + Z.of_nat (length (pack_genesis gs))) l false).
Proof. unfold unpack_or_throw. simpl. rewrite unpack_pack_genesis. by rewrite moved_past. Qed.

Lemma read_last_app l x : 0 ≤ x < 2 ^ 63 ∨ x = npos → read_last (l ++ le_bytes 8 x) = Ok x.
Proof.
  intros Hx. unfold read_last. rewrite length_app, length_le_bytes.
  rewrite (proj2 (Nat.leb_le _ _)) by lia. simpl. replace (length l + 8 - 8)%nat with (length l) by lia.
  by rewrite drop_app_length, le_word_8.
Qed.

(** The bytes up to a block, its entry, and the rest. *)
Lemma log_split version first gs bs1 b bs2 :
  ∃ rest, log_bytes version first gs (bs1 ++ b :: bs2) =
    log_bytes version first gs bs1 ++ pack_block b ++
    le_bytes 8 (Z.of_nat (length (log_bytes version first gs bs1))) ++ rest.
Proof.
  assert (end_of (header_size version first gs) bs1 =
          Z.of_nat (length (log_bytes version first gs bs1))) as E.
  { unfold end_of, log_bytes, header_size. rewrite length_app. lia. }
  unfold log_bytes at 1. rewrite entries_app, app_assoc. cbn [entries]. rewrite E. unfold entry.
  eexists. by rewrite <- (app_assoc (pack_block b)).
Qed.

Lemma read_block_at version first gs bs1 b bs2 :
  Z.of_nat (length (log_bytes version first gs (bs1 ++ b :: bs2))) < 2 ^ 63 →
  ∃ next, read_block (log_bytes version first gs (bs1 ++ b :: bs2))
    (Z.of_nat (length (log_bytes version first gs bs1))) = Ok (b, next).
Proof.
  destruct (log_split version first gs bs1 b bs2) as [rest ->]. rewrite length_app. intros H.
  unfold read_block. rewrite seekg_app by lia. simpl. rewrite unpack_block_app. simpl. by eexists.
Qed.

Lemma position_at version first gs bs1 b bs2 :
  positions (header_size version first gs) (bs1 ++ b :: bs2) =
  positions (header_size version first gs) bs1 ++ Z.of_nat (length (log_bytes version first gs bs1)) ::
  positions (Z.of_nat (length (log_bytes version first gs bs1)) + Z.of_nat (entry_size b)) bs2.
Proof.
  rewrite positions_app. simpl. unfold end_of, log_bytes. rewrite length_app.
  unfold header_size. by rewrite Nat2Z.inj_add.
Qed.

Lemma index_split version first gs bs1 b bs2 :
  ∃ rest, index_bytes version first gs (bs1 ++ b :: bs2) =
    index_bytes version first gs bs1 ++
    le_bytes 8 (Z.of_nat (length (log_bytes version first gs bs1))) ++ rest.
Proof. unfold index_bytes. rewrite position_at, bind_app. by eexists. Qed.

(** The blocks of the log, and only these, are found under their numbers. *)
Lemma read_by_num_holding version first gs bs n :
  log_ok version first gs bs → in_u 32 n →
  read_block_by_num (holding version first gs bs) n =
    Ok (if first <=? n then bs !! Z.to_nat (n - first) else None).
Proof.
  intros Hok Hn. pose proof (lo_first _ _ _ _ Hok) as Hf. unfold read_block_by_num, get_block_pos.
  cbn [holding log_head log_head_id first_block_num index_file block_file].
  destruct (Z.leb_spec first n) as [Hle|Hlt]; [|by rewrite andb_false_r].
  destruct (last bs) as [lb|] eqn:El; [|by apply last_None in El as ->].
  apply last_Some in El as [bs0 ->].
  rewrite num_from_header_id, (lo_numbers _ _ _ _ Hok (length bs0) lb) by apply list_lookup_middle, eq_refl.
  destruct (Z.leb_spec n (first + Z.of_nat (length bs0))) as [Hle'|Hlt'].
  2:{ simpl. rewrite lookup_ge_None_2; [done|]. rewrite length_app. simpl. lia. }
  destruct (lookup_lt_is_Some_2 (bs0 ++ [lb]) (Z.to_nat (n - first))) as [b Hb].
  { rewrite length_app. simpl. lia. }
  pose proof (lo_numbers _ _ _ _ Hok _ _ Hb) as Hnum. rewrite Hb. apply list_elem_of_split_length in Hb.
  destruct Hb as (bs1 & bs2 & E & Hlen). rewrite E in Hok |- *.
  pose proof (lo_size _ _ _ _ Hok) as Hs.
  destruct (index_split version first gs bs1 b bs2) as [rest ->].
  destruct (read_block_at version first gs bs1 b bs2 Hs) as [next Er].
  assert (Z.of_nat (length (log_bytes version first gs bs1)) < 2 ^ 63) as Hp.
  { destruct (log_split version first gs bs1 b bs2) as [r Hr]. rewrite Hr, length_app in Hs. lia. }
  rewrite (wrap_small 32), (wrap_small 64) by (unfold in_u in *; lia).
  replace (8 * (n - first)) with (Z.of_nat (length (index_bytes version first gs bs1))) by (rewrite length_index; lia).
  unfold in_u in Hn. rewrite bool_decide_true by done. cbn [andb negb].
  rewrite seekg_app by (rewrite length_index; lia). go.
  rewrite read_or_throw_app by apply length_le_bytes. go. rewrite le_word_8 by lia.
  rewrite bool_decide_true by (unfold npos, u64_max; lia).
  rewrite Er. go. rewrite (proj2 (Z.eqb_eq _ _)) by lia. done.
Qed.
(** ** Opening *)

Lemma end_of_log version first gs bs :
  end_of (header_size version first gs) bs = Z.of_nat (length (log_bytes version first gs bs)).
Proof. unfold end_of, log_bytes, header_size. rewrite length_app. lia. Qed.

Lemma last_pos_bounds pos bs : bs ≠ [] → 0 ≤ pos → pos ≤ last_pos pos bs ∧ last_pos pos bs < end_of pos bs.
Proof.
  intros Hne Hp. destruct (last bs) as [b|] eqn:E; [|by apply last_None in E].
  apply last_Some in E as [bs0 ->]. rewrite last_pos_snoc. unfold end_of.
  rewrite !length_entries, sum_list_with_app. simpl.
  assert (8 ≤ entry_size b)%nat by (unfold entry_size; lia). lia.
Qed.

Lemma last_pos_cons pos b bs : bs ≠ [] → last_pos pos (b :: bs) = last_pos (pos + Z.of_nat (entry_size b)) bs.
Proof. intros H. unfold last_pos. simpl. destruct bs; [done|]. done. Qed.

Lemma read_last_log version first gs bs : log_ok version first gs bs →
  read_last (log_bytes version first gs bs) = Ok (last_pos (header_size version first gs) bs).
Proof.
  intros Hok. pose proof (lo_size _ _ _ _ Hok) as Hs. destruct (last bs) as [b|] eqn:E.
  - apply last_Some in E as [bs0 ->]. rewrite last_pos_snoc, end_of_log. rewrite log_bytes_snoc in *.
    unfold entry. rewrite app_assoc, read_last_app; [done|]. rewrite length_app in Hs. lia.
  - apply last_None in E as ->. destruct (lo_version _ _ _ _ Hok) as [(_&_&?)| ->]; [done|].
    unfold log_bytes, log_header. cbn [Z.eqb Pos.eqb entries].
    rewrite app_nil_r, !app_assoc. apply read_last_app. by right.
Qed.

Lemma index_loop_entries fuel before pos bs index :
  bs ≠ [] → 0 ≤ pos → end_of pos bs < 2 ^ 63 → before < last_pos pos bs → (length bs < fuel)%nat →
  index_loop fuel (mk_stream pos (entries pos bs) false) before (last_pos pos bs) index =
  Ok (index ++ (positions pos bs ≫= le_bytes 8)).
Proof.
  revert fuel before pos index. induction bs as [|b bs IH]; intros fuel before pos index Hne Hp Hend Hb Hfuel; [done|].
  destruct fuel as [|fuel]; [simpl in Hfuel; lia|]. cbn [index_loop entries positions].
  rewrite (proj2 (Z.ltb_lt _ _)) by done. unfold entry. rewrite <- app_assoc, unpack_block_app. go.
  rewrite read_or_throw_app by apply length_le_bytes. go.
  destruct (last_pos_bounds pos (b :: bs) Hne Hp) as [? ?]. rewrite le_word_8 by lia.
  replace (pos + Z.of_nat (length (pack_block b)) + Z.of_nat 8) with (pos + Z.of_nat (entry_size b))
    by (unfold entry_size; lia).
  cbn [mbind list_bind]. rewrite app_assoc. destruct bs as [|b' bs].
  - destruct fuel as [|fuel]; [simpl in Hfuel; lia|]. simpl. unfold last_pos. simpl.
    rewrite Z.ltb_irrefl. by rewrite app_nil_r.
  - rewrite last_pos_cons by done. rewrite end_of_cons in Hend. apply IH; [done|lia|done| |simpl in *; lia].
    destruct (last_pos_bounds (pos + Z.of_nat (entry_size b)) (b' :: bs)); [done|lia|].
    unfold entry_size in *. lia.
Qed.

Lemma header_size_eq version first gs : header_size version first gs =
  (if version =? 1 then 4 else 16) + Z.of_nat (length (pack_genesis gs)).
Proof.
  unfold header_size, log_header. destruct (version =? 1); rewrite !length_app, !length_le_bytes; lia.
Qed.

Lemma construct_index_log version first gs bs : log_ok version first gs bs →
  construct_index version (log_bytes version first gs bs) = Ok (index_bytes version first gs bs).
Proof.
  intros Hok. unfold construct_index. rewrite read_last_log by done. go.
  pose proof (lo_size _ _ _ _ Hok) as Hs. rewrite <- end_of_log in Hs.
  assert (0 ≤ header_size version first gs) as H0 by (unfold header_size; lia).
  destruct (decide (bs = [])) as [->|Hne].
  { done. }
  destruct (last_pos_bounds _ bs Hne H0) as [Hl1 Hl2].
  rewrite (proj2 (Z.eqb_neq _ _)) by (unfold npos, u64_max; lia).
  assert (length bs ≤ length (log_bytes version first gs bs))%nat as Hfuel.
  { unfold log_bytes. rewrite length_app. pose proof (length_bs (header_size version first gs) bs). lia. }
  assert (∀ s before, s = mk_stream (header_size version first gs)
            (entries (header_size version first gs) bs) false → before < header_size version first gs →
          index_loop (S (length (log_bytes version first gs bs))) s before
            (last_pos (header_size version first gs) bs) [] = Ok (index_bytes version first gs bs)) as Hloop.
  { intros s before -> Hb. rewrite index_loop_entries; [done|done|done|done|lia|lia]. }
  pose proof (pack_genesis_nonempty gs) as Hg. rewrite <- length_zero_iff_nil in Hg.
  revert Hloop. generalize (S (length (log_bytes version first gs bs))) as fuel. intros fuel Hloop.
  unfold log_bytes, log_header.
  destruct (lo_version _ _ _ _ Hok) as [(-> & -> & _)| ->];
    rewrite header_size_eq in *; cbn [Z.eqb Pos.eqb Z.ltb Z.compare Pos.compare Pos.compare_cont] in *.
  - rewrite <- app_assoc, seekg_app by (rewrite ?length_le_bytes; lia). go.
    rewrite unpack_genesis_app. go. by apply Hloop; [|lia].
  - rewrite <- !app_assoc, (app_assoc (le_bytes 4 2)), seekg_app by (rewrite ?length_app, ?length_le_bytes; lia). go.
    rewrite unpack_genesis_app. go. rewrite read_or_throw_app by apply length_le_bytes. go.
    apply Hloop; [f_equal; lia|lia].
Qed.
Lemma log_bytes_start version first gs bs : version = 1 ∨ version = 2 →
  ∃ rest, log_bytes version first gs bs =
    le_bytes 4 version ++ (if version =? 1 then [] else le_bytes 4 first) ++ rest.
Proof.
  intros H. unfold log_bytes, log_header. destruct H as [-> | ->]; cbn [Z.eqb Pos.eqb];
    rewrite <- !app_assoc; by eexists.
Qed.

Lemma log_bytes_long version first gs bs : log_ok version first gs bs →
  (8 < length (log_bytes version first gs bs))%nat.
Proof.
  intros Hok. pose proof (pack_genesis_nonempty gs) as Hg. rewrite <- length_zero_iff_nil in Hg.
  pose proof (end_of_log version first gs bs) as E. unfold end_of in E. rewrite header_size_eq in E.
  destruct (lo_version _ _ _ _ Hok) as [(-> & -> & Hne)| ->]; cbn [Z.eqb Pos.eqb] in E; [|lia].
  pose proof (length_bs (4 + Z.of_nat (length (pack_genesis gs))) bs). destruct bs; [done|]. simpl in *. lia.
Qed.

Lemma read_head_log version first gs bs : log_ok version first gs bs →
  read_head (log_bytes version first gs bs) = Ok (last bs).
Proof.
  intros Hok. unfold read_head. pose proof (lo_size _ _ _ _ Hok) as Hs.
  rewrite (proj2 (Nat.leb_gt _ _)) by by apply log_bytes_long.
  rewrite read_last_log by done. go. destruct (last bs) as [b|] eqn:E.
  - apply last_Some in E as [bs0 ->]. rewrite last_pos_snoc, end_of_log.
    destruct (read_block_at version first gs bs0 b [] Hs) as [next Er].
    rewrite log_bytes_snoc, length_app in Hs.
    rewrite bool_decide_true by (unfold npos, u64_max; lia). by rewrite Er.
  - apply last_None in E as ->. done.
Qed.

Lemma last_pos_app pos bs1 bs2 : bs1 ≠ [] → bs2 ≠ [] → 0 ≤ pos → last_pos pos bs1 < last_pos pos (bs1 ++ bs2).
Proof.
  intros H1 H2 Hp. destruct (last_pos_bounds pos bs1 H1 Hp) as [_ Hlt].
  assert (0 ≤ end_of pos bs1) as He by (unfold end_of; lia).
  destruct (last_pos_bounds (end_of pos bs1) bs2 H2 He) as [Hle _].
  enough (last_pos pos (bs1 ++ bs2) = last_pos (end_of pos bs1) bs2) by lia.
  unfold last_pos. rewrite positions_app, last_app.
  destruct (last (positions _ bs2)) eqn:E; [done|]. apply last_None in E.
  apply (f_equal length) in E. rewrite length_positions in E. by destruct bs2.
Qed.

(** The index of an earlier or a later state of the same log. *)
Definition index_of_other (version first : Z) gs bs (index : list Z) : Prop :=
  ∃ bs', index = index_bytes version first gs bs' ∧ (bs' `prefix_of` bs ∨ bs `prefix_of` bs') ∧
    Z.of_nat (length (log_bytes version first gs bs')) < 2 ^ 63.

Lemma read_last_index version first gs bs b :
  Z.of_nat (length (log_bytes version first gs (bs ++ [b]))) < 2 ^ 63 →
  read_last (index_bytes version first gs (bs ++ [b])) = Ok (last_pos (header_size version first gs) (bs ++ [b])).
Proof.
  rewrite log_bytes_snoc, length_app. intros H. rewrite index_bytes_snoc, last_pos_snoc, end_of_log.
  apply read_last_app. lia.
Qed.

(** A different length of the index shows in its last position. *)
Lemma last_pos_differs pos bs bs' : 0 ≤ pos → end_of pos bs < 2 ^ 63 → end_of pos bs' < 2 ^ 63 →
  bs' ≠ [] → bs' `prefix_of` bs ∨ bs `prefix_of` bs' → last_pos pos bs = last_pos pos bs' → bs = bs'.
Proof.
  intros Hp He He' Hne Hpre E. destruct (decide (bs = [])) as [->|Hne'].
  { destruct (last_pos_bounds pos bs' Hne Hp) as [_ Hb]. unfold last_pos at 1 in E. simpl in E.
    unfold npos, u64_max in E. lia. }
  destruct Hpre as [[k ->]|[k ->]]; (destruct k as [|b k]; [by rewrite app_nil_r|]); exfalso.
  - pose proof (last_pos_app pos bs' (b :: k) Hne ltac:(done) Hp). lia.
  - pose proof (last_pos_app pos bs (b :: k) Hne' ltac:(done) Hp). lia.
Qed.

Lemma index_restored version first gs bs index : log_ok version first gs bs →
  index = [] ∨ index_of_other version first gs bs index →
  check_index version (log_bytes version first gs bs) index = Ok (index_bytes version first gs bs).
Proof.
  intros Hok Hidx. unfold check_index. rewrite construct_index_log, read_last_log by done.
  destruct Hidx as [->|(bs' & -> & Hpre & Hs')]; [done|]. rewrite length_index.
  destruct (last bs') as [b'|] eqn:E; [|by apply last_None in E as ->].
  apply last_Some in E as [bs0 ->]. rewrite (proj2 (Nat.eqb_neq _ _)) by (rewrite length_app; simpl; lia).
  go. rewrite read_last_index by done. go.
  destruct (Z.ltb_spec (last_pos (header_size version first gs) bs)
                       (last_pos (header_size version first gs) (bs0 ++ [b']))); [done|].
  destruct (Z.ltb_spec (last_pos (header_size version first gs) (bs0 ++ [b']))
                       (last_pos (header_size version first gs) bs)); [done|].
  rewrite (last_pos_differs (header_size version first gs) bs (bs0 ++ [b'])); [done|..].
  - unfold header_size. lia.
  - rewrite end_of_log. apply Hok.
  - by rewrite end_of_log.
  - by destruct bs0.
  - done.
  - lia.
Qed.

Lemma open_holding version first gs bs index : log_ok version first gs bs →
  index = [] ∨ index_of_other version first gs bs index →
  open_log (log_bytes version first gs bs) index = Ok (holding version first gs bs).
Proof.
  intros Hok Hidx. unfold open_log. pose proof (log_bytes_long _ _ _ _ Hok).
  rewrite (proj2 (Nat.eqb_neq _ _)) by lia.
  assert (version = 1 ∨ version = 2) as Hv by (destruct (lo_version _ _ _ _ Hok); naive_solver).
  pose proof (lo_first _ _ _ _ Hok) as Hf.
  rewrite read_head_log by done. pose proof (index_restored _ _ _ _ _ Hok Hidx) as Hi.
  destruct (log_bytes_start version first gs bs Hv) as [rest Es].
  change (seekg ?l 0) with (Ok (mk_stream 0 l false)). go. rewrite Es, read_or_throw_app by apply length_le_bytes. go.
  rewrite le_word_bytes by (unfold in_u; change (2 ^ (8 * Z.of_nat 4)) with (2 ^ 32); lia).
  destruct (lo_version _ _ _ _ Hok) as [(-> & -> & _)| ->]; cbn [Z.eqb Pos.eqb] in Es |- *.
  - cbn [Z.ltb Z.leb Z.compare Pos.compare Pos.compare_cont andb EOS_ASSERT min_supported_version
         max_supported_version]. go. rewrite <- Es, Hi. done.
  - cbn [Z.ltb Z.leb Z.compare Pos.compare Pos.compare_cont andb EOS_ASSERT min_supported_version
         max_supported_version]. go.
    rewrite read_or_throw_app by apply length_le_bytes. go.
    rewrite le_word_bytes by (unfold in_u; change (2 ^ (8 * Z.of_nat 4)) with (2 ^ 32); lia).
    rewrite (proj2 (Z.ltb_lt _ _)) by lia. cbn [EOS_ASSERT]. go. rewrite <- Es, Hi. done.
Qed.
(** ** A new log *)

Lemma reset_empty gs first : reset gs None first = Ok (holding 2 first gs []).
Proof. unfold reset, holding, log_bytes. cbn [entries]. by rewrite app_nil_r. Qed.

Lemma reset_first gs b first : 0 < first < 2 ^ 32 → header_block_num b = first →
  reset gs (Some b) first = Ok (holding 2 first gs [b]).
Proof.
  intros Hf Hb. unfold reset, append.
  cbn [genesis_written_to_block_log block_file index_file first_block_num log_version EOS_ASSERT].
  rewrite Hb, Z.sub_diag. change (EOS_ASSERT (Z.of_nat (length []) =? u64 (8 * u32 0)) _) with (@Ok unit tt).
  go. cbn [log_head log_head_id block_file index_file first_block_num].
  set (pos := Z.of_nat (length (le_bytes 4 0 ++ _))).
  assert (header_size 2 first gs = pos) as Hpos.
  { rewrite header_size_eq. unfold pos. rewrite !length_app, !length_le_bytes. cbn [Z.eqb Pos.eqb]. lia. }
  unfold holding, log_bytes, index_bytes. rewrite Hpos. cbn [last positions entries mbind list_bind].
  rewrite !app_nil_r, <- !app_assoc, drop_app_length' by by rewrite length_le_bytes.
  unfold log_header, entry. cbn [Z.eqb Pos.eqb]. by rewrite <- !app_assoc.
Qed.

(** ** Repair *)

Lemma repair_stops fuel stop s end_pos pos new : end_pos ≤ pos →
  repair_loop (S fuel) stop s end_pos pos new = Ok (new, []).
Proof. intros H. cbn [repair_loop]. by rewrite (proj2 (Z.ltb_ge _ _)). Qed.

Lemma read_over_failed old pos l : read_over old (mk_stream pos l true) = (old, mk_stream pos l true).
Proof. done. Qed.

(** An entry of which some bytes are missing ends the loop. *)
Lemma repair_partial fuel stop pos b room new end_pos :
  0 ≤ pos → (0 < room < entry_size b)%nat → end_pos = pos + Z.of_nat room → end_pos < 2 ^ 63 →
  ∃ bad, repair_loop (S fuel) stop (mk_stream pos (take room (entry pos b)) false) end_pos pos new = Ok (new, bad).
Proof.
  intros Hp Hroom -> Hend. cbn [repair_loop]. rewrite (proj2 (Z.ltb_lt _ _)) by lia.
  assert (bool_decide (pos ≠ le_word (le_bytes 8 u64_max)) = true) as Hmax.
  { rewrite le_word_8 by by right. apply bool_decide_true. unfold u64_max. lia. }
  destruct (decide (room < length (pack_block b))%nat) as [Hlt|Hge].
  - unfold entry. rewrite take_app_le by lia. cbn [ahead].
    destruct (unpack_block _) as [b' rest|b'|e rest] eqn:E; [by apply unpack_part_of_block in E| |by eexists].
    exists []. rewrite read_over_failed. destruct (_ <=? _); by rewrite Hmax.
  - unfold entry. rewrite take_app_ge by lia. cbn [ahead]. rewrite unpack_pack_block, moved_past.
    cbn [tellg failed at_pos]. unfold entry_size in Hroom. 
    rewrite (wrap_small 64 (pos + Z.of_nat (length (pack_block b)))), (wrap_small 64) by (unfold in_u; lia).
    rewrite (proj2 (Z.leb_gt _ _)) by lia. rewrite Hmax. by eexists.
Qed.

Lemma repair_loop_entries fuel stop pos bs room new end_pos :
  0 ≤ pos → Z.of_nat (length new) = pos → (length (take room (entries pos bs)) < fuel)%nat →
  end_pos = pos + Z.of_nat (length (take room (entries pos bs))) → end_pos < 2 ^ 63 →
  ∃ bad, repair_loop fuel stop (mk_stream pos (take room (entries pos bs)) false) end_pos pos new =
    Ok (new ++ entries pos (whole room stop bs), bad).
Proof.
  revert fuel pos room new. induction bs as [|b bs IH]; intros fuel pos room new Hp Hnew Hfuel He Hend;
    (destruct fuel as [|fuel]; [lia|]).
  { exists []. rewrite repair_stops; [by rewrite app_nil_r|]. rewrite He. simpl. rewrite take_nil. simpl. lia. }
  assert (length (entry pos b) = entry_size b) as Hlen
    by (unfold entry, entry_size; by rewrite length_app, length_le_bytes).
  cbn [entries whole] in *. destruct (Nat.leb_spec (entry_size b) room) as [Hle|Hlt].
  - rewrite take_app_ge in He, Hfuel |- * by lia. rewrite Hlen in He, Hfuel |- *. rewrite length_app in He, Hfuel.
    set (tail := take _ (entries _ bs)) in *. cbn [repair_loop].
    rewrite (proj2 (Z.ltb_lt _ _)) by (unfold entry_size in Hlen; lia).
    unfold entry. rewrite <- app_assoc. cbn [ahead]. rewrite unpack_pack_block, moved_past.
    cbn [tellg failed at_pos]. unfold entry_size in Hlen. 
    rewrite (wrap_small 64 (pos + Z.of_nat (length (pack_block b)))), (wrap_small 64) by (unfold in_u; lia).
    rewrite (proj2 (Z.leb_le _ _)) by lia. unfold read_over. rewrite length_le_bytes.
    rewrite read_app by apply length_le_bytes. rewrite length_le_bytes, drop_ge, app_nil_r by (by rewrite length_le_bytes).
    rewrite le_word_8, bool_decide_false by (try tauto; lia).
    cbn [entries]. destruct (_ =? stop); [exists []; cbn [entries]; unfold entry; by rewrite app_nil_r, <- !app_assoc|].
    destruct (IH fuel (pos + Z.of_nat (entry_size b)) (room - entry_size b)%nat
                ((new ++ pack_block b) ++ le_bytes 8 pos)) as [bad Hbad];
      [unfold entry_size; lia| |fold tail; lia| |done|].
    + rewrite !length_app, length_le_bytes. unfold entry_size. lia.
    + fold tail. unfold entry_size. lia.
    + exists bad. fold tail in Hbad.
      assert (∀ l, new ++ (pack_block b ++ le_bytes 8 pos) ++ l = ((new ++ pack_block b) ++ le_bytes 8 pos) ++ l) as El
        by (intros l; by rewrite <- !app_assoc).
      unfold entry. rewrite El, <- Hbad. f_equal.
      * unfold entry_size. f_equal. lia.
      * rewrite !length_app, length_le_bytes. unfold entry_size. lia.
  - rewrite app_nil_r. rewrite take_app_le in He |- * by lia.
    destruct room as [|room]; [exists []; apply repair_stops; simpl in He; lia|].
    apply repair_partial; [done|lia| |done]. rewrite He, length_take. lia.
Qed.
Lemma read_over_app old l1 l2 pos : length l1 = length old →
  read_over old (mk_stream pos (l1 ++ l2) false) = (l1, mk_stream (pos + Z.of_nat (length old)) l2 false).
Proof.
  intros H. unfold read_over. rewrite read_app by done.
  rewrite drop_ge by (by rewrite H). by rewrite app_nil_r.
Qed.

Lemma read_version_app version l : version = 1 ∨ version = 2 →
  read_version (mk_stream 0 (le_bytes 4 version ++ l) false) = Ok (version, mk_stream 4 l false).
Proof.
  intros H. unfold read_version. rewrite read_over_app, !length_le_bytes by by rewrite !length_le_bytes.
  destruct H as [-> | ->]; done.
Qed.

Lemma unpack_quietly_genesis gs l pos :
  unpack_quietly unpack_genesis (mk_stream pos (pack_genesis gs ++ l) false) =
  Ok (gs, mk_stream (pos + Z.of_nat (length (pack_genesis gs))) l false).
Proof. unfold unpack_quietly. simpl. rewrite unpack_pack_genesis. by rewrite moved_past. Qed.

(** Whatever is missing at the end of the log, the repaired log is the log of
    the blocks that are completely in it. *)
Lemma repair_prefix version first gs bs n stop : log_ok version first gs bs →
  header_size version first gs ≤ Z.of_nat n →
  ∃ bad, repair_log (Some (take n (log_bytes version first gs bs))) false stop =
    Ok (mk_repaired (log_bytes version first gs
          (whole (n - length (log_header version first gs)) stop bs)) bad).
Proof.
  intros Hok Hn. pose proof (lo_size _ _ _ _ Hok) as Hs. unfold log_bytes in *. rewrite length_app in Hs.
  rewrite take_app_ge by (unfold header_size in Hn; lia). set (room := (n - _)%nat).
  assert (header_size version first gs < 2 ^ 63) as Hh by (unfold header_size; lia).
  destruct (repair_loop_entries
    (S (length (log_header version first gs ++ take room (entries (header_size version first gs) bs))))
    stop (header_size version first gs) bs room (log_header version first gs)
    (Z.of_nat (length (log_header version first gs ++ take room (entries (header_size version first gs) bs)))))
    as [bad Hloop].
  { unfold header_size. lia. }
  { done. }
  { rewrite length_app. lia. }
  { rewrite length_app. unfold header_size. lia. }
  { rewrite length_app, length_take. lia. }
  exists (if (0 <? length bad)%nat then Some bad else None).
  unfold repair_log. cbn [of_option EOS_ASSERT negb]. go. revert Hloop.
  generalize (length (log_header version first gs ++ take room (entries (header_size version first gs) bs))) as len.
  intros len. generalize (take room (entries (header_size version first gs) bs)) as tl. intros tl Hloop.
  assert (∀ s new, s = mk_stream (header_size version first gs) tl false → new = log_header version first gs →
    repair_loop (S len) stop s (Z.of_nat len) (u64 (tellg s)) new = 
    Ok (log_header version first gs ++
          entries (header_size version first gs) (whole room stop bs), bad)) as Hrun.
  { intros s new -> ->. cbn [tellg failed at_pos]. rewrite wrap_small; [done|]. unfold in_u, header_size in *. lia. }
  clear Hloop. rewrite header_size_eq in *. unfold log_header at 1.
  destruct (lo_version _ _ _ _ Hok) as [(-> & -> & _)| ->]; cbn [Z.eqb Pos.eqb negb] in *; rewrite <- !app_assoc.
  - rewrite read_version_app by by left. go. cbn [Z.eqb Pos.eqb negb]. rewrite app_nil_r, unpack_quietly_genesis. go.
    rewrite app_nil_r, Hrun; done.
  - rewrite read_version_app by by right. go. cbn [Z.eqb Pos.eqb negb].
    rewrite read_over_app by by rewrite !length_le_bytes. rewrite length_le_bytes, unpack_quietly_genesis. go.
    rewrite read_app by apply length_le_bytes. rewrite length_le_bytes, le_word_8 by by right.
    cbn [Nat.eqb EOS_ASSERT]. go. rewrite Z.eqb_refl. cbn [EOS_ASSERT]. go.
    rewrite Hrun; [done|f_equal; lia|]. unfold log_header. cbn [Z.eqb Pos.eqb]. by rewrite <- !app_assoc.
Qed.

Lemma extract_genesis version first gs bs : log_ok version first gs bs →
  extract_genesis_state (Some (log_bytes version first gs bs)) = Ok gs.
Proof.
  intros Hok. unfold extract_genesis_state, log_bytes, log_header. cbn [of_option]. go.
  destruct (lo_version _ _ _ _ Hok) as [(-> & -> & _)| ->]; cbn [Z.eqb Pos.eqb]; rewrite <- !app_assoc.
  - rewrite read_version_app by by left. go. cbn [Z.eqb Pos.eqb negb]. by rewrite unpack_quietly_genesis.
  - rewrite read_version_app by by right. go. cbn [Z.eqb Pos.eqb negb].
    rewrite read_over_app by by rewrite !length_le_bytes. cbn [snd]. by rewrite unpack_quietly_genesis.
Qed.

Lemma whole_spec room stop bs : (∀ b, b ∈ bs → header_block_num b ≠ stop) →
  whole room stop bs `prefix_of` bs ∧ (sum_list_with entry_size (whole room stop bs) ≤ room)%nat ∧
  ∀ b, whole room stop bs ++ [b] `prefix_of` bs →
    (room < sum_list_with entry_size (whole room stop bs ++ [b]))%nat.
Proof.
  revert room. induction bs as [|b bs IH]; intros room Hstop.
  { split; [done|]. split; [simpl; lia|]. intros b Hb. by apply prefix_nil_inv in Hb. }
  cbn [whole]. destruct (Nat.leb_spec (entry_size b) room) as [Hle|Hlt].
  - rewrite (proj2 (Z.eqb_neq _ _)) by (apply Hstop; left).
    destruct (IH (room - entry_size b)%nat) as (H1 & H2 & H3); [intros; apply Hstop; by right|].
    split; [by apply prefix_cons|]. split; [simpl; lia|]. intros b' Hb'.
    apply prefix_cons_inv_2 in Hb'. apply H3 in Hb'. simpl. lia.
  - split; [apply prefix_nil|]. split; [simpl; lia|]. intros b' Hb'.
    apply prefix_cons_inv_1 in Hb' as ->. simpl. lia.
Qed.
(** ** Any files *)

Definition ends {A} (r : result A) : Prop := r ≠ Throw out_of_fuel.

Lemma ends_bind {A B} (m : result A) (f : A → result B) :
  ends m → (∀ a, m = Ok a → ends (f a)) → ends (m ≫= f).
Proof. unfold ends. destruct m; simpl; naive_solver. Qed.

Lemma ends_ASSERT c e : e ≠ out_of_fuel → ends (EOS_ASSERT c e).
Proof. destruct c; unfold ends; simpl; congruence. Qed.

Lemma read_or_throw_spec n s bytes s' : read_or_throw n s = Ok (bytes, s') →
  failed s' = false ∧ length (ahead s) = (n + length (ahead s'))%nat.
Proof.
  unfold read_or_throw, read. destruct (failed s) eqn:Ef; [simpl; rewrite Ef; done|].
  destruct (Nat.leb_spec n (length (ahead s))); simpl; [|done].
  intros [= <- <-]. simpl. split; [done|]. rewrite length_drop. lia.
Qed.

Lemma read_or_throw_ends n s : ends (read_or_throw n s).
Proof. unfold read_or_throw. destruct (read n s). destruct (failed s0); done. Qed.

Lemma unpack_block_ends s : ends (unpack_or_throw unpack_block s).
Proof.
  unfold unpack_or_throw. destruct (unpack_block _) eqn:E; [done..|].
  intros [= ->]. by apply unpack_block_raises in E.
Qed.

Lemma unpack_genesis_ends s : ends (unpack_or_throw unpack_genesis s).
Proof.
  unfold unpack_or_throw. destruct (unpack_genesis _) eqn:E; [done..|].
  intros [= ->]. by apply unpack_genesis_raises in E.
Qed.

Lemma index_loop_ends fuel s pos end_pos index : (length (ahead s) < fuel)%nat →
  ends (index_loop fuel s pos end_pos index).
Proof.
  revert s pos index. induction fuel as [|fuel IH]; intros s pos index Hf; [lia|]. cbn [index_loop].
  destruct (pos <? end_pos); [|done]. apply ends_bind; [apply unpack_block_ends|]. intros [b s1] H1.
  apply ends_bind; [apply read_or_throw_ends|]. intros [bytes s2] H2. apply IH.
  apply read_or_throw_spec in H2 as [_ H2]. unfold unpack_or_throw in H1.
  destruct (unpack_block _) eqn:E; [|done..]. simplify_eq. apply unpack_block_shorter in E. simpl in H2. lia.
Qed.
Lemma seekg_ends file pos : ends (seekg file pos).
Proof. apply ends_bind; [by apply ends_ASSERT|done]. Qed.

Lemma read_last_ends file : ends (read_last file).
Proof. apply ends_bind; [by apply ends_ASSERT|done]. Qed.

Lemma read_block_ends file pos : ends (read_block file pos).
Proof.
  apply ends_bind; [apply seekg_ends|]. intros s _. apply ends_bind; [apply unpack_block_ends|].
  by intros [b s'] _.
Qed.

Lemma construct_index_ends version file : ends (construct_index version file).
Proof.
  apply ends_bind; [apply read_last_ends|]. intros end_pos _. destruct (end_pos =? npos); [done|].
  apply ends_bind; [apply seekg_ends|]. intros s Hs.
  apply ends_bind; [apply unpack_genesis_ends|]. intros [g s1] Hg.
  assert (length (ahead s1) ≤ length file)%nat as H1.
  { unfold seekg in Hs. apply bind_Ok in Hs as (_ & _ & Hs). simplify_eq. unfold unpack_or_throw in Hg. simpl in Hg.
    destruct (unpack_genesis _) eqn:E; [|done..]. simplify_eq. apply unpack_genesis_shorter in E.
    rewrite length_drop in E. simpl. lia. }
  destruct (1 <? version); [|apply index_loop_ends; lia].
  apply ends_bind; [apply ends_bind; [apply read_or_throw_ends|by intros []]|]. intros s2 H2.
  apply bind_Ok in H2 as ([bytes s3] & H3%read_or_throw_spec & H2). simplify_eq. apply index_loop_ends. lia.
Qed.

Lemma check_index_ends version blocks index : ends (check_index version blocks index).
Proof.
  unfold check_index. destruct (length index =? 0)%nat; [apply construct_index_ends|].
  apply ends_bind; [apply read_last_ends|]. intros p _. apply ends_bind; [apply read_last_ends|]. intros q _.
  destruct (p <? q); [apply construct_index_ends|]. destruct (q <? p); [apply construct_index_ends|done].
Qed.

Lemma open_log_ends blocks index : ends (open_log blocks index).
Proof.
  unfold open_log. destruct (length blocks =? 0)%nat; [done|].
  apply ends_bind; [apply seekg_ends|]. intros s _. apply ends_bind; [apply read_or_throw_ends|]. intros [bytes s1] _.
  apply ends_bind; [by apply ends_ASSERT|]. intros _ _. apply ends_bind; [by apply ends_ASSERT|]. intros _ _.
  apply ends_bind.
  { destruct (1 <? le_word bytes); [|done]. apply ends_bind; [apply read_or_throw_ends|]. intros [bs s2] _.
    apply ends_bind; [by apply ends_ASSERT|done]. }
  intros first _. apply ends_bind.
  { unfold read_head. destruct (length blocks <=? 8)%nat; [done|].
    apply ends_bind; [apply read_last_ends|]. intros p _. destruct (bool_decide _); [|done].
    apply ends_bind; [apply read_block_ends|by intros []]. }
  intros head _. apply ends_bind; [apply check_index_ends|done].
Qed.

Lemma repair_loop_ends fuel stop s end_pos pos new :
  failed s = false → 0 ≤ at_pos s → at_pos s + Z.of_nat (length (ahead s)) = end_pos → end_pos < 2 ^ 63 →
  (length (ahead s) < fuel)%nat → ends (repair_loop fuel stop s end_pos pos new).
Proof.
  revert s pos new. induction fuel as [|fuel IH]; intros s pos new Hfail Hp He Hend Hf; [lia|]. cbn [repair_loop].
  destruct (Z.ltb_spec pos end_pos) as [Hlt|]; [|done].
  assert (bool_decide (pos ≠ le_word (le_bytes 8 u64_max)) = true) as Hmax.
  { rewrite le_word_8 by by right. apply bool_decide_true. unfold u64_max. lia. }
  destruct (unpack_block (ahead s)) as [b rest|b|e rest] eqn:E; [| |done].
  - apply unpack_block_shorter in E. unfold moved_to. rewrite Hfail. cbn [tellg failed at_pos].
    rewrite (wrap_small 64 (at_pos s + _)), (wrap_small 64) by (unfold in_u; lia).
    destruct (Z.leb_spec (at_pos s + Z.of_nat (length (ahead s) - length rest) + 8) end_pos); [|by rewrite Hmax].
    unfold read_over, read. rewrite length_le_bytes. cbn [failed ahead at_pos].
    rewrite (proj2 (Nat.leb_le _ _)) by lia.
    clear Hmax. destruct (bool_decide _); [done|]. destruct (_ =? stop); [done|].
    apply IH; cbn [failed at_pos ahead]; [done|lia| |done|]; rewrite length_drop; lia.
  - rewrite read_over_failed. destruct (_ <=? end_pos); by rewrite Hmax.
Qed.
(** A stream that has not failed has the rest of the file ahead. *)
Definition tracked (end_pos : Z) (s : stream) : Prop :=
  failed s = true ∨ (0 ≤ at_pos s ∧ at_pos s + Z.of_nat (length (ahead s)) = end_pos).

Lemma read_tracked end_pos n s : tracked end_pos s → tracked end_pos (read n s).2.
Proof.
  intros H. unfold read. destruct (failed s) eqn:Ef; [by simpl|].
  destruct H as [H|[Hp He]]; [congruence|].
  destruct (Nat.leb_spec n (length (ahead s))); simpl; [right|by left]. simpl. rewrite length_drop. lia.
Qed.

Lemma read_over_tracked end_pos old s : tracked end_pos s → tracked end_pos (read_over old s).2.
Proof.
  intros H%(read_tracked end_pos (length old)). unfold read_over. by destruct (read (length old) s).
Qed.

Lemma unpack_genesis_tracked end_pos s g s' : tracked end_pos s →
  unpack_quietly unpack_genesis s = Ok (g, s') → tracked end_pos s'.
Proof.
  unfold unpack_quietly. intros H E. destruct (unpack_genesis _) eqn:Eu; [..|done]; simplify_eq; [|by left].
  apply unpack_genesis_shorter in Eu. destruct H as [H|[? ?]]; [left; done|right]. simpl. lia.
Qed.

Lemma read_version_spec end_pos s : tracked end_pos s →
  ends (read_version s) ∧ ∀ v s', read_version s = Ok (v, s') → tracked end_pos s'.
Proof.
  intros H%(read_over_tracked end_pos (le_bytes 4 0)). unfold read_version.
  destruct (read_over (le_bytes 4 0) s) as [bytes s1]. split.
  - apply ends_bind; [by apply ends_ASSERT|]. intros _ _. apply ends_bind; [by apply ends_ASSERT|done].
  - intros v s' E. res_inv. simplify_eq. done.
Qed.

Lemma repair_log_ends found backup stop : (∀ file, found = Some file → Z.of_nat (length file) < 2 ^ 63) →
  ends (repair_log found backup stop).
Proof.
  intros Hsize. apply ends_bind; [by destruct found|]. intros file Hfile%of_option_Ok. specialize (Hsize _ Hfile).
  apply ends_bind; [by apply ends_ASSERT|]. intros _ _.
  destruct (read_version_spec (Z.of_nat (length file)) (mk_stream 0 file false)) as [Hv1 Hv2]; [right; simpl; lia|].
  apply ends_bind; [done|]. intros [version s1] H1%Hv2.
  destruct (if negb (version =? 1) then read_over (le_bytes 4 1) s1 else ([], s1)) as [first s2] eqn:E2.
  assert (tracked (Z.of_nat (length file)) s2) as H2.
  { destruct (negb _); [|congruence]. apply (read_over_tracked _ (le_bytes 4 1)) in H1. by rewrite E2 in H1. }
  apply ends_bind.
  { unfold unpack_quietly. destruct (unpack_genesis _) eqn:E; [done..|]. intros [= ->]. by apply unpack_genesis_raises in E. }
  intros [g s3] H3. apply (unpack_genesis_tracked _ _ _ _ H2) in H3.
  apply (read_tracked _ 8) in H3 as H4. destruct (read 8 s3) as [actual s4] eqn:E4.
  apply ends_bind.
  { destruct (negb _); [|done]. apply ends_bind; [by apply ends_ASSERT|]. intros _ _.
    apply ends_bind; [by apply ends_ASSERT|done]. }
  intros [totem s5] H5. assert (tracked (Z.of_nat (length file)) s5) as Hs5.
  { destruct (negb _); res_inv; simplify_eq; done. }
  apply ends_bind; [|by intros []]. destruct (failed s5) eqn:Ef.
  - unfold tellg. rewrite Ef. rewrite repair_stops; [done|]. change (u64 (-1)) with (2 ^ 64 - 1). lia.
  - destruct Hs5 as [?|[? ?]]; [congruence|]. apply repair_loop_ends; [done..|lia].
Qed.

(** ** Theorems *)

(** C0.  The block log is a list of consecutive blocks.  A new log holds
    nothing, or the block it is started with.  In a log that holds [bs] the
    next block is added at the end, and every other block is refused with
    [block_log_append_fail]; a block is found under its number, and under
    other numbers nothing is; and the log that is opened from the two files
    holds the same blocks, also when the index is absent or is the one of an
    earlier or of a later state of the log.  The genesis state is read back
    from the file. *)
Theorem block_log_refines version first gs bs :
  log_ok version first gs bs → first + Z.of_nat (length bs) < 2 ^ 32 →
  reset gs None first = Ok (holding 2 first gs []) ∧
  (∀ b, header_block_num b = first → reset gs (Some b) first = Ok (holding 2 first gs [b])) ∧
  (∀ b, append (holding version first gs bs) b =
     if decide (header_block_num b = first + Z.of_nat (length bs))
     then Ok (Z.of_nat (length (log_bytes version first gs bs)), holding version first gs (bs ++ [b]))
     else Throw block_log_append_fail) ∧
  (∀ n, in_u 32 n → read_block_by_num (holding version first gs bs) n =
     Ok (if first <=? n then bs !! Z.to_nat (n - first) else None)) ∧
  (∀ index, index = [] ∨ index_of_other version first gs bs index →
     open_log (log_bytes version first gs bs) index = Ok (holding version first gs bs)) ∧
  extract_genesis_state (Some (log_bytes version first gs bs)) = Ok gs.
Proof.
  intros Hok Hr. split; [apply reset_empty|]. split.
  { intros b Hb. apply reset_first; [apply Hok|done]. }
  split; [intros b; apply append_holding; [apply Hok|done]|]. split; [intros n; by apply read_by_num_holding|].
  split; [intros index; by apply open_holding|by apply extract_genesis].
Qed.

(** C0.  Repair after a crash.  Of a log whose file was cut at any byte after
    the header, [repair_log] makes a new log of exactly the blocks whose
    entries are complete: the longest such list, so that no block that was
    completely written is lost.  The new log opens and holds these blocks (in
    a log of version 1 there must be one). *)
Theorem repair_keeps_whole_blocks version first gs bs n :
  log_ok version first gs bs → header_size version first gs ≤ Z.of_nat n →
  ∃ kept r, repair_log (Some (take n (log_bytes version first gs bs))) false 0 = Ok r ∧
    new_log r = log_bytes version first gs kept ∧
    kept `prefix_of` bs ∧ (length (log_bytes version first gs kept) ≤ n)%nat ∧
    (∀ b, kept ++ [b] `prefix_of` bs → (n < length (log_bytes version first gs (kept ++ [b])))%nat) ∧
    (version = 2 ∨ kept ≠ [] → open_log (new_log r) [] = Ok (holding version first gs kept)).
Proof.
  intros Hok Hn. destruct (repair_prefix version first gs bs n 0 Hok Hn) as [bad Hr].
  set (room := (n - length (log_header version first gs))%nat) in *.
  destruct (whole_spec room 0 bs) as (Hpre & Hfit & Hmax).
  { intros b [i Hi]%list_elem_of_lookup. apply (lo_numbers _ _ _ _ Hok) in Hi. rewrite Hi.
    pose proof (lo_first _ _ _ _ Hok). lia. }
  assert (∀ l, length (log_bytes version first gs l) =
               (length (log_header version first gs) + sum_list_with entry_size l)%nat) as Hlen.
  { intros l. unfold log_bytes. by rewrite length_app, length_entries. }
  unfold header_size in Hn. eexists (whole room 0 bs), _. split; [exact Hr|]. split; [done|]. split; [done|].
  split; [rewrite Hlen; lia|]. split; [intros b Hb%Hmax; rewrite Hlen; lia|].
  intros Hv. apply open_holding; [|by left]. destruct Hpre as [rest Hpre].
  destruct Hok as [Hv' Hf Hnum Hs]. split; [naive_solver|done| |].
  - intros i b Hi. apply Hnum. rewrite Hpre. by apply lookup_app_l_Some.
  - rewrite Hpre, Hlen, sum_list_with_app in Hs. rewrite Hlen. lia.
Qed.

(** C0.  Whatever the two files contain, opening the log and repairing it
    come to an end: the loops that rebuild the index and that copy the blocks
    read at least eight bytes in every round. *)
Theorem damaged_logs_end blocks index found backup stop :
  (∀ file, found = Some file → Z.of_nat (length file) < 2 ^ 63) →
  open_log blocks index ≠ Throw out_of_fuel ∧ repair_log found backup stop ≠ Throw out_of_fuel.
Proof. intros H. split; [apply open_log_ends|by apply repair_log_ends]. Qed.
End log_theory.
