(* ===== verification/LogExamples.v ===== *)
(** * A concrete block log

    A packing of blocks that is complete and free of prefixes, with the laws
    that [BlockLog] asks for, and a log of three blocks on it. *)

From S2P Require Import Prelude Merkle BlockHeader ForkDatabase HeaderExamples BlockLog.
Local Open Scope Z_scope.

(** ** Packing through the number of a value, between two marks *)

Definition pack_marked {A} `{Countable A} (a : A) : list Z := [1; Z.pos (encode a); 2].

Definition unpack_marked {A} `{Countable A} (d : A) (l : list Z) : unpacked A :=
  match l with
  | 1 :: Z.pos p :: 2 :: rest =>
      match decode p with Some a => Unpacked a rest | None => Raised fc_assert_exception rest end
  | _ :: _ :: _ :: rest => Raised fc_assert_exception rest
  | _ => Exhausted d
  end.

Lemma unpack_pack_marked {A} `{Countable A} (d a : A) rest :
  unpack_marked d (pack_marked a ++ rest) = Unpacked a rest.
Proof. simpl. by rewrite decode_encode. Qed.

Lemma unpack_part_of_marked {A} `{Countable A} (d a a' : A) n rest : (n < length (pack_marked a))%nat →
  unpack_marked d (take n (pack_marked a)) ≠ Unpacked a' rest.
Proof. intros Hn. destruct n as [|[|[|n]]]; simpl in *; [done..|lia]. Qed.

Lemma unpack_marked_case {A} `{Countable A} (d : A) l :
  unpack_marked d l = Exhausted d ∨
  ∃ x y z rest, l = x :: y :: z :: rest ∧
    (unpack_marked d l = Raised fc_assert_exception rest ∨ ∃ a, unpack_marked d l = Unpacked a rest).
Proof.
  destruct l as [|x [|y [|z rest]]]; [left; unfold unpack_marked; by repeat case_match..|]. right. exists x, y, z, rest. split; [done|].
  unfold unpack_marked. repeat case_match; eauto.
Qed.

Lemma unpack_marked_shorter {A} `{Countable A} (d a : A) l rest :
  unpack_marked d l = Unpacked a rest → (length rest ≤ length l)%nat.
Proof.
  intros E. destruct (unpack_marked_case d l) as [?|(x & y & z & r & -> & [?|[a' ?]])]; try congruence.
  assert (rest = r) as -> by congruence. simpl. lia.
Qed.

Lemma unpack_marked_raises {A} `{Countable A} (d : A) l e rest :
  unpack_marked d l = Raised e rest → e ≠ out_of_fuel.
Proof.
  intros E. destruct (unpack_marked_case d l) as [?|(x & y & z & r & -> & [?|[a' ?]])]; congruence.
Qed.

(** ** Blocks *)

#[export] Instance producer_key_countable : Countable producer_key.
Proof.
  refine (inj_countable' (λ p, (producer_name p, block_signing_key p))
            (λ '(a, b), mk_producer_key a b) _). by intros [].
Defined.

#[export] Instance schedule_countable : Countable producer_schedule_type.
Proof.
  refine (inj_countable' (λ s, (version s, producers s)) (λ '(a, b), mk_schedule a b) _). by intros [].
Defined.

#[export] Instance header_countable : Countable block_header.
Proof.
  refine (inj_countable'
    (λ h, (timestamp h, producer h, confirmed h, previous h,
           (transaction_mroot h, action_mroot h, schedule_version h, new_producers h, header_extensions h)))
    (λ '(a, b, c, d, (e, f, g, h, i)), mk_block_header a b c d e f g h i) _). by intros [].
Defined.

#[export] Instance signed_header_countable : Countable signed_block_header.
Proof.
  refine (inj_countable' (λ h, (sbh_header h, producer_signature h))
            (λ '(a, b), mk_signed_block_header a b) _). by intros [].
Defined.

#[export] Instance receipt_trx_eq_dec {PT} `{EqDecision PT} : EqDecision (receipt_trx PT).
Proof. solve_decision. Defined.

#[export] Instance receipt_trx_countable {PT} `{Countable PT} : Countable (receipt_trx PT).
Proof.
  refine (inj_countable' (λ r, match r with trx_id i => inl i | trx_packed p => inr p end)
            (λ r, match r with inl i => trx_id i | inr p => trx_packed p end) _). by intros [].
Defined.

#[export] Instance signed_block_eq_dec {PT} `{EqDecision PT} : EqDecision (signed_block PT).
Proof. solve_decision. Defined.

#[export] Instance signed_block_countable {PT} `{Countable PT} : Countable (signed_block PT).
Proof.
  refine (inj_countable' (λ b, (sb_header b, transactions b, block_extensions b))
            (λ '(a, b, c), mk_signed_block a b c) _). by intros [].
Defined.

Definition empty_block : signed_block Z := mk_signed_block (mk_signed_block_header default_header 0) [] [].

Definition demo_block_fc : BlockFc Z :=
  {| pack_block := pack_marked; unpack_block := unpack_marked empty_block |}.
Definition demo_state_fc : StateFc Z :=
  {| pack_genesis := pack_marked; unpack_genesis := unpack_marked 0 |}.

Lemma demo_block_laws : BlockFcLaws demo_block_fc.
Proof.
  split.
  - intros b rest. apply (unpack_pack_marked empty_block).
  - intros b n b' rest. apply (unpack_part_of_marked empty_block).
  - intros l b rest. apply (unpack_marked_shorter empty_block).
  - intros l e rest. apply (unpack_marked_raises empty_block).
Qed.

Lemma demo_state_laws : StateFcLaws demo_state_fc.
Proof.
  split.
  - intros g rest. apply (unpack_pack_marked 0).
  - done.
  - intros l g rest. apply (unpack_marked_shorter 0).
  - intros l e rest. apply (unpack_marked_raises 0).
Qed.

#[local] Existing Instance demo_block_fc.
#[local] Existing Instance demo_state_fc.

(** ** A log that starts with block 5 *)

Definition numbered (n : Z) : signed_block Z :=
  mk_signed_block
    (mk_signed_block_header
       (mk_block_header n 1 0 (mk_digest (byte_swap (n - 1)) 0 0 0) zero_digest zero_digest 0 None []) 0)
    [trx_packed n] [].
Definition demo_blocks : list (signed_block Z) := numbered <$> [5; 6; 7].

Lemma demo_log_ok : log_ok 2 5 33 demo_blocks.
Proof.
  split; [by right|lia| |apply Z.ltb_lt; by vm_compute].
  intros [|[|[|i]]] b Hb; [injection Hb as <-; by vm_compute..|done].
Qed.

(** The log holds three blocks, the next one is added and block 6 is found. *)
Lemma block_log_refines_witness :
  log_ok 2 5 33 demo_blocks ∧
  append (holding 2 5 33 demo_blocks) (numbered 8) =
    Ok (Z.of_nat (length (log_bytes 2 5 33 demo_blocks)), holding 2 5 33 (demo_blocks ++ [numbered 8])) ∧
  append (holding 2 5 33 demo_blocks) (numbered 7) = Throw block_log_append_fail ∧
  read_block_by_num (holding 2 5 33 demo_blocks) 6 = Ok (Some (numbered 6)) ∧
  open_log (log_bytes 2 5 33 demo_blocks) (index_bytes 2 5 33 [numbered 5]) = Ok (holding 2 5 33 demo_blocks).
Proof.
  destruct (@block_log_refines Z Z demo_crypto demo_crypto_laws demo_block_fc demo_block_laws
              demo_state_fc demo_state_laws 2 5 33 demo_blocks demo_log_ok) as (_ & _ & Ha & Hr & Ho & _); [simpl; lia|].
  split; [exact demo_log_ok|]. split; [rewrite Ha; by vm_compute|]. split; [rewrite Ha; by vm_compute|].
  split; [rewrite Hr; [by vm_compute|by split]|]. apply Ho. right. exists [numbered 5].
  split; [done|]. split; [left; by exists [numbered 6; numbered 7]|apply Z.ltb_lt; by vm_compute].
Defined.

Definition demo_log : list Z := log_bytes 2 5 33 demo_blocks.

(** The last 10 bytes are missing: two blocks are left. *)
Lemma repair_keeps_whole_blocks_witness :
  ∃ kept r n, (n + 10)%nat = length demo_log ∧
    repair_log (Some (take n demo_log)) false 0 = Ok r ∧
    kept `prefix_of` demo_blocks ∧ open_log (new_log r) [] = Ok (holding 2 5 33 kept).
Proof.
  destruct (@repair_keeps_whole_blocks Z Z demo_crypto demo_block_fc demo_block_laws
              demo_state_fc demo_state_laws 2 5 33 demo_blocks (length demo_log - 10) demo_log_ok)
    as (kept & r & H1 & _ & H2 & _ & _ & H3); [by apply Z.leb_le; vm_compute|].
  exists kept, r, (length demo_log - 10)%nat.
  split; [by vm_compute|]. split; [exact H1|]. split; [exact H2|]. apply H3. by left.
Defined.

Lemma damaged_logs_end_witness :
  open_log [2; 0; 0; 0; 1; 0; 0; 0; 2; 7] [1; 2; 3; 4; 5; 6; 7; 8] ≠ Throw out_of_fuel ∧
  repair_log (Some [2; 0; 0; 0; 1; 0; 0; 0; 2; 7]) false 3 ≠ Throw out_of_fuel.
Proof.
  apply (@damaged_logs_end Z Z demo_crypto demo_block_fc demo_block_laws demo_state_fc demo_state_laws).
  intros file ?. simplify_eq. by apply Z.ltb_lt; vm_compute.
Defined.
