(* ===== verification/Whitelist.v ===== *)
(** * Whitelisted intrinsics ([whitelisted_intrinsics.cpp])

    The intrinsics a contract may import, kept in a multimap from the hash of
    the name to the name: a list sorted by hash.  [std::hash] is a parameter
    about which nothing is assumed, collisions included. *)

From S2P Require Import Prelude.
Local Open Scope Z_scope.

Section whitelist.
(** [static_cast<uint64_t>( std::hash<std::string>{}( name ) )] *)
Context (hash : string → Z).

(** [whitelisted_intrinsics_type] *)
Abbreviation whitelist := (list (Z * string)).

(** [find_intrinsic_helper]: from [itr] on; the answer is the place found. *)
Fixpoint find_intrinsic_helper (h : Z) (name : string) (itr : whitelist) : option whitelist :=
  match itr with
  | [] => None
  | (h', n) :: itr' =>
      if h' =? h then
        if String.eqb n name then Some itr else find_intrinsic_helper h name itr'
      else None
  end.

(** [lower_bound( h )]: the entries before it and those from it on. *)
Fixpoint lower_bound (h : Z) (wl : whitelist) : whitelist * whitelist :=
  match wl with
  | [] => ([], [])
  | e :: wl' => if e.1 <? h then let '(a, b) := lower_bound h wl' in (e :: a, b) else ([], wl)
  end.

(** [find_intrinsic]: the entries from the intrinsic on, [None] for the end. *)
Definition find_intrinsic (wl : whitelist) (h : Z) (name : string) : option whitelist :=
  find_intrinsic_helper h name (lower_bound h wl).2.

Definition is_intrinsic_whitelisted (wl : whitelist) (name : string) : bool :=
  bool_decide (is_Some (find_intrinsic_helper (hash name) name (lower_bound (hash name) wl).2)).

(** [emplace] puts a new entry after those with the same hash. *)
Fixpoint emplace (h : Z) (name : string) (wl : whitelist) : whitelist :=
  match wl with
  | [] => [(h, name)]
  | e :: wl' => if e.1 <=? h then e :: emplace h name wl' else (h, name) :: wl
  end.

Definition add_intrinsic_to_whitelist (wl : whitelist) (name : string) : result whitelist :=
  let h := hash name in
  _ ← EOS_ASSERT (bool_decide (find_intrinsic wl h name = None)) database_exception;
  Ok (emplace h name wl).

(** [erase( itr )]: what is before the place and after it. *)
Definition remove_intrinsic_from_whitelist (wl : whitelist) (name : string) : result whitelist :=
  let h := hash name in
  itr ← of_option database_exception (find_intrinsic wl h name);
  Ok (take (length wl - length itr) wl ++ tail itr).

(** The set [s] is gone through in its order. *)
Definition reset_intrinsic_whitelist (s : list string) : whitelist :=
  foldl (λ wl name, emplace (hash name) name wl) [] s.

Definition convert_intrinsic_whitelist_to_set (wl : whitelist) : gset string :=
  foldl (λ s p, {[p.2]} ∪ s) ∅ wl.

(** ** The whitelist implements a set of names *)

Definition wl_inv (wl : whitelist) : Prop :=
  StronglySorted (λ a b, a.1 ≤ b.1) wl ∧ Forall (λ e, e.1 = hash e.2) wl ∧ NoDup wl.

Definition names (wl : whitelist) : gset string := list_to_set wl.*2.

Lemma convert_names wl : convert_intrinsic_whitelist_to_set wl = names wl.
Proof.
  unfold convert_intrinsic_whitelist_to_set, names.
  assert (∀ s : gset string, foldl (λ s p, {[p.2]} ∪ s) s wl = list_to_set wl.*2 ∪ s) as H.
  { induction wl as [|e wl IH]; intros s; simpl; [set_solver|]. rewrite IH. set_solver. }
  rewrite H. set_solver.
Qed.

Lemma lower_bound_app h wl a b : lower_bound h wl = (a, b) → wl = a ++ b.
Proof.
  revert a b. induction wl as [|e wl IH]; intros a b; simpl; [intros [= <- <-]; done|].
  destruct (e.1 <? h); [|intros [= <- <-]; done].
  destruct (lower_bound h wl) as [a' b'] eqn:E. intros [= <- <-]. simpl. f_equal. by apply IH.
Qed.

Lemma lower_bound_spec h wl a b :
  StronglySorted (λ x y : Z * string, x.1 ≤ y.1) wl → lower_bound h wl = (a, b) →
  Forall (λ e, e.1 < h) a ∧ Forall (λ e, h ≤ e.1) b.
Proof.
  intros Hs. revert a b. induction Hs as [|e wl Hs IH Hle]; intros a b; simpl; [intros [= <- <-]; done|].
  destruct (Z.ltb_spec e.1 h) as [Hlt|Hge].
  - destruct (lower_bound h wl) as [a' b'] eqn:E. intros [= <- <-].
    destruct (IH _ _ eq_refl). split; [by constructor|done].
  - intros [= <- <-]. split; [done|]. constructor; [done|].
    eapply Forall_impl; [exact Hle|]. simpl. lia.
Qed.

(** The helper finds the first entry with the name, if there is one. *)
Lemma find_helper_spec h name b :
  StronglySorted (λ x y : Z * string, x.1 ≤ y.1) b → Forall (λ e, h ≤ e.1) b →
  match find_intrinsic_helper h name b with
  | Some itr => ∃ l r, itr = (h, name) :: r ∧ b = l ++ itr
  | None => (h, name) ∉ b
  end.
Proof.
  intros Hs. induction Hs as [|[h' n] b Hs IH Hle]; intros Hb; simpl; [apply not_elem_of_nil|].
  apply Forall_cons in Hb as [Hh Hb]. simpl in Hh. destruct (Z.eqb_spec h' h) as [->|Hne].
  - destruct (String.eqb_spec n name) as [->|Hn]; [by exists [], b|].
    specialize (IH Hb). destruct (find_intrinsic_helper h name b) as [itr|].
    + destruct IH as (l & r & -> & ->). by exists ((h, n) :: l), r.
    + rewrite not_elem_of_cons. split; [congruence|done].
  - rewrite not_elem_of_cons. split; [congruence|]. intros Hin. rewrite Forall_forall in Hle.
    specialize (Hle _ Hin). simpl in Hle. lia.
Qed.

Lemma find_intrinsic_spec wl h name :
  StronglySorted (λ x y : Z * string, x.1 ≤ y.1) wl →
  match find_intrinsic wl h name with
  | Some itr => ∃ l r, itr = (h, name) :: r ∧ wl = l ++ itr
  | None => (h, name) ∉ wl
  end.
Proof.
  intros Hs. unfold find_intrinsic. destruct (lower_bound h wl) as [a b] eqn:E. simpl.
  destruct (lower_bound_spec _ _ _ _ Hs E) as [Ha Hb]. apply lower_bound_app in E as ->.
  pose proof (find_helper_spec h name b) as Hf. specialize (Hf (StronglySorted_app_1_r _ _ _ Hs) Hb).
  destruct (find_intrinsic_helper h name b) as [itr|].
  - destruct Hf as (l & r & -> & ->). exists (a ++ l), r. by rewrite <- app_assoc.
  - rewrite not_elem_of_app. split; [|done]. intros Hin. rewrite Forall_forall in Ha.
    specialize (Ha _ Hin). simpl in Ha. lia.
Qed.

Lemma elem_names wl name : wl_inv wl → name ∈ names wl ↔ (hash name, name) ∈ wl.
Proof.
  intros (_ & Hh & _). unfold names. rewrite elem_of_list_to_set, list_elem_of_fmap. split.
  - intros ([h n] & -> & Hin). rewrite Forall_forall in Hh. specialize (Hh _ Hin). simpl in *. by subst.
  - intros Hin. by exists (hash name, name).
Qed.

Lemma emplace_Permutation h name wl : emplace h name wl ≡ₚ (h, name) :: wl.
Proof.
  induction wl as [|e wl IH]; simpl; [done|]. destruct (e.1 <=? h); [|done].
  rewrite IH. apply Permutation_swap.
Qed.

Lemma emplace_inv name wl : wl_inv wl → (hash name, name) ∉ wl → wl_inv (emplace (hash name) name wl).
Proof.
  intros (Hs & Hh & Hnd) Hnew. split_and!.
  - clear Hh Hnd Hnew. induction Hs as [|e wl Hs IH Hle]; simpl; [repeat constructor|].
    destruct (Z.leb_spec e.1 (hash name)) as [Hl|Hl].
    + constructor; [done|]. rewrite emplace_Permutation. by constructor.
    + constructor; [by constructor|]. constructor; [simpl; lia|].
      eapply Forall_impl; [exact Hle|]. simpl. lia.
  - rewrite emplace_Permutation. by constructor.
  - rewrite emplace_Permutation. by constructor.
Qed.

Lemma emplace_names h name wl : names (emplace h name wl) = {[name]} ∪ names wl.
Proof. unfold names. by rewrite emplace_Permutation. Qed.

Lemma reset_inv s :
  NoDup s → wl_inv (reset_intrinsic_whitelist s) ∧ names (reset_intrinsic_whitelist s) = list_to_set s.
Proof.
  unfold reset_intrinsic_whitelist. induction s as [|n s IH] using rev_ind; intros Hnd.
  { split; [|done]. repeat constructor. }
  apply NoDup_app in Hnd as (Hnd & Hd & _). destruct (IH Hnd) as [Hinv Hn].
  rewrite foldl_app. simpl. split.
  - apply emplace_inv; [done|]. rewrite <- elem_names, Hn, elem_of_list_to_set by done.
    intros Hin. by eapply Hd; [|left].
  - rewrite emplace_names, Hn, list_to_set_app_L. simpl. set_solver.
Qed.

(** What is left after an entry was erased. *)
Lemma erase_inv l name r :
  wl_inv (l ++ (hash name, name) :: r) →
  wl_inv (l ++ r) ∧ names (l ++ r) = names (l ++ (hash name, name) :: r) ∖ {[name]}.
Proof.
  intros (Hs & Hh & Hnd).
  assert (wl_inv (l ++ r)) as Hinv.
  { split_and!.
    - apply StronglySorted_app_2.
      + intros x y Hx Hy. apply (StronglySorted_app_1_elem_of (λ a b : Z * string, a.1 ≤ b.1) _ _ x y Hs Hx).
        by right.
      + by eapply StronglySorted_app_1_l.
      + apply StronglySorted_app_1_r, StronglySorted_inv in Hs. apply Hs.
    - apply Forall_app in Hh as [H1 H2]. apply Forall_app. split; [done|]. by apply Forall_cons in H2 as [_ ?].
    - rewrite <- Permutation_middle in Hnd. by apply NoDup_cons in Hnd as [_ ?]. }
  split; [done|]. rewrite <- Permutation_middle in Hnd. apply NoDup_cons in Hnd as [Hnew _].
  assert (name ∉ names (l ++ r)) as Hn by (by rewrite elem_names).
  assert (names (l ++ (hash name, name) :: r) = {[name]} ∪ names (l ++ r)) as ->.
  { unfold names. by rewrite <- Permutation_middle. }
  set_solver.
Qed.

(** The whitelist is a set of names, whatever the hash function: the
    list made from a set satisfies the invariant and converts back to the set;
    and under the invariant membership is decided exactly, adding inserts a new
    name and refuses an old one, removing deletes an old name and refuses a
    new one, and both keep the invariant. *)
Theorem whitelist_is_set :
  (∀ s, NoDup s → wl_inv (reset_intrinsic_whitelist s) ∧
     convert_intrinsic_whitelist_to_set (reset_intrinsic_whitelist s) = list_to_set s) ∧
  ∀ wl name, wl_inv wl →
    let s := convert_intrinsic_whitelist_to_set wl in
    (is_intrinsic_whitelisted wl name = true ↔ name ∈ s) ∧
    (name ∈ s → add_intrinsic_to_whitelist wl name = Throw database_exception ∧
       ∃ wl', remove_intrinsic_from_whitelist wl name = Ok wl' ∧ wl_inv wl' ∧
         convert_intrinsic_whitelist_to_set wl' = s ∖ {[name]}) ∧
    (name ∉ s → remove_intrinsic_from_whitelist wl name = Throw database_exception ∧
       ∃ wl', add_intrinsic_to_whitelist wl name = Ok wl' ∧ wl_inv wl' ∧
         convert_intrinsic_whitelist_to_set wl' = {[name]} ∪ s).
Proof.
  split; [intros s Hs; rewrite convert_names; by apply reset_inv|].
  intros wl name Hinv s. subst s. pose proof Hinv as (Hs & _). rewrite !convert_names.
  unfold is_intrinsic_whitelisted, add_intrinsic_to_whitelist, remove_intrinsic_from_whitelist.
  pose proof (find_intrinsic_spec wl (hash name) name Hs) as Hf. fold (find_intrinsic wl (hash name) name).
  rewrite (elem_names wl name Hinv), bool_decide_eq_true.
  destruct (find_intrinsic wl (hash name) name) as [itr|].
  - destruct Hf as (l & r & -> & ->). destruct (erase_inv _ _ _ Hinv) as [Hinv' Hn'].
    assert ((hash name, name) ∈ l ++ (hash name, name) :: r) as Hin by set_solver.
    split_and!; [by split; [|eexists]| |done]. intros _. split; [by rewrite bool_decide_eq_false_2|].
    exists (l ++ r). simpl. rewrite length_app. simpl.
    replace (length l + S (length r) - S (length r))%nat with (length l) by lia.
    rewrite take_app_length, convert_names. done.
  - split_and!; [split; [by intros [? ?]|done]|done|]. intros _. split; [done|].
    rewrite bool_decide_eq_true_2 by done. eexists. split; [done|]. rewrite convert_names.
    split; [by apply emplace_inv|apply emplace_names].
Qed.
End whitelist.
