(* ===== verification/ProtocolFeatures.v ===== *)
(** * Protocol features ([protocol_feature_manager.hpp],
    [protocol_feature_manager.cpp])

    The set of protocol features a node recognizes and the manager that
    records which of them are activated, and since which block.  Iterators
    into the set of recognized features are represented by the digest of the
    feature, the end iterator by [None].  Hashing and parsing of hexadecimal
    digests come from [fc] and are parameters. *)

From S2P Require Import Prelude Merkle.
Local Open Scope Z_scope.

(** ** The builtin features *)

Inductive builtin_protocol_feature_t :=
  | preactivate_feature | only_link_to_existing_permission | replace_deferred
  | no_duplicate_deferred_id | fix_linkauth_restriction | disallow_empty_producer_schedule
  | restrict_action_to_self | only_bill_first_authorizer | forward_setcode | get_sender
  | ram_restrictions.

#[export] Instance builtin_eq_dec : EqDecision builtin_protocol_feature_t.
Proof. solve_decision. Defined.

Definition all_builtins : list builtin_protocol_feature_t :=
  [preactivate_feature; only_link_to_existing_permission; replace_deferred;
   no_duplicate_deferred_id; fix_linkauth_restriction; disallow_empty_producer_schedule;
   restrict_action_to_self; only_bill_first_authorizer; forward_setcode; get_sender;
   ram_restrictions].

(** [static_cast<uint32_t>( codename )] *)
Definition feature_index (c : builtin_protocol_feature_t) : nat :=
  match c with
  | preactivate_feature => 0 | only_link_to_existing_permission => 1 | replace_deferred => 2
  | no_duplicate_deferred_id => 3 | fix_linkauth_restriction => 4
  | disallow_empty_producer_schedule => 5 | restrict_action_to_self => 6
  | only_bill_first_authorizer => 7 | forward_setcode => 8 | get_sender => 9
  | ram_restrictions => 10
  end.

#[export] Instance feature_index_inj : Inj (=) (=) feature_index.
Proof. by intros [] []. Qed.

#[export] Instance builtin_countable : Countable builtin_protocol_feature_t.
Proof.
  refine (inj_countable feature_index (λ i, all_builtins !! i) _). by intros [].
Defined.

Record protocol_feature_subjective_restrictions := mk_restrictions {
  earliest_allowed_activation_time : Z;
  preactivation_required : bool;
  enabled : bool;
}.

Record builtin_protocol_feature_spec := mk_spec {
  codename : string;
  spec_description : string;
  builtin_dependencies : gset builtin_protocol_feature_t;
  spec_restrictions : protocol_feature_subjective_restrictions;
}.

(** [{time_point{}, true, true}], the default of a specification. *)
Definition default_restrictions : protocol_feature_subjective_restrictions := mk_restrictions 0 true true.

(** The table [builtin_protocol_feature_codenames]. *)
Definition builtin_protocol_feature_codenames :
    list (builtin_protocol_feature_t * builtin_protocol_feature_spec) :=
  [ (preactivate_feature,
     mk_spec "PREACTIVATE_FEATURE" "64fe7df32e9b86be2b296b3f81dfd527f84e82b98e363bc97e40bc7a83733310"
       ∅ (mk_restrictions 0 false true));
    (only_link_to_existing_permission,
     mk_spec "ONLY_LINK_TO_EXISTING_PERMISSION"
       "f3c3d91c4603cde2397268bfed4e662465293aab10cd9416db0d442b8cec2949" ∅ default_restrictions);
    (replace_deferred,
     mk_spec "REPLACE_DEFERRED" "9908b3f8413c8474ab2a6be149d3f4f6d0421d37886033f27d4759c47a26d944"
       ∅ default_restrictions);
    (no_duplicate_deferred_id,
     mk_spec "NO_DUPLICATE_DEFERRED_ID" "45967387ee92da70171efd9fefd1ca8061b5efe6f124d269cd2468b47f1575a0"
       {[replace_deferred]} default_restrictions);
    (fix_linkauth_restriction,
     mk_spec "FIX_LINKAUTH_RESTRICTION" "a98241c83511dc86c857221b9372b4aa7cea3aaebc567a48604e1d3db3557050"
       ∅ default_restrictions);
    (disallow_empty_producer_schedule,
     mk_spec "DISALLOW_EMPTY_PRODUCER_SCHEDULE"
       "2853617cec3eabd41881eb48882e6fc5e81a0db917d375057864b3befbe29acd" ∅ default_restrictions);
    (restrict_action_to_self,
     mk_spec "RESTRICT_ACTION_TO_SELF" "e71b6712188391994c78d8c722c1d42c477cf091e5601b5cf1befd05721a57f3"
       ∅ default_restrictions);
    (only_bill_first_authorizer,
     mk_spec "ONLY_BILL_FIRST_AUTHORIZER" "2f1f13e291c79da5a2bbad259ed7c1f2d34f697ea460b14b565ac33b063b73e2"
       ∅ default_restrictions);
    (forward_setcode,
     mk_spec "FORWARD_SETCODE" "898082c59f921d0042e581f00a59d5ceb8be6f1d9c7a45b6f07c0e26eaee0222"
       ∅ default_restrictions);
    (get_sender,
     mk_spec "GET_SENDER" "1eab748b95a2e6f4d7cb42065bdee5566af8efddf01a55a0a8d831b823f8828a"
       ∅ default_restrictions);
    (ram_restrictions,
     mk_spec "RAM_RESTRICTIONS" "1812fdb5096fd854a4958eb9d53b43219d114de0e858ce00255bd46569ad2c68"
       ∅ default_restrictions) ].

Definition find_spec (c : builtin_protocol_feature_t) : option builtin_protocol_feature_spec :=
  snd <$> List.find (λ p, bool_decide (p.1 = c)) builtin_protocol_feature_codenames.

(** [builtin_protocol_feature_codename( codename )] *)
Definition builtin_protocol_feature_codename (c : builtin_protocol_feature_t) : result string :=
  s ← of_option protocol_feature_validation_exception (find_spec c);
  Ok (codename s).

(** [builtin_protocol_feature], with the fields of its base class. *)
Record builtin_protocol_feature := mk_builtin_feature {
  protocol_feature_type : string;
  bf_description : digest_type;
  bf_dependencies : gset digest_type;
  subjective_restrictions : protocol_feature_subjective_restrictions;
  builtin_feature_codename : string;
  _codename : builtin_protocol_feature_t;
}.

Definition feature_type_string : string := "builtin".

(** The constructors of the class and of its base. *)
Definition make_builtin_feature (c : builtin_protocol_feature_t) (description : digest_type)
    (dependencies : gset digest_type) (restrictions : protocol_feature_subjective_restrictions) :
    result builtin_protocol_feature :=
  s ← of_option protocol_feature_validation_exception (find_spec c);
  Ok (mk_builtin_feature feature_type_string description dependencies restrictions (codename s) c).

(** [reflector_init] of both classes: a feature read from a file; the code
    name determines [_codename]. *)
Definition feature_reflector_init (f : builtin_protocol_feature) : result builtin_protocol_feature :=
  _ ← EOS_ASSERT (String.eqb (protocol_feature_type f) feature_type_string)
        protocol_feature_validation_exception;
  p ← of_option protocol_feature_validation_exception
        (List.find (λ p, String.eqb (builtin_feature_codename f) (codename p.2))
           builtin_protocol_feature_codenames);
  Ok (mk_builtin_feature (protocol_feature_type f) (bf_description f) (bf_dependencies f)
        (subjective_restrictions f) (builtin_feature_codename f) p.1).

(** [protocol_feature] *)
Record protocol_feature := mk_feature {
  feature_digest : digest_type;
  description_digest : digest_type;
  dependencies : gset digest_type;
  pf_earliest_allowed_activation_time : Z;
  pf_preactivation_required : bool;
  pf_enabled : bool;
  builtin_feature : option builtin_protocol_feature_t;
}.

(** ** The set of recognized features *)

Record protocol_feature_set := mk_feature_set {
  _recognized_protocol_features : gmap digest_type protocol_feature;
  _recognized_builtin_protocol_features : list (option digest_type);
}.
Definition empty_feature_set : protocol_feature_set := mk_feature_set ∅ [].

Inductive recognized_t := unrecognized | disabled | too_early | ready.

Definition is_recognized (s : protocol_feature_set) (d : digest_type) (now : Z) : recognized_t :=
  match _recognized_protocol_features s !! d with
  | None => unrecognized
  | Some f =>
      if negb (pf_enabled f) then disabled
      else if now <? pf_earliest_allowed_activation_time f then too_early
      else ready
  end.

Definition get_builtin_digest (s : protocol_feature_set) (c : builtin_protocol_feature_t) :
    option digest_type :=
  match _recognized_builtin_protocol_features s !! feature_index c with
  | None => None
  | Some None => None
  | Some (Some d) => feature_digest <$> _recognized_protocol_features s !! d
  end.

Definition get_protocol_feature (s : protocol_feature_set) (d : digest_type) : result protocol_feature :=
  of_option protocol_feature_exception (_recognized_protocol_features s !! d).

Definition validate_dependencies (s : protocol_feature_set) (d : digest_type)
    (validator : digest_type → bool) : bool :=
  match _recognized_protocol_features s !! d with
  | None => false
  | Some f => forallb validator (elements (dependencies f))
  end.

Section features.
(** [fc::variant( hex ).as<digest_type>()] and [builtin_protocol_feature::digest]'s
    encoder over type, description, dependencies and code name. *)
Context (hex_digest : string → digest_type).
Context (hash_feature : Z → digest_type → gset digest_type → nat → digest_type).

Definition digest (f : builtin_protocol_feature) : digest_type :=
  hash_feature 0 (bf_description f) (bf_dependencies f) (feature_index (_codename f)).

Definition make_default_builtin_protocol_feature (c : builtin_protocol_feature_t)
    (handle_dependency : builtin_protocol_feature_t → digest_type) : result builtin_protocol_feature :=
  s ← of_option protocol_feature_validation_exception (find_spec c);
  let dependencies := foldl (λ (ds : gset digest_type) d, {[handle_dependency d]} ∪ ds) ∅
                        (elements (builtin_dependencies s)) in
  make_builtin_feature c (hex_digest (spec_description s)) dependencies (spec_restrictions s).

(** The loop over the dependencies: they must be recognized, and those that
    are expected builtins are collected. *)
Definition satisfied_dependencies (s : protocol_feature_set)
    (expected : gset builtin_protocol_feature_t) (deps : gset digest_type) :
    result (gset builtin_protocol_feature_t) :=
  fold_res (λ sat d,
    f ← of_option protocol_feature_exception (_recognized_protocol_features s !! d);
    match builtin_feature f with
    | Some c => if bool_decide (c ∈ expected) then Ok ({[c]} ∪ sat) else Ok sat
    | None => Ok sat
    end) ∅ (elements deps).

(** [push_back] of end iterators up to index [i]. *)
Definition extend_to {A} (l : list A) (i : nat) (x : A) : list A :=
  l ++ replicate (S i - length l) x.

Definition add_feature (s : protocol_feature_set) (f : builtin_protocol_feature) :
    result protocol_feature_set :=
  spec ← of_option protocol_feature_validation_exception (find_spec (_codename f));
  let indx := feature_index (_codename f) in
  _ ← EOS_ASSERT (match _recognized_builtin_protocol_features s !! indx with
                  | Some (Some _) => false
                  | _ => true
                  end) protocol_feature_exception;
  let fd := digest f in
  satisfied ← satisfied_dependencies s (builtin_dependencies spec) (bf_dependencies f);
  _ ← EOS_ASSERT (size (builtin_dependencies spec) <=? size satisfied)%nat
        protocol_feature_validation_exception;
  _ ← EOS_ASSERT (bool_decide (_recognized_protocol_features s !! fd = None)) protocol_feature_exception;
  let pf := mk_feature fd (bf_description f) (bf_dependencies f)
              (earliest_allowed_activation_time (subjective_restrictions f))
              (preactivation_required (subjective_restrictions f))
              (enabled (subjective_restrictions f)) (Some (_codename f)) in
  Ok (mk_feature_set (<[fd := pf]> (_recognized_protocol_features s))
        (<[indx := Some fd]> (extend_to (_recognized_builtin_protocol_features s) indx None))).
End features.

(** ** The manager *)

(** [builtin_protocol_feature_entry] *)
Definition no_previous : Z := u64_max.
Definition not_active : Z := u32_max.
Record builtin_entry := mk_entry {
  entry_previous : Z;
  entry_block_num : Z;
}.
Definition default_entry : builtin_entry := mk_entry no_previous not_active.

Record protocol_feature_manager := mk_manager {
  _protocol_feature_set : protocol_feature_set;
  _activated_protocol_features : list (digest_type * Z);
  _builtin_protocol_features : list builtin_entry;
  _head_of_builtin_activation_list : Z;
  _initialized : bool;
}.

(** [protocol_feature_manager( pfs )] *)
Definition new_manager (pfs : protocol_feature_set) : protocol_feature_manager :=
  mk_manager pfs [] (replicate (length (_recognized_builtin_protocol_features pfs)) default_entry)
    no_previous false.

Definition is_builtin_activated (m : protocol_feature_manager) (c : builtin_protocol_feature_t)
    (current_block_num : Z) : bool :=
  match _builtin_protocol_features m !! feature_index c with
  | None => false
  | Some e => entry_block_num e <=? current_block_num
  end.

Definition activate_feature (m : protocol_feature_manager) (d : digest_type) (current_block_num : Z) :
    result protocol_feature_manager :=
  _ ← EOS_ASSERT (_initialized m) protocol_feature_exception;
  f ← of_option protocol_feature_exception
        (_recognized_protocol_features (_protocol_feature_set m) !! d);
  _ ← EOS_ASSERT (match last (_activated_protocol_features m) with
                  | Some l => l.2 <=? current_block_num
                  | None => true
                  end) protocol_feature_exception;
  c ← of_option protocol_feature_exception (builtin_feature f);
  let indx := feature_index c in
  e ← of_option protocol_feature_exception (_builtin_protocol_features m !! indx);
  _ ← EOS_ASSERT (entry_block_num e =? not_active) protocol_feature_exception;
  Ok (mk_manager (_protocol_feature_set m)
        (_activated_protocol_features m ++ [(d, current_block_num)])
        (<[indx := mk_entry (_head_of_builtin_activation_list m) current_block_num]>
           (_builtin_protocol_features m))
        (Z.of_nat indx) (_initialized m)).

(** The first loop of [popped_blocks_to], over the list that the entries form. *)
Fixpoint pop_entries (fuel : nat) (block_num : Z) (entries : list builtin_entry) (head : Z) :
    result (list builtin_entry * Z) :=
  if head =? no_previous then Ok (entries, head)
  else
    e ← of_option undefined_behaviour (entries !! Z.to_nat head);
    if entry_block_num e <=? block_num then Ok (entries, head)
    else
      match fuel with
      | O => Throw out_of_fuel
      | S fuel => pop_entries fuel block_num (<[Z.to_nat head := default_entry]> entries) (entry_previous e)
      end.

(** The second loop: [pop_back] while the last activation is above the block. *)
Fixpoint pop_back_while (fuel : nat) (block_num : Z) (l : list (digest_type * Z)) :
    list (digest_type * Z) :=
  match fuel with
  | O => l
  | S fuel =>
      match last l with
      | Some e => if block_num <? e.2 then pop_back_while fuel block_num (removelast l) else l
      | None => l
      end
  end.

Definition popped_blocks_to (m : protocol_feature_manager) (block_num : Z) :
    result protocol_feature_manager :=
  _ ← EOS_ASSERT (_initialized m) protocol_feature_exception;
  let fuel := length (_activated_protocol_features m) in
  r ← pop_entries fuel block_num (_builtin_protocol_features m) (_head_of_builtin_activation_list m);
  Ok (mk_manager (_protocol_feature_set m)
        (pop_back_while fuel block_num (_activated_protocol_features m)) r.1 r.2 (_initialized m)).

(** [init]: the activations the database has on record. *)
Definition init (m : protocol_feature_manager) (activated : list (digest_type * Z)) :
    result protocol_feature_manager :=
  _ ← EOS_ASSERT (negb (_initialized m)) protocol_feature_exception;
  let m := mk_manager (_protocol_feature_set m) (_activated_protocol_features m)
             (_builtin_protocol_features m) (_head_of_builtin_activation_list m) true in
  fold_res (λ m f, activate_feature m f.1 f.2) m activated.

(** ** Iterators over the activated features *)

(** [const_iterator]: [singular] is [_pfm == nullptr]. *)
Record const_iterator := mk_iterator { singular : bool; _index : Z }.
Definition end_index : Z := u64_max.

Definition cend : const_iterator := mk_iterator false end_index.

Definition cbegin (m : protocol_feature_manager) : const_iterator :=
  if (length (_activated_protocol_features m) =? 0)%nat then cend else mk_iterator false 0.

Definition at_activation_ordinal (m : protocol_feature_manager) (ordinal : Z) : const_iterator :=
  if Z.of_nat (length (_activated_protocol_features m)) <=? ordinal then cend
  else mk_iterator false ordinal.

Definition activation_ordinal (i : const_iterator) : result Z :=
  _ ← EOS_ASSERT (negb (singular i)) protocol_feature_iterator_exception;
  _ ← EOS_ASSERT (negb (_index i =? end_index)) protocol_feature_iterator_exception;
  Ok (u32 (_index i)).

Definition activation_block_num (m : protocol_feature_manager) (i : const_iterator) : result Z :=
  _ ← EOS_ASSERT (negb (singular i)) protocol_feature_iterator_exception;
  _ ← EOS_ASSERT (negb (_index i =? end_index)) protocol_feature_iterator_exception;
  e ← of_option undefined_behaviour (_activated_protocol_features m !! Z.to_nat (_index i));
  Ok e.2.

Definition incr (m : protocol_feature_manager) (i : const_iterator) : result const_iterator :=
  _ ← EOS_ASSERT (negb (singular i)) protocol_feature_iterator_exception;
  _ ← EOS_ASSERT (negb (_index i =? end_index)) protocol_feature_iterator_exception;
  let n := _index i + 1 in
  Ok (mk_iterator false
        (if Z.of_nat (length (_activated_protocol_features m)) <=? n then end_index else n)).

Definition decr (m : protocol_feature_manager) (i : const_iterator) : result const_iterator :=
  let n := Z.of_nat (length (_activated_protocol_features m)) in
  _ ← EOS_ASSERT (negb (singular i)) protocol_feature_iterator_exception;
  if _index i =? end_index then
    _ ← EOS_ASSERT (0 <? n) protocol_feature_iterator_exception;
    Ok (mk_iterator false (n - 1))
  else
    _ ← EOS_ASSERT (0 <? _index i) protocol_feature_iterator_exception;
    Ok (mk_iterator false (_index i - 1)).

(** [std::lower_bound] and [std::upper_bound] find the first activation that is
    not below, and above, the block; the activations are in order. *)
Fixpoint first_index (p : Z → bool) (l : list (digest_type * Z)) (i : nat) : nat :=
  match l with
  | [] => i
  | e :: l => if p e.2 then i else first_index p l (S i)
  end.
Definition activations_from (p : Z → bool) (m : protocol_feature_manager) : const_iterator :=
  let l := _activated_protocol_features m in
  let i := first_index p l 0 in
  if (i =? length l)%nat then cend else mk_iterator false (Z.of_nat i).
Definition manager_lower_bound (m : protocol_feature_manager) (block_num : Z) : const_iterator :=
  activations_from (λ b, block_num <=? b) m.
Definition manager_upper_bound (m : protocol_feature_manager) (block_num : Z) : const_iterator :=
  activations_from (λ b, block_num <? b) m.

(** ** Activation and its undoing *)

(** The state after an activation. *)
Definition activated_state (m : protocol_feature_manager) (d : digest_type)
    (c : builtin_protocol_feature_t) (b : Z) : protocol_feature_manager :=
  mk_manager (_protocol_feature_set m) (_activated_protocol_features m ++ [(d, b)])
    (<[feature_index c := mk_entry (_head_of_builtin_activation_list m) b]> (_builtin_protocol_features m))
    (Z.of_nat (feature_index c)) (_initialized m).

Lemma activate_feature_Ok m d b m' :
  activate_feature m d b = Ok m' →
  ∃ f c e, _initialized m = true ∧
    _recognized_protocol_features (_protocol_feature_set m) !! d = Some f ∧
    builtin_feature f = Some c ∧ _builtin_protocol_features m !! feature_index c = Some e ∧
    entry_block_num e = not_active ∧
    (∀ l, last (_activated_protocol_features m) = Some l → l.2 ≤ b) ∧
    m' = activated_state m d c b.
Proof.
  unfold activate_feature.
  intros (u1 & H1%EOS_ASSERT_Ok & (f & H2%of_option_Ok & (u2 & H3%EOS_ASSERT_Ok & (c & H4%of_option_Ok &
    (e & H5%of_option_Ok & (u3 & H6%EOS_ASSERT_Ok & [= <-])%bind_Ok)%bind_Ok)%bind_Ok)%bind_Ok)%bind_Ok)%bind_Ok.
  exists f, c, e. split_and!; [done..|lia| |done]. intros l Hl. rewrite Hl in H3. lia.
Qed.

Lemma feature_index_lt c : Z.of_nat (feature_index c) < no_previous.
Proof. by destruct c. Qed.

(** What holds of a manager initialized with the activations [acts]. *)
Record manager_inv (pfs : protocol_feature_set) (acts : list (digest_type * Z))
    (m : protocol_feature_manager) : Prop := {
  mi_set : _protocol_feature_set m = pfs;
  mi_init : _initialized m = true;
  mi_acts : _activated_protocol_features m = acts;
  mi_sorted : StronglySorted (λ a b, a.2 ≤ b.2) acts;
  mi_idle : Forall (λ e, entry_block_num e = not_active → entry_previous e = no_previous)
    (_builtin_protocol_features m);
  mi_entry : ∀ c e, _builtin_protocol_features m !! feature_index c = Some e →
    entry_block_num e ≠ not_active →
    ∃ d f, (d, entry_block_num e) ∈ acts ∧ _recognized_protocol_features pfs !! d = Some f ∧
      builtin_feature f = Some c;
  mi_act : ∀ d b, (d, b) ∈ acts → ∃ f c e, _recognized_protocol_features pfs !! d = Some f ∧
    builtin_feature f = Some c ∧ _builtin_protocol_features m !! feature_index c = Some e ∧
    entry_block_num e = b;
}.

Definition below_not_active (acts : list (digest_type * Z)) : Prop := Forall (λ a, a.2 < not_active) acts.

Lemma activate_inv pfs acts m d b m' :
  manager_inv pfs acts m → b < not_active → below_not_active acts →
  activate_feature m d b = Ok m' → manager_inv pfs (acts ++ [(d, b)]) m'.
Proof.
  intros [Hset Hi Hacts Hs Hidle He Ha] Hb Hbelow Hact.
  apply activate_feature_Ok in Hact as (f & c & e & _ & Hf & Hc & Hce & Hna & Hlast & ->).
  rewrite Hset in Hf. rewrite Hacts in Hlast. split; simpl.
  - done.
  - done.
  - by rewrite Hacts.
  - apply StronglySorted_app_2; [|done|repeat constructor].
    intros x y Hx Hy. apply list_elem_of_singleton in Hy as ->. simpl.
    destruct acts as [|z l _] using rev_ind; [by apply elem_of_nil in Hx|].
    specialize (Hlast z). rewrite last_snoc in Hlast. specialize (Hlast eq_refl).
    apply elem_of_app in Hx as [Hx|Hx%list_elem_of_singleton]; [|by subst].
    pose proof (StronglySorted_app_1_elem_of (λ a b : digest_type * Z, a.2 ≤ b.2) _ _ x z Hs Hx
      ltac:(left)). simpl in *. lia.
  - apply Forall_insert; [done|]. simpl. lia.
  - intros c' e' Hl Hne. destruct (decide (feature_index c = feature_index c')) as [Heq|Hneq].
    + rewrite Heq, list_lookup_insert_eq in Hl by (rewrite <- Heq; by eapply lookup_lt_Some).
      injection Hl as <-. simpl. apply (inj feature_index) in Heq as <-. exists d, f. set_solver.
    + rewrite list_lookup_insert_ne in Hl by done.
      destruct (He c' e' Hl Hne) as (d' & f' & ? & ?). exists d', f'. set_solver.
  - intros d' b' [Hin|[= -> ->]%list_elem_of_singleton]%elem_of_app.
    + destruct (Ha d' b' Hin) as (f' & c' & e' & Hf' & Hc' & He' & Hb'). exists f', c', e'.
      split_and!; [done..| |done]. rewrite list_lookup_insert_ne; [done|].
      intros Heq. rewrite <- Heq, Hce in He'. injection He' as <-.
      unfold below_not_active in Hbelow. rewrite Forall_forall in Hbelow.
      specialize (Hbelow _ Hin). simpl in Hbelow. lia.
    + exists f, c, (mk_entry (_head_of_builtin_activation_list m) b). split_and!; [done..| |done].
      apply list_lookup_insert_eq. by eapply lookup_lt_Some.
Qed.

Lemma init_inv pfs acts m :
  init (new_manager pfs) acts = Ok m → below_not_active acts → manager_inv pfs acts m.
Proof.
  unfold init. simpl. revert m. induction acts as [|[d b] acts IH] using rev_ind; intros m Hm Hb.
  - injection Hm as <-. split; simpl; try done.
    + constructor.
    + by apply Forall_replicate.
    + intros c e [-> _]%lookup_replicate. done.
    + intros d b []%elem_of_nil.
  - rewrite fold_res_app in Hm. apply bind_Ok in Hm as (m1 & Hm1 & (m2 & Hm2 & [= <-])%bind_Ok).
    apply Forall_app in Hb as [Hb Hb1]. apply Forall_cons in Hb1 as [Hb1 _].
    eapply activate_inv; [by apply IH|done|done|done].
Qed.

(** Popping below an activation undoes it and goes on. *)
Lemma pop_activated pfs acts m d c b e n :
  manager_inv pfs acts m → _builtin_protocol_features m !! feature_index c = Some e →
  entry_block_num e = not_active → n < b →
  popped_blocks_to (activated_state m d c b) n = popped_blocks_to m n.
Proof.
  intros Hinv He Hna Hb. unfold popped_blocks_to. simpl. rewrite (mi_init _ _ _ Hinv). simpl.
  rewrite length_app, Nat.add_1_r. cbn [pop_entries pop_back_while].
  pose proof (feature_index_lt c) as Hi.
  destruct (Z.eqb_spec (Z.of_nat (feature_index c)) no_previous) as [|_]; [lia|].
  rewrite Nat2Z.id, list_lookup_insert_eq by (by eapply lookup_lt_Some). cbn [of_option mbind result_bind entry_block_num entry_previous].
  rewrite (proj2 (Z.leb_gt b n) Hb), last_snoc. cbn [snd].
  rewrite (proj2 (Z.ltb_lt n b) Hb), removelast_last, list_insert_insert_eq.
  assert (e = default_entry) as ->.
  { pose proof (Forall_lookup_1 _ _ _ _ (mi_idle _ _ _ Hinv) He Hna) as Hp.
    destruct e; simpl in *; by subst. }
  by rewrite list_insert_id.
Qed.

(** Popping at or above the last activation changes nothing. *)
Lemma pop_nothing m d c b n :
  _initialized m = true → (feature_index c < length (_builtin_protocol_features m))%nat → b ≤ n →
  popped_blocks_to (activated_state m d c b) n = Ok (activated_state m d c b).
Proof.
  intros Hi Hc Hb. unfold popped_blocks_to. simpl. rewrite Hi. simpl.
  rewrite length_app, Nat.add_1_r. cbn [pop_entries pop_back_while].
  pose proof (feature_index_lt c).
  destruct (Z.eqb_spec (Z.of_nat (feature_index c)) no_previous) as [|_]; [lia|].
  rewrite Nat2Z.id, list_lookup_insert_eq by done. cbn [of_option mbind result_bind entry_block_num].
  rewrite (proj2 (Z.leb_le b n) Hb), last_snoc. cbn [snd].
  rewrite (proj2 (Z.ltb_ge n b) Hb). unfold activated_state. by rewrite Hi.
Qed.

(** The general case, by induction on the activations. *)
Lemma popped_blocks_exact pfs acts m n :
  init (new_manager pfs) acts = Ok m → below_not_active acts →
  popped_blocks_to m n = init (new_manager pfs) (filter (λ a, a.2 ≤ n) acts).
Proof.
  intros Hm Hb. revert m Hm. induction acts as [|[d b] acts IH] using rev_ind; intros m Hm.
  { injection Hm as <-. done. }
  pose proof Hm as Hm'. unfold init in Hm. simpl in Hm. rewrite fold_res_app in Hm.
  apply bind_Ok in Hm as (m1 & Hm1 & (m2 & Hm2 & [= ->])%bind_Ok).
  assert (init (new_manager pfs) acts = Ok m1) as Hinit by exact Hm1.
  apply Forall_app in Hb as [Hb Hb1].
  pose proof (init_inv pfs acts m1 Hinit Hb) as Hinv.
  cbn [fst snd] in Hm2. pose proof Hm2 as Hact.
  apply activate_feature_Ok in Hact as (f & c & e & Hi & _ & _ & He & Hna & Hlast & ->).
  destruct (decide (b ≤ n)) as [Hle|Hgt].
  - rewrite filter_all; [|apply Forall_app; split; [|by constructor]].
    + rewrite Hm'. apply pop_nothing; [done|by eapply lookup_lt_Some|done].
    + pose proof (mi_sorted _ _ _ (init_inv _ _ _ Hm' ltac:(by apply Forall_app))) as Hs.
      rewrite Forall_forall. intros x Hx.
      pose proof (StronglySorted_app_1_elem_of (λ a b : digest_type * Z, a.2 ≤ b.2) _ _ x (d, b) Hs Hx
        ltac:(left)). simpl in *. lia.
  - rewrite filter_app, filter_cons_False, filter_nil, app_nil_r by (simpl; lia).
    rewrite (pop_activated pfs acts m1 d c b e n Hinv He Hna ltac:(lia)). by apply IH.
Qed.

(** C35.  Popping blocks down to [n] takes the manager back exactly to the
    state it has when only the activations at or below [n] were made, for
    every manager that recorded a sequence of activations. *)
Theorem popped_blocks_to_undoes pfs acts m n :
  init (new_manager pfs) acts = Ok m → below_not_active acts →
  popped_blocks_to m n = init (new_manager pfs) (filter (λ a, a.2 ≤ n) acts).
Proof. apply popped_blocks_exact. Qed.

(** A builtin feature counts as activated in a block exactly when an
    activation of a feature with that code name was recorded for this or an
    earlier block. *)
Theorem is_builtin_activated_iff pfs acts m c n :
  init (new_manager pfs) acts = Ok m → below_not_active acts → n < not_active →
  is_builtin_activated m c n = true ↔
  ∃ d b f, (d, b) ∈ acts ∧ b ≤ n ∧ _recognized_protocol_features pfs !! d = Some f ∧
    builtin_feature f = Some c.
Proof.
  intros Hm Hb Hn. pose proof (init_inv pfs acts m Hm Hb) as Hinv. unfold is_builtin_activated.
  split.
  - destruct (_ !! feature_index c) as [e|] eqn:He; [|done]. intros Hle%Z.leb_le.
    destruct (mi_entry _ _ _ Hinv c e He ltac:(lia)) as (d & f & Hin & Hf & Hc).
    by exists d, (entry_block_num e), f.
  - intros (d & b & f & Hin & Hle & Hf & Hc).
    destruct (mi_act _ _ _ Hinv d b Hin) as (f' & c' & e & Hf' & Hc' & He & Hbe).
    rewrite Hf in Hf'. injection Hf' as <-. rewrite Hc in Hc'. injection Hc' as <-.
    rewrite He. apply Z.leb_le. lia.
Qed.

(** ** The recognized features are closed under dependencies *)

Section feature_set.
Context (hash_feature : Z → digest_type → gset digest_type → nat → digest_type).

(** The features that have been added: every dependency is recognized, and the
    builtin dependencies of the code name are among them. *)
Record feature_set_inv (s : protocol_feature_set) : Prop := {
  fs_key : ∀ d f, _recognized_protocol_features s !! d = Some f → feature_digest f = d;
  fs_closed : ∀ d f x, _recognized_protocol_features s !! d = Some f → x ∈ dependencies f →
    is_Some (_recognized_protocol_features s !! x);
  fs_builtin : ∀ d f, _recognized_protocol_features s !! d = Some f →
    ∃ c spec, builtin_feature f = Some c ∧ find_spec c = Some spec ∧
      _recognized_builtin_protocol_features s !! feature_index c = Some (Some d) ∧
      ∀ c', c' ∈ builtin_dependencies spec → ∃ x g, x ∈ dependencies f ∧
        _recognized_protocol_features s !! x = Some g ∧ builtin_feature g = Some c';
  fs_index : ∀ c d, _recognized_builtin_protocol_features s !! feature_index c = Some (Some d) →
    ∃ f, _recognized_protocol_features s !! d = Some f ∧ builtin_feature f = Some c;
}.

(** What the loop over the dependencies collects. *)
Lemma satisfied_dependencies_Ok s expected deps sat :
  satisfied_dependencies s expected deps = Ok sat →
  (∀ x, x ∈ deps → is_Some (_recognized_protocol_features s !! x)) ∧
  (∀ c, c ∈ sat → c ∈ expected ∧ ∃ x f, x ∈ deps ∧ _recognized_protocol_features s !! x = Some f ∧
     builtin_feature f = Some c).
Proof.
  unfold satisfied_dependencies. intros H. split.
  - intros x Hx. apply elem_of_elements in Hx.
    eapply (fold_res_establish (λ x _, is_Some (_recognized_protocol_features s !! x))); [| |exact H|done].
    + intros sat0 y sat1 _ (f & Hf%of_option_Ok & _)%bind_Ok. by exists f.
    + done.
  - eapply (fold_res_inv (λ sat, ∀ c, c ∈ sat → c ∈ expected ∧ ∃ x f, x ∈ deps ∧
      _recognized_protocol_features s !! x = Some f ∧ builtin_feature f = Some c)); [| |exact H].
    + intros sat0 x sat1 Hx%elem_of_elements IH (f & Hf%of_option_Ok & Hsat)%bind_Ok c Hc.
      destruct (builtin_feature f) as [c0|] eqn:Hc0; [|injection Hsat as <-; by apply IH].
      case_bool_decide as Hin; injection Hsat as <-; [|by apply IH].
      apply elem_of_union in Hc as [->%elem_of_singleton|Hc]; [|by apply IH].
      split; [done|]. by exists x, f.
    + set_solver.
Qed.

Lemma extend_to_lookup {A} (l : list A) i x : (i < length (extend_to l i x))%nat.
Proof. unfold extend_to. rewrite length_app, length_replicate. lia. Qed.

Lemma extend_to_Some {A} (l : list (option A)) i j y :
  extend_to l i None !! j = Some (Some y) ↔ l !! j = Some (Some y).
Proof.
  unfold extend_to. rewrite lookup_app_Some. split; [|by left].
  intros [?|[_ [? _]%lookup_replicate]]; done.
Qed.

Lemma add_feature_inv s f s' :
  feature_set_inv s → add_feature hash_feature s f = Ok s' → feature_set_inv s'.
Proof.
  intros [Hkey Hcl Hbu Hix] Hadd. unfold add_feature in Hadd.
  apply bind_Ok in Hadd as (spec & Hspec%of_option_Ok & (u1 & Hfree%EOS_ASSERT_Ok &
    (sat & Hsat & (u2 & Hsize%EOS_ASSERT_Ok & (u3 & Hnew%EOS_ASSERT_Ok & [= <-])%bind_Ok)%bind_Ok)%bind_Ok)%bind_Ok).
  bool_prop. apply Nat.leb_le in Hsize. apply satisfied_dependencies_Ok in Hsat as [Hdeps Hsat].
  set (fd := digest hash_feature f) in *. set (c := _codename f) in *.
  assert (builtin_dependencies spec ⊆ sat) as Hall.
  { assert (sat ⊆ builtin_dependencies spec) as Hsub by (intros c' Hc'; by apply Hsat).
    intros c' Hc'. apply set_subseteq_size_eq in Hsub; [|lia]. by rewrite Hsub. }
  assert (∀ x g, _recognized_protocol_features s !! x = Some g → x ≠ fd) as Hold by congruence.
  split; simpl.
  - intros d g [[<- <-]|[_ Hg]]%lookup_insert_Some; [done|by apply Hkey].
  - intros d g x [[<- <-]|[_ Hg]]%lookup_insert_Some Hx; rewrite lookup_insert_is_Some'; right.
    + by apply Hdeps.
    + by eapply Hcl.
  - intros d g [[<- <-]|[Hne Hg]]%lookup_insert_Some; simpl.
    + exists c, spec. split_and!; [done..|apply list_lookup_insert_eq, extend_to_lookup|].
      intros c' Hc'. destruct (Hsat c' (Hall c' Hc')) as (_ & x & h & Hx & Hh & Hb).
      exists x, h. split_and!; [done| |done]. rewrite lookup_insert_ne; [done|].
      intros Heq. by apply (Hold x h Hh).
    + destruct (Hbu d g Hg) as (c0 & spec0 & Hc0 & Hs0 & Hi0 & Hd0). exists c0, spec0.
      split_and!; [done..| |].
      * rewrite list_lookup_insert_ne; [by apply extend_to_Some|]. intros Heq.
        rewrite Heq, Hi0 in Hfree. done.
      * intros c' Hc'. destruct (Hd0 c' Hc') as (x & h & Hx & Hh & Hb). exists x, h.
        split_and!; [done| |done]. rewrite lookup_insert_ne; [done|]. intros Heq. by apply (Hold x h Hh).
  - intros c0 d Hl. destruct (decide (feature_index c = feature_index c0)) as [Heq|Hne].
    + rewrite Heq, list_lookup_insert_eq in Hl by (rewrite <- Heq; apply extend_to_lookup).
      injection Hl as <-. eexists. split; [apply lookup_insert_eq|]. simpl. f_equal. by apply (inj feature_index).
    + rewrite list_lookup_insert_ne, extend_to_Some in Hl by done.
      destruct (Hix c0 d Hl) as (g & Hg & Hb). exists g. split; [|done].
      rewrite lookup_insert_ne; [done|]. intros ->. by eapply Hold.
Qed.

Lemma empty_feature_set_inv : feature_set_inv empty_feature_set.
Proof. unfold empty_feature_set. split; simpl; intros; by simplify_map_eq. Qed.

(** In a set made by adding features one by one, every dependency of a
    feature is itself recognized, the builtin features its code name depends
    on are among its dependencies, and the digest looked up by code name is the
    digest of the feature that was added with it. *)
Theorem recognized_features_closed fs s :
  fold_res (add_feature hash_feature) empty_feature_set fs = Ok s →
  ∀ d f, get_protocol_feature s d = Ok f →
    feature_digest f = d ∧
    validate_dependencies s d (λ x, bool_decide (is_Some (_recognized_protocol_features s !! x))) = true ∧
    ∃ c spec, builtin_feature f = Some c ∧ get_builtin_digest s c = Some d ∧ find_spec c = Some spec ∧
      ∀ c', c' ∈ builtin_dependencies spec → ∃ x, get_builtin_digest s c' = Some x ∧ x ∈ dependencies f.
Proof.
  intros Hfs d f Hf%of_option_Ok.
  assert (feature_set_inv s) as Hinv.
  { eapply (fold_res_inv feature_set_inv); [|exact empty_feature_set_inv|exact Hfs].
    intros s0 g s1 _. apply add_feature_inv. }
  split; [by eapply fs_key|]. split.
  - unfold validate_dependencies. rewrite Hf. apply forallb_forall. intros x Hx%list_elem_of_In%elem_of_elements.
    bool_prop. by eapply fs_closed.
  - destruct (fs_builtin s Hinv d f Hf) as (c & spec & Hc & Hspec & Hi & Hdeps). exists c, spec.
    assert (∀ c x g, _recognized_protocol_features s !! x = Some g → builtin_feature g = Some c →
      get_builtin_digest s c = Some x) as Hget.
    { intros c0 x g Hg Hb. destruct (fs_builtin s Hinv x g Hg) as (c1 & sp & Hc1 & _ & Hi1 & _).
      rewrite Hb in Hc1. injection Hc1 as <-. unfold get_builtin_digest. rewrite Hi1, Hg. simpl.
      f_equal. by eapply fs_key. }
    split_and!; [done|by eapply Hget|done|]. intros c' Hc'. destruct (Hdeps c' Hc') as (x & g & Hx & Hg & Hb).
    exists x. split; [by eapply Hget|done].
Qed.
End feature_set.

(** ** An example *)

Definition demo_hex (s : string) : digest_type := mk_digest (Z.of_nat (String.length s)) 0 0 0.
Definition demo_feature_hash (_ : Z) (_ : digest_type) (_ : gset digest_type) (i : nat) : digest_type :=
  mk_digest (Z.of_nat i) 1 1 1.
Definition demo_digest (c : builtin_protocol_feature_t) : digest_type :=
  mk_digest (Z.of_nat (feature_index c)) 1 1 1.

(** Three default features, one depending on another. *)
Definition demo_features : list builtin_protocol_feature :=
  omap (λ c, match make_default_builtin_protocol_feature demo_hex c demo_digest with
             | Ok f => Some f
             | Throw _ => None
             end)
    [preactivate_feature; replace_deferred; no_duplicate_deferred_id].
Definition demo_feature_set : protocol_feature_set :=
  match fold_res (add_feature demo_feature_hash) empty_feature_set demo_features with
  | Ok s => s
  | Throw _ => empty_feature_set
  end.

(** Activations in blocks 5, 9 and 9. *)
Definition demo_activations : list (digest_type * Z) :=
  [(demo_digest preactivate_feature, 5); (demo_digest replace_deferred, 9);
   (demo_digest no_duplicate_deferred_id, 9)].
Definition demo_manager : protocol_feature_manager :=
  match init (new_manager demo_feature_set) demo_activations with
  | Ok m => m
  | Throw _ => new_manager demo_feature_set
  end.

Lemma demo_below : below_not_active demo_activations.
Proof. repeat constructor. Qed.

Lemma popped_blocks_to_undoes_witness :
  init (new_manager demo_feature_set) demo_activations = Ok demo_manager ∧
  popped_blocks_to demo_manager 8 =
    init (new_manager demo_feature_set) (filter (λ a, a.2 ≤ 8) demo_activations).
Proof.
  assert (init (new_manager demo_feature_set) demo_activations = Ok demo_manager) as Hm
    by (vm_compute; reflexivity).
  split; [exact Hm|].
  exact (popped_blocks_to_undoes demo_feature_set demo_activations demo_manager 8 Hm demo_below).
Defined.

Lemma is_builtin_activated_iff_witness :
  is_builtin_activated demo_manager replace_deferred 9 = true ∧
  is_builtin_activated demo_manager replace_deferred 8 = false ∧
  ∃ d b f, (d, b) ∈ demo_activations ∧ b ≤ 9 ∧
    _recognized_protocol_features demo_feature_set !! d = Some f ∧
    builtin_feature f = Some replace_deferred.
Proof.
  split; [vm_compute; reflexivity|]. split; [vm_compute; reflexivity|].
  apply (is_builtin_activated_iff demo_feature_set demo_activations demo_manager replace_deferred 9);
    [vm_compute; reflexivity|exact demo_below|vm_compute; reflexivity|vm_compute; reflexivity].
Defined.

Lemma recognized_features_closed_witness :
  ∃ f, get_protocol_feature demo_feature_set (demo_digest no_duplicate_deferred_id) = Ok f ∧
    feature_digest f = demo_digest no_duplicate_deferred_id.
Proof.
  destruct (get_protocol_feature demo_feature_set (demo_digest no_duplicate_deferred_id)) as [f|e] eqn:Hf;
    [|vm_compute in Hf; discriminate Hf].
  exists f. split; [reflexivity|].
  assert (fold_res (add_feature demo_feature_hash) empty_feature_set demo_features = Ok demo_feature_set)
    as Hs by (vm_compute; reflexivity).
  exact (proj1 (recognized_features_closed demo_feature_hash demo_features demo_feature_set Hs _ f Hf)).
Defined.
