(* ===== verification/Controller.v ===== *)
(** * The chain of blocks in the controller ([controller.cpp])

    How blocks are received, applied, undone and made irreversible: the
    operations of [controller_impl] on its head block, the fork database, the
    block log, the table of reversible blocks, the manager of protocol
    features and the undo sessions of the chain database.

    An operation may change the state and then throw, and some callers catch
    the exception and go on, so operations are functions from a state to a
    state and a result.  [catch ( const fc::exception& )] does not catch the
    exceptions of the standard library ([is_fc]).  What happens inside a block
    after its start (the implicit transaction, the transactions and
    [finalize_block]) is the interface [BlockExec]; other files model what it
    consists of.  Signals to plugins are not modelled.

    A block state is shared between the controller and the fork database,
    which sets its flag [validated]: where the code stores a pointer to a block
    it has just marked, the model stores the block with the flag set. *)

From S2P Require Import Prelude Config BlockTimestamp Merkle BlockHeader BlockHeaderState ForkDatabase ProtocolFeatures BlockLog.
Local Open Scope Z_scope.

(** [controller::block_status] *)
Inductive block_status := irreversible | validated_block | complete | incomplete.
#[export] Instance block_status_eq_dec : EqDecision block_status.
Proof. solve_decision. Defined.

(** [db_read_mode] *)
Inductive db_read_mode := SPECULATIVE | HEAD | READ_ONLY | IRREVERSIBLE.
#[export] Instance db_read_mode_eq_dec : EqDecision db_read_mode.
Proof. solve_decision. Defined.

(** Exceptions that are not of the family [fc::exception]. *)
Definition is_fc (e : exn) : bool :=
  match e with
  | std_out_of_range | std_logic_error | std_ios_failure | bad_alloc | undefined_behaviour | out_of_fuel => false
  | _ => true
  end.

(** The macros [FC_CAPTURE_AND_RETHROW] and [FC_LOG_AND_RETHROW] turn an
    exception of the standard library into one of fc.  Undefined behaviour is
    not an exception. *)
Definition rethrown (e : exn) : exn :=
  match e with
  | std_out_of_range | std_logic_error | std_ios_failure | bad_alloc => unhandled_exception
  | e => e
  end.

(** ** Undo sessions

    The database of the chain ([chainbase::database]) with contents [S].  The
    revision counts the sessions; [undo_points] are the contents that [undo]
    goes back to, the last session first. *)
Class UndoDb (S : Type) := {
  undo_db : Type;
  contents : undo_db → S;
  undo_points : undo_db → list S;
  revision : undo_db → Z;
  set_contents : S → undo_db → undo_db;
  start_undo_session : undo_db → undo_db;
  undo : undo_db → undo_db;
  commit : Z → undo_db → undo_db;
}.

Class UndoLaws {S} (u : UndoDb S) : Prop := {
  set_contents_spec : ∀ s d, contents (set_contents s d) = s ∧
    undo_points (set_contents s d) = undo_points d ∧ revision (set_contents s d) = revision d;
  start_spec : ∀ d, contents (start_undo_session d) = contents d ∧
    undo_points (start_undo_session d) = contents d :: undo_points d ∧
    revision (start_undo_session d) = revision d + 1;
  undo_spec : ∀ d s l, undo_points d = s :: l →
    contents (undo d) = s ∧ undo_points (undo d) = l ∧ revision (undo d) = revision d - 1;
  commit_spec : ∀ r d, contents (commit r d) = contents d ∧ revision (commit r d) = revision d ∧
    undo_points (commit r d) = take (Z.to_nat (revision d - r)) (undo_points d);
}.

(** [protocol_state_object] without the whitelist of intrinsics. *)
Record protocol_state := mk_protocol_state {
  preactivated : list digest_type;
  activated : list (digest_type * Z);
}.

(** What a block does to the contents of the database between the activation
    of its protocol features and the end of [finalize_block]: the new
    contents, the transactions taken into the block, and its id or the
    exception it ended with; [run_start] is the part inside [start_block]. *)
Class BlockExec (PT S : Type) := {
  get_pso : S → protocol_state;
  set_pso : protocol_state → S → S;
  on_activation : builtin_protocol_feature_t → S → result S;
  run_start : S → block_header_state → pending_block_header_state → block_status → S * result unit;
  run_block : S → pending_block_header_state → signed_block PT → block_status →
    S * list PT * result digest_type;
  signed_id : PT → digest_type;
}.

Section controller.
Context {PT S G : Type} {cr : Crypto} {bf : BlockFc PT} {u : UndoDb S} {be : BlockExec PT S}.

Abbreviation bstate := (block_state PT).

(** [conf.disable_replay_opts] *)
Variable disable_replay_opts : bool.
(** [fc::milliseconds( n ).count()] *)
Variable milliseconds : Z → Z.

(** [pending_state]: the transactions of the stage, the block state when the
    stage is [completed_block], and whether there is a session. *)
Record pending_state := mk_pending_state {
  pd_status : block_status;
  pd_session : bool;
  pd_metas : list PT;
  pd_completed : option bstate;
}.

Record controller := mk_controller {
  c_db : undo_db;
  c_reversible : gmap Z (signed_block PT);
  c_blog : @block_log PT;
  c_pending : option pending_state;
  c_head : bstate;
  c_fork : @fork_database PT;
  c_features : protocol_feature_manager;
  c_unapplied : gmap digest_type PT;
  c_mode : db_read_mode;
  c_replaying : bool;
}.

Definition set_db d c := mk_controller d (c_reversible c) (c_blog c) (c_pending c) (c_head c) (c_fork c)
  (c_features c) (c_unapplied c) (c_mode c) (c_replaying c).
Definition set_reversible r c := mk_controller (c_db c) r (c_blog c) (c_pending c) (c_head c) (c_fork c)
  (c_features c) (c_unapplied c) (c_mode c) (c_replaying c).
Definition set_blog l c := mk_controller (c_db c) (c_reversible c) l (c_pending c) (c_head c) (c_fork c)
  (c_features c) (c_unapplied c) (c_mode c) (c_replaying c).
Definition set_pending p c := mk_controller (c_db c) (c_reversible c) (c_blog c) p (c_head c) (c_fork c)
  (c_features c) (c_unapplied c) (c_mode c) (c_replaying c).
Definition set_head h c := mk_controller (c_db c) (c_reversible c) (c_blog c) (c_pending c) h (c_fork c)
  (c_features c) (c_unapplied c) (c_mode c) (c_replaying c).
Definition set_fork f c := mk_controller (c_db c) (c_reversible c) (c_blog c) (c_pending c) (c_head c) f
  (c_features c) (c_unapplied c) (c_mode c) (c_replaying c).
Definition set_features m c := mk_controller (c_db c) (c_reversible c) (c_blog c) (c_pending c) (c_head c)
  (c_fork c) m (c_unapplied c) (c_mode c) (c_replaying c).
Definition set_unapplied t c := mk_controller (c_db c) (c_reversible c) (c_blog c) (c_pending c) (c_head c)
  (c_fork c) (c_features c) t (c_mode c) (c_replaying c).

(** ** Operations that throw after they have changed the state *)

Definition op (A : Type) : Type := controller → controller * result A.

Definition ret {A} (a : A) : op A := λ c, (c, Ok a).
Definition andthen {A B} (m : op A) (k : A → op B) : op B := λ c,
  match m c with
  | (c', Ok a) => k a c'
  | (c', Throw e) => (c', Throw e)
  end.
Definition lift {A} (r : result A) : op A := λ c, (c, r).
Definition get {A} (f : controller → A) : op A := λ c, (c, Ok (f c)).
Definition change (f : controller → controller) : op unit := λ c, (f c, Ok tt).

(** [try { m } catch( const fc::exception& e ) { h }] where [h] ends with [throw] or not. *)
Definition catch_fc {A} (m : op A) (h : exn → op A) : op A := λ c,
  match m c with
  | (c', Throw e) => if is_fc e then h e c' else (c', Throw e)
  | r => r
  end.

(** [try { m } catch (...) { h; throw; }], and a scope guard that is not cancelled. *)
Definition on_throw {A} (m : op A) (h : op unit) : op A := λ c,
  match m c with
  | (c', Throw e) =>
      match e with
      | undefined_behaviour | out_of_fuel => (c', Throw e)
      | _ => match h c' with
             | (c'', Ok _) => (c'', Throw e)
             | (c'', Throw e') => (c'', Throw e')
             end
      end
  | r => r
  end.

Definition rethrow {A} (m : op A) : op A := λ c,
  match m c with
  | (c', Throw e) => (c', Throw (rethrown e))
  | r => r
  end.

Fixpoint each {A} (f : A → op unit) (l : list A) : op unit :=
  match l with
  | [] => ret tt
  | x :: l => andthen (f x) (λ _, each f l)
  end.

Local Notation "x <- m ;; k" := (andthen m (λ x, k)) (at level 100, m at next level, right associativity).
Local Notation "m ;;; k" := (andthen m (λ _, k)) (at level 100, right associativity).

Definition when_ (b : bool) (m : op unit) : op unit := if b then m else ret tt.

(** [skip_db_sessions( bs )]; no transaction is being checked between blocks. *)
Definition skip_db_sessions (bs : block_status) : bool :=
  bool_decide (bs = irreversible) && negb disable_replay_opts.

(** ** Pending blocks *)

Definition add_unapplied (l : list PT) : op unit :=
  change (λ c, set_unapplied (foldl (λ m t, <[signed_id t := t]> m) (c_unapplied c) l) c).

Definition popped_to (block_num : Z) : op unit :=
  m <- get c_features;;
  m' <- lift (popped_blocks_to m block_num);;
  change (set_features m').

(** [pending.reset()]: the destructor of a session that was not pushed undoes it. *)
Definition reset_pending : op unit :=
  p <- get c_pending;;
  change (λ c, set_pending None (if from_option pd_session false p then set_db (undo (c_db c)) c else c)).

(** [get_trx_metas] *)
Definition get_trx_metas (p : pending_state) : list PT :=
  match pd_completed p with Some b => trxs b | None => pd_metas p end.

(** [abort_block] *)
Definition abort_block : op unit :=
  p <- get c_pending;;
  match p with
  | None => ret tt
  | Some p =>
      mode <- get c_mode;;
      when_ (bool_decide (mode = SPECULATIVE)) (add_unapplied (get_trx_metas p));;;
      reset_pending;;;
      n <- get (λ c, block_num (c_head c));;
      popped_to n
  end.

(** The activation of one feature in [start_block]: which of the preactivated
    features have been activated, and how many. *)
Definition activate_one (current : Z) (st : gmap digest_type bool * nat) (d : digest_type)
    : op (gmap digest_type bool * nat) :=
  m <- get c_features;;
  f <- lift (get_protocol_feature (_protocol_feature_set m) d);;
  st <- lift (match st.1 !! d with
              | None =>
                  _ ← EOS_ASSERT (negb (pf_preactivation_required f)) protocol_feature_exception;
                  Ok (<[d := true]> st.1, st.2)
              | Some already =>
                  _ ← EOS_ASSERT (negb already) block_validate_exception;
                  Ok (<[d := true]> st.1, Datatypes.S st.2)
              end);;
  match builtin_feature f with
  | Some b =>
      s <- get (λ c, contents (c_db c));;
      s <- lift (on_activation b s);;
      change (λ c, set_db (set_contents s (c_db c)) c)
  | None => ret tt
  end;;;
  m' <- lift (activate_feature m d current);;
  change (set_features m');;;
  ret st.

Fixpoint activate_all (current : Z) (st : gmap digest_type bool * nat) (l : list digest_type)
    : op (gmap digest_type bool * nat) :=
  match l with
  | [] => ret st
  | d :: l => st <- activate_one current st d;; activate_all current st l
  end.

(** The protocol features that start with the block. *)
Definition start_features (current : Z) (new : list digest_type) : op unit :=
  pso <- get (λ c, get_pso (contents (c_db c)));;
  let num := length (preactivated pso) in
  let flags := foldl (λ m d, <[d := false]> m) ∅ (preactivated pso) in
  st <- (if (0 <? length new)%nat then activate_all current (flags, 0%nat) new else ret (flags, 0%nat));;
  lift (EOS_ASSERT ((num =? 0)%nat || ((0 <? length new)%nat && (st.2 =? num)%nat)) block_validate_exception);;;
  when_ (0 <? length new)%nat
    (change (λ c, let s := contents (c_db c) in
       let pso := get_pso s in
       set_db (set_contents
         (set_pso (mk_protocol_state [] (activated pso ++ ((λ d, (d, current)) <$> new))) s) (c_db c)) c)).

(** [start_block] *)
Definition start_block (when_t confirm_block_count : Z) (new : list digest_type) (s : block_status)
    : op pending_block_header_state :=
  p <- get c_pending;;
  lift (EOS_ASSERT (bool_decide (p = None)) block_validate_exception);;;
  head <- get c_head;;
  on_throw
    (rev <- get (λ c, revision (c_db c));;
     (if skip_db_sessions s then ret tt
      else lift (EOS_ASSERT (rev =? block_num head) database_exception));;;
     pbhs <- lift (next head when_t confirm_block_count);;
     change (λ c, set_pending (Some (mk_pending_state s (negb (skip_db_sessions s)) [] None))
                    (if skip_db_sessions s then c else set_db (start_undo_session (c_db c)) c));;;
     mode <- get c_mode;;
     when_ (bool_decide (mode = SPECULATIVE) || bool_decide (s ≠ incomplete))
       (start_features (block_num pbhs) new;;;
        st <- get (λ c, contents (c_db c));;
        let '(st, r) := run_start st head pbhs s in
        change (λ c, set_db (set_contents st (c_db c)) c);;;
        lift r);;;
     ret pbhs)
    (popped_to (block_num head);;; reset_pending).

(** ** The end of a block *)

Definition fork_op (f : @fork_database PT → result (@fork_database PT)) : op unit :=
  db <- get c_fork;;
  db' <- lift (f db);;
  change (set_fork db').

(** The row of the applied block in the table of reversible blocks. *)
Definition store_reversible (bsp : bstate) : op unit :=
  b <- lift (of_option undefined_behaviour (block bsp));;
  r <- get c_reversible;;
  lift (EOS_ASSERT (bool_decide (r !! block_num bsp = None)) std_logic_error);;;
  change (λ c, set_reversible (<[block_num bsp := b]> (c_reversible c)) c).

(** [commit_block]; [log] is [log_irreversible]. *)
Definition commit_block (log : op unit) (add_to_fork_db : bool) : op unit :=
  on_throw
    (p <- get c_pending;;
     p <- lift (of_option undefined_behaviour p);;
     bsp <- lift (of_option block_validate_exception (pd_completed p));;
     when_ add_to_fork_db
       (fork_op (λ db, add db (Some bsp) false);;;
        fork_op (λ db, mark_valid db bsp);;;
        h <- get (λ c, head (c_fork c));;
        h <- lift (deref h);;
        change (set_head h);;;
        lift (EOS_ASSERT (bool_decide (id bsp = id h)) fork_database_exception));;;
     replaying <- get c_replaying;;
     mode <- get c_mode;;
     when_ (negb replaying && bool_decide (mode ≠ IRREVERSIBLE)) (store_reversible bsp);;;
     when_ add_to_fork_db log)
    abort_block;;;
  change (set_pending None).

(** [apply_block] *)
Definition apply_block (bsp : bstate) (s : block_status) : op unit :=
  rethrow (catch_fc
    (b <- lift (of_option undefined_behaviour (block bsp));;
     lift (EOS_ASSERT (length (block_extensions b) =? 0)%nat block_validate_exception);;;
     pbhs <- start_block (timestamp (sb_header b)) (confirmed (sb_header b)) (get_new_protocol_feature_activations bsp) s;;
     st <- get (λ c, contents (c_db c));;
     let '(st, metas, r) := run_block st pbhs b s in
     change (λ c, set_pending (Some (mk_pending_state s (negb (skip_db_sessions s)) metas None))
                    (set_db (set_contents st (c_db c)) c));;;
     i <- lift r;;
     lift (EOS_ASSERT (bool_decide (header_id (sb_header b) = i)) block_validate_exception);;;
     done <- lift (block_state_of_applied pbhs b metas (λ _ _ _, Ok tt) true);;
     change (set_pending (Some (mk_pending_state s (negb (skip_db_sessions s)) metas (Some done))));;;
     commit_block (ret tt) false)
    (λ e, abort_block;;; lift (Throw e))).

(** ** Irreversible blocks *)

(** [fork_db.advance_root( root_id )], unless it is the root already. *)
Definition finish_root (root_id : digest_type) : op unit :=
  r <- get (λ c, root (c_fork c));;
  r <- lift (deref r);;
  when_ (bool_decide (root_id ≠ id r)) (fork_op (λ db, advance_root db root_id)).

Definition append_block (bsp : bstate) : op unit :=
  b <- lift (of_option undefined_behaviour (block bsp));;
  l <- get c_blog;;
  r <- lift (append l b);;
  change (set_blog r.2).

(** The loop of [log_irreversible], the oldest block first; the handler uses
    the last block that [root_id] was set to. *)
Fixpoint log_blocks (root_id : digest_type) (l : list bstate) : op digest_type :=
  match l with
  | [] => ret root_id
  | b :: l =>
      let failing (i : digest_type) (e : exn) : op unit := finish_root i;;; lift (Throw e) in
      mode <- get c_mode;;
      catch_fc
        (when_ (bool_decide (mode = IRREVERSIBLE))
           (apply_block b complete;;;
            change (set_head b);;;
            fork_op (λ db, mark_valid db b);;;
            change (set_head (set_validated true b)));;;
         change (λ c, set_db (commit (block_num b) (c_db c)) c)) (failing root_id);;;
      catch_fc
        (append_block b;;;
         change (λ c, set_reversible (filter (λ kv, block_num b < kv.1) (c_reversible c)) c))
        (failing (id b));;;
      log_blocks (id b) l
  end.

(** [log_irreversible] *)
Definition log_irreversible : op unit :=
  r <- get (λ c, root (c_fork c));;
  r <- lift (of_option fork_database_exception r);;
  l <- get c_blog;;
  let lib_num := match log_head l with
                 | Some b => header_block_num (sb_header b)
                 | None => u32 (first_block_num l - 1)
                 end in
  lift (match log_head l with
        | Some b => EOS_ASSERT (bool_decide (id r = header_id (sb_header b))) fork_database_exception
        | None => EOS_ASSERT (block_num r =? lib_num) fork_database_exception
        end);;;
  mode <- get c_mode;;
  db <- get c_fork;;
  h <- lift (if bool_decide (mode = IRREVERSIBLE) then pending_head db else Ok (head db));;
  h <- lift (deref h);;
  if dpos_irreversible_blocknum h <=? lib_num then ret tt
  else
    branch <- lift (fetch_branch db (id h) (dpos_irreversible_blocknum h));;
    i <- log_blocks (id r) (reverse branch);;
    finish_root i.

(** ** Switching forks *)

(** [pop_block] *)
Definition pop_block : op unit :=
  h <- get c_head;;
  db <- get c_fork;;
  prev <- lift (match get_block db (previous (header h)) with
                | Some b => Ok b
                | None =>
                    deref (root db) ≫= λ r : bstate,
                    _ ← EOS_ASSERT (bool_decide (id r = previous (header h))) block_validate_exception;
                    Ok r
                end);;
  change (λ c, set_reversible (delete (block_num h) (c_reversible c)) c);;;
  mode <- get c_mode;;
  when_ (bool_decide (mode = SPECULATIVE))
    (lift (EOS_ASSERT (bool_decide (is_Some (block h))) block_validate_exception);;;
     add_unapplied (trxs h));;;
  change (set_head prev);;;
  change (λ c, set_db (undo (c_db c)) c);;;
  popped_to (block_num prev).

Definition apply_and_mark (b : bstate) (s : block_status) : op unit :=
  apply_block b s;;;
  fork_op (λ db, mark_valid db b);;;
  change (set_head (set_validated true b)).

(** [self.head_block_id() == branches.second.back()->header.previous] *)
Definition check_sync (second : list bstate) : op unit :=
  b <- lift (of_option undefined_behaviour (last second));;
  h <- get c_head;;
  lift (EOS_ASSERT (bool_decide (id h = previous (header b))) fork_database_exception).

(** Going back to the old branch after block [bad] of the new one has failed,
    of which [applied] blocks had been applied. *)
Definition revert_switch (second : list bstate) (applied : nat) (bad : bstate) (e : exn) : op unit :=
  fork_op (λ db, remove db (id bad));;;
  each (λ _, pop_block) (replicate applied tt);;;
  check_sync second;;;
  each (λ b, apply_block b validated_block;;; change (set_head b)) (reverse second);;;
  lift (Throw e).

Fixpoint apply_branch (second : list bstate) (applied : nat) (l : list bstate) : op unit :=
  match l with
  | [] => ret tt
  | b :: l =>
      catch_fc (apply_and_mark b (if is_valid b then validated_block else complete))
               (revert_switch second applied b);;;
      apply_branch second (Datatypes.S applied) l
  end.

Definition switch_to (new_head : bstate) : op unit :=
  db <- get c_fork;;
  h <- get c_head;;
  branches <- lift (fetch_branch_from db (id new_head) (id h));;
  when_ (0 <? length branches.2)%nat
    (each (λ _, pop_block) branches.2;;; check_sync branches.2);;;
  apply_branch branches.2 0 (reverse branches.1).

(** [maybe_switch_forks] *)
Definition maybe_switch_forks (new_head : bstate) (s : block_status) : op unit :=
  h <- get c_head;;
  if decide (previous (header new_head) = id h) then
    catch_fc (apply_and_mark new_head s)
      (λ e, fork_op (λ db, remove db (id new_head));;; lift (Throw e));;;
    log_irreversible
  else if decide (id new_head ≠ id h) then switch_to new_head;;; log_irreversible
  else ret tt.

(** ** Receiving blocks *)

(** [check_protocol_features] *)
Fixpoint check_features_loop (pfs : protocol_feature_set) (now : Z) (current : gset digest_type)
    (before : list digest_type) (l : list digest_type) : result unit :=
  match l with
  | [] => Ok tt
  | f :: l =>
      _ ← EOS_ASSERT (match is_recognized pfs f now with ready => true | _ => false end)
            protocol_feature_exception;
      _ ← EOS_ASSERT (bool_decide (f ∉ current)) protocol_feature_exception;
      _ ← EOS_ASSERT (validate_dependencies pfs f
                        (λ d, bool_decide (d ∈ current) || bool_decide (d ∈ before))) protocol_feature_exception;
      check_features_loop pfs now current (before ++ [f]) l
  end.

Definition check_protocol_features (pfs : protocol_feature_set) (timestamp : Z) (current : gset digest_type)
    (new : list digest_type) : result unit :=
  check_features_loop pfs (to_time_point block_interval_ms block_timestamp_epoch milliseconds timestamp) current [] new.

(** [create_block_state_future] *)
Definition create_block_state (b : option (signed_block PT)) : op bstate :=
  b <- lift (of_option block_validate_exception b);;
  db <- get c_fork;;
  lift (EOS_ASSERT (bool_decide (get_block db (header_id (sb_header b)) = None)) fork_database_exception);;;
  prev <- lift (get_block_header db (previous (sb_header b)));;
  prev <- lift (of_option unlinkable_block_exception prev);;
  m <- get c_features;;
  lift (block_state_of_received prev b (check_protocol_features (_protocol_feature_set m)) false).

(** [push_block] *)
Definition push_block (bsp : bstate) : op unit :=
  p <- get c_pending;;
  lift (EOS_ASSERT (bool_decide (p = None)) block_validate_exception);;;
  rethrow
    (fork_op (λ db, add db (Some bsp) false);;;
     mode <- get c_mode;;
     if bool_decide (mode ≠ IRREVERSIBLE) then
       db <- get c_fork;;
       h <- lift (pending_head db);;
       h <- lift (deref h);;
       maybe_switch_forks h complete
     else log_irreversible).

(** A block that is received: [create_block_state_future] and [push_block]. *)
Definition receive_block (b : option (signed_block PT)) : op unit :=
  bsp <- create_block_state b;;
  push_block bsp.
End controller.
