(* ===== verification/ControllerTheory.v ===== *)
(** * The state of the chain is the replay of its blocks

    The controller keeps four things in step while blocks arrive, are applied
    and are undone on forks: the head block, the fork database, the contents of
    the chain database with its undo sessions, and the log of irreversible
    blocks.  The invariant [chain_inv] says how, and is kept by every block
    that is received, whatever it is and however its application ends. *)

From S2P Require Import Prelude Config BlockTimestamp Merkle BlockHeader BlockHeaderState ForkDatabase ForkTree ProtocolFeatures BlockLog Controller.
Local Open Scope Z_scope.

(** ** Reasoning about operations *)

(** Results that are not undefined. *)
Definition defined {A} (r : result A) : Prop := r ≠ Throw undefined_behaviour ∧ r ≠ Throw out_of_fuel.

(** Results whose exceptions are caught as [fc::exception], when defined. *)
Definition clean {A} (r : result A) : Prop := ∀ e, r = Throw e → defined r → is_fc e = true.

Section wp.
Context {PT S : Type} {u : UndoDb S}.
Abbreviation controller := (@controller PT S u).
Abbreviation op := (@op PT S u).

(** All defined outcomes of [m] in [c] satisfy [Q]. *)
Definition wp {A} (m : op A) (Q : controller → result A → Prop) (c : controller) : Prop :=
  ∀ c' r, m c = (c', r) → defined r → Q c' r.

Lemma wp_mono {A} (m : op A) (Q Q' : controller → result A → Prop) c :
  wp m Q c → (∀ c' r, defined r → Q c' r → Q' c' r) → wp m Q' c.
Proof. intros H HQ c' r Hm Hr. apply HQ; [done|]. by apply H. Qed.

Lemma wp_ret {A} (a : A) Q c : Q c (Ok a) → wp (ret a) Q c.
Proof. intros H c' r [= <- <-] _. done. Qed.

Lemma wp_lift {A} (r : result A) Q c : (defined r → Q c r) → wp (lift r) Q c.
Proof. intros H c' r' [= <- <-]. done. Qed.

Lemma wp_get {A} (f : controller → A) Q c : Q c (Ok (f c)) → wp (get f) Q c.
Proof. intros H c' r [= <- <-] _. done. Qed.

Lemma wp_change f Q c : Q (f c) (Ok tt) → wp (change f) Q c.
Proof. intros H c' r [= <- <-] _. done. Qed.

Lemma wp_andthen {A B} (m : op A) (k : A → op B) Q c :
  wp m (λ c' r, match r with Ok a => wp (k a) Q c' | Throw e => Q c' (Throw e) end) c →
  wp (andthen m k) Q c.
Proof.
  intros H c' r Hm Hr. unfold andthen in Hm. destruct (m c) as [c1 [a|e]] eqn:E.
  - apply (H c1 (Ok a)); done.
  - injection Hm as <- <-. apply (H c1 (Throw e) E). unfold defined in *. split; naive_solver.
Qed.

Lemma wp_catch_fc {A} (m : op A) h Q c :
  wp m (λ c' r, match r with
                | Ok a => Q c' (Ok a)
                | Throw e => if is_fc e then wp (h e) Q c' else Q c' (Throw e)
                end) c →
  wp (catch_fc m h) Q c.
Proof.
  intros H c' r Hm Hr. unfold catch_fc in Hm. destruct (m c) as [c1 [a|e]] eqn:E.
  { injection Hm as <- <-. by apply (H c1 (Ok a)). }
  destruct (is_fc e) eqn:Ee.
  - assert (defined (@Throw A e)) as Hd by (split; intros [= ->]; done).
    specialize (H _ _ E Hd). simpl in H. rewrite Ee in H. by apply H.
  - injection Hm as <- <-. specialize (H _ _ E Hr). simpl in H. by rewrite Ee in H.
Qed.

Lemma wp_on_throw {A} (m : op A) h Q c :
  wp m (λ c' r, match r with
                | Ok a => Q c' (Ok a)
                | Throw e => wp h (λ c'' r', match r' with
                                             | Ok _ => Q c'' (Throw e)
                                             | Throw e' => Q c'' (Throw e')
                                             end) c'
                end) c →
  wp (on_throw m h) Q c.
Proof.
  intros H c' r Hm Hr. unfold on_throw in Hm. destruct (m c) as [c1 [a|e]] eqn:E.
  { injection Hm as <- <-. by apply (H c1 (Ok a)). }
  assert (defined (@Throw A e) → match h c1 with
    | (c2, Ok _) => Q c2 (Throw e)
    | (c2, Throw e') => defined (@Throw A e') → Q c2 (Throw e') end) as Hh.
  { intros Hd. specialize (H _ _ E Hd). simpl in H. destruct (h c1) as [c2 [[]|e']] eqn:Eh.
    - by apply (H c2 (Ok tt)).
    - intros Hd'. apply (H c2 (Throw e') Eh). unfold defined in *. split; naive_solver. }
  destruct (decide (e = undefined_behaviour)) as [->|Hu]; [by simplify_eq; destruct Hr|].
  destruct (decide (e = out_of_fuel)) as [->|Hf]; [by simplify_eq; destruct Hr|].
  assert ((c', r) = match h c1 with (c2, Ok _) => (c2, Throw e) | (c2, Throw e') => (c2, Throw e') end) as Hc.
  { rewrite <- Hm. by destruct e. }
  assert (defined (@Throw A e)) as Hd by (split; congruence). specialize (Hh Hd).
  destruct (h c1) as [c2 [[]|e']]; injection Hc as -> ->; by auto.
Qed.

Lemma wp_rethrow {A} (m : op A) Q c :
  wp m (λ c' r, match r with Ok a => Q c' (Ok a) | Throw e => Q c' (Throw (rethrown e)) end) c →
  wp (rethrow m) Q c.
Proof.
  intros H c' r Hm Hr. unfold rethrow in Hm. destruct (m c) as [c1 [a|e]] eqn:E; injection Hm as <- <-.
  - by apply (H c1 (Ok a)).
  - apply (H c1 (Throw e) E). unfold defined in *. destruct Hr as [H1 H2]. split; intros [= ->]; [by apply H1|by apply H2].
Qed.

(** The same rules with the outcome of the first part in between. *)
Lemma wp_seq {A B} (m : op A) (k : A → op B) R Q c :
  wp m R c → (∀ c' a, R c' (Ok a) → wp (k a) Q c') → (∀ c' e, R c' (Throw e) → Q c' (Throw e)) →
  wp (andthen m k) Q c.
Proof.
  intros Hm Hk He. apply wp_andthen. eapply wp_mono; [exact Hm|]. intros c' [a|e] _ H; [by apply Hk|by apply He].
Qed.

Lemma wp_guard {A} (m : op A) h R Q c :
  wp m R c → (∀ c' a, R c' (Ok a) → Q c' (Ok a)) →
  (∀ c' e, R c' (Throw e) → wp h (λ c'' _, ∀ e', Q c'' (Throw e')) c') → wp (on_throw m h) Q c.
Proof.
  intros Hm Hk He. apply wp_on_throw. eapply wp_mono; [exact Hm|]. intros c' [a|e] _ H; [by apply Hk|].
  eapply wp_mono; [by eapply He|]. intros c'' [[]|e'] _ HQ; apply HQ.
Qed.

Lemma wp_catch {A} (m : op A) h R Q c :
  wp m R c → (∀ c' a, R c' (Ok a) → Q c' (Ok a)) →
  (∀ c' e, R c' (Throw e) → is_fc e = false → Q c' (Throw e)) →
  (∀ c' e, R c' (Throw e) → is_fc e = true → wp (h e) Q c') → wp (catch_fc m h) Q c.
Proof.
  intros Hm Hk Hn He. apply wp_catch_fc. eapply wp_mono; [exact Hm|]. intros c' [a|e] _ H; [by apply Hk|].
  destruct (is_fc e) eqn:Ee; [by apply He|by apply Hn].
Qed.

Lemma wp_each {A} (f : A → op unit) l Q c (I : list A → controller → Prop) :
  I l c →
  (∀ x l' c', I (x :: l') c' → wp (f x) (λ c'' r, match r with Ok _ => I l' c'' | Throw e => Q c'' (Throw e) end) c') →
  (∀ c', I [] c' → Q c' (Ok tt)) → wp (each f l) Q c.
Proof.
  intros HI Hf Hend. revert c HI. induction l as [|x l IH]; intros c HI; cbn [each].
  - apply wp_ret. by apply Hend.
  - apply wp_andthen. eapply wp_mono; [by apply Hf|]. intros c' [[]|e] _ H; [by apply IH|done].
Qed.
End wp.

Declare Scope op_scope.
Delimit Scope op_scope with op.
Notation "x <- m ;; k" := (andthen m (λ x, k)) (at level 100, m at next level, right associativity) : op_scope.
Notation "m ;;; k" := (andthen m (λ _, k)) (at level 100, right associativity) : op_scope.

Ltac wp_step :=
  first [ apply wp_andthen | apply wp_get | apply wp_change | apply wp_ret
        | apply wp_catch_fc | apply wp_on_throw | apply wp_rethrow ].

(** ** Applying a block *)

Section apply.
Context {PT S : Type} {cr : Crypto} {bf : BlockFc PT} {u : UndoDb S} {ul : UndoLaws u} {be : BlockExec PT S}.
Context (disable_replay_opts : bool) (milliseconds : Z → Z).
Abbreviation bstate := (block_state PT).
Abbreviation controller := (@controller PT S u).
Abbreviation op := (@op PT S u).

(** The features recorded so far are those of the blocks up to the head. *)
Definition features_at pfs (acts : list (digest_type * Z)) (n : Z) (m : protocol_feature_manager) : Prop :=
  init (new_manager pfs) acts = Ok m ∧ Forall (λ a, a.2 ≤ n) acts.

Context (pfs : protocol_feature_set) (acts : list (digest_type * Z)).

(** A block is being applied on top of the head of [c]. *)
Record running (c c1 : controller) : Prop := {
  ru_fork : c_fork c1 = c_fork c;
  ru_blog : c_blog c1 = c_blog c;
  ru_head : c_head c1 = c_head c;
  ru_mode : c_mode c1 = c_mode c;
  ru_replaying : c_replaying c1 = c_replaying c;
  ru_reversible : c_reversible c1 = c_reversible c;
  ru_pending : ∃ p, c_pending c1 = Some p ∧ pd_session p = true;
  ru_points : undo_points (c_db c1) = contents (c_db c) :: undo_points (c_db c);
  ru_revision : revision (c_db c1) = revision (c_db c) + 1;
  ru_features : ∃ new, init (new_manager pfs) (acts ++ new) = Ok (c_features c1) ∧
    Forall (λ a, a.2 = block_num (c_head c) + 1) new;
}.

(** All that the chain consists of is as it was. *)
Record restored (c c1 : controller) : Prop := {
  re_fork : c_fork c1 = c_fork c;
  re_blog : c_blog c1 = c_blog c;
  re_head : c_head c1 = c_head c;
  re_mode : c_mode c1 = c_mode c;
  re_replaying : c_replaying c1 = c_replaying c;
  re_reversible : c_reversible c1 = c_reversible c;
  re_pending : c_pending c1 = None;
  re_contents : contents (c_db c1) = contents (c_db c);
  re_points : undo_points (c_db c1) = undo_points (c_db c);
  re_revision : revision (c_db c1) = revision (c_db c);
  re_features : c_features c1 = c_features c;
}.

Context (c : controller).
Context (Hfeat : features_at pfs acts (block_num (c_head c)) (c_features c)).
Context (Hnum : 0 ≤ block_num (c_head c) ∧ block_num (c_head c) + 1 < not_active).

Lemma running_contents c1 s : running c c1 → running c (set_db (set_contents s (c_db c1)) c1).
Proof.
  intros H. destruct (set_contents_spec s (c_db c1)) as (_ & Hp & Hr).
  split; simpl; rewrite ?Hp, ?Hr; apply H.
Qed.

Lemma running_pending c1 p : running c c1 → pd_session p = true → running c (set_pending (Some p) c1).
Proof. intros H Hp. split; simpl; try apply H. by exists p. Qed.

Lemma running_activate c1 d m' : running c c1 →
  activate_feature (c_features c1) d (block_num (c_head c) + 1) = Ok m' → running c (set_features m' c1).
Proof.
  intros H Ha. split; simpl; try apply H. destruct (ru_features _ _ H) as (new & Hi & Hn).
  exists (new ++ [(d, block_num (c_head c) + 1)]). rewrite app_assoc. split.
  - unfold init in Hi |- *. simpl in Hi |- *. rewrite fold_res_app, Hi. simpl. by rewrite Ha.
  - apply Forall_app. split; [done|]. by constructor.
Qed.

Lemma popped_running c1 : running c c1 →
  popped_blocks_to (c_features c1) (block_num (c_head c)) = Ok (c_features c).
Proof.
  intros H. destruct (ru_features _ _ H) as (new & Hi & Hn). destruct Hfeat as [Hf Hle].
  rewrite (popped_blocks_exact pfs (acts ++ new)); [|done|].
  - rewrite filter_app, filter_all, filter_none, app_nil_r; [done| |done].
    eapply Forall_impl; [exact Hn|]. simpl. lia.
  - apply Forall_app. split; (eapply Forall_impl; [eassumption|]); simpl; lia.
Qed.

(** The end of a session without [push]. *)
Lemma restored_running c1 t : running c c1 →
  restored c (set_features (c_features c) (set_pending None (set_unapplied t (set_db (undo (c_db c1)) c1)))).
Proof.
  intros H. destruct (undo_spec _ _ _ (ru_points _ _ H)) as (H1 & H2 & H3).
  split; simpl; try apply H; [done..| |done]. rewrite H3, (ru_revision _ _ H). lia.
Qed.

Lemma popped_to_running c1 t : running c c1 →
  ∀ c2, c2 = set_pending None (set_unapplied t (set_db (undo (c_db c1)) c1)) →
  wp (popped_to (block_num (c_head c))) (λ c' r, r = Ok tt ∧ restored c c') c2.
Proof.
  intros H c2 ->. unfold popped_to. wp_step. wp_step. wp_step. apply wp_lift. intros _. simpl.
  rewrite (popped_running _ H). wp_step. split; [done|]. by apply restored_running.
Qed.

Lemma set_unapplied_same (c1 : controller) : set_unapplied (c_unapplied c1) c1 = c1.
Proof. by destruct c1. Qed.

(** [abort_block] goes back to the state before the block. *)
Lemma abort_running c1 : running c c1 → wp abort_block (λ c' r, r = Ok tt ∧ restored c c') c1.
Proof.
  intros H. destruct (ru_pending _ _ H) as (p & Hp & Hsess). unfold abort_block. wp_step. wp_step. rewrite Hp.
  wp_step. wp_step. wp_step.
  assert (∃ t, (∀ Q, Q (set_unapplied t c1) (Ok tt) →
      wp (when_ (bool_decide (c_mode c1 = SPECULATIVE)) (add_unapplied (get_trx_metas p))) Q c1)) as [t Ht].
  { unfold when_, add_unapplied. destruct (bool_decide _).
    - eexists. intros Q HQ. wp_step. exact HQ.
    - exists (c_unapplied c1). intros Q HQ. wp_step. by rewrite set_unapplied_same in HQ. }
  apply Ht. wp_step. unfold reset_pending. wp_step. wp_step. wp_step. simpl. rewrite Hp. simpl. rewrite Hsess.
  wp_step. wp_step. simpl. rewrite (ru_head _ _ H). by eapply popped_to_running.
Qed.

Lemma activate_one_running c1 st d : running c c1 →
  wp (activate_one (block_num (c_head c) + 1) st d) (λ c' _, running c c') c1.
Proof.
  intros H. unfold activate_one. wp_step. wp_step. wp_step. apply wp_lift. intros _.
  destruct (get_protocol_feature _ d) as [f|e]; [|done]. wp_step. apply wp_lift. intros _.
  destruct (match st.1 !! d with Some _ => _ | None => _ end) as [st'|e]; [|done].
  wp_step. apply (wp_mono _ (λ c' r, running c c' ∧ c_features c' = c_features c1)).
  - destruct (builtin_feature f) as [b|]; [|by wp_step]. wp_step. wp_step. wp_step. apply wp_lift. intros _.
    destruct (on_activation b _) as [s'|e]; [|done]. wp_step. split; [by apply running_contents|done].
  - intros c2 [[]|e] _ [H2 Ef]; [|done]. wp_step. apply wp_lift. intros _.
    destruct (activate_feature _ d _) as [m'|e] eqn:Ea; [|done]. wp_step. wp_step. wp_step.
    apply (running_activate _ d); [done|]. by rewrite Ef.
Qed.

Lemma activate_all_running c1 st l : running c c1 →
  wp (activate_all (block_num (c_head c) + 1) st l) (λ c' _, running c c') c1.
Proof.
  revert c1 st. induction l as [|d l IH]; intros c1 st H; cbn [activate_all]; [by wp_step|].
  wp_step. eapply wp_mono; [by apply activate_one_running|]. intros c2 [st'|e] _ H2; [by apply IH|done].
Qed.

Lemma start_features_running c1 new : running c c1 →
  wp (start_features (block_num (c_head c) + 1) new) (λ c' _, running c c') c1.
Proof.
  intros H. unfold start_features. wp_step. wp_step. wp_step.
  apply (wp_mono _ (λ c' _, running c c')).
  { destruct (0 <? length new)%nat; [by apply activate_all_running|by wp_step]. }
  intros c2 [st|e] _ H2; [|done]. wp_step. apply wp_lift. intros _.
  destruct (EOS_ASSERT _ _) as [[]|e]; [|done]. unfold when_. destruct (0 <? length new)%nat; [|by wp_step].
  wp_step. by apply running_contents.
Qed.

Context (Hpending : c_pending c = None).

Lemma start_block_spec when_t confirm new s : s ≠ irreversible →
  wp (start_block disable_replay_opts when_t confirm new s)
     (λ c' r, match r with
              | Ok pbhs => running c c' ∧ next (c_head c) when_t confirm = Ok pbhs ∧
                           revision (c_db c) = block_num (c_head c)
              | Throw _ => restored c c'
              end) c.
Proof.
  intros Hs. assert (restored c c) as Hself by (split; done). unfold start_block.
  assert (skip_db_sessions disable_replay_opts s = false) as Hskip.
  { unfold skip_db_sessions. by rewrite bool_decide_false. }
  rewrite Hskip. cbn [negb]. wp_step. wp_step. wp_step. apply wp_lift. intros _. rewrite Hpending.
  cbn [EOS_ASSERT bool_decide]. rewrite bool_decide_true by done. cbn [EOS_ASSERT]. wp_step. wp_step. wp_step.
  assert (∀ c1, running c c1 →
    wp (popped_to (block_num (c_head c));;; reset_pending)%op (λ c' r, r = Ok tt ∧ restored c c') c1) as Hguard.
  { intros c1 H. wp_step. unfold popped_to. wp_step. wp_step. wp_step. apply wp_lift. intros _.
    rewrite (popped_running _ H). wp_step. unfold reset_pending. wp_step. wp_step. wp_step.
    destruct (ru_pending _ _ H) as (p & Hp & Hsess). simpl. rewrite Hp. simpl. rewrite Hsess. split; [done|].
    pose proof (restored_running c1 (c_unapplied c1) H) as Hr. by split; apply Hr. }
  assert (wp (popped_to (block_num (c_head c));;; reset_pending)%op
      (λ c' r, match r with Ok _ => restored c c' | Throw _ => restored c c' end) c) as Hguard0.
  { wp_step. unfold popped_to. wp_step. wp_step. wp_step. apply wp_lift. intros _.
    destruct Hfeat as [Hf Hle]. rewrite (popped_blocks_exact pfs acts); [|done|].
    - rewrite filter_all, Hf by done. wp_step. unfold reset_pending. wp_step. wp_step. wp_step. simpl.
      rewrite Hpending. by split.
    - eapply Forall_impl; [exact Hle|]. simpl. lia. }
  wp_step. wp_step. wp_step.
  destruct (EOS_ASSERT (revision (c_db c) =? block_num (c_head c)) database_exception) as [[]|e] eqn:Erev;
    apply wp_lift; intros _; [|exact Hguard0].
  apply EOS_ASSERT_Ok, Z.eqb_eq in Erev. wp_step. apply wp_lift. intros _.
  destruct (next (c_head c) when_t confirm) as [pbhs|e] eqn:En; [|exact Hguard0].
  assert (block_num pbhs = block_num (c_head c) + 1) as Hbn.
  { apply next_Ok in En as (t & pk & m & _ & _ & _ & _ & ->). simpl. apply wrap_small.
    unfold in_u, not_active, u32_max in *. lia. }
  set (c1 := set_pending (Some (mk_pending_state s true [] None)) (set_db (start_undo_session (c_db c)) c)).
  assert (running c c1) as H1.
  { destruct (start_spec (c_db c)) as (E1 & E2 & E3). split; simpl; try done; [by eexists|].
    exists []. rewrite app_nil_r. split; [apply Hfeat|constructor]. }
  assert (∀ c2, running c c2 → wp (popped_to (block_num (c_head c));;; reset_pending)%op
    (λ c' r, match r with Ok _ => restored c c' | Throw _ => restored c c' end) c2) as Hguard1.
  { intros c2 H2. eapply wp_mono; [by apply Hguard|]. by intros c' r _ [-> ?]. }
  wp_step. wp_step. fold c1. wp_step. wp_step. wp_step. simpl. unfold when_.
  destruct (_ || _); [|wp_step; wp_step; done]. wp_step. rewrite Hbn.
  eapply wp_mono; [by apply start_features_running|]. intros c2 [[]|e] _ H2; [|by apply Hguard1].
  wp_step. wp_step. simpl. destruct (run_start _ _ _ _) as [st r]. wp_step. wp_step. apply wp_lift. intros _.
  pose proof (running_contents _ st H2). destruct r as [[]|e]; [wp_step; done|by apply Hguard1].
Qed.

(** ** The outcomes of [apply_block] *)

(** Laws: a block ends with an exception of fc, and so does the unpacking of
    an extension. *)
Context (Hclean_run : ∀ st p b s, clean (run_block st p b s).2).
Context (Hclean_unpack : ∀ data, clean (unpack_digests data)).

Record applied (c' : controller) : Prop := {
  ap_fork : c_fork c' = c_fork c;
  ap_blog : c_blog c' = c_blog c;
  ap_head : c_head c' = c_head c;
  ap_mode : c_mode c' = c_mode c;
  ap_replaying : c_replaying c' = c_replaying c;
  ap_pending : c_pending c' = None;
  ap_points : undo_points (c_db c') = contents (c_db c) :: undo_points (c_db c);
  ap_revision : revision (c_db c') = revision (c_db c) + 1;
  ap_features : ∃ new, init (new_manager pfs) (acts ++ new) = Ok (c_features c') ∧
    Forall (λ a, a.2 = block_num (c_head c) + 1) new;
}.

Lemma applied_running c1 : running c c1 → applied (set_pending None c1).
Proof. intros H. split; simpl; apply H || done. Qed.

Lemma clean_bind {A B} (m : result A) (f : A → result B) :
  clean m → (∀ a, m = Ok a → clean (f a)) → clean (m ≫= f).
Proof.
  unfold clean, defined. intros Hm Hf e. destruct m as [a|e']; simpl; [by apply Hf|].
  intros [= ->] Hd. apply (Hm e eq_refl). split; naive_solver.
Qed.

Lemma clean_ASSERT b e : is_fc e = true → clean (EOS_ASSERT b e).
Proof. intros He e'. destruct b; [done|]. by intros [= <-]. Qed.

Lemma clean_of_option {A} e (o : option A) : is_fc e = true ∨ e = undefined_behaviour → clean (of_option e o).
Proof.
  intros He e' H Hd. destruct o; [done|]. injection H as <-. destruct He as [?| ->]; [done|].
  by destruct Hd as [[] _].
Qed.

Lemma clean_fold {A T} (f : T → A → result T) l s :
  (∀ s x, clean (f s x)) → clean (fold_res f s l).
Proof.
  intros Hf. revert s. induction l as [|x l IH]; intros s; [done|]. apply clean_bind; [apply Hf|]. intros; apply IH.
Qed.

Lemma extract_clean first lower exts results : clean (extract_loop first lower exts results).
Proof.
  revert first lower results. induction exts as [|[i data] exts IH]; intros first lower results; [done|].
  cbn [extract_loop]. apply clean_bind; [by apply clean_ASSERT|]. intros _ _. apply clean_bind.
  { unfold extract. destruct (i =? extension_id); [|done]. apply clean_bind; [apply Hclean_unpack|]. intros l _.
    apply clean_bind; [|done]. unfold reflector_init. apply clean_bind; [by apply clean_ASSERT|]. intros _ _.
    apply clean_bind; [|done]. apply clean_fold. intros s x. apply clean_bind; [by apply clean_ASSERT|done]. }
  intros o _. apply clean_bind; [apply clean_of_option; by left|]. intros [uq ext] _.
  apply clean_bind; [by apply clean_ASSERT|]. intros _ _. apply IH.
Qed.

Lemma finish_clean p (sb : signed_block PT) metas :
  clean (block_state_of_applied p sb metas (λ _ _ _, Ok tt) true).
Proof.
  unfold block_state_of_applied, finish_next. apply clean_bind; [|done].
  apply clean_bind; [|done]. unfold _finish_next. apply clean_bind.
  { unfold check_header. repeat (apply clean_bind; [by apply clean_ASSERT|intros _ _]). by apply clean_ASSERT. }
  intros _ _. apply clean_bind.
  { unfold check_new_producers. destruct (new_producers sb); [|done].
    repeat (apply clean_bind; [by apply clean_ASSERT|intros _ _]). by apply clean_ASSERT. }
  intros _ _. apply clean_bind.
  { apply extract_clean. }
  intros exts _. apply clean_bind; [|done]. unfold activate_features. destruct exts; [done|].
  apply clean_bind; [apply clean_of_option; by right|]. intros prev _. cbn [mbind result_bind].
  intros e. unfold protocol_feature_activation_set. destruct (EOS_ASSERT _ _) as [[]|e'] eqn:E; [done|].
  cbn. intros [= <-]. destruct (_ || _) in E; [done|]. by injection E as <-.
Qed.

Lemma store_reversible_spec (b : bstate) (c1 : controller) :
  wp (store_reversible b) (λ c' r, match r with Ok _ => ∃ t, c' = set_reversible t c1 | Throw _ => c' = c1 end) c1.
Proof.
  unfold store_reversible. wp_step. apply wp_lift. intros _. destruct (block b); simpl; [|done].
  wp_step. wp_step. wp_step. apply wp_lift. intros _. destruct (EOS_ASSERT _ _) as [[]|]; [|done].
  wp_step. by eexists.
Qed.

(** The end of a block that is not added to the fork database. *)
Lemma commit_applied c1 p done_ : running c c1 → c_pending c1 = Some p → pd_completed p = Some done_ →
  wp (commit_block (ret tt) false)
     (λ c' r, match r with Ok _ => applied c' | Throw _ => restored c c' end) c1.
Proof.
  intros H Hp Hdone. unfold commit_block.
  apply (wp_seq _ _ (λ c' r, match r with Ok _ => applied (set_pending None c') | Throw _ => restored c c' end));
    [|intros c' [] H'; by wp_step|done].
  apply (wp_guard _ _ (λ c' r, match r with Ok _ => applied (set_pending None c') | Throw _ => running c c' end));
    [|done|].
  2:{ intros c' e H'. eapply wp_mono; [by apply abort_running|]. by intros c'' r _ [_ ?]. }
  wp_step. wp_step. rewrite Hp. wp_step. apply wp_lift. intros _. simpl. rewrite Hdone. wp_step. apply wp_lift.
  intros _. simpl. wp_step. wp_step. wp_step. wp_step. wp_step. wp_step. wp_step.
  apply (wp_mono _ (λ c' r, match r with Ok _ => ∃ t, c' = set_reversible t c1 | Throw _ => c' = c1 end)).
  - unfold when_. destruct (_ && _); [apply store_reversible_spec|]. wp_step. exists (c_reversible c1). by destruct c1.
  - intros c' [[]|e] _; [|by intros ->]. intros [t ->]. wp_step.
    pose proof (applied_running _ H) as Ha. by split; apply Ha.
Qed.

Lemma abort_restored c1 : restored c c1 → wp abort_block (λ c' r, r = Ok tt ∧ restored c c') c1.
Proof. intros H. unfold abort_block. wp_step. wp_step. rewrite (re_pending _ _ H). by wp_step. Qed.

(** An applied block is linked to the head, and an exception leaves everything
    as it was but the transactions to apply again. *)
Lemma apply_block_spec b s : s ≠ irreversible →
  wp (apply_block disable_replay_opts b s)
     (λ c' r, match r with
              | Ok _ => applied c' ∧ ∃ sb, block b = Some sb ∧ previous (sb_header sb) = id (c_head c)
              | Throw _ => restored c c'
              end) c.
Proof.
  intros Hs. assert (restored c c) as Hself by (split; done).
  assert (skip_db_sessions disable_replay_opts s = false) as Hskip.
  { unfold skip_db_sessions. by rewrite bool_decide_false. }
  unfold apply_block. wp_step.
  apply (wp_catch _ _ (λ c' r, match r with
    | Ok _ => applied c' ∧ ∃ sb, block b = Some sb ∧ previous (sb_header sb) = id (c_head c)
    | Throw e => restored c c' ∨ is_fc e = true ∧ running c c' end)).
  - wp_step. apply wp_lift. intros _. destruct (block b) as [sb|]; simpl; [|by left]. wp_step. apply wp_lift. intros _.
    destruct (EOS_ASSERT _ _) as [[]|e]; [|by left].
    eapply wp_seq; [by apply start_block_spec| |by left]. intros c1 pbhs (H1 & Hn & _). cbn beta.
    wp_step. wp_step.
    destruct (run_block (contents (c_db c1)) pbhs sb s) as [[st metas] r] eqn:Er. rewrite Hskip. cbn [negb].
    wp_step. wp_step. wp_step. apply wp_lift. intros Hd.
    set (c2 := set_pending _ _). assert (running c c2) as H2.
    { apply running_pending; [by apply running_contents|done]. }
    destruct r as [i|e]; [|right; split; [|done]].
    2:{ apply (Hclean_run (contents (c_db c1)) pbhs sb s); by rewrite Er. }
    wp_step. apply wp_lift. intros _. destruct (EOS_ASSERT _ _) as [[]|e] eqn:Ea; [|right; split; [|done]].
    2:{ destruct (bool_decide _) in Ea; [done|]. by injection Ea as <-. }
    wp_step. apply wp_lift. intros Hd'.
    destruct (block_state_of_applied pbhs sb metas _ true) as [dn|e] eqn:Ef; [|right; split; [|done]].
    2:{ apply (finish_clean pbhs sb metas e); by rewrite Ef. }
    wp_step. wp_step. eapply wp_mono.
    { eapply (commit_applied (set_pending (Some (mk_pending_state s true metas (Some dn))) c2)); [|done|done].
      by apply running_pending. }
    intros c' [[]|e] _ H'; [|by left]. split; [done|]. exists sb. split; [done|].
    unfold block_state_of_applied in Ef. apply bind_Ok in Ef as (bh & Ef & _). apply finish_next_Ok in Ef as [Ef _].
    apply _finish_next_Ok in Ef as ((_ & -> & _) & _).
    apply next_Ok in Hn as (t & pk & m & _ & _ & _ & _ & ->). done.
  - done.
  - intros c' e [H|[H _]]; [done|congruence].
  - intros c' e H _. wp_step. destruct H as [H|[_ H]].
    + eapply wp_mono; [by apply abort_restored|]. intros c2 r _ [-> H2]. by apply wp_lift.
    + eapply wp_mono; [by apply abort_running|]. intros c2 r _ [-> H2]. by apply wp_lift.
Qed.
End apply.
