(* ===== verification/ChainReplay.v ===== *)
(** * The database is the replay of the chain

    [chain_inv] relates the parts of the controller: the contents of the chain
    database are what the blocks of the log and of the branch of the head make
    of the contents at the start, the undo sessions lead back along the branch,
    and the log holds the chain up to the root of the fork database.  Receiving
    a block keeps it, in all read modes but the irreversible one: when the
    block extends the head, when the controller switches to another branch,
    when a block of the new branch fails and the old branch is applied again,
    and when blocks become irreversible. *)

From S2P Require Import Prelude Config BlockTimestamp Merkle BlockHeader BlockHeaderState ForkDatabase ForkTree ForkChoice ProtocolFeatures BlockLog Controller ControllerTheory.
Local Open Scope Z_scope.

Section replay.
Context {PT S G : Type} {cr : Crypto} {crl : CryptoLaws cr} {bf : BlockFc PT} {sf : StateFc G}.
Context {u : UndoDb S} {ul : UndoLaws u} {be : BlockExec PT S}.
Context (disable_replay_opts : bool) (milliseconds : Z → Z).
Abbreviation bstate := (block_state PT).
Abbreviation controller := (@controller PT S u).
Abbreviation op := (@op PT S u).
Implicit Types (c : controller) (b n r hd x y bad : bstate) (hist branch done rest second : list bstate).

(** Two states of one block, which may differ in the flag [validated]. *)
Definition same_block b b' : Prop := bs_header_state b = bs_header_state b' ∧ block b = block b'.

(** [apply_block] of [b] on the head [h] turned the contents [st] into [st']. *)
Definition executes (st : S) (h : block_header_state) b (st' : S) : Prop :=
  ∃ s b' c c', same_block b b' ∧ bs_header_state (c_head c) = h ∧ contents (c_db c) = st ∧
    apply_block disable_replay_opts b' s c = (c', Ok tt) ∧ contents (c_db c') = st'.

Definition tip (base : block_header_state) (l : list bstate) : block_header_state :=
  match l with [] => base | b :: _ => bs_header_state b end.

(** The contents before each block of a chain, newest first, and after all. *)
Inductive replayed (base : block_header_state) (st0 : S) : list bstate → list S → S → Prop :=
  | replayed_nil : replayed base st0 [] [] st0
  | replayed_cons b l pts st st' :
      replayed base st0 l pts st → executes st (tip base l) b st' →
      replayed base st0 (b :: l) (st :: pts) st'.

Lemma replayed_length base st0 l pts st : replayed base st0 l pts st → length pts = length l.
Proof. induction 1; simpl; congruence. Qed.

(** A block with the data its state was made from. *)
Definition sound_block b : Prop :=
  ∃ sb, block b = Some sb ∧ sb_header sb = header b ∧ id b = header_id (header b) ∧ block_num b + 1 < not_active.

(** The blocks of a chain, oldest first, as they are written to the log. *)
Definition blocks_of (l : list bstate) : list (signed_block PT) := omap block (reverse l).

Context (pfs : protocol_feature_set).
(** The start: the header state and contents below the first block of the
    history, and the log at that time. *)
Context (base : block_header_state) (st0 : S) (version first : Z) (gs : G) (log0 : list (signed_block PT)).

Record chain_inv c r hd (hist branch : list bstate) : Prop := {
  ci_wf : wf (c_fork c) r hd;
  ci_sound : ∀ k b, index (c_fork c) !! k = Some b → sound_block b;
  ci_root_num : 0 ≤ block_num r ∧ block_num r + 1 < not_active ∧ num_from_id (previous (header r)) < block_num r;
  ci_path : path (index (c_fork c)) (id (c_head c)) branch (id r);
  ci_tip : c_head c = default r (hd_error branch);
  ci_valid : Forall (λ b, validated b = true) branch;
  ci_state : ∃ pts, replayed base st0 (branch ++ hist) pts (contents (c_db c)) ∧
    undo_points (c_db c) = take (length branch) pts;
  ci_root : tip base hist = bs_header_state r;
  ci_revision : revision (c_db c) = block_num (c_head c);
  ci_log : c_blog c = holding version first gs (log0 ++ blocks_of hist);
  ci_first : 0 < first ∧ first + Z.of_nat (length (log0 ++ blocks_of hist)) = block_num r + 1;
  ci_log_last : ∀ sb, last (log0 ++ blocks_of hist) = Some sb → header_id sb = id r;
  ci_features : ∃ acts, features_at pfs acts (block_num (c_head c)) (c_features c);
  ci_pending : c_pending c = None;
  ci_mode : c_mode c ≠ IRREVERSIBLE;
}.

Lemma path_keep (idx idx' : gmap digest_type bstate) k l a : index_ok idx →
  (∀ x, x ∈ l → idx' !! id x = Some x) → path idx k l a → path idx' k l a.
Proof.
  intros Hok Hkeep. induction 1 as [|k b l a Hb Hl IH]; [constructor|]. destruct (Hok _ _ Hb) as [<- _].
  econstructor; [apply Hkeep; left|]. apply IH. intros x Hx. apply Hkeep. by right.
Qed.

Lemma branch_elem c r hd hist branch x : chain_inv c r hd hist branch → x ∈ branch →
  index (c_fork c) !! id x = Some x ∧ validated x = true.
Proof.
  intros H Hx. split; [by eapply path_elem; [apply H|apply (ci_path _ _ _ _ _ H)|]|].
  pose proof (ci_valid _ _ _ _ _ H) as Hv. rewrite Forall_forall in Hv. by apply Hv.
Qed.

Lemma head_num c r hd hist branch : chain_inv c r hd hist branch →
  0 ≤ block_num (c_head c) ∧ block_num (c_head c) + 1 < not_active ∧ num_from_id (id (c_head c)) = block_num (c_head c) ∧
  block_num (c_head c) = block_num r + Z.of_nat (length branch).
Proof.
  intros H. pose proof (path_num _ _ _ _ (wf_index _ _ _ (ci_wf _ _ _ _ _ H)) (ci_path _ _ _ _ _ H)) as Hn.
  rewrite (wf_root_num _ _ _ (ci_wf _ _ _ _ _ H)) in Hn. pose proof (ci_root_num _ _ _ _ _ H) as Hr.
  pose proof (ci_tip _ _ _ _ _ H) as Ht. destruct branch as [|b branch]; simpl in Ht.
  - rewrite Ht in *. simpl in Hn. split_and!; [lia..|]. simpl. lia.
  - destruct (branch_elem _ _ _ _ _ b H) as [Hb _]; [left|]. rewrite Ht in *.
    destruct (wf_index _ _ _ (ci_wf _ _ _ _ _ H) _ _ Hb) as [_ [H1 _]].
    destruct (ci_sound _ _ _ _ _ H _ _ Hb) as (sb & _ & _ & _ & Hbn). split_and!; [lia|done|done|lia].
Qed.

(** The invariant does not depend on the table of reversible blocks and the
    unapplied transactions. *)
Lemma restored_inv c c' r hd hist branch : chain_inv c r hd hist branch → restored c c' → chain_inv c' r hd hist branch.
Proof.
  intros H Hr. split.
  all: rewrite ?(re_fork _ _ Hr), ?(re_head _ _ Hr), ?(re_contents _ _ Hr), ?(re_points _ _ Hr),
    ?(re_revision _ _ Hr), ?(re_blog _ _ Hr), ?(re_features _ _ Hr), ?(re_pending _ _ Hr), ?(re_mode _ _ Hr).
  all: first [done|apply H].
Qed.

(** A block was applied on top of the head and has become the head. *)
Lemma advance_inv c c' acts r hd hist branch b f hd' :
  chain_inv c r hd hist branch → features_at pfs acts (block_num (c_head c)) (c_features c) →
  applied pfs acts c c' → executes (contents (c_db c)) (c_head c) b (contents (c_db c')) →
  wf f r hd' → (∀ k x, index f !! k = Some x → sound_block x) → index f !! id b = Some b → validated b = true →
  previous (header b) = id (c_head c) → (∀ x, x ∈ branch → index f !! id x = Some x) →
  chain_inv (set_head b (set_fork f c')) r hd' hist (b :: branch).
Proof.
  intros H Hf Ha He Hwf Hs Hb Hv Hp Hkeep. pose proof (head_num _ _ _ _ _ H) as (_ & _ & Hhn & _).
  assert (block_num b = block_num (c_head c) + 1) as Hbn.
  { destruct (wf_index _ _ _ Hwf _ _ Hb) as [_ [_ H2]]. rewrite Hp in H2. lia. }
  destruct (ci_state _ _ _ _ _ H) as (pts & Hre & Hpts). split; simpl.
  - done.
  - done.
  - apply H.
  - econstructor; [done|]. rewrite Hp. eapply path_keep; [|exact Hkeep|apply H]. apply (ci_wf _ _ _ _ _ H).
  - done.
  - constructor; [done|apply H].
  - exists (contents (c_db c) :: pts). split.
    + simpl. constructor; [done|]. destruct He as (s & b' & c1 & c2 & He). exists s, b', c1, c2.
      pose proof (ci_tip _ _ _ _ _ H) as Ht. destruct branch; simpl in *; [|by rewrite <- Ht].
      rewrite (ci_root _ _ _ _ _ H), <- Ht. done.
    + rewrite (ap_points _ _ _ _ Ha), Hpts. done.
  - apply H.
  - rewrite (ap_revision _ _ _ _ Ha), (ci_revision _ _ _ _ _ H). lia.
  - rewrite (ap_blog _ _ _ _ Ha). apply H.
  - apply H.
  - apply (ci_log_last _ _ _ _ _ H).
  - destruct (ap_features _ _ _ _ Ha) as (new & Hi & Hn). exists (acts ++ new). split; [done|].
    apply Forall_app. destruct Hf as [_ Hf]. split; (eapply Forall_impl; [eassumption|]); simpl; lia.
  - apply (ap_pending _ _ _ _ Ha).
  - rewrite (ap_mode _ _ _ _ Ha). apply H.
Qed.

Context (Hclean_run : ∀ st p (sb : signed_block PT) s, clean (run_block st p sb s).2).
Context (Hclean_unpack : ∀ data, clean (unpack_digests data)).

(** ** Applying and popping *)

Lemma apply_inv c r hd hist branch b s :
  chain_inv c r hd hist branch → s ≠ irreversible → sound_block b →
  wp (apply_block disable_replay_opts b s)
     (λ c' res, match res with
        | Ok _ => ∃ acts, features_at pfs acts (block_num (c_head c)) (c_features c) ∧ applied pfs acts c c' ∧
            executes (contents (c_db c)) (c_head c) b (contents (c_db c')) ∧ previous (header b) = id (c_head c)
        | Throw _ => chain_inv c' r hd hist branch ∧ c_fork c' = c_fork c
        end) c.
Proof.
  intros H Hs (sb & Hb & Hh & _) c' res Hm Hd. destruct (ci_features _ _ _ _ _ H) as [acts Hf].
  destruct (head_num _ _ _ _ _ H) as (H0 & H1 & _).
  pose proof (apply_block_spec disable_replay_opts pfs acts c Hf (conj H0 H1) (ci_pending _ _ _ _ _ H)
                Hclean_run Hclean_unpack b s Hs c' res Hm Hd) as Hspec.
  destruct res as [[]|e]; [|split; [by eapply restored_inv|apply Hspec]]. destruct Hspec as [Ha (sb' & Hb' & Hp)].
  exists acts. split; [done|]. split; [done|]. split; [by exists s, b, c, c'|]. rewrite <- Hh. congruence.
Qed.

Lemma sorted_filter (acts : list (digest_type * Z)) (num' : Z) : StronglySorted (λ p q : digest_type * Z, p.2 ≤ q.2) acts →
  ∃ rest : list (digest_type * Z), acts = filter (λ p : digest_type * Z, p.2 ≤ num') acts ++ rest.
Proof.
  induction 1 as [|[d k] acts Hs IH HF]; [by exists []|]. destruct (decide (k ≤ num')) as [Hle|Hgt].
  - rewrite filter_cons_True by done. destruct IH as [rest IH]. exists rest. simpl. by rewrite <- IH.
  - rewrite filter_cons_False by done. exists ((d, k) :: acts). rewrite filter_none; [done|].
    eapply Forall_impl; [exact HF|]. simpl. lia.
Qed.

Lemma popped_features acts (num num' : Z) m : features_at pfs acts num m → num < not_active →
  ∃ m', popped_blocks_to m num' = Ok m' ∧ features_at pfs (filter (λ p : digest_type * Z, p.2 ≤ num') acts) num' m'.
Proof.
  intros [Hi Hle] Hn. assert (below_not_active acts) as Hb.
  { eapply Forall_impl; [exact Hle|]. simpl. lia. }
  rewrite (popped_blocks_exact pfs acts) by done.
  destruct (sorted_filter acts num' (mi_sorted _ _ _ (init_inv _ _ _ Hi Hb))) as [rest Hr].
  destruct (init (new_manager pfs) (filter (λ p : digest_type * Z, p.2 ≤ num') acts)) as [m'|e] eqn:E.
  - exists m'. split; [done|]. split; [done|]. apply Forall_forall. intros a [? _]%list_elem_of_filter. done.
  - exfalso. rewrite Hr in Hi. unfold init in Hi, E. simpl in Hi, E. rewrite fold_res_app, E in Hi. done.
Qed.

(** The block before the head. *)
Lemma prev_of_head c r hd hist b branch : chain_inv c r hd hist (b :: branch) →
  match get_block (c_fork c) (previous (header b)) with
  | Some b' => Ok b'
  | None =>
      deref (root (c_fork c)) ≫= λ r0 : bstate,
      _ ← EOS_ASSERT (bool_decide (id r0 = previous (header b))) block_validate_exception;
      Ok r0
  end = Ok (default r (hd_error branch)) ∧ id (default r (hd_error branch)) = previous (header b).
Proof.
  intros H. pose proof (ci_path _ _ _ _ _ H) as Hp. pose proof (ci_wf _ _ _ _ _ H) as Hwf.
  rewrite (ci_tip _ _ _ _ _ H) in Hp. simpl in Hp. inversion Hp as [|? ? ? ? Hb Hl]; subst. unfold get_block.
  destruct branch as [|b' branch]; simpl.
  - assert (previous (header b) = id r) as E by (by inversion Hl). rewrite E.
    rewrite (wf_root_not_in _ _ _ Hwf), (wf_root _ _ _ Hwf). simpl. by rewrite bool_decide_true by done.
  - inversion Hl as [|? ? ? ? Hb' Hl']; subst. rewrite Hb'. split; [done|]. by destruct (wf_index _ _ _ Hwf _ _ Hb').
Qed.

Lemma pop_inv c r hd hist b branch : chain_inv c r hd hist (b :: branch) →
  wp pop_block (λ c' res, res = Ok tt ∧ chain_inv c' r hd hist branch ∧ c_fork c' = c_fork c) c.
Proof.
  intros H. destruct (prev_of_head _ _ _ _ _ _ H) as [Hprev Hid]. set (p := default r (hd_error branch)) in *.
  assert (c_head c = b) as Hh by apply (ci_tip _ _ _ _ _ H).
  destruct (branch_elem _ _ _ _ _ b H) as [Hb _]; [left|].
  destruct (ci_sound _ _ _ _ _ H _ _ Hb) as (sb & Hsb & _).
  destruct (head_num _ _ _ _ _ H) as (H0 & H1 & _ & Hn). simpl in Hn.
  pose proof (ci_path _ _ _ _ _ H) as Hpath. rewrite Hh in Hpath.
  assert (path (index (c_fork c)) (previous (header b)) branch (id r)) as Hpath' by (inversion Hpath; congruence).
  pose proof (ci_valid _ _ _ _ _ H) as [_ Hv']%Forall_cons.
  destruct (ci_features _ _ _ _ _ H) as [acts Hf].
  destruct (popped_features acts (block_num (c_head c)) (block_num p) (c_features c) Hf) as (m' & Hm & Hf'); [lia|].
  destruct (ci_state _ _ _ _ _ H) as (pts & Hre & Hpts). inversion Hre as [|b0 l0 pts0 st st' Hre' He]; subst pts.
  destruct (undo_spec (c_db c) st (take (length branch) pts0)) as (Hu1 & Hu2 & Hu3); [by rewrite Hpts|].
  assert (∀ t1 t2, chain_inv (set_features m' (set_db (undo (c_db c)) (set_head p
            (set_unapplied t1 (set_reversible t2 c))))) r hd hist branch) as Hinv.
  { intros t1 t2.
    assert (block_num p = block_num (c_head c) - 1) as Hpn.
    { pose proof (path_num _ _ _ _ (wf_index _ _ _ (ci_wf _ _ _ _ _ H)) Hpath') as Hq.
      destruct (wf_index _ _ _ (ci_wf _ _ _ _ _ H) _ _ Hb) as [_ [_ Hbn]].
      rewrite (wf_root_num _ _ _ (ci_wf _ _ _ _ _ H)) in Hq.
      subst p. destruct branch as [|b' branch]; simpl in *; [lia|].
      destruct (branch_elem _ _ _ _ _ b' H) as [Hb' _]; [by right; left|].
      destruct (wf_index _ _ _ (ci_wf _ _ _ _ _ H) _ _ Hb') as [_ [Hbn' _]]. rewrite Hid in Hbn'. lia. }
    split; simpl; try apply H; try done.
    - by rewrite Hid.
    - exists pts0. by rewrite Hu1, Hu2.
    - rewrite Hu3, (ci_revision _ _ _ _ _ H). lia.
    - by eexists. }
  unfold pop_block. wp_step. wp_step. wp_step. wp_step. wp_step. apply wp_lift. intros _. rewrite Hh, Hprev.
  wp_step. wp_step. wp_step. wp_step. wp_step. simpl.
  apply (wp_mono _ (λ c' res, res = Ok tt ∧ ∃ t1 t2, c' = set_unapplied t1 (set_reversible t2 c))).
  { unfold when_. destruct (bool_decide _); [|wp_step; split; [done|]; by eexists (c_unapplied c), _].
    wp_step. apply wp_lift. intros _. rewrite Hsb, bool_decide_true by done. simpl. unfold add_unapplied. wp_step.
    split; [done|]. by eexists _, _. }
  intros c' res _ (-> & t1 & t2 & ->). wp_step. wp_step. wp_step. wp_step. unfold popped_to. wp_step. wp_step. wp_step.
  apply wp_lift. intros _. simpl. rewrite Hm. wp_step. split; [done|]. split; [apply Hinv|done].
Qed.

(** ** The fork database under the controller *)

(** [c] with a fork database in which the branch of the head is the same. *)
Lemma fork_inv c r hd hist branch f hd' : chain_inv c r hd hist branch → wf f r hd' →
  (∀ k x, index f !! k = Some x → sound_block x) → (∀ x, x ∈ branch → index f !! id x = Some x) →
  chain_inv (set_fork f c) r hd' hist branch.
Proof.
  intros H Hwf Hs Hkeep. split; simpl; try apply H; [done|done|].
  eapply path_keep; [|exact Hkeep|apply H]. apply (ci_wf _ _ _ _ _ H).
Qed.

Lemma desc_num (idx : gmap digest_type bstate) a k : index_ok idx → desc idx a k → num_from_id a ≤ num_from_id k.
Proof. intros Hok [l Hl]. apply (path_num _ _ _ _ Hok) in Hl. lia. Qed.

Lemma branch_num c r hd hist branch x : chain_inv c r hd hist branch → x ∈ branch →
  num_from_id (id x) ≤ block_num (c_head c).
Proof.
  intros H Hx. destruct (head_num _ _ _ _ _ H) as (_ & _ & Hn & _). rewrite <- Hn.
  destruct (path_elem _ _ _ _ _ (wf_index _ _ _ (ci_wf _ _ _ _ _ H)) (ci_path _ _ _ _ _ H) Hx)
    as (_ & l1 & l2 & _ & Hp & _).
  eapply desc_num; [apply H|by exists l1].
Qed.

(** Removing a block that is above the head. *)
Lemma remove_inv c r hd hist branch bad : chain_inv c r hd hist branch →
  block_num (c_head c) < num_from_id (id bad) →
  wp (fork_op (λ db, remove db (id bad)))
     (λ c' res, chain_inv c' r hd hist branch ∧ (∀ x, index (c_fork c) !! id x = Some x →
        ¬ desc (index (c_fork c)) (id bad) (id x) → index (c_fork c') !! id x = Some x)) c.
Proof.
  intros H Hnum. pose proof (ci_wf _ _ _ _ _ H) as Hwf. unfold fork_op. wp_step. wp_step. wp_step. apply wp_lift. intros _.
  destruct (remove (c_fork c) (id bad)) as [f|e] eqn:E; [|split; [done|by intros]].
  assert (∀ x, index (c_fork c) !! id x = Some x → ¬ desc (index (c_fork c)) (id bad) (id x) →
               index f !! id x = Some x) as Hkeep.
  { destruct (remove_spec (c_fork c) (id bad) hd) as [[_ Ht]|(_ & f' & Hf' & _ & _ & Hi)]; [apply Hwf..|congruence|].
    rewrite E in Hf'. injection Hf' as <-. intros x Hx Hd. by apply Hi. }
  wp_step. split; [|done]. apply (fork_inv c r hd); [done|by eapply remove_wf| |].
  - intros k x Hx. destruct (remove_spec (c_fork c) (id bad) hd) as [[_ Ht]|(_ & f' & Hf' & _ & _ & Hi)];
      [apply Hwf..|congruence|]. rewrite E in Hf'. injection Hf' as <-. apply Hi in Hx as [Hx _].
    by eapply (ci_sound _ _ _ _ _ H).
  - intros x Hx. apply Hkeep; [by eapply branch_elem|]. intros Hd%desc_num; [|apply Hwf].
    pose proof (branch_num _ _ _ _ _ _ H Hx). lia.
Qed.

(** A block of the index was applied and marked valid. *)
Lemma apply_mark_inv c r hd hist branch n b s : chain_inv c r hd hist branch → s ≠ irreversible →
  held (index (c_fork c)) b → chosen (c_fork c) hd n →
  block_num b < block_num n ∨ bs_header_state b = bs_header_state n →
  wp (apply_and_mark disable_replay_opts b s)
     (λ c' res, match res with
        | Ok _ => ∃ hd', chain_inv c' r hd' hist (set_validated true b :: branch) ∧
            index (c_fork c') = <[id b := set_validated true b]> (index (c_fork c)) ∧ chosen (c_fork c') hd' n ∧
            (bs_header_state b = bs_header_state n → bs_header_state hd' = bs_header_state n)
        | Throw _ => chain_inv c' r hd hist branch ∧ c_fork c' = c_fork c
        end) c.
Proof.
  intros H Hs Hheld Hch Hn. pose proof Hheld as [v [Hv Hvv]].
  destruct (ci_sound _ _ _ _ _ H _ _ Hv) as (sb & Hsb). simpl in Hsb.
  unfold apply_and_mark. eapply wp_seq; [eapply apply_inv; [done|done|by exists sb]| |by intros].
  intros c1 [] (acts & Hf & Ha & He & Hp).
  destruct (mark_chosen (c_fork c) r hd n b (ci_wf _ _ _ _ _ H) Hch Hheld Hn) as (f & hd' & Hm & Hwf & Hidx & Hch' & Hlast).
  unfold fork_op. wp_step. wp_step. wp_step. wp_step. apply wp_lift. intros _. rewrite (ap_fork _ _ _ _ Ha), Hm.
  wp_step. wp_step. exists hd'. split; [|done].
  apply (advance_inv c c1 acts r hd); try done.
  - intros k x. rewrite Hidx. intros [[<- <-]|[_ Hx]]%lookup_insert_Some; [by exists sb|by apply (ci_sound _ _ _ _ _ H k)].
  - rewrite Hidx. apply lookup_insert_eq.
  - intros x Hx. destruct (branch_elem _ _ _ _ _ _ H Hx) as [Hx1 Hx2]. rewrite Hidx.
    destruct (decide (id b = id x)) as [E|E]; [|by rewrite lookup_insert_ne].
    rewrite E, lookup_insert_eq. rewrite E, Hx1 in Hv. injection Hv as ->. simpl in Hx2. by subst v.
Qed.

(** ** Switching forks *)

(** Some state of the chain with the same root and history. *)
Definition some_inv c r hist : Prop := ∃ hd branch, chain_inv c r hd hist branch.

Lemma pops_inv {A} (l : list A) c r hd hist done rest : length done = length l →
  chain_inv c r hd hist (done ++ rest) →
  wp (each (λ _, pop_block) l) (λ c' res, res = Ok tt ∧ chain_inv c' r hd hist rest ∧ c_fork c' = c_fork c) c.
Proof.
  intros Hlen H. apply (wp_each _ _ _ _ (λ l' c', ∃ done', length done' = length l' ∧
    chain_inv c' r hd hist (done' ++ rest) ∧ c_fork c' = c_fork c)).
  - by exists done.
  - intros x l' c' (done' & Hl & H' & Hf). destruct done' as [|b done']; [done|].
    eapply wp_mono; [by eapply pop_inv|]. intros c'' res _ (-> & H'' & Hf''). exists done'.
    split; [simpl in Hl; lia|]. split; [done|congruence].
  - intros c' (done' & Hl & H' & Hf). destruct done'; [|done]. done.
Qed.

(** Blocks that were applied before are applied again. *)
Lemma reapply_inv c r hd hist branch l : chain_inv c r hd hist branch →
  (∀ x, x ∈ l → index (c_fork c) !! id x = Some x ∧ validated x = true) →
  wp (each (λ b, andthen (apply_block disable_replay_opts b validated_block) (λ _, change (set_head b))) l)
     (λ c' _, some_inv c' r hist) c.
Proof.
  intros H Hl. apply (wp_each _ _ _ _ (λ l' c', ∃ branch', chain_inv c' r hd hist branch' ∧
    ∀ x, x ∈ l' → index (c_fork c') !! id x = Some x ∧ validated x = true)).
  - by exists branch.
  - intros x l' c' (branch' & H' & Hl'). destruct (Hl' x) as [Hx Hv]; [left|].
    eapply wp_seq; [eapply apply_inv; [done|done|by eapply (ci_sound _ _ _ _ _ H')]| |intros c'' e [? _]; by eexists _, _].
    intros c'' [] (acts & Hf & Ha & He & Hp). wp_step. exists (x :: branch').
    assert (c_fork (set_head x c'') = c_fork c') as Ef by apply (ap_fork _ _ _ _ Ha).
    split; [|rewrite Ef; intros y Hy; apply Hl'; by right].
    pose proof (advance_inv c' c'' acts r hd hist branch' x (c_fork c') hd H' Hf Ha He (ci_wf _ _ _ _ _ H')
      (ci_sound _ _ _ _ _ H') Hx Hv Hp) as Hadv.
    assert (set_head x (set_fork (c_fork c') c'') = set_head x c'') as Eq.
    { rewrite <- (ap_fork _ _ _ _ Ha). by destruct c''. }
    rewrite <- Eq. apply Hadv. intros y Hy. by apply (branch_elem _ _ _ _ _ _ H' Hy).
  - intros c' (branch' & H' & _). by exists hd, branch'.
Qed.

Lemma check_sync_keeps second (P : controller → Prop) c : P c → wp (check_sync second) (λ c' _, P c') c.
Proof.
  intros H. unfold check_sync. wp_step. apply wp_lift. intros _. destruct (last second); simpl; [|done].
  wp_step. wp_step. by apply wp_lift.
Qed.

Lemma revert_inv c r hd hist done rest second bad e : chain_inv c r hd hist (done ++ rest) →
  block_num (c_head c) < num_from_id (id bad) →
  (∀ x, x ∈ second → index (c_fork c) !! id x = Some x ∧ validated x = true ∧
     ¬ desc (index (c_fork c)) (id bad) (id x)) →
  wp (revert_switch disable_replay_opts second (length done) bad e)
     (λ c' res, match res with Ok _ => False | Throw _ => some_inv c' r hist end) c.
Proof.
  intros H Hnum Hsec. unfold revert_switch. eapply wp_seq; [by eapply remove_inv| |].
  2:{ intros c' e' [H' _]. by exists hd, (done ++ rest). }
  intros c1 [] [H1 Hk1].
  eapply wp_seq; [apply (pops_inv (replicate (length done) tt) _ r hd hist done rest); [by rewrite length_replicate|done]| |].
  2:{ by intros c' e' [? _]. }
  intros c2 [] (_ & H2 & Hf2).
  apply (wp_seq _ _ (λ c' _, c' = c2)); [by apply check_sync_keeps|intros c' [] ->|intros c' e' ->; by exists hd, rest].
  eapply wp_seq; [apply (reapply_inv c2 r hd hist rest (reverse second) H2)| |by intros].
  { intros x Hx. rewrite elem_of_reverse in Hx. destruct (Hsec x Hx) as (Hi & Hv & Hd). split; [|done]. rewrite Hf2. by apply Hk1. }
  intros c3 [] H3. by apply wp_lift.
Qed.

Lemma desc_marked (idx : gmap digest_type bstate) b a k : held idx b →
  desc (<[id b := set_validated true b]> idx) a k → desc idx a k.
Proof.
  intros [v [Hb _]] [l Hl]. induction Hl as [a|k x l a Hx Hl IH]; [apply desc_refl|].
  apply lookup_insert_Some in Hx as [[<- <-]|[_ Hx]].
  - eapply desc_step; [exact Hb|]. exact IH.
  - by eapply desc_step.
Qed.

(** The blocks [todo], oldest first, lead from the head to the chosen block [n];
    [second] are the blocks of the old branch. *)
Record branch_ready c hd n second (todo : list bstate) : Prop := {
  br_chosen : chosen (c_fork c) hd n;
  br_todo : ∀ x, x ∈ todo → held (index (c_fork c)) x ∧
    (block_num x < block_num n ∨ bs_header_state x = bs_header_state n);
  br_num : ∀ i x, todo !! i = Some x → num_from_id (id x) = block_num (c_head c) + 1 + Z.of_nat i;
  br_second : ∀ x, x ∈ second → index (c_fork c) !! id x = Some x ∧ validated x = true;
  br_apart : ∀ x y, x ∈ second → y ∈ todo → ¬ desc (index (c_fork c)) (id y) (id x);
  br_last : ∀ y, last todo = Some y → bs_header_state y = bs_header_state n;
  br_end : todo = [] → bs_header_state hd = bs_header_state n ∧ id (c_head c) = id n;
}.

Lemma branch_step c c' r hd hd' hist branch n second b todo :
  chain_inv c r hd hist branch → branch_ready c hd n second (b :: todo) →
  chain_inv c' r hd' hist (set_validated true b :: branch) →
  index (c_fork c') = <[id b := set_validated true b]> (index (c_fork c)) → chosen (c_fork c') hd' n →
  (bs_header_state b = bs_header_state n → bs_header_state hd' = bs_header_state n) →
  branch_ready c' hd' n second todo.
Proof.
  intros H Hbr H' Hidx Hch Hlast. destruct (br_todo _ _ _ _ _ Hbr b) as [Hheld _]; [left|].
  pose proof (ci_tip _ _ _ _ _ H') as Ht. simpl in Ht.
  split.
  - done.
  - intros x Hx. destruct (br_todo _ _ _ _ _ Hbr x) as [Hxh Hxn]; [by right|]. split; [|done].
    rewrite Hidx. by apply held_insert.
  - intros i x Hx. rewrite (br_num _ _ _ _ _ Hbr (Datatypes.S i) x Hx).
    pose proof (br_num _ _ _ _ _ Hbr 0%nat b eq_refl) as Hb. destruct (head_num _ _ _ _ _ H') as (_ & _ & Hn & _).
    rewrite Ht in Hn |- *. simpl in *. lia.
  - intros x Hx. destruct (br_second _ _ _ _ _ Hbr x Hx) as [Hxi Hxv]. split; [|done]. rewrite Hidx.
    destruct (decide (id b = id x)) as [E|E]; [|by rewrite lookup_insert_ne]. exfalso.
    apply (br_apart _ _ _ _ _ Hbr x b Hx); [left|]. rewrite E. apply desc_refl.
  - intros x y Hx Hy Hd. rewrite Hidx in Hd. apply desc_marked in Hd; [|done].
    apply (br_apart _ _ _ _ _ Hbr x y Hx); [by right|done].
  - intros y Hy. apply (br_last _ _ _ _ _ Hbr). by destruct todo.
  - intros ->. pose proof (br_last _ _ _ _ _ Hbr b eq_refl) as Hb. split; [by apply Hlast|].
    rewrite Ht. simpl. by rewrite Hb.
Qed.

Lemma apply_branch_inv n second todo r hist rest c hd done :
  chain_inv c r hd hist (done ++ rest) → branch_ready c hd n second todo →
  wp (apply_branch disable_replay_opts second (length done) todo)
     (λ c' res, match res with
        | Ok _ => ∃ hd' branch', chain_inv c' r hd' hist branch' ∧ id hd' = id (c_head c') ∧
            bs_header_state hd' = bs_header_state n
        | Throw _ => some_inv c' r hist
        end) c.
Proof.
  revert c hd done. induction todo as [|b todo IH]; intros c hd done H Hbr; cbn [apply_branch].
  { wp_step. destruct (br_end _ _ _ _ _ Hbr eq_refl) as [E1 E2]. exists hd, (done ++ rest).
    split; [done|]. split; [|done]. rewrite E2. by rewrite E1. }
  destruct (br_todo _ _ _ _ _ Hbr b) as [Hheld Hbn]; [left|].
  pose proof (br_num _ _ _ _ _ Hbr 0%nat b eq_refl) as Hnum.
  apply (wp_seq _ _ (λ c' res, match res with
    | Ok _ => ∃ hd', chain_inv c' r hd' hist ((set_validated true b :: done) ++ rest) ∧ branch_ready c' hd' n second todo
    | Throw _ => some_inv c' r hist end)); [|intros c' [] (hd' & H' & Hbr'); by apply (IH c' hd' (set_validated true b :: done))|done].
  eapply wp_catch; [eapply (apply_mark_inv c r hd hist (done ++ rest) n b)| | |]; try done.
  - by destruct (is_valid b).
  - apply Hbr.
  - intros c' [] (hd' & H' & Hidx & Hch & Hl). exists hd'. split; [done|]. by apply (branch_step c c' r hd hd' hist (done ++ rest) n second b todo).
  - intros c' e [H' _] _. by exists hd, (done ++ rest).
  - intros c' e [H' Hf'] _.
    assert (block_num (c_head c') < num_from_id (id b)) as Hlt.
    { rewrite (ci_tip _ _ _ _ _ H'), <- (ci_tip _ _ _ _ _ H). lia. }
    eapply wp_mono; [eapply (revert_inv c' r hd hist done rest second b e H' Hlt)|by intros c'' [[]|e'] _ ?].
    intros x Hx. rewrite Hf'. destruct (br_second _ _ _ _ _ Hbr x Hx). split_and!; [done..|].
    apply (br_apart _ _ _ _ _ Hbr); [done|left].
Qed.

(** ** Paths of the tree *)

Lemma path_tree (db : @fork_database PT) r hd l a k : wf db r hd →
  path (index db) k l a → (k = id r ∨ is_Some (index db !! k)) → ∃ rest, path (index db) a rest (id r).
Proof.
  intros Hwf. induction 1 as [a|k b l a Hb Hl IH]; intros Hk.
  - destruct Hk as [->|[b Hb]]; [by exists []; constructor|]. by destruct (wf_desc_above _ _ _ _ _ Hwf Hb) as [? _].
  - apply IH. by apply (wf_link _ _ _ Hwf k).
Qed.

Lemma path_lookup (idx : gmap digest_type bstate) k l a i x : index_ok idx →
  path idx k l a → l !! i = Some x → path idx (id x) (drop i l) a.
Proof.
  intros Hok Hl. revert i. induction Hl as [|k b l a Hb Hl IH]; intros i Hx; [done|].
  destruct i as [|i]; simpl in *; [|by apply IH]. injection Hx as ->.
  destruct (Hok _ _ Hb) as [-> _]. by econstructor.
Qed.

Lemma path_split (idx : gmap digest_type bstate) k l1 b l2 a : index_ok idx → path idx k (l1 ++ b :: l2) a →
  idx !! id b = Some b ∧ path idx k l1 (id b) ∧ path idx (id b) (b :: l2) a.
Proof.
  intros Hok. revert k. induction l1 as [|x l1 IH]; intros k Hp; simpl in Hp; inversion Hp as [|? ? ? ? Hx Hl]; subst.
  - destruct (Hok _ _ Hx) as [E _]. rewrite E. split_and!; [done|constructor|done].
  - destruct (IH _ Hl) as (Hb & H1 & H2). split_and!; [done| |done]. by econstructor.
Qed.

Lemma path_start (idx : gmap digest_type bstate) k k' l a : index_ok idx → path idx k l a → path idx k' l a → k = k'.
Proof.
  intros Hok. destruct 1 as [|k b l a Hb Hl]; inversion 1 as [|? ? ? ? Hb' Hl']; subst; [done|].
  destruct (Hok _ _ Hb) as [<- _], (Hok _ _ Hb') as [<- _]. done.
Qed.

(** A block above the meeting point of two paths is not below a block of the other. *)
Lemma paths_apart (db : @fork_database PT) r hd l1 l2 rest k1 k2 a x y : wf db r hd →
  path (index db) k1 l1 a → path (index db) k2 (l2 ++ rest) (id r) → path (index db) a rest (id r) →
  (∀ b, b ∈ l1 → b ∉ l2) → x ∈ l2 → y ∈ l1 → ¬ desc (index db) (id y) (id x).
Proof.
  intros Hwf H1 H2 Hr Hdis Hx Hy [m Hm]. pose proof (wf_index _ _ _ Hwf) as Hok.
  destruct (path_elem _ _ _ _ _ Hok H1 Hy) as (Hyi & _ & l1b & _ & _ & Hya).
  assert (x ∈ l2 ++ rest) as Hx2 by (apply elem_of_app; by left).
  destruct (path_elem _ _ _ _ _ Hok H2 Hx2) as (_ & p1 & p2 & Ep & _ & Hxp).
  assert (path (index db) (id y) (y :: l1b ++ rest) (id r)) as Hyr by exact (path_app _ _ _ _ _ _ Hya Hr).
  pose proof (path_unique _ _ _ _ _ Hok (path_app _ _ _ _ _ _ Hm Hyr) Hxp) as Eq.
  assert (y ∈ l2 ++ rest) as Hyb.
  { rewrite Ep. apply elem_of_app. right. rewrite <- Eq. apply elem_of_app. right. left. }
  apply elem_of_app in Hyb as [Hyb|Hyb]; [by apply (Hdis y)|].
  destruct (path_elem _ _ _ _ _ Hok Hr Hyb) as (_ & q & _ & _ & Hq & _).
  apply (path_num _ _ _ _ Hok) in Hya, Hq. simpl in Hya. lia.
Qed.

(** What [fetch_branch_from] tells the switch to the chosen block. *)
Lemma switch_ready c c1 r hd hist rest n l1 l2 a :
  chain_inv c r hd hist (l2 ++ rest) → chain_inv c1 r hd hist rest → c_fork c1 = c_fork c →
  chosen (c_fork c) hd n → n = hd ∨ index (c_fork c) !! id n = Some n →
  path (index (c_fork c)) (id n) l1 a → path (index (c_fork c)) a rest (id r) → (∀ b, b ∈ l1 → b ∉ l2) →
  branch_ready c1 hd n l2 (reverse l1).
Proof.
  intros H H1 Ef Hch Hn Hl1 Hrest Hdis. pose proof (ci_wf _ _ _ _ _ H) as Hwf. pose proof (wf_index _ _ _ Hwf) as Hok.
  assert (id (c_head c1) = a) as Ha.
  { eapply path_start; [exact Hok| |exact Hrest]. rewrite <- Ef. apply H1. }
  assert (∀ x, x ∈ l1 → index (c_fork c) !! id n = Some n) as Hnin.
  { intros x Hx. destruct Hn as [->|?]; [|done]. destruct (wf_head_in _ _ _ Hwf) as [->|?]; [|done].
    destruct l1 as [|b l1]; [by apply elem_of_nil in Hx|]. inversion Hl1 as [|? ? ? ? Hb _]; subst.
    by rewrite (wf_root_not_in _ _ _ Hwf) in Hb. }
  assert (∀ b l, l1 = b :: l → b = n) as Hfirst.
  { intros b l ->. inversion Hl1 as [|? ? ? ? Hb _]; subst. rewrite (Hnin b) in Hb by left. congruence. }
  destruct (head_num _ _ _ _ _ H1) as (_ & _ & Hhn & _).
  split; rewrite ?Ef.
  - done.
  - intros x Hx. rewrite elem_of_reverse in Hx.
    destruct (path_elem _ _ _ _ _ Hok Hl1 Hx) as (Hxi & p & q & E & Hp & _).
    split; [exists (validated x); by rewrite set_validated_same|].
    destruct (Hok _ _ Hxi) as [_ [Hxn _]]. destruct (Hok _ _ (Hnin x Hx)) as [_ [Hnn _]].
    destruct p as [|b p]; [right; simpl in E; by rewrite (Hfirst x q)|left].
    apply (path_num _ _ _ _ Hok) in Hp. simpl in Hp. lia.
  - intros i x Hx. pose proof (lookup_lt_Some _ _ _ Hx) as Hi. rewrite length_reverse in Hi.
    rewrite reverse_lookup in Hx by done. apply (path_lookup _ _ _ _ _ _ Hok Hl1) in Hx.
    apply (path_num _ _ _ _ Hok) in Hx. rewrite length_drop, <- Ha, Hhn in Hx. lia.
  - intros x Hx. apply (branch_elem _ _ _ _ _ _ H). apply elem_of_app. by left.
  - intros x y Hx Hy. rewrite elem_of_reverse in Hy.
    by apply (paths_apart (c_fork c) r hd l1 l2 rest (id n) (id (c_head c)) a x y Hwf Hl1 (ci_path _ _ _ _ _ H)).
  - intros y Hy. destruct l1 as [|b l1]; [done|]. rewrite reverse_cons, last_snoc in Hy. injection Hy as <-.
    by rewrite (Hfirst b l1).
  - intros E. assert (l1 = []) as -> by (destruct l1; [done|]; rewrite reverse_cons in E; by destruct (reverse l1)).
    assert (id n = a) as Ea by (by inversion Hl1). rewrite <- Ea in Hrest, Ha. split; [|done]. destruct Hch as [_ [?|((v & Hv & _) & Hp & _)]]; [done|]. exfalso.
    destruct rest as [|b rest].
    + assert (id n = id r) as E' by (by inversion Hrest). by rewrite E', (wf_root_not_in _ _ _ Hwf) in Hv.
    + assert (index (c_fork c) !! id n = Some b) as Eb by (by inversion Hrest). rewrite Hv in Eb. injection Eb as Eb.
      assert (validated (set_validated v n) = true) as Hvv by (apply (branch_elem _ _ _ _ _ _ H); rewrite Eb; set_solver).
      pose proof (wf_head_best _ _ _ Hwf _ _ Hv Hvv) as Hb. change (first_preferred n hd = false) in Hb. congruence.
Qed.

(** Switching to the chosen block ends with the controller's head at the head
    of the fork database, or fails with the invariant kept. *)
Lemma switch_inv c r hd hist branch n :
  chain_inv c r hd hist branch → chosen (c_fork c) hd n → n = hd ∨ index (c_fork c) !! id n = Some n →
  wp (switch_to disable_replay_opts n)
     (λ c' res, match res with
        | Ok _ => ∃ hd' branch', chain_inv c' r hd' hist branch' ∧ id hd' = id (c_head c')
        | Throw _ => some_inv c' r hist
        end) c.
Proof.
  intros H Hch Hn. pose proof (ci_wf _ _ _ _ _ H) as Hwf.
  assert (in_tree (c_fork c) r n) as Hnt by (destruct Hn as [->|?]; [apply (wf_head_in _ _ _ Hwf)|by right]).
  assert (in_tree (c_fork c) r (c_head c)) as Hht.
  { rewrite (ci_tip _ _ _ _ _ H). destruct branch as [|b ?]; [by left|right].
    apply (branch_elem _ _ _ _ _ b H). left. }
  destruct (fetch_branch_from_spec _ _ _ _ _ Hwf Hnt Hht) as (l1 & l2 & a & E & Hl1 & Hl2 & Hdis).
  destruct (path_tree _ _ _ _ _ _ Hwf Hl2) as [rest Hrest].
  { destruct Hht as [->|Hh]; [by left|by right; eexists]. }
  pose proof (path_unique _ _ _ _ _ (wf_index _ _ _ Hwf) (ci_path _ _ _ _ _ H) (path_app _ _ _ _ _ _ Hl2 Hrest)) as ->.
  unfold switch_to. do 5 wp_step. apply wp_lift. rewrite E. cbn [fst snd].
  intros _. apply (wp_seq _ _ (λ c' _, chain_inv c' r hd hist rest ∧ c_fork c' = c_fork c)).
  - unfold when_. destruct (0 <? length l2)%nat eqn:E2.
    2:{ destruct l2; [by wp_step|done]. }
    eapply wp_seq; [by apply (pops_inv l2 _ r hd hist l2 rest)|intros c1 [] (_ & H1); by apply check_sync_keeps|].
    by intros c1 e (? & _).
  - intros c1 [] [H1 Ef]. eapply wp_mono; [apply (apply_branch_inv n l2 (reverse l1) r hist rest c1 hd [] H1)|].
    { by apply (switch_ready c c1 r hd hist rest n l1 l2 a). }
    intros c' [[]|e] _; [|done]. intros (hd' & branch' & H' & Hid & _). by exists hd', branch'.
  - intros c1 e [H1 _]. by exists hd, rest.
Qed.

(** ** Irreversible blocks *)

Lemma branch_loop_path (db : @fork_database PT) fuel k l a : index db !! a = None →
  path (index db) k l a → (length l ≤ fuel)%nat → branch_loop fuel db (get_block db k) = Ok l.
Proof.
  intros Ha Hl. revert fuel. unfold get_block. induction Hl as [a|k b l a Hb Hl IH]; intros fuel Hf.
  - rewrite Ha. by destruct fuel.
  - rewrite Hb. destruct fuel as [|fuel]; simpl in *; [lia|]. unfold get_block. rewrite IH by (done || lia). done.
Qed.

Lemma filter_id {A} (P : A → Prop) `{!∀ a, Decision (P a)} (l : list A) : Forall P l → filter P l = l.
Proof. induction 1; [done|]. rewrite filter_cons_True by done. by f_equal. Qed.

(** The blocks up to a number are the end of a path. *)
Lemma filter_path (idx : gmap digest_type bstate) k l a (m : Z) : index_ok idx → path idx k l a →
  ∃ keep, l = keep ++ filter (λ s : bstate, block_num s ≤ m) l.
Proof.
  intros Hok. induction 1 as [a|k b l a Hb Hl [keep E]]; [by exists []|].
  destruct (decide (block_num b ≤ m)) as [Hle|Hlt].
  - exists []. simpl. rewrite filter_cons_True by done. f_equal. symmetry. apply filter_id, Forall_forall. intros x Hx.
    destruct (path_elem _ _ _ _ _ Hok Hl Hx) as (Hxi & l1 & _ & _ & Hp & _). apply (path_num _ _ _ _ Hok) in Hp.
    destruct (Hok _ _ Hb) as [_ [_ H1]], (Hok _ _ Hxi) as [_ [H2 _]]. lia.
  - exists (b :: keep). rewrite filter_cons_False by done. simpl. by f_equal.
Qed.

(** What the log of [c] holds: the blocks [lg] of the branch, of which [rest]
    are the others. *)
Record logged c0 c r hist (lg rest : list bstate) : Prop := {
  lg_same : c_fork c = c_fork c0 ∧ c_head c = c_head c0 ∧ c_features c = c_features c0 ∧
    c_pending c = c_pending c0 ∧ c_mode c = c_mode c0;
  lg_db : contents (c_db c) = contents (c_db c0) ∧ revision (c_db c) = revision (c_db c0) ∧
    undo_points (c_db c) = take (length rest) (undo_points (c_db c0));
  lg_log : c_blog c = holding version first gs (log0 ++ blocks_of (lg ++ hist));
  lg_first : first + Z.of_nat (length (log0 ++ blocks_of (lg ++ hist))) = block_num (default r (hd_error lg)) + 1;
  lg_last : ∀ sb, last (log0 ++ blocks_of (lg ++ hist)) = Some sb → header_id sb = id (default r (hd_error lg));
}.

Lemma blocks_of_cons b l sb : block b = Some sb → blocks_of (b :: l) = blocks_of l ++ [sb].
Proof. intros E. unfold blocks_of. rewrite reverse_cons, omap_app. simpl. by rewrite E. Qed.

(** The numbers of a branch. *)
Lemma branch_split c r hd hist rest b lg : chain_inv c r hd hist (rest ++ b :: lg) →
  path (index (c_fork c)) (id (c_head c)) rest (id b) ∧
  block_num b = block_num (default r (hd_error lg)) + 1 ∧ block_num (c_head c) = block_num b + Z.of_nat (length rest).
Proof.
  intros H. pose proof (ci_wf _ _ _ _ _ H) as Hwf. pose proof (wf_index _ _ _ Hwf) as Hok.
  destruct (head_num _ _ _ _ _ H) as (_ & _ & _ & Hn). rewrite length_app in Hn. simpl in Hn.
  destruct (path_split _ _ _ _ _ _ Hok (ci_path _ _ _ _ _ H)) as (Hbi & Hr & Hp). split; [done|].
  inversion Hp as [|? ? ? ? _ Hlg]; subst. apply (path_num _ _ _ _ Hok) in Hp. rewrite (wf_root_num _ _ _ Hwf) in Hp.
  destruct (Hok _ _ Hbi) as [_ [Hb Hpb]]. split; [|simpl in *; lia].
  destruct lg as [|x lg]; simpl in *; [lia|]. inversion Hlg as [|? ? ? ? Hx _]; subst.
  destruct (Hok _ _ Hx) as [Ex [Hxn _]]. rewrite Ex in Hxn. lia.
Qed.

(** One block is committed, appended to the log and dropped from the table of
    reversible blocks. *)
Lemma log_step {h} c0 c r hd hist keep b lg :
  chain_inv c0 r hd hist (keep ++ b :: lg) → logged c0 c r hist lg (keep ++ [b]) →
  wp (catch_fc
        (append_block b;;;
         change (λ c, set_reversible (filter (λ kv, block_num b < kv.1) (c_reversible c)) c)) h)%op
     (λ c' res, res = Ok tt ∧ logged c0 c' r hist (b :: lg) keep)
     (set_db (commit (block_num b) (c_db c)) c).
Proof.
  intros H Hl. destruct (branch_split _ _ _ _ _ _ _ H) as (_ & Hbn & Hhn).
  destruct (branch_elem _ _ _ _ _ b H) as [Hbi _]; [set_solver|].
  destruct (ci_sound _ _ _ _ _ H _ _ Hbi) as (sb & Hsb & Hhd & Hid & Hna).
  destruct (wf_index _ _ _ (ci_wf _ _ _ _ _ H) _ _ Hbi) as [_ [_ Hprev]].
  pose proof (num_from_id_range (previous (header b))) as Hpr. unfold in_u in Hpr.
  destruct (commit_spec (block_num b) (c_db c)) as (E1 & E2 & E3). destruct (lg_db _ _ _ _ _ _ Hl) as (D1 & D2 & D3).
  assert (append (c_blog c) sb = Ok (Z.of_nat (length (log_bytes version first gs (log0 ++ blocks_of (lg ++ hist)))),
            holding version first gs (log0 ++ blocks_of ((b :: lg) ++ hist)))) as Ha.
  { pose proof (lg_first _ _ _ _ _ _ Hl) as Hfi. pose proof (ci_first _ _ _ _ _ H) as [Hf0 _].
    unfold not_active, u32_max in Hna. rewrite (lg_log _ _ _ _ _ _ Hl), append_holding by lia.
    rewrite decide_True; [simpl; by rewrite (blocks_of_cons b _ sb), app_assoc|].
    rewrite Hhd. unfold header_block_num. rewrite wrap_small; unfold in_u; lia. }
  assert (c_blog (set_db (commit (block_num b) (c_db c)) c) = c_blog c) as Hc by done.
  apply wp_catch_fc, wp_andthen. unfold append_block. rewrite Hsb. do 4 wp_step. rewrite Hc, Ha. do 4 wp_step. split; [done|].
  split; simpl.
  - apply Hl.
  - rewrite E1, E2, E3. split_and!; [done|done|]. rewrite D3, D2, (ci_revision _ _ _ _ _ H), take_take. f_equal.
    rewrite length_app. simpl. lia.
  - done.
  - rewrite (blocks_of_cons b _ sb), app_assoc, length_app by done. pose proof (lg_first _ _ _ _ _ _ Hl) as Hfi. simpl. lia.
  - intros sb'. rewrite (blocks_of_cons b _ sb), app_assoc, last_snoc by done. intros [= <-]. by rewrite Hhd, Hid.
Qed.

Lemma log_blocks_spec c0 r hd hist keep todo : ∀ lg i c,
  chain_inv c0 r hd hist (keep ++ todo ++ lg) → logged c0 c r hist lg (keep ++ todo) → i = id (default r (hd_error lg)) →
  wp (log_blocks disable_replay_opts i (reverse todo))
     (λ c' res, res = Ok (id (default r (hd_error (todo ++ lg)))) ∧ logged c0 c' r hist (todo ++ lg) keep) c.
Proof.
  induction todo as [|b todo IH] using rev_ind; intros lg i c H Hl ->.
  { cbn [reverse rev_append log_blocks]. wp_step. by rewrite app_nil_r in Hl. }
  rewrite reverse_snoc. cbn [log_blocks]. rewrite <- app_assoc in H. cbn [app] in H.
  assert (chain_inv c0 r hd hist ((keep ++ todo) ++ b :: lg)) as H' by (by rewrite <- app_assoc).
  destruct (lg_same _ _ _ _ _ _ Hl) as (Hf & Hh & Hfe & Hpe & Hm). wp_step. wp_step. rewrite Hm, bool_decide_false by apply H.
  unfold when_. wp_step. wp_step.
  apply (wp_seq _ _ (λ c' res, res = Ok tt ∧ logged c0 c' r hist (b :: lg) (keep ++ todo))); [|intros c' [] [_ Hl']|by intros ? ? []].
  { apply (log_step c0 c r hd); [done|]. by rewrite <- app_assoc. }
  replace ((todo ++ [b]) ++ lg) with (todo ++ b :: lg) by (by rewrite <- app_assoc). by apply IH.
Qed.

(** The newest block of the log becomes the root. *)
Lemma root_inv c0 c r hd hist keep nr lg : chain_inv c0 r hd hist (keep ++ nr :: lg) → id hd = id (c_head c0) →
  logged c0 c r hist (nr :: lg) keep →
  ∃ f, advance_root (c_fork c) (id nr) = Ok f ∧ chain_inv (set_fork f c) nr hd ((nr :: lg) ++ hist) keep.
Proof.
  intros H Hid Hl. destruct (branch_split _ _ _ _ _ _ _ H) as (Hp & Hbn & Hhn).
  destruct (branch_elem _ _ _ _ _ nr H) as [Hi Hv]; [set_solver|]. pose proof (ci_wf _ _ _ _ _ H) as Hwf.
  pose proof (wf_index _ _ _ Hwf) as Hok. destruct (Hok _ _ Hi) as [_ [Hn Hprev]].
  pose proof (num_from_id_range (previous (header nr))) as Hpr. unfold in_u in Hpr.
  destruct (lg_same _ _ _ _ _ _ Hl) as (Ef & Eh & Efe & Ep & Em). destruct (lg_db _ _ _ _ _ _ Hl) as (D1 & D2 & D3).
  destruct (advance_root_spec _ _ _ _ _ Hwf Hi Hv) as [[Hd _]|(Hd & f & Hf & Hr & Hh & Hidx)].
  { destruct Hd. exists keep. by rewrite Hid. }
  exists f. rewrite Ef. split; [done|].
  destruct (advance_root_wf _ _ _ _ _ Hwf Hf) as [nr' Hwf']. rewrite (wf_root _ _ _ Hwf') in Hr. injection Hr as ->.
  destruct (ci_sound _ _ _ _ _ H _ _ Hi) as (sb & Hsb & Hhd & Hnid & Hna).
  destruct (ci_state _ _ _ _ _ H) as (pts & Hre & Hpts).
  split; simpl; rewrite ?Eh, ?Efe, ?Ep, ?Em, ?D1, ?D2; try apply H; try apply Hl; try done.
  - intros k x [Hx _]%Hidx. by apply (ci_sound _ _ _ _ _ H k).
  - split_and!; [lia|done|lia].
  - apply (path_keep (index (c_fork c0))); [done| |done]. intros x Hx.
    destruct (path_elem _ _ _ _ _ Hok Hp Hx) as (Hxi & _ & l2 & _ & _ & Hxp). apply Hidx. split_and!; [done| |by eexists].
    intros E. apply (path_num _ _ _ _ Hok) in Hxp. rewrite E in Hxp. simpl in Hxp. lia.
  - rewrite (ci_tip _ _ _ _ _ H). by destruct keep.
  - pose proof (ci_valid _ _ _ _ _ H) as Hva. by apply Forall_app in Hva as [? _].
  - exists pts. rewrite <- app_assoc in Hre. split; [done|]. rewrite D3, Hpts, take_take. f_equal. rewrite length_app. simpl. lia.
  - split; [apply H|]. apply Hl.
Qed.

Lemma logged_inv c0 c r hd hist branch : chain_inv c0 r hd hist branch → logged c0 c r hist [] branch →
  chain_inv c r hd hist branch.
Proof.
  intros H Hl. destruct (lg_same _ _ _ _ _ _ Hl) as (Ef & Eh & Efe & Ep & Em). destruct (lg_db _ _ _ _ _ _ Hl) as (D1 & D2 & D3).
  destruct (ci_state _ _ _ _ _ H) as (pts & Hre & Hpts).
  split; rewrite ?Ef, ?Eh, ?Efe, ?Ep, ?Em, ?D1, ?D2; try apply H; try apply Hl.
  exists pts. by rewrite D3, Hpts, take_take, Nat.min_id.
Qed.

(** The chain of the log grows and the invariant is kept. *)
Definition grown c hist : Prop := ∃ r hd new branch, chain_inv c r hd (new ++ hist) branch.

Lemma some_grown c r hist : some_inv c r hist → grown c hist.
Proof. intros (hd & branch & H). by exists r, hd, [], branch. Qed.

Lemma log_irreversible_inv c r hd hist branch : chain_inv c r hd hist branch → id hd = id (c_head c) →
  wp (log_irreversible disable_replay_opts) (λ c' _, grown c' hist) c.
Proof.
  intros H Hid. pose proof (ci_wf _ _ _ _ _ H) as Hwf. assert (grown c hist) as Hg by (by exists r, hd, [], branch).
  unfold log_irreversible. do 3 wp_step. apply wp_lift. intros _. rewrite (wf_root _ _ _ Hwf). do 2 wp_step.
  eapply (wp_seq _ _ (λ c' _, c' = c)); [by apply wp_lift|intros ? [] ->|by intros ? ? ->].
  do 4 wp_step. rewrite bool_decide_false by apply H. do 2 wp_step. rewrite (wf_head _ _ _ Hwf). do 2 wp_step.
  destruct (_ <=? _); [by wp_step|].
  destruct (filter_path _ _ _ _ (dpos_irreversible_blocknum hd) (wf_index _ _ _ Hwf) (ci_path _ _ _ _ _ H)) as [keep Hk].
  set (fin := filter _ branch) in Hk.
  assert (fetch_branch (c_fork c) (id hd) (dpos_irreversible_blocknum hd) = Ok fin) as ->.
  { unfold fetch_branch. rewrite Hid, (branch_loop_path _ _ _ branch (id r)); [done| |apply H|].
    - by apply (wf_root_not_in _ _ _ Hwf).
    - eapply path_length; [apply Hwf|apply H]. }
  do 2 wp_step. rewrite Hk in H.
  eapply wp_seq; [apply (log_blocks_spec c r hd hist keep fin []); [by rewrite app_nil_r| |done]| |by intros ? ? []].
  { split; [done| |apply H..]. split_and!; [done..|]. destruct (ci_state _ _ _ _ _ H) as (pts & _ & Hpts).
    by rewrite Hpts, take_take, Nat.min_id. }
  intros c1 i [[= ->] Hl]. rewrite app_nil_r in *. destruct (lg_same _ _ _ _ _ _ Hl) as (Ef & _).
  unfold finish_root. do 2 wp_step. rewrite Ef, (wf_root _ _ _ Hwf). do 2 wp_step.
  clearbody fin. destruct fin as [|nr lg]; simpl.
  - rewrite bool_decide_false by (intros E; by apply E). wp_step. exists r, hd, [], keep. rewrite app_nil_r in H.
    by apply (logged_inv c).
  - destruct (root_inv _ _ _ _ _ _ _ _ H Hid Hl) as (f & Hf & H').
    rewrite bool_decide_true; [|intros E; destruct (branch_elem _ _ _ _ _ nr H) as [Hi _]; [set_solver|];
      by rewrite E, (wf_root_not_in _ _ _ Hwf) in Hi].
    unfold fork_op. do 3 wp_step. apply wp_lift. intros _. rewrite Hf. wp_step. by exists nr, hd, (nr :: lg), keep.
Qed.
End replay.
