(* ===== verification/ContractTables.v ===== *)
(** * Contract tables ([apply_context.hpp], [apply_context.cpp],
    [contract_table_objects.hpp])

    The tables a contract reads and writes: rows with a primary key and a
    value, and rows of secondary indices, addressed by iterators that an
    [apply_context] hands out as integers.  The six containers of the database
    are one map whose keys name the container; a row is identified by its
    table and its primary key, which never change while it lives.  A pointer
    in an iterator cache is the identity of the object it points to, and
    reading through one whose object is gone is [undefined_behaviour].  RAM is
    billed through [ResourceLimits]. *)

From S2P Require Import Prelude Chainbase Names Assets Config ConfigOnChain Accumulator.
From S2P Require Import ResourceLimits Authority.
Local Open Scope Z_scope.

(** ** Objects *)
Inductive index_kind := idx64 | idx128 | idx256 | idx_double | idx_long_double.
Inductive container := key_value | secondary (k : index_kind).

#[export] Instance index_kind_eq_dec : EqDecision index_kind.
Proof. solve_decision. Defined.
#[export] Instance container_eq_dec : EqDecision container.
Proof. solve_decision. Defined.
#[export] Instance container_countable : Countable container.
Proof.
  refine (inj_countable' (λ c, match c with
      | key_value => 0%nat | secondary idx64 => 1%nat | secondary idx128 => 2%nat
      | secondary idx256 => 3%nat | secondary idx_double => 4%nat
      | secondary idx_long_double => 5%nat end)
    (λ n, match n with
      | 0 => key_value | 1 => secondary idx64 | 2 => secondary idx128
      | 3 => secondary idx256 | 4 => secondary idx_double
      | _ => secondary idx_long_double end)%nat _).
  by intros [|[]].
Defined.

(** [key_value_object] and [index_object] without their keys: [payload] is the
    value's bytes, or the words of the secondary key. *)
Record row := mk_row { payer : Z; payload : list Z }.
(** [t_id] and [primary_key]. *)
Abbreviation row_key := (Z * Z)%type.

(** [table_id_object]; [code], [scope] and [table] are the key of the map. *)
Record table_id_object := mk_table { t_id : Z; t_payer : Z; count : Z }.
Abbreviation table_key := (Z * Z * Z)%type.

(** [config::billable_size] *)
Definition billable_table : Z := billable_size_v (44 + overhead_per_row_per_index_ram_bytes * 2).
Definition billable_key_value : Z :=
  billable_size_v (32 + 8 + 4 + overhead_per_row_per_index_ram_bytes * 2).
Definition billable_index (k : index_kind) : Z :=
  billable_size_v
    (24 + match k with idx64 | idx_double => 8 | idx128 | idx_long_double => 16 | idx256 => 32 end
     + overhead_per_row_per_index_ram_bytes * 3).

(** ** The iterator cache *)
Record iterator_cache := mk_cache {
  _table_cache : gmap Z Z;
  _end_iterator_to_table : list Z;
  _iterator_to_object : list (option row_key);
  _object_to_iterator : gmap row_key Z }.

Definition empty_cache : iterator_cache := mk_cache ∅ [] [] ∅.

Definition end_iterator_to_index (ei : Z) : Z := - ei - 2.
Definition index_to_end_iterator (indx : Z) : Z := - (indx + 2).

Definition cache_table (c : iterator_cache) (tid : Z) : Z * iterator_cache :=
  match _table_cache c !! tid with
  | Some ei => (ei, c)
  | None =>
      let ei := index_to_end_iterator (Z.of_nat (length (_end_iterator_to_table c))) in
      (ei, mk_cache (<[tid := ei]> (_table_cache c)) (_end_iterator_to_table c ++ [tid])
             (_iterator_to_object c) (_object_to_iterator c))
  end.

Definition get_end_iterator_by_table_id (c : iterator_cache) (tid : Z) : result Z :=
  of_option table_not_in_cache (_table_cache c !! tid).

(** The pointer, null when there is no such end iterator. *)
Definition find_table_by_end_iterator (c : iterator_cache) (ei : Z) : result (option Z) :=
  _ ← EOS_ASSERT (ei <? -1) invalid_table_iterator;
  Ok (_end_iterator_to_table c !! Z.to_nat (end_iterator_to_index ei)).

(** The pointer [get] dereferences. *)
Definition cache_get (c : iterator_cache) (iterator : Z) : result row_key :=
  _ ← EOS_ASSERT (negb (iterator =? -1)) invalid_table_iterator;
  _ ← EOS_ASSERT (0 <=? iterator) table_operation_not_permitted;
  res ← of_option invalid_table_iterator (_iterator_to_object c !! Z.to_nat iterator);
  of_option table_operation_not_permitted res.

Definition cache_remove (c : iterator_cache) (iterator : Z) : result iterator_cache :=
  _ ← EOS_ASSERT (negb (iterator =? -1)) invalid_table_iterator;
  _ ← EOS_ASSERT (0 <=? iterator) table_operation_not_permitted;
  obj_ptr ← of_option invalid_table_iterator (_iterator_to_object c !! Z.to_nat iterator);
  match obj_ptr with
  | None => Ok c
  | Some k =>
      Ok (mk_cache (_table_cache c) (_end_iterator_to_table c)
            (<[Z.to_nat iterator := None]> (_iterator_to_object c))
            (delete k (_object_to_iterator c)))
  end.

Definition cache_add (c : iterator_cache) (obj : row_key) : Z * iterator_cache :=
  match _object_to_iterator c !! obj with
  | Some i => (i, c)
  | None =>
      let i := Z.of_nat (length (_iterator_to_object c)) in
      (i, mk_cache (_table_cache c) (_end_iterator_to_table c)
            (_iterator_to_object c ++ [Some obj]) (<[obj := i]> (_object_to_iterator c)))
  end.

(** ** The context and its state *)

(** What the operations read of the [apply_context] and the controller. *)
Record apply_env := {
  receiver : Z;
  act_code : Z;
  act_authorization : list permission_level;
  privileged : bool;
  ram_restrictions : bool;
  ram_billing_in_notify_allowed : bool }.

(** The tables, the resource usage, the members [validate_ram_usage] of the
    transaction context and [_account_ram_deltas] of the apply context, and an
    iterator cache per container. *)
Record table_state := mk_state {
  tables : gmap table_key table_id_object;
  next_table_id : Z;
  rows : gmap (container * row_key) row;
  resources : resource_db;
  validate_ram_usage : gset Z;
  account_ram_deltas : gmap Z Z;
  caches : gmap container iterator_cache }.

Definition with_tables (st : table_state) t :=
  mk_state t (next_table_id st) (rows st) (resources st) (validate_ram_usage st)
    (account_ram_deltas st) (caches st).
Definition with_rows (st : table_state) r :=
  mk_state (tables st) (next_table_id st) r (resources st) (validate_ram_usage st)
    (account_ram_deltas st) (caches st).
Definition with_cache (st : table_state) (c : container) (ic : iterator_cache) :=
  mk_state (tables st) (next_table_id st) (rows st) (resources st) (validate_ram_usage st)
    (account_ram_deltas st) (<[c := ic]> (caches st)).
Definition cache_of (st : table_state) (c : container) : iterator_cache :=
  default empty_cache (caches st !! c).

(** The table object a pointer refers to. *)
Definition table_by_id (st : table_state) (tid : Z) : option (table_key * table_id_object) :=
  List.find (λ kt, t_id kt.2 =? tid) (map_to_list (tables st)).

(** ** Positions in the ordered indices *)
Inductive index_order := by_primary | by_secondary.
Abbreviation position := (Z * Z * Z)%type.

Definition pos_lt (a b : position) : bool :=
  (a.1.1 <? b.1.1)
  || ((a.1.1 =? b.1.1) && ((a.1.2 <? b.1.2) || ((a.1.2 =? b.1.2) && (a.2 <? b.2)))).

Definition entry_le (a b : position * row_key) : Prop := pos_lt b.1 a.1 = false.
#[export] Instance entry_le_dec : RelDecision entry_le := λ a b, bool_eq_dec _ _.

Section tables.
Context {db : Chainbase}.
(** The order of soft floats, as their positions in the order of [f64_lt] and
    [f128_lt]; NaN keys are rejected before they get here. *)
Context (f64_rank f128_rank : Z → Z).

(** The place of a secondary key in the order of its type; arrays of two
    128-bit words are compared word by word. *)
Definition rank (k : index_kind) (key : list Z) : Z :=
  match k, key with
  | idx64, [x] | idx128, [x] => x
  | idx256, [x; y] => x * 2 ^ 128 + y
  | idx_double, [x] => f64_rank x
  | idx_long_double, [x] => f128_rank x
  | _, _ => 0
  end.

Definition sort_key (o : index_order) (c : container) (k : row_key) (r : row) : position :=
  match o, c with
  | by_secondary, secondary i => (k.1, rank i (payload r), k.2)
  | _, _ => (k.1, 0, k.2)
  end.

(** The entries of an index, first one first. *)
Definition entries (st : table_state) (o : index_order) (c : container) :
    list (position * row_key) :=
  merge_sort entry_le
    (omap (λ kr : container * row_key * row,
       if decide (kr.1.1 = c) then Some (sort_key o c kr.1.2 kr.2, kr.1.2) else None)
       (map_to_list (rows st))).

(** The first entry that is not before a bound, and the last that is. *)
Definition first_from (st : table_state) (o : index_order) (c : container)
    (before : position → bool) : option row_key :=
  snd <$> List.find (λ e, negb (before e.1)) (entries st o c).
Definition last_before (st : table_state) (o : index_order) (c : container)
    (before : position → bool) : option row_key :=
  snd <$> last (filter (λ e, before e.1 = true) (entries st o c)).

(** ** RAM *)

(** [transaction_context::add_ram_usage] *)
Definition trx_add_ram_usage (st : table_state) (account ram_delta : Z) : result table_state :=
  d ← add_pending_ram_usage (resources st) account ram_delta;
  Ok (mk_state (tables st) (next_table_id st) (rows st) d
        (if 0 <? ram_delta then {[ account ]} ∪ validate_ram_usage st else validate_ram_usage st)
        (account_ram_deltas st) (caches st)).

(** [apply_context::add_ram_usage] *)
Definition add_ram_usage (st : table_state) (account ram_delta : Z) : result table_state :=
  st ← trx_add_ram_usage st account ram_delta;
  delta ← match account_ram_deltas st !! account with
          | None => Ok ram_delta
          | Some delta => int64_op (delta + ram_delta)
          end;
  Ok (mk_state (tables st) (next_table_id st) (rows st) (resources st) (validate_ram_usage st)
        (<[account := delta]> (account_ram_deltas st)) (caches st)).

Definition has_authorization (env : apply_env) (account : Z) : bool :=
  existsb (λ a, actor a =? account) (act_authorization env).

Definition require_authorization (env : apply_env) (account : Z) : result unit :=
  EOS_ASSERT (has_authorization env account) missing_auth_exception.

Definition update_db_usage (env : apply_env) (st : table_state) (payer delta : Z) :
    result table_state :=
  _ ← (if (0 <? delta) && negb (privileged env || (payer =? receiver env) || ram_restrictions env)
       then
         _ ← EOS_ASSERT (ram_billing_in_notify_allowed env || (receiver env =? act_code env))
               subjective_block_production_exception;
         require_authorization env payer
       else Ok tt);
  add_ram_usage st payer delta.

(** ** Tables *)
Definition find_table (st : table_state) (code scope table : Z) : option table_id_object :=
  db_find (tables st) (code, scope, table).

Definition find_or_create_table (env : apply_env) (st : table_state) (code scope table payer : Z) :
    result (Z * table_state) :=
  match db_find (tables st) (code, scope, table) with
  | Some existing_tid => Ok (t_id existing_tid, st)
  | None =>
      st ← update_db_usage env st payer billable_table;
      let tid := next_table_id st in
      ts ← db_create (tables st) (code, scope, table) (mk_table tid payer 0);
      Ok (tid, mk_state ts (tid + 1) (rows st) (resources st) (validate_ram_usage st)
                 (account_ram_deltas st) (caches st))
  end.

Definition remove_table (env : apply_env) (st : table_state) (k : table_key) (tid : table_id_object) :
    result table_state :=
  st ← update_db_usage env st (t_payer tid) (- billable_table);
  Ok (with_tables st (db_remove (tables st) k)).

(** [iterator_cache::get_table] *)
Definition get_table (st : table_state) (ic : iterator_cache) (tid : Z) :
    result (table_key * table_id_object) :=
  _ ← EOS_ASSERT (bool_decide (is_Some (_table_cache ic !! tid))) table_not_in_cache;
  of_option undefined_behaviour (table_by_id st tid).

(** [iterator_cache::get] *)
Definition get_object (st : table_state) (c : container) (iterator : Z) : result (row_key * row) :=
  k ← cache_get (cache_of st c) iterator;
  r ← of_option undefined_behaviour (rows st !! (c, k));
  Ok (k, r).

Definition add_to_count (n : Z) (t : table_id_object) : result table_id_object :=
  Ok (mk_table (t_id t) (t_payer t) (u32 (count t + n))).

(** What the two [store] operations do once the table is there. *)
Definition create_row (env : apply_env) (st : table_state) (c : container) (tk : table_key)
    (tid id payer : Z) (data : list Z) (billable_size : Z) : result (Z * table_state) :=
  rs ← db_create (rows st) (c, (tid, id)) (mk_row payer data);
  ts ← db_modify (tables st) tk (add_to_count 1);
  st ← update_db_usage env (with_tables (with_rows st rs) ts) payer billable_size;
  let '(_, ic) := cache_table (cache_of st c) tid in
  let '(iterator, ic) := cache_add ic (tid, id) in
  Ok (iterator, with_cache st c ic).

(** What the two [remove] operations do once the row is paid back. *)
Definition erase_row (env : apply_env) (st : table_state) (c : container) (iterator : Z)
    (k : row_key) (tk : table_key) : result table_state :=
  ts ← db_modify (tables st) tk (add_to_count (-1));
  let st := with_rows (with_tables st ts) (db_remove (rows st) (c, k)) in
  table_obj ← db_get (tables st) tk;
  st ← (if count table_obj =? 0 then remove_table env st tk table_obj else Ok st);
  ic ← cache_remove (cache_of st c) iterator;
  Ok (with_cache st c ic).

(** An iterator to a row, or the end iterator of the table when there is no row or it
    belongs to another table. *)
Definition iterator_to_row (st : table_state) (c : container) (ic : iterator_cache) (tid ei : Z)
    (found : option row_key) : Z * option Z * table_state :=
  match found with
  | Some k =>
      if k.1 =? tid
      then let '(i, ic) := cache_add ic k in (i, Some k.2, with_cache st c ic)
      else (ei, None, with_cache st c ic)
  | None => (ei, None, with_cache st c ic)
  end.

(** The searches share their beginning: [-1] when there is no table, else the
    table enters the cache. *)
Definition search (st : table_state) (c : container) (code scope table : Z)
    (find : Z → option row_key) : Z * option Z * table_state :=
  match find_table st code scope table with
  | None => (-1, None, st)
  | Some tab =>
      let '(ei, ic) := cache_table (cache_of st c) (t_id tab) in
      iterator_to_row st c ic (t_id tab) ei (find (t_id tab))
  end.

Definition end_iterator (st : table_state) (c : container) (code scope table : Z) :
    Z * table_state :=
  match find_table st code scope table with
  | None => (-1, st)
  | Some tab =>
      let '(ei, ic) := cache_table (cache_of st c) (t_id tab) in (ei, with_cache st c ic)
  end.

(** [++itr] from the row of an iterator. *)
Definition next (st : table_state) (o : index_order) (c : container) (iterator : Z) :
    result (Z * option Z * table_state) :=
  if iterator <? -1 then Ok (-1, None, st) else
  '(k, r) ← get_object st c iterator;
  let here := sort_key o c k r in
  let ic := cache_of st c in
  match first_from st o c (λ p, negb (pos_lt here p)) with
  | Some k' =>
      if k'.1 =? k.1
      then let '(i, ic) := cache_add ic k' in Ok (i, Some k'.2, with_cache st c ic)
      else ei ← get_end_iterator_by_table_id ic k.1; Ok (ei, None, st)
  | None => ei ← get_end_iterator_by_table_id ic k.1; Ok (ei, None, st)
  end.

(** [--itr], also from an end iterator, whose table pointer is dereferenced. *)
Definition previous (st : table_state) (o : index_order) (c : container) (iterator : Z) :
    result (Z * option Z * table_state) :=
  let ic := cache_of st c in
  let back (tid : Z) (before : position → bool) :=
    match last_before st o c before with
    | Some k =>
        if k.1 =? tid
        then let '(i, ic) := cache_add ic k in (i, Some k.2, with_cache st c ic)
        else (-1, None, st)
    | None => (-1, None, st)
    end in
  if iterator <? -1 then
    tab ← find_table_by_end_iterator ic iterator;
    tid ← of_option invalid_table_iterator tab;
    '(_, tab) ← of_option undefined_behaviour (table_by_id st tid);
    Ok (back (t_id tab) (λ p, p.1.1 <=? t_id tab))
  else
    '(k, r) ← get_object st c iterator;
    Ok (back k.1 (λ p, pos_lt p (sort_key o c k r))).

(** ** The primary tables *)
Definition db_store_i64 (env : apply_env) (st : table_state) (code scope table payer id : Z)
    (buffer : list Z) : result (Z * table_state) :=
  '(tid, st) ← find_or_create_table env st code scope table payer;
  _ ← EOS_ASSERT (negb (payer =? 0)) invalid_table_payer;
  create_row env st key_value (code, scope, table) tid id payer buffer
    (s64 (Z.of_nat (length buffer) + billable_key_value)).

Definition db_update_i64 (env : apply_env) (st : table_state) (iterator payer_arg : Z)
    (buffer : list Z) : result table_state :=
  '(k, obj) ← get_object st key_value iterator;
  '(tk, _) ← get_table st (cache_of st key_value) k.1;
  _ ← EOS_ASSERT (tk.1.1 =? receiver env) table_access_violation;
  let old_size := s64 (Z.of_nat (length (payload obj)) + billable_key_value) in
  let new_size := s64 (Z.of_nat (length buffer) + billable_key_value) in
  let new_payer := if payer_arg =? 0 then payer obj else payer_arg in
  st ← (if negb (payer obj =? new_payer) then
          st ← update_db_usage env st (payer obj) (- old_size);
          update_db_usage env st new_payer new_size
        else if negb (old_size =? new_size) then
          update_db_usage env st (payer obj) (new_size - old_size)
        else Ok st);
  rs ← db_modify (rows st) (key_value, k) (λ _, Ok (mk_row new_payer buffer));
  Ok (with_rows st rs).

Definition db_remove_i64 (env : apply_env) (st : table_state) (iterator : Z) : result table_state :=
  '(k, obj) ← get_object st key_value iterator;
  '(tk, _) ← get_table st (cache_of st key_value) k.1;
  _ ← EOS_ASSERT (tk.1.1 =? receiver env) table_access_violation;
  st ← update_db_usage env st (payer obj)
         (s64 (- (Z.of_nat (length (payload obj)) + billable_key_value)));
  erase_row env st key_value iterator k tk.

(** The number of bytes returned, and the bytes copied into the buffer. *)
Definition db_get_i64 (st : table_state) (iterator buffer_size : Z) : result (Z * list Z) :=
  '(_, obj) ← get_object st key_value iterator;
  let s := Z.of_nat (length (payload obj)) in
  if buffer_size =? 0 then Ok (s, [])
  else let copy_size := Z.min buffer_size s in
       Ok (copy_size, take (Z.to_nat copy_size) (payload obj)).

Definition db_next_i64 (st : table_state) (iterator : Z) := next st by_primary key_value iterator.
Definition db_previous_i64 (st : table_state) (iterator : Z) :=
  previous st by_primary key_value iterator.

Definition db_find_i64 (st : table_state) (code scope table id : Z) : Z * option Z * table_state :=
  search st key_value code scope table (λ tid,
    match db_find (rows st) (key_value, (tid, id)) with Some _ => Some (tid, id) | None => None end).

Definition db_lowerbound_i64 (st : table_state) (code scope table id : Z) :=
  search st key_value code scope table (λ tid,
    first_from st by_primary key_value (λ p, pos_lt p (tid, 0, id))).
Definition db_upperbound_i64 (st : table_state) (code scope table id : Z) :=
  search st key_value code scope table (λ tid,
    first_from st by_primary key_value (λ p, negb (pos_lt (tid, 0, id) p))).
Definition db_end_i64 (st : table_state) (code scope table : Z) :=
  end_iterator st key_value code scope table.

(** ** The secondary indices ([generic_index]) *)
Definition store (env : apply_env) (st : table_state) (i : index_kind) (scope table payer id : Z)
    (value : list Z) : result (Z * table_state) :=
  _ ← EOS_ASSERT (negb (payer =? 0)) invalid_table_payer;
  '(tid, st) ← find_or_create_table env st (receiver env) scope table payer;
  create_row env st (secondary i) (receiver env, scope, table) tid id payer value (billable_index i).

Definition remove (env : apply_env) (st : table_state) (i : index_kind) (iterator : Z) :
    result table_state :=
  '(k, obj) ← get_object st (secondary i) iterator;
  st ← update_db_usage env st (payer obj) (- billable_index i);
  '(tk, _) ← get_table st (cache_of st (secondary i)) k.1;
  _ ← EOS_ASSERT (tk.1.1 =? receiver env) table_access_violation;
  erase_row env st (secondary i) iterator k tk.

Definition update (env : apply_env) (st : table_state) (i : index_kind) (iterator payer_arg : Z)
    (value : list Z) : result table_state :=
  '(k, obj) ← get_object st (secondary i) iterator;
  '(tk, _) ← get_table st (cache_of st (secondary i)) k.1;
  _ ← EOS_ASSERT (tk.1.1 =? receiver env) table_access_violation;
  let new_payer := if payer_arg =? 0 then payer obj else payer_arg in
  st ← (if negb (payer obj =? new_payer) then
          st ← update_db_usage env st (payer obj) (- billable_index i);
          update_db_usage env st new_payer (billable_index i)
        else Ok st);
  rs ← db_modify (rows st) (secondary i, k) (λ _, Ok (mk_row new_payer value));
  Ok (with_rows st rs).

(** The secondary key a search by primary key, or [get], copies out. *)
Definition secondary_of (st : table_state) (i : index_kind) (k : row_key) : list Z :=
  from_option payload [] (rows st !! (secondary i, k)).

(** [find] in the index [by_secondary] gives the first entry with the key. *)
Definition find_secondary (st : table_state) (i : index_kind) (code scope table : Z)
    (value : list Z) : Z * option Z * table_state :=
  search st (secondary i) code scope table (λ tid,
    k ← first_from st by_secondary (secondary i)
          (λ p, pos_lt (p.1, 0) (tid, rank i value, 0));
    if (k.1 =? tid) && (rank i (secondary_of st i k) =? rank i value) then Some k else None).

Definition lowerbound_secondary (st : table_state) (i : index_kind) (code scope table : Z)
    (value : list Z) : Z * option Z * table_state :=
  search st (secondary i) code scope table (λ tid,
    first_from st by_secondary (secondary i) (λ p, pos_lt (p.1, 0) (tid, rank i value, 0))).

Definition upperbound_secondary (st : table_state) (i : index_kind) (code scope table : Z)
    (value : list Z) : Z * option Z * table_state :=
  search st (secondary i) code scope table (λ tid,
    first_from st by_secondary (secondary i)
      (λ p, negb (pos_lt (tid, rank i value, 0) (p.1, 0)))).

Definition end_secondary (st : table_state) (i : index_kind) (code scope table : Z) :=
  end_iterator st (secondary i) code scope table.
Definition next_secondary (st : table_state) (i : index_kind) (iterator : Z) :=
  next st by_secondary (secondary i) iterator.
Definition previous_secondary (st : table_state) (i : index_kind) (iterator : Z) :=
  previous st by_secondary (secondary i) iterator.

Definition find_primary (st : table_state) (i : index_kind) (code scope table primary : Z) :
    Z * option Z * table_state :=
  search st (secondary i) code scope table (λ tid,
    match db_find (rows st) (secondary i, (tid, primary)) with
    | Some _ => Some (tid, primary) | None => None end).
Definition lowerbound_primary (st : table_state) (i : index_kind) (code scope table primary : Z) :=
  search st (secondary i) code scope table (λ tid,
    first_from st by_primary (secondary i) (λ p, pos_lt p (tid, 0, primary))).
Definition upperbound_primary (st : table_state) (i : index_kind) (code scope table primary : Z) :=
  search st (secondary i) code scope table (λ tid,
    first_from st by_primary (secondary i) (λ p, negb (pos_lt (tid, 0, primary) p))).
Definition next_primary (st : table_state) (i : index_kind) (iterator : Z) :=
  next st by_primary (secondary i) iterator.
Definition previous_primary (st : table_state) (i : index_kind) (iterator : Z) :=
  previous st by_primary (secondary i) iterator.

(** The primary and the secondary key of a row. *)
Definition get (st : table_state) (i : index_kind) (iterator : Z) : result (Z * list Z) :=
  '(k, obj) ← get_object st (secondary i) iterator; Ok (k.2, payload obj).
End tables.
