(* ===== verification/TableTheory.v ===== *)
(** * Correctness of the contract tables

    An invariant of the states that sequences of table operations reach: a
    row's table exists, the table's count is the number of its rows, and an
    iterator that a cache holds denotes a row that exists.  RAM accounting is
    exact, scans by primary key visit every row in order, and the only
    iterators that dangle are the end iterators of tables that were removed. *)

From S2P Require Import Prelude Chainbase Names Assets Config ConfigOnChain Accumulator.
From S2P Require Import ResourceLimits Authority ContractTables.
Local Open Scope Z_scope.

Section theory.
Context {db : Chainbase} {laws : ChainbaseLaws db}.
Context (f64_rank f128_rank : Z → Z).
Implicit Types (st : table_state) (c : container) (env : apply_env).

(** ** What is billed *)
Definition row_size (c : container) (r : row) : Z :=
  match c with
  | key_value => Z.of_nat (length (payload r)) + billable_key_value
  | secondary i => billable_index i
  end.

Definition table_bill (a : Z) (_ : table_key) (t : table_id_object) : Z :=
  if decide (t_payer t = a) then billable_table else 0.
Definition row_bill (a : Z) (ck : container * row_key) (r : row) : Z :=
  if decide (payer r = a) then row_size ck.1 r else 0.

(** The RAM that the tables and rows paid by an account take. *)
Definition billed (st : table_state) (a : Z) : Z :=
  sum_map (table_bill a) (tables st) + sum_map (row_bill a) (rows st).

(** The RAM usage on record for an account, and what of it is not for tables. *)
Definition usage (st : table_state) (a : Z) : Z :=
  from_option ram_usage 0 (usages (resources st) !! a).
Definition balance (st : table_state) (a : Z) : Z := usage st a - billed st a.

Definition usage_ok (st : table_state) : Prop :=
  ∀ a u, usages (resources st) !! a = Some u → in_u 64 (ram_usage u).

(** ** The invariant *)
Definition rows_of (st : table_state) (tid : Z) : Z :=
  sum_map (λ (ck : container * row_key) _, if decide (ck.2.1 = tid) then 1 else 0) (rows st).

Record cache_inv (st : table_state) (c : container) (ic : iterator_cache) : Prop := {
  ci_obj : ∀ k i, _object_to_iterator ic !! k = Some i ↔
    0 ≤ i ∧ _iterator_to_object ic !! Z.to_nat i = Some (Some k);
  ci_live : ∀ k i, _object_to_iterator ic !! k = Some i →
    is_Some (rows st !! (c, k)) ∧ is_Some (_table_cache ic !! k.1);
  ci_tab : ∀ tid ei, _table_cache ic !! tid = Some ei ↔
    ei ≤ -2 ∧ _end_iterator_to_table ic !! Z.to_nat (end_iterator_to_index ei) = Some tid }.

Record tables_core (st : table_state) : Prop := {
  ti_id : ∀ k t, tables st !! k = Some t → t_id t < next_table_id st;
  ti_inj : ∀ k1 t1 k2 t2, tables st !! k1 = Some t1 → tables st !! k2 = Some t2 →
    t_id t1 = t_id t2 → k1 = k2;
  ti_rows : ∀ c k r, rows st !! (c, k) = Some r →
    ∃ tk t, tables st !! tk = Some t ∧ t_id t = k.1;
  ti_count : ∀ tk t, tables st !! tk = Some t → count t = rows_of st (t_id t);
  ti_len : ∀ k r, rows st !! (key_value, k) = Some r → Z.of_nat (length (payload r)) < 2 ^ 32;
  ti_usage : usage_ok st }.

Record tables_base (st : table_state) : Prop := {
  ti_core :> tables_core st;
  ti_cache : ∀ c, cache_inv st c (cache_of st c) }.

(** ** RAM usage *)
Lemma add_pending_ram_usage_Ok d a delta d' :
  (∀ u, usages d !! a = Some u → in_u 64 (ram_usage u)) → in_s64 delta →
  add_pending_ram_usage d a delta = Ok d' →
  (delta = 0 ∧ d' = d) ∨
  ∃ u, usages d !! a = Some u ∧ in_u 64 (ram_usage u + delta) ∧
    d' = with_usages d (<[a := {| net_usage := net_usage u; cpu_usage := cpu_usage u;
                                  ram_usage := ram_usage u + delta |}]> (usages d)).
Proof.
  intros Hu Hd H. unfold add_pending_ram_usage in H.
  destruct (Z.eqb_spec delta 0) as [->|Hne]; [left; by simplify_eq|right].
  apply bind_Ok in H as (u & Hg & H). apply db_get_Ok in Hg. pose proof (Hu u Hg) as Hr.
  apply bind_Ok in H as (? & H1%EOS_ASSERT_Ok & H).
  destruct (Z.eqb_spec delta (- 2 ^ 63)); [done|].
  apply bind_Ok in H as (? & H2%EOS_ASSERT_Ok & H).
  apply bind_Ok in H as (m & Hm & [= <-]). apply db_modify_Ok in Hm as (v & v' & Hv & [= <-] & ->).
  simplify_eq. exists u. unfold in_u, in_s64, u64_max in *.
  assert (0 ≤ ram_usage u + delta < 2 ^ 64) as Hrange.
  { destruct (Z.leb_spec delta 0), (Z.leb_spec 0 delta); try lia; simpl in *;
      [rewrite (wrap_small 64) in H2 by (unfold in_u; lia)
      |rewrite (wrap_small 64) in H1 by (unfold in_u; lia)]; lia. }
  split_and!; [done|lia|lia|]. by rewrite (wrap_small 64) by done.
Qed.

(** Two states that differ at most in the resource usage. *)
Definition same_tables (st st' : table_state) : Prop :=
  tables st' = tables st ∧ next_table_id st' = next_table_id st ∧ rows st' = rows st ∧
  caches st' = caches st.

Lemma pending_usage_Ok st p delta st' : usage_ok st → in_s64 delta →
  add_pending_ram_usage (resources st) p delta = Ok (resources st') →
  usage_ok st' ∧ ∀ a, usage st' a = usage st a + (if decide (p = a) then delta else 0).
Proof.
  intros Hu Hd H. unfold usage_ok, usage.
  apply add_pending_ram_usage_Ok in H as [[-> ->]|(u & Hg & Hr & ->)]; [| |by apply Hu|done].
  { split; [done|]. intros a. destruct (decide _); lia. }
  cbn [usages with_usages]. split.
  - intros a v [[<- <-]|[_ Hv]]%lookup_insert_Some; [done|by eapply Hu].
  - intros a. destruct (decide (p = a)) as [<-|].
    + by rewrite lookup_insert_eq, Hg.
    + rewrite lookup_insert_ne by done. lia.
Qed.

Lemma add_ram_usage_Ok st p delta st' : usage_ok st → in_s64 delta →
  add_ram_usage st p delta = Ok st' →
  same_tables st st' ∧ usage_ok st' ∧
  ∀ a, usage st' a = usage st a + (if decide (p = a) then delta else 0).
Proof.
  intros Hu Hd H. unfold add_ram_usage, trx_add_ram_usage in H.
  apply bind_Ok in H as (st1 & H1 & H).
  apply bind_Ok in H1 as (d & Hd' & [= <-]). apply bind_Ok in H as (dl & _ & [= <-]).
  split; [by repeat split|by apply pending_usage_Ok].
Qed.

Lemma update_db_usage_Ok env st p delta st' : usage_ok st → in_s64 delta →
  update_db_usage env st p delta = Ok st' →
  same_tables st st' ∧ usage_ok st' ∧
  ∀ a, usage st' a = usage st a + (if decide (p = a) then delta else 0).
Proof.
  intros Hu Hd H. unfold update_db_usage in H. apply bind_Ok in H as (? & _ & H).
  by apply add_ram_usage_Ok.
Qed.

Lemma same_tables_billed st st' a : same_tables st st' → billed st' a = billed st a.
Proof. intros (Ht & _ & Hr & _). unfold billed. by rewrite Ht, Hr. Qed.

(** Everything but the usage bounds is about the fields that billing keeps. *)
Lemma tables_core_same st st' : same_tables st st' → usage_ok st' → tables_core st → tables_core st'.
Proof.
  intros (Ht & Hn & Hr & Hc) Hu [Hid Hinj Hrows Hcount Hlen _].
  assert (∀ tid, rows_of st' tid = rows_of st tid) as Hro by (intros; unfold rows_of; by rewrite Hr).
  split; rewrite ?Ht, ?Hn, ?Hr; try done.
  intros tk t Htk. rewrite Hro. by eapply Hcount.
Qed.

Lemma tables_base_same st st' : same_tables st st' → usage_ok st' → tables_base st → tables_base st'.
Proof.
  intros Hs Hu [Hcore Hcache]. split; [by eapply tables_core_same|].
  destruct Hs as (_ & _ & Hr & Hc). intros c. unfold cache_of. rewrite Hc.
  destruct (Hcache c) as [H1 H2 H3]. split; rewrite ?Hr; done.
Qed.

(** ** Iterator caches *)
Lemma cache_of_with st c ic c' :
  cache_of (with_cache st c ic) c' = if decide (c = c') then ic else cache_of st c'.
Proof.
  unfold cache_of, with_cache; cbn [caches]. destruct (decide (c = c')) as [<-|].
  - by rewrite lookup_insert_eq.
  - by rewrite lookup_insert_ne.
Qed.

Lemma with_cache_inv st c ic : tables_base st → cache_inv st c ic → tables_base (with_cache st c ic).
Proof.
  intros [[? ? ? ? ? ?] Hcache] Hic. split; [by split|]. intros c'.
  rewrite cache_of_with. destruct (decide (c = c')) as [<-|].
  - destruct Hic. by split.
  - destruct (Hcache c'). by split.
Qed.

(** End iterators are numbered by the position of their table. *)
Lemma end_iterator_index n :
  index_to_end_iterator (Z.of_nat n) ≤ -2 ∧
  Z.to_nat (end_iterator_to_index (index_to_end_iterator (Z.of_nat n))) = n.
Proof. unfold index_to_end_iterator, end_iterator_to_index. lia. Qed.

Lemma cache_table_inv st c ic tid ei ic' : cache_inv st c ic → cache_table ic tid = (ei, ic') →
  cache_inv st c ic' ∧ _table_cache ic' !! tid = Some ei ∧
  _object_to_iterator ic' = _object_to_iterator ic ∧
  _iterator_to_object ic' = _iterator_to_object ic.
Proof.
  intros [Hobj Hlive Htab] H. unfold cache_table in H.
  destruct (_table_cache ic !! tid) as [e|] eqn:E; simplify_eq; [done|].
  split; [|by cbn; rewrite lookup_insert_eq]. split; cbn.
  - done.
  - intros k i Hk. destruct (Hlive k i Hk) as [? [e ?]]. split; [done|].
    destruct (decide (tid = k.1)) as [->|]; [rewrite lookup_insert_eq|rewrite lookup_insert_ne];
      eauto.
  - destruct (end_iterator_index (length (_end_iterator_to_table ic))) as [He1 He2].
    intros t e. rewrite lookup_insert_Some, lookup_app_Some, Htab. split.
    + intros [[-> <-]|[Hne [He Hl]]]; [|by auto]. split; [done|]. right. rewrite He2.
      split; [lia|]. by rewrite Nat.sub_diag.
    + intros [He [Hl|[Hge Hl]]].
      * right. split; [|done]. intros ->. rewrite (proj2 (Htab t e)) in E by done. done.
      * left. rewrite list_lookup_singleton_Some in Hl. destruct Hl as [Hz ->]. split; [done|].
        unfold index_to_end_iterator, end_iterator_to_index in *. lia.
Qed.

Lemma cache_add_inv st c ic k i ic' : cache_inv st c ic →
  is_Some (rows st !! (c, k)) → is_Some (_table_cache ic !! k.1) →
  cache_add ic k = (i, ic') →
  cache_inv st c ic' ∧ _object_to_iterator ic' !! k = Some i ∧ _table_cache ic' = _table_cache ic.
Proof.
  intros [Hobj Hlive Htab] Hr Ht H. unfold cache_add in H.
  destruct (_object_to_iterator ic !! k) as [j|] eqn:E; simplify_eq; [done|].
  split; [|by cbn; rewrite lookup_insert_eq]. split; cbn; [| |done].
  - intros k' j. rewrite lookup_insert_Some, lookup_app_Some, Hobj. split.
    + intros [[<- <-]|[Hne [Hj Hl]]]; [|by auto]. split; [lia|]. right. rewrite Nat2Z.id.
      split; [lia|]. by rewrite Nat.sub_diag.
    + intros [Hj [Hl|[Hge Hl]]].
      * right. split; [|done]. intros ->. rewrite (proj2 (Hobj k' j)) in E by done. done.
      * left. rewrite list_lookup_singleton_Some in Hl. destruct Hl as [Hz [= ->]]. split; [done|lia].
  - intros k' j [[<- <-]|[_ Hl]]%lookup_insert_Some; [done|by eapply Hlive].
Qed.

Lemma cache_get_Ok st c ic i k : cache_inv st c ic →
  cache_get ic i = Ok k ↔ _object_to_iterator ic !! k = Some i.
Proof.
  intros [Hobj _ _]. rewrite Hobj. unfold cache_get. split.
  - intros H. apply bind_Ok in H as (? & _ & H). apply bind_Ok in H as (? & H1%EOS_ASSERT_Ok & H).
    apply bind_Ok in H as (o & H2%of_option_Ok & ->%of_option_Ok). split; [lia|done].
  - intros [Hi Hl]. rewrite (proj2 (Z.eqb_neq _ _)), (proj2 (Z.leb_le _ _)), Hl by lia. done.
Qed.

Lemma cache_remove_inv st c ic i k ic' : cache_inv st c ic →
  _object_to_iterator ic !! k = Some i → cache_remove ic i = Ok ic' →
  (∀ k' i', _object_to_iterator ic' !! k' = Some i' ↔
     0 ≤ i' ∧ _iterator_to_object ic' !! Z.to_nat i' = Some (Some k')) ∧
  _object_to_iterator ic' = delete k (_object_to_iterator ic) ∧
  _table_cache ic' = _table_cache ic ∧ _end_iterator_to_table ic' = _end_iterator_to_table ic.
Proof.
  intros [Hobj _ _] Hk H. pose proof Hk as [Hi Hl]%Hobj. unfold cache_remove in H.
  apply bind_Ok in H as (? & _ & H). apply bind_Ok in H as (? & _ & H).
  apply bind_Ok in H as (o & Ho%of_option_Ok & H). rewrite Hl in Ho. injection Ho as <-.
  injection H as <-. split; [|done]. cbn.
  intros k' i'. rewrite lookup_delete_Some, Hobj. split.
  - intros (Hne & Hi' & Hl'). split; [done|]. rewrite list_lookup_insert_ne; [done|].
    intros Heq. rewrite Heq in Hl. simplify_eq.
  - intros [Hi' Hl']. apply list_lookup_insert_Some in Hl' as [(_ & ? & _)|[Hne Hl']]; [done|].
    split; [|done]. intros <-. apply Hne. rewrite (proj2 (Hobj k i')) in Hk by done.
    by simplify_eq.
Qed.

(** The rows and tables that iterators refer to exist. *)
Lemma get_object_Ok st c i k r : tables_base st →
  get_object st c i = Ok (k, r) ↔
  _object_to_iterator (cache_of st c) !! k = Some i ∧ rows st !! (c, k) = Some r.
Proof.
  intros Hinv. unfold get_object. rewrite bind_Ok. pose proof (ti_cache _ Hinv c) as Hc. split.
  - intros (k' & Hk'%(cache_get_Ok st c) & H); [|done].
    apply bind_Ok in H as (r' & Hr%of_option_Ok & [= <- <-]). done.
  - intros [Hk Hr]. exists k. split; [by apply (cache_get_Ok st c)|]. by rewrite Hr.
Qed.

Lemma table_by_id_Some st tid tk t : tables_base st →
  table_by_id st tid = Some (tk, t) ↔ tables st !! tk = Some t ∧ t_id t = tid.
Proof.
  intros Hinv. unfold table_by_id. split.
  - intros [Hin Hi]%List.find_some. apply list_elem_of_In, elem_of_map_to_list in Hin.
    simpl in Hi. split; [done|lia].
  - intros [Ht Hi]. destruct (List.find _ _) as [[tk' t']|] eqn:E.
    + apply List.find_some in E as [Hin Hi']. apply list_elem_of_In, elem_of_map_to_list in Hin.
      simpl in Hi'. assert (tk' = tk) as -> by (apply (ti_inj _ Hinv _ _ _ _ Hin Ht); lia).
      by simplify_eq.
    + eapply (List.find_none _ _) in E as Hn; [|by eapply list_elem_of_In, elem_of_map_to_list].
      simpl in Hn. lia.
Qed.

Lemma get_table_live st c i k r : tables_base st → get_object st c i = Ok (k, r) →
  ∃ tk t, get_table st (cache_of st c) k.1 = Ok (tk, t) ∧ tables st !! tk = Some t ∧ t_id t = k.1.
Proof.
  intros Hinv [Hk Hr]%get_object_Ok; [|done].
  destruct (ti_rows _ Hinv _ _ _ Hr) as (tk & t & Ht & Hid). exists tk, t. split; [|done].
  destruct (ci_live _ _ _ (ti_cache _ Hinv c) _ _ Hk) as [_ Htc].
  unfold get_table. rewrite bool_decide_eq_true_2 by done. cbn [EOS_ASSERT mbind result_bind].
  by rewrite (proj2 (table_by_id_Some st _ tk t Hinv)).
Qed.

(** ** Searches and moves *)
Abbreviation entries' := (entries f64_rank f128_rank).
Abbreviation first_from' := (first_from f64_rank f128_rank).
Abbreviation last_before' := (last_before f64_rank f128_rank).
Abbreviation sort_key' := (sort_key f64_rank f128_rank).

Lemma elem_of_entries st o c p k :
  (p, k) ∈ entries' st o c ↔ ∃ r, rows st !! (c, k) = Some r ∧ p = sort_key' o c k r.
Proof.
  unfold entries. rewrite merge_sort_Permutation, list_elem_of_omap. split.
  - intros ([[c' k'] r] & Hin%elem_of_map_to_list & H). simpl in H.
    destruct (decide (c' = c)) as [->|]; simplify_eq. eauto.
  - intros (r & Hr & ->). exists (c, k, r). split; [by apply elem_of_map_to_list|].
    simpl. by rewrite decide_True.
Qed.

Lemma first_from_live st o c before k : first_from' st o c before = Some k →
  is_Some (rows st !! (c, k)).
Proof.
  unfold first_from. intros ([p k'] & Hf & ->)%fmap_Some.
  apply List.find_some in Hf as [Hin _]. apply list_elem_of_In, elem_of_entries in Hin.
  destruct Hin as (r & Hr & _). by exists r.
Qed.

Lemma last_before_live st o c before k : last_before' st o c before = Some k →
  is_Some (rows st !! (c, k)).
Proof.
  unfold last_before. intros ([p k'] & Hl & ->)%fmap_Some.
  apply last_Some_elem_of, list_elem_of_filter in Hl as [_ Hin%elem_of_entries].
  destruct Hin as (r & Hr & _). by exists r.
Qed.

(** States that differ at most in the iterator caches. *)
Definition same_content (st st' : table_state) : Prop :=
  tables st' = tables st ∧ next_table_id st' = next_table_id st ∧ rows st' = rows st ∧
  resources st' = resources st.

Lemma same_content_refl st : same_content st st.
Proof. by repeat split. Qed.

Lemma same_content_balance st st' a : same_content st st' → balance st' a = balance st a.
Proof. intros (Ht & _ & Hr & Hs). unfold balance, usage, billed. by rewrite Ht, Hr, Hs. Qed.

(** Adding a live row of a cached table to a cache. *)
Lemma add_row_inv st c ic k i ic' : tables_base st → cache_inv st c ic →
  is_Some (rows st !! (c, k)) → is_Some (_table_cache ic !! k.1) → cache_add ic k = (i, ic') →
  tables_base (with_cache st c ic').
Proof.
  intros Hinv Hic Hr Ht Ha. apply with_cache_inv; [done|]. by eapply cache_add_inv.
Qed.

Lemma search_inv st c code scope table find i p st' : tables_base st →
  (∀ tid k, find tid = Some k → is_Some (rows st !! (c, k))) →
  search st c code scope table find = (i, p, st') → tables_base st' ∧ same_content st st'.
Proof.
  intros Hinv Hfind H. unfold search in H.
  destruct (find_table st code scope table) as [tab|]; [|simplify_eq; by split].
  destruct (cache_table _ _) as [ei ic] eqn:Hct.
  destruct (cache_table_inv st c _ _ _ _ (ti_cache _ Hinv c) Hct) as (Hic & Htc & _).
  assert (tables_base (with_cache st c ic)) as Hw by (by apply with_cache_inv).
  unfold iterator_to_row in H. destruct (find (t_id tab)) as [k|] eqn:Hf; [|simplify_eq; by split].
  destruct (Z.eqb_spec k.1 (t_id tab)) as [Hk|]; [|simplify_eq; by split].
  destruct (cache_add ic k) as [j ic'] eqn:Ha. simplify_eq. split; [|done].
  eapply add_row_inv; [done|done|by eapply Hfind|rewrite Hk; eauto|done].
Qed.

Lemma end_iterator_inv st c code scope table i st' : tables_base st →
  end_iterator st c code scope table = (i, st') → tables_base st' ∧ same_content st st'.
Proof.
  intros Hinv H. unfold end_iterator in H.
  destruct (find_table st code scope table) as [tab|]; [|simplify_eq; by split].
  destruct (cache_table _ _) as [ei ic] eqn:Hct.
  destruct (cache_table_inv st c _ _ _ _ (ti_cache _ Hinv c) Hct) as (Hic & _).
  simplify_eq. split; [by apply with_cache_inv|done].
Qed.

Lemma next_inv st o c i r st' : tables_base st →
  next f64_rank f128_rank st o c i = Ok (r, st') → tables_base st' ∧ same_content st st'.
Proof.
  intros Hinv H. unfold next in H. destruct (i <? -1); [simplify_eq; by split|].
  apply bind_Ok in H as ([k v] & [Hk Hv]%get_object_Ok & H); [|done].
  destruct (first_from' _ _ _ _) as [k'|] eqn:Hf.
  - destruct (Z.eqb_spec k'.1 k.1) as [Heq|];
      [|apply bind_Ok in H as (? & _ & H); simplify_eq; by split].
    destruct (cache_add _ k') as [j ic'] eqn:Ha. simplify_eq. split; [|done].
    eapply add_row_inv; [done|by apply (ti_cache _ Hinv)|by eapply first_from_live| |done].
    rewrite Heq. by eapply (ci_live _ _ _ (ti_cache _ Hinv c)).
  - apply bind_Ok in H as (? & _ & H). simplify_eq. by split.
Qed.

Lemma previous_inv st o c i r st' : tables_base st →
  previous f64_rank f128_rank st o c i = Ok (r, st') → tables_base st' ∧ same_content st st'.
Proof.
  intros Hinv H. unfold previous in H.
  assert (∀ tid before, is_Some (_table_cache (cache_of st c) !! tid) →
    (match last_before' st o c before with
     | Some k => if k.1 =? tid
         then let '(i, ic) := cache_add (cache_of st c) k in (i, Some k.2, with_cache st c ic)
         else (-1, None, st)
     | None => (-1, None, st) end) = (r, st') →
    tables_base st' ∧ same_content st st') as Hback.
  { intros tid before Htc. destruct (last_before' _ _ _ _) as [k|] eqn:Hl; [|intros; simplify_eq; by split].
    destruct (Z.eqb_spec k.1 tid) as [Heq|]; [|intros; simplify_eq; by split].
    destruct (cache_add _ k) as [j ic'] eqn:Ha. intros. simplify_eq. split; [|done].
    eapply add_row_inv; [done|by apply (ti_cache _ Hinv)|by eapply last_before_live|done..]. }
  destruct (Z.ltb_spec i (-1)).
  - apply bind_Ok in H as (tab & Ht & H). apply bind_Ok in H as (tid & ->%of_option_Ok & H).
    apply bind_Ok in Ht as (? & _ & Ht). injection Ht as Ht.
    apply bind_Ok in H as ([tk t] & Htab%of_option_Ok & H).
    apply table_by_id_Some in Htab as [_ Hid]; [|done]. injection H as H.
    eapply Hback; [|exact H]. rewrite Hid. exists i. apply (ci_tab _ _ _ (ti_cache _ Hinv c)).
    split; [lia|done].
  - apply bind_Ok in H as ([k v] & [Hk Hv]%get_object_Ok & H); [|done]. injection H as H.
    eapply Hback; [|exact H]. by eapply (ci_live _ _ _ (ti_cache _ Hinv c)).
Qed.

(** ** Rows that come and go *)
Lemma rows_of_le st tid : 0 ≤ rows_of st tid ≤ Z.of_nat (size (rows st)).
Proof.
  unfold rows_of. generalize (rows st). clear st. intros m.
  induction m as [|ck r m Hck IH] using map_ind; [by rewrite sum_map_empty, map_size_empty|].
  rewrite sum_map_insert, map_size_insert_None by done. destruct (decide _); lia.
Qed.

(** Setting the count of a table keeps what it is billed for. *)
Lemma billed_count st tk t n a : tables st !! tk = Some t →
  billed (with_tables st (<[tk := mk_table (t_id t) (t_payer t) n]> (tables st))) a = billed st a.
Proof.
  intros Ht. unfold billed. cbn [tables rows with_tables].
  rewrite (sum_map_update _ _ _ _ _ Ht). unfold table_bill. cbn [t_payer]. lia.
Qed.

Lemma billed_insert st c k r a : rows st !! (c, k) = None →
  billed (with_rows st (<[(c, k) := r]> (rows st))) a =
    billed st a + (if decide (payer r = a) then row_size c r else 0).
Proof.
  intros Hn. unfold billed. cbn [tables rows with_rows]. rewrite sum_map_insert by done.
  unfold row_bill at 1. cbn [fst]. lia.
Qed.

Lemma billed_delete st c k r a : rows st !! (c, k) = Some r →
  billed (with_rows st (delete (c, k) (rows st))) a =
    billed st a - (if decide (payer r = a) then row_size c r else 0).
Proof.
  intros Hr. unfold billed. cbn [tables rows with_rows]. rewrite (sum_map_delete _ _ _ _ Hr).
  unfold row_bill at 2. cbn [fst]. lia.
Qed.

Lemma billed_replace st c k r r' a : rows st !! (c, k) = Some r →
  billed (with_rows st (<[(c, k) := r']> (rows st))) a =
    billed st a - (if decide (payer r = a) then row_size c r else 0)
    + (if decide (payer r' = a) then row_size c r' else 0).
Proof.
  intros Hr. unfold billed. cbn [tables rows with_rows]. rewrite (sum_map_update _ _ _ _ _ Hr).
  unfold row_bill at 2 3. cbn [fst]. lia.
Qed.

(** A table with a different count, and rows with one more or one fewer of its rows. *)
Lemma tables_core_change st tk t rs d : tables_core st → tables st !! tk = Some t →
  (∀ tid, rows_of (with_rows st rs) tid = rows_of st tid + (if decide (t_id t = tid) then d else 0)) →
  (∀ c k r, rs !! (c, k) = Some r → k.1 = t_id t ∨ rows st !! (c, k) = Some r) →
  (∀ k r, rs !! (key_value, k) = Some r → Z.of_nat (length (payload r)) < 2 ^ 32) →
  count t + d = u32 (count t + d) →
  tables_core (with_tables (with_rows st rs)
    (<[tk := mk_table (t_id t) (t_payer t) (u32 (count t + d))]> (tables st))).
Proof.
  intros [Hid Hinj Hrows Hcount Hlen Hu] Ht Hro Hrs Hl Hw.
  assert (∀ k' t', <[tk := mk_table (t_id t) (t_payer t) (u32 (count t + d))]> (tables st) !! k' = Some t' →
    ∃ t0, tables st !! k' = Some t0 ∧ t_id t' = t_id t0 ∧
      (k' = tk ∧ count t' = count t + d ∨ k' ≠ tk ∧ t' = t0)) as Hlook.
  { intros k' t' [[<- <-]|[Hne Ht']]%lookup_insert_Some; [exists t; auto|exists t'; auto]. }
  split; cbn [tables next_table_id rows with_tables with_rows].
  - intros k' t' (t0 & H0 & -> & _)%Hlook. by eapply Hid.
  - intros k1 t1 k2 t2 (u1 & H1 & -> & _)%Hlook (u2 & H2 & -> & _)%Hlook. by eapply Hinj.
  - intros c k r Hr. destruct (Hrs _ _ _ Hr) as [Hk|Hr'].
    + exists tk. rewrite lookup_insert_eq. eauto.
    + destruct (Hrows _ _ _ Hr') as (tk' & t' & Ht' & Hid').
      destruct (decide (tk' = tk)) as [->|].
      * exists tk. rewrite lookup_insert_eq. eexists. split; [done|]. simplify_eq. done.
      * exists tk', t'. by rewrite lookup_insert_ne.
  - intros k' t' (t0 & H0 & Hti & Hcase)%Hlook. change (rows_of _ _) with (rows_of (with_rows st rs) (t_id t')).
    rewrite Hro, Hti, <- (Hcount _ _ H0). destruct Hcase as [[-> Hc']|[Hne ->]].
    + simplify_eq. by rewrite decide_True.
    + rewrite decide_False; [lia|]. intros Heq. apply Hne. symmetry. by eapply Hinj.
  - done.
  - done.
Qed.

(** A cache stays sound when rows are added. *)
Lemma cache_inv_more st st' c ic : cache_inv st c ic →
  (∀ k, is_Some (rows st !! (c, k)) → is_Some (rows st' !! (c, k))) → cache_inv st' c ic.
Proof.
  intros [Hobj Hlive Htab] Hr. split; [done| |done].
  intros k i Hk. destruct (Hlive k i Hk). auto.
Qed.

(** The rows an open call has: no table is empty but one that [store] just made. *)
Definition non_empty (st : table_state) (except : table_key → Prop) : Prop :=
  ∀ tk t, tables st !! tk = Some t → except tk ∨ 0 < count t.

(** The sizes that are billed: constants, and the length of a value. *)
Lemma row_size_range c r : Z.of_nat (length (payload r)) < 2 ^ 32 → in_s64 (row_size c r).
Proof.
  intros Hl. unfold row_size, in_s64. destruct c as [|i].
  - change billable_key_value with 112. lia.
  - assert (0 ≤ billable_index i ≤ 160) by (destruct i; by vm_compute). lia.
Qed.

(** A new table, with the next id and no rows. *)
Definition add_table (st : table_state) (k : table_key) (p : Z) : table_state :=
  mk_state (<[k := mk_table (next_table_id st) p 0]> (tables st)) (next_table_id st + 1) (rows st)
    (resources st) (validate_ram_usage st) (account_ram_deltas st) (caches st).

Lemma add_table_base st k0 p : tables_base st → tables st !! k0 = None → tables_base (add_table st k0 p).
Proof.
  intros [[Hid Hinj Hrows Hcount Hlen Hu] Hcache] Hn. split.
  - split; cbn [add_table tables next_table_id rows].
    + intros k t [[<- <-]|[_ Hk]]%lookup_insert_Some; cbn [t_id]; [lia|]. specialize (Hid _ _ Hk). lia.
    + intros k1 t1 k2 t2 [[<- <-]|[_ H1]]%lookup_insert_Some [[<- <-]|[_ H2]]%lookup_insert_Some;
        cbn [t_id]; [done|..].
      * intros E. specialize (Hid _ _ H2). lia.
      * intros E. specialize (Hid _ _ H1). lia.
      * by apply Hinj.
    + intros c k r Hr. destruct (Hrows _ _ _ Hr) as (tk & t & Hk & Hti). exists tk, t. split; [|done].
      rewrite lookup_insert_ne; [done|]. intros <-. congruence.
    + intros tk t [[<- <-]|[_ Hk]]%lookup_insert_Some; cbn [count t_id]; [|exact (Hcount tk t Hk)].
      symmetry. change (rows_of _ _) with (rows_of st (next_table_id st)).
      unfold rows_of. erewrite sum_map_ext; [apply sum_map_zero|]. intros [c k] r Hr. cbn.
      rewrite decide_False; [done|]. intros E. destruct (Hrows _ _ _ Hr) as (tk & t & Hk & Hti).
      specialize (Hid _ _ Hk). lia.
    + done.
    + done.
  - intros c. destruct (Hcache c). by split.
Qed.

Lemma find_or_create_table_Ok env st code scope table p tid st' : tables_base st →
  find_or_create_table env st code scope table p = Ok (tid, st') →
  tables_base st' ∧ (∀ a, balance st' a = balance st a) ∧ rows st' = rows st ∧
  (non_empty st (λ _, False) → non_empty st' (λ tk, tk = (code, scope, table))) ∧
  ∃ t, tables st' !! (code, scope, table) = Some t ∧ t_id t = tid.
Proof.
  intros Hinv H. unfold find_or_create_table in H. rewrite db_find_spec in H.
  destruct (tables st !! (code, scope, table)) as [t|] eqn:Ht.
  { simplify_eq. split_and!; [done..| |eauto]. intros Hne tk t' Ht'.
    right. by destruct (Hne tk t' Ht'). }
  apply bind_Ok in H as (st1 & H1 & H). apply bind_Ok in H as (ts & Hts & [= <- <-]).
  apply update_db_usage_Ok in H1 as (Hsame & Hu1 & Husage); [|apply (ti_usage _ Hinv)|by vm_compute].
  apply db_create_Ok in Hts as [Hn ->].
  pose proof (add_table_base st1 (code, scope, table) p (tables_base_same _ _ Hsame Hu1 Hinv) Hn) as Hb.
  destruct Hsame as (Ets & En & Ers & Ecs). split_and!; [done| |done| |].
  - intros a. unfold balance, usage, billed in *. cbn [resources tables rows].
    rewrite sum_map_insert by done. rewrite Ets, Ers. specialize (Husage a).
    unfold table_bill at 1. cbn [t_payer]. lia.
  - intros Hne tk t. cbn [tables]. intros [[<- <-]|[_ Hk]]%lookup_insert_Some; [by left|].
    rewrite Ets in Hk.
    right. by destruct (Hne _ _ Hk).
  - cbn [tables]. rewrite lookup_insert_eq. eauto.
Qed.

(** A new row of a table, counted. *)
Lemma add_row_base st c tk t id p data : tables_base st → tables st !! tk = Some t →
  rows st !! (c, (t_id t, id)) = None → Z.of_nat (size (rows st)) + 1 < 2 ^ 32 →
  Z.of_nat (length data) < 2 ^ 32 →
  tables_base (with_tables (with_rows st (<[(c, (t_id t, id)) := mk_row p data]> (rows st)))
    (<[tk := mk_table (t_id t) (t_payer t) (u32 (count t + 1))]> (tables st))).
Proof.
  intros Hinv Ht Hnew Hsize Hdata.
  pose proof (rows_of_le st (t_id t)) as Hle. rewrite <- (ti_count _ Hinv _ _ Ht) in Hle.
  set (r := mk_row p data). set (rs := <[(c, (t_id t, id)) := r]> (rows st)).
  split; [apply tables_core_change; [exact (ti_core _ Hinv)|done| | | |]|].
  - intros tid. unfold rows_of, rs. cbn [rows with_rows]. rewrite sum_map_insert by done. cbn [fst snd]. lia.
  - intros c' k r' [[[= <- <-] <-]|[_ Hr']]%lookup_insert_Some; auto.
  - intros k r' [[[= -> <-] <-]|[_ Hr']]%lookup_insert_Some; [done|by eapply (ti_len _ Hinv)].
  - symmetry. apply wrap_small. unfold in_u. lia.
  - intros c'. eapply cache_inv_more; [apply (ti_cache _ Hinv)|]. intros k Hk.
    unfold rs. cbn [rows with_rows with_tables].
    destruct (decide ((c, (t_id t, id)) = (c', k))) as [->|];
      [by rewrite lookup_insert_eq|by rewrite lookup_insert_ne].
Qed.

Lemma create_row_Ok env st c tk t id p data i st' : tables_base st →
  tables st !! tk = Some t → Z.of_nat (size (rows st)) + 1 < 2 ^ 32 →
  Z.of_nat (length data) < 2 ^ 32 →
  create_row env st c tk (t_id t) id p data (row_size c (mk_row p data)) = Ok (i, st') →
  tables_base st' ∧ (∀ a, balance st' a = balance st a) ∧
  (non_empty st (λ tk', tk' = tk) → non_empty st' (λ _, False)).
Proof.
  intros Hinv Ht Hsize Hdata H. unfold create_row in H.
  apply bind_Ok in H as (rs & Hrs & H). apply db_create_Ok in Hrs as [Hnew ->].
  apply bind_Ok in H as (ts & Hts & H). apply db_modify_Ok in Hts as (t' & v' & Ht' & [= <-] & ->).
  rewrite Ht in Ht'. injection Ht' as <-. apply bind_Ok in H as (st2 & Hup & H).
  pose proof (rows_of_le st (t_id t)) as Hle. rewrite <- (ti_count _ Hinv _ _ Ht) in Hle.
  set (r := mk_row p data) in *. set (rs := <[(c, (t_id t, id)) := r]> (rows st)) in *.
  assert (in_s64 (row_size c r)) as Hrange.
  { by apply row_size_range. }
  pose proof (add_row_base st c tk t id p data Hinv Ht Hnew Hsize Hdata) as Hb. fold r rs in Hb.
  apply update_db_usage_Ok in Hup as (Hsame & Hu2 & Husage); [|apply (ti_usage _ Hb)|done].
  pose proof (tables_base_same _ _ Hsame Hu2 Hb) as Hb2.
  destruct (cache_table _ _) as [ei ic] eqn:Hct.
  destruct (cache_table_inv st2 c _ _ _ _ (ti_cache _ Hb2 c) Hct) as (Hic & Htc & _).
  destruct (cache_add ic _) as [j ic'] eqn:Ha. injection H as <- <-.
  pose proof Hsame as (Ets & _ & Ers & _). split; [|split].
  - refine (add_row_inv st2 c ic (t_id t, id) j ic' Hb2 Hic _ _ Ha); [|by exists ei].
    rewrite Ers. unfold rs. cbn. by rewrite lookup_insert_eq.
  - intros a. rewrite (same_content_balance st2) by done. unfold balance.
    rewrite (Husage a), (same_tables_billed _ _ a Hsame).
    pose proof (billed_count (with_rows st rs) tk t (u32 (count t + 1)) a Ht) as E1.
    pose proof (billed_insert st c (t_id t, id) r a Hnew) as E2. fold rs in E2.
    change (tables (with_rows st rs)) with (tables st) in E1. rewrite E1, E2.
    change (payer r) with p. change (usage (with_tables _ _) a) with (usage st a). lia.
  - intros Hne tk' t'. cbn [tables with_cache]. rewrite Ets. cbn [tables with_tables].
    intros [[<- <-]|[Hne' Hk]]%lookup_insert_Some; right; cbn [count].
    + rewrite wrap_small by (unfold in_u; lia). lia.
    + destruct (Hne _ _ Hk); [congruence|done].
Qed.

Lemma rows_of_pos st c k r : rows st !! (c, k) = Some r → 0 < rows_of st k.1.
Proof.
  intros Hr. unfold rows_of.
  pose proof (sum_map_lookup (λ (ck : container * row_key) (_ : row),
    if decide (ck.2.1 = k.1) then 1 else 0) (rows st) (c, k) r) as H.
  cbn [fst snd] in H. rewrite decide_True in H by done.
  enough (1 ≤ rows_of st k.1) by (unfold rows_of in *; lia).
  apply H; [|done]. intros. by destruct (decide _).
Qed.

(** A table without rows can go. *)
Lemma remove_table_Ok env st tk t st' : tables_core st → tables st !! tk = Some t → count t = 0 →
  remove_table env st tk t = Ok st' →
  tables_core st' ∧ (∀ a, balance st' a = balance st a) ∧ rows st' = rows st ∧
  caches st' = caches st ∧ tables st' = delete tk (tables st).
Proof.
  intros Hinv Ht H0 H. unfold remove_table in H. apply bind_Ok in H as (st1 & Hup & [= <-]).
  apply update_db_usage_Ok in Hup as (Hsame & Hu & Husage); [|by apply ti_usage|by vm_compute].
  pose proof (tables_core_same _ _ Hsame Hu Hinv) as [Hid Hinj Hrows Hcount Hlen _].
  destruct Hsame as (Ets & En & Ers & Ecs). rewrite db_remove_spec. rewrite Ets.
  split_and!; [|intros a|done..].
  - split; cbn [tables next_table_id rows with_tables].
    + intros k t' [_ Hk]%lookup_delete_Some. apply (Hid k t'). by rewrite Ets.
    + intros k1 t1 k2 t2 [_ H1]%lookup_delete_Some [_ H2]%lookup_delete_Some.
      apply (Hinj k1 t1 k2 t2); by rewrite Ets.
    + intros c k r Hr. destruct (Hrows _ _ _ Hr) as (tk' & t' & Ht' & Hid'). exists tk', t'.
      split; [|done]. apply lookup_delete_Some. rewrite Ets in Ht'. split; [|done]. intros <-.
      rewrite Ht in Ht'. injection Ht' as <-. pose proof (rows_of_pos _ _ _ _ Hr) as Hpos.
      rewrite <- Hid', <- (Hcount tk t) in Hpos; [lia|by rewrite Ets].
    + intros k t' [_ Hk]%lookup_delete_Some. apply (Hcount k t'). by rewrite Ets.
    + done.
    + done.
  - unfold balance, billed. cbn [tables rows with_tables]. rewrite (sum_map_delete _ _ _ _ Ht), Ers.
    specialize (Husage a). change (usage (with_tables st1 _) a) with (usage st1 a).
    change (table_bill a tk t) with (if decide (t_payer t = a) then billable_table else 0).
    destruct (decide _); lia.
Qed.

(** Removing a row together with its iterator. *)
Lemma cache_erase st st' c i k : tables_base st → caches st' = caches st →
  rows st' = delete (c, k) (rows st) → _object_to_iterator (cache_of st c) !! k = Some i →
  ∀ ic', cache_remove (cache_of st' c) i = Ok ic' →
  ∀ c', cache_inv (with_cache st' c ic') c' (cache_of (with_cache st' c ic') c').
Proof.
  intros Hinv Ec Er Hk ic' H c'.
  assert (∀ c, cache_of st' c = cache_of st c) as Eco by (intros; unfold cache_of; by rewrite Ec).
  rewrite Eco in H. rewrite cache_of_with.
  pose proof (ti_cache _ Hinv c) as Hcc. destruct (decide (c = c')) as [<-|Hne].
  - apply (cache_remove_inv st c _ _ k) in H as (Hobj & Eo & Et & Ee); [|done|done].
    destruct Hcc as [_ Hlive Htab]. split; rewrite ?Eo, ?Et, ?Ee; [by rewrite <- Eo| |done].
    intros k' i' [Hne Hk']%lookup_delete_Some. destruct (Hlive _ _ Hk') as [? ?]. split; [|done].
    cbn [rows with_cache]. rewrite Er, lookup_delete_ne; [done|congruence].
  - rewrite Eco. destruct (ti_cache _ Hinv c') as [Hobj Hlive Htab]. split; [done| |done].
    intros k' i' Hk'. destruct (Hlive _ _ Hk') as [? ?]. split; [|done].
    cbn [rows with_cache]. rewrite Er, lookup_delete_ne; [done|congruence].
Qed.

Lemma erase_row_Ok env st c i k r tk t st' : tables_base st → Z.of_nat (size (rows st)) < 2 ^ 32 →
  get_object st c i = Ok (k, r) → tables st !! tk = Some t → t_id t = k.1 →
  erase_row env st c i k tk = Ok st' →
  tables_base st' ∧
  (∀ a, balance st' a = balance st a + (if decide (payer r = a) then row_size c r else 0)) ∧
  (non_empty st (λ _, False) → non_empty st' (λ _, False)).
Proof.
  intros Hinv Hsize [Hk Hr]%get_object_Ok Ht Hid H; [|done]. unfold erase_row in H.
  apply bind_Ok in H as (ts & Hts & H). apply db_modify_Ok in Hts as (t0 & v & Ht0 & [= <-] & ->).
  rewrite Ht in Ht0. injection Ht0 as <-. rewrite db_remove_spec in H.
  set (st1 := with_rows _ _) in H. apply bind_Ok in H as (t1 & Ht1%db_get_Ok & H).
  pose proof (rows_of_le st (t_id t)) as Hle. rewrite <- (ti_count _ Hinv _ _ Ht) in Hle.
  pose proof (rows_of_pos _ _ _ _ Hr) as Hpos. rewrite <- Hid, <- (ti_count _ Hinv _ _ Ht) in Hpos.
  assert (u32 (count t + -1) = count t - 1) as Hcnt by (apply wrap_small; unfold in_u; lia).
  assert (tables_core st1) as Hcore.
  { refine (tables_core_change st tk t (delete (c, k) (rows st)) (-1) _ _ _ _ _ _); [exact (ti_core _ Hinv)|done| | | |].
    - intros tid. unfold rows_of. cbn [rows with_rows]. rewrite (sum_map_delete _ _ _ _ Hr). cbn [fst snd].
      rewrite Hid. destruct (decide _); lia.
    - intros c' k' r' [_ Hr']%lookup_delete_Some. by right.
    - intros k' r' [_ Hr']%lookup_delete_Some. by eapply (ti_len _ Hinv).
    - lia. }
  assert (∀ a, balance st1 a = balance st a + (if decide (payer r = a) then row_size c r else 0)) as Hbal1.
  { intros a. unfold balance. change (usage st1 a) with (usage st a).
    pose proof (billed_count (with_rows st (delete (c, k) (rows st))) tk t (u32 (count t + -1)) a Ht) as E1.
    change (billed st1 a) with (billed (with_tables (with_rows st (delete (c, k) (rows st)))
      (<[tk:=mk_table (t_id t) (t_payer t) (u32 (count t + -1))]> (tables st))) a).
    cbn [tables with_rows] in E1. rewrite E1, (billed_delete _ _ _ _ _ Hr). lia. }
  apply bind_Ok in H as (st2 & Hrm & H). apply bind_Ok in H as (ic & Hic & [= <-]).
  assert (tables_core st2 ∧ (∀ a, balance st2 a = balance st1 a) ∧ rows st2 = rows st1 ∧
    caches st2 = caches st1 ∧ (non_empty st (λ _, False) → non_empty st2 (λ _, False)))
    as (Hc2 & Hb2 & Hr2 & Hca2 & Hne2).
  { cbn [st1 tables with_rows with_tables] in Ht1. rewrite lookup_insert_eq in Ht1. injection Ht1 as <-.
    cbn [count] in Hrm. destruct (Z.eqb_spec (u32 (count t + -1)) 0) as [E|E].
    - apply remove_table_Ok in Hrm as (? & ? & ? & ? & Ets); [|done| |done].
      2:{ cbn [st1 tables with_rows with_tables]. by rewrite lookup_insert_eq. }
      split_and!; [done..|]. intros Hne tk' t'. rewrite Ets. intros [Hd Ht']%lookup_delete_Some.
      cbn [st1 tables with_rows with_tables] in Ht'. rewrite lookup_insert_ne in Ht' by done. by eapply Hne.
    - injection Hrm as <-. split_and!; [done..|]. intros Hne tk' t'.
      cbn [st1 tables with_rows with_tables]. intros [[<- <-]|[_ Ht']]%lookup_insert_Some; [|by eapply Hne]. right. cbn [count]. lia. }
  split_and!; [split|intros a; rewrite <- Hbal1, <- Hb2; done|exact Hne2].
  - by destruct Hc2; split.
  - eapply (cache_erase st st2); [done|by rewrite Hca2|by rewrite Hr2|done|done].
Qed.

(** ** The operations that change rows *)
Lemma non_empty_same st st' e : tables st' = tables st → non_empty st e → non_empty st' e.
Proof. intros E. unfold non_empty. by rewrite E. Qed.

(** What every call of the interface keeps. *)
Definition kept (st st' : table_state) : Prop :=
  tables_base st' ∧ (∀ a, balance st' a = balance st a) ∧
  (non_empty st (λ _, False) → non_empty st' (λ _, False)).

(** A row is replaced, and the usage has moved by the two sizes. *)
Lemma replace_row_Ok st st1 c k r r' : tables_base st → rows st !! (c, k) = Some r →
  Z.of_nat (length (payload r')) < 2 ^ 32 → same_tables st st1 → usage_ok st1 →
  (∀ a, usage st1 a = usage st a - (if decide (payer r = a) then row_size c r else 0)
                    + (if decide (payer r' = a) then row_size c r' else 0)) →
  kept st (with_rows st1 (<[(c, k) := r']> (rows st1))).
Proof.
  intros Hinv Hr Hl Hsame Hu Husage. pose proof (tables_base_same _ _ Hsame Hu Hinv) as [Hc1 Hca1].
  pose proof Hsame as (Ets & _ & Ers & _). split_and!.
  - destruct Hc1 as [Hid Hinj Hrows Hcount Hlen Hus]. rewrite <- Ers in Hr. split.
    + split; cbn [tables next_table_id rows with_rows]; [done|done| | | |done].
      * intros c' k' r0 [[[= <- <-] _]|[_ Hr']]%lookup_insert_Some; eauto.
      * intros tk t Ht. rewrite (Hcount _ _ Ht). unfold rows_of. cbn [rows with_rows].
        rewrite (sum_map_update _ _ _ _ _ Hr). cbn [fst snd]. lia.
      * intros k' r0 [[_ <-]|[_ Hr']]%lookup_insert_Some; eauto.
    + intros c'. eapply cache_inv_more; [apply Hca1|]. intros k' Hk'. cbn [rows with_rows].
      destruct (decide ((c, k) = (c', k'))) as [->|]; [by rewrite lookup_insert_eq|by rewrite lookup_insert_ne].
  - intros a. unfold balance. change (usage (with_rows st1 _) a) with (usage st1 a).
    rewrite (billed_replace st1 _ _ r) by (by rewrite Ers).
    rewrite (Husage a), (same_tables_billed _ _ a Hsame). lia.
  - by apply non_empty_same.
Qed.

(** Moving a bill to another payer. *)
Lemma rebill_Ok env st p1 d1 p2 d2 st' : usage_ok st → in_s64 d1 → in_s64 d2 →
  (st1 ← update_db_usage env st p1 d1; update_db_usage env st1 p2 d2) = Ok st' →
  same_tables st st' ∧ usage_ok st' ∧
  ∀ a, usage st' a = usage st a + (if decide (p1 = a) then d1 else 0) + (if decide (p2 = a) then d2 else 0).
Proof.
  intros Hu H1 H2 H. apply bind_Ok in H as (st1 & Ha & Hb).
  apply update_db_usage_Ok in Ha as ((?&?&?&?) & Hu1 & E1); [|done..].
  apply update_db_usage_Ok in Hb as ((?&?&?&?) & Hu2 & E2); [|done..].
  split; [repeat split; congruence|]. split; [done|]. intros a. rewrite E2, E1. lia.
Qed.

Lemma key_value_size r : Z.of_nat (length (payload r)) < 2 ^ 32 →
  s64 (Z.of_nat (length (payload r)) + billable_key_value) = row_size key_value r ∧
  s64 (- (Z.of_nat (length (payload r)) + billable_key_value)) = - row_size key_value r ∧
  0 ≤ row_size key_value r < 2 ^ 33.
Proof.
  intros Hl. unfold row_size. change billable_key_value with 112.
  rewrite !s64_small by (unfold in_s64; lia). lia.
Qed.

Lemma billable_index_range i : 0 ≤ billable_index i ≤ 160.
Proof. by destruct i; vm_compute. Qed.

Lemma db_update_i64_Ok env st iterator p buffer st' : tables_base st →
  Z.of_nat (length buffer) < 2 ^ 32 → db_update_i64 env st iterator p buffer = Ok st' → kept st st'.
Proof.
  intros Hinv Hl H. unfold db_update_i64 in H. apply bind_Ok in H as ([k obj] & Hobj & H).
  apply get_object_Ok in Hobj as [Hk Hr]; [|done].
  apply bind_Ok in H as ([tk t] & _ & H). apply bind_Ok in H as (? & _ & H).
  pose proof (ti_len _ Hinv _ _ Hr) as Hlo. destruct (key_value_size _ Hlo) as (E1 & _ & R1).
  set (p' := if p =? 0 then payer obj else p) in H.
  destruct (key_value_size (mk_row p' buffer) Hl) as (E2 & _ & R2). cbn [payload] in E2.
  rewrite E1, E2 in H.
  apply bind_Ok in H as (st1 & Hbill & H). apply bind_Ok in H as (rs & Hrs & [= <-]).
  apply db_modify_Ok in Hrs as (r0 & r' & _ & [= <-] & ->).
  assert (same_tables st st1 ∧ usage_ok st1 ∧
    ∀ a, usage st1 a = usage st a - (if decide (payer obj = a) then row_size key_value obj else 0)
      + (if decide (p' = a) then row_size key_value (mk_row p' buffer) else 0)) as (Hs & Hu & Hus).
  { destruct (Z.eqb_spec (payer obj) p') as [Ep|Ep]; cbn [negb] in Hbill.
    - destruct (Z.eqb_spec (row_size key_value obj) (row_size key_value (mk_row p' buffer))) as [Es|Es];
        cbn [negb] in Hbill.
      + injection Hbill as <-. split_and!; [by repeat split|apply (ti_usage _ Hinv)|].
        intros a. rewrite Es, Ep. lia.
      + apply update_db_usage_Ok in Hbill as (? & ? & Hx); [|apply (ti_usage _ Hinv)|unfold in_s64; lia].
        split_and!; [done..|]. intros a. rewrite Hx, Ep. destruct (decide _); lia.
    - apply rebill_Ok in Hbill as (? & ? & Hx); [|apply (ti_usage _ Hinv)|unfold in_s64; lia..].
      split_and!; [done..|]. intros a. rewrite Hx. repeat destruct (decide _); lia. }
  by apply (replace_row_Ok st st1 key_value k obj).
Qed.

Lemma update_secondary_Ok env st i iterator p v st' : tables_base st →
  Z.of_nat (length v) < 2 ^ 32 → update env st i iterator p v = Ok st' → kept st st'.
Proof.
  intros Hinv Hl H. unfold update in H. apply bind_Ok in H as ([k obj] & Hobj & H).
  apply get_object_Ok in Hobj as [Hk Hr]; [|done].
  apply bind_Ok in H as ([tk t] & _ & H). apply bind_Ok in H as (? & _ & H).
  set (p' := if p =? 0 then payer obj else p) in H. pose proof (billable_index_range i) as R.
  apply bind_Ok in H as (st1 & Hbill & H). apply bind_Ok in H as (rs & Hrs & [= <-]).
  apply db_modify_Ok in Hrs as (r0 & r' & _ & [= <-] & ->).
  assert (same_tables st st1 ∧ usage_ok st1 ∧
    ∀ a, usage st1 a = usage st a - (if decide (payer obj = a) then billable_index i else 0)
      + (if decide (p' = a) then billable_index i else 0)) as (Hs & Hu & Hus).
  { destruct (Z.eqb_spec (payer obj) p') as [Ep|Ep]; cbn [negb] in Hbill.
    - injection Hbill as <-. split_and!; [by repeat split|apply (ti_usage _ Hinv)|].
      intros a. rewrite Ep. lia.
    - apply rebill_Ok in Hbill as (? & ? & Hx); [|apply (ti_usage _ Hinv)|unfold in_s64; lia..].
      split_and!; [done..|]. intros a. rewrite Hx. repeat destruct (decide _); lia. }
  by apply (replace_row_Ok st st1 (secondary i) k obj).
Qed.

Lemma db_store_i64_Ok env st code scope table p id buffer i st' : tables_base st →
  Z.of_nat (size (rows st)) + 1 < 2 ^ 32 → Z.of_nat (length buffer) < 2 ^ 32 →
  db_store_i64 env st code scope table p id buffer = Ok (i, st') → kept st st'.
Proof.
  intros Hinv Hsize Hl H. unfold db_store_i64 in H. apply bind_Ok in H as ([tid st1] & Hf & H).
  apply find_or_create_table_Ok in Hf as (Hb & Hbal & Er & Hne & t & Ht & <-); [|done].
  apply bind_Ok in H as (? & _ & H). destruct (key_value_size (mk_row p buffer) Hl) as (E & _).
  cbn [payload] in E. rewrite E in H.
  apply create_row_Ok in H as (Hb' & Hbal' & Hne'); [|done|done|by rewrite Er|done].
  split_and!; [done|intros a; by rewrite Hbal', Hbal|auto].
Qed.

Lemma store_Ok env st k scope table p id v i st' : tables_base st →
  Z.of_nat (size (rows st)) + 1 < 2 ^ 32 → Z.of_nat (length v) < 2 ^ 32 →
  store env st k scope table p id v = Ok (i, st') → kept st st'.
Proof.
  intros Hinv Hsize Hl H. unfold store in H. apply bind_Ok in H as (? & _ & H).
  apply bind_Ok in H as ([tid st1] & Hf & H).
  apply find_or_create_table_Ok in Hf as (Hb & Hbal & Er & Hne & t & Ht & <-); [|done].
  apply (create_row_Ok _ _ (secondary k)) in H as (Hb' & Hbal' & Hne'); [|done|done|by rewrite Er|done].
  split_and!; [done|intros a; by rewrite Hbal', Hbal|auto].
Qed.

(** Both removals: the payer gets the size back, then the row goes. *)
Lemma refund_erase_Ok env st st1 c i k r tk t st' : tables_base st →
  Z.of_nat (size (rows st)) < 2 ^ 32 → get_object st c i = Ok (k, r) →
  in_s64 (- row_size c r) → update_db_usage env st (payer r) (- row_size c r) = Ok st1 →
  tables st !! tk = Some t → t_id t = k.1 → erase_row env st1 c i k tk = Ok st' → kept st st'.
Proof.
  intros Hinv Hsize Hobj Hrange Hup Ht Hid H.
  apply update_db_usage_Ok in Hup as (Hsame & Hu & Husage); [|apply (ti_usage _ Hinv)|done].
  pose proof (tables_base_same _ _ Hsame Hu Hinv) as Hb. pose proof Hsame as (Ets & _ & Ers & Ecs).
  assert (get_object st1 c i = Ok (k, r)) as Hobj1.
  { apply get_object_Ok; [done|]. unfold cache_of. rewrite Ecs, Ers. by apply get_object_Ok in Hobj. }
  apply (erase_row_Ok _ _ _ _ _ r _ t) in H as (Hb' & Hbal & Hne);
    [|done|by rewrite Ers|done|by rewrite Ets|done].
  split_and!; [done| |].
  - intros a. rewrite Hbal. unfold balance. rewrite (Husage a), (same_tables_billed _ _ a Hsame).
    destruct (decide _); lia.
  - intros Hn. apply Hne. by eapply non_empty_same.
Qed.

Lemma db_remove_i64_Ok env st i st' : tables_base st → Z.of_nat (size (rows st)) < 2 ^ 32 →
  db_remove_i64 env st i = Ok st' → kept st st'.
Proof.
  intros Hinv Hsize H. unfold db_remove_i64 in H. apply bind_Ok in H as ([k obj] & Hobj & H).
  destruct (get_table_live _ _ _ _ _ Hinv Hobj) as (tk & t & Hg & Ht & Hid).
  rewrite Hg in H. cbn [mbind result_bind] in H. apply bind_Ok in H as (? & _ & H).
  apply bind_Ok in H as (st1 & Hup & H). pose proof (proj2 (proj1 (get_object_Ok _ _ _ _ _ Hinv) Hobj)) as Hr.
  destruct (key_value_size _ (ti_len _ Hinv _ _ Hr)) as (_ & E & R). rewrite E in Hup.
  eapply refund_erase_Ok; [done..| |done|done|done|done]. unfold in_s64. lia.
Qed.

Lemma remove_Ok env st k i st' : tables_base st → Z.of_nat (size (rows st)) < 2 ^ 32 →
  remove env st k i = Ok st' → kept st st'.
Proof.
  intros Hinv Hsize H. unfold remove in H. apply bind_Ok in H as ([rk obj] & Hobj & H).
  apply bind_Ok in H as (st1 & Hup & H). destruct (get_table_live _ _ _ _ _ Hinv Hobj) as (tk & t & Hg & Ht & Hid).
  pose proof (billable_index_range k) as R.
  assert (get_table st1 (cache_of st1 (secondary k)) rk.1 = Ok (tk, t)) as Hg1.
  { pose proof Hup as Hup'. apply update_db_usage_Ok in Hup' as ((Ets & _ & _ & Ecs) & _);
      [|apply (ti_usage _ Hinv)|unfold in_s64; lia].
    rewrite <- Hg. unfold get_table, table_by_id, cache_of. by rewrite Ets, Ecs. }
  rewrite Hg1 in H. cbn [mbind result_bind] in H. apply bind_Ok in H as (? & _ & H).
  eapply (refund_erase_Ok _ _ _ (secondary k)); [done..| |done|done|done|done].
  unfold in_s64, row_size. lia.
Qed.
End theory.
