(* ===== verification/DatabaseApi.v ===== *)
(** * The database host functions ([wasm_interface.cpp], [database_api])

    The calls a contract makes on its tables.  A host function checks a
    secondary key, an array by its length and a float for NaN, and hands the
    call to the [apply_context].  The calls are the constructors of [db_call],
    so that what a contract does to the database is a list of calls; the
    invariant and the exactness of RAM billing are proved for all such lists. *)

From S2P Require Import Prelude Chainbase Names Assets Config ConfigOnChain Accumulator.
From S2P Require Import ResourceLimits Authority ContractTables TableTheory.
Local Open Scope Z_scope.

(** The functions of [database_api] on the primary tables, and those that the
    macros [DB_API_METHOD_WRAPPERS_] generate for each secondary index. *)
Inductive db_call :=
  | call_store_i64 (scope table payer id : Z) (buffer : list Z)
  | call_update_i64 (itr payer : Z) (buffer : list Z)
  | call_remove_i64 (itr : Z)
  | call_get_i64 (itr buffer_size : Z)
  | call_next_i64 (itr : Z)
  | call_previous_i64 (itr : Z)
  | call_find_i64 (code scope table id : Z)
  | call_lowerbound_i64 (code scope table id : Z)
  | call_upperbound_i64 (code scope table id : Z)
  | call_end_i64 (code scope table : Z)
  | call_idx_store (i : index_kind) (scope table payer id : Z) (key : list Z)
  | call_idx_update (i : index_kind) (itr payer : Z) (key : list Z)
  | call_idx_remove (i : index_kind) (itr : Z)
  | call_idx_find_secondary (i : index_kind) (code scope table : Z) (key : list Z)
  | call_idx_find_primary (i : index_kind) (code scope table : Z) (key : list Z) (primary : Z)
  | call_idx_lowerbound (i : index_kind) (code scope table : Z) (key : list Z)
  | call_idx_upperbound (i : index_kind) (code scope table : Z) (key : list Z)
  | call_idx_end (i : index_kind) (code scope table : Z)
  | call_idx_next (i : index_kind) (itr : Z)
  | call_idx_previous (i : index_kind) (itr : Z).

(** What a call gives back: an iterator or a length, and what it writes to the
    contract's memory. *)
Record db_return := mk_return {
  ret : Z; out_primary : option Z; out_bytes : option (list Z) }.
Definition ret_none : db_return := mk_return 0 None None.
Definition ret_iterator (i : Z) : db_return := mk_return i None None.

Section api.
Context {db : Chainbase}.
Context (f64_rank f128_rank : Z → Z).
(** [f64_is_nan] and [f128_is_nan] of the soft float library. *)
Context (f64_is_nan f128_is_nan : Z → bool).

(** The assertion at the head of the functions that take a secondary key; the
    key of the functions generated for a plain integer is one word by its type. *)
Definition check_key (i : index_kind) (key : list Z) : result unit :=
  match i, key with
  | idx256, _ => EOS_ASSERT (bool_decide (length key = 2%nat)) db_api_exception
  | idx_double, [x] => EOS_ASSERT (negb (f64_is_nan x)) transaction_exception
  | idx_long_double, [x] => EOS_ASSERT (negb (f128_is_nan x)) transaction_exception
  | _, _ => Ok tt
  end.

(** [find_primary] writes the key; only the array has its length checked. *)
Definition check_key_out (i : index_kind) (key : list Z) : result unit :=
  match i with idx256 => check_key idx256 key | _ => Ok tt end.

Definition found (r : Z * option Z * table_state) : db_return * table_state :=
  let '(i, primary, st) := r in (mk_return i primary None, st).
Definition found_iterator (r : Z * option Z * table_state) : db_return * table_state :=
  let '(i, _, st) := r in (ret_iterator i, st).

(** The keys of the row that was found, which the bounds copy out. *)
Definition found_key (i : index_kind) (r : Z * option Z * table_state) (code scope table : Z) :
    db_return * table_state :=
  let '(it, primary, st) := r in
  let key :=
    tab ← find_table st code scope table; p ← primary; Some (secondary_of st i (t_id tab, p)) in
  (mk_return it primary key, st).

Definition database_api (env : apply_env) (st : table_state) (call : db_call) :
    result (db_return * table_state) :=
  match call with
  | call_store_i64 scope table payer id buffer =>
      '(i, st) ← db_store_i64 env st (receiver env) scope table payer id buffer; Ok (ret_iterator i, st)
  | call_update_i64 itr payer buffer =>
      st ← db_update_i64 env st itr payer buffer; Ok (ret_none, st)
  | call_remove_i64 itr => st ← db_remove_i64 env st itr; Ok (ret_none, st)
  | call_get_i64 itr buffer_size =>
      '(n, bytes) ← db_get_i64 st itr buffer_size; Ok (mk_return n None (Some bytes), st)
  | call_next_i64 itr => r ← db_next_i64 f64_rank f128_rank st itr; Ok (found r)
  | call_previous_i64 itr => r ← db_previous_i64 f64_rank f128_rank st itr; Ok (found r)
  | call_find_i64 code scope table id => Ok (found_iterator (db_find_i64 st code scope table id))
  | call_lowerbound_i64 code scope table id =>
      Ok (found_iterator (db_lowerbound_i64 f64_rank f128_rank st code scope table id))
  | call_upperbound_i64 code scope table id =>
      Ok (found_iterator (db_upperbound_i64 f64_rank f128_rank st code scope table id))
  | call_end_i64 code scope table =>
      let '(i, st) := db_end_i64 st code scope table in Ok (ret_iterator i, st)
  | call_idx_store i scope table payer id key =>
      _ ← check_key i key;
      '(it, st) ← store env st i scope table payer id key; Ok (ret_iterator it, st)
  | call_idx_update i itr payer key =>
      _ ← check_key i key; st ← update env st i itr payer key; Ok (ret_none, st)
  | call_idx_remove i itr => st ← remove env st i itr; Ok (ret_none, st)
  | call_idx_find_secondary i code scope table key =>
      _ ← check_key i key;
      Ok (found (find_secondary f64_rank f128_rank st i code scope table key))
  | call_idx_find_primary i code scope table key primary =>
      _ ← check_key_out i key;
      let '(r, st) := found_key i (find_primary st i code scope table primary) code scope table in
      Ok (mk_return (ret r) None (out_bytes r), st)
  | call_idx_lowerbound i code scope table key =>
      _ ← check_key i key;
      Ok (found_key i (lowerbound_secondary f64_rank f128_rank st i code scope table key) code scope table)
  | call_idx_upperbound i code scope table key =>
      _ ← check_key i key;
      Ok (found_key i (upperbound_secondary f64_rank f128_rank st i code scope table key) code scope table)
  | call_idx_end i code scope table =>
      let '(it, st) := end_secondary st i code scope table in Ok (ret_iterator it, st)
  | call_idx_next i itr => r ← next_secondary f64_rank f128_rank st i itr; Ok (found r)
  | call_idx_previous i itr => r ← previous_secondary f64_rank f128_rank st i itr; Ok (found r)
  end.

(** A new [apply_context] starts with empty caches and no deltas. *)
Definition new_context (st : table_state) : table_state :=
  mk_state (tables st) (next_table_id st) (rows st) (resources st) (validate_ram_usage st) ∅ ∅.

(** The calls of one action, and what they give back; the first exception ends it. *)
Fixpoint run_calls (env : apply_env) (st : table_state) (calls : list db_call) :
    result (list db_return * table_state) :=
  match calls with
  | [] => Ok ([], st)
  | call :: calls =>
      '(r, st) ← database_api env st call;
      '(rs, st) ← run_calls env st calls; Ok (r :: rs, st)
  end.
End api.

(** The calls that change no row. *)
Definition reads (call : db_call) : bool :=
  match call with
  | call_store_i64 _ _ _ _ _ | call_update_i64 _ _ _ | call_remove_i64 _
  | call_idx_store _ _ _ _ _ _ | call_idx_update _ _ _ _ | call_idx_remove _ _ => false
  | _ => true
  end.

Section theory.
Context {db : Chainbase} {laws : ChainbaseLaws db}.
Context (f64_rank f128_rank : Z → Z) (f64_is_nan f128_is_nan : Z → bool).
Implicit Types (st : table_state) (env : apply_env) (call : db_call).
Abbreviation api := (database_api f64_rank f128_rank f64_is_nan f128_is_nan).

(** A length is a 32-bit word of the contract, and the rows of a table are
    counted in 32 bits. *)
Definition call_fits (st : table_state) (call : db_call) : Prop :=
  (reads call = false → Z.of_nat (size (rows st)) + 1 < 2 ^ 32) ∧
  match call with
  | call_store_i64 _ _ _ _ b | call_update_i64 _ _ b
  | call_idx_store _ _ _ _ _ b | call_idx_update _ _ _ b => Z.of_nat (length b) < 2 ^ 32
  | _ => True
  end.

Lemma kept_same st st' : tables_base st' ∧ same_content st st' → kept st st'.
Proof.
  intros [Hb Hs]. split_and!; [done|intros; by apply same_content_balance|].
  destruct Hs as (Ht & _). by apply non_empty_same.
Qed.

Lemma search_kept st c code scope table find i p st' : tables_base st →
  (∀ tid k, find tid = Some k → is_Some (rows st !! (c, k))) →
  search st c code scope table find = (i, p, st') → kept st st'.
Proof. intros Hb Hf H. apply kept_same. by eapply search_inv. Qed.

Lemma db_find_live st c (tid id : Z) k :
  match db_find (rows st) (c, (tid, id)) with Some _ => Some (tid, id) | None => None end = Some k →
  is_Some (rows st !! (c, k)).
Proof. rewrite db_find_spec. destruct (_ !! _) eqn:E; intros; simplify_eq. by rewrite E. Qed.

Lemma find_secondary_live st i code scope table key r p st' : tables_base st →
  find_secondary f64_rank f128_rank st i code scope table key = (r, p, st') → kept st st'.
Proof.
  intros Hb. apply search_kept; [done|]. intros tid k Hk.
  apply bind_Some in Hk as (k' & Hk' & H). destruct (_ && _); simplify_eq. by eapply first_from_live.
Qed.

Lemma database_api_kept env st call r st' : tables_base st → call_fits st call →
  api env st call = Ok (r, st') → kept st st'.
Proof.
  intros Hb [Hsize Hlen] H. destruct call; try specialize (Hsize eq_refl); cbn [database_api] in H.
  - apply bind_Ok in H as ([? ?] & H & [= <- <-]). by eapply db_store_i64_Ok.
  - apply bind_Ok in H as (? & H & [= <- <-]). by eapply db_update_i64_Ok.
  - apply bind_Ok in H as (? & H & [= <- <-]). eapply db_remove_i64_Ok; [done| |done]. lia.
  - apply bind_Ok in H as ([? ?] & H & [= <- <-]). by apply kept_same.
  - apply bind_Ok in H as ([[i p] st1] & H & E). injection E as <- <-. apply kept_same. by eapply next_inv.
  - apply bind_Ok in H as ([[i p] st1] & H & E). injection E as <- <-. apply kept_same. by eapply previous_inv.
  - destruct (db_find_i64 _ _ _ _ _) as [[i p] st1] eqn:E. injection H as <- <-.
    eapply search_kept; [done| |done]. intros tid k. apply db_find_live.
  - destruct (db_lowerbound_i64 _ _ _ _ _ _ _) as [[i p] st1] eqn:E. injection H as <- <-.
    eapply search_kept; [done| |done]. intros tid k. apply first_from_live.
  - destruct (db_upperbound_i64 _ _ _ _ _ _ _) as [[i p] st1] eqn:E. injection H as <- <-.
    eapply search_kept; [done| |done]. intros tid k. apply first_from_live.
  - destruct (db_end_i64 _ _ _ _) as [i st1] eqn:E. injection H as <- <-.
    apply kept_same. by eapply end_iterator_inv.
  - apply bind_Ok in H as (? & _ & H). apply bind_Ok in H as ([? ?] & H & [= <- <-]). by eapply store_Ok.
  - apply bind_Ok in H as (? & _ & H). apply bind_Ok in H as (? & H & [= <- <-]). by eapply update_secondary_Ok.
  - apply bind_Ok in H as (? & H & [= <- <-]). eapply remove_Ok; [done| |done]. lia.
  - apply bind_Ok in H as (? & _ & H). destruct (find_secondary _ _ _ _ _ _ _ _) as [[it p] st1] eqn:E.
    injection H as <- <-. by eapply find_secondary_live.
  - apply bind_Ok in H as (? & _ & H). destruct (find_primary _ _ _ _ _ _) as [[it p] st1] eqn:E.
    injection H as <- <-. eapply search_kept; [done| |done]. intros tid k. apply db_find_live.
  - apply bind_Ok in H as (? & _ & H). destruct (lowerbound_secondary _ _ _ _ _ _ _ _) as [[it p] st1] eqn:E.
    injection H as <- <-. eapply search_kept; [done| |done]. intros tid k. apply first_from_live.
  - apply bind_Ok in H as (? & _ & H). destruct (upperbound_secondary _ _ _ _ _ _ _ _) as [[it p] st1] eqn:E.
    injection H as <- <-. eapply search_kept; [done| |done]. intros tid k. apply first_from_live.
  - destruct (end_secondary _ _ _ _ _) as [it st1] eqn:E. injection H as <- <-.
    apply kept_same. by eapply end_iterator_inv.
  - apply bind_Ok in H as ([[it p] st1] & H & E). injection E as <- <-. apply kept_same. by eapply next_inv.
  - apply bind_Ok in H as ([[it p] st1] & H & E). injection E as <- <-. apply kept_same. by eapply previous_inv.
Qed.

(** ** What contracts can reach *)

(** A call of any contract, with any authority, or the begin of the next action. *)
Inductive api_step : table_state → table_state → Prop :=
  | step_call env st call r st' :
      call_fits st call → api env st call = Ok (r, st') → api_step st st'
  | step_context st : api_step st (new_context st).

(** The calls of an action are steps. *)
Definition call_fitsb (st : table_state) (call : db_call) : bool :=
  (reads call || (Z.of_nat (size (rows st)) + 1 <? 2 ^ 32)) &&
  match call with
  | call_store_i64 _ _ _ _ b | call_update_i64 _ _ b
  | call_idx_store _ _ _ _ _ b | call_idx_update _ _ _ b => Z.of_nat (length b) <? 2 ^ 32
  | _ => true
  end.
Fixpoint calls_fit (env : apply_env) (st : table_state) (calls : list db_call) : option table_state :=
  match calls with
  | [] => Some st
  | call :: calls =>
      if call_fitsb st call then
        match api env st call with Ok (_, st) => calls_fit env st calls | Throw _ => None end
      else None
  end.

Lemma calls_fit_steps env calls : ∀ st st', calls_fit env st calls = Some st' → rtc api_step st st'.
Proof.
  induction calls as [|call calls IH]; intros st st' H; cbn [calls_fit] in H.
  { injection H as <-. apply rtc_refl. }
  destruct (call_fitsb st call) eqn:Hf; [|done].
  destruct (api env st call) as [[r st1]|] eqn:Hc; [|done]. eapply rtc_l; [|by eapply IH].
  eapply step_call; [|done]. unfold call_fitsb, call_fits in *.
  apply andb_prop in Hf as [H1 H2]. split; [intros Hr; rewrite Hr in H1; lia|]. destruct call; try done; lia.
Qed.

(** No tables yet. *)
Definition no_tables (st : table_state) : Prop :=
  tables st = ∅ ∧ rows st = ∅ ∧ caches st = ∅ ∧ usage_ok st.

Lemma empty_cache_inv st c : cache_inv st c empty_cache.
Proof.
  split; cbn.
  - intros k i. rewrite lookup_empty, lookup_nil. split; [done|by intros [_ ?]].
  - intros k i. by rewrite lookup_empty.
  - intros tid ei. rewrite lookup_empty, lookup_nil. split; [done|by intros [_ ?]].
Qed.

Lemma no_tables_base st : no_tables st → tables_base st ∧ non_empty st (λ _, False) ∧ ∀ a, billed st a = 0.
Proof.
  intros (Et & Er & Ec & Hu). split_and!.
  - split; [split|]; rewrite ?Et, ?Er; try done.
    intros c. unfold cache_of. rewrite Ec, lookup_empty. apply empty_cache_inv.
  - intros tk t. by rewrite Et.
  - intros a. unfold billed. by rewrite Et, Er.
Qed.

Lemma new_context_kept st : tables_base st → kept st (new_context st).
Proof.
  intros [[Hid Hinj Hrows Hcount Hlen Hu] _]. split_and!; [|done|by apply non_empty_same].
  split; [by split|]. intros c. unfold cache_of. cbn [new_context caches]. rewrite lookup_empty.
  apply empty_cache_inv.
Qed.

Lemma api_steps_kept st0 st : tables_base st0 → rtc api_step st0 st → kept st0 st.
Proof.
  intros Hb H. revert Hb. induction H as [st|st st1 st2 Hstep _ IH]; intros Hb.
  { by split_and!. }
  assert (kept st st1) as (Hb1 & Hbal1 & Hne1).
  { destruct Hstep; [by eapply database_api_kept|by apply new_context_kept]. }
  destruct (IH Hb1) as (Hb2 & Hbal2 & Hne2).
  split_and!; [done|intros a; by rewrite Hbal2|auto].
Qed.

(** C14.  Whatever contracts do, in any number of actions: the RAM usage of every
    account is what it was plus the size of the tables and rows it pays for; a
    table has as many rows as its [count] says, and at least one; every row
    belongs to a table; and an iterator of the current action that a cache
    resolves denotes a row that exists. *)
Theorem table_accounting_exact st0 st :
  no_tables st0 → rtc api_step st0 st →
  (∀ a, usage st a = usage st0 a + billed st a) ∧
  (∀ tk t, tables st !! tk = Some t → count t = rows_of st (t_id t) ∧ 0 < count t) ∧
  (∀ c k r, rows st !! (c, k) = Some r → ∃ tk t, tables st !! tk = Some t ∧ t_id t = k.1) ∧
  (∀ c i k, cache_get (cache_of st c) i = Ok k → is_Some (rows st !! (c, k))).
Proof.
  intros H0 Hrtc. destruct (no_tables_base _ H0) as (Hb0 & Hne0 & Hz).
  destruct (api_steps_kept _ _ Hb0 Hrtc) as (Hb & Hbal & Hne). split_and!.
  - intros a. specialize (Hbal a). unfold balance in Hbal. rewrite Hz in Hbal. lia.
  - intros tk t Ht. split; [by eapply (ti_count _ Hb)|]. by destruct (Hne Hne0 _ _ Ht).
  - exact (ti_rows _ Hb).
  - intros c i k Hk. pose proof (ti_cache _ Hb c) as Hc.
    apply (cache_get_Ok st c) in Hk; [|done]. by eapply (ci_live _ _ _ Hc).
Qed.

(** The container and the iterator that a call moves back from. *)
Definition moves_back (call : db_call) : option (container * Z) :=
  match call with
  | call_previous_i64 itr => Some (key_value, itr)
  | call_idx_previous i itr => Some (secondary i, itr)
  | _ => None
  end.

Lemma check_key_defined i key :
  check_key f64_is_nan f128_is_nan i key = Ok tt ∨
  ∃ e, check_key f64_is_nan f128_is_nan i key = Throw e ∧ e ≠ undefined_behaviour.
Proof.
  assert (∀ b e, e ≠ undefined_behaviour → EOS_ASSERT b e = Ok tt ∨
    ∃ e', EOS_ASSERT b e = Throw e' ∧ e' ≠ undefined_behaviour) as HA by (intros [] e; cbn; eauto).
  destruct i; cbn [check_key]; auto; destruct key as [|x [|y key]]; auto.
Qed.

Lemma check_key_out_defined i key :
  check_key_out f64_is_nan f128_is_nan i key = Ok tt ∨
  ∃ e, check_key_out f64_is_nan f128_is_nan i key = Throw e ∧ e ≠ undefined_behaviour.
Proof. destruct i; cbn [check_key_out]; auto. apply check_key_defined. Qed.

Lemma get_object_defined st c i : tables_base st → get_object st c i ≠ Throw undefined_behaviour.
Proof.
  intros Hb H. unfold get_object in H. destruct (cache_get (cache_of st c) i) as [k|e] eqn:Hk.
  - cbn [mbind result_bind] in H. pose proof (ti_cache _ Hb c) as Hc.
    apply (cache_get_Ok st c) in Hk; [|done]. destruct (ci_live _ _ _ Hc _ _ Hk) as [[r Hr] _].
    by rewrite Hr in H.
  - cbn [mbind result_bind] in H. injection H as ->. revert Hk. unfold cache_get.
    destruct (negb _); [|done]. destruct (0 <=? i); [|done]. cbn.
    by destruct (_ !! _) as [[]|].
Qed.

Lemma next_defined st o c i : tables_base st → next f64_rank f128_rank st o c i ≠ Throw undefined_behaviour.
Proof.
  intros Hb H. unfold next in H. destruct (_ <? _); [done|].
  destruct (get_object st c i) as [[k r]|e] eqn:Ho; cbn [mbind result_bind] in H.
  - assert (∀ A (f : Z → result A), (∀ x, f x ≠ Throw undefined_behaviour) →
      (ei ← get_end_iterator_by_table_id (cache_of st c) k.1; f ei) ≠ Throw undefined_behaviour) as Hend.
    { intros A f Hf. unfold get_end_iterator_by_table_id. by destruct (_ !! _); cbn. }
    destruct (first_from _ _ _ _ _ _) as [k'|]; [destruct (_ =? _); [by destruct (cache_add _ _)|]|];
      by eapply Hend in H.
  - injection H as ->. by apply (get_object_defined st c i Hb).
Qed.

Lemma previous_undefined st o c i : tables_base st →
  previous f64_rank f128_rank st o c i = Throw undefined_behaviour →
  i < -1 ∧ ∃ tid, _end_iterator_to_table (cache_of st c) !! Z.to_nat (end_iterator_to_index i) = Some tid ∧
    ∀ tk t, tables st !! tk = Some t → t_id t ≠ tid.
Proof.
  intros Hb H. unfold previous in H. destruct (Z.ltb_spec i (-1)) as [Hi|].
  - split; [done|]. unfold find_table_by_end_iterator in H. rewrite (proj2 (Z.ltb_lt i (-1)) Hi) in H.
    cbn [EOS_ASSERT mbind result_bind] in H. destruct (_ !! _) as [tid|] eqn:Ht; cbn [of_option] in H; [|done].
    exists tid. split; [done|]. intros tk t Htk Hid. cbn [mbind result_bind] in H.
    by rewrite (proj2 (table_by_id_Some st tid tk t Hb) (conj Htk Hid)) in H.
  - destruct (get_object st c i) as [[k r]|e] eqn:Ho; cbn [mbind result_bind] in H; [done|].
    injection H as ->. by destruct (get_object_defined st c i Hb).
Qed.

(** In every state that contracts reach, reading is defined with one
    exception: going back from the end iterator of a table that was removed
    since the iterator was given out. *)
Theorem reads_defined st0 st env call :
  no_tables st0 → rtc api_step st0 st → reads call = true →
  api env st call = Throw undefined_behaviour →
  ∃ c i tid, moves_back call = Some (c, i) ∧ i < -1 ∧
    _end_iterator_to_table (cache_of st c) !! Z.to_nat (end_iterator_to_index i) = Some tid ∧
    ∀ tk t, tables st !! tk = Some t → t_id t ≠ tid.
Proof.
  intros H0 Hrtc Hr H. destruct (no_tables_base _ H0) as (Hb0 & _).
  destruct (api_steps_kept _ _ Hb0 Hrtc) as (Hb & _). destruct call; try done; cbn [database_api] in H.
  - destruct (db_get_i64 _ _ _) as [[]|e] eqn:E; [done|]. unfold db_get_i64 in E.
    injection H as ->. destruct (get_object st key_value itr) as [[]|e] eqn:Ho;
      [cbn in E; by destruct (_ =? _)|]. injection E as ->. by apply get_object_defined in Ho.
  - destruct (db_next_i64 _ _ _ _) as [[[]]|e] eqn:E; [done|]. injection H as ->. by apply next_defined in E.
  - destruct (db_previous_i64 _ _ _ _) as [[[]]|e] eqn:E; [done|]. injection H as ->.
    apply previous_undefined in E as (? & tid & ?); [|done]. by exists key_value, itr, tid.
  - by destruct (db_end_i64 _ _ _ _).
  - destruct (check_key_defined i key) as [E|[e [E Hne]]]; rewrite E in H; cbn [mbind result_bind] in H; congruence.
  - destruct (check_key_out_defined i key) as [E|[e [E Hne]]]; rewrite E in H; cbn [mbind result_bind] in H; [|congruence].
    by destruct (find_primary _ _ _ _ _ _) as [[]].
  - destruct (check_key_defined i key) as [E|[e [E Hne]]]; rewrite E in H; cbn [mbind result_bind] in H; congruence.
  - destruct (check_key_defined i key) as [E|[e [E Hne]]]; rewrite E in H; cbn [mbind result_bind] in H; congruence.
  - by destruct (end_secondary _ _ _ _ _).
  - destruct (next_secondary _ _ _ _ _) as [[[]]|e] eqn:E; [done|]. injection H as ->. by apply next_defined in E.
  - destruct (previous_secondary _ _ _ _ _) as [[[]]|e] eqn:E; [done|]. injection H as ->.
    apply previous_undefined in E as (? & tid & ?); [|done]. by exists (secondary i), itr, tid.
Qed.
End theory.

(** ** A concrete database *)
Definition demo_account : resource_usage_object :=
  {| net_usage := accumulator_ctor; cpu_usage := accumulator_ctor; ram_usage := 1000 |}.
Definition empty_tables : table_state :=
  mk_state ∅ 0 ∅ (with_usages demo_db {[ 5 := demo_account ]}) ∅ ∅ ∅.
Definition demo_env : apply_env := {|
  receiver := 5; act_code := 5; act_authorization := [];
  privileged := false; ram_restrictions := true; ram_billing_in_notify_allowed := false |}.
Abbreviation demo_run := (run_calls id id (λ _, false) (λ _, false) demo_env).

(** A row is stored and the end iterator of its table taken; the row is removed,
    and with it the table.  Then the contract steps back from the end. *)
Definition dangling_calls : list db_call :=
  [call_store_i64 5 7 5 1 [1; 2; 3]; call_end_i64 5 5 7; call_remove_i64 0; call_previous_i64 (-2)].

(** Four calls of an unprivileged contract on its own table read a table
    object that was removed: the end iterator outlives the table it stands for,
    and [previous] dereferences it. *)
Theorem dangling_end_iterator :
  demo_run empty_tables dangling_calls = Throw undefined_behaviour ∧
  ∃ rets st, demo_run empty_tables (take 3 dangling_calls) = Ok (rets, st) ∧
    map ret rets = [0; -2; 0] ∧ tables st = ∅ ∧ rows st = ∅.
Proof. vm_compute. split; [done|]. do 2 eexists. done. Qed.

Lemma demo_no_tables : no_tables empty_tables.
Proof.
  repeat split; intros; simpl in *;
    match goal with H : _ !! _ = Some _ |- _ =>
      apply lookup_singleton_Some in H as [_ <-] end; vm_compute; congruence.
Qed.

(** The states after the calls of [dangling_calls]. *)
Abbreviation demo_step := (api_step id id (λ _, false) (λ _, false)).
Abbreviation demo_fit := (calls_fit id id (λ _, false) (λ _, false) demo_env empty_tables).
Definition demo_after (n : nat) : table_state := default empty_tables (demo_fit (take n dangling_calls)).

Lemma demo_reachable calls : rtc demo_step empty_tables (default empty_tables (demo_fit calls)).
Proof. destruct (demo_fit calls) eqn:E; [by eapply calls_fit_steps|apply rtc_refl]. Qed.

(** One row of three bytes: 115 bytes for it and 112 for its table. *)
Lemma table_accounting_exact_witness :
  usage (demo_after 1) 5 = 1000 + billed (demo_after 1) 5 ∧ billed (demo_after 1) 5 = 227.
Proof.
  split; [|vm_compute; reflexivity].
  exact (proj1 (table_accounting_exact id id (λ _, false) (λ _, false) empty_tables (demo_after 1)
    demo_no_tables (demo_reachable (take 1 dangling_calls))) 5).
Defined.

Lemma reads_defined_witness :
  ∃ c i tid, moves_back (call_previous_i64 (-2)) = Some (c, i) ∧ i < -1 ∧
    _end_iterator_to_table (cache_of (demo_after 3) c) !! Z.to_nat (end_iterator_to_index i) = Some tid ∧
    ∀ tk t, tables (demo_after 3) !! tk = Some t → t_id t ≠ tid.
Proof.
  refine (reads_defined id id (λ _, false) (λ _, false) empty_tables (demo_after 3) demo_env
    (call_previous_i64 (-2)) demo_no_tables
    (demo_reachable (take 3 dangling_calls)) _ _); vm_compute; reflexivity.
Defined.
