(* ===== verification/TableScan.v ===== *)
(** * Scans of contract tables

    A scan begins at an iterator that a search returned and moves with [next]
    until it gets none.  It visits the rows of the table from the bound of the
    search on, each once and in the order of the index, by primary key as well
    as by secondary key. *)

From stdpp Require Import sorting.
From S2P Require Import Prelude Chainbase Names Assets Config ConfigOnChain Accumulator.
From S2P Require Import ResourceLimits Authority ContractTables TableTheory DatabaseApi.
Local Open Scope Z_scope.

(** ** Sorted lists *)
Section sorted.
Context {A : Type} (R : relation A) `{!Transitive R, !Irreflexive R}.

Lemma filter_iff_in (P Q : A → Prop) `{∀ x, Decision (P x), ∀ x, Decision (Q x)} (l : list A) :
  (∀ x, x ∈ l → P x ↔ Q x) → filter P l = filter Q l.
Proof.
  induction l as [|x l IH]; [done|]. intros Hiff. rewrite !filter_cons.
  rewrite IH by (intros; apply Hiff; by right).
  pose proof (Hiff x ltac:(by left)). destruct (decide (P x)), (decide (Q x)); naive_solver.
Qed.

Lemma StronglySorted_filter (P : A → Prop) `{∀ x, Decision (P x)} (l : list A) :
  StronglySorted R l → StronglySorted R (filter P l).
Proof.
  induction 1 as [|x l Hl IH Hx]; [constructor|]. rewrite filter_cons.
  destruct (decide (P x)); [|done]. constructor; [done|].
  rewrite Forall_forall in *. intros y [_ Hy]%list_elem_of_filter. auto.
Qed.

(** What comes after the first match. *)
Lemma filter_after (T P : A → Prop) `{∀ x, Decision (T x), ∀ x, Decision (P x)}
    `{∀ x y, Decision (R x y)} (l : list A) x l' :
  StronglySorted R l → filter P l = x :: l' →
  (∀ y, P y → T y) → (∀ y, y ∈ l → T y → R x y → P y) →
  filter (λ y, T y ∧ R x y) l = l'.
Proof.
  intros Hs. induction Hs as [|z l Hs IH Hz]; [done|]. intros Hf HPT Hup.
  rewrite filter_cons in Hf. rewrite Forall_forall in Hz. rewrite filter_cons.
  destruct (decide (P z)) as [HP|HP].
  - injection Hf as -> <-. rewrite decide_False by (intros [_ ?]; by eapply irreflexivity).
    apply filter_iff_in. intros y Hy. split.
    + intros [HT HR]. apply Hup; [by right|done|done].
    + intros HPy. split; [by apply HPT|by apply Hz].
  - assert (x ∈ l) as Hx.
    { apply (list_elem_of_filter P). rewrite Hf. by left. }
    rewrite decide_False.
    + apply IH; [done|done|]. intros y Hy. apply Hup. by right.
    + intros [_ HR]. assert (R x x) by (etrans; [done|by apply Hz]). by eapply irreflexivity.
Qed.
End sorted.

Section scan.
Context {db : Chainbase} {laws : ChainbaseLaws db}.
Context (f64_rank f128_rank : Z → Z).
Implicit Types (st : table_state) (c : container) (o : index_order).
Abbreviation entry := (position * row_key)%type.
Abbreviation entries' := (entries f64_rank f128_rank).
Abbreviation sort_key' := (sort_key f64_rank f128_rank).
Abbreviation first_from' := (first_from f64_rank f128_rank).
Abbreviation next' := (next f64_rank f128_rank).

Definition entry_lt (a b : entry) : Prop := pos_lt a.1 b.1 = true.
#[local] Instance entry_lt_dec : ∀ a b, Decision (entry_lt a b) := λ a b, bool_eq_dec _ _.

Lemma pos_lt_spec (a b : position) : pos_lt a b = true ↔
  a.1.1 < b.1.1 ∨ a.1.1 = b.1.1 ∧ (a.1.2 < b.1.2 ∨ a.1.2 = b.1.2 ∧ a.2 < b.2).
Proof. unfold pos_lt. destruct a as [[]], b as [[]]; simpl. lia. Qed.

#[local] Instance entry_lt_trans : Transitive entry_lt.
Proof. intros a b e. unfold entry_lt. rewrite !pos_lt_spec. lia. Qed.
#[local] Instance entry_lt_irrefl : Irreflexive entry_lt.
Proof. intros a. unfold complement, entry_lt. rewrite pos_lt_spec. lia. Qed.
#[local] Instance entry_le_trans : Transitive entry_le.
Proof. intros a b e. unfold entry_le. rewrite <- !not_true_iff_false, !pos_lt_spec. lia. Qed.
#[local] Instance entry_le_total : Total entry_le.
Proof. intros a b. unfold entry_le. rewrite <- !not_true_iff_false, !pos_lt_spec. lia. Qed.

(** The index lists the rows of its container once each, in order. *)
Lemma entries_NoDup st o c : NoDup (entries' st o c).*2.
Proof.
  unfold entries. rewrite merge_sort_Permutation. pose proof (NoDup_fst_map_to_list (rows st)) as Hnd.
  induction (map_to_list (rows st)) as [|[[c' k] r] l IH]; [constructor|].
  cbn [fmap list_fmap fst] in Hnd. apply NoDup_cons in Hnd as [Hni Hnd]. cbn [omap list_omap fst snd].
  destruct (decide (c' = c)) as [->|]; [|by apply IH]. cbn [fmap list_fmap snd].
  apply NoDup_cons. split; [|by apply IH]. intros ([p k'] & -> & Hin)%list_elem_of_fmap.
  apply list_elem_of_omap in Hin as ([[c'' k''] r'] & Hin & E). cbn [fst snd] in E.
  destruct (decide (c'' = c)) as [->|]; [|done]. injection E as _ ->.
  apply Hni, list_elem_of_fmap. by exists (c, k', r').
Qed.

Lemma entries_sorted st o c : StronglySorted entry_lt (entries' st o c).
Proof.
  pose proof (StronglySorted_merge_sort entry_le
    (omap (λ kr : container * row_key * row,
       if decide (kr.1.1 = c) then Some (sort_key' o c kr.1.2 kr.2, kr.1.2) else None)
       (map_to_list (rows st)))) as Hs. fold (entries' st o c) in Hs.
  pose proof (entries_NoDup st o c) as Hnd.
  assert (∀ e, e ∈ entries' st o c → e.1.1.1 = e.2.1 ∧ e.1.2 = e.2.2) as Hkey.
  { intros [p k] (r & _ & ->)%elem_of_entries. by destruct o, c. }
  induction Hs as [|e l Hs IH He]; constructor.
  - apply IH; [by inversion_clear Hnd|]. intros; apply Hkey; by right.
  - rewrite Forall_forall in *. intros e' He'. unfold entry_lt. specialize (He _ He').
    unfold entry_le in He. apply not_true_iff_false in He. rewrite pos_lt_spec in *.
    assert (e.2 ≠ e'.2) as Hne.
    { intros E. cbn in Hnd. apply NoDup_cons in Hnd as [Hni _]. apply Hni. rewrite E.
      apply list_elem_of_fmap. by exists e'. }
    destruct (Hkey e ltac:(by left)) as [E1 E2], (Hkey e' ltac:(by right)) as [E3 E4].
    destruct e as [p [t k]], e' as [p' [t' k']]. cbn [fst snd] in *.
    assert (t ≠ t' ∨ k ≠ k') by (destruct (decide (t = t')), (decide (k = k')); [congruence|auto..]). lia.
Qed.

(** ** One move *)

(** The rows of table [tid] that are not before a bound. *)
Definition rows_from (st : table_state) (o : index_order) (c : container) (tid : Z)
    (before : position → bool) : list entry :=
  filter (λ e, e.2.1 = tid ∧ before e.1 = false) (entries' st o c).

(** A bound of table [tid]: its rows from the bound on are next to each other. *)
Record bound_of (tid : Z) (before : position → bool) : Prop := {
  bound_table : ∀ p, before p = false → tid ≤ p.1.1;
  bound_up : ∀ p q, before p = false → pos_lt p q = true → before q = false }.

Lemma after_bound tid (here : position) : here.1.1 = tid → bound_of tid (λ p, negb (pos_lt here p)).
Proof.
  intros <-. split.
  - intros p. rewrite negb_false_iff, pos_lt_spec. lia.
  - intros p q. rewrite !negb_false_iff, !pos_lt_spec. lia.
Qed.

Lemma entry_table st o c e : e ∈ entries' st o c → e.1.1.1 = e.2.1.
Proof. destruct e as [p k]. intros (r & _ & ->)%elem_of_entries. by destruct o, c. Qed.

(** [first_from] gives the first of these rows, if there is one. *)
Lemma first_from_rows st o c tid before : bound_of tid before →
  match rows_from st o c tid before with
  | [] => ∀ k, first_from' st o c before = Some k → k.1 ≠ tid
  | e :: _ => first_from' st o c before = Some e.2
  end.
Proof.
  intros [Htab Hup]. unfold rows_from, first_from.
  pose proof (entries_sorted st o c) as Hs. pose proof (entry_table st o c) as Hkey.
  induction Hs as [|e l Hs IH He]; [done|]. rewrite filter_cons. cbn [List.find].
  destruct (before e.1) eqn:Hb; cbn [negb].
  - rewrite decide_False by naive_solver. apply IH. intros; apply Hkey; by right.
  - pose proof (Htab _ Hb) as Hle. destruct (decide (e.2.1 = tid)) as [Ht|Ht].
    + by rewrite decide_True.
    + rewrite decide_False by naive_solver.
      destruct (filter _ l) as [|e' l'] eqn:Hf.
      { intros k [= <-]. done. }
      assert (e' ∈ filter (λ e, e.2.1 = tid ∧ before e.1 = false) l) as Hin by (rewrite Hf; by left).
      apply list_elem_of_filter in Hin as [[Ht' _] Hin']. rewrite Forall_forall in He.
      specialize (He _ Hin'). unfold entry_lt in He. rewrite pos_lt_spec in He.
      rewrite (Hkey e), (Hkey e') in He by (by constructor). rewrite (Hkey e) in Hle by (by constructor). lia.
Qed.

(** A move lands on the first row of a list, or finds that there is none. *)
Definition lands (st : table_state) (c : container) (l : list entry)
    (r : Z * option Z * table_state) : Prop :=
  tables_base r.2 ∧ same_content st r.2 ∧
  match l with
  | [] => r.1.2 = None
  | e :: _ => r.1.2 = Some e.2.2 ∧ _object_to_iterator (cache_of r.2 c) !! e.2 = Some r.1.1
  end.

Lemma same_content_entries st st' o c : same_content st st' → entries' st' o c = entries' st o c.
Proof. intros (_ & _ & Er & _). unfold entries. by rewrite Er. Qed.

(** Both ways to an iterator: the row enters the cache, or there is none. *)
Lemma add_lands st c ic e l i ic' : tables_base st → cache_inv st c ic →
  is_Some (rows st !! (c, e.2)) → is_Some (_table_cache ic !! e.2.1) → cache_add ic e.2 = (i, ic') →
  lands st c (e :: l) (i, Some e.2.2, with_cache st c ic').
Proof.
  intros Hb Hic Hr Ht Ha. split; [by eapply add_row_inv|]. split; [done|]. cbn [fst snd]. split; [done|].
  rewrite cache_of_with, decide_True by done. by eapply cache_add_inv in Ha as (_ & ? & _).
Qed.

Lemma search_lands st o c code scope table tab find before : tables_base st →
  find_table st code scope table = Some tab → bound_of (t_id tab) before →
  find (t_id tab) = first_from' st o c before →
  lands st c (rows_from st o c (t_id tab) before) (search st c code scope table find).
Proof.
  intros Hb Htab Hbound Hfind. unfold search. rewrite Htab.
  destruct (cache_table _ _) as [ei ic] eqn:Hct.
  destruct (cache_table_inv st c _ _ _ _ (ti_cache _ Hb c) Hct) as (Hic & Htc & _).
  pose proof (first_from_rows st o c _ _ Hbound) as Hff. unfold iterator_to_row. rewrite Hfind.
  destruct (rows_from _ _ _ _ _) as [|e l] eqn:Hl.
  - assert (lands st c [] (ei, None, with_cache st c ic)) as Hn.
    { split; [by apply with_cache_inv|done]. }
    destruct (first_from' _ _ _ _) as [k|]; [|done].
    rewrite (proj2 (Z.eqb_neq _ _)); [done|by apply Hff].
  - rewrite Hff. assert (e ∈ rows_from st o c (t_id tab) before) as Hin by (rewrite Hl; by left).
    apply list_elem_of_filter in Hin as [[He _] _]. rewrite He, Z.eqb_refl.
    destruct (cache_add ic e.2) as [i ic'] eqn:Ha.
    eapply add_lands; [done|done|by eapply first_from_live|rewrite He; by exists ei|done].
Qed.

Lemma next_lands st o c i k r : tables_base st → get_object st c i = Ok (k, r) →
  ∃ found, next' st o c i = Ok found ∧
    lands st c (rows_from st o c k.1 (λ p, negb (pos_lt (sort_key' o c k r) p))) found.
Proof.
  intros Hb Ho. pose proof (ti_cache _ Hb c) as Hic. pose proof Ho as [Hk Hr]%get_object_Ok; [|done].
  destruct (ci_live _ _ _ Hic _ _ Hk) as [_ [ei Hei]].
  assert (0 ≤ i) as Hi by (by apply (ci_obj _ _ _ Hic) in Hk as [? _]).
  set (before := λ p, negb (pos_lt (sort_key' o c k r) p)).
  assert (bound_of k.1 before) as Hbound.
  { apply after_bound. by destruct o, c. }
  pose proof (first_from_rows st o c _ _ Hbound) as Hff.
  unfold next. rewrite (proj2 (Z.ltb_ge i (-1))) by lia. rewrite Ho. cbn [mbind result_bind]. fold before.
  unfold get_end_iterator_by_table_id. rewrite Hei. cbn [of_option mbind result_bind].
  destruct (rows_from _ _ _ _ _) as [|e l] eqn:Hl.
  - exists (ei, None, st). split; [|by split]. destruct (first_from' _ _ _ _) as [k'|]; [|done].
    rewrite (proj2 (Z.eqb_neq _ _)); [done|by apply Hff].
  - rewrite Hff. assert (e ∈ rows_from st o c k.1 before) as Hin by (rewrite Hl; by left).
    apply list_elem_of_filter in Hin as [[He _] _]. rewrite He, Z.eqb_refl.
    destruct (cache_add _ e.2) as [j ic'] eqn:Ha. eexists. split; [done|].
    eapply add_lands; [done|done|by eapply first_from_live|rewrite He; by exists ei|done].
Qed.

(** ** Scans *)
Fixpoint scan (fuel : nat) (o : index_order) (c : container) (found : Z * option Z * table_state) :
    result (list Z) :=
  match found.1.2 with
  | None => Ok []
  | Some primary =>
      match fuel with
      | O => Throw out_of_fuel
      | S fuel =>
          found ← next' found.2 o c found.1.1;
          rest ← scan fuel o c found;
          Ok (primary :: rest)
      end
  end.

Lemma scan_lands fuel o c tid before : ∀ st found, bound_of tid before →
  lands st c (rows_from st o c tid before) found → (length (rows_from st o c tid before) ≤ fuel)%nat →
  scan fuel o c found = Ok (rows_from st o c tid before).*2.*2.
Proof.
  revert before. induction fuel as [|fuel IH]; intros before st [[i p] st1] Hbound (Hb & Hs & Hl) Hlen;
    cbn [fst snd] in *; destruct (rows_from st o c tid before) as [|e l] eqn:E; try (cbn in Hlen; lia);
    cbn [scan fst snd].
  1,2: by rewrite Hl.
  destruct Hl as [-> Hobj]. pose proof (ti_cache _ Hb c) as Hic.
  assert (e ∈ rows_from st o c tid before) as Hin by (rewrite E; by left).
  apply list_elem_of_filter in Hin as [[He Hbe] Hin]. rewrite <- (same_content_entries _ _ _ _ Hs) in Hin.
  destruct e as [pe k]. cbn [fst snd] in *. apply elem_of_entries in Hin as (r & Hr & ->).
  destruct (next_lands st1 o c i k r Hb) as (found & Hn & Hlands); [by apply get_object_Ok|].
  rewrite Hn. cbn [mbind result_bind].
  set (after := λ q, negb (pos_lt (sort_key' o c k r) q)) in *.
  assert (rows_from st1 o c k.1 after = l) as El.
  { pose proof (filter_after entry_lt (λ e : entry, e.2.1 = tid)
      (λ e : entry, e.2.1 = tid ∧ before e.1 = false) (entries' st o c) _ l (entries_sorted st o c) E) as Hfa.
    unfold rows_from. rewrite (same_content_entries _ _ _ _ Hs), He. rewrite <- Hfa.
    - apply filter_iff_in. intros x _. unfold entry_lt, after. cbn [fst]. by rewrite negb_false_iff.
    - by intros y [? _].
    - intros y _ Hy Hlt. split; [done|]. by eapply (bound_up _ _ Hbound). }
  rewrite He in El, Hlands.
  rewrite (IH after st1 found); [by rewrite El| |done|].
  - apply after_bound. by destruct o, c.
  - rewrite El. cbn in Hlen. lia.
Qed.

Lemma rows_from_length st o c tid before : (length (rows_from st o c tid before) ≤ size (rows st))%nat.
Proof.
  unfold rows_from. etrans; [apply length_filter|]. unfold entries. rewrite merge_sort_Permutation.
  rewrite <- length_map_to_list. induction (map_to_list (rows st)) as [|x l IH]; [done|].
  cbn [omap list_omap]. destruct (decide _); cbn [length]; lia.
Qed.

Lemma fmap_sorted {A B} (R : relation A) (S : relation B) (f : A → B) (l : list A) :
  StronglySorted R l → (∀ x y, x ∈ l → y ∈ l → R x y → S (f x) (f y)) → StronglySorted S (f <$> l).
Proof.
  induction 1 as [|x l Hl IH Hx]; intros HS; cbn; constructor.
  - apply IH. intros. apply HS; [by right..|done].
  - apply Forall_fmap. rewrite Forall_forall in *. intros y Hy. apply HS; [by left|by right|by apply Hx].
Qed.

(** C31.  A scan by primary key from [db_lowerbound_i64] ends and returns the
    primary keys of the table that are not below the bound, each once and in
    ascending order. *)
Theorem scan_primary f64_is_nan f128_is_nan st0 st code scope table tab id fuel :
  no_tables st0 → rtc (api_step f64_rank f128_rank f64_is_nan f128_is_nan) st0 st →
  find_table st code scope table = Some tab → (size (rows st) ≤ fuel)%nat →
  ∃ keys, scan fuel by_primary key_value (db_lowerbound_i64 f64_rank f128_rank st code scope table id) = Ok keys ∧
    StronglySorted Z.lt keys ∧
    ∀ p, p ∈ keys ↔ id ≤ p ∧ is_Some (rows st !! (key_value, (t_id tab, p))).
Proof.
  intros H0 Hrtc Htab Hfuel. destruct (no_tables_base _ H0) as (Hb0 & _).
  destruct (api_steps_kept _ _ _ _ _ _ Hb0 Hrtc) as (Hb & _).
  set (before := λ p : position, pos_lt p (t_id tab, 0, id)).
  assert (bound_of (t_id tab) before) as Hbound.
  { split; unfold before; intros p; [|intros q]; rewrite <- !not_true_iff_false, !pos_lt_spec; cbn; lia. }
  assert (∀ e, e ∈ rows_from st by_primary key_value (t_id tab) before →
    e.1 = (t_id tab, 0, e.2.2) ∧ e.2.1 = t_id tab) as Hin.
  { intros [p k] [[Hk _] (r & _ & ->)%elem_of_entries]%list_elem_of_filter.
    cbn [fst snd sort_key] in *. by rewrite Hk. }
  eexists. split; [|split].
  - apply (scan_lands fuel by_primary key_value (t_id tab) before st); [done| |].
    + by apply (search_lands st by_primary key_value).
    + etrans; [apply rows_from_length|done].
  - rewrite <- list_fmap_compose. eapply fmap_sorted; [apply StronglySorted_filter, entries_sorted|].
    intros x y [Ex _]%Hin [Ey _]%Hin. unfold entry_lt. rewrite Ex, Ey, pos_lt_spec. cbn. lia.
  - intros p. rewrite <- list_fmap_compose, list_elem_of_fmap. split.
    + intros (e & -> & He). destruct (Hin _ He) as [Ee Et].
      apply list_elem_of_filter in He as [[_ Hbe] He]. destruct e as [q k]. cbn [fst snd] in *. subst q.
      apply elem_of_entries in He as (r & Hr & _). unfold before in Hbe.
      rewrite <- not_true_iff_false, pos_lt_spec in Hbe. cbn [fst snd compose] in *.
      split; [lia|]. exists r. by rewrite <- Et, <- surjective_pairing.
    + intros [Hle [r Hr]]. exists (t_id tab, 0, p, (t_id tab, p)). split; [done|].
      apply list_elem_of_filter. split; [|apply elem_of_entries; by exists r].
      split; [done|]. unfold before. rewrite <- not_true_iff_false, pos_lt_spec. cbn. lia.
Qed.

(** Rows in the order of a secondary index: by key, then by primary key. *)
Definition secondary_lt (a b : Z * Z) : Prop := a.1 < b.1 ∨ a.1 = b.1 ∧ a.2 < b.2.

(** C32.  A scan of a secondary index from [lowerbound_secondary] ends and
    returns the primary keys of the rows whose secondary key is not below the
    bound, each once, ordered by secondary key and then by primary key. *)
Theorem scan_secondary f64_is_nan f128_is_nan st0 st i code scope table tab value fuel :
  no_tables st0 → rtc (api_step f64_rank f128_rank f64_is_nan f128_is_nan) st0 st →
  find_table st code scope table = Some tab → (size (rows st) ≤ fuel)%nat →
  ∃ l : list (Z * Z),
    scan fuel by_secondary (secondary i)
      (lowerbound_secondary f64_rank f128_rank st i code scope table value) = Ok l.*2 ∧
    StronglySorted secondary_lt l ∧
    ∀ key p, (key, p) ∈ l ↔ rank f64_rank f128_rank i value ≤ key ∧
      ∃ r, rows st !! (secondary i, (t_id tab, p)) = Some r ∧ key = rank f64_rank f128_rank i (payload r).
Proof.
  intros H0 Hrtc Htab Hfuel. destruct (no_tables_base _ H0) as (Hb0 & _).
  destruct (api_steps_kept _ _ _ _ _ _ Hb0 Hrtc) as (Hb & _).
  set (v := rank f64_rank f128_rank i value).
  set (before := λ p : position, pos_lt (p.1, 0) (t_id tab, v, 0)).
  assert (bound_of (t_id tab) before) as Hbound.
  { split; unfold before; intros p; [|intros q]; rewrite <- !not_true_iff_false, !pos_lt_spec; cbn; lia. }
  set (L := rows_from st by_secondary (secondary i) (t_id tab) before).
  assert (∀ e, e ∈ L → e.1 = (t_id tab, e.1.1.2, e.2.2) ∧ e.2.1 = t_id tab) as Hin.
  { intros [p k] [[Hk _] (r & _ & ->)%elem_of_entries]%list_elem_of_filter.
    cbn [fst snd sort_key] in *. by rewrite Hk. }
  exists ((λ e : entry, (e.1.1.2, e.2.2)) <$> L). split; [|split].
  - rewrite <- list_fmap_compose. change (snd ∘ _) with ((@snd Z Z) ∘ (@snd position row_key)).
    rewrite list_fmap_compose. apply (scan_lands fuel _ _ (t_id tab) before st); [done| |].
    + by apply (search_lands st by_secondary (secondary i)).
    + etrans; [apply rows_from_length|done].
  - eapply fmap_sorted; [apply StronglySorted_filter, entries_sorted|].
    intros x y [Ex _]%Hin [Ey _]%Hin. unfold entry_lt. rewrite Ex, Ey, pos_lt_spec.
    unfold secondary_lt. cbn. lia.
  - intros key p. rewrite list_elem_of_fmap. split.
    + intros (e & [= -> ->] & He). destruct (Hin _ He) as [Ee Et].
      apply list_elem_of_filter in He as [[_ Hbe] He]. destruct e as [q k]. cbn [fst snd] in *.
      apply elem_of_entries in He as (r & Hr & ->). unfold before in Hbe.
      rewrite <- not_true_iff_false, pos_lt_spec in Hbe. cbn [fst snd sort_key] in *.
      split; [lia|]. exists r. by rewrite <- Et, <- surjective_pairing.
    + intros [Hle (r & Hr & ->)]. exists (t_id tab, rank f64_rank f128_rank i (payload r), p, (t_id tab, p)).
      split; [done|]. apply list_elem_of_filter. split; [|apply elem_of_entries; by exists r].
      split; [done|]. unfold before. rewrite <- not_true_iff_false, pos_lt_spec. cbn. lia.
Qed.
End scan.

(** ** A table with three rows, stored out of order *)
Definition scan_calls : list db_call :=
  [call_store_i64 5 7 5 9 [1]; call_store_i64 5 7 5 2 []; call_store_i64 5 7 5 4 [2; 3];
   call_idx_store idx64 5 7 5 2 [30]; call_idx_store idx64 5 7 5 4 [10]; call_idx_store idx64 5 7 5 9 [30]].
Definition scan_state : table_state := default empty_tables (demo_fit scan_calls).

Lemma scan_primary_witness :
  (∃ keys, scan id id 6 by_primary key_value (db_lowerbound_i64 id id scan_state 5 5 7 3) = Ok keys ∧
    StronglySorted Z.lt keys ∧
    ∀ p, p ∈ keys ↔ 3 ≤ p ∧ is_Some (rows scan_state !! (key_value, (0, p)))) ∧
  scan id id 6 by_primary key_value (db_lowerbound_i64 id id scan_state 5 5 7 3) = Ok [4; 9].
Proof.
  split; [|vm_compute; reflexivity].
  refine (scan_primary id id (λ _, false) (λ _, false) empty_tables scan_state 5 5 7
    (mk_table 0 5 6) 3 6 demo_no_tables (demo_reachable scan_calls) _ _); [vm_compute; reflexivity|].
  vm_compute. lia.
Defined.

Lemma scan_secondary_witness :
  (∃ l : list (Z * Z),
    scan id id 6 by_secondary (secondary idx64)
      (lowerbound_secondary id id scan_state idx64 5 5 7 [5]) = Ok l.*2 ∧
    StronglySorted secondary_lt l ∧
    ∀ key p, (key, p) ∈ l ↔ 5 ≤ key ∧
      ∃ r, rows scan_state !! (secondary idx64, (0, p)) = Some r ∧ key = rank id id idx64 (payload r)) ∧
  scan id id 6 by_secondary (secondary idx64)
    (lowerbound_secondary id id scan_state idx64 5 5 7 [5]) = Ok [4; 2; 9].
Proof.
  split; [|vm_compute; reflexivity].
  refine (scan_secondary id id (λ _, false) (λ _, false) empty_tables scan_state idx64 5 5 7
    (mk_table 0 5 6) [5] 6 demo_no_tables (demo_reachable scan_calls) _ _); [vm_compute; reflexivity|].
  vm_compute. lia.
Defined.
