(* ===== verification/AccessLists.v ===== *)
(** * White and black lists ([controller.cpp])

    The lists that a node's configuration gives for actors, contracts, actions
    and keys, and the checks a producing node makes against them.  A
    [flat_set] is a list in strictly ascending order; the actors of a
    transaction are compared with a list by a merge that relies on the order
    of both. *)

From stdpp Require Import sorting.
From S2P Require Import Prelude.
Local Open Scope Z_scope.

Record access_lists := {
  actor_whitelist : list Z; actor_blacklist : list Z;
  contract_whitelist : gset Z; contract_blacklist : gset Z;
  action_blacklist : gset (Z * Z); key_blacklist : gset Z;
  sender_bypass_whiteblacklist : gset Z }.

(** [std::lower_bound], as the rest of the range. *)
Fixpoint lower_bound_from (l : list Z) (a : Z) : list Z :=
  match l with
  | [] => []
  | x :: l' => if x <? a then lower_bound_from l' a else l
  end.

Fixpoint subset_loop (lower_bound actors : list Z) : bool :=
  match actors with
  | [] => true
  | actor :: actors =>
      match lower_bound_from lower_bound actor with
      | x :: rest => if negb (x =? actor) then false else subset_loop rest actors
      | [] => false
      end
  end.

Fixpoint intersects_loop (lower_bound actors : list Z) : bool :=
  match actors with
  | [] => false
  | actor :: actors =>
      match lower_bound_from lower_bound actor with
      | [] => false
      | x :: rest => if x =? actor then true else intersects_loop (x :: rest) actors
      end
  end.

(** [*s.cbegin()] and [*s.crbegin()] of a set that is not empty. *)
Definition first_of (l : list Z) : Z := default 0 (head l).
Definition last_of (l : list Z) : Z := default 0 (last l).

Definition check_actor_list (conf : access_lists) (actors : list Z) : result unit :=
  match actors with
  | [] => Ok tt
  | _ =>
      match actor_whitelist conf, actor_blacklist conf with
      | (_ :: _) as whitelist, _ =>
          let is_subset :=
            if (first_of whitelist <=? first_of actors) && (last_of actors <=? last_of whitelist)
            then subset_loop whitelist actors else false in
          EOS_ASSERT is_subset actor_whitelist_exception
      | [], (_ :: _) as blacklist =>
          let intersects :=
            if (first_of actors <=? last_of blacklist) && (first_of blacklist <=? last_of actors)
            then intersects_loop blacklist actors else false in
          EOS_ASSERT (negb intersects) actor_blacklist_exception
      | [], [] => Ok tt
      end
  end.

Definition check_contract_list (conf : access_lists) (code : Z) : result unit :=
  if negb (bool_decide (contract_whitelist conf = ∅))
  then EOS_ASSERT (bool_decide (code ∈ contract_whitelist conf)) contract_whitelist_exception
  else if negb (bool_decide (contract_blacklist conf = ∅))
  then EOS_ASSERT (bool_decide (code ∉ contract_blacklist conf)) contract_blacklist_exception
  else Ok tt.

Definition check_action_list (conf : access_lists) (code action : Z) : result unit :=
  if negb (bool_decide (action_blacklist conf = ∅))
  then EOS_ASSERT (bool_decide ((code, action) ∉ action_blacklist conf)) action_blacklist_exception
  else Ok tt.

Definition check_key_list (conf : access_lists) (key : Z) : result unit :=
  if negb (bool_decide (key_blacklist conf = ∅))
  then EOS_ASSERT (bool_decide (key ∉ key_blacklist conf)) key_blacklist_exception
  else Ok tt.

Definition sender_avoids_whitelist_blacklist_enforcement (conf : access_lists) (sender : Z) : bool :=
  bool_decide (sender ∈ sender_bypass_whiteblacklist conf).

(** ** The merges decide inclusion and intersection *)
Abbreviation ascending := (StronglySorted Z.lt).

Lemma lower_bound_from_spec l a : ascending l →
  ascending (lower_bound_from l a) ∧ (∀ x, x ∈ lower_bound_from l a ↔ x ∈ l ∧ a ≤ x) ∧
  (a ∈ l → ∃ r, lower_bound_from l a = a :: r).
Proof.
  induction 1 as [|x l Hl (IH1 & IH2 & IH3) Hx]; cbn [lower_bound_from].
  { split_and!; [constructor|set_solver|set_solver]. }
  rewrite Forall_forall in Hx. destruct (Z.ltb_spec x a) as [Hlt|Hge].
  - split_and!; [done| |].
    + intros y. rewrite IH2, elem_of_cons. split; [tauto|]. intros [[->|Hy] Hay]; [lia|done].
    + intros [->|Ha]%elem_of_cons; [lia|auto].
  - split_and!.
    + constructor; [done|by apply Forall_forall].
    + intros y. rewrite elem_of_cons. split; [|tauto]. intros [->|Hy]; [auto|]. specialize (Hx y Hy).
      split; [auto|lia].
    + intros [->|Ha]%elem_of_cons; [by exists l|]. specialize (Hx a Ha). lia.
Qed.

Lemma subset_loop_spec actors : ∀ l, ascending l → ascending actors →
  subset_loop l actors = true ↔ ∀ a, a ∈ actors → a ∈ l.
Proof.
  induction actors as [|a actors IH]; intros l Hl Ha; cbn [subset_loop]; [set_solver|].
  apply StronglySorted_inv in Ha as [Ha Hall]. rewrite Forall_forall in Hall.
  destruct (lower_bound_from_spec l a Hl) as (Hs & Hin & Hhd).
  destruct (lower_bound_from l a) as [|x rest] eqn:E.
  - split; [done|]. intros H. destruct (Hhd (H a ltac:(left))) as [r [=]].
  - destruct (Z.eqb_spec x a) as [->|Hne]; cbn [negb].
    + apply StronglySorted_inv in Hs as [Hs Hrest]. rewrite IH by done. split.
      * intros H y [->|Hy]%elem_of_cons; [|apply H in Hy]; apply Hin; [by left|by right].
      * intros H y Hy. specialize (Hall y Hy). assert (y ∈ a :: rest) as [->|?]%elem_of_cons; [|lia|done].
        apply Hin. split; [apply H; by right|lia].
    + split; [done|]. intros H. destruct (Hhd (H a ltac:(left))) as [r [= -> _]]. done.
Qed.

Lemma intersects_loop_spec actors : ∀ l, ascending l → ascending actors →
  intersects_loop l actors = true ↔ ∃ a, a ∈ actors ∧ a ∈ l.
Proof.
  induction actors as [|a actors IH]; intros l Hl Ha; cbn [intersects_loop]; [set_solver|].
  apply StronglySorted_inv in Ha as [Ha Hall]. rewrite Forall_forall in Hall.
  destruct (lower_bound_from_spec l a Hl) as (Hs & Hin & Hhd).
  destruct (lower_bound_from l a) as [|x rest] eqn:E.
  - split; [done|]. intros (y & [->|Hy]%elem_of_cons & Hyl); [by destruct (Hhd Hyl)|].
    assert (y ∈ []) as []%not_elem_of_nil. apply Hin. split; [done|]. specialize (Hall y Hy). lia.
  - destruct (Z.eqb_spec x a) as [->|Hne].
    + split; [|done]. intros _. exists a. split; [left|]. by apply Hin; left.
    + rewrite IH by done. split.
      * intros (y & Hy & Hyl%Hin). exists y. split; [by right|tauto].
      * intros (y & [->|Hy]%elem_of_cons & Hyl); [by destruct (Hhd Hyl) as [r [= -> _]]|].
        exists y. split; [done|]. apply Hin. split; [done|]. specialize (Hall y Hy). lia.
Qed.

Lemma ascending_bounds l x : ascending l → x ∈ l → first_of l ≤ x ≤ last_of l.
Proof.
  intros Hs. unfold first_of, last_of. induction Hs as [|y l Hl IH Hy]; [by intros ?%not_elem_of_nil|].
  rewrite Forall_forall in Hy. cbn [head default]. rewrite last_cons.
  intros [->|Hx]%elem_of_cons.
  - destruct (last l) as [z|] eqn:E; cbn; [|lia]. apply last_Some_elem_of in E. specialize (Hy z E). lia.
  - specialize (Hy x Hx). destruct (last l) as [z|] eqn:E; cbn.
    + specialize (IH Hx). cbn in IH. lia.
    + apply last_None in E. subst l. by apply not_elem_of_nil in Hx.
Qed.

Lemma last_of_elem l : l ≠ [] → last_of l ∈ l.
Proof.
  intros Hne. unfold last_of. destruct (last l) as [z|] eqn:E; [by apply last_Some_elem_of|].
  by apply last_None in E.
Qed.

(** The comparison of the extents is only a shortcut. *)
Lemma subset_extents whitelist a actors : ascending whitelist → ascending (a :: actors) →
  (if (first_of whitelist <=? first_of (a :: actors)) && (last_of (a :: actors) <=? last_of whitelist)
   then subset_loop whitelist (a :: actors) else false) =
  forallb (λ a, bool_decide (a ∈ whitelist)) (a :: actors).
Proof.
  intros Hw Ha. apply eq_true_iff_eq. rewrite forallb_forall.
  setoid_rewrite <- list_elem_of_In. setoid_rewrite bool_decide_eq_true.
  rewrite <- (subset_loop_spec (a :: actors) whitelist Hw Ha).
  destruct (_ && _) eqn:E; [done|]. split; [done|]. intros H.
  rewrite (subset_loop_spec (a :: actors) whitelist Hw Ha) in H.
  pose proof (ascending_bounds whitelist a Hw (H a ltac:(left))).
  pose proof (ascending_bounds whitelist _ Hw (H _ (last_of_elem (a :: actors) ltac:(done)))).
  change (first_of (a :: actors)) with a in E. lia.
Qed.

Lemma intersects_extents blacklist a actors : ascending blacklist → ascending (a :: actors) →
  negb (if (first_of (a :: actors) <=? last_of blacklist) && (first_of blacklist <=? last_of (a :: actors))
   then intersects_loop blacklist (a :: actors) else false) =
  forallb (λ a, bool_decide (a ∉ blacklist)) (a :: actors).
Proof.
  intros Hb Ha. apply eq_true_iff_eq. rewrite forallb_forall, negb_true_iff, <- not_true_iff_false.
  setoid_rewrite <- list_elem_of_In. setoid_rewrite bool_decide_eq_true.
  destruct (_ && _) eqn:E.
  - rewrite (intersects_loop_spec (a :: actors) blacklist Hb Ha). naive_solver.
  - split; [|done]. intros _ x Hx Hin. pose proof (ascending_bounds _ _ Hb Hin).
    pose proof (ascending_bounds _ _ Ha Hx). lia.
Qed.

(** What is to be checked. *)
Definition check_actors (conf : access_lists) (actors : list Z) : result unit :=
  match actor_whitelist conf with
  | [] => EOS_ASSERT (forallb (λ a, bool_decide (a ∉ actor_blacklist conf)) actors) actor_blacklist_exception
  | _ => EOS_ASSERT (forallb (λ a, bool_decide (a ∈ actor_whitelist conf)) actors) actor_whitelist_exception
  end.

(** The merge of sorted lists, with its comparison of extents, does what it
    says: with a whitelist all actors have to be on it, without one none may be
    on the blacklist, and the exceptions tell which. *)
Theorem check_actor_list_exact conf actors :
  ascending (actor_whitelist conf) → ascending (actor_blacklist conf) → ascending actors →
  check_actor_list conf actors = check_actors conf actors.
Proof.
  intros Hw Hb Ha. unfold check_actor_list, check_actors. destruct actors as [|a actors].
  { by destruct (actor_whitelist conf). }
  destruct (actor_whitelist conf) as [|w ws] eqn:Ew.
  - destruct (actor_blacklist conf) as [|b bs] eqn:Eb.
    + assert (forallb (λ a, bool_decide (a ∉ @nil Z)) (a :: actors) = true) as ->; [|done].
      apply forallb_forall. intros x _. by apply bool_decide_eq_true, not_elem_of_nil.
    + cbv zeta. rewrite (intersects_extents (b :: bs) a actors Hb Ha). done.
  - cbv zeta. rewrite (subset_extents (w :: ws) a actors Hw Ha). done.
Qed.

Definition demo_lists : access_lists := {|
  actor_whitelist := []; actor_blacklist := [3; 7; 20];
  contract_whitelist := ∅; contract_blacklist := ∅; action_blacklist := ∅; key_blacklist := ∅;
  sender_bypass_whiteblacklist := ∅ |}.

Lemma check_actor_list_exact_witness :
  check_actor_list demo_lists [1; 7] = check_actors demo_lists [1; 7] ∧
  check_actor_list demo_lists [1; 7] = Throw actor_blacklist_exception ∧
  check_actor_list demo_lists [1; 8] = Ok tt.
Proof.
  split; [|split; reflexivity].
  apply (check_actor_list_exact demo_lists [1; 7]); repeat constructor.
Defined.
