(* ===== verification/TransactionContext.v ===== *)
(** * Limits and billing of a transaction ([transaction_context.cpp])

    What [init] allows a transaction to use, the checks while it runs, and what
    [finalize] bills.  The context is split into the part for network bytes,
    the part for processor time and the part for fees; clock readings and the
    flag of the deadline timer, which a signal handler sets, are arguments. *)

From S2P Require Import Prelude Chainbase Names Assets Config ChainConfig ConfigOnChain TxFee Accumulator.
From S2P Require Import ResourceLimits ControllerLists Authority Permissions Merkle BlockHeader Transaction.
Local Open Scope Z_scope.

(** ** State *)

(** The exception codes that a deadline can stand for. *)
Inductive timeout_code := code_block_cpu | code_tx_cpu | code_leeway | code_deadline.

Record net_state := mk_net {
  net_limit : Z; net_limit_due_to_block : bool; net_limit_due_to_greylist : bool;
  eager_net_limit : Z; trx_net_usage : Z }.

Record cpu_state := mk_cpu {
  cpu_limit_due_to_greylist : bool;
  objective_duration_limit : Z; deadline_point : Z;
  deadline_exception_code : timeout_code; billing_timer_exception_code : timeout_code;
  pseudo_start : Z; billed_time : Z; billing_timer_duration_limit : Z;
  billed_cpu_time_us : Z }.

Record fee_state := mk_fee {
  fee_payer : Z; fee_costed : asset; max_fee_to_pay : asset;
  cpu_limit_by_contract : Z; net_limit_by_contract : Z; use_limit_by_contract : bool }.

(** What the caller sets before [init]. *)
Record trx_setup := {
  start : Z; deadline : Z; leeway : Z; explicit_billed_cpu_time : bool; is_input : bool }.

Record transaction_context := mk_context {
  setup : trx_setup; net : net_state; cpu : cpu_state; fees : fee_state;
  bill_to_accounts : gset Z; is_initialized : bool }.

(** What the context reads of the controller. *)
Record trx_env := {
  cfg : chain_config;
  skip_trx_checks : bool;
  producing_block : bool;
  resource_greylisted : Z → bool;
  only_bill_first_authorizer : bool;
  pending_slot : Z }.

(** The values of the constructor and of the member initializers. *)
Definition initial_net : net_state := mk_net 0 true false 0 0.
Definition initial_cpu (start billed : Z) : cpu_state :=
  mk_cpu false 0 s64_max code_block_cpu code_block_cpu start 0 0 billed.
Definition initial_fee : fee_state := mk_fee 0 asset_zero asset_zero 0 0 false.
Definition new_transaction_context (s : trx_setup) (billed : Z) : transaction_context :=
  mk_context s initial_net (initial_cpu (start s) billed) initial_fee ∅ false.

Definition with_net (c : transaction_context) n :=
  mk_context (setup c) n (cpu c) (fees c) (bill_to_accounts c) (is_initialized c).
Definition with_cpu (c : transaction_context) p :=
  mk_context (setup c) (net c) p (fees c) (bill_to_accounts c) (is_initialized c).
Definition with_fees (c : transaction_context) f :=
  mk_context (setup c) (net c) (cpu c) f (bill_to_accounts c) (is_initialized c).

Definition timeout_exn (c : timeout_code) (greylist : bool) : exn :=
  match c with
  | code_block_cpu => block_cpu_usage_exceeded
  | code_tx_cpu => if greylist then greylist_cpu_usage_exceeded else tx_cpu_usage_exceeded
  | code_leeway => leeway_deadline_exception
  | code_deadline => deadline_exception
  end.
Definition is_code_deadline (c : timeout_code) : bool :=
  match c with code_deadline => true | _ => false end.
Definition is_code_block_cpu (c : timeout_code) : bool :=
  match c with code_block_cpu => true | _ => false end.

Section context.
Context {db : Chainbase}.
Implicit Types (env : trx_env) (c : transaction_context).

(** ** Checks while the transaction runs *)
Definition check_net_usage env (n : net_state) : result unit :=
  if negb (skip_trx_checks env) && (eager_net_limit n <? trx_net_usage n) then
    if net_limit_due_to_block n then Throw block_net_usage_exceeded
    else if net_limit_due_to_greylist n then Throw greylist_net_usage_exceeded
    else Throw tx_net_usage_exceeded
  else Ok tt.

Definition add_net_usage env (n : net_state) (u : Z) : result net_state :=
  let n := mk_net (net_limit n) (net_limit_due_to_block n) (net_limit_due_to_greylist n)
             (eager_net_limit n) (u64 (trx_net_usage n + u)) in
  _ ← check_net_usage env n; Ok n.

Definition checktime (s : trx_setup) (p : cpu_state) (expired : bool) (now : Z) : result unit :=
  if negb expired then Ok tt
  else if deadline_point p <? now then
    if explicit_billed_cpu_time s || is_code_deadline (deadline_exception_code p)
    then Throw deadline_exception
    else Throw (timeout_exn (deadline_exception_code p) (cpu_limit_due_to_greylist p))
  else Ok tt.

(** [fc::time_point()] is the epoch. *)
Definition pause_billing_timer (s : trx_setup) (p : cpu_state) (now : Z) : result cpu_state :=
  if explicit_billed_cpu_time s || (pseudo_start p =? 0) then Ok p else
  billed ← int64_op (now - pseudo_start p);
  Ok (mk_cpu (cpu_limit_due_to_greylist p) (objective_duration_limit p) (deadline_point p)
        code_deadline (billing_timer_exception_code p) 0 billed
        (billing_timer_duration_limit p) (billed_cpu_time_us p)).

Definition resume_billing_timer (s : trx_setup) (p : cpu_state) (now : Z) : result cpu_state :=
  if explicit_billed_cpu_time s || negb (pseudo_start p =? 0) then Ok p else
  pseudo ← int64_op (now - billed_time p);
  end_ ← int64_op (pseudo + billing_timer_duration_limit p);
  let '(dl, code) := if end_ <=? deadline s then (end_, billing_timer_exception_code p)
                     else (deadline s, code_deadline) in
  Ok (mk_cpu (cpu_limit_due_to_greylist p) (objective_duration_limit p) dl code
        (billing_timer_exception_code p) pseudo (billed_time p)
        (billing_timer_duration_limit p) (billed_cpu_time_us p)).

Definition validate_cpu_usage_to_bill env (p : cpu_state) (billed_us : Z) (check_minimum : bool) :
    result unit :=
  if skip_trx_checks env then Ok tt else
  _ ← (if check_minimum
       then EOS_ASSERT (min_transaction_cpu_usage (cfg env) <=? billed_us) transaction_exception
       else Ok tt);
  EOS_ASSERT (billed_us <=? objective_duration_limit p)
    (if is_code_block_cpu (billing_timer_exception_code p) then block_cpu_usage_exceeded
     else if cpu_limit_due_to_greylist p then greylist_cpu_usage_exceeded
     else tx_cpu_usage_exceeded).

Definition update_billed_cpu_time env (s : trx_setup) (p : cpu_state) (now : Z) : result cpu_state :=
  if explicit_billed_cpu_time s then Ok p else
  elapsed ← int64_op (now - pseudo_start p);
  Ok (mk_cpu (cpu_limit_due_to_greylist p) (objective_duration_limit p) (deadline_point p)
        (deadline_exception_code p) (billing_timer_exception_code p) (pseudo_start p)
        (billed_time p) (billing_timer_duration_limit p)
        (Z.max elapsed (min_transaction_cpu_usage (cfg env)))).

(** ** What the accounts can pay *)
Definition large_number_no_overflow : Z := s64_max / 2.

Definition can_pay_step env (d : resource_db) (acc : Z * Z * bool * bool) (a : Z) :
    result (Z * Z * bool * bool) :=
  let '(account_net_limit, account_cpu_limit, greylisted_net, greylisted_cpu) := acc in
  let elastic := negb (producing_block env && resource_greylisted env a) in
  n ← get_account_net_limit d a elastic;
  let '(account_net_limit, greylisted_net) :=
    if 0 <=? n then (Z.min account_net_limit n, greylisted_net || negb elastic)
    else (account_net_limit, greylisted_net) in
  p ← get_account_cpu_limit d a elastic;
  let '(account_cpu_limit, greylisted_cpu) :=
    if 0 <=? p then (Z.min account_cpu_limit p, greylisted_cpu || negb elastic)
    else (account_cpu_limit, greylisted_cpu) in
  Ok (account_net_limit, account_cpu_limit, greylisted_net, greylisted_cpu).

Definition max_bandwidth_billed_accounts_can_pay env (d : resource_db) (accounts : gset Z) :
    result (Z * Z * bool * bool) :=
  fold_res (can_pay_step env d)
    (large_number_no_overflow, large_number_no_overflow, false, false) (flat_set_elements accounts).

(** ** [init] *)

(** A lower limit, which then is not the block's. *)
Definition lower_net_limit (n : net_state) (limit : Z) : net_state :=
  if limit <=? net_limit n
  then mk_net limit false (net_limit_due_to_greylist n) (eager_net_limit n) (trx_net_usage n)
  else n.
Definition lower_duration (s : trx_setup) (p : cpu_state) (limit : Z) : result cpu_state :=
  if limit <=? objective_duration_limit p then
    dl ← int64_op (start s + limit);
    Ok (mk_cpu (cpu_limit_due_to_greylist p) limit dl (deadline_exception_code p) code_tx_cpu
          (pseudo_start p) (billed_time p) (billing_timer_duration_limit p) (billed_cpu_time_us p))
  else Ok p.

Definition accounts_to_bill env (t : transaction) : gset Z :=
  if only_bill_first_authorizer env then {[ first_authorizer t ]}
  else list_to_set (a ← actions t; actor <$> a_authorization a).

(** The objective limits: block, configuration, transaction header. *)
Definition objective_limits env (d : resource_db) (c : transaction_context) (t : transaction) :
    result (net_state * cpu_state) :=
  let s := setup c in
  let n := net c in
  let p := cpu c in
  let n := mk_net (get_block_net_limit d) (net_limit_due_to_block n) (net_limit_due_to_greylist n)
             (eager_net_limit n) (trx_net_usage n) in
  let duration := s64 (get_block_cpu_limit d) in
  dl ← int64_op (start s + duration);
  let p := mk_cpu (cpu_limit_due_to_greylist p) duration dl (deadline_exception_code p)
             (billing_timer_exception_code p) (pseudo_start p) (billed_time p)
             (billing_timer_duration_limit p) (billed_cpu_time_us p) in
  let n := lower_net_limit n (max_transaction_net_usage (cfg env)) in
  p ← lower_duration s p (max_transaction_cpu_usage (cfg env));
  let words := max_net_usage_words (trx_header t) * 8 in
  let n := if 0 <? words then lower_net_limit n words else n in
  p ← (if 0 <? max_cpu_usage_ms (trx_header t)
       then lower_duration s p (max_cpu_usage_ms (trx_header t) * 1000) else Ok p);
  Ok (n, p).

(** The limits that follow from what the accounts can pay, with some leeway. *)
Definition eager_limits env (s : trx_setup) (n : net_state) (p : cpu_state)
    (can_pay : Z * Z * bool * bool) : result (net_state * cpu_state) :=
  let '(account_net_limit, account_cpu_limit, greylisted_net, greylisted_cpu) := can_pay in
  let greylist := net_limit_due_to_greylist n || greylisted_net in
  let new_eager := Z.min (net_limit n) (u64 (account_net_limit + net_usage_leeway (cfg env))) in
  let '(eager, due_to_block) :=
    if new_eager <? net_limit n then (new_eager, false) else (net_limit n, net_limit_due_to_block n) in
  let n := mk_net (net_limit n) due_to_block greylist (eager / 8 * 8) (trx_net_usage n) in
  with_leeway ← int64_op (account_cpu_limit + leeway s);
  left ← int64_op (deadline_point p - start s);
  '(dl, billing_code) ←
    (if with_leeway <=? left then
       dl ← int64_op (start s + account_cpu_limit); dl ← int64_op (dl + leeway s); Ok (dl, code_leeway)
     else Ok (deadline_point p, billing_timer_exception_code p));
  duration ← int64_op (dl - start s);
  let '(dl, code) := if explicit_billed_cpu_time s || (deadline s <? dl)
                     then (deadline s, code_deadline) else (dl, billing_code) in
  Ok (n, mk_cpu (cpu_limit_due_to_greylist p || greylisted_cpu) (objective_duration_limit p) dl
           code billing_code (pseudo_start p) (billed_time p) duration (billed_cpu_time_us p)).

Definition init env (d : resource_db) c (t : transaction) (initial_net_usage : Z)
    (expired : bool) (now : Z) : result (transaction_context * resource_db) :=
  _ ← EOS_ASSERT (negb (is_initialized c)) transaction_exception;
  '(n, p) ← objective_limits env d c t;
  _ ← (if 0 <? billed_cpu_time_us p
       then validate_cpu_usage_to_bill env p (billed_cpu_time_us p) false else Ok tt);
  let accounts := bill_to_accounts c ∪ accounts_to_bill env t in
  d ← update_account_usage d (flat_set_elements accounts) (pending_slot env);
  can_pay ← max_bandwidth_billed_accounts_can_pay env d accounts;
  '(n, p) ← eager_limits env (setup c) n p can_pay;
  n ← (if 0 <? initial_net_usage then add_net_usage env n initial_net_usage else Ok n);
  _ ← checktime (setup c) p expired now;
  Ok (mk_context (setup c) n p (fees c) accounts true, d).

(** The net usage an input transaction starts with. *)
Definition discounted_size (cfg : chain_config) (prunable : Z) : Z :=
  if (0 <? context_free_discount_net_usage_den cfg)
     && (context_free_discount_net_usage_num cfg <? context_free_discount_net_usage_den cfg)
  then u64 (u64 (prunable * context_free_discount_net_usage_num cfg)
            + context_free_discount_net_usage_den cfg - 1) / context_free_discount_net_usage_den cfg
  else prunable.
Definition initial_net_usage (cfg : chain_config) (unprunable prunable delay_sec : Z) : Z :=
  let base := u64 (base_per_transaction_net_usage cfg + unprunable + discounted_size cfg prunable) in
  if 0 <? delay_sec
  then u64 (base + base_per_transaction_net_usage cfg + transaction_id_net_usage) else base.

(** ** Fees *)

(** [set_fee_ctx]; the source indexes [trx.actions[0]]. *)
Definition set_fee_ctx (f : fee_state) (t : transaction) (fee_limit : asset) : result fee_state :=
  a ← of_option undefined_behaviour (head (actions t));
  l ← of_option transaction_exception (head (a_authorization a));
  _ ← EOS_ASSERT (negb (actor l =? 0)) transaction_exception;
  Ok (mk_fee (actor l) (fee_costed f) fee_limit (cpu_limit_by_contract f)
        (net_limit_by_contract f) (use_limit_by_contract f)).

Definition add_limit_by_fee (configs : config_index) (fee_db : gmap fee_key action_fee_object)
    (f : fee_state) (act : action) : result fee_state :=
  match db_find fee_db (a_account act, a_name act) with
  | None => Ok f
  | Some info =>
      '(cpu_limit_by_act, net_limit_by_act) ←
        (if (0 <? cpu_limit info) || (0 <? TxFee.net_limit info)
         then Ok (cpu_limit info, TxFee.net_limit info)
         else
           let m := Z.quot (amount (af_fee info)) 100 in
           p ← int64_op (m * get_num_config_on_chain configs cpu_per_fee 200);
           n ← int64_op (m * get_num_config_on_chain configs net_per_fee 512);
           Ok (u64 p, u64 n));
      Ok (mk_fee (fee_payer f) (fee_costed f) (max_fee_to_pay f)
            (u64 (cpu_limit_by_contract f + cpu_limit_by_act))
            (u64 (net_limit_by_contract f + net_limit_by_act)) true)
  end.

Definition process_fee_cost (configs : config_index) (fee_db : gmap fee_key action_fee_object)
    (native : fee_map) (f : fee_state) (act : action) : result fee_state :=
  if negb (fee_payer f =? 0)
     && (negb (a_account act =? token_account_name) || negb (a_name act =? fee_name))
  then
    fee ← get_required_fee fee_db native (a_account act) (a_name act);
    costed ← asset_add_assign (fee_costed f) fee;
    add_limit_by_fee configs fee_db
      (mk_fee (fee_payer f) costed (max_fee_to_pay f) (cpu_limit_by_contract f)
         (net_limit_by_contract f) (use_limit_by_contract f)) act
  else Ok f.

(** The check at the head of [schedule_fee_action]. *)
Definition check_fee_limit (f : fee_state) : result unit :=
  if asset_eq (max_fee_to_pay f) asset_zero then Ok tt else
  ok ← asset_le (fee_costed f) (max_fee_to_pay f);
  EOS_ASSERT ok transaction_exception.

(** ** [finalize] *)
Definition touch_permissions (ctl : control) (pd : auth_db) (t : transaction) : result auth_db :=
  fold_res (λ pd auth, p ← get_permission pd auth; update_permission_usage ctl pd p) pd
    (a ← actions t; a_authorization a).

(** The last limits: what the accounts can pay now, without leeway. *)
Definition final_limits (n : net_state) (p : cpu_state) (can_pay : Z * Z * bool * bool) :
    net_state * cpu_state :=
  let '(account_net_limit, account_cpu_limit, greylisted_net, greylisted_cpu) := can_pay in
  let n := mk_net (net_limit n) (net_limit_due_to_block n)
             (net_limit_due_to_greylist n || greylisted_net) (eager_net_limit n) (trx_net_usage n) in
  let n := lower_net_limit n (u64 account_net_limit) in
  let p := mk_cpu (cpu_limit_due_to_greylist p || greylisted_cpu) (objective_duration_limit p)
             (deadline_point p) (deadline_exception_code p) (billing_timer_exception_code p)
             (pseudo_start p) (billed_time p) (billing_timer_duration_limit p)
             (billed_cpu_time_us p) in
  let p := if account_cpu_limit <=? objective_duration_limit p
           then mk_cpu (cpu_limit_due_to_greylist p) account_cpu_limit (deadline_point p)
                  (deadline_exception_code p) code_tx_cpu (pseudo_start p) (billed_time p)
                  (billing_timer_duration_limit p) (billed_cpu_time_us p)
           else p in
  (mk_net (net_limit n) (net_limit_due_to_block n) (net_limit_due_to_greylist n)
     (net_limit n) (u64 (trx_net_usage n + 7) / 8 * 8), p).

Definition check_contract_limits (f : fee_state) (billed_us net_usage : Z) : result unit :=
  if use_limit_by_contract f then
    _ ← EOS_ASSERT (u64 billed_us <=? cpu_limit_by_contract f) tx_cpu_usage_exceeded;
    EOS_ASSERT (net_usage <=? net_limit_by_contract f) tx_net_usage_exceeded
  else Ok tt.

Definition finalize env (ctl : control) (pd : auth_db) (d : resource_db) c (t : transaction)
    (validate_ram_usage : gset Z) (now : Z) :
    result (transaction_context * auth_db * resource_db) :=
  _ ← EOS_ASSERT (is_initialized c) transaction_exception;
  pd ← (if is_input (setup c) then touch_permissions ctl pd t else Ok pd);
  _ ← fold_res (λ _ a, verify_account_ram_usage d a) tt (flat_set_elements validate_ram_usage);
  can_pay ← max_bandwidth_billed_accounts_can_pay env d (bill_to_accounts c);
  let '(n, p) := final_limits (net c) (cpu c) can_pay in
  _ ← check_net_usage env n;
  _ ← int64_op (now - start (setup c));
  p ← update_billed_cpu_time env (setup c) p now;
  _ ← validate_cpu_usage_to_bill env p (billed_cpu_time_us p) true;
  _ ← check_contract_limits (fees c) (billed_cpu_time_us p) (trx_net_usage n);
  d ← add_transaction_usage d (flat_set_elements (bill_to_accounts c))
        (u64 (billed_cpu_time_us p)) (trx_net_usage n) (pending_slot env);
  Ok (with_cpu (with_net c n) p, pd, d).
End context.
