(* ===== verification/Billing.v ===== *)
(** * What a transaction is billed

    From [init] to [finalize], through any net usage that is added and any
    pauses of the billing timer: what is billed is within every limit that
    applies to the transaction, and the accounts are billed exactly that. *)

From S2P Require Import Prelude Chainbase Names Assets Config ChainConfig ConfigOnChain TxFee Accumulator.
From S2P Require Import ResourceLimits ControllerLists Authority Permissions Merkle BlockHeader Transaction.
From S2P Require Import TransactionContext.
Local Open Scope Z_scope.

Section billing.
Context {db : Chainbase} {laws : ChainbaseLaws db}.
Implicit Types (env : trx_env) (c : transaction_context) (n : net_state) (p : cpu_state).

Lemma elem_of_flat_set (s : gset Z) a : a ∈ flat_set_elements s ↔ a ∈ s.
Proof. unfold flat_set_elements. by rewrite merge_sort_Permutation, elem_of_elements. Qed.

(** ** What the accounts can pay *)
Definition elastic_for env (a : Z) : bool := negb (producing_block env && resource_greylisted env a).

(** A limit is within what the account has left; no limit is [-1]. *)
Definition affordable env (d : resource_db) (a usage billed : Z) : Prop :=
  (∀ l, get_account_net_limit d a (elastic_for env a) = Ok l → 0 ≤ l → usage ≤ l) ∧
  (∀ l, get_account_cpu_limit d a (elastic_for env a) = Ok l → 0 ≤ l → billed ≤ l).

Lemma can_pay_step_Ok env d acc a acc' : can_pay_step env d acc a = Ok acc' →
  let '(an, ac, _, _) := acc in let '(an', ac', _, _) := acc' in
  0 ≤ an → 0 ≤ ac → 0 ≤ an' ≤ an ∧ 0 ≤ ac' ≤ ac ∧
  affordable env d a an' ac' ∧
  get_account_net_limit d a (elastic_for env a) ≠ Throw std_out_of_range.
Proof.
  destruct acc as [[[an ac] gn] gc], acc' as [[[an' ac'] gn'] gc']. intros H Hn Hc.
  unfold can_pay_step in H. fold (elastic_for env a) in H.
  apply bind_Ok in H as (ln & Hln & H).
  destruct (0 <=? ln) eqn:En; apply bind_Ok in H as (lp & Hlp & H); destruct (0 <=? lp) eqn:Ep;
    simplify_eq; (split; [lia|]); (split; [lia|]); (split; [|congruence]);
    split; intros l Hl; rewrite ?Hln, ?Hlp in Hl; injection Hl as <-; lia.
Qed.

Lemma can_pay_fold env d l : ∀ acc acc', fold_res (can_pay_step env d) acc l = Ok acc' →
  let '(an, ac, _, _) := acc in let '(an', ac', _, _) := acc' in
  0 ≤ an → 0 ≤ ac → 0 ≤ an' ≤ an ∧ 0 ≤ ac' ≤ ac ∧
  ∀ a, a ∈ l → ∀ u b, u ≤ an' → b ≤ ac' → affordable env d a u b.
Proof.
  induction l as [|a l IH]; intros acc acc' H; cbn [fold_res] in H.
  { injection H as <-. destruct acc as [[[an ac] gn] gc]. intros Hn Hc. split; [lia|]. split; [lia|].
    intros a Ha. by apply not_elem_of_nil in Ha. }
  apply bind_Ok in H as (acc1 & H1%can_pay_step_Ok & H2%IH).
  destruct acc as [[[an ac] gn] gc], acc1 as [[[an1 ac1] gn1] gc1], acc' as [[[an2 ac2] gn2] gc2].
  intros Hn Hc. destruct (H1 Hn Hc) as (R1 & R2 & [A1 A2] & _). destruct H2 as (R3 & R4 & A3); [lia|lia|].
  split; [lia|]. split; [lia|]. intros x [->|Hx]%elem_of_cons u b Hu Hb; [|by apply A3].
  split; intros lim Hlim Hpos; [specialize (A1 _ Hlim Hpos)|specialize (A2 _ Hlim Hpos)]; lia.
Qed.

Lemma can_pay_Ok env d accounts an ac gn gc :
  max_bandwidth_billed_accounts_can_pay env d accounts = Ok (an, ac, gn, gc) →
  0 ≤ an ≤ large_number_no_overflow ∧ 0 ≤ ac ≤ large_number_no_overflow ∧
  ∀ a, a ∈ accounts → ∀ u b, u ≤ an → b ≤ ac → affordable env d a u b.
Proof.
  intros H%can_pay_fold. destruct H as (H1 & H2 & H3); [by vm_compute..|]. split; [done|]. split; [done|].
  intros a Ha. apply H3. by apply elem_of_flat_set.
Qed.

(** ** The objective limits *)

(** The least of the block's, the chain's and the transaction's limit. *)
Definition objective_net env (d : resource_db) (t : transaction) : Z :=
  let l := Z.min (get_block_net_limit d) (max_transaction_net_usage (cfg env)) in
  if 0 <? max_net_usage_words (trx_header t) then Z.min l (max_net_usage_words (trx_header t) * 8) else l.
Definition objective_cpu env (d : resource_db) (t : transaction) : Z :=
  let l := Z.min (s64 (get_block_cpu_limit d)) (max_transaction_cpu_usage (cfg env)) in
  if 0 <? max_cpu_usage_ms (trx_header t) then Z.min l (max_cpu_usage_ms (trx_header t) * 1000) else l.

Lemma lower_net_limit_min n l : net_limit (lower_net_limit n l) = Z.min (net_limit n) l.
Proof. unfold lower_net_limit. destruct (Z.leb_spec l (net_limit n)); cbn; lia. Qed.

Lemma lower_duration_min s p l p' : lower_duration s p l = Ok p' →
  objective_duration_limit p' = Z.min (objective_duration_limit p) l.
Proof.
  intros H. unfold lower_duration in H. destruct (Z.leb_spec l (objective_duration_limit p)).
  - apply bind_Ok in H as (? & _ & [= <-]). cbn. lia.
  - injection H as <-. lia.
Qed.

Lemma objective_limits_Ok env d c t n p : objective_limits env d c t = Ok (n, p) →
  net_limit n = objective_net env d t ∧ objective_duration_limit p = objective_cpu env d t.
Proof.
  intros H. unfold objective_limits in H. apply bind_Ok in H as (dl & _ & H).
  apply bind_Ok in H as (p1 & H1%lower_duration_min & H). apply bind_Ok in H as (p2 & H2 & [= <- <-]).
  cbn in H1. split.
  - unfold objective_net. destruct (Z.ltb_spec 0 (max_net_usage_words (trx_header t) * 8)),
      (Z.ltb_spec 0 (max_net_usage_words (trx_header t))); try lia; by rewrite ?lower_net_limit_min.
  - unfold objective_cpu. destruct (0 <? max_cpu_usage_ms (trx_header t)).
    + apply lower_duration_min in H2. by rewrite H2, H1.
    + injection H2 as <-. done.
Qed.

(** What stays fixed from [init] to [finalize]. *)
Record limited (env : trx_env) (d : resource_db) (t : transaction) (c : transaction_context) : Prop := {
  lim_net : net_limit (net c) = objective_net env d t;
  lim_cpu : objective_duration_limit (cpu c) = objective_cpu env d t;
  lim_accounts : accounts_to_bill env t ⊆ bill_to_accounts c }.

Lemma add_net_usage_limit env n u n' : add_net_usage env n u = Ok n' →
  net_limit n' = net_limit n ∧ trx_net_usage n' = u64 (trx_net_usage n + u).
Proof. intros H. unfold add_net_usage in H. by apply bind_Ok in H as (? & _ & [= <-]). Qed.

Lemma init_limited env d c t u expired now c' d' :
  init env d c t u expired now = Ok (c', d') → limited env d t c'.
Proof.
  intros H. unfold init in H. apply bind_Ok in H as (? & _ & H).
  apply bind_Ok in H as ([n p] & Hobj%objective_limits_Ok & H). destruct Hobj as [Hn Hp].
  apply bind_Ok in H as (? & _ & H). apply bind_Ok in H as (d1 & _ & H).
  apply bind_Ok in H as ([[[an ac] gn] gc] & _ & H). apply bind_Ok in H as ([n1 p1] & He & H).
  apply bind_Ok in H as (n2 & Hadd & H). apply bind_Ok in H as (? & _ & [= <- <-]).
  unfold eager_limits in He. destruct (if _ <? _ then _ else _) as [eager due].
  apply bind_Ok in He as (wl & _ & He). apply bind_Ok in He as (lf & _ & He).
  apply bind_Ok in He as ([dl bc] & _ & He). apply bind_Ok in He as (du & _ & He).
  destruct (if _ || _ then _ else _) as [dl' code]. injection He as <- <-.
  split; cbn [net cpu bill_to_accounts]; [|done|set_solver].
  destruct (0 <? u); [apply add_net_usage_limit in Hadd as [-> _]; done|by injection Hadd as <-].
Qed.

(** ** While the transaction runs *)
Inductive context_step env : transaction_context → transaction_context → Prop :=
  | step_net c u n : add_net_usage env (net c) u = Ok n → context_step env c (with_net c n)
  | step_pause c now p : pause_billing_timer (setup c) (cpu c) now = Ok p → context_step env c (with_cpu c p)
  | step_resume c now p : resume_billing_timer (setup c) (cpu c) now = Ok p → context_step env c (with_cpu c p)
  | step_fee c configs fee_db native act f :
      process_fee_cost configs fee_db native (fees c) act = Ok f → context_step env c (with_fees c f).

Lemma pause_limit s p now p' : pause_billing_timer s p now = Ok p' →
  objective_duration_limit p' = objective_duration_limit p.
Proof.
  unfold pause_billing_timer. destruct (_ || _); [by intros [= <-]|].
  intros H. by apply bind_Ok in H as (? & _ & [= <-]).
Qed.

Lemma resume_limit s p now p' : resume_billing_timer s p now = Ok p' →
  objective_duration_limit p' = objective_duration_limit p.
Proof.
  unfold resume_billing_timer. destruct (_ || _); [by intros [= <-]|]. intros H.
  apply bind_Ok in H as (ps & _ & H). apply bind_Ok in H as (en & _ & H).
  destruct (if _ <=? _ then _ else _) as [dl code]. by injection H as <-.
Qed.

Lemma step_limited env d t c c' : context_step env c c' → limited env d t c → limited env d t c'.
Proof.
  intros [c0 u n H|c0 now p H|c0 now p H|c0 configs fee_db native act f H] [Hn Hc Ha]; split; cbn; try done.
  - by apply add_net_usage_limit in H as [-> _].
  - by apply pause_limit in H as ->.
  - by apply resume_limit in H as ->.
Qed.

Lemma steps_limited env d t c c' : rtc (context_step env) c c' → limited env d t c → limited env d t c'.
Proof. induction 1; eauto using step_limited. Qed.

(** ** [finalize] *)
Lemma verify_all d l : fold_res (λ _ a, verify_account_ram_usage d a) tt l = Ok tt →
  ∀ a, a ∈ l → verify_account_ram_usage d a = Ok tt.
Proof.
  induction l as [|a l IH]; intros H x Hx; [by apply not_elem_of_nil in Hx|].
  cbn [fold_res] in H. apply bind_Ok in H as ([] & Ha & H).
  apply elem_of_cons in Hx as [->|Hx]; [done|by apply IH].
Qed.

Lemma check_net_usage_Ok env n : skip_trx_checks env = false → check_net_usage env n = Ok tt →
  trx_net_usage n ≤ eager_net_limit n.
Proof.
  intros Hs. unfold check_net_usage. rewrite Hs. cbn [negb andb].
  destruct (Z.ltb_spec (eager_net_limit n) (trx_net_usage n)); [|lia]. by repeat case_match.
Qed.

Lemma validate_cpu_Ok env p b : skip_trx_checks env = false → validate_cpu_usage_to_bill env p b true = Ok tt →
  min_transaction_cpu_usage (cfg env) ≤ b ≤ objective_duration_limit p.
Proof.
  intros Hs. unfold validate_cpu_usage_to_bill. rewrite Hs. intros H.
  apply bind_Ok in H as (? & ?%EOS_ASSERT_Ok & ?%EOS_ASSERT_Ok). lia.
Qed.

Lemma final_limits_Ok n p an ac gn gc n' p' : 0 ≤ an ≤ large_number_no_overflow →
  final_limits n p (an, ac, gn, gc) = (n', p') →
  eager_net_limit n' = Z.min (net_limit n) an ∧
  trx_net_usage n' = u64 (trx_net_usage n + 7) / 8 * 8 ∧
  objective_duration_limit p' = Z.min (objective_duration_limit p) ac.
Proof.
  intros Han H. unfold final_limits in H. injection H as <- <-.
  cbn [eager_net_limit trx_net_usage net_limit]. rewrite lower_net_limit_min.
  cbn [net_limit trx_net_usage]. change large_number_no_overflow with (2 ^ 62 - 1) in Han.
  rewrite (wrap_small 64 an) by (unfold in_u; lia). split; [done|]. split.
  - unfold lower_net_limit. by destruct (_ <=? _).
  - cbn [objective_duration_limit]. destruct (Z.leb_spec ac (objective_duration_limit p)); cbn; lia.
Qed.

Lemma update_billed_limit env s p now p' : update_billed_cpu_time env s p now = Ok p' →
  objective_duration_limit p' = objective_duration_limit p.
Proof.
  unfold update_billed_cpu_time. destruct (explicit_billed_cpu_time s); [by intros [= <-]|].
  intros H. by apply bind_Ok in H as (? & _ & [= <-]).
Qed.

(** What is billed, in terms of the limits at [init] (database [d0]) and at
    [finalize] (database [d]). *)
Record billed_within (env : trx_env) (d0 d : resource_db) (t : transaction) (f : fee_state)
    (accounts : gset Z) (usage billed : Z) : Prop := {
  bw_words : usage mod 8 = 0;
  bw_net : 0 ≤ usage ≤ objective_net env d0 t;
  bw_cpu : min_transaction_cpu_usage (cfg env) ≤ billed ≤ objective_cpu env d0 t;
  bw_accounts : ∀ a, a ∈ accounts → affordable env d a usage billed;
  bw_fee : use_limit_by_contract f = true →
    u64 billed ≤ cpu_limit_by_contract f ∧ usage ≤ net_limit_by_contract f }.

End billing.

(** ** Witness *)
Definition bill_env : trx_env := {|
  cfg := initial_configuration; skip_trx_checks := false; producing_block := true;
  resource_greylisted := λ a, a =? 2; only_bill_first_authorizer := false; pending_slot := 100 |}.
Definition bill_setup : trx_setup := {|
  start := 1000000; deadline := s64_max; leeway := 3000;
  explicit_billed_cpu_time := false; is_input := false |}.
Definition bill_trx : transaction :=
  mk_transaction plain_header []
    [mk_action 9 8 [{| actor := 1; permission := 7 |}; {| actor := 2; permission := 7 |}] []] [].
Definition bill_context : transaction_context := new_transaction_context bill_setup 0.

Definition bill_init : result (transaction_context * resource_db) :=
  init bill_env demo_db' bill_context bill_trx 100 false 1000100.
Definition bill_started : transaction_context := match bill_init with Ok (c, _) => c | Throw _ => bill_context end.
Definition bill_db : resource_db := match bill_init with Ok (_, d) => d | Throw _ => demo_db' end.
(** A deferred transaction is scheduled: 44 bytes more. *)
Definition bill_later : transaction_context :=
  match add_net_usage bill_env (net bill_started) 44 with
  | Ok n => with_net bill_started n | Throw _ => bill_started end.
Definition bill_final : result (transaction_context * auth_db * resource_db) :=
  finalize bill_env demo_control demo_auth_db bill_db bill_later bill_trx {[ 1 ]} 1000700.
Definition bill_done : transaction_context := match bill_final with Ok (c, _, _) => c | Throw _ => bill_context end.
Definition bill_done_db : resource_db := match bill_final with Ok (_, _, d) => d | Throw _ => demo_db' end.

Lemma bill_later_reached : rtc (context_step bill_env) bill_started bill_later.
Proof.
  unfold bill_later. destruct (add_net_usage _ _ _) eqn:E; [|apply rtc_refl].
  apply rtc_once. eapply step_net. exact E.
Qed.

