(* ===== verification/ActionContext.v ===== *)
(** * The context of an action ([apply_context.cpp], [transaction_context.cpp],
    [account_object.hpp], [generated_transaction_object.hpp])

    What an action can do besides using its tables: notify accounts, send
    inline actions, and schedule or cancel deferred transactions.  [database]
    is the chain state these operations touch, [world] adds the limits and the
    trace of the transaction, [actx] is the part of an [apply_context] that
    changes while it runs. *)

From S2P Require Import Prelude Chainbase Names Assets Config Merkle BlockHeader ProtocolFeatures ChainConfig ConfigOnChain TxFee Accumulator.
From S2P Require Import ResourceLimits ControllerLists Authority AuthorityChecker Permissions Merkle BlockHeader.
From S2P Require Import Transaction AccessLists TransactionContext ContractTables.
Local Open Scope Z_scope.

(** ** State *)
Record account_metadata := mk_metadata {
  recv_sequence : Z; auth_sequence : Z; code_sequence : Z; abi_sequence : Z;
  code_hash : digest_type; last_code_update : Z; is_privileged : bool;
  vm_type : Z; vm_version : Z }.

(** [generated_transaction_object]; [sender] and [sender_id] are the key. *)
Record generated_transaction_object := mk_generated {
  g_trx_id : digest_type; g_payer : Z; g_delay_until : Z; g_expiration : Z; g_published : Z;
  g_packed_trx : list Z }.

(** [account_ram_correction_object], by the name of the account; chainbase
    numbers the objects in the order of their creation. *)
Record account_ram_correction := mk_correction { rc_id : Z; ram_correction : Z }.
Record correction_index := mk_corrections {
  noted : gmap Z account_ram_correction; next_correction_id : Z }.

(** [account_object], by name. *)
Record account_object := mk_account { creation_date : Z; abi : list Z }.

(** [code_object]; the hash, the type and the version of the machine are the key. *)
Abbreviation code_key := (digest_type * Z * Z)%type.
Record code_object := mk_code { code : list Z; code_ref_count : Z; first_block_used : Z }.

(** [global_property_object] *)
Record global_property := mk_global {
  proposed_schedule_block_num : option Z; proposed_schedule : producer_schedule_type;
  configuration : chain_config }.

(** [force_property_object] *)
Record force_property := mk_force { forced_lists : name_lists (list Z); forced_gmr : gmr_parameters }.

Record database := mk_database {
  tbl : table_state;
  auths : auth_db;
  account_objects : gmap Z account_object;
  metadata : gmap Z account_metadata;
  codes : gmap code_key code_object;
  gpo : global_property;
  forced : force_property;
  preactivated : list digest_type;
  global_action_sequence : Z;
  deferred : gmap (Z * Z) generated_transaction_object;
  fee_objects : gmap fee_key action_fee_object;
  ram_corrections : correction_index }.

Record action_receipt := mk_receipt {
  r_receiver : Z; r_act_digest : digest_type; r_global_sequence : Z; r_recv_sequence : Z;
  r_auth_sequence : gmap Z Z; r_code_sequence : Z; r_abi_sequence : Z }.

(** [action_trace], without timing, console output and the data of the block. *)
Record action_trace := mk_trace {
  t_ordinal : Z; creator_action_ordinal : Z; closest_unnotified_ancestor_action_ordinal : Z;
  t_receipt : option action_receipt; t_receiver : Z; t_act : action; t_context_free : bool;
  t_ram_deltas : gmap Z Z }.

(** [conf] is the part of the controller's configuration that [setconfig]
    changes: plain memory, outside the database. *)
Record world := mk_world {
  dbs : database;
  tctx : transaction_context;
  traces : list action_trace;
  executed : list action_receipt;
  conf : name_lists (gset Z) }.

Record actx := mk_actx {
  x_receiver : Z; x_act : action; recurse_depth : Z;
  first_receiver_action_ordinal : Z; action_ordinal : Z;
  x_privileged : bool; x_context_free : bool;
  notified : list (Z * Z); inline_actions : list Z; cfa_inline_actions : list Z }.

(** What is read of the controller and of the transaction, and does not change
    while the transaction runs. *)
Record exec_env := {
  trx_part : trx_env;
  ctl : control;
  lists : access_lists;
  native_fees_map : fee_map;
  enforce_whiteblacklist : bool;
  skip_auth_check : bool;
  restrict_action_to_self : bool;
  ram_restrictions_active : bool;
  forward_setcode : bool;
  no_duplicate_deferred_id : bool;
  replace_deferred : bool;
  only_link_to_existing_permission : bool;
  disallow_empty_producer_schedule : bool;
  ram_billing_in_notify : bool;
  mitigations_disabled : bool;
  published_at : Z;
  this_trx_id : digest_type;
  this_trx : signed_transaction;
  head_block_id : block_id_type;
  head_block_num : Z;
  features : protocol_feature_set;
  feature_activated : digest_type → bool;
  active_sch : producer_schedule_type;
  pending_sch : producer_schedule_type }.

Definition with_tbl (d : database) t :=
  mk_database t (auths d) (account_objects d) (metadata d) (codes d) (gpo d) (forced d)
    (preactivated d) (global_action_sequence d) (deferred d) (fee_objects d) (ram_corrections d).
Definition with_auths (d : database) a :=
  mk_database (tbl d) a (account_objects d) (metadata d) (codes d) (gpo d) (forced d)
    (preactivated d) (global_action_sequence d) (deferred d) (fee_objects d) (ram_corrections d).
Definition with_accounts (d : database) a :=
  mk_database (tbl d) (auths d) a (metadata d) (codes d) (gpo d) (forced d)
    (preactivated d) (global_action_sequence d) (deferred d) (fee_objects d) (ram_corrections d).
Definition with_metadata (d : database) m :=
  mk_database (tbl d) (auths d) (account_objects d) m (codes d) (gpo d) (forced d)
    (preactivated d) (global_action_sequence d) (deferred d) (fee_objects d) (ram_corrections d).
Definition with_codes (d : database) c :=
  mk_database (tbl d) (auths d) (account_objects d) (metadata d) c (gpo d) (forced d)
    (preactivated d) (global_action_sequence d) (deferred d) (fee_objects d) (ram_corrections d).
Definition with_gpo (d : database) g :=
  mk_database (tbl d) (auths d) (account_objects d) (metadata d) (codes d) g (forced d)
    (preactivated d) (global_action_sequence d) (deferred d) (fee_objects d) (ram_corrections d).
Definition with_forced (d : database) f :=
  mk_database (tbl d) (auths d) (account_objects d) (metadata d) (codes d) (gpo d) f
    (preactivated d) (global_action_sequence d) (deferred d) (fee_objects d) (ram_corrections d).
Definition with_preactivated (d : database) l :=
  mk_database (tbl d) (auths d) (account_objects d) (metadata d) (codes d) (gpo d) (forced d)
    l (global_action_sequence d) (deferred d) (fee_objects d) (ram_corrections d).
Definition with_sequence (d : database) n :=
  mk_database (tbl d) (auths d) (account_objects d) (metadata d) (codes d) (gpo d) (forced d)
    (preactivated d) n (deferred d) (fee_objects d) (ram_corrections d).
Definition with_deferred (d : database) g :=
  mk_database (tbl d) (auths d) (account_objects d) (metadata d) (codes d) (gpo d) (forced d)
    (preactivated d) (global_action_sequence d) g (fee_objects d) (ram_corrections d).
Definition with_fee_objects (d : database) f :=
  mk_database (tbl d) (auths d) (account_objects d) (metadata d) (codes d) (gpo d) (forced d)
    (preactivated d) (global_action_sequence d) (deferred d) f (ram_corrections d).
Definition with_corrections (d : database) r :=
  mk_database (tbl d) (auths d) (account_objects d) (metadata d) (codes d) (gpo d) (forced d)
    (preactivated d) (global_action_sequence d) (deferred d) (fee_objects d) r.
Definition with_dbs (w : world) d := mk_world d (tctx w) (traces w) (executed w) (conf w).
Definition with_tctx (w : world) c := mk_world (dbs w) c (traces w) (executed w) (conf w).
Definition with_traces (w : world) t := mk_world (dbs w) (tctx w) t (executed w) (conf w).
Definition with_conf (w : world) l := mk_world (dbs w) (tctx w) (traces w) (executed w) l.

Definition with_notified (x : actx) l :=
  mk_actx (x_receiver x) (x_act x) (recurse_depth x) (first_receiver_action_ordinal x)
    (action_ordinal x) (x_privileged x) (x_context_free x) l (inline_actions x) (cfa_inline_actions x).
Definition with_inline (x : actx) l :=
  mk_actx (x_receiver x) (x_act x) (recurse_depth x) (first_receiver_action_ordinal x)
    (action_ordinal x) (x_privileged x) (x_context_free x) (notified x) l (cfa_inline_actions x).
Definition with_cfa_inline (x : actx) l :=
  mk_actx (x_receiver x) (x_act x) (recurse_depth x) (first_receiver_action_ordinal x)
    (action_ordinal x) (x_privileged x) (x_context_free x) (notified x) (inline_actions x) l.

(** The configuration in the database and the lists in memory can change while
    a transaction runs; what the operations read is the current value. *)
Definition now_trx (env : exec_env) (w : world) : trx_env :=
  let e := trx_part env in {|
  cfg := configuration (gpo (dbs w)); skip_trx_checks := skip_trx_checks e;
  producing_block := producing_block e;
  resource_greylisted := λ a, bool_decide (a ∈ resource_greylist (conf w));
  only_bill_first_authorizer := only_bill_first_authorizer e; pending_slot := pending_slot e |}.
Definition now_ctl (env : exec_env) (d : database) : control := {|
  pending_block_time := pending_block_time (ctl env);
  fix_linkauth_restriction := fix_linkauth_restriction (ctl env);
  Permissions.max_transaction_delay := ChainConfig.max_transaction_delay (configuration (gpo d));
  Permissions.max_authority_depth := ChainConfig.max_authority_depth (configuration (gpo d)) |}.
Definition now_lists (env : exec_env) (w : world) : access_lists := {|
  actor_whitelist := actor_whitelist (lists env);
  actor_blacklist := flat_set_elements (ControllerLists.actor_blacklist (conf w));
  contract_whitelist := contract_whitelist (lists env);
  contract_blacklist := ControllerLists.contract_blacklist (conf w);
  action_blacklist := action_blacklist (lists env);
  key_blacklist := key_blacklist (lists env);
  sender_bypass_whiteblacklist := sender_bypass_whiteblacklist (lists env) |}.

(** The part of the context that the tables use. *)
Definition table_env (env : exec_env) (x : actx) : apply_env := {|
  receiver := x_receiver x; act_code := a_account (x_act x);
  act_authorization := a_authorization (x_act x); privileged := x_privileged x;
  ram_restrictions := ram_restrictions_active env;
  ram_billing_in_notify_allowed := ram_billing_in_notify env |}.

(** Exceptions that no handler of the program sees. *)
Definition model_exn (e : exn) : bool :=
  match e with undefined_behaviour | out_of_fuel => true | _ => false end.

Section context.
Context {db : Chainbase} {fc : TrxFc} {cr : Crypto}.
(** [act.data_as<T>()] for the payloads that the authorization checks read. *)
Context (decode : action → native_data).
Implicit Types (env : exec_env) (w : world) (x : actx).

(** ** Traces *)
Definition get_action_trace w (ordinal : Z) : result action_trace :=
  _ ← EOS_ASSERT ((0 <? ordinal) && (ordinal <=? Z.of_nat (length (traces w)))) transaction_exception;
  of_option transaction_exception (traces w !! Z.to_nat (ordinal - 1)).

(** [transaction_context::schedule_action]; the ordinal is a 32-bit word. *)
Definition trx_schedule_action w (act : action) (receiver : Z) (context_free : bool)
    (creator closest : Z) : Z * world :=
  let new_action_ordinal := u32 (Z.of_nat (length (traces w)) + 1) in
  (new_action_ordinal,
   with_traces w (traces w ++
     [mk_trace new_action_ordinal creator closest None receiver act context_free ∅])).

(** [apply_context::schedule_action] of an action *)
Definition schedule_action w x (act : action) (receiver : Z) (context_free : bool) : Z * world :=
  trx_schedule_action w act receiver context_free (action_ordinal x) (first_receiver_action_ordinal x).

(** and of the action of a trace. *)
Definition schedule_ordinal w x (ordinal : Z) (receiver : Z) (context_free : bool) :
    result (Z * world) :=
  t ← get_action_trace w ordinal;
  Ok (schedule_action w x (t_act t) receiver context_free).

(** ** Recipients *)
Definition has_recipient x (code : Z) : bool := existsb (λ p, p.1 =? code) (notified x).

Definition require_recipient w x (recipient : Z) : result (world * actx) :=
  if has_recipient x recipient then Ok (w, x) else
  '(o, w) ← schedule_ordinal w x (action_ordinal x) recipient false;
  Ok (w, with_notified x (notified x ++ [(recipient, o)])).

(** ** Inline actions *)
Definition is_account (d : database) (a : Z) : bool :=
  bool_decide (is_Some (db_find (account_objects d) a)).

Definition process_fee w env (act : action) : result world :=
  f ← process_fee_cost (configs (resources (tbl (dbs w)))) (fee_objects (dbs w))
        (native_fees_map env) (fees (tctx w)) act;
  Ok (with_tctx w (with_fees (tctx w) f)).

(** The view that the authorization manager has of the deferred transactions. *)
Definition generated_view (d : database) : gmap Z generated_transaction :=
  list_to_map ((λ kg : Z * Z * generated_transaction_object,
    (Z.pos (encode (g_trx_id kg.2)),
     {| sender := kg.1.1; delay_until := g_delay_until kg.2; published := g_published kg.2;
        gen_authorizations :=
          match unpack_trx (g_packed_trx kg.2) with
          | Ok t => a_authorization <$> actions t | Throw _ => [] end |}))
    <$> map_to_list (deferred d)).
Definition auth_view (d : database) : auth_db :=
  AuthDb (permissions (auths d)) (next_id (auths d)) (permission_usages (auths d))
    (next_usage_id (auths d)) (links (auths d)) (generated_view d).

Definition perm_action (a : action) : Permissions.action :=
  {| act_account := a_account a; act_name := a_name a; authorization := a_authorization a;
     data := decode a |}.

(** The check with the permission of the running code; [bypass] is the old rule
    for actions to oneself: a failure is subjective, or ignored in a block. *)
Definition check_code_authorization env (d : database) (acts : list action) (receiver delay : Z)
    (satisfied : list permission_level) (to_self : bool) : result unit :=
  match check_authorization (now_ctl env d) (auth_view d) (perm_action <$> acts) []
          [PermissionLevel receiver eosio_code_name] delay false satisfied with
  | Ok _ => Ok tt
  | Throw e =>
      if model_exn e || restrict_action_to_self env || negb to_self then Throw e
      else if producing_block (trx_part env) then Throw subjective_block_production_exception
      else Ok tt
  end.

(** The loop over the authorizations of an inline action. *)
Definition check_inline_auth env (d : database) (auth : permission_level) : result unit :=
  _ ← EOS_ASSERT (is_account d (actor auth)) action_validate_exception;
  p ← find_permission (auths d) auth;
  EOS_ASSERT (bool_decide (is_Some p)) action_validate_exception.

Definition enforce_lists env : bool :=
  enforce_whiteblacklist env && producing_block (trx_part env).
Definition actors_of (l : list permission_level) : list Z :=
  flat_set_elements (list_to_set (actor <$> l)).

Definition inherited env x (a : action) : list permission_level :=
  if negb (restrict_action_to_self env) && (a_account a =? x_receiver x)
     && (x_receiver x =? a_account (x_act x)) && producing_block (trx_part env)
  then filter (λ l, l ∈ a_authorization (x_act x)) (a_authorization a) else [].

Definition execute_inline env w x (a : action) : result (world * actx) :=
  let d := dbs w in
  _ ← EOS_ASSERT (is_account d (a_account a)) action_validate_exception;
  _ ← fold_res (λ _, check_inline_auth env d) tt (a_authorization a);
  _ ← (if enforce_lists env then check_actor_list (now_lists env w) (actors_of (a_authorization a)) else Ok tt);
  _ ← (if negb (skip_auth_check env) && negb (x_privileged x)
       then check_code_authorization env d [a] (x_receiver x)
              (pending_block_time (ctl env) - published_at env) (inherited env x a)
              (a_account a =? x_receiver x)
       else Ok tt);
  w ← process_fee w env a;
  let '(o, w) := schedule_action w x a (a_account a) false in
  Ok (w, with_inline x (inline_actions x ++ [o])).

Definition execute_context_free_inline env w x (a : action) : result (world * actx) :=
  _ ← EOS_ASSERT (is_account (dbs w) (a_account a)) action_validate_exception;
  _ ← EOS_ASSERT (bool_decide (a_authorization a = [])) action_validate_exception;
  w ← process_fee w env a;
  let '(o, w) := schedule_action w x a (a_account a) true in
  Ok (w, with_cfa_inline x (cfa_inline_actions x ++ [o])).
End context.
