(* ===== verification/Deferred.v ===== *)
(** * Deferred transactions ([apply_context.cpp], [transaction_context.cpp],
    [controller.cpp])

    Scheduling, replacing and cancelling transactions that run later, with the
    RAM that is billed for keeping them.  Before the feature [replace_deferred]
    a replaced transaction stayed billed; the amount was noted per account and
    is paid back when the feature is activated. *)

From S2P Require Import Prelude Chainbase Names Assets Config ChainConfig ConfigOnChain TxFee Accumulator.
From S2P Require Import ResourceLimits ControllerLists Authority AuthorityChecker Permissions Merkle BlockHeader.
From S2P Require Import Transaction AccessLists TransactionContext ContractTables ActionContext.
Local Open Scope Z_scope.

(** [billable_size_v<generated_transaction_object>] *)
Definition billable_generated : Z :=
  billable_size_v (96 + 4 + overhead_per_row_per_index_ram_bytes * 5).

Definition with_resources (st : table_state) (r : resource_db) : table_state :=
  mk_state (tables st) (next_table_id st) (rows st) r (validate_ram_usage st)
    (account_ram_deltas st) (caches st).

(** The begin of the index of corrections by id. *)
Definition id_before (a b : Z * account_ram_correction) : Prop := rc_id a.2 ≤ rc_id b.2.
#[export] Instance id_before_dec : RelDecision id_before.
Proof. intros a b. unfold id_before. apply _. Defined.
Definition first_by_id (m : gmap Z account_ram_correction) : option (Z * account_ram_correction) :=
  head (merge_sort id_before (map_to_list m)).

Section deferred.
Context {db : Chainbase} {fc : TrxFc} {cr : Crypto}.
Context (decode : action → native_data).
(** [fc::raw::pack] of a generation context *)
Context (pack_context : generation_context → list Z).
Implicit Types (env : exec_env) (w : world) (x : actx) (d : database).

(** ** [validate_referenced_accounts] *)
Definition check_cfa d (a : action) : result unit :=
  _ ← EOS_ASSERT (is_account d (a_account a)) transaction_exception;
  EOS_ASSERT (bool_decide (a_authorization a = [])) transaction_exception.

Definition check_referenced_auth d (auth : permission_level) : result unit :=
  _ ← EOS_ASSERT (is_account d (actor auth)) transaction_exception;
  p ← find_permission (auths d) auth;
  EOS_ASSERT (bool_decide (is_Some p)) transaction_exception.

Definition check_referenced_action d (a : action) : result unit :=
  _ ← EOS_ASSERT (is_account d (a_account a)) transaction_exception;
  fold_res (λ _, check_referenced_auth d) tt (a_authorization a).

Definition authorizations (t : transaction) : list permission_level :=
  a ← actions t; a_authorization a.

Definition validate_referenced_accounts env w (t : transaction) (enforce : bool) : result unit :=
  _ ← fold_res (λ _, check_cfa (dbs w)) tt (context_free_actions t);
  _ ← fold_res (λ _, check_referenced_action (dbs w)) tt (actions t);
  _ ← EOS_ASSERT (negb (bool_decide (authorizations t = []))) tx_no_auths;
  if enforce then check_actor_list (now_lists env w) (actors_of (authorizations t)) else Ok tt.

(** ** The transaction that is stored *)
Definition with_reference (t : transaction) (h : transaction_header)
    (exts : list (Z * list Z)) : transaction :=
  mk_transaction h (context_free_actions t) (actions t) exts.

(** Either the extension that makes the id unique, or the reference block and an
    expiration rounded up to the next second. *)
Definition stamp env x (sender_id : Z) (t : transaction) : result transaction :=
  let h := trx_header t in
  if no_duplicate_deferred_id env then
    exts ← validate_and_extract_extensions t;
    new_exts ← match exts with
      | [] =>
          _ ← EOS_ASSERT (bool_decide (transaction_extensions t = [])) fc_assert_exception;
          Ok [(0, pack_context {| gc_sender_trx_id := this_trx_id env; gc_sender_id := sender_id;
                                  gc_sender := x_receiver x |})]
      | c :: rest =>
          _ ← EOS_ASSERT (bool_decide (rest = [])) invalid_transaction_extension;
          let ok b := EOS_ASSERT b ill_formed_deferred_transaction_generation_context in
          _ ← ok (gc_sender c =? x_receiver x);
          _ ← ok (gc_sender_id c =? sender_id);
          _ ← ok (bool_decide (gc_sender_trx_id c = this_trx_id env));
          Ok (transaction_extensions t)
      end;
    Ok (with_reference t
          {| expiration := 0; ref_block_num := 0; ref_block_prefix := 0;
             max_net_usage_words := max_net_usage_words h; max_cpu_usage_ms := max_cpu_usage_ms h;
             delay_sec := delay_sec h |} new_exts)
  else
    let h := {| expiration := u32 (Z.quot (pending_block_time (ctl env) + 999999) 1000000);
                ref_block_num := ref_block_num h; ref_block_prefix := ref_block_prefix h;
                max_net_usage_words := max_net_usage_words h; max_cpu_usage_ms := max_cpu_usage_ms h;
                delay_sec := delay_sec h |} in
    Ok (with_reference t (set_reference_block h (head_block_id env)) (transaction_extensions t)).

(** The retirement of a deferred transaction is charged in advance. *)
Definition charge_retirement env w : result world :=
  n ← add_net_usage (now_trx env w) (net (tctx w))
        (base_per_transaction_net_usage (configuration (gpo (dbs w))) + transaction_id_net_usage);
  Ok (with_tctx w (with_net (tctx w) n)).

Definition check_deferred_payer env x (payer : Z) : result unit :=
  if payer =? x_receiver x then Ok tt
  else if ram_restrictions_active env then
    _ ← EOS_ASSERT (x_receiver x =? a_account (x_act x)) action_validate_exception;
    EOS_ASSERT (has_authorization (table_env env x) payer) action_validate_exception
  else require_authorization (table_env env x) payer.

(** ** The database object *)

(** [create<generated_transaction_object>]: the transaction id is unique too. *)
Definition create_generated d (key : Z * Z) (g : generated_transaction_object) : result database :=
  _ ← EOS_ASSERT (forallb (λ kg, negb (bool_decide (g_trx_id kg.2 = g_trx_id g)))
                    (map_to_list (deferred d))) std_logic_error;
  m ← db_create (deferred d) key g;
  Ok (with_deferred d m).

Definition new_generated env d (t : transaction) (id : digest_type) (payer delay : Z) :
    generated_transaction_object :=
  let published := pending_block_time (ctl env) in
  let until := published + delay in
  mk_generated id payer until
    (until + deferred_trx_expiration_window (configuration (gpo d)) * 1000000) published (pack_trx t).

(** [config::billable_size_v<...> + packed_trx.size()] *)
Definition generated_size (g : generated_transaction_object) : Z :=
  u64 (billable_generated + Z.of_nat (length (g_packed_trx g))).

(** The same with the size that [set] returns, a 32-bit word. *)
Definition set_size (g : generated_transaction_object) : Z :=
  u64 (billable_generated + u32 (Z.of_nat (length (g_packed_trx g)))).

Definition db_add_ram d (account delta : Z) : result database :=
  t ← add_ram_usage (tbl d) account delta; Ok (with_tbl d t).

Definition add_to_ram_correction d (account ram_bytes : Z) : result database :=
  let c := ram_corrections d in
  match db_find (noted c) account with
  | Some _ =>
      m ← db_modify (noted c) account (λ r, Ok (mk_correction (rc_id r) (u64 (ram_correction r + ram_bytes))));
      Ok (with_corrections d (mk_corrections m (next_correction_id c)))
  | None =>
      m ← db_create (noted c) account (mk_correction (next_correction_id c) ram_bytes);
      Ok (with_corrections d (mk_corrections m (next_correction_id c + 1)))
  end.

(** The object of an earlier transaction with the same sender id goes. *)
Definition replace_generated env d (key : Z * Z) (old : generated_transaction_object)
    (replace_existing : bool) : result database :=
  _ ← EOS_ASSERT replace_existing deferred_tx_duplicate;
  _ ← EOS_ASSERT (replace_deferred env || negb (producing_block (trx_part env)) || mitigations_disabled env)
        subjective_block_production_exception;
  let orig := generated_size old in
  d ← (if replace_deferred env then delta ← int64_op (- s64 orig); db_add_ram d (g_payer old) delta
       else add_to_ram_correction d (g_payer old) orig);
  Ok (with_deferred d (db_remove (deferred d) key)).

Definition store_generated env d x (sender_id payer delay : Z) (t : transaction)
    (replace_existing : bool) : result database :=
  let key := (x_receiver x, sender_id) in
  '(d, id) ← match db_find (deferred d) key with
    | Some old =>
        d ← replace_generated env d key old replace_existing;
        Ok (d, if replace_deferred env then trx_id t else g_trx_id old)
    | None => Ok (d, trx_id t)
    end;
  let g := new_generated env d t id payer delay in
  d ← create_generated d key g;
  _ ← EOS_ASSERT (ram_restrictions_active env || ram_billing_in_notify env
                  || (x_receiver x =? a_account (x_act x)) || (x_receiver x =? payer) || x_privileged x)
        subjective_block_production_exception;
  db_add_ram d payer (s64 (set_size g)).

(** ** The operations *)
Definition schedule_deferred_transaction env w x (sender_id payer : Z) (t : transaction)
    (replace_existing : bool) : result (world * actx) :=
  _ ← EOS_ASSERT (bool_decide (context_free_actions t = [])) cfa_inside_generated_tx;
  _ ← validate_referenced_accounts env w t
        (enforce_lists env
         && negb (sender_avoids_whitelist_blacklist_enforcement (now_lists env w) (x_receiver x)));
  t ← stamp env x sender_id t;
  w ← charge_retirement env w;
  let delay := delay_sec (trx_header t) * 1000000 in
  _ ← (if negb (skip_auth_check env) && negb (x_privileged x) then
         _ ← check_deferred_payer env x payer;
         check_code_authorization decode env (dbs w) (actions t) (x_receiver x) delay []
           (forallb (λ a, a_account a =? x_receiver x) (actions t))
       else Ok tt);
  d ← store_generated env (dbs w) x sender_id payer delay t replace_existing;
  Ok (with_dbs w d, x).

Definition cancel_deferred_transaction w (sender_id sender : Z) : result (bool * world) :=
  match db_find (deferred (dbs w)) (sender, sender_id) with
  | Some g =>
      d ← db_add_ram (dbs w) (g_payer g) (s64 (- generated_size g));
      Ok (true, with_dbs w (with_deferred d (db_remove (deferred d) (sender, sender_id))))
  | None => Ok (false, w)
  end.

(** [transaction_id_to_sender_id] *)
Definition transaction_id_to_sender_id (tid : digest_type) : Z := hash3 tid * 2 ^ 64 + hash2 tid.

(** [transaction_context::schedule_transaction]: the transaction itself is
    delayed. *)
Definition schedule_transaction env w (t : transaction) (delay : Z) : result world :=
  w ← (if delay_sec (trx_header t) =? 0 then charge_retirement env w else Ok w);
  let payer := first_authorizer t in
  let g := new_generated env (dbs w) t (this_trx_id env) payer delay in
  d ← create_generated (dbs w) (0, transaction_id_to_sender_id (this_trx_id env)) g;
  t ← trx_add_ram_usage (tbl d) payer (s64 (set_size g));
  Ok (with_dbs w (with_tbl d t)).

(** [remove_scheduled_transaction]: the object goes before its transaction
    runs. *)
Definition remove_scheduled_transaction d (key : Z * Z) (g : generated_transaction_object) :
    result (Z * database) :=
  let ram_delta := s64 (- generated_size g) in
  r ← add_pending_ram_usage (resources (tbl d)) (g_payer g) ram_delta;
  Ok (ram_delta, with_deferred (with_tbl d (with_resources (tbl d) r)) (db_remove (deferred d) key)).

(** [on_activation<replace_deferred>]: the loop takes the first object by id
    until there is none. *)
Definition activation_step (r : resource_db) (account correction : Z) : result resource_db :=
  current ← get_account_ram_usage r account;
  delta ← int64_op (- s64 correction);
  delta ← (if u64 current <? correction then int64_op (- current) else Ok delta);
  add_pending_ram_usage r account delta.

Fixpoint activation_loop (fuel : nat) (r : resource_db) (m : gmap Z account_ram_correction) :
    result (resource_db * gmap Z account_ram_correction) :=
  match first_by_id m, fuel with
  | None, _ => Ok (r, m)
  | Some _, O => Throw out_of_fuel
  | Some (account, c), S fuel =>
      r ← activation_step r account (ram_correction c);
      activation_loop fuel r (db_remove m account)
  end.

Definition on_activation_replace_deferred d : result database :=
  let c := ram_corrections d in
  '(r, m) ← activation_loop (size (noted c)) (resources (tbl d)) (noted c);
  Ok (with_corrections (with_tbl d (with_resources (tbl d) r)) (mk_corrections m (next_correction_id c))).
End deferred.
