(* ===== verification/DeferredRam.v ===== *)
(** * RAM of tables and deferred transactions

    The bill of an account in a database that holds contract tables, deferred
    transactions and the corrections noted before [replace_deferred]: whatever
    the order of calls, schedulings, replacements, cancellations and
    retirements, nothing is billed twice or lost, and the activation of
    [replace_deferred] leaves every account billed for what is stored. *)

From S2P Require Import Prelude Chainbase Names Assets Config Merkle BlockHeader ProtocolFeatures ChainConfig ConfigOnChain TxFee Accumulator.
From S2P Require Import ResourceLimits ControllerLists Authority AuthorityChecker Permissions Merkle BlockHeader HeaderExamples.
From S2P Require Import Transaction AccessLists TransactionContext Billing ContractTables TableTheory DatabaseApi ActionContext Deferred.
Local Open Scope Z_scope.

Section theory.
Context {db : Chainbase} {laws : ChainbaseLaws db} {fc : TrxFc} {cr : Crypto}.
Context (decode : action → native_data) (pack_context : generation_context → list Z).
Context (f64_rank f128_rank : Z → Z) (f64_is_nan f128_is_nan : Z → bool).
Implicit Types (d : database) (g : generated_transaction_object).

(** ** What is billed *)
Definition generated_bytes g : Z := billable_generated + Z.of_nat (length (g_packed_trx g)).
Definition generated_bill (a : Z) (_ : Z * Z) g : Z :=
  if decide (g_payer g = a) then generated_bytes g else 0.

(** The deferred transactions that an account pays for, and the bytes noted for it. *)
Definition deferred_bill d (a : Z) : Z := sum_map (generated_bill a) (deferred d).
Definition noted_bytes d (a : Z) : Z :=
  from_option ram_correction 0 (noted (ram_corrections d) !! a).

(** The usage that none of these explains. *)
Definition other_usage d (a : Z) : Z :=
  usage (tbl d) a - billed (tbl d) a - deferred_bill d a - noted_bytes d a.

Record deferred_inv d : Prop := {
  di_tables : tables_base (tbl d);
  di_len : ∀ k g, deferred d !! k = Some g → Z.of_nat (length (g_packed_trx g)) < 2 ^ 32;
  di_noted : ∀ a c, noted (ram_corrections d) !! a = Some c → 0 < ram_correction c;
  di_other : ∀ a, 0 ≤ other_usage d a }.

Definition ram_kept d d' : Prop :=
  deferred_inv d' ∧ ∀ a, other_usage d' a = other_usage d a.

Lemma ram_kept_refl d : deferred_inv d → ram_kept d d.
Proof. by split. Qed.
Lemma ram_kept_trans d1 d2 d3 : ram_kept d1 d2 → ram_kept d2 d3 → ram_kept d1 d3.
Proof. intros [_ H1] [? H2]. split; [done|]. intros a. by rewrite H2. Qed.

(** Only the usage, the deferred transactions and the corrections change, and
    they change together. *)
Lemma ram_kept_intro d d' : deferred_inv d →
  same_tables (tbl d) (tbl d') → usage_ok (tbl d') →
  (∀ k g, deferred d' !! k = Some g → Z.of_nat (length (g_packed_trx g)) < 2 ^ 32) →
  (∀ a c, noted (ram_corrections d') !! a = Some c → 0 < ram_correction c) →
  (∀ a, usage (tbl d') a - deferred_bill d' a - noted_bytes d' a =
        usage (tbl d) a - deferred_bill d a - noted_bytes d a) →
  ram_kept d d'.
Proof.
  intros [Ht _ _ Ho] Hs Hu Hl Hn Heq.
  assert (∀ a, other_usage d' a = other_usage d a) as He.
  { intros a. unfold other_usage. rewrite (same_tables_billed _ _ a Hs). specialize (Heq a). lia. }
  split; [split|]; try done; [by eapply tables_base_same|intros a; by rewrite He].
Qed.

(** ** Sizes *)
Lemma generated_bytes_range g : Z.of_nat (length (g_packed_trx g)) < 2 ^ 32 →
  0 < generated_bytes g < 2 ^ 33.
Proof.
  assert (billable_generated = 272) as E by reflexivity.
  unfold generated_bytes. rewrite E. lia.
Qed.

Lemma generated_size_eq g : Z.of_nat (length (g_packed_trx g)) < 2 ^ 32 →
  generated_size g = generated_bytes g ∧ set_size g = generated_bytes g.
Proof.
  intros H. pose proof (generated_bytes_range g H).
  unfold generated_size, set_size. rewrite (wrap_small 32) by (unfold in_u; lia).
  fold (generated_bytes g). rewrite wrap_small by (unfold in_u; lia). done.
Qed.

Lemma s64_generated g : Z.of_nat (length (g_packed_trx g)) < 2 ^ 32 →
  s64 (set_size g) = generated_bytes g ∧ s64 (- generated_size g) = - generated_bytes g ∧
  int64_op (- s64 (generated_size g)) = Ok (- generated_bytes g).
Proof.
  intros H. destruct (generated_size_eq g H) as [-> ->]. pose proof (generated_bytes_range g H).
  rewrite !s64_small by (unfold in_s64; lia). split_and!; [done..|].
  apply int64_op_Ok. unfold in_s64. lia.
Qed.

Lemma in_s64_generated g : Z.of_nat (length (g_packed_trx g)) < 2 ^ 32 →
  in_s64 (generated_bytes g) ∧ in_s64 (- generated_bytes g).
Proof. intros H. pose proof (generated_bytes_range g H). unfold in_s64. lia. Qed.

Lemma generated_bill_nonneg a k g : 0 ≤ generated_bill a k g.
Proof.
  unfold generated_bill, generated_bytes. assert (billable_generated = 272) as -> by reflexivity.
  destruct (decide _); lia.
Qed.

(** ** Taking a transaction out, and putting one in *)

(** [d1] has the usage or the corrections changed, the object goes in both cases. *)
Lemma take_out_kept d d1 k g : deferred_inv d → deferred d !! k = Some g → deferred d1 = deferred d →
  same_tables (tbl d) (tbl d1) → usage_ok (tbl d1) →
  (∀ a c, noted (ram_corrections d1) !! a = Some c → 0 < ram_correction c) →
  (∀ a, usage (tbl d1) a - noted_bytes d1 a =
        usage (tbl d) a - noted_bytes d a - generated_bill a k g) →
  ram_kept d (with_deferred d1 (db_remove (deferred d1) k)).
Proof.
  intros Hinv Hk Ed Hs Hu Hn Heq. rewrite db_remove_spec, Ed.
  apply ram_kept_intro; try done; cbn [deferred with_deferred tbl].
  - intros k' g' [_ Hg']%lookup_delete_Some. by eapply (di_len _ Hinv).
  - intros a. specialize (Heq a). unfold deferred_bill, noted_bytes in *.
    cbn [deferred with_deferred ram_corrections]. rewrite (sum_map_delete _ _ _ _ Hk). lia.
Qed.

Lemma put_in_kept d d1 k g : deferred_inv d → deferred d !! k = None →
  Z.of_nat (length (g_packed_trx g)) < 2 ^ 32 →
  deferred d1 = <[k := g]> (deferred d) → ram_corrections d1 = ram_corrections d →
  same_tables (tbl d) (tbl d1) → usage_ok (tbl d1) →
  (∀ a, usage (tbl d1) a = usage (tbl d) a + generated_bill a k g) →
  ram_kept d d1.
Proof.
  intros Hinv Hk Hl Ed Er Hs Hu Heq. apply ram_kept_intro; try done; rewrite ?Ed, ?Er.
  - intros k' g' [[_ <-]|[_ Hg']]%lookup_insert_Some; [done|by eapply (di_len _ Hinv)].
  - apply (di_noted _ Hinv).
  - intros a. rewrite Heq. unfold deferred_bill, noted_bytes. rewrite Ed, Er, sum_map_insert by done. lia.
Qed.

(** ** The operations *)
Lemma db_add_ram_Ok d p delta d1 : deferred_inv d → in_s64 delta → db_add_ram d p delta = Ok d1 →
  deferred d1 = deferred d ∧ ram_corrections d1 = ram_corrections d ∧
  same_tables (tbl d) (tbl d1) ∧ usage_ok (tbl d1) ∧
  ∀ a, usage (tbl d1) a = usage (tbl d) a + (if decide (p = a) then delta else 0).
Proof.
  intros Hinv Hd H. unfold db_add_ram in H. apply bind_Ok in H as (t & H & [= <-]).
  apply add_ram_usage_Ok in H as (Hs & Hu & Heq); [|apply (ti_usage _ (di_tables _ Hinv))|done].
  by split_and!.
Qed.

Lemma billed_nonneg st a : 0 ≤ billed st a.
Proof.
  unfold billed. apply Z.add_nonneg_nonneg; apply sum_map_nonneg; intros; cbn.
  - unfold table_bill. by destruct (decide _).
  - unfold row_bill, row_size. destruct (decide _), k as [[|[]] ?]; cbn; try done.
    assert (0 ≤ billable_key_value) by done. lia.
Qed.

(** What is noted and what is stored for an account fit in its usage. *)
Lemma noted_bound d k g : deferred_inv d → deferred d !! k = Some g →
  0 ≤ noted_bytes d (g_payer g) ∧ noted_bytes d (g_payer g) + generated_bytes g < 2 ^ 64.
Proof.
  intros Hinv Hk. pose proof (di_other _ Hinv (g_payer g)) as Ho. unfold other_usage in Ho.
  pose proof (sum_map_lookup (generated_bill (g_payer g)) _ _ _ (generated_bill_nonneg _) Hk) as Hg.
  fold (deferred_bill d (g_payer g)) in Hg. unfold generated_bill in Hg.
  rewrite decide_True in Hg by done. pose proof (billed_nonneg (tbl d) (g_payer g)).
  assert (usage (tbl d) (g_payer g) < 2 ^ 64).
  { unfold usage. destruct (usages _ !! _) eqn:E; [|done]. by apply (ti_usage _ (di_tables _ Hinv)) in E as [_ ?]. }
  split; [|lia]. unfold noted_bytes. destruct (noted _ !! _) eqn:E; [|done]. apply (di_noted _ Hinv) in E. simpl. lia.
Qed.

Lemma add_to_ram_correction_Ok d p bytes d1 : deferred_inv d → 0 < bytes →
  0 ≤ noted_bytes d p → noted_bytes d p + bytes < 2 ^ 64 →
  add_to_ram_correction d p bytes = Ok d1 →
  deferred d1 = deferred d ∧ tbl d1 = tbl d ∧
  (∀ a c, noted (ram_corrections d1) !! a = Some c → 0 < ram_correction c) ∧
  ∀ a, noted_bytes d1 a = noted_bytes d a + (if decide (p = a) then bytes else 0).
Proof.
  intros Hinv Hb Hp Hfit H. unfold add_to_ram_correction in H. rewrite db_find_spec in H.
  assert (∃ c n, d1 = with_corrections d (mk_corrections (<[p := c]> (noted (ram_corrections d))) n) ∧
    ram_correction c = noted_bytes d p + bytes) as (c & n & -> & Hc).
  { unfold noted_bytes in *. destruct (noted _ !! p) as [r|] eqn:E; cbn [from_option] in *.
    - apply bind_Ok in H as (m & Hm & [= <-]). apply db_modify_Ok in Hm as (v & v' & Hv & [= <-] & ->).
      simplify_eq. eexists _, _. split; [done|]. cbn. rewrite wrap_small; [done|unfold in_u; lia].
    - apply bind_Ok in H as (m & Hm & [= <-]). apply db_create_Ok in Hm as [_ ->]. by eexists _, _. }
  split_and!; [done..| |]; cbn [ram_corrections with_corrections noted].
  - intros a c' [[_ <-]|[_ Ha]]%lookup_insert_Some; [lia|by eapply (di_noted _ Hinv)].
  - intros a. unfold noted_bytes at 1. cbn [ram_corrections with_corrections noted].
    destruct (decide (p = a)) as [<-|].
    + by rewrite lookup_insert_eq.
    + rewrite lookup_insert_ne by done. fold (noted_bytes d a). lia.
Qed.

Lemma replace_generated_kept env d k g b d' : deferred_inv d → deferred d !! k = Some g →
  replace_generated env d k g b = Ok d' → ram_kept d d'  ∧ deferred d' = delete k (deferred d).
Proof.
  intros Hinv Hk H. unfold replace_generated in H. apply bind_Ok in H as (? & _ & H).
  apply bind_Ok in H as (? & _ & H). apply bind_Ok in H as (d1 & H & [= <-]).
  pose proof (di_len _ Hinv _ _ Hk) as Hl. destruct (s64_generated g Hl) as (_ & _ & Hop).
  destruct (in_s64_generated g Hl) as [_ Hs]. destruct (generated_size_eq g Hl) as [Hsz _].
  destruct (replace_deferred env).
  - rewrite Hop in H. cbn [mbind result_bind] in H.
    apply db_add_ram_Ok in H as (Ed & Er & Hst & Hu & Heq); [|done..].
    split; [|cbn; by rewrite db_remove_spec, Ed].
    eapply take_out_kept; try done; unfold noted_bytes; rewrite Er; [apply (di_noted _ Hinv)|].
    intros a. rewrite Heq. unfold generated_bill. destruct (decide _); lia.
  - rewrite Hsz in H. destruct (noted_bound d k g Hinv Hk) as [H0 H1].
    pose proof (generated_bytes_range g Hl).
    apply add_to_ram_correction_Ok in H as (Ed & Et & Hn & Heq); [|done|lia|lia|lia].
    split; [|cbn; by rewrite db_remove_spec, Ed].
    eapply take_out_kept; try done; rewrite ?Et; [done|apply (ti_usage _ (di_tables _ Hinv))|].
    intros a. rewrite Heq. unfold generated_bill. destruct (decide _); lia.
Qed.

(** The object is created and then billed, whichever way the bill is made. *)
Lemma create_bill_kept d k g d1 d2 : deferred_inv d → Z.of_nat (length (g_packed_trx g)) < 2 ^ 32 →
  create_generated d k g = Ok d1 → deferred d2 = deferred d1 → ram_corrections d2 = ram_corrections d1 →
  same_tables (tbl d1) (tbl d2) → usage_ok (tbl d2) →
  (∀ a, usage (tbl d2) a = usage (tbl d1) a + (if decide (g_payer g = a) then s64 (set_size g) else 0)) →
  ram_kept d d2.
Proof.
  intros Hinv Hl H Ed Er Hs Hu Heq. unfold create_generated in H.
  apply bind_Ok in H as (? & _ & H). apply bind_Ok in H as (m & Hm & [= <-]).
  apply db_create_Ok in Hm as [Hk ->]. destruct (s64_generated g Hl) as (E & _ & _).
  eapply put_in_kept; try done. intros a. rewrite Heq, E. unfold generated_bill. by cbn.
Qed.

Lemma store_generated_kept env d x sid payer delay t b d' : deferred_inv d →
  Z.of_nat (length (pack_trx t)) < 2 ^ 32 →
  store_generated env d x sid payer delay t b = Ok d' → ram_kept d d'.
Proof.
  intros Hinv Hl H. unfold store_generated in H. apply bind_Ok in H as ([d1 id] & H1 & H).
  assert (ram_kept d d1) as Hk1.
  { rewrite db_find_spec in H1. destruct (deferred d !! _) eqn:E; [|simplify_eq; by apply ram_kept_refl].
    apply bind_Ok in H1 as (d2 & H1 & [= <- <-]). by eapply replace_generated_kept. }
  eapply ram_kept_trans; [done|]. destruct Hk1 as [Hinv1 _].
  apply bind_Ok in H as (d2 & H2 & H). apply bind_Ok in H as (? & _ & H).
  set (g := new_generated env d1 t id payer delay) in *.
  unfold db_add_ram in H. apply bind_Ok in H as (st & H & [= <-]).
  assert (tbl d2 = tbl d1) as Et.
  { unfold create_generated in H2. apply bind_Ok in H2 as (? & _ & H2).
    by apply bind_Ok in H2 as (? & _ & [= <-]). }
  apply add_ram_usage_Ok in H as (Hs & Hu & Heq);
    [|rewrite Et; apply (ti_usage _ (di_tables _ Hinv1))|apply s64_range].
  by apply (create_bill_kept d1 (x_receiver x, sid) g d2).
Qed.

Lemma schedule_deferred_kept env w x sid payer t b w' x' : deferred_inv (dbs w) →
  (∀ t', stamp pack_context env x sid t = Ok t' → Z.of_nat (length (pack_trx t')) < 2 ^ 32) →
  schedule_deferred_transaction decode pack_context env w x sid payer t b = Ok (w', x') →
  ram_kept (dbs w) (dbs w').
Proof.
  intros Hinv Hl H. unfold schedule_deferred_transaction in H.
  apply bind_Ok in H as (? & _ & H). apply bind_Ok in H as (? & _ & H).
  apply bind_Ok in H as (t' & Ht & H). apply bind_Ok in H as (w1 & Hw & H).
  apply bind_Ok in H as (? & _ & H). apply bind_Ok in H as (d & H & [= <- <-]).
  unfold charge_retirement in Hw. apply bind_Ok in Hw as (n & _ & [= <-]).
  cbn [dbs with_dbs with_tctx] in *. eapply store_generated_kept; [done| |done]. by apply Hl.
Qed.

Lemma schedule_transaction_kept env w t delay w' : deferred_inv (dbs w) →
  Z.of_nat (length (pack_trx t)) < 2 ^ 32 →
  schedule_transaction env w t delay = Ok w' → ram_kept (dbs w) (dbs w').
Proof.
  intros Hinv Hl H. unfold schedule_transaction in H. apply bind_Ok in H as (w1 & Hw & H).
  assert (dbs w1 = dbs w) as Ew.
  { destruct (_ =? 0); [|by simplify_eq]. unfold charge_retirement in Hw.
    by apply bind_Ok in Hw as (n & _ & [= <-]). }
  rewrite Ew in H. apply bind_Ok in H as (d & Hd & H). apply bind_Ok in H as (st & H & [= <-]).
  cbn [dbs with_dbs]. assert (tbl d = tbl (dbs w)) as Et.
  { unfold create_generated in Hd. apply bind_Ok in Hd as (? & _ & Hd).
    by apply bind_Ok in Hd as (? & _ & [= <-]). }
  unfold trx_add_ram_usage in H. apply bind_Ok in H as (r & Hr & [= <-]).
  set (g := new_generated _ _ _ _ _ _) in *.
  eapply (create_bill_kept (dbs w) _ g d); try done; cbn [tbl with_tbl].
  all: eapply (pending_usage_Ok (tbl d)); [rewrite Et; apply (ti_usage _ (di_tables _ Hinv))|apply s64_range|done].
Qed.

Lemma cancel_deferred_kept w sid sender b w' : deferred_inv (dbs w) →
  cancel_deferred_transaction w sid sender = Ok (b, w') → ram_kept (dbs w) (dbs w').
Proof.
  intros Hinv H. unfold cancel_deferred_transaction in H. rewrite db_find_spec in H.
  destruct (deferred _ !! _) as [g|] eqn:E; [|simplify_eq; by apply ram_kept_refl].
  apply bind_Ok in H as (d & H & [= <- <-]). pose proof (di_len _ Hinv _ _ E) as Hl.
  destruct (s64_generated g Hl) as (_ & Hsz & _). rewrite Hsz in H.
  apply db_add_ram_Ok in H as (Ed & Er & Hs & Hu & Heq); [|done|by apply in_s64_generated].
  eapply take_out_kept; try done; unfold noted_bytes; rewrite Er; [apply (di_noted _ Hinv)|].
  intros a. rewrite Heq. unfold generated_bill. destruct (decide _); lia.
Qed.

Lemma remove_scheduled_kept d k g delta d' : deferred_inv d → deferred d !! k = Some g →
  remove_scheduled_transaction d k g = Ok (delta, d') → ram_kept d d'.
Proof.
  intros Hinv Hk H. unfold remove_scheduled_transaction in H.
  apply bind_Ok in H as (r & H & [= <- <-]). pose proof (di_len _ Hinv _ _ Hk) as Hl.
  destruct (s64_generated g Hl) as (_ & Hsz & _). rewrite Hsz in H.
  apply (pending_usage_Ok (tbl d) _ _ (with_resources (tbl d) r)) in H as [Hu Heq];
    [|apply (ti_usage _ (di_tables _ Hinv))|by apply in_s64_generated].
  apply (take_out_kept d (with_tbl d (with_resources (tbl d) r)) k g); try done; [apply (di_noted _ Hinv)|].
  intros a. cbn [tbl with_tbl]. rewrite Heq. unfold noted_bytes, generated_bill. cbn.
  destruct (decide _); lia.
Qed.

(** ** The activation of [replace_deferred] *)
Lemma first_by_id_spec m :
  match first_by_id m with Some (k, c) => m !! k = Some c | None => m = ∅ end.
Proof.
  unfold first_by_id. pose proof (merge_sort_Permutation id_before (map_to_list m)) as Hp.
  destruct (merge_sort _ _) as [|[k c] l]; cbn [head].
  - apply map_to_list_empty_iff. symmetry in Hp. by apply Permutation_nil_r in Hp.
  - apply elem_of_map_to_list. rewrite <- Hp. by left.
Qed.

Lemma activation_step_total st a c : usage_ok st → 0 < c ≤ usage st a → usage st a < 2 ^ 63 →
  ∃ r, activation_step (resources st) a c = Ok r ∧ usage_ok (with_resources st r) ∧
    ∀ b, usage (with_resources st r) b = usage st b + (if decide (a = b) then - c else 0).
Proof.
  intros Hu Hc Hlt.
  assert (∃ u, usages (resources st) !! a = Some u ∧ ram_usage u = usage st a) as (u & Ha & Eu).
  { unfold usage in *. destruct (usages _ !! a) as [u|]; [by exists u|cbn in Hc; lia]. }
  assert (∃ r, activation_step (resources st) a c = Ok r ∧
    add_pending_ram_usage (resources st) a (- c) = Ok r) as (r & H & Hr).
  { unfold activation_step, get_account_ram_usage. rewrite db_get_spec, Ha. cbn [of_option mbind result_bind].
    rewrite Eu, !s64_small, (int64_op_Ok (- c)) by (unfold in_s64; lia). cbn [mbind result_bind].
    rewrite wrap_small by (unfold in_u; lia). destruct (Z.ltb_spec (usage st a) c); [lia|].
    cbn [mbind result_bind]. pose proof (Hu _ _ Ha) as Hin. unfold in_u in Hin.
    rewrite (add_pending_ram_usage_exact _ _ _ _ Ha) by (unfold in_u, in_s64 in *; lia).
    rewrite !(proj2 (Z.leb_le _ _)) by (unfold u64_max; lia). eexists. by split. }
  exists r. split; [done|].
  by apply (pending_usage_Ok st a (- c) (with_resources st r)); [|unfold in_s64; lia|].
Qed.

Lemma activation_loop_total fuel : ∀ st m, (size m ≤ fuel)%nat → usage_ok st →
  (∀ a, usage st a < 2 ^ 63) →
  (∀ a c, m !! a = Some c → 0 < ram_correction c ≤ usage st a) →
  ∃ r, activation_loop fuel (resources st) m = Ok (r, ∅) ∧ usage_ok (with_resources st r) ∧
    ∀ a, usage (with_resources st r) a = usage st a - from_option ram_correction 0 (m !! a).
Proof.
  induction fuel as [|fuel IH]; intros st m Hf Hu Hlt Hm; cbn [activation_loop];
    pose proof (first_by_id_spec m) as Hfirst; destruct (first_by_id m) as [[k c]|].
  - assert (m = ∅) as -> by (apply map_size_empty_inv; lia). by rewrite lookup_empty in Hfirst.
  - subst m. exists (resources st). split_and!; [done..|]. intros a. rewrite lookup_empty.
    change (usage (with_resources st (resources st)) a) with (usage st a). cbn. lia.
  - destruct (activation_step_total st k (ram_correction c)) as (r & -> & Hu1 & Heq1);
      [done|by apply Hm|done|]. cbn [mbind result_bind]. rewrite db_remove_spec.
    destruct (IH (with_resources st r) (delete k m)) as (r' & Hr' & Hu' & Heq').
    { rewrite map_size_delete_Some by done. lia. }
    { done. }
    { intros a. rewrite Heq1. specialize (Hlt a). specialize (Hm _ _ Hfirst). destruct (decide _); lia. }
    { intros a c' [Hne Ha]%lookup_delete_Some. rewrite Heq1, decide_False, Z.add_0_r by done. by apply Hm. }
    exists r'. split_and!; [done..|]. intros a.
    change (with_resources (with_resources st r) r') with (with_resources st r') in Heq'.
    rewrite Heq', Heq1. destruct (decide (k = a)) as [<-|].
    + rewrite lookup_delete_eq, Hfirst. cbn. lia.
    + rewrite lookup_delete_ne by done. lia.
  - subst m. exists (resources st). split_and!; [done..|]. intros a. rewrite lookup_empty.
    change (usage (with_resources st (resources st)) a) with (usage st a). cbn. lia.
Qed.

Lemma activation_total d : deferred_inv d → (∀ a, usage (tbl d) a < 2 ^ 63) →
  ∃ d', on_activation_replace_deferred d = Ok d' ∧ ram_kept d d' ∧
    (∀ a, noted_bytes d' a = 0) ∧ deferred d' = deferred d ∧ same_tables (tbl d) (tbl d').
Proof.
  intros Hinv Hlt.
  destruct (activation_loop_total (size (noted (ram_corrections d))) (tbl d) (noted (ram_corrections d)))
    as (r & Hr & Hu & Heq); [done|apply (ti_usage _ (di_tables _ Hinv))|done| |].
  { intros a c Ha. split; [by eapply (di_noted _ Hinv)|]. pose proof (di_other _ Hinv a) as Ho.
    unfold other_usage, noted_bytes in Ho. rewrite Ha in Ho. cbn in Ho.
    pose proof (billed_nonneg (tbl d) a).
    pose proof (sum_map_nonneg (generated_bill a) (deferred d) (generated_bill_nonneg a)).
    unfold deferred_bill in Ho. lia. }
  unfold on_activation_replace_deferred. rewrite Hr. cbn [mbind result_bind]. eexists. split; [done|].
  split_and!; [|intros a; by unfold noted_bytes|done|done].
  apply ram_kept_intro; try done; cbn [tbl with_tbl with_corrections]; [apply (di_len _ Hinv)|].
  intros a. rewrite Heq. unfold deferred_bill, noted_bytes. cbn. rewrite lookup_empty. cbn. lia.
Qed.

(** ** What is billed, after any operations *)

(** A call on the tables, an operation on the deferred transactions, or the
    activation.  A packed transaction has a 32-bit size. *)
Inductive ram_step : database → database → Prop :=
  | ram_tables d st : api_step f64_rank f128_rank f64_is_nan f128_is_nan (tbl d) st → ram_step d (with_tbl d st)
  | ram_schedule env w x sid payer t b w' x' :
      (∀ t', stamp pack_context env x sid t = Ok t' → Z.of_nat (length (pack_trx t')) < 2 ^ 32) →
      schedule_deferred_transaction decode pack_context env w x sid payer t b = Ok (w', x') →
      ram_step (dbs w) (dbs w')
  | ram_delay env w t delay w' : Z.of_nat (length (pack_trx t)) < 2 ^ 32 →
      schedule_transaction env w t delay = Ok w' → ram_step (dbs w) (dbs w')
  | ram_cancel w sid sender b w' :
      cancel_deferred_transaction w sid sender = Ok (b, w') → ram_step (dbs w) (dbs w')
  | ram_retire d k g delta d' : deferred d !! k = Some g →
      remove_scheduled_transaction d k g = Ok (delta, d') → ram_step d d'
  | ram_activate d d' : (∀ a, usage (tbl d) a < 2 ^ 63) →
      on_activation_replace_deferred d = Ok d' → ram_step d d'.

Lemma ram_step_kept d d' : deferred_inv d → ram_step d d' → ram_kept d d'.
Proof.
  intros Hinv H. destruct H.
  - destruct (api_steps_kept f64_rank f128_rank f64_is_nan f128_is_nan (tbl d) st (di_tables _ Hinv))
      as (Hb & Hbal & _); [by apply rtc_once|].
    assert (∀ a, other_usage (with_tbl d st) a = other_usage d a) as He.
    { intros a. specialize (Hbal a). unfold balance in Hbal. unfold other_usage.
      change (deferred_bill (with_tbl d st) a) with (deferred_bill d a).
      change (noted_bytes (with_tbl d st) a) with (noted_bytes d a). cbn [tbl with_tbl]. lia. }
    split; [|done]. split; [done|apply (di_len _ Hinv)|apply (di_noted _ Hinv)|].
    intros a. rewrite He. apply (di_other _ Hinv).
  - by eapply schedule_deferred_kept.
  - by eapply schedule_transaction_kept.
  - by eapply cancel_deferred_kept.
  - by eapply remove_scheduled_kept.
  - destruct (activation_total d) as (d1 & E & Hk & _); [done..|].
    assert (d' = d1) as -> by congruence. exact Hk.
Qed.

(** Nothing stored and nothing noted. *)
Definition nothing_stored d : Prop :=
  no_tables (tbl d) ∧ deferred d = ∅ ∧ noted (ram_corrections d) = ∅.

Lemma nothing_stored_inv d : nothing_stored d →
  deferred_inv d ∧ ∀ a, other_usage d a = usage (tbl d) a.
Proof.
  intros (Ht & Ed & En). destruct (no_tables_base _ Ht) as (Hb & _ & Hz).
  assert (∀ a, other_usage d a = usage (tbl d) a) as He.
  { intros a. unfold other_usage, deferred_bill, noted_bytes. rewrite Hz, Ed, En, lookup_empty, sum_map_empty.
    cbn. lia. }
  split; [|done]. split; [done| | |]; rewrite ?Ed, ?En; [done..|]. intros a. rewrite He. unfold usage.
  destruct (usages _ !! a) eqn:E; [|done]. by apply (ti_usage _ Hb) in E as [? _].
Qed.

Lemma ram_steps_kept d0 d : deferred_inv d0 → rtc ram_step d0 d → ram_kept d0 d.
Proof.
  intros Hinv H. revert Hinv. induction H as [|d0 d1 d2 H _ IH]; intros Hinv; [by apply ram_kept_refl|].
  pose proof (ram_step_kept _ _ Hinv H) as Hk. eapply ram_kept_trans; [done|]. apply IH. by destruct Hk.
Qed.

(** Whatever contracts and the chain do with tables and deferred
    transactions, in any order and with or without [replace_deferred]: the RAM
    usage of an account is what it was, plus its tables and rows, plus the
    deferred transactions it pays for, plus the bytes noted as owed to it. *)
Theorem deferred_ram_exact d0 d : nothing_stored d0 → rtc ram_step d0 d →
  ∀ a, usage (tbl d) a = usage (tbl d0) a + billed (tbl d) a + deferred_bill d a + noted_bytes d a.
Proof.
  intros H0 Hrtc a. destruct (nothing_stored_inv _ H0) as [Hinv Hz].
  destruct (ram_steps_kept _ _ Hinv Hrtc) as [_ He]. specialize (He a). rewrite Hz in He.
  unfold other_usage in He. lia.
Qed.

(** C18.  The activation of [replace_deferred] always succeeds as long as no
    account uses 2^63 bytes: the loop ends, every correction is paid back in
    full, and the usage is then explained by what is stored alone. *)
Theorem activation_pays_back d0 d : nothing_stored d0 → rtc ram_step d0 d →
  (∀ a, usage (tbl d) a < 2 ^ 63) →
  ∃ d', on_activation_replace_deferred d = Ok d' ∧ deferred d' = deferred d ∧
    rows (tbl d') = rows (tbl d) ∧ (∀ a, noted_bytes d' a = 0) ∧
    ∀ a, usage (tbl d') a = usage (tbl d0) a + billed (tbl d') a + deferred_bill d' a.
Proof.
  intros H0 Hrtc Hlt. destruct (nothing_stored_inv _ H0) as [Hinv0 Hz].
  destruct (ram_steps_kept _ _ Hinv0 Hrtc) as [Hinv He].
  destruct (activation_total d Hinv Hlt) as (d' & Hd' & [_ Hk] & Hn & Ed & (_ & _ & Er & _)).
  exists d'. split_and!; try done. intros a. specialize (Hk a). rewrite He, Hz in Hk.
  unfold other_usage in Hk. rewrite Hn in Hk. lia.
Qed.
End theory.

(** ** Witnesses *)

(** Account 7 schedules a transaction under its own name and replaces it, before
    the features are active and outside block production. *)
Definition later_env : exec_env := {|
  trx_part := {| cfg := initial_configuration; skip_trx_checks := false; producing_block := false;
                 resource_greylisted := λ _, false; only_bill_first_authorizer := false;
                 pending_slot := 100 |};
  ctl := demo_control;
  lists := {| actor_whitelist := []; actor_blacklist := []; contract_whitelist := ∅;
              contract_blacklist := ∅; action_blacklist := ∅; key_blacklist := ∅;
              sender_bypass_whiteblacklist := ∅ |};
  native_fees_map := ∅; enforce_whiteblacklist := true; skip_auth_check := false;
  restrict_action_to_self := false; ram_restrictions_active := false; forward_setcode := false;
  no_duplicate_deferred_id := false; replace_deferred := false;
  only_link_to_existing_permission := false; disallow_empty_producer_schedule := false;
  ram_billing_in_notify := false; mitigations_disabled := false; published_at := 5;
  this_trx_id := mk_digest 1 2 3 4; this_trx := demo_signed [];
  head_block_id := mk_digest 5 6 7 8; head_block_num := 5; features := empty_feature_set;
  feature_activated := λ _, false; active_sch := mk_schedule 0 []; pending_sch := mk_schedule 0 [] |}.
Definition later_action (n : Z) : action := mk_action 7 6 [PermissionLevel 7 active_name] [n].
Definition later_trx (n : Z) : transaction := mk_transaction plain_header [] [later_action n] [].
Definition later_actx : actx := mk_actx 7 (later_action 0) 0 1 1 true false [(7, 1)] [] [].
Definition later_db : database :=
  mk_database (mk_state ∅ 0 ∅ (with_usages demo_db {[ 7 := demo_account ]}) ∅ ∅ ∅)
    demo_auth_db {[ 7 := mk_account 0 [] ]} ∅ ∅ (mk_global None (mk_schedule 0 []) initial_configuration)
    (mk_force {| ControllerLists.actor_blacklist := []; ControllerLists.contract_blacklist := [];
                 resource_greylist := [] |} default_gmr) [] 0 ∅ ∅ (mk_corrections ∅ 0).
Definition no_lists : name_lists (gset Z) :=
  {| ControllerLists.actor_blacklist := ∅; ControllerLists.contract_blacklist := ∅; resource_greylist := ∅ |}.
Definition later_world (d : database) : world :=
  mk_world d (with_net bill_context (mk_net 1000 true false 1000 0)) [] [] no_lists.
Definition later_schedule (d : database) (n : Z) : database :=
  match schedule_deferred_transaction (λ _, DOther) (λ _, []) later_env (later_world d) later_actx 1 7
          (later_trx n) true with
  | Ok (w, _) => dbs w | Throw _ => d end.
Definition later_replaced : database := later_schedule (later_schedule later_db 1) 2.

Abbreviation later_step := (ram_step (λ _, DOther) (λ _, []) Datatypes.id Datatypes.id (λ _, false) (λ _, false)).

Lemma later_schedule_step d n : rtc later_step d (later_schedule d n).
Proof.
  unfold later_schedule. destruct (schedule_deferred_transaction _ _ _ _ _ _ _ _ _) as [[w x]|] eqn:E;
    [|apply rtc_refl].
  apply rtc_once. refine (ram_schedule _ _ _ _ _ _ later_env (later_world d) later_actx 1 7 (later_trx n) true w x _ E).
  intros t _. cbn. lia.
Qed.
Lemma later_reached : rtc later_step later_db later_replaced.
Proof. etrans; apply later_schedule_step. Qed.

Lemma later_nothing : nothing_stored later_db.
Proof.
  split_and!; [|done|done]. repeat split; intros; simpl in *;
    match goal with H : _ !! _ = Some _ |- _ =>
      apply lookup_singleton_Some in H as [_ <-] end; vm_compute; congruence.
Qed.

(** The replaced transaction stays billed, and is noted. *)
Lemma deferred_ram_exact_witness :
  usage (tbl later_replaced) 7 =
    usage (tbl later_db) 7 + billed (tbl later_replaced) 7 + deferred_bill later_replaced 7
      + noted_bytes later_replaced 7 ∧
  deferred_bill later_replaced 7 = 273 ∧ noted_bytes later_replaced 7 = 273.
Proof.
  split; [|vm_compute; split; reflexivity].
  exact (deferred_ram_exact (λ _, DOther) (λ _, []) Datatypes.id Datatypes.id (λ _, false) (λ _, false) later_db later_replaced
    later_nothing later_reached 7).
Defined.

Lemma later_usage a : usage (tbl later_replaced) a < 2 ^ 63.
Proof.
  assert (usages (resources (tbl later_replaced)) =
    {[ 7 := {| net_usage := net_usage demo_account; cpu_usage := cpu_usage demo_account; ram_usage := 1546 |} ]})
    as E by (vm_compute; reflexivity).
  unfold usage. rewrite E. destruct (decide (7 = a)) as [<-|].
  - by rewrite lookup_singleton_eq.
  - by rewrite lookup_singleton_ne.
Qed.

Lemma activation_pays_back_witness :
  ∃ d', on_activation_replace_deferred later_replaced = Ok d' ∧ deferred d' = deferred later_replaced ∧
    rows (tbl d') = rows (tbl later_replaced) ∧ (∀ a, noted_bytes d' a = 0) ∧
    ∀ a, usage (tbl d') a = usage (tbl later_db) a + billed (tbl d') a + deferred_bill d' a.
Proof.
  exact (activation_pays_back (λ _, DOther) (λ _, []) Datatypes.id Datatypes.id (λ _, false) (λ _, false) later_db later_replaced
    later_nothing later_reached later_usage).
Defined.
