(* ===== verification/SystemActions.v ===== *)
(** * System actions ([eosio_contract.cpp], [contract_types.hpp],
    [native_contracts_apply.cpp])

    The native handlers of the account that holds the system contract:
    creation of accounts, code and interface of a contract, permissions, links,
    fees, and cancellation of delayed transactions.  A handler works on the
    database through the [apply_context] of the action it is called for. *)

From S2P Require Import Prelude Chainbase Names Assets Config Merkle BlockHeader ProtocolFeatures ChainConfig ConfigOnChain TxFee Accumulator.
From S2P Require Import ResourceLimits ControllerLists Authority AuthorityChecker Permissions.
From S2P Require Import BlockTimestamp Transaction AccessLists TransactionContext ContractTables ActionContext Deferred.
From Stdlib Require Import Ascii.
Local Open Scope Z_scope.

(** ** Data *)
Record newaccount := {
  na_creator : Z; na_name : Z; na_owner : authority; na_active : authority }.
Record setcode := { sc_account : Z; vmtype : Z; vmversion : Z; sc_code : list Z }.
Record setfee := {
  sf_account : Z; sf_action : Z; sf_fee : asset; sf_cpu : Z; sf_net : Z; sf_ram : Z }.
Record setabi := { sa_account : Z; sa_abi : list Z }.
Record canceldelay_data := { cd_auth : permission_level; cd_trx_id : digest_type }.

(** [fc::raw::unpack] of the data of the actions, the packed size of a key, the
    trimming of names, and the validation of a module by the engine. *)
Class SystemFc := {
  unpack_newaccount : list Z → result newaccount;
  unpack_setcode : list Z → result setcode;
  unpack_setfee : list Z → result setfee;
  unpack_setabi : list Z → result setabi;
  unpack_updateauth : list Z → result updateauth;
  unpack_deleteauth : list Z → result deleteauth;
  unpack_linkauth : list Z → result linkauth;
  unpack_unlinkauth : list Z → result unlinkauth;
  unpack_canceldelay : list Z → result canceldelay_data;
  unpack_setconfig : list Z → result setconfig;
  unpack_hello : list Z → result unit;
  key_size : public_key → Z;
  trim_right_if : list ascii → (ascii → bool) → list ascii;
  wasm_validate : list Z → result unit;
}.

(** ** Sizes *)
Definition billable_authority : Z := billable_size_v (3 * fixed_overhead_shared_vector_ram_bytes + 4).
Definition billable_permission : Z :=
  billable_size_v (billable_authority + 64 + 5 * overhead_per_row_per_index_ram_bytes).
Definition billable_link : Z := billable_size_v (40 + overhead_per_row_per_index_ram_bytes * 3).

(** [s.find( prefix ) == 0] *)
Definition starts_with (s : list ascii) (prefix : string) : bool :=
  bool_decide (take (String.length prefix) s = String.list_ascii_of_string prefix).

Section handlers.
Context {db : Chainbase} {fc : TrxFc} {cr : Crypto} {sf : SystemFc}.
Implicit Types (env : exec_env) (w : world) (x : actx) (d : database).

(** [act.data_as<T>()]; [T::get_account()] is the system account for all the
    types but [hello]. *)
Definition data_as_of {A} (unpack : list Z → result A) (account name : Z) (a : Transaction.action) :
    result A :=
  _ ← EOS_ASSERT (a_account a =? account) action_type_exception;
  _ ← EOS_ASSERT (a_name a =? name) action_type_exception;
  unpack (a_data a).
Definition data_as {A} (unpack : list Z → result A) (name : Z) (a : Transaction.action) : result A :=
  data_as_of unpack system_account_name name a.

Definition require_auth env x (account : Z) : result unit :=
  require_authorization (table_env env x) account.

(** [config::billable_size_v<permission_object> + auth.get_billable_size()] *)
Definition permission_bytes (a : authority) : Z :=
  u64 (billable_permission + get_billable_size key_size a).

(** ** Authorities *)
Definition check_authority_account d (p : permission_level_weight) : result unit :=
  let l := plw_permission p in
  _ ← EOS_ASSERT (is_account d (actor l)) action_validate_exception;
  if (permission l =? owner_name) || (permission l =? active_name) || (permission l =? eosio_code_name)
  then Ok tt
  else match get_permission (auths d) l with
       | Ok _ => Ok tt
       | Throw permission_query_exception => Throw action_validate_exception
       | Throw e => Throw e
       end.

Definition validate_authority_precondition env w (a : authority) : result unit :=
  _ ← fold_res (λ _, check_authority_account (dbs w)) tt (accounts a);
  if enforce_lists env
  then fold_res (λ _ k, check_key_list (now_lists env w) (kw_key k)) tt (keys a)
  else Ok tt.

(** ** [newaccount] *)
Definition new_metadata : account_metadata := mk_metadata 0 0 0 0 zero_digest 0 false 0 0.

Definition check_account_name (name : Z) : result unit :=
  let name_str := to_string trim_right_if name in
  _ ← EOS_ASSERT (negb (name_empty name)) action_validate_exception;
  EOS_ASSERT (bool_decide (length name_str ≤ 12)%nat) action_validate_exception.

Definition check_prefix (creator name : Z) : result unit :=
  if (creator =? system_account_name) || (creator =? producers_account_name)
     || (creator =? chain_config_name) then Ok tt
  else EOS_ASSERT (negb (starts_with (to_string trim_right_if name) "codex.")) action_validate_exception.

(** [creation_date] is a slot. *)
Definition creation_slot (t : Z) : Z := set_time_point block_interval_ms block_timestamp_epoch t.

(** The two objects of an account. *)
Definition create_account env d (name : Z) : result database :=
  _ ← EOS_ASSERT (negb (is_account d name)) account_name_exists_exception;
  a ← db_create (account_objects d) name (mk_account (creation_slot (pending_block_time (ctl env))) []);
  m ← db_create (metadata d) name new_metadata;
  Ok (with_metadata (with_accounts d a) m).

Definition apply_system_native_newaccount env w x : result world :=
  create ← data_as unpack_newaccount (N_ "newaccount") (x_act x);
  _ ← require_auth env x (na_creator create);
  _ ← EOS_ASSERT (validate (na_owner create)) action_validate_exception;
  _ ← EOS_ASSERT (validate (na_active create)) action_validate_exception;
  _ ← check_account_name (na_name create);
  _ ← db_get (metadata (dbs w)) (na_creator create);
  _ ← check_prefix (na_creator create) (na_name create);
  d ← create_account env (dbs w) (na_name create);
  let w := with_dbs w d in
  _ ← validate_authority_precondition env w (na_owner create);
  _ ← validate_authority_precondition env w (na_active create);
  '(a, owner_permission) ←
    create_permission (now_ctl env d) (auths d) (na_name create) owner_name 0 (na_owner create) 0;
  '(a, active_permission) ←
    create_permission (now_ctl env d) a (na_name create) active_name (id owner_permission) (na_active create) 0;
  let d := with_auths d a in
  r ← initialize_account (resources (tbl d)) (na_name create);
  let d := with_tbl d (with_resources (tbl d) r) in
  let ram_delta :=
    s64 (overhead_per_account_ram_bytes + 2 * billable_permission
         + get_billable_size key_size (auth owner_permission)
         + get_billable_size key_size (auth active_permission)) in
  d ← db_add_ram d (na_name create) ram_delta;
  Ok (with_dbs w d).

(** ** [setcode] *)
Definition release_code d (m : account_metadata) (code_hash' : digest_type) : result (Z * database) :=
  let k := (code_hash m, vm_type m, vm_version m) in
  old ← db_get (codes d) k;
  _ ← EOS_ASSERT (negb (bool_decide (code_hash m = code_hash'))) set_exact_code;
  old_size ← int64_op (Z.of_nat (length (code old)) * setcode_ram_bytes_multiplier);
  if code_ref_count old =? 1
  then Ok (old_size, with_codes d (db_remove (codes d) k))
  else
    c ← db_modify (codes d) k (λ o, Ok (mk_code (code o) (u64 (code_ref_count o - 1)) (first_block_used o)));
    Ok (old_size, with_codes d c).

(** A code is stored once, with the number of accounts that run it. *)
Definition add_code (c : gmap code_key code_object) (k : code_key) (bytes : list Z) (first : Z) :
    result (gmap code_key code_object) :=
  match db_find c k with
  | Some _ =>
      db_modify c k (λ o, Ok (mk_code (code o) (u64 (code_ref_count o + 1)) (first_block_used o)))
  | None => db_create c k (mk_code bytes 1 first)
  end.

Definition install_code env d (k : code_key) (bytes : list Z) : result database :=
  c ← add_code (codes d) k bytes (u32 (head_block_num env + 1)); Ok (with_codes d c).

Definition apply_system_native_setcode env w x : result world :=
  act ← data_as unpack_setcode (N_ "setcode") (x_act x);
  _ ← require_auth env x (sc_account act);
  _ ← EOS_ASSERT (vmtype act =? 0) invalid_contract_vm_type;
  _ ← EOS_ASSERT (vmversion act =? 0) invalid_contract_vm_version;
  let code_size := Z.of_nat (length (sc_code act)) in
  let hash := if 0 <? code_size then sha256 (take (Z.to_nat (u32 code_size)) (sc_code act))
              else zero_digest in
  _ ← (if 0 <? code_size then wasm_validate (sc_code act) else Ok tt);
  let d := dbs w in
  account ← db_get (metadata d) (sc_account act);
  let existing_code := negb (bool_decide (code_hash account = zero_digest)) in
  _ ← EOS_ASSERT ((0 <? code_size) || existing_code) set_exact_code;
  new_size ← int64_op (code_size * setcode_ram_bytes_multiplier);
  '(old_size, d) ← (if existing_code then release_code d account hash else Ok (0, d));
  d ← (if 0 <? code_size then install_code env d (hash, vmtype act, vmversion act) (sc_code act) else Ok d);
  m ← db_modify (metadata d) (sc_account act) (λ a,
        Ok (mk_metadata (recv_sequence a) (auth_sequence a) (u64 (code_sequence a + 1)) (abi_sequence a)
              hash (pending_block_time (ctl env)) (is_privileged a) (vmtype act) (vmversion act)));
  let d := with_metadata d m in
  d ← (if new_size =? old_size then Ok d else db_add_ram d (sc_account act) (new_size - old_size));
  Ok (with_dbs w d).

(** ** [setfee] *)
Definition apply_system_native_setfee env w x : result world :=
  act ← data_as unpack_setfee (N_ "setfee") (x_act x);
  _ ← (if (sf_cpu act =? 0) && (sf_net act =? 0) && (sf_ram act =? 0)
       then if has_authorization (table_env env x) chain_config_name then Ok tt
            else require_auth env x (sf_account act)
       else require_auth env x chain_config_name);
  _ ← EOS_ASSERT (0 <? amount (sf_fee act)) invalid_action_args_exception;
  _ ← EOS_ASSERT (amount (sf_fee act) <=? 200 * 10000) invalid_action_args_exception;
  let key := (sf_account act, sf_action act) in
  let obj := {| af_fee := sf_fee act; cpu_limit := sf_cpu act; TxFee.net_limit := sf_net act;
                ram_limit := sf_ram act |} in
  f ← match db_find (fee_objects (dbs w)) key with
      | None => db_create (fee_objects (dbs w)) key obj
      | Some _ => db_modify (fee_objects (dbs w)) key (λ _, Ok obj)
      end;
  Ok (with_dbs w (with_fee_objects (dbs w) f)).

(** ** [setabi] *)
Definition apply_system_native_setabi env w x : result world :=
  act ← data_as unpack_setabi (N_ "setabi") (x_act x);
  _ ← require_auth env x (sa_account act);
  let d := dbs w in
  account ← db_get (account_objects d) (sa_account act);
  let new_size := Z.of_nat (length (sa_abi act)) in
  let old_size := Z.of_nat (length (abi account)) in
  a ← db_modify (account_objects d) (sa_account act) (λ a, Ok (mk_account (creation_date a) (sa_abi act)));
  _ ← db_get (metadata d) (sa_account act);
  m ← db_modify (metadata d) (sa_account act) (λ a,
        Ok (mk_metadata (recv_sequence a) (auth_sequence a) (code_sequence a) (u64 (abi_sequence a + 1))
              (code_hash a) (last_code_update a) (is_privileged a) (vm_type a) (vm_version a)));
  let d := with_metadata (with_accounts d a) m in
  d ← (if new_size =? old_size then Ok d else db_add_ram d (sa_account act) (new_size - old_size));
  Ok (with_dbs w d).

(** ** [updateauth] *)
Definition check_update w (update : updateauth) : result unit :=
  let perm := up_permission update in
  let delay := ChainConfig.max_transaction_delay (configuration (gpo (dbs w))) in
  _ ← EOS_ASSERT (negb (name_empty perm)) action_validate_exception;
  _ ← EOS_ASSERT (negb (starts_with (to_string trim_right_if perm) "eosio.")) action_validate_exception;
  _ ← EOS_ASSERT (negb (starts_with (to_string trim_right_if perm) "force.")) action_validate_exception;
  _ ← EOS_ASSERT (negb (perm =? up_parent update)) action_validate_exception;
  _ ← db_get (account_objects (dbs w)) (up_account update);
  _ ← EOS_ASSERT (validate (up_auth update)) action_validate_exception;
  _ ← (if perm =? active_name
       then EOS_ASSERT (up_parent update =? owner_name) action_validate_exception else Ok tt);
  _ ← (if perm =? owner_name
       then EOS_ASSERT (name_empty (up_parent update)) action_validate_exception
       else EOS_ASSERT (negb (name_empty (up_parent update))) action_validate_exception);
  match last (waits (up_auth update)) with
  | Some l => EOS_ASSERT (wait_sec l <=? delay) action_validate_exception
  | None => Ok tt
  end.

Definition parent_id_of d (update : updateauth) : result Z :=
  if up_permission update =? owner_name then Ok 0
  else p ← get_permission (auths d) (PermissionLevel (up_account update) (up_parent update));
       Ok (id p).

Definition apply_system_native_updateauth env w x : result world :=
  update ← data_as unpack_updateauth (N_ "updateauth") (x_act x);
  _ ← require_auth env x (up_account update);
  _ ← check_update w update;
  _ ← validate_authority_precondition env w (up_auth update);
  let d := dbs w in
  perm ← find_permission (auths d) (PermissionLevel (up_account update) (up_permission update));
  parent_id ← parent_id_of d update;
  match perm with
  | Some p =>
      _ ← EOS_ASSERT (parent_id =? parent p) action_validate_exception;
      let old_size := s64 (permission_bytes (auth p)) in
      a ← modify_permission (now_ctl env d) (auths d) p (up_auth update);
      let new_size := s64 (permission_bytes (up_auth update)) in
      delta ← int64_op (new_size - old_size);
      d ← db_add_ram (with_auths d a) (owner p) delta;
      Ok (with_dbs w d)
  | None =>
      '(a, p) ← create_permission (now_ctl env d) (auths d) (up_account update)
                  (up_permission update) parent_id (up_auth update) 0;
      d ← db_add_ram (with_auths d a) (up_account update) (s64 (permission_bytes (auth p)));
      Ok (with_dbs w d)
  end.

(** ** [deleteauth] *)

(** The range of [by_permission_name] for a permission is not empty. *)
Definition is_linked (a : auth_db) (account perm : Z) : bool :=
  existsb (λ kl, (kl.1.1.1 =? account) && (required_permission kl.2 =? perm)) (map_to_list (links a)).

Definition apply_system_native_deleteauth env w x : result world :=
  remove ← data_as unpack_deleteauth (N_ "deleteauth") (x_act x);
  _ ← require_auth env x (del_account remove);
  _ ← EOS_ASSERT (negb (del_permission remove =? active_name)) action_validate_exception;
  _ ← EOS_ASSERT (negb (del_permission remove =? owner_name)) action_validate_exception;
  let d := dbs w in
  _ ← EOS_ASSERT (negb (is_linked (auths d) (del_account remove) (del_permission remove)))
        action_validate_exception;
  p ← get_permission (auths d) (PermissionLevel (del_account remove) (del_permission remove));
  let old_size := s64 (permission_bytes (auth p)) in
  a ← remove_permission (auths d) p;
  delta ← int64_op (- old_size);
  d ← db_add_ram (with_auths d a) (del_account remove) delta;
  Ok (with_dbs w d).

(** ** [linkauth] and [unlinkauth] *)
Definition with_links (a : auth_db) l : auth_db :=
  AuthDb (permissions a) (next_id a) (permission_usages a) (next_usage_id a) l (generated a).

(** The index [by_name] of the permissions has an object with this name. *)
Definition named_permission (a : auth_db) (perm : Z) : bool :=
  existsb (λ o, name o =? perm) (snd <$> map_to_list (permissions a)).

Definition link_target env d (l : linkauth) : bool :=
  (lk_requirement l =? eosio_any_name)
  || (if only_link_to_existing_permission env
      then bool_decide (is_Some (db_find (permissions (auths d)) (lk_account l, lk_requirement l)))
      else named_permission (auths d) (lk_requirement l)).

Definition apply_system_native_linkauth env w x : result world :=
  requirement ← data_as unpack_linkauth (N_ "linkauth") (x_act x);
  _ ← EOS_ASSERT (negb (name_empty (lk_requirement requirement))) action_validate_exception;
  _ ← require_auth env x (lk_account requirement);
  let d := dbs w in
  _ ← EOS_ASSERT (is_account d (lk_account requirement)) account_query_exception;
  _ ← EOS_ASSERT (is_account d (lk_code requirement)) account_query_exception;
  _ ← EOS_ASSERT (link_target env d requirement) permission_query_exception;
  let link_key := (lk_account requirement, lk_code requirement, lk_type requirement) in
  let row := {| required_permission := lk_requirement requirement |} in
  match db_find (links (auths d)) link_key with
  | Some link =>
      _ ← EOS_ASSERT (negb (required_permission link =? lk_requirement requirement))
            action_validate_exception;
      l ← db_modify (links (auths d)) link_key (λ _, Ok row);
      Ok (with_dbs w (with_auths d (with_links (auths d) l)))
  | None =>
      l ← db_create (links (auths d)) link_key row;
      d ← db_add_ram (with_auths d (with_links (auths d) l)) (lk_account requirement) (s64 billable_link);
      Ok (with_dbs w d)
  end.

Definition apply_system_native_unlinkauth env w x : result world :=
  unlink ← data_as unpack_unlinkauth (N_ "unlinkauth") (x_act x);
  _ ← require_auth env x (ul_account unlink);
  let link_key := (ul_account unlink, ul_code unlink, ul_type unlink) in
  let d := dbs w in
  _ ← EOS_ASSERT (bool_decide (is_Some (db_find (links (auths d)) link_key))) action_validate_exception;
  d ← db_add_ram d (ul_account unlink) (- s64 billable_link);
  Ok (with_dbs w (with_auths d (with_links (auths d) (db_remove (links (auths d)) link_key)))).

(** ** [canceldelay] *)
Definition apply_system_native_canceldelay env w x : result world :=
  cancel ← data_as unpack_canceldelay (N_ "canceldelay") (x_act x);
  _ ← require_auth env x (actor (cd_auth cancel));
  '(_, w) ← cancel_deferred_transaction w (transaction_id_to_sender_id (cd_trx_id cancel)) 0;
  Ok w.

(** ** [setconfig] *)
Definition controller_part w : controller_state := {|
  ControllerLists.conf := conf w; clfg := forced_lists (forced (dbs w));
  force_gmr := forced_gmr (forced (dbs w));
  ControllerLists.resources := resources (tbl (dbs w)) |}.
Definition with_controller_part w (c : controller_state) : world :=
  let d := with_tbl (dbs w) (with_resources (tbl (dbs w)) (ControllerLists.resources c)) in
  with_conf (with_dbs w (with_forced d (mk_force (clfg c) (force_gmr c)))) (ControllerLists.conf c).

Definition apply_system_native_setconfig env w x : result world :=
  cfg_data ← data_as unpack_setconfig (N_ "setconfig") (x_act x);
  c ← ControllerLists.apply_system_native_setconfig (has_authorization (table_env env x))
        (controller_part w) cfg_data;
  Ok (with_controller_part w c).

(** ** Dispatch *)
Abbreviation apply_handler := (exec_env → world → actx → result world).

Definition native_handlers : gmap Z apply_handler := list_to_map
  [(N_ "newaccount", apply_system_native_newaccount); (N_ "setcode", apply_system_native_setcode);
   (N_ "setabi", apply_system_native_setabi); (N_ "updateauth", apply_system_native_updateauth);
   (N_ "deleteauth", apply_system_native_deleteauth); (N_ "linkauth", apply_system_native_linkauth);
   (N_ "unlinkauth", apply_system_native_unlinkauth); (N_ "canceldelay", apply_system_native_canceldelay);
   (N_ "setconfig", apply_system_native_setconfig); (N_ "setfee", apply_system_native_setfee)].

Definition find_apply_handler (receiver scope act : Z) : option apply_handler :=
  if (receiver =? system_account_name) && (scope =? system_account_name)
  then native_handlers !! act else None.

(** The contract that is compiled into the node: its action only logs. *)
Definition apply_native_contract (action_name : Z) w x : result world :=
  if action_name =? N_ "hello"
  then _ ← data_as_of unpack_hello native_account_name (N_ "hello") (x_act x); Ok w
  else Throw action_not_found_exception.
End handlers.
