(* ===== verification/SystemTheory.v ===== *)
(** * What the system actions keep

    The native handlers refine the steps of the permission tree, and keep what
    the rest of the program assumes of accounts: an account has metadata and
    the permissions [owner] and [active], a contract's code is stored and its
    reference count is the number of accounts that run it. *)

From S2P Require Import Prelude Chainbase Names Assets Config Merkle BlockHeader ProtocolFeatures ChainConfig ConfigOnChain TxFee Accumulator.
From S2P Require Import ResourceLimits ControllerLists Authority AuthorityChecker Permissions.
From S2P Require Import Transaction AccessLists TransactionContext ContractTables TableTheory ActionContext Deferred SystemActions.
Local Open Scope Z_scope.

(** What unpacking gives: weights, thresholds and names fit their words, byte
    vectors and keys have a 32-bit size. *)
Class SystemFcLaws (sf : SystemFc) : Prop := {
  unpack_newaccount_ok : ∀ l c, unpack_newaccount l = Ok c →
    authority_ok (na_owner c) ∧ authority_ok (na_active c) ∧ in_u 64 (na_name c);
  unpack_updateauth_ok : ∀ l u, unpack_updateauth l = Ok u → authority_ok (up_auth u);
  unpack_setcode_size : ∀ l c, unpack_setcode l = Ok c → Z.of_nat (length (sc_code c)) < 2 ^ 32;
  unpack_setabi_size : ∀ l c, unpack_setabi l = Ok c → Z.of_nat (length (sa_abi c)) < 2 ^ 32;
  key_size_range : ∀ k, 0 ≤ key_size k < 2 ^ 32;
}.

(** The number of entries that [validate] allows. *)
Definition authority_fits (a : authority) : Prop :=
  Z.of_nat (length (keys a) + length (accounts a) + length (waits a)) ≤ 2 ^ 16.

Lemma validate_fits a : validate a = true → authority_fits a.
Proof.
  unfold validate, authority_fits.
  destruct (Z.ltb_spec (2 ^ 16) (Z.of_nat (length (keys a) + length (accounts a) + length (waits a)))); [done|].
  by intros _.
Qed.

Section theory.
Context {db : Chainbase} {laws : ChainbaseLaws db} {fc : TrxFc} {cr : Crypto}.
Context {sf : SystemFc} {sfl : SystemFcLaws sf}.
Implicit Types (env : exec_env) (w : world) (x : actx) (d : database).

Lemma data_as_Ok {A} (u : list Z → result A) n a v : data_as u n a = Ok v → u (a_data a) = Ok v.
Proof. unfold data_as, data_as_of. intros H. by res_inv. Qed.

(** ** What a handler does to the database *)

(** The permissions of an account that is created. *)
Definition adds_permission (c : control) (a a' : auth_db) (p : permission_object) : Prop :=
  perm_step c a a' ∧ permissions a !! (owner p, name p) = None ∧ id p = next_id a ∧
  permissions a' = <[(owner p, name p) := p]> (permissions a) ∧ links a' = links a ∧
  authority_fits (auth p).

Lemma create_permission_adds c a account nm par au t a' p : authority_ok au → authority_fits au →
  (par = 0 ∨ ∃ k o, permissions a !! k = Some o ∧ id o = par ∧ owner o = account) →
  create_permission c a account nm par au t = Ok (a', p) →
  adds_permission c a a' p ∧ owner p = account ∧ name p = nm ∧ auth p = au.
Proof.
  intros Hok Hfit Hpar H. pose proof (step_create c a account nm par au t a' p Hpar Hok H).
  unfold create_permission in H. apply bind_Ok in H as (us & _ & H).
  apply bind_Ok in H as (ps & [Hn ->]%db_create_Ok & [= <- <-]). by repeat split.
Qed.

(** The effects, one constructor per handler that writes: the objects before
    and after, and the bytes billed to an account.  [ok] is what is known of a
    code that is set. *)
Inductive native_effect (ok : database → list Z → Prop) (c : control) : database → database → Prop :=
  | effect_newaccount d n t a1 o a2 p r d' : 0 < n < 2 ^ 64 →
      account_objects d !! n = None → metadata d !! n = None →
      adds_permission c (auths d) a1 o → owner o = n → name o = owner_name →
      adds_permission c a1 a2 p → owner p = n → name p = active_name →
      initialize_account (resources (tbl d)) n = Ok r →
      db_add_ram (with_tbl (with_auths (with_metadata (with_accounts d
          (<[n := mk_account t []]> (account_objects d))) (<[n := new_metadata]> (metadata d))) a2)
          (with_resources (tbl d) r)) n
        (s64 (overhead_per_account_ram_bytes + 2 * billable_permission
              + get_billable_size key_size (auth o) + get_billable_size key_size (auth p))) = Ok d' →
      native_effect ok c d d'
  | effect_same d d' : account_objects d' = account_objects d → metadata d' = metadata d →
      codes d' = codes d → auths d' = auths d → deferred d' = deferred d →
      ram_corrections d' = ram_corrections d → same_tables (tbl d) (tbl d') →
      usages (resources (tbl d')) = usages (resources (tbl d)) → native_effect ok c d d'
  | effect_update d k p a' p' delta d' :
      permissions (auths d) !! k = Some p → k = (owner p, name p) → owner p ≠ 0 → perm_step c (auths d) a' →
      permissions a' = <[k := p']> (permissions (auths d)) → links a' = links (auths d) →
      id p' = id p → owner p' = owner p → authority_fits (auth p') →
      int64_op (s64 (permission_bytes (auth p')) - s64 (permission_bytes (auth p))) = Ok delta →
      db_add_ram (with_auths d a') (owner p) delta = Ok d' → native_effect ok c d d'
  | effect_add d a' p d' : adds_permission c (auths d) a' p →
      db_add_ram (with_auths d a') (owner p) (s64 (permission_bytes (auth p))) = Ok d' →
      native_effect ok c d d'
  | effect_delete d k p a' delta d' : permissions (auths d) !! k = Some p → k = (owner p, name p) →
      owner p ≠ 0 → name p ≠ owner_name → name p ≠ active_name → is_linked (auths d) (owner p) (name p) = false →
      perm_step c (auths d) a' →
      permissions a' = delete k (permissions (auths d)) → links a' = links (auths d) →
      int64_op (- s64 (permission_bytes (auth p))) = Ok delta →
      db_add_ram (with_auths d a') (owner p) delta = Ok d' → native_effect ok c d d'
  | effect_relink d k l l' : links (auths d) !! k = Some l →
      native_effect ok c d (with_auths d (with_links (auths d) (<[k := l']> (links (auths d)))))
  | effect_link d k l d' : links (auths d) !! k = None →
      db_add_ram (with_auths d (with_links (auths d) (<[k := l]> (links (auths d))))) k.1.1
        (s64 billable_link) = Ok d' → native_effect ok c d d'
  | effect_unlink d k l d' : links (auths d) !! k = Some l →
      db_add_ram d k.1.1 (- s64 billable_link) = Ok d' →
      native_effect ok c d (with_auths d' (with_links (auths d') (delete k (links (auths d')))))
  | effect_setabi d n o m b d1 d' : account_objects d !! n = Some o → metadata d !! n = Some m →
      Z.of_nat (length b) < 2 ^ 32 →
      d1 = with_metadata (with_accounts d (<[n := mk_account (creation_date o) b]> (account_objects d)))
             (<[n := mk_metadata (recv_sequence m) (auth_sequence m) (code_sequence m)
                       (u64 (abi_sequence m + 1)) (code_hash m) (last_code_update m) (is_privileged m)
                       (vm_type m) (vm_version m)]> (metadata d)) →
      (Z.of_nat (length b) = Z.of_nat (length (abi o)) ∧ d' = d1 ∨
       db_add_ram d1 n (Z.of_nat (length b) - Z.of_nat (length (abi o))) = Ok d') →
      native_effect ok c d d'
  | effect_setcode env d n m hash bytes old d1 d2 d3 d' : metadata d !! n = Some m →
      Z.of_nat (length bytes) < 2 ^ 32 → ok d bytes →
      (code_hash m = zero_digest ∧ old = 0 ∧ d1 = d ∨
       code_hash m ≠ zero_digest ∧ release_code d m hash = Ok (old, d1)) →
      (bytes = [] ∧ hash = zero_digest ∧ d2 = d1 ∨
       bytes ≠ [] ∧ hash = sha256 bytes ∧ install_code env d1 (hash, 0, 0) bytes = Ok d2) →
      d3 = with_metadata d2 (<[n := mk_metadata (recv_sequence m) (auth_sequence m)
             (u64 (code_sequence m + 1)) (abi_sequence m) hash (pending_block_time (ctl env))
             (is_privileged m) 0 0]> (metadata d)) →
      (Z.of_nat (length bytes) * setcode_ram_bytes_multiplier = old ∧ d' = d3 ∨
       db_add_ram d3 n (Z.of_nat (length bytes) * setcode_ram_bytes_multiplier - old) = Ok d') →
      native_effect ok c d d'
  | effect_cancel w sid b w' : cancel_deferred_transaction w sid 0 = Ok (b, w') →
      native_effect ok c (dbs w) (dbs w').

(** ** The handlers refine the effects *)
Lemma newaccount_effect ok env w x w' : apply_system_native_newaccount env w x = Ok w' →
  ∃ c, native_effect ok c (dbs w) (dbs w').
Proof.
  intros H. unfold apply_system_native_newaccount in H.
  apply bind_Ok in H as (cn & Hc%data_as_Ok%unpack_newaccount_ok & H). destruct Hc as (Hoo & Hoa & Hin).
  apply bind_Ok in H as (? & _ & H).
  apply bind_Ok in H as (? & Hvo%EOS_ASSERT_Ok%validate_fits & H).
  apply bind_Ok in H as (? & Hva%EOS_ASSERT_Ok%validate_fits & H).
  apply bind_Ok in H as (? & Hne & H). unfold check_account_name in Hne.
  apply bind_Ok in Hne as (? & Hne%EOS_ASSERT_Ok & _). unfold name_empty in Hne.
  assert (0 < na_name cn < 2 ^ 64) as Hname by (unfold in_u in Hin; lia).
  do 2 (apply bind_Ok in H as (? & _ & H)).
  apply bind_Ok in H as (d & Hd & H). do 2 (apply bind_Ok in H as (? & _ & H)).
  apply bind_Ok in H as ([a1 o] & Ho & H). apply bind_Ok in H as ([a2 p] & Hp & H).
  apply bind_Ok in H as (r & Hr & H). apply bind_Ok in H as (d' & H & [= <-]).
  unfold create_account in Hd. apply bind_Ok in Hd as (? & _ & Hd).
  apply bind_Ok in Hd as (? & [Hn1 ->]%db_create_Ok & Hd).
  apply bind_Ok in Hd as (? & [Hn2 ->]%db_create_Ok & [= <-]).
  apply create_permission_adds in Ho as (Hao & Eo & En & Ea); [|done..|by left].
  apply create_permission_adds in Hp as (Hap & Eo' & En' & Ea'); [|done|done|].
  2: { right. destruct Hao as (_ & _ & _ & -> & _). exists (owner o, name o), o.
       by rewrite lookup_insert_eq. }
  cbn [auths with_metadata with_accounts] in *. eexists. by eapply effect_newaccount.
Qed.

Lemma updateauth_effect ok env w x w' : perm_inv (auths (dbs w)) →
  apply_system_native_updateauth env w x = Ok w' → ∃ c, native_effect ok c (dbs w) (dbs w').
Proof.
  intros Hinv H. unfold apply_system_native_updateauth in H.
  apply bind_Ok in H as (u & Hu%data_as_Ok%unpack_updateauth_ok & H).
  apply bind_Ok in H as (? & _ & H). apply bind_Ok in H as (? & Hc & H).
  assert (authority_fits (up_auth u)) as Hfit.
  { unfold check_update in Hc. do 5 (apply bind_Ok in Hc as (? & _ & Hc)).
    apply bind_Ok in Hc as (? & Hv%EOS_ASSERT_Ok%validate_fits & _). done. }
  apply bind_Ok in H as (? & _ & H). apply bind_Ok in H as (perm & Hf & H).
  apply bind_Ok in H as (par & Hpar & H). exists (now_ctl env (dbs w)). destruct perm as [p|].
  - apply bind_Ok in H as (? & _ & H). apply bind_Ok in H as (a & Ha & H).
    apply bind_Ok in H as (delta & Hdelta & H). apply bind_Ok in H as (d & H & [= <-]).
    assert (up_account u ≠ 0 ∧ permissions (auths (dbs w)) !! (up_account u, up_permission u) = Some p)
      as [H0 Hk].
    { unfold find_permission in Hf. destruct (_ && _) eqn:E0; simpl in Hf; [|done].
      injection Hf as Hf. rewrite db_find_spec in Hf. split; [|done].
      unfold name_empty in E0. apply andb_true_iff in E0 as [E0%negb_true_iff%Z.eqb_neq _]. by apply not_eq_sym in E0. }
    pose proof (pi_key _ Hinv _ _ Hk) as Ek. assert (owner p ≠ 0) by congruence. pose proof (step_modify _ _ _ _ _ _ Hk Hu Ha) as Hs.
    unfold modify_permission in Ha. apply bind_Ok in Ha as (ps & Ha & [= <-]).
    apply db_modify_Ok in Ha as (v & v' & Hv & [= <-] & ->). rewrite <- Ek in Hv.
    assert (v = p) as -> by congruence.
    eapply (effect_update ok _ _ (up_account u, up_permission u) p _
      {| id := id p; usage_id := usage_id p; parent := parent p; owner := owner p; name := name p;
         last_updated := pending_block_time (ctl env); auth := up_auth u |}); try done.
    cbn. by rewrite Ek.
  - apply bind_Ok in H as ([a p] & Hp & H). apply bind_Ok in H as (d & H & [= <-]).
    apply create_permission_adds in Hp as (Hadd & Eo & _ & _); [|done..|].
    + rewrite <- Eo in H. by eapply effect_add.
    + unfold parent_id_of in Hpar. destruct (_ =? _); [left; by simplify_eq|right].
      apply bind_Ok in Hpar as (q & Hq%get_permission_Ok & [= <-]).
      destruct Hq as (? & ? & Hq). exists (up_account u, up_parent u), q.
      pose proof (pi_key _ Hinv _ _ Hq) as [= <- _]. done.
Qed.

Lemma deleteauth_effect ok env w x w' : perm_inv (auths (dbs w)) →
  apply_system_native_deleteauth env w x = Ok w' → ∃ c, native_effect ok c (dbs w) (dbs w').
Proof.
  intros Hinv H. unfold apply_system_native_deleteauth in H.
  apply bind_Ok in H as (r & _ & H). apply bind_Ok in H as (? & _ & H).
  apply bind_Ok in H as (? & Hna%EOS_ASSERT_Ok & H). apply bind_Ok in H as (? & Hno%EOS_ASSERT_Ok & H).
  apply bind_Ok in H as (? & Hl%EOS_ASSERT_Ok%negb_true_iff & H).
  apply bind_Ok in H as (p & Hp%get_permission_Ok & H). destruct Hp as (? & ? & Hk). simpl in *.
  apply bind_Ok in H as (a & Ha & H). apply bind_Ok in H as (delta & Hdelta & H).
  apply bind_Ok in H as (d & H & [= <-]).
  pose proof (pi_key _ Hinv _ _ Hk) as Ek. pose proof (step_remove (now_ctl env (dbs w)) _ _ _ _ Hk Ha) as Hs.
  unfold remove_permission in Ha. do 2 (apply bind_Ok in Ha as (? & _ & Ha)). injection Ha as <-.
  injection Ek as E1 E2. rewrite E1, E2 in *. exists (now_ctl env (dbs w)).
  eapply (effect_delete ok _ _ (owner p, name p) p); try done; [lia..|]. cbn. by rewrite db_remove_spec.
Qed.

Lemma linkauth_effect ok env w x w' : apply_system_native_linkauth env w x = Ok w' →
  ∃ c, native_effect ok c (dbs w) (dbs w').
Proof.
  intros H. unfold apply_system_native_linkauth in H. do 6 (apply bind_Ok in H as (? & _ & H)).
  exists (now_ctl env (dbs w)). rewrite db_find_spec in H. destruct (links _ !! _) as [l|] eqn:E.
  - apply bind_Ok in H as (? & _ & H). apply bind_Ok in H as (m & Hm & [= <-]).
    apply db_modify_Ok in Hm as (v & v' & Hv & [= <-] & ->). by eapply effect_relink.
  - apply bind_Ok in H as (m & Hm & H). apply db_create_Ok in Hm as [Hn ->].
    apply bind_Ok in H as (d & H & [= <-]). by eapply effect_link.
Qed.

Lemma unlinkauth_effect ok env w x w' : apply_system_native_unlinkauth env w x = Ok w' →
  ∃ c, native_effect ok c (dbs w) (dbs w').
Proof.
  intros H. unfold apply_system_native_unlinkauth in H. do 2 (apply bind_Ok in H as (? & _ & H)).
  apply bind_Ok in H as (? & Hl%EOS_ASSERT_Ok%bool_decide_eq_true & H).
  rewrite db_find_spec in Hl. destruct Hl as [l Hl]. apply bind_Ok in H as (d & H & [= <-]).
  exists (now_ctl env (dbs w)). cbn [dbs with_dbs]. rewrite db_remove_spec. by eapply effect_unlink.
Qed.

(** ** The handlers that change no permission *)
Lemma setcode_effect ok env w x w' :
  (∀ act, unpack_setcode (a_data (x_act x)) = Ok act → ok (dbs w) (sc_code act)) →
  apply_system_native_setcode env w x = Ok w' →
  ∃ c, native_effect ok c (dbs w) (dbs w').
Proof.
  intros Hok H. unfold apply_system_native_setcode in H.
  apply bind_Ok in H as (act & Hact%data_as_Ok & H). pose proof (unpack_setcode_size _ _ Hact) as Hs.
  apply bind_Ok in H as (? & _ & H). apply bind_Ok in H as (? & Ht%EOS_ASSERT_Ok & H).
  apply bind_Ok in H as (? & Hv%EOS_ASSERT_Ok & H). apply bind_Ok in H as (? & _ & H).
  apply bind_Ok in H as (m & Hm%db_get_Ok & H). apply bind_Ok in H as (? & _ & H).
  apply bind_Ok in H as (new & Hnew & H). apply bind_Ok in H as ([old d1] & Hrel & H).
  apply bind_Ok in H as (d2 & Hins & H). apply bind_Ok in H as (mm & Hmm & H).
  apply bind_Ok in H as (d' & H & [= <-]). apply Z.eqb_eq in Ht, Hv. rewrite Ht, Hv in *.
  rewrite int64_op_Ok in Hnew by (unfold in_s64, setcode_ram_bytes_multiplier; lia). injection Hnew as <-.
  assert (take (Z.to_nat (u32 (Z.of_nat (length (sc_code act))))) (sc_code act) = sc_code act) as Et.
  { rewrite wrap_small by (unfold in_u; lia). by rewrite Nat2Z.id, firstn_all. }
  assert (metadata d2 = metadata (dbs w)) as Em.
  { trans (metadata d1).
    - destruct (0 <? _); [|by simplify_eq]. unfold install_code in Hins.
      by apply bind_Ok in Hins as (? & _ & [= <-]).
    - destruct (negb _); [|by simplify_eq]. unfold release_code in Hrel.
      do 3 (apply bind_Ok in Hrel as (? & _ & Hrel)).
      destruct (_ =? 1); [by simplify_eq|]. by apply bind_Ok in Hrel as (? & _ & [= <- <-]). }
  rewrite Em in Hmm. apply db_modify_Ok in Hmm as (v & v' & Hv' & [= <-] & ->).
  assert (v = m) as -> by congruence. exists (now_ctl env (dbs w)).
  eapply (effect_setcode ok _ env _ (sc_account act) m _ (sc_code act) old d1 d2); [done|done|by apply Hok| | |done|].
  - instantiate (1 := if 0 <? Z.of_nat (length (sc_code act)) then sha256 (sc_code act) else zero_digest).
    rewrite Et in Hrel. destruct (decide (code_hash m = zero_digest)) as [E|E]; [left|right].
    + rewrite bool_decide_true in Hrel by done. by simplify_eq/=.
    + rewrite bool_decide_false in Hrel by done. done.
  - destruct (Z.ltb_spec 0 (Z.of_nat (length (sc_code act)))) as [Hl|Hl]; [right|left].
    + split_and!; [by intros E; rewrite E in Hl|done|]. by rewrite Et in Hins.
    + split_and!; [apply nil_length_inv; lia|done|by simplify_eq].
  - rewrite Et in H. destruct (Z.eqb_spec (Z.of_nat (length (sc_code act)) * setcode_ram_bytes_multiplier) old);
      [left; injection H as <-; done|by right].
Qed.

Lemma setabi_effect ok env w x w' : apply_system_native_setabi env w x = Ok w' →
  ∃ c, native_effect ok c (dbs w) (dbs w').
Proof.
  intros H. unfold apply_system_native_setabi in H.
  apply bind_Ok in H as (act & Hs%data_as_Ok%unpack_setabi_size & H).
  apply bind_Ok in H as (? & _ & H). apply bind_Ok in H as (o & Ho%db_get_Ok & H).
  apply bind_Ok in H as (ao & Hao & H). apply bind_Ok in H as (m & Hm%db_get_Ok & H).
  apply bind_Ok in H as (mm & Hmm & H). apply bind_Ok in H as (d' & H & [= <-]).
  apply db_modify_Ok in Hao as (v & v' & Hv & [= <-] & ->). assert (v = o) as -> by congruence.
  apply db_modify_Ok in Hmm as (v & v' & Hv' & [= <-] & ->). assert (v = m) as -> by congruence.
  exists (now_ctl env (dbs w)). eapply effect_setabi; [done..|].
  destruct (Z.eqb_spec (Z.of_nat (length (sa_abi act))) (Z.of_nat (length (abi o))));
    [left; injection H as <-; done|by right].
Qed.

Lemma setfee_effect ok env w x w' : apply_system_native_setfee env w x = Ok w' →
  ∃ c, native_effect ok c (dbs w) (dbs w').
Proof.
  intros H. unfold apply_system_native_setfee in H. do 5 (apply bind_Ok in H as (? & _ & H)).
  injection H as <-. exists (now_ctl env (dbs w)). by apply effect_same.
Qed.

Lemma canceldelay_effect ok env w x w' : apply_system_native_canceldelay env w x = Ok w' →
  ∃ c, native_effect ok c (dbs w) (dbs w').
Proof.
  intros H. unfold apply_system_native_canceldelay in H. do 2 (apply bind_Ok in H as (? & _ & H)).
  apply bind_Ok in H as ([b w1] & H & [= <-]). exists (now_ctl env (dbs w)). by eapply effect_cancel.
Qed.

Lemma setconfig_usages auth (c : controller_state) cfg c' :
  ControllerLists.apply_system_native_setconfig auth c cfg = Ok c' →
  usages (ControllerLists.resources c') = usages (ControllerLists.resources c).
Proof.
  intros H. unfold ControllerLists.apply_system_native_setconfig in H.
  destruct (negb _); [done|]. apply bind_Ok in H as (r & _ & H). apply bind_Ok in H as (c1 & H1 & H).
  trans (usages (ControllerLists.resources c1)).
  - assert (∀ g v c2, set_gmr_config c1 g v = Ok c2 →
      usages (ControllerLists.resources c2) = usages (ControllerLists.resources c1)) as Hg.
    { intros g v c2 Hg. unfold set_gmr_config in Hg. apply bind_Ok in Hg as (? & _ & Hg).
      apply bind_Ok in Hg as (r2 & Hr & [= <-]). unfold set_gmr_parameters in Hr. by res_inv. }
    unfold set_guaranteed_minimum_config in H. repeat case_match; try (by eapply Hg); by simplify_eq.
  - destruct (set_list_config_frame _ _ _ H1) as (_ & -> & _). done.
Qed.

Lemma setconfig_effect ok env w x w' : apply_system_native_setconfig env w x = Ok w' →
  ∃ c, native_effect ok c (dbs w) (dbs w').
Proof.
  intros H. unfold apply_system_native_setconfig in H. apply bind_Ok in H as (cfg & _ & H).
  apply bind_Ok in H as (c & H%setconfig_usages & [= <-]).
  exists (now_ctl env (dbs w)). by apply effect_same.
Qed.

(** ** Dispatch *)
Lemma handler_effect ok r s a h env w x w' : perm_inv (auths (dbs w)) →
  (∀ act, unpack_setcode (a_data (x_act x)) = Ok act → ok (dbs w) (sc_code act)) →
  find_apply_handler r s a = Some h → h env w x = Ok w' → ∃ c, native_effect ok c (dbs w) (dbs w').
Proof.
  intros Hinv Hok Hh H. unfold find_apply_handler in Hh. destruct (_ && _); [|done].
  apply elem_of_list_to_map_2 in Hh.
  repeat (apply elem_of_cons in Hh as [Hh|Hh]; [injection Hh as _ ->|]).
  - by eapply newaccount_effect.
  - by eapply setcode_effect.
  - by eapply setabi_effect.
  - by eapply updateauth_effect.
  - by eapply deleteauth_effect.
  - by eapply linkauth_effect.
  - by eapply unlinkauth_effect.
  - by eapply canceldelay_effect.
  - by eapply setconfig_effect.
  - by eapply setfee_effect.
  - by apply elem_of_nil in Hh.
Qed.

Lemma db_add_ram_frame d p delta d' : db_add_ram d p delta = Ok d' → ∃ t, d' = with_tbl d t.
Proof. unfold db_add_ram. intros (t & _ & [= <-])%bind_Ok. by exists t. Qed.

Lemma cancel_frame w sid sender b w' : cancel_deferred_transaction w sid sender = Ok (b, w') →
  ∃ t g, dbs w' = with_deferred (with_tbl (dbs w) t) g.
Proof.
  unfold cancel_deferred_transaction. intros H. destruct (db_find _ _).
  - apply bind_Ok in H as (d & (t & ->)%db_add_ram_frame & [= <- <-]). by eexists _, _.
  - simplify_eq. exists (tbl (dbs w')), (deferred (dbs w')). by destruct (dbs w').
Qed.

(** An effect is a sequence of steps of the permission tree. *)
Lemma native_effect_perms ok c d d' : native_effect ok c d d' → rtc (perm_step c) (auths d) (auths d').
Proof.
  intros H. destruct H as [d n t a1 o a2 p r d' _ _ _ Ho _ _ Hp _ _ _ H|d d' _ _ _ -> _ _ _ _
    |d k p a' p' delta d' _ _ _ Hs _ _ _ _ _ _ H|d a' p d' Hp H|d k p a' delta d' _ _ _ _ _ _ Hs _ _ _ H
    |d k l l' _|d k l d' _ H|d k l d' _ H|d n o m b d1 d' _ _ _ -> H
    |env d n m hash bytes old d1 d2 d3 d' _ _ _ Hr Hi -> H|w sid b w' H].
  - apply db_add_ram_frame in H as (u & ->). etrans; apply rtc_once; [apply Ho|apply Hp].
  - apply rtc_refl.
  - apply db_add_ram_frame in H as (u & ->). by apply rtc_once.
  - apply db_add_ram_frame in H as (u & ->). apply rtc_once, Hp.
  - apply db_add_ram_frame in H as (u & ->). by apply rtc_once.
  - apply rtc_once, step_other_indices.
  - apply db_add_ram_frame in H as (u & ->). apply rtc_once, step_other_indices.
  - apply db_add_ram_frame in H as (u & ->). apply rtc_once, step_other_indices.
  - destruct H as [[_ ->]|(u & ->)%db_add_ram_frame]; apply rtc_refl.
  - assert (auths d2 = auths d) as E.
    { trans (auths d1).
      - destruct Hi as [(_ & _ & ->)|(_ & _ & Hi)]; [done|]. unfold install_code in Hi.
        by apply bind_Ok in Hi as (? & _ & [= <-]).
      - destruct Hr as [(_ & _ & ->)|(_ & Hr)]; [done|]. unfold release_code in Hr.
        do 3 (apply bind_Ok in Hr as (? & _ & Hr)).
        destruct (_ =? 1); [by simplify_eq|]. by apply bind_Ok in Hr as (? & _ & [= <- <-]). }
    rewrite <- E. destruct H as [[_ ->]|(u & ->)%db_add_ram_frame]; apply rtc_refl.
  - apply cancel_frame in H as (t & g & ->). apply rtc_refl.
Qed.

Lemma perm_steps_inv c a a' : perm_inv a → rtc (perm_step c) a a' → perm_inv a'.
Proof. intros Hinv H. induction H; [done|]. by eauto using perm_step_inv. Qed.

End theory.
