(* ===== verification/SystemRam.v ===== *)
(** * RAM of accounts, permissions, links and contracts

    The bill of [DeferredRam] extended to all that the system actions store.
    After any sequence of table operations, deferred transactions and system
    actions, the usage of an account is explained byte by byte by the objects
    of the database, and the stored codes are exactly those some account runs. *)

From S2P Require Import Prelude Chainbase Names Assets Config Merkle BlockHeader ProtocolFeatures ChainConfig ConfigOnChain TxFee Accumulator.
From S2P Require Import ResourceLimits ControllerLists Authority AuthorityChecker Permissions HeaderExamples.
From S2P Require Import Transaction AccessLists TransactionContext Billing ContractTables TableTheory DatabaseApi ActionContext Deferred DeferredRam.
From S2P Require Import SystemActions SystemTheory.
Local Open Scope Z_scope.

Section theory.
Context {db : Chainbase} {laws : ChainbaseLaws db} {fc : TrxFc} {cr : Crypto}.
Context {sf : SystemFc} {sfl : SystemFcLaws sf}.
Implicit Types (env : exec_env) (w : world) (x : actx) (d : database).

(** ** The bill *)
Definition code_of (m : account_metadata) : code_key := (code_hash m, vm_type m, vm_version m).

Definition account_bill d (a : Z) : Z :=
  from_option (λ o, overhead_per_account_ram_bytes + Z.of_nat (length (abi o))) 0 (account_objects d !! a).
Definition permission_bill (a : Z) (_ : Z * Z) (p : permission_object) : Z :=
  if decide (owner p = a ∧ id p ≠ 0) then billable_permission + get_billable_size key_size (auth p) else 0.
Definition link_bill (a : Z) (k : Z * Z * Z) (_ : permission_link_object) : Z :=
  if decide (k.1.1 = a) then billable_link else 0.
Definition code_bill d (a : Z) : Z :=
  from_option (λ m, if decide (code_hash m = zero_digest) then 0 else
    from_option (λ o, Z.of_nat (length (code o)) * setcode_ram_bytes_multiplier) 0 (codes d !! code_of m))
  0 (metadata d !! a).
Definition auth_bill (u : auth_db) (a : Z) : Z :=
  sum_map (permission_bill a) (permissions u) + sum_map (link_bill a) (links u).

Definition system_bill d (a : Z) : Z := account_bill d a + auth_bill (auths d) a + code_bill d a.

(** The usage that no object explains. *)
Definition unexplained d (a : Z) : Z := other_usage d a - system_bill d a.

(** ** The invariant *)
Definition runs (k : code_key) (_ : Z) (m : account_metadata) : Z :=
  if decide (code_of m = k) then 1 else 0.

(** The number of accounts that run a code. *)
Definition references d (k : code_key) : Z := sum_map (runs k) (metadata d).

Record auth_inv (u : auth_db) : Prop := {
  ai_tree : perm_inv u;
  ai_fits : ∀ k p, permissions u !! k = Some p → authority_fits (auth p) }.

(** The stored codes are those that run somewhere, [f] times each. *)
Record code_counts (c : gmap code_key code_object) (f : code_key → Z) : Prop := {
  cc_stored : ∀ k, k.1.1 ≠ zero_digest → 0 < f k → is_Some (c !! k);
  cc_refs : ∀ k o, c !! k = Some o → code_ref_count o = f k ∧ 0 < f k;
  cc_hash : ∀ k o, c !! k = Some o → k = (sha256 (code o), 0, 0) ∧ sha256 (code o) ≠ zero_digest;
  cc_len : ∀ k o, c !! k = Some o → Z.of_nat (length (code o)) < 2 ^ 32 }.
Definition code_inv d : Prop := code_counts (codes d) (references d).

Record system_inv d : Prop := {
  si_auths : auth_inv (auths d);
  si_codes : code_inv d;
  si_abi : ∀ a o, account_objects d !! a = Some o → Z.of_nat (length (abi o)) < 2 ^ 32;
  si_meta : ∀ a, is_Some (account_objects d !! a) ↔ is_Some (metadata d !! a);
  si_names : ∀ a, is_Some (metadata d !! a) → 0 < a < 2 ^ 64;
  si_core : ∀ a, is_Some (account_objects d !! a) →
    is_Some (permissions (auths d) !! (a, owner_name)) ∧ is_Some (permissions (auths d) !! (a, active_name)) }.

(** A code that is set collides with no stored one and does not hash to zero. *)
Definition code_fresh d (b : list Z) : Prop :=
  (b ≠ [] → sha256 b ≠ zero_digest) ∧
  ∀ k o, codes d !! k = Some o → sha256 (code o) = sha256 b → code o = b.

(** The objects of the genesis are not all billed; what is missing for an
    account is less than the fixed part of its own bill. *)
Definition reserve d (a : Z) : Z :=
  if decide (is_Some (account_objects d !! a)) then overhead_per_account_ram_bytes else 0.

Record chain_inv d : Prop := {
  hi_deferred : deferred_inv d;
  hi_system : system_inv d;
  hi_unexplained : ∀ a, 0 ≤ unexplained d a + reserve d a }.

Definition chain_kept d d' : Prop := chain_inv d' ∧ ∀ a, unexplained d' a = unexplained d a.

(** ** Sizes *)
Lemma billable_size_bound a : authority_fits a →
  0 ≤ get_billable_size key_size a < 2 ^ 50.
Proof.
  unfold authority_fits, get_billable_size. intros Hf.
  assert (∀ l s, 0 ≤ s → s + Z.of_nat (length l) * 2 ^ 33 < 2 ^ 51 →
    0 ≤ fold_left (λ s k, u64 (u64 (s + billable_size_v 8) + key_size (kw_key k))) l s
      ≤ s + Z.of_nat (length l) * 2 ^ 33) as Hfold.
  { change (billable_size_v 8) with 16.
    induction l as [|k l IH]; intros s H0 Hb; cbn [fold_left length] in *; [lia|].
    pose proof (key_size_range (kw_key k)).
    rewrite (wrap_small 64 (s + 16)), wrap_small by (unfold in_u; lia).
    destruct (IH (s + 16 + key_size (kw_key k))) as [H1 H2]; lia. }
  destruct (Hfold (keys a) 0) as [H1 H2]; [lia|lia|].
  change (billable_size_v 24) with 32. change (billable_size_v 16) with 16.
  rewrite (wrap_small 64 (Z.of_nat (length (accounts a)) * 32)),
    (wrap_small 64 (Z.of_nat (length (waits a)) * 16)) by (unfold in_u; lia).
  rewrite (wrap_small 64 (_ + Z.of_nat (length (waits a)) * 16)) by (unfold in_u; lia).
  rewrite wrap_small by (unfold in_u; lia). lia.
Qed.

Lemma permission_bytes_eq a : authority_fits a →
  s64 (permission_bytes a) = billable_permission + get_billable_size key_size a ∧
  0 ≤ s64 (permission_bytes a) < 2 ^ 51.
Proof.
  intros H%billable_size_bound. unfold permission_bytes. assert (billable_permission = 288) as -> by reflexivity.
  rewrite wrap_small by (unfold in_u; lia). rewrite s64_small by (unfold in_s64; lia). lia.
Qed.

Lemma system_bill_reserve d a : reserve d a ≤ system_bill d a.
Proof.
  assert (reserve d a ≤ account_bill d a).
  { unfold reserve, account_bill. destruct (_ !! a); cbn; [|done].
    rewrite decide_True by done. unfold overhead_per_account_ram_bytes. lia. }
  assert (0 ≤ sum_map (permission_bill a) (permissions (auths d))).
  { apply sum_map_nonneg. intros k p. unfold permission_bill, get_billable_size.
    destruct (decide _); [|done]. assert (0 ≤ billable_permission) by done.
    apply Z.add_nonneg_nonneg; [done|]. by apply wrap_range. }
  assert (0 ≤ sum_map (link_bill a) (links (auths d))).
  { apply sum_map_nonneg. intros k l. unfold link_bill. by destruct (decide _). }
  assert (0 ≤ code_bill d a).
  { unfold code_bill, setcode_ram_bytes_multiplier. destruct (metadata d !! a); cbn; [|done].
    destruct (decide _); [done|]. destruct (codes d !! _); cbn; lia. }
  unfold system_bill, auth_bill. lia.
Qed.

(** ** Frames *)
Definition same_system d d' : Prop :=
  account_objects d' = account_objects d ∧ metadata d' = metadata d ∧ codes d' = codes d ∧
  permissions (auths d') = permissions (auths d) ∧ links (auths d') = links (auths d) ∧
  next_id (auths d') = next_id (auths d).

Lemma same_system_bill d d' a : same_system d d' → system_bill d' a = system_bill d a.
Proof.
  intros (E1 & E2 & E3 & E4 & E5 & _). unfold system_bill, account_bill, auth_bill, code_bill.
  by rewrite E1, E2, E3, E4, E5.
Qed.

Lemma same_system_inv d d' : same_system d d' → system_inv d → system_inv d'.
Proof.
  intros (E1 & E2 & E3 & E4 & E5 & E6) [[Ht Hf] Hcode Ha Hm Hnm Hc].
  split; [split| | | | |]; unfold code_inv, references in *; rewrite ?E1, ?E2, ?E3, ?E4; try done.
  by eapply perm_inv_frame.
Qed.

Definition accounts_kept d d' : Prop :=
  ∀ a, is_Some (account_objects d !! a) → is_Some (account_objects d' !! a).
Lemma accounts_kept_eq d d' : account_objects d' = account_objects d → accounts_kept d d'.
Proof. intros E a. by rewrite E. Qed.
Lemma reserve_kept d d' a : accounts_kept d d' → reserve d a ≤ reserve d' a.
Proof.
  intros H. specialize (H a). unfold reserve, overhead_per_account_ram_bytes.
  destruct (decide (is_Some (account_objects d !! a))); destruct (decide (is_Some (account_objects d' !! a)));
    try lia. by apply H in i.
Qed.

(** The bill changes by what the usage changes. *)
Lemma chain_kept_intro d d' : chain_inv d → same_tables (tbl d) (tbl d') → usage_ok (tbl d') →
  deferred d' = deferred d → ram_corrections d' = ram_corrections d → system_inv d' → accounts_kept d d' →
  (∀ a, usage (tbl d') a - system_bill d' a = usage (tbl d) a - system_bill d a) → chain_kept d d'.
Proof.
  intros [Hd Hsy Hun] Hs Hu Ed Er Hsy' Hacc Heq.
  assert (∀ a, unexplained d' a = unexplained d a) as He.
  { intros a. specialize (Heq a). unfold unexplained, other_usage, deferred_bill, noted_bytes.
    rewrite (same_tables_billed _ _ a Hs), Ed, Er. lia. }
  assert (∀ a, 0 ≤ unexplained d' a + reserve d' a) as Hun'.
  { intros a. rewrite He. specialize (Hun a). pose proof (reserve_kept d d' a Hacc). lia. }
  split; [split|done]; [|done|done].
  split; rewrite ?Ed, ?Er; try apply Hd; [eapply tables_base_same; [done..|apply Hd]|].
  intros a. specialize (Hun' a). pose proof (system_bill_reserve d' a). unfold unexplained in *. lia.
Qed.

Lemma chain_kept_bill d d1 p delta d' : chain_inv d → same_tables (tbl d) (tbl d1) → usage_ok (tbl d1) →
  (∀ a, usage (tbl d1) a = usage (tbl d) a) →
  deferred d1 = deferred d → ram_corrections d1 = ram_corrections d → system_inv d1 → accounts_kept d d1 →
  in_s64 delta → db_add_ram d1 p delta = Ok d' →
  (∀ a, system_bill d1 a = system_bill d a + (if decide (p = a) then delta else 0)) → chain_kept d d'.
Proof.
  intros Hinv Hs Hu Heq Ed Er Hsy Hacc Hdelta H Hbill. unfold db_add_ram in H.
  apply bind_Ok in H as (t & H & [= <-]). apply add_ram_usage_Ok in H as (Hs' & Hu' & Heq'); [|done..].
  apply chain_kept_intro; try done; cbn [tbl with_tbl].
  - destruct Hs as (A1 & A2 & A3 & A4), Hs' as (B1 & B2 & B3 & B4). repeat split; congruence.
  - by eapply (same_system_inv d1).
  - intros a. rewrite Heq', Heq. rewrite (same_system_bill d1), Hbill by done. lia.
Qed.

Lemma chain_usage_ok d : chain_inv d → usage_ok (tbl d).
Proof. intros H. apply (ti_usage _ (di_tables _ (hi_deferred _ H))). Qed.

(** ** Permissions and links *)
Lemma auth_bill_insert u u' k p a : permissions u !! k = None → id p ≠ 0 →
  permissions u' = <[k := p]> (permissions u) → links u' = links u →
  auth_bill u' a = auth_bill u a +
    (if decide (owner p = a) then billable_permission + get_billable_size key_size (auth p) else 0).
Proof.
  intros Hn Hi Ep El. unfold auth_bill. rewrite Ep, El, sum_map_insert by done.
  unfold permission_bill at 1. destruct (decide (owner p = a)).
  - rewrite decide_True by done. lia.
  - rewrite decide_False by tauto. lia.
Qed.

Lemma adds_permission_ok c u u' p : auth_inv u → adds_permission c u u' p →
  auth_inv u' ∧ id p ≠ 0 ∧ (∀ k, is_Some (permissions u !! k) → is_Some (permissions u' !! k)) ∧
  is_Some (permissions u' !! (owner p, name p)) ∧
  ∀ a, auth_bill u' a = auth_bill u a + (if decide (owner p = a) then s64 (permission_bytes (auth p)) else 0).
Proof.
  intros [Ht Hf] (Hs & Hn & Hi & Ep & El & Hfit).
  assert (id p ≠ 0) as H0.
  { destruct (pi_root _ Ht) as (r & Hr & Hr0 & _). pose proof (pi_range _ Ht _ _ Hr). lia. }
  split_and!; [split|done| | |].
  - by eapply perm_step_inv.
  - rewrite Ep. intros k q [[_ <-]|[_ Hq]]%lookup_insert_Some; [done|by eapply Hf].
  - intros k Hk. rewrite Ep. destruct (decide ((owner p, name p) = k)) as [<-|];
      [by rewrite lookup_insert_eq|by rewrite lookup_insert_ne].
  - by rewrite Ep, lookup_insert_eq.
  - intros a. rewrite (auth_bill_insert u u' _ p a Hn H0 Ep El). by rewrite (proj1 (permission_bytes_eq _ Hfit)).
Qed.

(** Only the permissions and the links change. *)
Definition core_kept (u u' : auth_db) : Prop :=
  ∀ a n, n = owner_name ∨ n = active_name →
  is_Some (permissions u !! (a, n)) → is_Some (permissions u' !! (a, n)).

Lemma with_auths_inv d u : system_inv d → auth_inv u → core_kept (auths d) u → system_inv (with_auths d u).
Proof.
  intros [_ Hcode Ha Hm Hnm Hc] Hu Hk. split; try done.
  intros a [Ho Hac]%Hc. split; apply Hk; auto.
Qed.

Lemma auths_kept d u p delta d' : chain_inv d → auth_inv u → core_kept (auths d) u → in_s64 delta →
  (∀ a, auth_bill u a = auth_bill (auths d) a + (if decide (p = a) then delta else 0)) →
  db_add_ram (with_auths d u) p delta = Ok d' → chain_kept d d'.
Proof.
  intros Hinv Hu Hk Hdelta Hbill H. apply (chain_kept_bill d (with_auths d u) p delta); try done; try by apply accounts_kept_eq.
  - by apply (chain_usage_ok d).
  - apply with_auths_inv; [apply Hinv|done..].
  - intros a. unfold system_bill. specialize (Hbill a).
    change (account_bill (with_auths d u) a) with (account_bill d a).
    change (code_bill (with_auths d u) a) with (code_bill d a). cbn [auths with_auths]. lia.
Qed.

Lemma auths_kept_unbilled d u : chain_inv d → auth_inv u → core_kept (auths d) u →
  (∀ a, auth_bill u a = auth_bill (auths d) a) → chain_kept d (with_auths d u).
Proof.
  intros Hinv Hu Hk Hbill. apply chain_kept_intro; try done; try by apply accounts_kept_eq.
  - by apply (chain_usage_ok d).
  - apply with_auths_inv; [apply Hinv|done..].
  - intros a. unfold system_bill. specialize (Hbill a).
    change (account_bill (with_auths d u) a) with (account_bill d a).
    change (code_bill (with_auths d u) a) with (code_bill d a). cbn [auths with_auths tbl]. lia.
Qed.

Lemma add_permission_kept c d u p d' : chain_inv d → adds_permission c (auths d) u p →
  db_add_ram (with_auths d u) (owner p) (s64 (permission_bytes (auth p))) = Ok d' → chain_kept d d'.
Proof.
  intros Hinv Hp H.
  destruct (adds_permission_ok _ _ _ _ (si_auths _ (hi_system _ Hinv)) Hp) as (Hu & _ & Hk & _ & Hbill).
  eapply (auths_kept d u (owner p)); [done|done|intros a n _; apply Hk| |done|done]. apply s64_range.
Qed.

Lemma update_permission_kept c d k p u p' delta d' : chain_inv d →
  permissions (auths d) !! k = Some p → perm_step c (auths d) u →
  permissions u = <[k := p']> (permissions (auths d)) → links u = links (auths d) →
  id p' = id p → owner p' = owner p → authority_fits (auth p') → id p ≠ 0 →
  int64_op (s64 (permission_bytes (auth p')) - s64 (permission_bytes (auth p))) = Ok delta →
  db_add_ram (with_auths d u) (owner p) delta = Ok d' → chain_kept d d'.
Proof.
  intros Hinv Hp Hs Ep El Ei Eo Hfit H0 Hdelta H. destruct (si_auths _ (hi_system _ Hinv)) as [Ht Hf].
  destruct (permission_bytes_eq _ Hfit) as [E1 R1]. destruct (permission_bytes_eq _ (Hf _ _ Hp)) as [E2 R2].
  rewrite int64_op_Ok in Hdelta by (unfold in_s64; lia). injection Hdelta as <-.
  eapply (auths_kept d u (owner p)); [done| | | | |done].
  - split; [by eapply perm_step_inv|]. rewrite Ep.
    intros q o [[_ <-]|[_ Ho]]%lookup_insert_Some; [done|by eapply Hf].
  - intros a n _ Hq. rewrite Ep. destruct (decide (k = (a, n))) as [<-|];
      [by rewrite lookup_insert_eq|by rewrite lookup_insert_ne].
  - unfold in_s64. lia.
  - intros a. unfold auth_bill. rewrite Ep, El, (sum_map_update _ _ _ _ _ Hp).
    unfold permission_bill at 2 3. rewrite Ei, Eo. destruct (decide (owner p = a)).
    + rewrite !decide_True by done. lia.
    + rewrite !decide_False by tauto. lia.
Qed.

Lemma delete_permission_kept c d k p u delta d' : chain_inv d →
  permissions (auths d) !! k = Some p → k = (owner p, name p) → perm_step c (auths d) u →
  name p ≠ owner_name → name p ≠ active_name → id p ≠ 0 →
  permissions u = delete k (permissions (auths d)) → links u = links (auths d) →
  int64_op (- s64 (permission_bytes (auth p))) = Ok delta →
  db_add_ram (with_auths d u) (owner p) delta = Ok d' → chain_kept d d'.
Proof.
  intros Hinv Hp -> Hs Hno Hna H0 Ep El Hdelta H. destruct (si_auths _ (hi_system _ Hinv)) as [Ht Hf].
  destruct (permission_bytes_eq _ (Hf _ _ Hp)) as [E R].
  rewrite int64_op_Ok in Hdelta by (unfold in_s64; lia). injection Hdelta as <-.
  eapply (auths_kept d u (owner p)); [done| | | | |done].
  - split; [by eapply perm_step_inv|]. rewrite Ep. intros q o [_ Ho]%lookup_delete_Some. by eapply Hf.
  - intros a n Hn Hq. rewrite Ep, lookup_delete_ne; [done|]. intros [= _ En]. destruct Hn; congruence.
  - unfold in_s64. lia.
  - intros a. unfold auth_bill. rewrite Ep, El, (sum_map_delete _ _ _ _ Hp).
    unfold permission_bill at 2. destruct (decide (owner p = a)).
    + rewrite decide_True by done. lia.
    + rewrite decide_False by tauto. lia.
Qed.

Lemma links_inv u l : auth_inv u → auth_inv (with_links u l).
Proof. intros [Ht Hf]. split; [by apply (perm_inv_frame u)|done]. Qed.

Lemma link_kept d k l d' : chain_inv d → links (auths d) !! k = None →
  db_add_ram (with_auths d (with_links (auths d) (<[k := l]> (links (auths d))))) k.1.1 (s64 billable_link) = Ok d' →
  chain_kept d d'.
Proof.
  intros Hinv Hk H. eapply auths_kept; [done| | | | |done]; [apply links_inv, Hinv|by intros ? ? _|apply s64_range|].
  intros a. unfold auth_bill. cbn [permissions links with_links]. rewrite sum_map_insert by done.
  unfold link_bill at 1. change (s64 billable_link) with billable_link. lia.
Qed.

Lemma relink_kept d k l l' : chain_inv d → links (auths d) !! k = Some l →
  chain_kept d (with_auths d (with_links (auths d) (<[k := l']> (links (auths d))))).
Proof.
  intros Hinv Hk. apply auths_kept_unbilled; [done|apply links_inv, Hinv|by intros ? ? _|].
  intros a. unfold auth_bill. cbn [permissions links with_links]. rewrite (sum_map_update _ _ _ _ _ Hk).
  unfold link_bill. lia.
Qed.

Lemma unlink_kept d k l d' : chain_inv d → links (auths d) !! k = Some l →
  db_add_ram d k.1.1 (- s64 billable_link) = Ok d' →
  chain_kept d (with_auths d' (with_links (auths d') (delete k (links (auths d'))))).
Proof.
  intros Hinv Hk H. apply (auths_kept d (with_links (auths d) (delete k (links (auths d)))) k.1.1
    (- s64 billable_link)); [done|apply links_inv, Hinv|by intros ? ? _|done| |].
  - intros a. unfold auth_bill. cbn [permissions links with_links]. rewrite (sum_map_delete _ _ _ _ Hk).
    unfold link_bill at 2. change (s64 billable_link) with billable_link. destruct (decide _); lia.
  - unfold db_add_ram in *. apply bind_Ok in H as (t & H & [= <-]). cbn [tbl with_auths]. by rewrite H.
Qed.

(** ** Codes *)
Lemma references_insert d n m' k : metadata d !! n = None →
  sum_map (runs k) (<[n := m']> (metadata d)) = references d k + runs k n m'.
Proof. intros Hn. unfold references. rewrite sum_map_insert by done. lia. Qed.

Lemma references_update d n m m' k : metadata d !! n = Some m →
  sum_map (runs k) (<[n := m']> (metadata d)) = references d k - runs k n m + runs k n m'.
Proof. intros Hn. unfold references. by rewrite (sum_map_update _ _ _ _ _ Hn). Qed.

Lemma references_bound d k : 0 ≤ references d k ≤ Z.of_nat (size (metadata d)).
Proof.
  unfold references. induction (metadata d) as [|a m mm Ha IH] using map_ind.
  - by rewrite sum_map_empty, map_size_empty.
  - rewrite sum_map_insert, map_size_insert_None by done. unfold runs at 1 3. destruct (decide _); lia.
Qed.

Lemma names_size (m : gmap Z account_metadata) :
  (∀ a, is_Some (m !! a) → 0 < a < 2 ^ 64) → Z.of_nat (size m) < 2 ^ 64.
Proof.
  intros Hm. rewrite <- size_dom.
  assert (dom m ⊆ (list_to_set (seqZ 1 (2 ^ 64 - 1)) : gset Z)) as Hsub.
  { intros a Ha%elem_of_dom%Hm. apply elem_of_list_to_set, elem_of_seqZ. lia. }
  apply subseteq_size in Hsub. rewrite size_list_to_set, length_seqZ in Hsub by apply NoDup_seqZ. lia.
Qed.

Lemma runs_bound k a m : 0 ≤ runs k a m.
Proof. unfold runs. by destruct (decide _). Qed.

Lemma references_others d n m k : metadata d !! n = Some m →
  references d k - runs k n m + 1 ≤ Z.of_nat (size (metadata d)).
Proof.
  intros Hm. unfold references. rewrite <- (sum_map_delete _ _ _ _ Hm).
  pose proof (references_bound (with_metadata d (delete n (metadata d))) k) as [_ H].
  unfold references in H. cbn [metadata with_metadata] in H.
  rewrite map_size_delete_Some in H by done.
  assert (0 < size (metadata d))%nat; [|lia]. apply Nat.neq_0_lt_0. intros E%map_size_empty_inv.
  by rewrite E, lookup_empty in Hm.
Qed.

Lemma code_counts_ext c f f' : (∀ k, k.1.1 ≠ zero_digest → f' k = f k) → code_counts c f → code_counts c f'.
Proof.
  intros Hf [Hs Hr Hh Hl]. split; try done.
  - intros k Hk H. rewrite Hf in H by done. by apply Hs.
  - intros k o Ho. destruct (Hh _ _ Ho) as [E H]. rewrite Hf by (by subst k). by apply Hr.
Qed.

(** The same key means the same bytes, before and after. *)
Definition same_codes (c c' : gmap code_key code_object) : Prop :=
  ∀ k o o', c !! k = Some o → c' !! k = Some o' → code o' = code o.

Lemma release_code_Ok d m h old d1 f : code_counts (codes d) f → (∀ k, f k < 2 ^ 64) →
  release_code d m h = Ok (old, d1) →
  ∃ o c1, codes d !! code_of m = Some o ∧ old = Z.of_nat (length (code o)) * setcode_ram_bytes_multiplier ∧
    d1 = with_codes d c1 ∧ code_hash m ≠ h ∧ same_codes (codes d) c1 ∧
    (∀ k, codes d !! k = None → c1 !! k = None) ∧
    code_counts c1 (λ k, f k - (if decide (code_of m = k) then 1 else 0)).
Proof.
  intros [Hs Hr Hh Hl] Hlt H. unfold release_code in H. fold (code_of m) in H.
  apply bind_Ok in H as (o & Ho%db_get_Ok & H).
  apply bind_Ok in H as (? & Hne%EOS_ASSERT_Ok%negb_true_iff%bool_decide_eq_false & H).
  pose proof (Hl _ _ Ho) as Hlo. destruct (Hr _ _ Ho) as [Ec Hpos]. pose proof (Hlt (code_of m)).
  rewrite int64_op_Ok in H by (unfold in_s64, setcode_ram_bytes_multiplier; lia). cbn [mbind result_bind] in H.
  destruct (Z.eqb_spec (code_ref_count o) 1) as [E1|E1].
  - injection H as <- <-. rewrite db_remove_spec. exists o, (delete (code_of m) (codes d)).
    split_and!; try done; [intros k o1 o2 H1 [_ H2]%lookup_delete_Some; congruence
                          |intros k Hk; by apply lookup_delete_None; right|split].
    + intros k Hk H. destruct (decide _) as [<-|]; [lia|]. rewrite lookup_delete_ne by done. apply Hs; [done|lia].
    + intros k o' [Hk Ho']%lookup_delete_Some. rewrite decide_False, Z.sub_0_r by done. by apply Hr.
    + intros k o' [_ Ho']%lookup_delete_Some. by apply Hh.
    + intros k o' [_ Ho']%lookup_delete_Some. by eapply Hl.
  - apply bind_Ok in H as (c1 & Hc & [= <- <-]). apply db_modify_Ok in Hc as (v & v' & Hv & [= <-] & ->).
    assert (v = o) as -> by congruence.
    eexists o, _. split_and!; [done..| | |split].
    + intros k o1 o2 H1 [[<- <-]|[_ H2]]%lookup_insert_Some; cbn; congruence.
    + intros k Hk. apply lookup_insert_None. split; [done|congruence].
    + intros k Hk Hp. destruct (decide _) as [<-|]; [by rewrite lookup_insert_eq|].
      rewrite lookup_insert_ne by done. apply Hs; [done|lia].
    + intros k o' [[<- <-]|[Hk Ho']]%lookup_insert_Some; cbn [code_ref_count].
      * rewrite decide_True, wrap_small by (try done; unfold in_u; lia). lia.
      * rewrite decide_False, Z.sub_0_r by done. by apply Hr.
    + intros k o' [[<- <-]|[_ Ho']]%lookup_insert_Some; cbn [code]; by apply Hh.
    + intros k o' [[<- <-]|[_ Ho']]%lookup_insert_Some; cbn [code]; by eapply Hl.
Qed.

Lemma add_code_Ok c b first c2 f : code_counts c f → f (sha256 b, 0, 0) + 1 < 2 ^ 64 →
  0 ≤ f (sha256 b, 0, 0) →
  sha256 b ≠ zero_digest → Z.of_nat (length b) < 2 ^ 32 →
  (∀ k o, c !! k = Some o → sha256 (code o) = sha256 b → code o = b) →
  add_code c (sha256 b, 0, 0) b first = Ok c2 →
  ∃ o, c2 !! (sha256 b, 0, 0) = Some o ∧ code o = b ∧ same_codes c c2 ∧
    (∀ k, k ≠ (sha256 b, 0, 0) → c2 !! k = c !! k) ∧
    code_counts c2 (λ k, f k + (if decide ((sha256 b, 0, 0) = k) then 1 else 0)).
Proof.
  intros [Hs Hr Hh Hl] Hf Hf0 Hz Hb Hcol H. unfold add_code in H. set (k2 := (sha256 b, 0, 0)) in *.
  assert (∃ o, c2 = <[k2 := o]> c ∧ code o = b ∧ code_ref_count o = f k2 + 1)
    as (o & -> & Eb & Ec).
  { rewrite db_find_spec in H. destruct (c !! k2) as [o|] eqn:E.
    - apply db_modify_Ok in H as (v & v' & Hv & [= <-] & ->).
      destruct (Hr _ _ Hv) as [Er Hp]. destruct (Hh _ _ Hv) as [Ek _]. injection Ek as Ek.
      eexists. split_and!; [done|cbn; by eapply Hcol|cbn]. rewrite Er, wrap_small; [done|unfold in_u; lia].
    - apply db_create_Ok in H as [_ ->].
      eexists. split_and!; [done..|cbn]. destruct (decide (0 < f k2)) as [Hp|]; [|lia].
      destruct (Hs k2 Hz Hp) as [? ?]. congruence. }
  exists o. split_and!; [by rewrite lookup_insert_eq|done| | |split].
  - intros k o1 o2 H1 [[<- <-]|[_ H2]]%lookup_insert_Some; [|congruence].
    destruct (Hh _ _ H1) as [Ek _]. injection Ek as Ek. rewrite Eb. symmetry. by eapply Hcol.
  - intros k Hk. by rewrite lookup_insert_ne.
  - intros k Hk Hp. destruct (decide _) as [<-|]; [by rewrite lookup_insert_eq|].
    rewrite lookup_insert_ne by done. apply Hs; [done|lia].
  - intros k o' [[<- <-]|[Hk Ho']]%lookup_insert_Some; [rewrite decide_True by done; lia|].
    rewrite decide_False, Z.add_0_r by done. by apply Hr.
  - intros k o' [[<- <-]|[_ Ho']]%lookup_insert_Some; [by rewrite Eb|by apply Hh].
  - intros k o' [[<- <-]|[_ Ho']]%lookup_insert_Some; [by rewrite Eb|by eapply Hl].
Qed.

(** The code an account ran is released, whether it ran one or not. *)
Lemma release_counts d n m h old d1 : code_inv d → Z.of_nat (size (metadata d)) < 2 ^ 64 →
  metadata d !! n = Some m →
  (code_hash m = zero_digest ∧ old = 0 ∧ d1 = d ∨
   code_hash m ≠ zero_digest ∧ release_code d m h = Ok (old, d1)) →
  ∃ c1, d1 = with_codes d c1 ∧ old = code_bill d n ∧ same_codes (codes d) c1 ∧
    (∀ k, codes d !! k = None → c1 !! k = None) ∧
    code_counts c1 (λ k, references d k - runs k n m).
Proof.
  intros Hinv Hsz Hm [(Hz & -> & ->)|(Hz & H)]; unfold code_bill; rewrite Hm; cbn [from_option].
  - exists (codes d). split_and!; [by destruct d|by rewrite decide_True|intros k o o'; congruence|done|].
    eapply code_counts_ext, Hinv. intros k Hk. unfold runs. rewrite decide_False; [lia|].
    intros <-. by apply Hk.
  - apply (release_code_Ok _ _ _ _ _ _ Hinv) in H as (o & c1 & Ho & -> & -> & _ & Hsame & Hnone & Hc);
      [|intros k; pose proof (references_bound d k); lia].
    exists c1. split_and!; try done. by rewrite decide_False, Ho by done.
Qed.

Lemma setcode_counts env d n m m' b old d1 d2 : code_inv d → Z.of_nat (size (metadata d)) < 2 ^ 64 → metadata d !! n = Some m →
  Z.of_nat (length b) < 2 ^ 32 → code_fresh d b →
  (code_hash m = zero_digest ∧ old = 0 ∧ d1 = d ∨
   code_hash m ≠ zero_digest ∧ release_code d m (code_hash m') = Ok (old, d1)) →
  (b = [] ∧ code_hash m' = zero_digest ∧ d2 = d1 ∨
   b ≠ [] ∧ code_hash m' = sha256 b ∧ install_code env d1 (code_hash m', 0, 0) b = Ok d2) →
  code_of m' = (code_hash m', 0, 0) →
  ∃ c2, d2 = with_codes d c2 ∧ old = code_bill d n ∧ same_codes (codes d) c2 ∧
    code_counts c2 (λ k, references d k - runs k n m + runs k n m') ∧
    (code_hash m' = zero_digest ∧ b = [] ∨
     code_hash m' ≠ zero_digest ∧ ∃ o, c2 !! code_of m' = Some o ∧ code o = b).
Proof.
  intros Hinv Hsz Hm Hb (Hz & Hcol) Hrel Hins Ek.
  destruct (release_counts d n m (code_hash m') old d1 Hinv Hsz Hm Hrel)
    as (c1 & -> & -> & Hsame & Hnone & Hc1).
  destruct Hins as [(-> & Hz' & ->)|(Hne & Eh & H)].
  - exists c1. split_and!; try done; [|by left]. eapply code_counts_ext, Hc1. intros k Hk.
    unfold runs at 2. rewrite decide_False; [lia|]. intros <-. apply Hk. by rewrite Ek.
  - specialize (Hz Hne). rewrite Eh in *.
    assert (∀ k o, c1 !! k = Some o → ∃ o0, codes d !! k = Some o0 ∧ code o = code o0) as Hback.
    { intros k o Ho. destruct (codes d !! k) as [o0|] eqn:E; [exists o0; eauto|]. apply Hnone in E. congruence. }
    unfold install_code in H. apply bind_Ok in H as (c2 & H & [= <-]).
    apply (add_code_Ok c1 b _ c2 _ Hc1) in H as (o & Ho & Eb & Hsame2 & Hother & Hc2); try done.
    + exists c2. split_and!; try done.
      * intros k o1 o2 H1 H2. destruct (decide (k = (sha256 b, 0, 0))) as [->|Hk].
        -- assert (o2 = o) as -> by congruence. rewrite Eb. symmetry. eapply Hcol; [done|].
           destruct (cc_hash _ _ Hinv _ _ H1) as [E _]. by injection E.
        -- rewrite Hother in H2 by done. by eapply Hsame.
      * eapply code_counts_ext, Hc2. intros k Hk. unfold runs at 2. by rewrite Ek.
      * right. split; [done|]. rewrite Ek. by exists o.
    + pose proof (references_others d n m (sha256 b, 0, 0) Hm). lia.
    + unfold references. rewrite <- (sum_map_delete _ _ _ _ Hm). apply sum_map_nonneg. intros. apply runs_bound.
    + intros k o' (o0 & H0 & ->)%Hback Hs. by eapply Hcol.
Qed.

(** The accounts that did not change run the code they ran. *)
Lemma code_bill_other d c2 mm a n m' : code_inv d → same_codes (codes d) c2 → n ≠ a →
  mm = <[n := m']> (metadata d) → code_counts c2 (λ k, sum_map (runs k) mm) →
  code_bill (with_metadata (with_codes d c2) mm) a = code_bill d a.
Proof.
  intros Hinv Hsame Hne -> Hc. unfold code_bill. cbn [metadata codes with_metadata with_codes].
  rewrite lookup_insert_ne by done. destruct (metadata d !! a) as [m|] eqn:Ha; [|done]. cbn [from_option].
  destruct (decide _) as [|Hz]; [done|].
  assert (∀ mm, mm !! a = Some m → 0 < sum_map (runs (code_of m)) mm) as Hpos.
  { intros mm Hm. pose proof (sum_map_lookup (runs (code_of m)) mm a m (runs_bound _) Hm) as H.
    unfold runs at 1 in H. rewrite decide_True in H by done. lia. }
  destruct (cc_stored _ _ Hinv (code_of m)) as [o Ho]; [done|by apply Hpos|].
  destruct (cc_stored _ _ Hc (code_of m)) as [o' Ho']; [done|apply Hpos; by rewrite lookup_insert_ne|].
  rewrite Ho, Ho'. cbn. by rewrite (Hsame _ _ _ Ho Ho').
Qed.

(** ** The effects *)

(** An account with its two permissions, and no code. *)
Lemma new_account_inv c d n ao m a1 o a2 p d' : system_inv d → 0 < n < 2 ^ 64 →
  account_objects d !! n = None → metadata d !! n = None →
  adds_permission c (auths d) a1 o → owner o = n → name o = owner_name →
  adds_permission c a1 a2 p → owner p = n → name p = active_name →
  Z.of_nat (length (abi ao)) < 2 ^ 32 → code_hash m = zero_digest →
  account_objects d' = <[n := ao]> (account_objects d) → metadata d' = <[n := m]> (metadata d) →
  codes d' = codes d → auths d' = a2 → system_inv d'.
Proof.
  intros [Hau Hcode Habi Hmeta Hnm Hcore] Hn Hn1 Hn2 Ho Eo No Hp Ep Np Hl Hz E1 E2 E3 E4.
  destruct (adds_permission_ok _ _ _ _ Hau Ho) as (Hau1 & _ & Hk1 & Hs1 & _).
  destruct (adds_permission_ok _ _ _ _ Hau1 Hp) as (Hau2 & _ & Hk2 & Hs2 & _).
  split; rewrite ?E1, ?E2, ?E4; [done| | | | |].
  - unfold code_inv. rewrite E3. eapply code_counts_ext, Hcode. intros k Hk. unfold references at 1.
    rewrite E2, references_insert by done. unfold runs. rewrite decide_False; [lia|]. intros <-.
    by apply Hk.
  - intros a q [[_ <-]|[_ Hq]]%lookup_insert_Some; [done|by eapply Habi].
  - intros a. destruct (decide (n = a)) as [<-|]; [by rewrite !lookup_insert_eq|by rewrite !lookup_insert_ne].
  - intros a [m1 [[<- _]|[_ Hm1]]%lookup_insert_Some]; [done|by apply Hnm; exists m1].
  - intros a. destruct (decide (n = a)) as [<-|].
    + intros _. rewrite Eo, No in Hs1. rewrite Ep, Np in Hs2. by split; [apply Hk2|].
    + rewrite lookup_insert_ne by done. intros [? ?]%Hcore. split; by apply Hk2, Hk1.
Qed.

Lemma newaccount_kept c d n t a1 o a2 p r d' : chain_inv d → 0 < n < 2 ^ 64 →
  account_objects d !! n = None → metadata d !! n = None →
  adds_permission c (auths d) a1 o → owner o = n → name o = owner_name →
  adds_permission c a1 a2 p → owner p = n → name p = active_name →
  initialize_account (resources (tbl d)) n = Ok r →
  db_add_ram (with_tbl (with_auths (with_metadata (with_accounts d
      (<[n := mk_account t []]> (account_objects d))) (<[n := new_metadata]> (metadata d))) a2)
      (with_resources (tbl d) r)) n
    (s64 (overhead_per_account_ram_bytes + 2 * billable_permission
          + get_billable_size key_size (auth o) + get_billable_size key_size (auth p))) = Ok d' →
  chain_kept d d'.
Proof.
  intros Hinv Hn Hn1 Hn2 Ho Eo No Hp Ep Np Hr H. pose proof (hi_system _ Hinv) as [Hau Hcode Habi Hmeta Hnm Hcore].
  destruct (adds_permission_ok _ _ _ _ Hau Ho) as (Hau1 & _ & Hk1 & Hs1 & Hb1).
  destruct (adds_permission_ok _ _ _ _ Hau1 Hp) as (Hau2 & _ & Hk2 & Hs2 & Hb2).
  pose proof Ho as (_ & _ & _ & _ & _ & Hfo). pose proof Hp as (_ & _ & _ & _ & _ & Hfp).
  destruct (permission_bytes_eq _ Hfo) as [Bo Ro]. destruct (permission_bytes_eq _ Hfp) as [Bp Rp].
  unfold initialize_account in Hr. apply bind_Ok in Hr as (l & _ & Hr).
  apply bind_Ok in Hr as (us & Hus & [= <-]). apply db_create_Ok in Hus as [Hnone ->].
  assert (billable_permission = 288) as E288 by reflexivity. rewrite E288 in *.
  rewrite s64_small in H by (unfold in_s64, overhead_per_account_ram_bytes; lia).
  eapply chain_kept_bill; [exact Hinv| | | | | | | | |exact H|].
  - by repeat split.
  - intros a u. cbn [tbl with_tbl resources with_resources usages with_usages].
    intros [[_ <-]|[_ Hu]]%lookup_insert_Some; [done|by eapply (chain_usage_ok d Hinv)].
  - intros a. unfold usage. cbn [tbl with_tbl resources with_resources usages with_usages].
    destruct (decide (n = a)) as [<-|]; [by rewrite lookup_insert_eq, Hnone|by rewrite lookup_insert_ne].
  - reflexivity.
  - reflexivity.
  - apply (new_account_inv c d n (mk_account t []) new_metadata a1 o a2 p); try done.
  - intros a Ha. cbn. destruct (decide (n = a)) as [<-|]; [by rewrite lookup_insert_eq|by rewrite lookup_insert_ne].
  - unfold in_s64, overhead_per_account_ram_bytes. lia.
  - intros a. unfold system_bill, account_bill, code_bill.
    cbn [auths account_objects metadata codes with_tbl with_auths with_metadata with_accounts].
    rewrite Hb2, Hb1, Eo, Ep, Bo, Bp. destruct (decide (n = a)) as [<-|].
    + rewrite !lookup_insert_eq, Hn1, Hn2. cbn [from_option new_metadata code_hash abi length].
      rewrite decide_True by done. lia.
    + rewrite !lookup_insert_ne by done. lia.
Qed.

Lemma setabi_kept d n o m m' b d1 d' : chain_inv d →
  account_objects d !! n = Some o → metadata d !! n = Some m → Z.of_nat (length b) < 2 ^ 32 →
  code_of m' = code_of m →
  d1 = with_metadata (with_accounts d (<[n := mk_account (creation_date o) b]> (account_objects d)))
         (<[n := m']> (metadata d)) →
  (Z.of_nat (length b) = Z.of_nat (length (abi o)) ∧ d' = d1 ∨
   db_add_ram d1 n (Z.of_nat (length b) - Z.of_nat (length (abi o))) = Ok d') → chain_kept d d'.
Proof.
  intros Hinv Ho Hm Hb Ek E1 H. pose proof (hi_system _ Hinv) as [Hau Hcode Habi Hmeta Hnm Hcore].
  pose proof (Habi _ _ Ho) as Hlo.
  assert (system_inv d1) as Hs1.
  { subst d1. split; cbn [auths account_objects metadata with_metadata with_accounts]; [done| | | | |].
    - eapply code_counts_ext, Hcode. intros k _. unfold references. cbn [metadata with_metadata].
      rewrite (references_update _ _ _ _ _ Hm). unfold runs. rewrite Ek. unfold references, runs. lia.
    - intros a q [[_ <-]|[_ Hq]]%lookup_insert_Some; [done|by eapply Habi].
    - intros a. destruct (decide (n = a)) as [<-|]; [by rewrite !lookup_insert_eq|by rewrite !lookup_insert_ne].
    - intros a Ha. apply Hnm. destruct (decide (n = a)) as [<-|]; [by rewrite Hm|by rewrite lookup_insert_ne in Ha].
    - intros a Ha. apply Hcore. destruct (decide (n = a)) as [<-|]; [by rewrite Ho|by rewrite lookup_insert_ne in Ha]. }
  assert (accounts_kept d d1) as Hacc.
  { intros a Ha. subst d1. cbn. destruct (decide (n = a)) as [<-|]; [by rewrite lookup_insert_eq|by rewrite lookup_insert_ne]. }
  assert (∀ a, system_bill d1 a = system_bill d a +
    (if decide (n = a) then Z.of_nat (length b) - Z.of_nat (length (abi o)) else 0)) as Hbill.
  { intros a. subst d1. unfold system_bill, account_bill, code_bill.
    cbn [auths account_objects metadata codes with_metadata with_accounts]. destruct (decide (n = a)) as [<-|].
    - rewrite !lookup_insert_eq, Ho, Hm. cbn [from_option abi]. rewrite Ek.
      replace (code_hash m') with (code_hash m) by (unfold code_of in Ek; congruence). lia.
    - rewrite !lookup_insert_ne by done. lia. }
  destruct H as [[El ->]|H].
  - apply chain_kept_intro; subst d1; try done; [by apply (chain_usage_ok d)|].
    intros a. rewrite Hbill. cbn [tbl with_metadata with_accounts]. destruct (decide _); lia.
  - eapply chain_kept_bill; [done| | | | | | | | |exact H|exact Hbill]; subst d1; try done;
      [by apply (chain_usage_ok d)|unfold in_s64; lia].
Qed.

Lemma setcode_kept env d n m m' b old d1 d2 d3 d' : chain_inv d → metadata d !! n = Some m →
  Z.of_nat (length b) < 2 ^ 32 → code_fresh d b →
  (code_hash m = zero_digest ∧ old = 0 ∧ d1 = d ∨
   code_hash m ≠ zero_digest ∧ release_code d m (code_hash m') = Ok (old, d1)) →
  (b = [] ∧ code_hash m' = zero_digest ∧ d2 = d1 ∨
   b ≠ [] ∧ code_hash m' = sha256 b ∧ install_code env d1 (code_hash m', 0, 0) b = Ok d2) →
  code_of m' = (code_hash m', 0, 0) → d3 = with_metadata d2 (<[n := m']> (metadata d)) →
  (Z.of_nat (length b) * setcode_ram_bytes_multiplier = old ∧ d' = d3 ∨
   db_add_ram d3 n (Z.of_nat (length b) * setcode_ram_bytes_multiplier - old) = Ok d') → chain_kept d d'.
Proof.
  intros Hinv Hm Hb Hfresh Hrel Hins Ek E3 H. pose proof (hi_system _ Hinv) as [Hau Hcode Habi Hmeta Hnm Hcore].
  destruct (setcode_counts env d n m m' b old d1 d2 Hcode (names_size _ Hnm) Hm Hb Hfresh Hrel Hins Ek)
    as (c2 & -> & Eold & Hsame & Hcounts & Hnew).
  assert (code_counts c2 (λ k, sum_map (runs k) (<[n := m']> (metadata d)))) as Hc.
  { eapply code_counts_ext, Hcounts. intros k _. by rewrite (references_update _ _ _ _ _ Hm). }
  assert (system_inv d3) as Hs3.
  { subst d3. split; cbn [auths account_objects metadata with_metadata with_codes]; [done|exact Hc|done| | |done].
    2: { intros a Ha. apply Hnm. destruct (decide (n = a)) as [<-|]; [by rewrite Hm|by rewrite lookup_insert_ne in Ha]. }
    intros a. rewrite Hmeta. destruct (decide (n = a)) as [<-|]; [by rewrite lookup_insert_eq, Hm|by rewrite lookup_insert_ne]. }
  assert (∀ a, system_bill d3 a = system_bill d a +
    (if decide (n = a) then Z.of_nat (length b) * setcode_ram_bytes_multiplier - old else 0)) as Hbill.
  { intros a. unfold system_bill. change (auths d3) with (auths d3). subst d3.
    change (account_bill (with_metadata (with_codes d c2) (<[n := m']> (metadata d))) a) with (account_bill d a).
    cbn [auths with_metadata with_codes]. destruct (decide (n = a)) as [<-|Hne].
    - rewrite Eold. enough (code_bill (with_metadata (with_codes d c2) (<[n:=m']> (metadata d))) n =
        Z.of_nat (length b) * setcode_ram_bytes_multiplier) by lia.
      unfold code_bill. cbn [metadata codes with_metadata with_codes]. rewrite lookup_insert_eq. cbn [from_option].
      destruct Hnew as [[Hz ->]|(Hz & o & Ho & <-)]; [by rewrite decide_True|].
      by rewrite decide_False, Ho by done.
    - rewrite (code_bill_other d c2 _ a n m' Hcode Hsame Hne eq_refl Hc). lia. }
  assert (0 ≤ old < 2 ^ 40) as Hold.
  { rewrite Eold. unfold code_bill. rewrite Hm. cbn [from_option]. destruct (decide _); [done|].
    destruct (codes d !! _) eqn:E; [|done]. apply (cc_len _ _ Hcode) in E. cbn.
    unfold setcode_ram_bytes_multiplier. lia. }
  destruct H as [[El ->]|H].
  - apply chain_kept_intro; subst d3; try done; try (by apply accounts_kept_eq); [by apply (chain_usage_ok d)|].
    intros a. rewrite Hbill. cbn [tbl with_metadata with_codes]. destruct (decide _); lia.
  - eapply chain_kept_bill; [done| | | | | | | | |exact H|exact Hbill]; subst d3; try done; try (by apply accounts_kept_eq);
      [by apply (chain_usage_ok d)|unfold in_s64, setcode_ram_bytes_multiplier; lia].
Qed.

(** What keeps the rest of the database keeps the system's objects and bill. *)
Lemma deferred_kept d d' : chain_inv d → same_system d d' → ram_kept d d' → chain_kept d d'.
Proof.
  intros [Hd Hs Hu] Hsame [Hd' He].
  assert (∀ a, unexplained d' a = unexplained d a) as Hu'.
  { intros a. unfold unexplained. by rewrite He, (same_system_bill d) by done. }
  split; [split|done]; [done|by eapply same_system_inv|intros a; rewrite Hu'].
  pose proof (reserve_kept d d' a) as Hr. specialize (Hu a). destruct Hsame as (E & _).
  unfold accounts_kept in Hr. rewrite E in Hr. specialize (Hr (λ a H, H)). lia.
Qed.

(** What changes no object and no usage. *)
Lemma frame_kept d d' : chain_inv d → same_system d d' → deferred d' = deferred d →
  ram_corrections d' = ram_corrections d → same_tables (tbl d) (tbl d') →
  usages (resources (tbl d')) = usages (resources (tbl d)) → chain_kept d d'.
Proof.
  intros Hinv Hs Ed Er Ht Eu. apply chain_kept_intro; try done.
  - intros a u. rewrite Eu. by apply (chain_usage_ok d Hinv).
  - eapply (same_system_inv d); [done|apply Hinv].
  - apply accounts_kept_eq. by destruct Hs.
  - intros a. rewrite (same_system_bill d) by done. unfold usage. by rewrite Eu.
Qed.

(** What an account runs stays the same. *)
Lemma metadata_kept d n m m' : chain_inv d → metadata d !! n = Some m → code_of m' = code_of m →
  chain_kept d (with_metadata d (<[n := m']> (metadata d))).
Proof.
  intros Hinv Hm Ek. pose proof (hi_system _ Hinv) as [Hau Hcode Habi Hmeta Hnm Hcore].
  assert (∀ a, is_Some (<[n := m']> (metadata d) !! a) ↔ is_Some (metadata d !! a)) as Hdom.
  { intros a. destruct (decide (n = a)) as [<-|]; [by rewrite lookup_insert_eq, Hm|by rewrite lookup_insert_ne]. }
  apply chain_kept_intro; try done; try (by apply accounts_kept_eq); [by apply (chain_usage_ok d)| |].
  - split; cbn [auths account_objects metadata with_metadata]; try done.
    + eapply code_counts_ext, Hcode. intros k _. unfold references. cbn [metadata with_metadata].
      rewrite (references_update _ _ _ _ _ Hm). unfold references, runs. rewrite Ek. lia.
    + intros a. by rewrite Hdom.
    + intros a. rewrite Hdom. apply Hnm.
  - intros a. unfold system_bill, account_bill, code_bill. cbn [auths account_objects metadata codes with_metadata tbl].
    destruct (decide (n = a)) as [<-|]; [|by rewrite lookup_insert_ne].
    rewrite lookup_insert_eq, Hm. cbn [from_option]. rewrite Ek.
    by replace (code_hash m') with (code_hash m) by (unfold code_of in Ek; congruence).
Qed.

Lemma not_reserved d k p : chain_inv d → permissions (auths d) !! k = Some p → k = (owner p, name p) →
  owner p ≠ 0 → id p ≠ 0.
Proof.
  intros Hinv Hp -> H0 Hi. pose proof (ai_tree _ (si_auths _ (hi_system _ Hinv))) as Ht.
  destruct (pi_root _ Ht) as (r & Hr & Hr0 & _).
  assert (id p = id r) as E by congruence. pose proof (pi_inj _ Ht _ _ _ _ Hp Hr E). congruence.
Qed.

Lemma native_effect_kept c d d' : chain_inv d → native_effect code_fresh c d d' → chain_kept d d'.
Proof.
  intros Hinv H. destruct H.
  - by eapply newaccount_kept.
  - apply frame_kept; try done. repeat split; congruence.
  - eapply update_permission_kept; try done. by eapply not_reserved.
  - by eapply add_permission_kept.
  - eapply delete_permission_kept; try done. by eapply not_reserved.
  - by eapply relink_kept.
  - by eapply link_kept.
  - by eapply unlink_kept.
  - eapply setabi_kept; [exact Hinv|eassumption|eassumption|eassumption| |eassumption|eassumption]. done.
  - eapply (setcode_kept env d n m); [exact Hinv|eassumption|eassumption|eassumption| | | |eassumption|eassumption]; done.
  - pose proof (cancel_frame _ _ _ _ _ H) as (t & g & E).
    apply deferred_kept; [done|rewrite E; by repeat split|].
    eapply cancel_deferred_kept; [apply Hinv|done].
Qed.

(** ** Steps of the chain *)
Context (decode : Transaction.action → native_data) (pack_context : generation_context → list Z).
Context (f64_rank f128_rank : Z → Z) (f64_is_nan f128_is_nan : Z → bool).

Lemma same_system_trans d1 d2 d3 : same_system d1 d2 → same_system d2 d3 → same_system d1 d3.
Proof. intros (?&?&?&?&?&?) (?&?&?&?&?&?). repeat split; congruence. Qed.

Lemma db_add_ram_same d p delta d' : db_add_ram d p delta = Ok d' → same_system d d'.
Proof. intros (t & ->)%db_add_ram_frame. by repeat split. Qed.

Lemma create_generated_same d k g d' : create_generated d k g = Ok d' → same_system d d'.
Proof. unfold create_generated. intros H. res_inv. by repeat split. Qed.

Lemma replace_generated_same env d k g b d' : replace_generated env d k g b = Ok d' → same_system d d'.
Proof.
  unfold replace_generated. intros H. do 2 (apply bind_Ok in H as (? & _ & H)).
  apply bind_Ok in H as (d1 & H & [= <-]). apply (same_system_trans _ d1); [|by repeat split].
  destruct (replace_deferred env).
  - apply bind_Ok in H as (? & _ & H). by eapply db_add_ram_same.
  - unfold add_to_ram_correction in H. destruct (db_find _ _); res_inv; by repeat split.
Qed.

Lemma store_generated_same env d x sid payer delay t b d' :
  store_generated env d x sid payer delay t b = Ok d' → same_system d d'.
Proof.
  unfold store_generated. intros H. apply bind_Ok in H as ([d1 i] & H1 & H).
  apply bind_Ok in H as (d2 & H2%create_generated_same & H). apply bind_Ok in H as (? & _ & H%db_add_ram_same).
  apply (same_system_trans _ d1); [|by eapply same_system_trans].
  destruct (db_find _ _); [|simplify_eq; by repeat split].
  apply bind_Ok in H1 as (? & H1%replace_generated_same & [= <- _]). done.
Qed.

Lemma schedule_deferred_same env w x sid payer t b w' x' :
  schedule_deferred_transaction decode pack_context env w x sid payer t b = Ok (w', x') →
  same_system (dbs w) (dbs w').
Proof.
  unfold schedule_deferred_transaction. intros H. do 3 (apply bind_Ok in H as (? & _ & H)).
  apply bind_Ok in H as (w1 & Hw & H). apply bind_Ok in H as (? & _ & H).
  apply bind_Ok in H as (d & H%store_generated_same & [= <- _]).
  unfold charge_retirement in Hw. by apply bind_Ok in Hw as (? & _ & [= <-]).
Qed.

Lemma schedule_transaction_same env w t delay w' :
  schedule_transaction env w t delay = Ok w' → same_system (dbs w) (dbs w').
Proof.
  unfold schedule_transaction. intros H. apply bind_Ok in H as (w1 & Hw & H).
  apply bind_Ok in H as (d & Hd%create_generated_same & H). apply bind_Ok in H as (st & _ & [= <-]).
  destruct (_ =? 0); [|by simplify_eq]. unfold charge_retirement in Hw. by apply bind_Ok in Hw as (? & _ & [= <-]).
Qed.

Lemma ram_step_same d d' :
  ram_step decode pack_context f64_rank f128_rank f64_is_nan f128_is_nan d d' → same_system d d'.
Proof.
  intros [d0 st _|env w x sid payer t b w' x' _ H|env w t delay w' _ H|w sid snd b w' H|d0 k g delta d0' _ H|d0 d0' _ H].
  - by repeat split.
  - by eapply schedule_deferred_same.
  - by eapply schedule_transaction_same.
  - apply cancel_frame in H as (? & ? & ->). by repeat split.
  - unfold remove_scheduled_transaction in H. res_inv. simplify_eq. by repeat split.
  - unfold on_activation_replace_deferred in H. apply bind_Ok in H as ([r m] & _ & [= <-]). by repeat split.
Qed.

(** A step is one of [ram_step], or a system action that runs to its end. *)
Inductive chain_step : database → database → Prop :=
  | chain_ram d d' :
      ram_step decode pack_context f64_rank f128_rank f64_is_nan f128_is_nan d d' → chain_step d d'
  | chain_native r s a h env w x w' : find_apply_handler r s a = Some h →
      (∀ act, unpack_setcode (a_data (x_act x)) = Ok act → code_fresh (dbs w) (sc_code act)) →
      h env w x = Ok w' → chain_step (dbs w) (dbs w').

Lemma handler_kept r s a h env w x w' : chain_inv (dbs w) → find_apply_handler r s a = Some h →
  (∀ act, unpack_setcode (a_data (x_act x)) = Ok act → code_fresh (dbs w) (sc_code act)) →
  h env w x = Ok w' → chain_kept (dbs w) (dbs w').
Proof.
  intros Hinv Hh Hfresh H.
  destruct (handler_effect code_fresh _ _ _ _ _ _ _ _ (ai_tree _ (si_auths _ (hi_system _ Hinv))) Hfresh Hh H)
    as (c & He). by eapply native_effect_kept.
Qed.

Lemma chain_step_kept d d' : chain_inv d → chain_step d d' → chain_kept d d'.
Proof.
  intros Hinv H. destruct H as [d d' H|r s a h env w x w' Hh Hfresh H]; [|by eapply handler_kept].
  apply deferred_kept; [done|by apply ram_step_same|].
  by eapply ram_step_kept; [apply Hinv|].
Qed.

Lemma chain_kept_refl d : chain_inv d → chain_kept d d.
Proof. by split. Qed.
Lemma chain_kept_trans d1 d2 d3 : chain_kept d1 d2 → chain_kept d2 d3 → chain_kept d1 d3.
Proof. intros [_ H1] [? H2]. split; [done|]. intros a. by rewrite H2. Qed.

Lemma chain_steps_kept d0 d : chain_inv d0 → rtc chain_step d0 d → chain_kept d0 d.
Proof.
  intros Hinv H. revert Hinv. induction H as [|d0 d1 d2 H _ IH]; intros Hinv; [by apply chain_kept_refl|].
  pose proof (chain_step_kept _ _ Hinv H) as Hk. eapply chain_kept_trans; [done|]. apply IH. by destruct Hk.
Qed.


(** C11.  The code store has no garbage and no dangling reference: a code that an
    account runs is stored with the number of accounts that run it, and a code
    that no account runs is not stored. *)
Theorem codes_exact d0 d : chain_inv d0 → rtc chain_step d0 d →
  (∀ a m, metadata d !! a = Some m → code_hash m ≠ zero_digest →
     ∃ o, codes d !! code_of m = Some o ∧ sha256 (code o) = code_hash m) ∧
  (∀ k o, codes d !! k = Some o →
     code_ref_count o = references d k ∧ ∃ a m, metadata d !! a = Some m ∧ code_of m = k).
Proof.
  intros Hinv H. destruct (chain_steps_kept _ _ Hinv H) as [Hinv' _].
  destruct (si_codes _ (hi_system _ Hinv')) as [Hs Hr Hh _]. split.
  - intros a m Hm Hz. destruct (Hs (code_of m)) as [o Ho]; [done| |].
    + pose proof (sum_map_lookup (runs (code_of m)) _ a m (runs_bound _) Hm) as Hl.
      unfold runs at 1 in Hl. rewrite decide_True in Hl by done. unfold references. lia.
    + exists o. split; [done|]. destruct (Hh _ _ Ho) as [E _]. by injection E.
  - intros k o Ho. destruct (Hr _ _ Ho) as [E Hpos]. split; [done|].
    apply (sum_map_pos (runs k)) in Hpos as (a & m & Hm & Hp). exists a, m. split; [done|].
    unfold runs in Hp. by destruct (decide _).
Qed.

(** An account keeps its metadata and its permissions [owner] and [active]
    for ever, and the permission tree stays well formed. *)
Theorem accounts_stay_usable d0 d a : chain_inv d0 → rtc chain_step d0 d →
  is_Some (account_objects d !! a) →
  is_Some (metadata d !! a) ∧ is_Some (permissions (auths d) !! (a, owner_name)) ∧
  is_Some (permissions (auths d) !! (a, active_name)) ∧ perm_inv (auths d).
Proof.
  intros Hinv H Ha. destruct (chain_steps_kept _ _ Hinv H) as [Hinv' _].
  destruct (hi_system _ Hinv') as [Hau _ _ Hm _ Hc]. destruct (Hc a Ha) as [Ho Hac].
  split; [by apply (proj1 (Hm a))|]. split; [exact Ho|]. split; [exact Hac|]. exact (ai_tree _ Hau).
Qed.
End theory.
