(* ===== verification/Genesis.v ===== *)
(** * The state of a new chain ([controller.cpp], [memory_db.cpp], [genesis_state.hpp])

    [initialize_database] writes the objects of the genesis: the accounts of the
    system with their permissions, the contracts that come with the node, and
    the balances and producers of the genesis file, as rows of the contracts'
    tables.  [memory_db] stores rows without billing them. *)

From S2P Require Import Prelude Chainbase Names Assets Config Merkle BlockHeader ProtocolFeatures ChainConfig ConfigOnChain TxFee Accumulator.
From S2P Require Import ResourceLimits ControllerLists Authority AuthorityChecker Permissions.
From S2P Require Import BlockTimestamp Transaction AccessLists TransactionContext ContractTables ActionContext Deferred SystemActions.
Local Open Scope Z_scope.

Definition fee_account_name : Z := N_ "codex.fee".
Definition reward_account_name : Z := N_ "codex.reward".
Definition relay_token_account_name : Z := N_ "relay.token".
Definition majority_producers_permission_name : Z := N_ "prod.major".
Definition minority_producers_permission_name : Z := N_ "prod.minor".
Definition system_token_maximum_supply : Z := 10000000000 * 10000.

(** ** Data *)
Record account_tuple := { at_key : public_key; at_asset : asset; at_name : Z }.
Record producer_tuple := { pt_name : Z; bpkey : Z; commission_rate : Z; url : list Z }.
Record genesis_state := {
  initial_configuration : chain_config; initial_timestamp : Z; initial_key : public_key;
  initial_account_list : list account_tuple; initial_producer_list : list producer_tuple }.
Record system_contract := { ct_name : Z; ct_code : list Z; ct_abi : list Z }.
Record genesis_conf := {
  genesis : genesis_state;
  ct_system : system_contract; ct_token : system_contract;
  ct_msig : system_contract; ct_relay : system_contract }.

(** [fc::raw::pack] of the rows, and of the interfaces that are written in the
    code. *)
Class GenesisFc := {
  pack_token_account : asset → list Z;
  pack_currency_stats : asset → asset → Z → list Z;
  pack_bp_info : producer_tuple → list Z;
  packed_eosio_abi : list Z;
  packed_native_abi : list Z;
}.

Section genesis.
Context {db : Chainbase} {fc : TrxFc} {sf : SystemFc} {gf : GenesisFc}.
(** What the authorization manager reads of the controller. *)
Context (c : control).
Implicit Types (g : genesis_conf) (d : database) (st : table_state).

(** ** [memory_db] *)
Definition memory_find_or_create_table st (code scope table payer : Z) : result (Z * table_state) :=
  match db_find (tables st) (code, scope, table) with
  | Some existing_tid => Ok (t_id existing_tid, st)
  | None =>
      let tid := next_table_id st in
      ts ← db_create (tables st) (code, scope, table) (mk_table tid payer 0);
      Ok (tid, mk_state ts (tid + 1) (rows st) (resources st) (validate_ram_usage st)
                 (account_ram_deltas st) (caches st))
  end.

Definition memory_db_store_i64 st (code scope table payer id : Z) (buffer : list Z) : result table_state :=
  '(tableid, st) ← memory_find_or_create_table st code scope table payer;
  _ ← EOS_ASSERT (negb (payer =? 0)) invalid_table_payer;
  r ← db_create (rows st) (key_value, (tableid, id)) (mk_row payer buffer);
  t ← db_modify (tables st) (code, scope, table) (add_to_count 1);
  Ok (with_tables (with_rows st r) t).

(** A row of more than 512 bytes is read from the buffer after it is freed. *)
Definition memory_db_get st (code scope table id : Z) : result (option (list Z)) :=
  match db_find (tables st) (code, scope, table) with
  | None => Ok None
  | Some tab =>
      match db_find (rows st) (key_value, (t_id tab, id)) with
      | None => Ok None
      | Some obj =>
          if 512 <? Z.of_nat (length (payload obj)) then Throw undefined_behaviour
          else Ok (Some (payload obj))
      end
  end.

Definition insert_row d (code scope table payer id : Z) (data : list Z) : result database :=
  st ← memory_db_store_i64 (tbl d) code scope table payer id data; Ok (with_tbl d st).

(** [to_symbol_code().value] *)
Definition symbol_code (s : Z) : Z := Z.shiftr s 8.

(** ** Accounts *)
Definition native_abi_of (name : Z) : list Z :=
  if name =? system_account_name then packed_eosio_abi
  else if name =? native_account_name then packed_native_abi else [].

Definition create_native_account g d (name : Z) (owner active : authority) (is_privileged : bool) :
    result database :=
  match db_find (account_objects d) name with
  | Some _ => Ok d
  | None =>
  let t := initial_timestamp (genesis g) in
  ao ← db_create (account_objects d) name (mk_account (creation_slot t) (native_abi_of name));
  m ← db_create (metadata d) name (mk_metadata 0 0 0 0 zero_digest 0 is_privileged 0 0);
  '(a, owner_permission) ← create_permission c (auths d) name owner_name 0 owner t;
  '(a, active_permission) ←
    create_permission c a name active_name (id owner_permission) active t;
  r ← initialize_account (resources (tbl d)) name;
  let ram_delta :=
    s64 (overhead_per_account_ram_bytes + 2 * billable_permission
         + get_billable_size key_size (auth owner_permission)
         + get_billable_size key_size (auth active_permission)) in
  r ← add_pending_ram_usage r name ram_delta;
  _ ← verify_account_ram_usage r name;
  Ok (with_tbl (with_auths (with_metadata (with_accounts d ao) m) a) (with_resources (tbl d) r))
  end.

(** ** Contracts *)
Definition initialize_contract g d (sc : system_contract) (privileged : bool) : result database :=
  let code_hash := sha256 (take (Z.to_nat (u32 (Z.of_nat (length (ct_code sc))))) (ct_code sc)) in
  let code_size := Z.of_nat (length (ct_code sc)) in
  let abi_size := Z.of_nat (length (ct_abi sc)) in
  _ ← db_get (account_objects d) (ct_name sc);
  ao ← db_modify (account_objects d) (ct_name sc) (λ a,
         Ok (mk_account (creation_date a) (if 0 <? abi_size then ct_abi sc else abi a)));
  co ← add_code (codes d) (code_hash, 0, 0) (ct_code sc) 1;
  _ ← db_get (metadata d) (ct_name sc);
  m ← db_modify (metadata d) (ct_name sc) (λ a,
        Ok (mk_metadata (recv_sequence a) (auth_sequence a) (u64 (code_sequence a + 1))
              (u64 (abi_sequence a + 1)) code_hash (initial_timestamp (genesis g)) privileged 0 0));
  _ ← db_get (usages (resources (tbl d))) (ct_name sc);
  bytes ← int64_op (code_size + abi_size);
  bytes ← int64_op (bytes * setcode_ram_bytes_multiplier);
  us ← db_modify (usages (resources (tbl d))) (ct_name sc) (λ u,
         Ok {| net_usage := net_usage u; cpu_usage := cpu_usage u; ram_usage := u64 (ram_usage u + bytes) |});
  let d := with_metadata (with_codes (with_accounts d ao) co) m in
  Ok (with_tbl d (with_resources (tbl d) (with_usages (resources (tbl d)) us))).

(** ** Authorities of the system accounts *)
Definition level_authority (levels : list permission_level) : authority :=
  {| threshold := 1; keys := []; waits := [];
     accounts := (λ l, {| plw_permission := l; plw_weight := 1 |}) <$> levels |}.

(** The permission changes in place: its date and the bill stay. *)
Definition update_permission d (account perm : Z) (a : authority) : result database :=
  p ← get_permission (auths d) (PermissionLevel account perm);
  if bool_decide (auth p = a) then Ok d else
  ps ← db_modify (permissions (auths d)) (owner p, name p) (λ po,
         Ok {| id := id po; usage_id := usage_id po; parent := parent po; owner := owner po;
               name := name po; last_updated := last_updated po; auth := a |});
  Ok (with_auths d (AuthDb ps (next_id (auths d)) (permission_usages (auths d))
                      (next_usage_id (auths d)) (links (auths d)) (generated (auths d)))).

Definition update_eosio_authority d : result database :=
  let a := level_authority [PermissionLevel producers_account_name active_name] in
  d ← update_permission d system_account_name active_name a;
  update_permission d token_account_name active_name a.

Definition update_reward_authority d : result database :=
  update_permission d reward_account_name active_name
    (level_authority [PermissionLevel system_account_name eosio_code_name;
                      PermissionLevel relay_token_account_name eosio_code_name;
                      PermissionLevel token_account_name eosio_code_name]).

Definition update_relay_authority d : result database :=
  update_permission d relay_account_name active_name
    (level_authority [PermissionLevel system_account_name eosio_code_name;
                      PermissionLevel relay_account_name eosio_code_name]).

(** ** Balances and producers *)
Definition asset_of (n : Z) : result asset := asset_ctor n CORE_SYMBOL.

Definition get_token_sum g : result asset :=
  zero ← asset_of 0;
  fold_res (λ sum account, asset_add_assign sum (at_asset account)) zero (initial_account_list (genesis g)).

Definition genesis_account g d (account : account_tuple) : result database :=
  d ← insert_row d token_account_name (at_name account) (N_ "accounts") (at_name account)
        (symbol_code (sym (at_asset account))) (pack_token_account (at_asset account));
  let a := authority_of_key (at_key account) 0 in
  create_native_account g d (at_name account) a a false.

Definition initialize_accounts g d : result database :=
  fold_res (genesis_account g) d (initial_account_list (genesis g)).

Definition initialize_producer g d : result database :=
  fold_res (λ d p, insert_row d system_account_name system_account_name (N_ "bps") (pt_name p)
                     (pt_name p) (pack_bp_info p)) d (initial_producer_list (genesis g)).

Definition initialize_schedule g : list producer_key :=
  (λ p, mk_producer_key (pt_name p) (bpkey p)) <$> initial_producer_list (genesis g).

(** ** The database *)
Definition system_auth g : authority := authority_of_key (initial_key (genesis g)) 0.

Definition initialize_database_force g d : result database :=
  let native name := λ d, create_native_account g d name (system_auth g) (system_auth g) false in
  d ← native token_account_name d;
  d ← native msig_account_name d;
  d ← native fee_account_name d;
  d ← native relay_account_name d;
  d ← native reward_account_name d;
  d ← initialize_contract g d (ct_system g) true;
  d ← initialize_contract g d (ct_token g) false;
  d ← initialize_contract g d (ct_msig g) true;
  d ← initialize_contract g d (ct_relay g) false;
  tsum ← get_token_sum g;
  max_supply ← asset_of system_token_maximum_supply;
  d ← insert_row d token_account_name (symbol_code CORE_SYMBOL) (N_ "stat") token_account_name
        (symbol_code (sym tsum)) (pack_currency_stats tsum max_supply system_account_name);
  zero ← asset_of 0;
  d ← insert_row d token_account_name system_account_name (N_ "accounts") system_account_name
        (symbol_code (sym zero)) (pack_token_account zero);
  d ← initialize_accounts g d;
  d ← initialize_producer g d;
  d ← update_eosio_authority d;
  d ← update_reward_authority d;
  d ← update_relay_authority d;
  let r := resources (tbl d) in
  cfgs ← set_num_config_on_chain (configs r) (N_ "res.freeram") (8 * 1024);
  Ok (with_tbl d (with_resources (tbl d)
        (ResourceDb (limits r) (usages r) (config r) (gmr r) (state r) cfgs (vote4ram r)))).

(** The objects that exist before the accounts. *)
Definition empty_lists {A} (l : A) : name_lists A := Build_name_lists A l l l.
Definition blank_database g (r : resource_db) : database :=
  mk_database (mk_state ∅ 0 ∅ r ∅ ∅ ∅) initial_auth_db ∅ ∅ ∅
    (mk_global None (mk_schedule 0 []) (initial_configuration (genesis g)))
    (mk_force (empty_lists []) default_gmr) [] 0 ∅ ∅ (mk_corrections ∅ 0).

Definition initialize_database g : result database :=
  _ ← chain_config_validate (initial_configuration (genesis g));
  r ← set_gmr_parameters (ResourceLimits.initialize_database ∅ ∅) default_gmr;
  let d := blank_database g r in
  d ← create_native_account g d system_account_name (system_auth g) (system_auth g) true;
  d ← create_native_account g d native_account_name (system_auth g) (system_auth g) true;
  d ← initialize_database_force g d;
  let empty_authority := level_authority [] in
  let active_producers_authority := level_authority [PermissionLevel system_account_name active_name] in
  d ← create_native_account g d null_account_name empty_authority empty_authority false;
  d ← create_native_account g d producers_account_name empty_authority active_producers_authority false;
  active_permission ← get_permission (auths d) (PermissionLevel producers_account_name active_name);
  '(a, majority_permission) ←
    create_permission c (auths d) producers_account_name majority_producers_permission_name
      (id active_permission) active_producers_authority (initial_timestamp (genesis g));
  '(a, _) ←
    create_permission c a producers_account_name minority_producers_permission_name
      (id majority_permission) active_producers_authority (initial_timestamp (genesis g));
  Ok (with_auths d a).
End genesis.
