(* ===== verification/GenesisTheory.v ===== *)
(** * The genesis satisfies the invariant of the chain

    What [initialize_database] builds is a database of the kind the system
    actions, the tables and the deferred transactions keep: a well-formed
    permission tree, tables with exact counts, codes with exact reference
    counts. *)

From S2P Require Import Prelude Chainbase Names Assets Config Merkle BlockHeader ProtocolFeatures ChainConfig ConfigOnChain TxFee Accumulator.
From S2P Require Import ResourceLimits ControllerLists Authority AuthorityChecker Permissions HeaderExamples.
From S2P Require Import Transaction AccessLists TransactionContext Billing ContractTables TableTheory DatabaseApi ActionContext Deferred DeferredRam.
From S2P Require Import SystemActions SystemTheory SystemRam Genesis.
Local Open Scope Z_scope.

(** The packed rows and interfaces have a 32-bit size. *)
Class GenesisFcLaws (gf : GenesisFc) : Prop := {
  pack_token_account_size : ∀ a, Z.of_nat (length (pack_token_account a)) < 2 ^ 32;
  pack_currency_stats_size : ∀ s m i, Z.of_nat (length (pack_currency_stats s m i)) < 2 ^ 32;
  pack_bp_info_size : ∀ p, Z.of_nat (length (pack_bp_info p)) < 2 ^ 32;
  packed_eosio_abi_size : Z.of_nat (length packed_eosio_abi) < 2 ^ 32;
  packed_native_abi_size : Z.of_nat (length packed_native_abi) < 2 ^ 32;
}.

Section theory.
Context {db : Chainbase} {laws : ChainbaseLaws db} {fc : TrxFc} {cr : Crypto}.
Context {sf : SystemFc} {sfl : SystemFcLaws sf} {gf : GenesisFc} {gfl : GenesisFcLaws gf}.
Context (c : control).
Implicit Types (g : genesis_conf) (d : database) (st : table_state) (L : list system_contract).

(** [L] are the contracts installed so far, [n] bounds the number of rows. *)
Record genesis_inv L (n : Z) d : Prop := {
  gi_system : system_inv d;
  gi_tables : tables_base (tbl d);
  gi_rows : Z.of_nat (size (rows (tbl d))) ≤ n;
  gi_deferred : deferred d = ∅;
  gi_noted : noted (ram_corrections d) = ∅;
  gi_runs : ∀ a m, metadata d !! a = Some m → code_hash m ≠ zero_digest → a ∈ ct_name <$> L;
  gi_refs : ∀ k, k.1.1 ≠ zero_digest → references d k ≤ Z.of_nat (length L);
  gi_codes : ∀ k o, codes d !! k = Some o → code o ∈ ct_code <$> L }.

(** ** Rows *)
Lemma memory_db_store_base st code scope table p id data st' : tables_base st →
  Z.of_nat (size (rows st)) + 1 < 2 ^ 32 → Z.of_nat (length data) < 2 ^ 32 →
  memory_db_store_i64 st code scope table p id data = Ok st' →
  tables_base st' ∧ size (rows st') = S (size (rows st)).
Proof.
  intros Hb Hsz Hl H. unfold memory_db_store_i64 in H.
  apply bind_Ok in H as ([tid st1] & H1 & H). apply bind_Ok in H as (? & _ & H).
  apply bind_Ok in H as (r & Hr & H). apply bind_Ok in H as (t & Ht & [= <-]).
  apply db_create_Ok in Hr as [Hnew ->]. apply db_modify_Ok in Ht as (v & v' & Hv & [= <-] & ->).
  assert (tables_base st1 ∧ rows st1 = rows st ∧ t_id v = tid) as (Hb1 & Er & <-).
  { unfold memory_find_or_create_table in H1. rewrite db_find_spec in H1.
    destruct (tables st !! _) as [t|] eqn:Et; [simplify_eq; split_and!; try done; congruence|].
    apply bind_Ok in H1 as (ts & Hts & [= <- <-]). apply db_create_Ok in Hts as [_ ->].
    split_and!; [by apply add_table_base|done|]. cbn in Hv. rewrite lookup_insert_eq in Hv. by injection Hv as <-. }
  rewrite <- Er in Hsz. split; [by apply add_row_base|].
  cbn [rows with_tables with_rows]. by rewrite map_size_insert_None, Er.
Qed.

Lemma insert_row_inv L n d code scope table p id data d' : genesis_inv L n d → n + 1 < 2 ^ 32 →
  Z.of_nat (length data) < 2 ^ 32 → insert_row d code scope table p id data = Ok d' →
  genesis_inv L (n + 1) d'.
Proof.
  intros [Hs Ht Hr Hd Hn Hru Hre Hc] Hsz Hl H. unfold insert_row in H.
  apply bind_Ok in H as (st & H & [= <-]). apply memory_db_store_base in H as [Hb E]; [|done|lia|done].
  split; try done; [|cbn; lia]. by apply (same_system_inv d).
Qed.

(** ** Accounts *)
Lemma authority_of_key_ok k : authority_ok (authority_of_key k 0) ∧ authority_fits (authority_of_key k 0).
Proof. unfold authority_ok, authority_fits. cbn. split; [|lia]. repeat split; repeat constructor; cbn; lia. Qed.

Lemma level_authority_ok ls : Z.of_nat (length ls) ≤ 2 ^ 16 →
  authority_ok (level_authority ls) ∧ authority_fits (level_authority ls).
Proof.
  intros H. unfold authority_ok, authority_fits, level_authority. cbn. rewrite length_fmap. split; [|lia].
  split_and!; [unfold in_u; lia|constructor| |constructor]. apply Forall_fmap, Forall_true. by intros.
Qed.

Lemma native_abi_size name : Z.of_nat (length (native_abi_of name)) < 2 ^ 32.
Proof.
  unfold native_abi_of. destruct (_ =? _); [apply packed_eosio_abi_size|].
  destruct (_ =? _); [apply packed_native_abi_size|done].
Qed.

Lemma create_native_account_inv g L n d name ow ac priv d' : genesis_inv L n d → 0 < name < 2 ^ 64 →
  authority_ok ow ∧ authority_fits ow → authority_ok ac ∧ authority_fits ac →
  create_native_account c g d name ow ac priv = Ok d' → genesis_inv L n d'.
Proof.
  intros [Hs Ht Hr Hd Hn Hru Hre Hc] Hname [Ho1 Ho2] [Ha1 Ha2] H. unfold create_native_account in H.
  rewrite db_find_spec in H. destruct (account_objects d !! name) eqn:Hacc; [by simplify_eq|].
  apply bind_Ok in H as (ao & Hao & H). apply db_create_Ok in Hao as [_ ->].
  apply bind_Ok in H as (m & Hm & H). apply db_create_Ok in Hm as [Hmn ->].
  apply bind_Ok in H as ([a1 o] & Ho & H). apply bind_Ok in H as ([a2 p] & Hp & H).
  apply bind_Ok in H as (r & Hi & H). apply bind_Ok in H as (r' & Hadd & H).
  apply bind_Ok in H as (? & _ & [= <-]).
  apply create_permission_adds in Ho as (Hao & Eo & No & _); [|done..|by left].
  apply create_permission_adds in Hp as (Hap & Ep & Np & _); [|done..|].
  2: { right. destruct Hao as (_ & _ & _ & -> & _). exists (owner o, Permissions.name o), o.
       by rewrite lookup_insert_eq. }
  unfold initialize_account in Hi. apply bind_Ok in Hi as (l & _ & Hi).
  apply bind_Ok in Hi as (us & Hus & [= <-]). apply db_create_Ok in Hus as [_ ->].
  assert (usage_ok (with_resources (tbl d) r')) as Hu.
  { eapply (pending_usage_Ok (with_resources (tbl d)
      (with_usages (with_limits (resources (tbl d)) l) _))); [|apply s64_range|exact Hadd].
    intros a u. cbn [resources with_resources usages with_usages].
    intros [[_ <-]|[_ Hu]]%lookup_insert_Some; [done|by eapply (ti_usage _ Ht)]. }
  assert (∀ k, k.1.1 ≠ zero_digest →
    sum_map (runs k) (<[name := mk_metadata 0 0 0 0 zero_digest 0 priv 0 0]> (metadata d)) = references d k) as Href.
  { intros k Hk. rewrite references_insert by done. unfold runs. rewrite decide_False; [lia|]. intros <-. by apply Hk. }
  split; [| |exact Hr|exact Hd|exact Hn| | |exact Hc].
  - by eapply (new_account_inv c d name (mk_account _ (native_abi_of name))
      (mk_metadata 0 0 0 0 zero_digest 0 priv 0 0) a1 o a2 p); try done; try apply native_abi_size.
  - by apply (tables_base_same (tbl d)).
  - cbn. intros a m [[<- <-]|[_ Hm]]%lookup_insert_Some; [done|by eapply Hru].
  - intros k Hk. unfold references. cbn. rewrite Href by done. by apply Hre.
Qed.

(** ** Contracts *)
Lemma initialize_contract_inv g L n d sc priv d' : genesis_inv L n d →
  ct_name sc ∉ ct_name <$> L → Z.of_nat (length L) < 2 ^ 32 →
  Z.of_nat (length (ct_code sc)) < 2 ^ 32 → Z.of_nat (length (ct_abi sc)) < 2 ^ 32 →
  sha256 (ct_code sc) ≠ zero_digest →
  (∀ b, b ∈ ct_code <$> L → sha256 b = sha256 (ct_code sc) → b = ct_code sc) →
  initialize_contract g d sc priv = Ok d' → genesis_inv (sc :: L) n d'.
Proof.
  intros [[Hau Hcode Habi Hmeta Hnm Hcore] Ht Hr Hd Hn Hru Hre Hc] Hnew HL Hlc Hla Hz Hcol H.
  unfold initialize_contract in H.
  rewrite (wrap_small 32), Nat2Z.id, firstn_all in H by (unfold in_u; lia).
  apply bind_Ok in H as (? & _ & H). apply bind_Ok in H as (ao & Hao & H).
  apply db_modify_Ok in Hao as (o & o' & Ho & [= <-] & ->). apply bind_Ok in H as (co & Hco & H).
  apply bind_Ok in H as (? & _ & H). apply bind_Ok in H as (mm & Hmm & H).
  apply db_modify_Ok in Hmm as (m & m' & Hm & [= <-] & ->). apply bind_Ok in H as (? & _ & H).
  do 2 (apply bind_Ok in H as (? & _ & H)). apply bind_Ok in H as (us & Hus & [= <-]).
  apply db_modify_Ok in Hus as (u & u' & Hu & [= <-] & ->).
  assert (code_hash m = zero_digest) as Hm0.
  { destruct (decide (code_hash m = zero_digest)); [done|]. by destruct Hnew; eapply Hru. }
  pose proof (Hre (sha256 (ct_code sc), 0, 0) Hz) as Hb1.
  pose proof (references_bound d (sha256 (ct_code sc), 0, 0)) as [Hb2 _].
  pose proof Hco as Hco'. apply (add_code_Ok _ _ _ _ _ Hcode) in Hco as (oc & Hoc & Eb & Hsame & Hother & Hcounts);
    [|lia|done|done|done|intros k oo Hk; by apply Hcol, (Hc k)].
  assert (∀ k, k.1.1 ≠ zero_digest → references d k - runs k (ct_name sc) m = references d k) as Hruns.
  { intros k Hk. unfold runs. rewrite decide_False; [lia|]. intros <-. by apply Hk. }
  assert (∀ k o, co !! k = Some o → code o ∈ ct_code <$> sc :: L) as Hcodes.
  { intros k oo Hk. rewrite fmap_cons. destruct (decide (k = (sha256 (ct_code sc), 0, 0))) as [->|Hne].
    - assert (oo = oc) as -> by congruence. rewrite Eb. by left.
    - right. rewrite Hother in Hk by done. by eapply Hc. }
  split; cbn [tbl with_tbl deferred ram_corrections metadata codes with_metadata with_codes with_accounts]; try done.
  - split; cbn [auths account_objects metadata with_tbl with_metadata with_codes with_accounts]; try done.
    + eapply code_counts_ext, Hcounts. intros k Hk. unfold references at 1.
      cbn [metadata with_tbl with_metadata]. rewrite (references_update _ _ _ _ _ Hm), Hruns by done. done.
    + intros a q [[_ <-]|[_ Hq]]%lookup_insert_Some; [|by eapply Habi]. cbn [abi].
      destruct (0 <? _); [done|by eapply Habi].
    + intros a. destruct (decide (ct_name sc = a)) as [<-|]; [by rewrite !lookup_insert_eq|by rewrite !lookup_insert_ne].
    + intros a Ha. apply Hnm. destruct (decide (ct_name sc = a)) as [<-|]; [by rewrite Hm|by rewrite lookup_insert_ne in Ha].
    + intros a Ha. apply Hcore. destruct (decide (ct_name sc = a)) as [<-|]; [by rewrite Ho|by rewrite lookup_insert_ne in Ha].
  - apply (tables_base_same (tbl d)); [done| |done]. intros a v.
    cbn [resources with_resources usages with_usages].
    intros [[_ <-]|[_ Hv]]%lookup_insert_Some; [by apply wrap_range|by eapply (ti_usage _ Ht)].
  - intros a m' [[<- _]|[_ Hm']]%lookup_insert_Some Hz'; rewrite fmap_cons; [by left|right; by eapply Hru].
  - intros k Hk. unfold references. cbn [metadata with_tbl with_metadata].
    rewrite (references_update _ _ _ _ _ Hm), Hruns by done. specialize (Hre k Hk).
    unfold runs. cbn [length]. destruct (decide _); lia.
Qed.

(** ** Permissions that change in place *)
Lemma update_permission_inv L n d account perm a d' : genesis_inv L n d →
  authority_ok a ∧ authority_fits a → update_permission d account perm a = Ok d' → genesis_inv L n d'.
Proof.
  intros [Hs Ht Hr Hd Hn Hru Hre Hc] [Ha1 Ha2] H. unfold update_permission in H.
  apply bind_Ok in H as (p & Hp%get_permission_Ok & H). destruct Hp as (_ & _ & Hp). cbn in Hp.
  case_bool_decide; [by simplify_eq|]. apply bind_Ok in H as (ps & Hps & [= <-]).
  pose proof (si_auths _ Hs) as [Htree Hfits]. pose proof (pi_key _ Htree _ _ Hp) as Ek.
  assert (perm_inv (AuthDb ps (next_id (auths d)) (permission_usages (auths d))
    (next_usage_id (auths d)) (links (auths d)) (generated (auths d)))) as Htree'.
  { eapply (modify_permission_inv (Build_control (last_updated p) false 0 0) (auths d) _ p a); [done..|].
    unfold modify_permission. apply db_modify_Ok in Hps as (v & v' & Hv & [= <-] & ->).
    assert (v = p) as -> by congruence.
    by rewrite db_modify_spec, Hv. }
  apply db_modify_Ok in Hps as (v & v' & Hv & [= <-] & ->).
  split; try done. apply with_auths_inv; [done|split; [done|]|].
  - cbn. intros k q [[_ <-]|[_ Hq]]%lookup_insert_Some; [done|by eapply Hfits].
  - intros x nm _ Hx. cbn. destruct (decide ((owner p, Permissions.name p) = (x, nm))) as [<-|];
      [by rewrite lookup_insert_eq|by rewrite lookup_insert_ne].
Qed.

Lemma add_permission_inv L n d account nm par au t a p : genesis_inv L n d →
  authority_ok au ∧ authority_fits au →
  (par = 0 ∨ ∃ k o, permissions (auths d) !! k = Some o ∧ id o = par ∧ owner o = account) →
  create_permission c (auths d) account nm par au t = Ok (a, p) →
  genesis_inv L n (with_auths d a) ∧ owner p = account ∧
  permissions a !! (account, nm) = Some p.
Proof.
  intros [Hs Ht Hr Hd Hn Hru Hre Hc] [Ha1 Ha2] Hpar H.
  apply create_permission_adds in H as (Hadd & Eo & En & _); [|done..].
  destruct (adds_permission_ok _ _ _ _ (si_auths _ Hs) Hadd) as (Hau & _ & Hk & _ & _).
  split_and!; [|done|]; [split; try done; apply with_auths_inv; [done..|]; intros x y _; apply Hk|].
  destruct Hadd as (_ & _ & _ & -> & _). by rewrite Eo, En, lookup_insert_eq.
Qed.

(** ** The whole genesis *)
Definition contracts g : list system_contract := [ct_system g; ct_token g; ct_msig g; ct_relay g].

(** The contracts that come with the node are for four accounts, of 32-bit size,
    and their hashes do not collide; the genesis file has fewer than 2^32 rows
    and names its accounts with non-empty words. *)
Record genesis_ok g : Prop := {
  go_names : NoDup (ct_name <$> contracts g);
  go_size : Forall (λ sc, Z.of_nat (length (ct_code sc)) < 2 ^ 32 ∧ Z.of_nat (length (ct_abi sc)) < 2 ^ 32)
              (contracts g);
  go_hash : Forall (λ sc, sha256 (ct_code sc) ≠ zero_digest) (contracts g);
  go_collide : ∀ s1 s2, s1 ∈ contracts g → s2 ∈ contracts g →
    sha256 (ct_code s1) = sha256 (ct_code s2) → ct_code s1 = ct_code s2;
  go_accounts : Forall (λ a, 0 < at_name a < 2 ^ 64) (initial_account_list (genesis g));
  go_rows : Z.of_nat (length (initial_account_list (genesis g)))
            + Z.of_nat (length (initial_producer_list (genesis g))) + 2 < 2 ^ 32 }.

Lemma blank_inv g : genesis_inv [] 0
  (blank_database g (ResourceLimits.initialize_database ∅ ∅)).
Proof.
  split; try done.
  - split; try done.
    + split; [apply initial_auth_db_inv|]. intros k p.
      cbn [auths blank_database initial_auth_db permissions].
      intros [_ <-]%lookup_singleton_Some. unfold authority_fits. cbn. lia.
    + intros a. cbn. by rewrite !lookup_empty.
    + intros a. cbn. rewrite lookup_empty. by intros [? ?].
    + intros a. cbn. rewrite lookup_empty. by intros [? ?].
  - apply no_tables_base. by split_and!.
Qed.

(** A contract of the list, after those before it. *)
Lemma install_inv g L n d sc priv d' : genesis_ok g → genesis_inv L n d → sc ∈ contracts g →
  ct_name sc ∉ ct_name <$> L → L ⊆ contracts g → Z.of_nat (length L) < 2 ^ 32 →
  initialize_contract g d sc priv = Ok d' → genesis_inv (sc :: L) n d'.
Proof.
  intros [Hn Hs Hh Hc _ Hr] Hinv Hsc Hnew Hsub HL H. rewrite Forall_forall in Hs, Hh.
  destruct (Hs _ Hsc). eapply initialize_contract_inv; try done; [by apply Hh|].
  intros b (s' & -> & Hs')%list_elem_of_fmap Heq. eapply Hc; [by apply Hsub|done..].
Qed.

Lemma rows_loop {A} (f : database → A → result database) L l : ∀ n d d',
  (∀ n d x d', x ∈ l → genesis_inv L n d → n + 1 < 2 ^ 32 → f d x = Ok d' → genesis_inv L (n + 1) d') →
  genesis_inv L n d → n + Z.of_nat (length l) < 2 ^ 32 → fold_res f d l = Ok d' →
  genesis_inv L (n + Z.of_nat (length l)) d'.
Proof.
  induction l as [|x l IH]; intros n d d' Hf Hinv Hn H; cbn [fold_res length] in *.
  - simplify_eq. by rewrite Z.add_0_r.
  - apply bind_Ok in H as (d1 & H1 & H).
    replace (n + Z.of_nat (S (length l))) with (n + 1 + Z.of_nat (length l)) by lia.
    apply (IH _ d1); [|eapply Hf; [left|done|lia|done]|lia|done].
    intros n' d2 y d3 Hy. apply Hf. by right.
Qed.

Lemma initialize_accounts_inv g L n d d' : genesis_ok g → genesis_inv L n d →
  n + Z.of_nat (length (initial_account_list (genesis g))) < 2 ^ 32 →
  initialize_accounts c g d = Ok d' →
  genesis_inv L (n + Z.of_nat (length (initial_account_list (genesis g)))) d'.
Proof.
  intros Hok Hinv Hn H. eapply rows_loop; [|done..]. clear n d d' Hinv Hn H. intros n d x d' Hx Hinv Hn H. unfold genesis_account in H.
  apply bind_Ok in H as (d1 & H1 & H). eapply create_native_account_inv; [| |apply authority_of_key_ok..|done];
    [|by eapply Forall_forall in Hx; [|apply (go_accounts _ Hok)]].
  eapply insert_row_inv; [done|done|apply pack_token_account_size|done].
Qed.

Lemma initialize_producer_inv g L n d d' : genesis_inv L n d →
  n + Z.of_nat (length (initial_producer_list (genesis g))) < 2 ^ 32 →
  initialize_producer g d = Ok d' →
  genesis_inv L (n + Z.of_nat (length (initial_producer_list (genesis g)))) d'.
Proof.
  intros Hinv Hn H. eapply rows_loop; [|done..]. clear n d d' Hinv Hn H. intros n d x d' _ Hinv Hn H.
  eapply insert_row_inv; [exact Hinv|done| |exact H]. apply pack_bp_info_size.
Qed.

Lemma contracts_installed g n d0 d1 d2 d3 d4 p1 p2 p3 p4 : genesis_ok g → genesis_inv [] n d0 →
  initialize_contract g d0 (ct_system g) p1 = Ok d1 → initialize_contract g d1 (ct_token g) p2 = Ok d2 →
  initialize_contract g d2 (ct_msig g) p3 = Ok d3 → initialize_contract g d3 (ct_relay g) p4 = Ok d4 →
  genesis_inv [ct_relay g; ct_msig g; ct_token g; ct_system g] n d4.
Proof.
  intros Hok H0 E1 E2 E3 E4. pose proof (go_names _ Hok) as Hnd. unfold contracts in Hnd. cbn in Hnd.
  rewrite !NoDup_cons, !not_elem_of_cons in Hnd. destruct Hnd as ((? & ? & ? & _) & (? & ? & _) & (? & _) & _).
  assert (∀ sc, sc = ct_system g ∨ sc = ct_token g ∨ sc = ct_msig g ∨ sc = ct_relay g → sc ∈ contracts g) as Hin.
  { intros sc Hsc. unfold contracts. rewrite !elem_of_cons. tauto. }
  assert (genesis_inv [ct_system g] n d1) as I1.
  { eapply install_inv; [done|done|..|exact E1]; [apply Hin; tauto|apply not_elem_of_nil|apply list_subseteq_nil|done]. }
  assert (genesis_inv [ct_token g; ct_system g] n d2) as I2.
  { eapply install_inv; [done|done|..|exact E2]; [apply Hin; tauto| | |done].
    - cbn. rewrite elem_of_cons, elem_of_nil. naive_solver.
    - intros sc Hs. apply Hin. rewrite elem_of_cons, elem_of_nil in Hs. tauto. }
  assert (genesis_inv [ct_msig g; ct_token g; ct_system g] n d3) as I3.
  { eapply install_inv; [done|done|..|exact E3]; [apply Hin; tauto| | |done].
    - cbn. rewrite !elem_of_cons, elem_of_nil. naive_solver.
    - intros sc Hs. apply Hin. rewrite !elem_of_cons, elem_of_nil in Hs. tauto. }
  eapply install_inv; [done|done|..|exact E4]; [apply Hin; tauto| | |done].
  - cbn. rewrite !elem_of_cons, elem_of_nil. naive_solver.
  - intros sc Hs. apply Hin. rewrite !elem_of_cons, elem_of_nil in Hs. tauto.
Qed.

Lemma initialize_database_force_inv g d d' : genesis_ok g → genesis_inv [] 0 d →
  initialize_database_force c g d = Ok d' → ∃ L n, genesis_inv L n d'.
Proof.
  intros Hok Hinv H. unfold initialize_database_force in H. pose proof (go_rows _ Hok) as Hrows.
  pose proof (authority_of_key_ok (initial_key (genesis g))) as Hsys. fold (system_auth g) in Hsys.
  assert (∀ L n d name priv d', genesis_inv L n d → 0 < name < 2 ^ 64 →
    create_native_account c g d name (system_auth g) (system_auth g) priv = Ok d' → genesis_inv L n d') as Hnat.
  { intros. by eapply create_native_account_inv. }
  do 5 (apply bind_Ok in H as (? & Hx & H); apply (Hnat _ _ _ _ _ _ Hinv) in Hx; [|by vm_compute]; clear Hinv; rename Hx into Hinv).
  apply bind_Ok in H as (d1 & E1 & H). apply bind_Ok in H as (d2 & E2 & H).
  apply bind_Ok in H as (d3 & E3 & H). apply bind_Ok in H as (d4 & E4 & H).
  pose proof (contracts_installed _ _ _ _ _ _ _ _ _ _ _ Hok Hinv E1 E2 E3 E4) as Hi4. clear Hinv.
  apply bind_Ok in H as (tsum & _ & H). apply bind_Ok in H as (sup & _ & H).
  apply bind_Ok in H as (d5 & E5 & H). apply (insert_row_inv _ _ _ _ _ _ _ _ _ _ Hi4) in E5;
    [|lia|apply pack_currency_stats_size]. apply bind_Ok in H as (z & _ & H).
  apply bind_Ok in H as (d6 & E6 & H). apply (insert_row_inv _ _ _ _ _ _ _ _ _ _ E5) in E6;
    [|lia|apply pack_token_account_size].
  apply bind_Ok in H as (d7 & E7 & H). apply (initialize_accounts_inv _ _ _ _ _ Hok E6) in E7; [|lia].
  apply bind_Ok in H as (d8 & E8 & H). apply (initialize_producer_inv _ _ _ _ _ E7) in E8; [|lia].
  unfold update_eosio_authority in H. apply bind_Ok in H as (d9 & E9 & H).
  apply bind_Ok in E9 as (d9' & E9' & E9).
  apply bind_Ok in H as (d10 & E10 & H). apply bind_Ok in H as (d11 & E11 & H).
  apply (update_permission_inv _ _ _ _ _ _ _ E8) in E9'; [|by apply level_authority_ok].
  apply (update_permission_inv _ _ _ _ _ _ _ E9') in E9; [|by apply level_authority_ok].
  apply (update_permission_inv _ _ _ _ _ _ _ E9) in E10; [|by apply level_authority_ok].
  apply (update_permission_inv _ _ _ _ _ _ _ E10) in E11; [|by apply level_authority_ok].
  apply bind_Ok in H as (cfgs & _ & [= <-]). destruct E11 as [Hs Ht Hr Hd Hn Hru Hre Hc].
  eexists _, _. split; try done; [by apply (same_system_inv d11)|].
  apply (tables_base_same (tbl d11)); [done|apply (ti_usage _ Ht)|done].
Qed.

Lemma genesis_database_inv g d : genesis_ok g → initialize_database c g = Ok d → ∃ L n, genesis_inv L n d.
Proof.
  intros Hok H. unfold initialize_database in H. apply bind_Ok in H as (? & _ & H).
  apply bind_Ok in H as (r & Hr & H). unfold set_gmr_parameters in Hr. apply bind_Ok in Hr as (? & _ & [= <-]).
  pose proof (authority_of_key_ok (initial_key (genesis g))) as Hsys. fold (system_auth g) in Hsys.
  pose proof (blank_inv g) as Hinv.
  apply bind_Ok in H as (d1 & E1 & H). apply (create_native_account_inv _ _ _ _ _ _ _ _ _ Hinv) in E1; [|by vm_compute|exact Hsys..].
  apply bind_Ok in H as (d2 & E2 & H). apply (create_native_account_inv _ _ _ _ _ _ _ _ _ E1) in E2; [|by vm_compute|exact Hsys..].
  apply bind_Ok in H as (d3 & E3 & H). apply (initialize_database_force_inv _ _ _ Hok E2) in E3 as (L & n & E3).
  apply bind_Ok in H as (d4 & E4 & H).
  apply (create_native_account_inv _ _ _ _ _ _ _ _ _ E3) in E4; [|by vm_compute|by apply level_authority_ok..].
  apply bind_Ok in H as (d5 & E5 & H).
  apply (create_native_account_inv _ _ _ _ _ _ _ _ _ E4) in E5; [|by vm_compute|by apply level_authority_ok..].
  apply bind_Ok in H as (ap & Hap%get_permission_Ok & H). destruct Hap as (_ & _ & Hap). cbn in Hap.
  pose proof (pi_key _ (ai_tree _ (si_auths _ (gi_system _ _ _ E5))) _ _ Hap) as [= Eo _].
  apply bind_Ok in H as ([a mp] & E6 & H). apply (add_permission_inv _ _ _ _ _ _ _ _ _ _ E5) in E6;
    [|by apply level_authority_ok|right; by eexists _, _]. destruct E6 as (E6 & Emo & Hmp).
  apply bind_Ok in H as ([a' mp'] & E7 & [= <-]).
  apply (add_permission_inv _ _ (with_auths d5 a) _ _ _ _ _ _ _ E6) in E7;
    [|by apply level_authority_ok|right; by eexists _, _]. destruct E7 as (E7 & _ & _).
  by eexists _, _.
Qed.


Lemma genesis_chain_inv g d : genesis_ok g → initialize_database c g = Ok d →
  (∀ a, 0 ≤ unexplained d a + reserve d a) → chain_inv d.
Proof.
  intros Hok H Hu. destruct (genesis_database_inv _ _ Hok H) as (L & n & [Hs Ht Hr Hd Hn Hru Hre Hc]).
  split; [|done|done]. split; [done| | |].
  - intros k x. by rewrite Hd.
  - intros a x. by rewrite Hn.
  - intros a. specialize (Hu a). pose proof (system_bill_reserve d a). unfold unexplained in Hu. lia.
Qed.
End theory.
