(* ===== verification/ChainExamples.v ===== *)
(** * A chain from its genesis

    The theorems on system actions and on the genesis at a concrete chain: a
    genesis with one account and one producer, then the creation of an account
    that sets a code and an interface, adds, links and removes a permission. *)

From S2P Require Import Prelude Chainbase Names Assets Config Merkle BlockHeader ProtocolFeatures ChainConfig ConfigOnChain TxFee Accumulator.
From S2P Require Import ResourceLimits ControllerLists Authority AuthorityChecker Permissions HeaderExamples.
From S2P Require Import Transaction AccessLists TransactionContext Billing ContractTables TableTheory DatabaseApi ActionContext Deferred DeferredRam.
From S2P Require Import SystemActions SystemTheory SystemRam Genesis GenesisTheory.
Local Open Scope Z_scope.

(** ** Checking the bound on the genesis *)

(** Everyone who owns or pays for something. *)
Definition payers (d : database) : list Z :=
  (t_payer <$> (map_to_list (tables (tbl d))).*2) ++ (payer <$> (map_to_list (rows (tbl d))).*2)
  ++ (owner <$> (map_to_list (permissions (auths d))).*2)
  ++ ((λ k : Z * Z * Z, k.1.1) <$> (map_to_list (links (auths d))).*1)
  ++ (map_to_list (account_objects d)).*1 ++ (map_to_list (metadata d)).*1
  ++ (g_payer <$> (map_to_list (deferred d)).*2) ++ (map_to_list (noted (ram_corrections d))).*1.

Lemma sum_map_none {K V} `{Countable K} (f : K → V → Z) (m : gmap K V) :
  (∀ k v, m !! k = Some v → f k v = 0) → sum_map f m = 0.
Proof.
  intros Hf. erewrite sum_map_ext; [apply sum_map_zero|]. cbn. intros k v Hk. by apply Hf.
Qed.

Lemma in_values {K V} `{Countable K} {A} (f : V → A) (m : gmap K V) k v :
  m !! k = Some v → f v ∈ f <$> (map_to_list m).*2.
Proof.
  intros Hk. apply list_elem_of_fmap. exists v. split; [done|]. apply list_elem_of_fmap.
  exists (k, v). split; [done|]. by apply elem_of_map_to_list.
Qed.
Lemma in_keys {K V} `{Countable K} (m : gmap K V) k v : m !! k = Some v → k ∈ (map_to_list m).*1.
Proof.
  intros Hk. apply list_elem_of_fmap. exists (k, v). split; [done|]. by apply elem_of_map_to_list.
Qed.

Section check.
Context {sf : SystemFc}.

Lemma no_bill d a : a ∉ payers d → other_usage d a = usage (tbl d) a ∧ system_bill d a = 0.
Proof.
  unfold payers. rewrite !not_elem_of_app. intros (H1 & H2 & H3 & H4 & H5 & H6 & H7 & H8).
  assert (billed (tbl d) a = 0) as E1.
  { unfold billed. rewrite !sum_map_none; [done|..]; intros k v Hk; unfold row_bill, table_bill;
      apply decide_False; intros <-; [apply H2|apply H1]; by eapply in_values. }
  assert (deferred_bill d a = 0) as E2.
  { apply sum_map_none. intros k v Hk. apply decide_False. intros <-. apply H7. by eapply in_values. }
  assert (noted_bytes d a = 0) as E3.
  { unfold noted_bytes. destruct (noted _ !! a) eqn:E; [|done]. destruct H8. by eapply in_keys. }
  assert (account_bill d a = 0) as E4.
  { unfold account_bill. destruct (account_objects d !! a) eqn:E; [|done]. destruct H5. by eapply in_keys. }
  assert (code_bill d a = 0) as E5.
  { unfold code_bill. destruct (metadata d !! a) eqn:E; [|done]. destruct H6. by eapply in_keys. }
  assert (auth_bill (auths d) a = 0) as E6.
  { unfold auth_bill. rewrite !sum_map_none; [done|..]; intros k v Hk; apply decide_False.
    - intros <-. apply H4, list_elem_of_fmap. exists k. split; [done|]. by eapply in_keys.
    - intros [<- _]. apply H3. by eapply in_values. }
  unfold other_usage, system_bill. lia.
Qed.

Lemma unexplained_checked d : usage_ok (tbl d) →
  forallb (λ a, 0 <=? unexplained d a + reserve d a) (payers d) = true →
  ∀ a, 0 ≤ unexplained d a + reserve d a.
Proof.
  intros Hu Hc a. destruct (decide (a ∈ payers d)) as [Ha|Ha].
  - rewrite forallb_forall in Hc. apply Z.leb_le, Hc. by apply list_elem_of_In.
  - destruct (no_bill d a Ha) as [E1 E2]. unfold unexplained, reserve. rewrite E1, E2.
    assert (0 ≤ usage (tbl d) a).
    { unfold usage. destruct (usages _ !! a) eqn:E; [|done]. by apply Hu in E as [? _]. }
    unfold overhead_per_account_ram_bytes. destruct (decide _); lia.
Qed.
End check.

(** ** Instances *)

(** A hash without collisions. *)
#[export] Instance chain_trx_fc : TrxFc := {|
  sha256 b := mk_digest (Z.pos (encode b)) 0 0 0;
  pack_digest := pack_digest;
  pack_trx := pack_trx;
  unpack_trx := unpack_trx;
  pack_cfd := pack_cfd;
  unpack_cfd := unpack_cfd;
  pack_signatures := pack_signatures;
  pack_bytes := pack_bytes;
  unpack_context := unpack_context;
  deflate := deflate;
  inflate := inflate;
  recover := recover;
|}.

Lemma chain_hash_inj b b' : sha256 b = sha256 b' → b = b'.
Proof. cbn. intros [= H]. by apply (inj encode) in H. Qed.
Lemma chain_hash_nonzero b : sha256 b ≠ zero_digest.
Proof. done. Qed.

Definition short (l : list Z) : bool := Z.of_nat (length l) <? 2 ^ 32.

#[export] Instance demo_system_fc : SystemFc := {|
  unpack_newaccount l := match l with
    | [creator; n; k] => if (0 <=? n) && (n <? 2 ^ 64) then Ok {| na_creator := creator; na_name := n; na_owner := authority_of_key k 0;
                               na_active := authority_of_key k 0 |} else Throw std_out_of_range
    | _ => Throw std_out_of_range end;
  unpack_setcode l := match l with
    | a :: b => if short b then Ok {| sc_account := a; vmtype := 0; vmversion := 0; sc_code := b |}
                else Throw std_out_of_range
    | [] => Throw std_out_of_range end;
  unpack_setfee _ := Throw std_out_of_range;
  unpack_setabi l := match l with
    | a :: b => if short b then Ok {| sa_account := a; sa_abi := b |} else Throw std_out_of_range
    | [] => Throw std_out_of_range end;
  unpack_updateauth l := match l with
    | [a; p; par; k] => Ok {| up_account := a; up_permission := p; up_parent := par; up_auth := authority_of_key k 0 |}
    | _ => Throw std_out_of_range end;
  unpack_deleteauth l := match l with
    | [a; p] => Ok {| del_account := a; del_permission := p |} | _ => Throw std_out_of_range end;
  unpack_linkauth l := match l with
    | [a; co; t; r] => Ok {| lk_account := a; lk_code := co; lk_type := t; lk_requirement := r |}
    | _ => Throw std_out_of_range end;
  unpack_unlinkauth l := match l with
    | [a; co; t] => Ok {| ul_account := a; ul_code := co; ul_type := t |} | _ => Throw std_out_of_range end;
  unpack_canceldelay _ := Throw std_out_of_range;
  unpack_setconfig _ := Throw std_out_of_range;
  unpack_hello _ := Ok tt;
  key_size _ := 34;
  trim_right_if := trim_right_ref;
  wasm_validate _ := Ok tt;
|}.

#[export] Instance demo_system_fc_laws : SystemFcLaws demo_system_fc.
Proof.
  split.
  - intros l x H. cbn in H. repeat case_match; try done. injection H as <-.
    split_and!; [apply authority_of_key_ok..|]. unfold in_u. cbn. lia.
  - intros l x H. cbn in H. repeat case_match; try done. injection H as <-. apply authority_of_key_ok.
  - intros l x H. cbn in H. destruct l as [|a b]; [done|]. destruct (short b) eqn:E; [|done].
    injection H as <-. unfold short in E. cbn. lia.
  - intros l x H. cbn in H. destruct l as [|a b]; [done|]. destruct (short b) eqn:E; [|done].
    injection H as <-. unfold short in E. cbn. lia.
  - intros k. cbn. lia.
Qed.

#[export] Instance demo_genesis_fc : GenesisFc := {|
  pack_token_account a := [amount a; sym a];
  pack_currency_stats a b i := [amount a; sym a; amount b; sym b; i];
  pack_bp_info p := [pt_name p; bpkey p; commission_rate p];
  packed_eosio_abi := [1; 2; 3];
  packed_native_abi := [4; 5];
|}.
#[export] Instance demo_genesis_fc_laws : GenesisFcLaws demo_genesis_fc.
Proof. split; intros; cbn; lia. Qed.

(** ** The chain *)
Definition alice : Z := N_ "alice".
Definition bob : Z := N_ "bob".

Definition demo_genesis : genesis_conf := {|
  genesis := {| Genesis.initial_configuration := ChainConfig.initial_configuration;
                initial_timestamp := 1000; initial_key := 77;
                initial_account_list := [{| at_key := 5; at_asset := Asset 100 CORE_SYMBOL; at_name := alice |}];
                initial_producer_list := [{| pt_name := alice; bpkey := 6; commission_rate := 1; url := [] |}] |};
  ct_system := {| ct_name := system_account_name; ct_code := [0; 1]; ct_abi := [9] |};
  ct_token := {| ct_name := token_account_name; ct_code := [0; 2]; ct_abi := [9; 9] |};
  ct_msig := {| ct_name := msig_account_name; ct_code := [0; 3]; ct_abi := [] |};
  ct_relay := {| ct_name := relay_account_name; ct_code := [0; 4]; ct_abi := [8] |} |}.

Definition or_else {A} (r : result A) (a : A) : A := match r with Ok x => x | Throw _ => a end.
Definition genesis_db : database :=
  or_else (initialize_database demo_control demo_genesis)
    (blank_database demo_genesis (ResourceLimits.initialize_database ∅ ∅)).

Lemma is_Ok_or_else {A} (r : result A) a : bool_decide (is_Some (match r with Ok x => Some x | _ => None end)) = true →
  r = Ok (or_else r a).
Proof. destruct r; [done|]. intros [? [=]]%bool_decide_eq_true. Qed.

Lemma genesis_db_Ok : initialize_database demo_control demo_genesis = Ok genesis_db.
Proof. apply is_Ok_or_else. vm_compute. reflexivity. Qed.

Lemma demo_genesis_ok : genesis_ok demo_genesis.
Proof.
  split.
  - apply (bool_decide_unpack _). vm_compute. exact I.
  - repeat constructor; cbn; lia.
  - repeat constructor; vm_compute; congruence.
  - intros s1 s2 H1 H2. unfold contracts in *. rewrite !elem_of_cons, elem_of_nil in H1, H2.
    destruct H1 as [->|[->|[->|[->|[]]]]], H2 as [->|[->|[->|[->|[]]]]]; vm_compute; congruence.
  - repeat constructor; vm_compute; done.
  - cbn. lia.
Qed.


(** A system action by an account, run in a world around a database. *)
Definition run_env : exec_env := later_env.
Definition run_actx (n who : Z) (data : list Z) : actx :=
  mk_actx system_account_name
    (mk_action system_account_name n [PermissionLevel who active_name] data) 0 1 1 true false
    [(system_account_name, 1)] [] [].
Definition run (d : database) (n who : Z) (data : list Z) : result database :=
  match find_apply_handler system_account_name system_account_name n with
  | Some h => w ← h run_env (later_world d) (run_actx n who data); Ok (dbs w)
  | None => Throw action_not_found_exception
  end.

Definition code_fresh_check (d : database) (b : list Z) : bool :=
  (bool_decide (b = []) || negb (bool_decide (sha256 b = zero_digest)))
  && bool_decide (map_Forall (λ _ o, sha256 (code o) = sha256 b → code o = b) (codes d)).
Lemma code_fresh_checked d b : code_fresh_check d b = true → code_fresh d b.
Proof.
  unfold code_fresh_check. rewrite !andb_true_iff, orb_true_iff. intros (H2 & H3%bool_decide_eq_true).
  split; [|by intros k o Ho; apply (H3 k o Ho)].
  intros Hb. destruct H2 as [H2%bool_decide_eq_true|H2]; [done|].
  by apply negb_true_iff, bool_decide_eq_false in H2.
Qed.

Abbreviation demo_step := (chain_step (λ _, DOther) (λ _, []) Datatypes.id Datatypes.id (λ _, false) (λ _, false)).

Definition data_fresh (d : database) (data : list Z) : bool :=
  match unpack_setcode data with Ok act => code_fresh_check d (sc_code act) | Throw _ => true end.

Lemma run_step d n who data d' : data_fresh d data = true → run d n who data = Ok d' → rtc demo_step d d'.
Proof.
  intros Hf H. unfold run in H. destruct (find_apply_handler _ _ _) as [h|] eqn:E; [|done].
  apply bind_Ok in H as (w & H & [= <-]). apply rtc_once.
  refine (chain_native _ _ _ _ _ _ _ _ n h run_env (later_world d) (run_actx n who data) w E _ H).
  intros act Hact. unfold data_fresh in Hf. cbn [x_act run_actx a_data] in Hact. rewrite Hact in Hf.
  by apply code_fresh_checked.
Qed.

(** The actions, one after the other. *)
Definition script : list (Z * Z * list Z) :=
  [(N_ "newaccount", alice, [alice; bob; 8]);
   (N_ "setcode", bob, [bob; 0; 97; 115; 109]);
   (N_ "setabi", bob, [bob; 1; 1; 1]);
   (N_ "setcode", alice, [alice; 0; 97; 115; 109]);
   (N_ "updateauth", bob, [bob; N_ "post"; active_name; 9]);
   (N_ "linkauth", bob, [bob; alice; N_ "buy"; N_ "post"]);
   (N_ "unlinkauth", bob, [bob; alice; N_ "buy"]);
   (N_ "deleteauth", bob, [bob; N_ "post"]);
   (N_ "updateauth", bob, [bob; N_ "trade"; active_name; 9])].
Fixpoint play (d : database) (l : list (Z * Z * list Z)) : result database :=
  match l with
  | [] => Ok d
  | (n, who, data) :: l =>
      if data_fresh d data then d ← run d n who data; play d l else Throw undefined_behaviour
  end.

Lemma play_steps l : ∀ d d', play d l = Ok d' → rtc demo_step d d'.
Proof.
  induction l as [|[[n who] data] l IH]; intros d d' H; cbn in H; [simplify_eq; apply rtc_refl|].
  destruct (data_fresh d data) eqn:E; [|done]. apply bind_Ok in H as (d1 & H1 & H).
  etrans; [by eapply run_step|by apply IH].
Qed.

Definition played_db : database := or_else (play genesis_db script) genesis_db.
Lemma played : rtc demo_step genesis_db played_db.
Proof. eapply (play_steps script). apply is_Ok_or_else. vm_compute. reflexivity. Qed.

Lemma genesis_db_chain : chain_inv genesis_db.
Proof.
  apply (genesis_chain_inv demo_control demo_genesis); [apply demo_genesis_ok|apply genesis_db_Ok|].
  apply unexplained_checked; [|vm_compute; reflexivity].
  destruct (genesis_database_inv demo_control demo_genesis genesis_db demo_genesis_ok genesis_db_Ok) as (L & n & H).
  apply (ti_usage _ (gi_tables _ _ _ H)).
Qed.


(** Two accounts run the code. *)
Lemma codes_exact_witness :
  (∀ a m, metadata played_db !! a = Some m → code_hash m ≠ zero_digest →
     ∃ o, codes played_db !! code_of m = Some o ∧ sha256 (code o) = code_hash m) ∧
  (∀ k o, codes played_db !! k = Some o →
     code_ref_count o = references played_db k ∧ ∃ a m, metadata played_db !! a = Some m ∧ code_of m = k) ∧
  code_ref_count <$> (codes played_db !! (sha256 [0; 97; 115; 109], 0, 0)) = Some 2.
Proof.
  destruct (codes_exact (λ _, DOther) (λ _, []) Datatypes.id Datatypes.id (λ _, false) (λ _, false)
    genesis_db played_db genesis_db_chain played) as [H1 H2].
  split; [exact H1|split; [exact H2|vm_compute; reflexivity]].
Defined.

Lemma accounts_stay_usable_witness :
  is_Some (metadata played_db !! bob) ∧ is_Some (permissions (auths played_db) !! (bob, owner_name)) ∧
  is_Some (permissions (auths played_db) !! (bob, active_name)) ∧ perm_inv (auths played_db).
Proof.
  apply (accounts_stay_usable (λ _, DOther) (λ _, []) Datatypes.id Datatypes.id (λ _, false) (λ _, false)
    genesis_db played_db bob genesis_db_chain played).
  eexists. vm_compute. reflexivity.
Defined.

(** [updateauth] on the chain that was played. *)
Definition late_actx : actx := run_actx (N_ "updateauth") bob [bob; N_ "late"; active_name; 9].
Definition has_perm (d : database) (a p : Z) : bool :=
  bool_decide (is_Some (permissions (auths d) !! (a, p))).

Lemma result_checked {A} (r : result A) (P : A → bool) :
  match r with Ok a => P a | Throw _ => false end = true → ∃ a, r = Ok a ∧ P a = true.
Proof. destruct r; [|done]. eauto. Qed.

Lemma late_update : ∃ w', apply_system_native_updateauth run_env (later_world played_db) late_actx = Ok w' ∧
  has_perm (dbs w') bob (N_ "late") = true.
Proof. apply (result_checked _ (λ w', has_perm (dbs w') bob (N_ "late"))). vm_compute. reflexivity. Qed.

Lemma updateauth_handler :
  find_apply_handler system_account_name system_account_name (N_ "updateauth") = Some apply_system_native_updateauth.
Proof.
  unfold find_apply_handler. rewrite Z.eqb_refl. cbn [andb]. apply elem_of_list_to_map_1.
  - apply (bool_decide_unpack _). vm_compute. exact I.
  - do 3 right. left.
Qed.

Lemma played_tree : perm_inv (auths (dbs (later_world played_db))).
Proof.
  destruct (chain_steps_kept (λ _, DOther) (λ _, []) Datatypes.id Datatypes.id (λ _, false) (λ _, false)
    genesis_db played_db genesis_db_chain played) as [H _].
  exact (ai_tree _ (si_auths _ (hi_system _ H))).
Qed.


(** The name of the virtual permission of running code is not reserved: an
    account can create a permission called [codex.code], because [updateauth]
    refuses only names that start with [eosio.] and [force.]. *)
Theorem code_permission_not_reserved :
  (∃ d, run played_db (N_ "updateauth") bob [bob; eosio_code_name; active_name; 9] = Ok d ∧
     has_perm d bob eosio_code_name = true) ∧
  run played_db (N_ "updateauth") bob [bob; N_ "eosio.code"; active_name; 9] = Throw action_validate_exception.
Proof.
  split; [|vm_compute; reflexivity].
  apply (result_checked _ (λ d, has_perm d bob eosio_code_name)). vm_compute. reflexivity.
Qed.
