(* ===== verification/HostApi.v ===== *)
(** * Host functions ([wasm_interface.cpp], [apply_context.cpp], [controller.cpp])

    What a contract can ask of the node: one constructor of [host_op] per
    intrinsic, with the values it reads from the contract's memory, and
    [host_call], which checks that the intrinsic may be used in the context and
    runs it.  Console output changes nothing and is not modelled; neither are
    the calls of [checktime], which end a transaction whose time is up.  The
    intrinsics that only compute in the memory of the contract (soft floats,
    128-bit integers, [memcpy] and the like) are part of the contract's run. *)

From S2P Require Import Prelude Chainbase Names Assets Config Merkle BlockHeader ProtocolFeatures ChainConfig ConfigOnChain TxFee Accumulator.
From S2P Require Import ResourceLimits ControllerLists Authority AuthorityChecker Permissions.
From S2P Require Import BlockTimestamp Transaction AccessLists TransactionContext ContractTables DatabaseApi ActionContext Deferred.
Local Open Scope Z_scope.

(** The hashes besides SHA-256. *)
Inductive hash_kind := hash_sha1 | hash_sha512 | hash_ripemd160.

Inductive host_op :=
  (* [privileged_api] *)
  | h_is_feature_active (feature : Z)
  | h_activate_feature (feature : Z)
  | h_preactivate_feature (digest : digest_type)
  | h_set_resource_limits (account ram net cpu : Z)
  | h_get_resource_limits (account : Z)
  | h_set_need_check_ram_limit (account : Z)
  | h_set_proposed_producers (packed : list Z)
  | h_get_blockchain_parameters_packed (buffer_size : Z)
  | h_set_blockchain_parameters_packed (packed : list Z)
  | h_is_privileged (n : Z)
  | h_set_privileged (n : Z) (is_priv : bool)
  (* [producer_api], [crypto_api] *)
  | h_get_active_producers (buffer_size : Z)
  | h_assert_recover_key (digest : digest_type) (sig pub : list Z)
  | h_recover_key (digest : digest_type) (sig : list Z) (publen : Z)
  | h_assert_sha256 (data : list Z) (hash : digest_type)
  | h_sha256 (data : list Z)
  | h_assert_hash (k : hash_kind) (data hash : list Z)
  | h_hash (k : hash_kind) (data : list Z)
  (* [permission_api] *)
  | h_check_transaction_authorization (trx pubkeys perms : list Z)
  | h_check_permission_authorization (account perm : Z) (pubkeys perms : list Z) (delay_us : Z)
  | h_get_permission_last_used (account perm : Z)
  | h_get_account_creation_time (account : Z)
  (* [authorization_api], [system_api] *)
  | h_require_auth (account : Z)
  | h_require_auth2 (account perm : Z)
  | h_has_auth (account : Z)
  | h_require_recipient (recipient : Z)
  | h_is_account (account : Z)
  | h_current_time
  | h_publication_time
  | h_is_feature_activated (digest : digest_type)
  | h_get_sender
  | h_current_block_num
  (* [context_free_system_api] *)
  | h_abort
  | h_eosio_assert (condition : bool)
  | h_eosio_assert_code (condition : bool) (error_code : Z)
  | h_is_func_open (func_typ : Z)
  | h_get_num_config_on_chain (typ : Z)
  (* [action_api] *)
  | h_read_action_data (buffer_size : Z)
  | h_action_data_size
  | h_current_receiver
  (* [database_api] *)
  | h_db (call : db_call)
  (* [transaction_api] *)
  | h_send_inline (data : list Z)
  | h_send_context_free_inline (data : list Z)
  | h_send_deferred (sender_id payer : Z) (data : list Z) (replace_existing : bool)
  | h_cancel_deferred (sender_id : Z)
  (* [context_free_transaction_api], [context_free_api], [call_depth_api] *)
  | h_read_transaction (buffer_size : Z)
  | h_transaction_size
  | h_expiration
  | h_tapos_block_num
  | h_tapos_block_prefix
  | h_get_action (type index buffer_size : Z)
  | h_get_context_free_data (index buffer_size : Z)
  | h_call_depth_assert.

(** What comes back: the returned word, and what is written to memory. *)
Record host_result := mk_host { h_ret : Z; h_out : list Z }.
Definition ret_unit : host_result := mk_host 0 [].
Definition ret_word (z : Z) : host_result := mk_host z [].
Definition ret_bool (b : bool) : host_result := mk_host (if b then 1 else 0) [].
Definition ret_db (r : db_return) : host_result :=
  mk_host (ret r) (from_option (λ p, [p]) [] (out_primary r) ++ default [] (out_bytes r)).

(** The size alone when the buffer has none, else as much as fits. *)
Definition ret_buffer (data : list Z) (buffer_size : Z) : host_result :=
  let s := Z.of_nat (length data) in
  if buffer_size =? 0 then ret_word (s32 s)
  else let copy_size := Z.min buffer_size s in
       mk_host (s32 copy_size) (take (Z.to_nat copy_size) data).

(** A 64-bit word in memory, little endian. *)
Definition word_bytes (v : Z) : list Z :=
  (λ i, Z.land (Z.shiftr v (8 * Z.of_nat i)) 255) <$> seq 0 8.

(** Packing and unpacking of the values that cross the boundary. *)
Class HostFc := {
  unpack_action : list Z → result action;
  pack_action : action → list Z;
  unpack_producers : list Z → result (list producer_key);
  key_valid : Z → bool;
  hash_of : hash_kind → list Z → list Z;
  unpack_config : list Z → result chain_config;
  pack_config : chain_config → list Z;
  unpack_signature : list Z → result Z;
  unpack_public_key : list Z → result Z;
  pack_public_key : Z → list Z;
  unpack_keys : list Z → result (list public_key);
  unpack_levels : list Z → result (list permission_level);
}.

(** The classes the intrinsics belong to: which may be called by an action
    without context, which by privileged accounts only. *)
Definition context_free_op (op : host_op) : bool :=
  match op with
  | h_assert_recover_key _ _ _ | h_recover_key _ _ _ | h_assert_sha256 _ _ | h_sha256 _
  | h_assert_hash _ _ _ | h_hash _ _
  | h_abort | h_eosio_assert _ | h_eosio_assert_code _ _ | h_is_func_open _ | h_get_num_config_on_chain _
  | h_read_action_data _ | h_action_data_size | h_current_receiver
  | h_read_transaction _ | h_transaction_size | h_expiration | h_tapos_block_num | h_tapos_block_prefix
  | h_get_action _ _ _ | h_get_context_free_data _ _ | h_call_depth_assert => true
  | _ => false
  end.
Definition context_free_only (op : host_op) : bool :=
  match op with h_get_context_free_data _ _ => true | _ => false end.
Definition privileged_op (op : host_op) : bool :=
  match op with
  | h_is_feature_active _ | h_activate_feature _ | h_preactivate_feature _ | h_set_resource_limits _ _ _ _
  | h_get_resource_limits _ | h_set_need_check_ram_limit _ | h_set_proposed_producers _
  | h_get_blockchain_parameters_packed _ | h_set_blockchain_parameters_packed _
  | h_is_privileged _ | h_set_privileged _ _ => true
  | _ => false
  end.

(** [authorization_exception] and the exceptions derived from it. *)
Definition is_authorization_exception (e : exn) : bool :=
  match e with
  | authorization_exception | tx_duplicate_sig | tx_irrelevant_sig | unsatisfied_authorization
  | missing_auth_exception | irrelevant_auth_exception | invalid_permission
  | unlinkable_min_permission_action => true
  | _ => false
  end.

Definition generic_system_error : Z := 10000000000000000000.

Section host.
Context {db : Chainbase} {fc : TrxFc} {cr : Crypto} {hf : HostFc}.
Context (decode : Transaction.action → native_data) (pack_context : generation_context → list Z).
Context (f64_rank f128_rank : Z → Z) (f64_is_nan f128_is_nan : Z → bool).
(** [fc::milliseconds] *)
Context (milliseconds : Z → Z).
(** The memory of [chainbase] is a file of fixed size. *)
Context (db_full : database → bool).
Implicit Types (env : exec_env) (w : world) (x : actx) (d : database).

Definition with_validate (st : table_state) (v : gset Z) : table_state :=
  mk_state (tables st) (next_table_id st) (rows st) (resources st) v (account_ram_deltas st) (caches st).

(** ** The controller *)
Definition preactivate_error env (s : recognized_t) : result unit :=
  match s with
  | ready => Ok tt
  | _ => if producing_block (trx_part env) then Throw subjective_block_production_exception
         else Throw protocol_feature_bad_block_exception
  end.

Definition preactivate_feature env d (digest : digest_type) : result database :=
  _ ← preactivate_error env (is_recognized (features env) digest (pending_block_time (ctl env)));
  _ ← EOS_ASSERT (negb (feature_activated env digest)) protocol_feature_exception;
  _ ← EOS_ASSERT (negb (bool_decide (digest ∈ preactivated d))) protocol_feature_exception;
  _ ← EOS_ASSERT (validate_dependencies (features env) digest
                    (λ dep, feature_activated env dep || bool_decide (dep ∈ preactivated d)))
        protocol_feature_exception;
  Ok (with_preactivated d (preactivated d ++ [digest])).

(** The schedule that a new one follows: the pending one, else the active one. *)
Definition current_schedule env : producer_schedule_type :=
  match producers (pending_sch env) with [] => active_sch env | _ => pending_sch env end.

Definition set_proposed_producers env d (ps : list producer_key) : Z * database :=
  let cur_block_num := u32 (head_block_num env + 1) in
  let sch := mk_schedule (u32 (version (current_schedule env) + 1)) ps in
  let g := gpo d in
  let unchanged :=
    bool_decide (ps = []) && disallow_empty_producer_schedule env
    || match proposed_schedule_block_num g with
       | Some n => negb (n =? cur_block_num) || bool_decide (ps = producers (proposed_schedule g))
       | None => false
       end
    || bool_decide (ps = producers (current_schedule env)) in
  if unchanged then (-1, d)
  else (version sch, with_gpo d (mk_global (Some cur_block_num) sch (configuration g))).

(** ** [privileged_api] *)
Definition host_set_resource_limits d (account ram net cpu : Z) : result database :=
  _ ← EOS_ASSERT (-1 <=? ram) wasm_execution_error;
  _ ← EOS_ASSERT (-1 <=? net) wasm_execution_error;
  _ ← EOS_ASSERT (-1 <=? cpu) wasm_execution_error;
  '(r, decreased) ← set_account_limits (resources (tbl d)) account ram net cpu;
  let t := with_resources (tbl d) r in
  Ok (with_tbl d (if (decreased : bool) then with_validate t ({[ account ]} ∪ validate_ram_usage t) else t)).

Definition check_scheduled d (p : producer_key) : result unit :=
  _ ← EOS_ASSERT (is_account d (producer_name p)) wasm_execution_error;
  EOS_ASSERT (key_valid (block_signing_key p)) wasm_execution_error.

Definition host_set_proposed_producers env d (packed : list Z) : result (Z * database) :=
  ps ← unpack_producers packed;
  _ ← EOS_ASSERT (negb (bool_decide (ps = [])) || negb (disallow_empty_producer_schedule env)) wasm_execution_error;
  _ ← EOS_ASSERT (Z.of_nat (length ps) <=? max_producers) wasm_execution_error;
  _ ← fold_res (λ _, check_scheduled d) tt ps;
  _ ← EOS_ASSERT (bool_decide (length ps = size (list_to_set (producer_name <$> ps) : gset Z)))
        wasm_execution_error;
  Ok (set_proposed_producers env d ps).

Definition get_blockchain_parameters_packed d (buffer_size : Z) : host_result :=
  let packed := pack_config (configuration (gpo d)) in
  let s := Z.of_nat (length packed) in
  if buffer_size =? 0 then ret_word (u32 s)
  else if s <=? buffer_size then mk_host (u32 s) packed
  else ret_word 0.

Definition set_blockchain_parameters_packed d (packed : list Z) : result database :=
  cfg ← unpack_config packed;
  _ ← chain_config_validate cfg;
  let g := gpo d in
  Ok (with_gpo d (mk_global (proposed_schedule_block_num g) (proposed_schedule g) cfg)).

Definition set_privileged d (n : Z) (is_priv : bool) : result database :=
  _ ← db_get (metadata d) n;
  m ← db_modify (metadata d) n (λ a,
        Ok (mk_metadata (recv_sequence a) (auth_sequence a) (code_sequence a) (abi_sequence a)
              (code_hash a) (last_code_update a) is_priv (vm_type a) (vm_version a)));
  Ok (with_metadata d m).

(** ** [crypto_api] and [permission_api] *)
Definition assert_recover_key (digest : digest_type) (sig pub : list Z) : result unit :=
  s ← unpack_signature sig;
  p ← unpack_public_key pub;
  check ← recover s digest;
  EOS_ASSERT (check =? p) crypto_api_exception.

(** The key is packed into the buffer, which has to be large enough. *)
Definition host_recover_key (digest : digest_type) (sig : list Z) (publen : Z) : result host_result :=
  s ← unpack_signature sig;
  k ← recover s digest;
  let packed := pack_public_key k in
  if Z.of_nat (length packed) <=? publen then Ok (mk_host (s32 (Z.of_nat (length packed))) packed)
  else Throw std_out_of_range.

Definition unpack_provided {A} (unpack : list Z → result (list A)) (data : list Z) : result (list A) :=
  match data with [] => Ok [] | _ => unpack data end.

(** The check, as a boolean. *)
Definition catch_authorization (r : result unit) : result bool :=
  match r with
  | Ok _ => Ok true
  | Throw e => if is_authorization_exception e then Ok false else Throw e
  end.

Definition check_transaction_authorization env d (trx pubkeys perms : list Z) : result bool :=
  t ← unpack_trx trx;
  ks ← unpack_provided unpack_keys pubkeys;
  ps ← unpack_provided unpack_levels perms;
  catch_authorization
    (check_authorization (now_ctl env d) (auth_view d) (perm_action decode <$> actions t) ks ps
       (delay_sec (trx_header t) * 1000000) false []).

Definition check_permission_authorization env d (account perm : Z) (pubkeys perms : list Z) (delay_us : Z) :
    result bool :=
  _ ← EOS_ASSERT (delay_us <=? s64_max) action_validate_exception;
  ks ← unpack_provided unpack_keys pubkeys;
  ps ← unpack_provided unpack_levels perms;
  catch_authorization
    (check_authorization_permission (now_ctl env d) (auth_view d) account perm ks ps delay_us false).

Definition host_get_permission_last_used d (account perm : Z) : result Z :=
  p ← get_permission (auths d) (PermissionLevel account perm);
  get_permission_last_used (auths d) p.

Definition get_account_creation_time d (account : Z) : result Z :=
  a ← of_option action_validate_exception (db_find (account_objects d) account);
  Ok (to_time_point block_interval_ms block_timestamp_epoch milliseconds (creation_date a)).

(** ** [authorization_api], [system_api] and [context_free_system_api] *)
Definition require_authorization2 x (account perm : Z) : result unit :=
  EOS_ASSERT (existsb (λ l, (actor l =? account) && (permission l =? perm)) (a_authorization (x_act x)))
    missing_auth_exception.

Definition get_sender w x : result Z :=
  t ← get_action_trace w (action_ordinal x);
  if 0 <? creator_action_ordinal t
  then c ← get_action_trace w (creator_action_ordinal t); Ok (t_receiver c)
  else Ok 0.

Definition eosio_assert_code (condition : bool) (error_code : Z) : result unit :=
  if condition then Ok tt
  else if generic_system_error <=? error_code then Throw restricted_error_code_exception
  else Throw eosio_assert_code_exception.

(** ** [transaction_api] and the functions that read the transaction *)
Definition inline_fits d (data : list Z) : result unit :=
  EOS_ASSERT (Z.of_nat (length data) <? max_inline_action_size (configuration (gpo d))) inline_action_too_big.

Definition send_inline env w x (data : list Z) : result (world * actx) :=
  _ ← inline_fits (dbs w) data;
  a ← unpack_action data;
  execute_inline decode env w x a.

Definition send_context_free_inline env w x (data : list Z) : result (world * actx) :=
  _ ← inline_fits (dbs w) data;
  a ← unpack_action data;
  execute_context_free_inline env w x a.

Definition send_deferred env w x (sender_id payer : Z) (data : list Z) (replace_existing : bool) :
    result (world * actx) :=
  t ← unpack_trx data;
  schedule_deferred_transaction decode pack_context env w x sender_id payer t replace_existing.

Definition get_action env (type index buffer_size : Z) : result host_result :=
  let t := trx_of (this_trx env) in
  let list := if type =? 0 then Some (context_free_actions t)
              else if type =? 1 then Some (actions t) else None in
  match list with
  | None => Throw action_not_found_exception
  | Some l =>
      match l !! Z.to_nat index with
      | None => Ok (ret_word (-1))
      | Some a =>
          let packed := pack_action a in
          let ps := Z.of_nat (length packed) in
          Ok (mk_host (s32 ps) (if ps <=? buffer_size then packed else []))
      end
  end.

Definition get_context_free_data env (index buffer_size : Z) : host_result :=
  match context_free_data (this_trx env) !! Z.to_nat index with
  | None => ret_word (-1)
  | Some data => ret_buffer data buffer_size
  end.

(** Rows and the undo history share the memory: a call that writes needs some. *)
Definition host_db env w x (call : db_call) : result (host_result * world) :=
  let d := dbs w in
  _ ← EOS_ASSERT (negb (negb (reads call) && db_full d)) bad_alloc;
  '(r, t) ← database_api f64_rank f128_rank f64_is_nan f128_is_nan (table_env env x) (tbl d) call;
  Ok (ret_db r, with_dbs w (with_tbl d t)).

(** ** Dispatch *)

(** The constructors of the classes check the context. *)
Definition may_call x (op : host_op) : result unit :=
  _ ← EOS_ASSERT (negb (x_context_free x) || context_free_op op) unaccessible_api;
  _ ← EOS_ASSERT (negb (context_free_only op) || x_context_free x) unaccessible_api;
  EOS_ASSERT (negb (privileged_op op) || x_privileged x) unaccessible_api.

Definition only_db w x (r : result database) : result (host_result * world * actx) :=
  d ← r; Ok (ret_unit, with_dbs w d, x).
Definition only_ret w x (r : result host_result) : result (host_result * world * actx) :=
  h ← r; Ok (h, w, x).
Definition only_ctx (r : result (world * actx)) : result (host_result * world * actx) :=
  '(w, x) ← r; Ok (ret_unit, w, x).

Definition run_op env w x (op : host_op) : result (host_result * world * actx) :=
  let d := dbs w in
  match op with
  | h_is_feature_active _ => Ok (ret_bool false, w, x)
  | h_activate_feature _ => Throw unsupported_feature
  | h_preactivate_feature g => only_db w x (preactivate_feature env d g)
  | h_set_resource_limits a r n c => only_db w x (host_set_resource_limits d a r n c)
  | h_get_resource_limits a =>
      only_ret w x ('(ram, net, cpu) ← get_account_limits (resources (tbl d)) a; Ok (mk_host 0 [ram; net; cpu]))
  | h_set_need_check_ram_limit a =>
      only_db w x (Ok (with_tbl d (with_validate (tbl d) ({[ a ]} ∪ validate_ram_usage (tbl d)))))
  | h_set_proposed_producers p =>
      '(v, d) ← host_set_proposed_producers env d p; Ok (ret_word v, with_dbs w d, x)
  | h_get_blockchain_parameters_packed n => Ok (get_blockchain_parameters_packed d n, w, x)
  | h_set_blockchain_parameters_packed p => only_db w x (set_blockchain_parameters_packed d p)
  | h_is_privileged n => only_ret w x (m ← db_get (metadata d) n; Ok (ret_bool (is_privileged m)))
  | h_set_privileged n b => only_db w x (set_privileged d n b)
  | h_get_active_producers n =>
      Ok (ret_buffer (concat ((λ p, word_bytes (producer_name p)) <$> producers (active_sch env))) n, w, x)
  | h_assert_recover_key g s p => only_ret w x (_ ← assert_recover_key g s p; Ok ret_unit)
  | h_recover_key g s n => only_ret w x (host_recover_key g s n)
  | h_assert_sha256 b g =>
      only_ret w x (_ ← EOS_ASSERT (bool_decide (sha256 b = g)) crypto_api_exception; Ok ret_unit)
  | h_sha256 b => Ok (mk_host 0 (pack_digest (sha256 b)), w, x)
  | h_assert_hash k b g =>
      only_ret w x (_ ← EOS_ASSERT (bool_decide (hash_of k b = g)) crypto_api_exception; Ok ret_unit)
  | h_hash k b => Ok (mk_host 0 (hash_of k b), w, x)
  | h_check_transaction_authorization t k p =>
      only_ret w x (ret_bool <$> check_transaction_authorization env d t k p)
  | h_check_permission_authorization a p ks ps us =>
      only_ret w x (ret_bool <$> check_permission_authorization env d a p ks ps us)
  | h_get_permission_last_used a p => only_ret w x (ret_word <$> host_get_permission_last_used d a p)
  | h_get_account_creation_time a => only_ret w x (ret_word <$> get_account_creation_time d a)
  | h_require_auth a => only_ret w x (_ ← require_authorization (table_env env x) a; Ok ret_unit)
  | h_require_auth2 a p => only_ret w x (_ ← require_authorization2 x a p; Ok ret_unit)
  | h_has_auth a => Ok (ret_bool (has_authorization (table_env env x) a), w, x)
  | h_require_recipient a => only_ctx (require_recipient w x a)
  | h_is_account a => Ok (ret_bool (is_account d a), w, x)
  | h_current_time => Ok (ret_word (u64 (pending_block_time (ctl env))), w, x)
  | h_publication_time => Ok (ret_word (u64 (published_at env)), w, x)
  | h_is_feature_activated g => Ok (ret_bool (feature_activated env g), w, x)
  | h_get_sender => only_ret w x (ret_word <$> get_sender w x)
  | h_current_block_num => Ok (ret_word (head_block_num env), w, x)
  | h_abort => Throw abort_called
  | h_eosio_assert b => only_ret w x (_ ← EOS_ASSERT b eosio_assert_message_exception; Ok ret_unit)
  | h_eosio_assert_code b n => only_ret w x (_ ← eosio_assert_code b n; Ok ret_unit)
  | h_is_func_open f =>
      Ok (ret_bool (is_func_has_open (configs (resources (tbl d))) (head_block_num env) f 0), w, x)
  | h_get_num_config_on_chain t =>
      Ok (ret_word (get_num_config_on_chain (configs (resources (tbl d))) t (-1)), w, x)
  | h_read_action_data n => Ok (ret_buffer (a_data (x_act x)) n, w, x)
  | h_action_data_size => Ok (ret_word (s32 (Z.of_nat (length (a_data (x_act x))))), w, x)
  | h_current_receiver => Ok (ret_word (x_receiver x), w, x)
  | h_db call => '(r, w) ← host_db env w x call; Ok (r, w, x)
  | h_send_inline b => only_ctx (send_inline env w x b)
  | h_send_context_free_inline b => only_ctx (send_context_free_inline env w x b)
  | h_send_deferred i p b r => only_ctx (send_deferred env w x i p b r)
  | h_cancel_deferred i => '(r, w) ← cancel_deferred_transaction w i (x_receiver x); Ok (ret_bool r, w, x)
  | h_read_transaction n => Ok (ret_buffer (pack_trx (trx_of (this_trx env))) n, w, x)
  | h_transaction_size => Ok (ret_word (s32 (Z.of_nat (length (pack_trx (trx_of (this_trx env)))))), w, x)
  | h_expiration => Ok (ret_word (s32 (expiration (trx_header (trx_of (this_trx env))))), w, x)
  | h_tapos_block_num => Ok (ret_word (ref_block_num (trx_header (trx_of (this_trx env)))), w, x)
  | h_tapos_block_prefix => Ok (ret_word (s32 (ref_block_prefix (trx_header (trx_of (this_trx env))))), w, x)
  | h_get_action t i n => only_ret w x (get_action env t i n)
  | h_get_context_free_data i n => Ok (get_context_free_data env i n, w, x)
  | h_call_depth_assert => Throw wasm_execution_error
  end.

Definition host_call env w x (op : host_op) : result (host_result * world * actx) :=
  _ ← may_call x op; run_op env w x op.
End host.
