(* ===== verification/ActionExec.v ===== *)
(** * Running actions ([apply_context.cpp], [transaction_context.cpp])

    An action runs for its receiver and for every account that is notified;
    the inline actions it sends run after it, one level deeper.  A contract is
    a [prog]: what it computes between two calls of the host is not seen, so a
    run is the tree of its calls, each answered by the host.  The engine that
    gives the tree of a code is a parameter.  A run that does not end is ended
    by [checktime], which is a [p_trap] in the tree.

    The loops can in principle go on for ever, so they take fuel, and [None]
    is the lack of it; [ActionTheory] proves that there is always enough. *)

From S2P Require Import Prelude Chainbase Names Assets Config Merkle BlockHeader ProtocolFeatures ChainConfig ConfigOnChain TxFee Accumulator.
From S2P Require Import ResourceLimits ControllerLists Authority AuthorityChecker Permissions.
From S2P Require Import BlockTimestamp Transaction AccessLists TransactionContext ContractTables DatabaseApi ActionContext Deferred.
From S2P Require Import SystemActions HostApi.
Local Open Scope Z_scope.

(** ** Contracts *)
Inductive prog :=
  | p_return
  (* [eosio_exit] throws [wasm_exit] *)
  | p_exit
  | p_trap (e : exn)
  | p_call (op : host_op) (k : host_result → prog).

(** Runs that lack fuel, and runs that end. *)
Abbreviation run A := (option (result A)).
Definition run_bind {A B} (m : run A) (k : A → run B) : run B :=
  match m with None => None | Some (Throw e) => Some (Throw e) | Some (Ok a) => k a end.
Fixpoint fold_run {S A} (f : S → A → run S) (s : S) (l : list A) : run S :=
  match l with [] => Some (Ok s) | a :: l => run_bind (f s a) (λ s, fold_run f s l) end.

Definition with_executed (w : world) e := mk_world (dbs w) (tctx w) (traces w) e (conf w).
Definition with_receiver (x : actx) r o :=
  mk_actx r (x_act x) (recurse_depth x) (first_receiver_action_ordinal x) o
    (x_privileged x) (x_context_free x) (notified x) (inline_actions x) (cfa_inline_actions x).
Definition with_privileged (x : actx) b :=
  mk_actx (x_receiver x) (x_act x) (recurse_depth x) (first_receiver_action_ordinal x)
    (action_ordinal x) b (x_context_free x) (notified x) (inline_actions x) (cfa_inline_actions x).
Definition with_receipt (t : action_trace) (r : action_receipt) (deltas : gmap Z Z) : action_trace :=
  mk_trace (t_ordinal t) (creator_action_ordinal t) (closest_unnotified_ancestor_action_ordinal t)
    (Some r) (t_receiver t) (t_act t) (t_context_free t) deltas.
Definition with_deltas (st : table_state) (m : gmap Z Z) : table_state :=
  mk_state (tables st) (next_table_id st) (rows st) (resources st) (validate_ram_usage st) m (caches st).

Section exec.
Context {db : Chainbase} {fc : TrxFc} {cr : Crypto} {sf : SystemFc} {hf : HostFc}.
Context (decode : Transaction.action → native_data) (pack_context : generation_context → list Z).
Context (f64_rank f128_rank : Z → Z) (f64_is_nan f128_is_nan : Z → bool).
Context (milliseconds : Z → Z) (db_full : database → bool).
(** The engine: a code, run for a receiver, an account and an action name. *)
Context (engine : list Z → Z → Z → Z → prog).
(** [fc::raw::pack] of a [transfer_fee] *)
Context (pack_transfer_fee : Z → asset → list Z).
Implicit Types (env : exec_env) (w : world) (x : actx) (d : database).

Abbreviation call := (host_call decode pack_context f64_rank f128_rank f64_is_nan f128_is_nan milliseconds db_full).

Fixpoint run_prog env w x (p : prog) : result (world * actx) :=
  match p with
  | p_return | p_exit => Ok (w, x)
  | p_trap e => Throw e
  | p_call op k => '(r, w, x) ← call env w x op; run_prog env w x (k r)
  end.

(** [wasm_interface::apply]; the cache of modules is not seen. *)
Definition wasm_apply env w x (m : account_metadata) : result (world * actx) :=
  o ← db_get (codes (dbs w)) (code_hash m, vm_type m, vm_version m);
  run_prog env w x (engine (code o) (x_receiver x) (a_account (x_act x)) (a_name (x_act x))).

(** ** One receiver *)
Definition check_code_lists env w x : result unit :=
  if enforce_lists env then
    _ ← check_contract_list (now_lists env w) (x_receiver x);
    check_action_list (now_lists env w) (a_account (x_act x)) (a_name (x_act x))
  else Ok tt.

(** [setcode] of the system account is not handed to its contract. *)
Definition has_code_to_run env x (m : account_metadata) : bool :=
  negb (bool_decide (code_hash m = zero_digest))
  && (negb ((a_account (x_act x) =? system_account_name) && (a_name (x_act x) =? N_ "setcode")
            && (x_receiver x =? system_account_name))
      || forward_setcode env).

(** The loop over the deltas of an action under [ram_restrictions]. *)
Definition check_ram_deltas env w x : result unit :=
  fold_res (λ _ '(account, delta),
      if (0 <? delta) && negb (account =? x_receiver x) then
        _ ← EOS_ASSERT (x_receiver x =? a_account (x_act x)) unauthorized_ram_usage_increase;
        EOS_ASSERT (has_authorization (table_env env x) account) unauthorized_ram_usage_increase
      else Ok tt)
    tt (map_to_list (account_ram_deltas (tbl (dbs w)))).

(** What runs: the native handler, the contract of the node, the contract. *)
Definition run_receiver env w x : result (world * actx) :=
  let act := x_act x in
  m ← db_get (metadata (dbs w)) (x_receiver x);
  let x := with_privileged x (is_privileged m) in
  w ← match find_apply_handler (x_receiver x) (a_account act) (a_name act) with
      | Some native => _ ← check_code_lists env w x; native env w x
      | None => Ok w
      end;
  w ← (if a_account act =? native_account_name then apply_native_contract (a_name act) w x else Ok w);
  m ← db_get (metadata (dbs w)) (x_receiver x);
  '(w, x) ← (if has_code_to_run env x m
             then _ ← check_code_lists env w x; wasm_apply env w x m
             else Ok (w, x));
  _ ← (if negb (x_privileged x) && ram_restrictions_active env then check_ram_deltas env w x else Ok tt);
  Ok (w, x).

Definition next_global_sequence d : Z * database :=
  let g := u64 (global_action_sequence d + 1) in (g, with_sequence d g).
Definition next_recv_sequence d (account : Z) : result (Z * database) :=
  m ← db_modify (metadata d) account (λ a,
        Ok (mk_metadata (u64 (recv_sequence a + 1)) (auth_sequence a) (code_sequence a) (abi_sequence a)
              (code_hash a) (last_code_update a) (is_privileged a) (vm_type a) (vm_version a)));
  a ← db_get m account;
  Ok (recv_sequence a, with_metadata d m).
Definition next_auth_sequence d (account : Z) : result (Z * database) :=
  _ ← db_get (metadata d) account;
  m ← db_modify (metadata d) account (λ a,
        Ok (mk_metadata (recv_sequence a) (u64 (auth_sequence a + 1)) (code_sequence a) (abi_sequence a)
              (code_hash a) (last_code_update a) (is_privileged a) (vm_type a) (vm_version a)));
  a ← db_get m account;
  Ok (auth_sequence a, with_metadata d m).

Definition next_auth_sequences d (l : list permission_level) : result (gmap Z Z * database) :=
  fold_res (λ '(s, d) auth, '(n, d) ← next_auth_sequence d (actor auth); Ok (<[actor auth := n]> s, d))
    (∅, d) l.

(** The receipt, for the trace and for the block, holds the sequences of code and
    ABI as [fc::unsigned_int], of 32 bits; the deltas go to the trace. *)
Definition make_receipt d x : result (action_receipt * database) :=
  let act := x_act x in
  let '(global, d) := next_global_sequence d in
  '(recv, d) ← next_recv_sequence d (x_receiver x);
  first ← db_get (metadata d) (a_account act);
  '(auths, d) ← next_auth_sequences d (a_authorization act);
  Ok (mk_receipt (x_receiver x) (sha256 (pack_action act)) global recv auths
        (u32 (code_sequence first)) (u32 (abi_sequence first)), d).

Definition record_receipt w x (r : action_receipt) : result world :=
  t ← get_action_trace w (action_ordinal x);
  let st := tbl (dbs w) in
  let t := with_receipt t r (account_ram_deltas st) in
  let w := with_traces w (<[Z.to_nat (action_ordinal x - 1) := t]> (traces w)) in
  let w := with_executed w (executed w ++ [r]) in
  Ok (with_dbs w (with_tbl (dbs w) (with_deltas st ∅))).

Definition exec_one env w x : result (world * actx) :=
  '(w, x) ← run_receiver env w x;
  '(r, d) ← make_receipt (dbs w) x;
  w ← record_receipt (with_dbs w d) x r;
  Ok (w, x).

(** ** The receivers of an action, and its inline actions *)

(** The counter of the loop is a 32-bit word; so many traces fit in no memory. *)
Fixpoint notify (fuel : nat) env w x (i : nat) : run (world * actx) :=
  match notified x !! i with
  | None => Some (Ok (w, x))
  | Some (receiver, ordinal) =>
      match fuel with
      | O => None
      | S fuel => run_bind (Some (exec_one env w (with_receiver x receiver ordinal)))
                    (λ '(w, x), notify fuel env w x (S i))
      end
  end.

(** The constructor of [apply_context]. *)
Definition new_apply_context w (ordinal depth : Z) : result (world * actx) :=
  t ← get_action_trace w ordinal;
  Ok (with_dbs w (with_tbl (dbs w) (new_context (tbl (dbs w)))),
      mk_actx (t_receiver t) (t_act t) depth ordinal ordinal false (t_context_free t) [] [] []).

Definition check_depth w x : result unit :=
  match cfa_inline_actions x, inline_actions x with
  | [], [] => Ok tt
  | _, _ => EOS_ASSERT (recurse_depth x <? max_inline_action_depth (configuration (gpo (dbs w))))
              transaction_exception
  end.

(** [transaction_context::execute_action] and [apply_context::exec] *)
Fixpoint execute_action (fuel : nat) env w (ordinal depth : Z) : run world :=
  match fuel with
  | O => None
  | S fuel =>
      run_bind (Some (new_apply_context w ordinal depth)) (λ '(w, x),
      let x := with_notified x [(x_receiver x, action_ordinal x)] in
      run_bind (Some (exec_one env w x)) (λ '(w, x),
      run_bind (notify fuel env w x 1) (λ '(w, x),
      run_bind (Some (check_depth w x)) (λ _,
      let deeper w o := execute_action fuel env w o (u32 (recurse_depth x + 1)) in
      run_bind (fold_run deeper w (cfa_inline_actions x)) (λ w,
      fold_run deeper w (inline_actions x))))))
  end.

(** ** The transaction *)
Definition schedule_original env (context_free : bool) w (act : action) : result world :=
  w ← process_fee w env act;
  Ok (trx_schedule_action w act (a_account act) context_free 0 0).2.

Definition transfer_fee_action (f : fee_state) : action :=
  mk_action token_account_name fee_name [PermissionLevel (fee_payer f) active_name]
    (pack_transfer_fee (fee_payer f) (fee_costed f)).

Definition schedule_fee_action fuel env w : run world :=
  let f := fees (tctx w) in
  if fee_payer f =? 0 then Some (Ok w) else
  run_bind (Some (check_fee_limit f)) (λ _,
  let '(o, w) := trx_schedule_action w (transfer_fee_action f) (fee_payer f) false 0 0 in
  execute_action fuel env w o 0).

Definition exec fuel env w (t : transaction) (apply_context_free : bool) (delay : Z) : run world :=
  run_bind (Some (EOS_ASSERT (is_initialized (tctx w)) transaction_exception)) (λ _,
  run_bind (Some (if apply_context_free
                  then fold_res (schedule_original env true) w (context_free_actions t) else Ok w)) (λ w,
  run_bind (Some (if delay =? 0 then fold_res (schedule_original env false) w (actions t) else Ok w)) (λ w,
  run_bind (fold_run (λ w o, execute_action fuel env w o 0) w (seqZ 1 (u32 (Z.of_nat (length (traces w)))))) (λ w,
  run_bind (schedule_fee_action fuel env w) (λ w,
  if delay =? 0 then Some (Ok w) else Some (schedule_transaction env w t delay)))))).
End exec.
