(* ===== verification/ActionTheory.v ===== *)
(** * What running actions keep

    What a transaction does to the database is a sequence of the steps that
    [SystemRam] accounts for, whatever the contracts that run; every action
    that is scheduled runs exactly once, in the order of the global sequence
    numbers, and every run ends. *)

From S2P Require Import Prelude Chainbase Names Assets Config Merkle BlockHeader ProtocolFeatures ChainConfig ConfigOnChain TxFee Accumulator.
From S2P Require Import ResourceLimits ControllerLists Authority AuthorityChecker Permissions.
From S2P Require Import BlockTimestamp Transaction AccessLists TransactionContext ContractTables TableTheory DatabaseApi ActionContext Deferred DeferredRam.
From S2P Require Import SystemActions SystemTheory SystemRam HostApi ActionExec.
Local Open Scope Z_scope.

(** ** Hypotheses *)

(** What a contract can pass to the host: names are words, and what is read
    from its memory is less than 2^32 bytes. *)
Definition op_fits (op : host_op) : Prop :=
  match op with
  | h_require_recipient a => in_u 64 a
  | h_db (call_store_i64 _ _ _ _ b) | h_db (call_update_i64 _ _ b)
  | h_db (call_idx_store _ _ _ _ _ b) | h_db (call_idx_update _ _ _ b) => Z.of_nat (length b) < 2 ^ 32
  | _ => True
  end.
Fixpoint prog_fits (p : prog) : Prop :=
  match p with
  | p_call op k => op_fits op ∧ ∀ r, prog_fits (k r)
  | _ => True
  end.

(** No collisions among codes; a field of 16 bits; the size of a transaction
    that a contract sends, and the number of rows that fit in the memory. *)
Class ExecLaws {fc : TrxFc} {cr : Crypto} {hf : HostFc} (pack_context : generation_context → list Z)
    (db_full : database → bool) (engine : list Z → Z → Z → Z → prog) : Prop := {
  code_hash_inj : ∀ b b', sha256 b = sha256 b' → b = b';
  code_hash_nonzero : ∀ b, b ≠ [] → sha256 b ≠ zero_digest;
  unpack_config_depth : ∀ b c, unpack_config b = Ok c → in_u 16 (max_inline_action_depth c);
  stamped_size : ∀ b t env x sid t', unpack_trx b = Ok t → stamp pack_context env x sid t = Ok t' →
    Z.of_nat (length (pack_trx t')) < 2 ^ 32;
  not_full_rows : ∀ d, db_full d = false → Z.of_nat (size (rows (tbl d))) + 1 < 2 ^ 32;
  engine_fits : ∀ c r a n, prog_fits (engine c r a n);
}.

Section theory.
Context {db : Chainbase} {laws : ChainbaseLaws db} {fc : TrxFc} {cr : Crypto}.
Context {sf : SystemFc} {sfl : SystemFcLaws sf} {hf : HostFc}.
Context (decode : Transaction.action → native_data) (pack_context : generation_context → list Z).
Context (f64_rank f128_rank : Z → Z) (f64_is_nan f128_is_nan : Z → bool).
Context (milliseconds : Z → Z) (db_full : database → bool).
Context (engine : list Z → Z → Z → Z → prog) (pack_transfer_fee : Z → asset → list Z).
Context {el : ExecLaws pack_context db_full engine}.
Implicit Types (env : exec_env) (w : world) (x : actx) (d : database).

(** ** The native handlers touch neither the traces nor the globals *)
Definition same_globals d d' : Prop :=
  gpo d' = gpo d ∧ global_action_sequence d' = global_action_sequence d.
Record beside w w' : Prop := {
  be_traces : traces w' = traces w;
  be_executed : executed w' = executed w;
  be_globals : same_globals (dbs w) (dbs w') }.

Lemma beside_dbs w d : same_globals (dbs w) d → beside w (with_dbs w d).
Proof. by split. Qed.

Lemma cancel_beside w sid sender b w' :
  cancel_deferred_transaction w sid sender = Ok (b, w') → beside w w'.
Proof.
  unfold cancel_deferred_transaction. intros H. destruct (db_find _ _); [|by simplify_eq].
  apply bind_Ok in H as (d & (t & ->)%db_add_ram_frame & [= <- <-]). by apply beside_dbs.
Qed.

Lemma release_code_globals d m h old d' : release_code d m h = Ok (old, d') → same_globals d d'.
Proof.
  unfold release_code. intros H. do 3 (apply bind_Ok in H as (? & _ & H)).
  destruct (_ =? 1); [by simplify_eq|]. by apply bind_Ok in H as (? & _ & [= <- <-]).
Qed.

Lemma setcode_beside env w x w' : apply_system_native_setcode env w x = Ok w' → beside w w'.
Proof.
  unfold apply_system_native_setcode. intros H. do 8 (apply bind_Ok in H as (? & _ & H)).
  apply bind_Ok in H as ([old d1] & H1 & H). apply bind_Ok in H as (d2 & H2 & H).
  apply bind_Ok in H as (m & _ & H). apply bind_Ok in H as (d3 & H3 & [= <-]). apply beside_dbs.
  assert (same_globals (dbs w) d1) as [E1 E2].
  { destruct (negb _); [by eapply release_code_globals|by simplify_eq]. }
  assert (same_globals d1 d2) as [E3 E4].
  { destruct (0 <? _); [|by simplify_eq]. unfold install_code in H2. by apply bind_Ok in H2 as (? & _ & [= <-]). }
  destruct (_ =? _); [|apply db_add_ram_frame in H3 as (t & ->)]; simplify_eq; split; cbn; congruence.
Qed.

Ltac beside_handler H :=
  repeat (apply bind_Ok in H as (? & ? & H); try match type of H with match ?p with pair _ _ => _ end = _ => destruct p end);
  repeat match goal with H : db_add_ram _ _ _ = Ok _ |- _ => apply db_add_ram_frame in H as (? & ->) end;
  simplify_eq; by apply beside_dbs.

Lemma handler_beside r s a h env w x w' : find_apply_handler r s a = Some h → h env w x = Ok w' → beside w w'.
Proof.
  intros Hh H. unfold find_apply_handler in Hh. destruct (_ && _); [|done].
  apply elem_of_list_to_map_2 in Hh.
  repeat (apply elem_of_cons in Hh as [Hh|Hh]; [injection Hh as _ ->|]); [..|by apply elem_of_nil in Hh].
  - unfold apply_system_native_newaccount in H. do 7 (apply bind_Ok in H as (? & _ & H)).
    apply bind_Ok in H as (d & Hd & H). do 2 (apply bind_Ok in H as (? & _ & H)).
    apply bind_Ok in H as ([? ?] & _ & H). apply bind_Ok in H as ([? ?] & _ & H).
    apply bind_Ok in H as (? & _ & H). apply bind_Ok in H as (d' & (t & ->)%db_add_ram_frame & [= <-]).
    unfold create_account in Hd. apply bind_Ok in Hd as (? & _ & Hd). apply bind_Ok in Hd as (? & _ & Hd).
    by apply bind_Ok in Hd as (? & _ & [= <-]).
  - by eapply setcode_beside.
  - unfold apply_system_native_setabi in H. do 6 (apply bind_Ok in H as (? & _ & H)).
    apply bind_Ok in H as (d & Hd & [= <-]). apply beside_dbs.
    destruct (_ =? _); [by simplify_eq|]. by apply db_add_ram_frame in Hd as (t & ->).
  - unfold apply_system_native_updateauth in H. do 6 (apply bind_Ok in H as (? & _ & H)).
    case_match; beside_handler H.
  - unfold apply_system_native_deleteauth in H. beside_handler H.
  - unfold apply_system_native_linkauth in H. do 6 (apply bind_Ok in H as (? & _ & H)).
    case_match; beside_handler H.
  - unfold apply_system_native_unlinkauth in H. beside_handler H.
  - unfold apply_system_native_canceldelay in H. do 2 (apply bind_Ok in H as (? & _ & H)).
    apply bind_Ok in H as ([b w1] & H%cancel_beside & [= <-]). done.
  - unfold apply_system_native_setconfig in H. do 2 (apply bind_Ok in H as (? & _ & H)). by simplify_eq.
  - unfold apply_system_native_setfee in H. beside_handler H.
Qed.

(** ** What a call of the host changes *)
Abbreviation api := (database_api f64_rank f128_rank f64_is_nan f128_is_nan).
Abbreviation host := (host_call decode pack_context f64_rank f128_rank f64_is_nan f128_is_nan milliseconds db_full).

Definition depth_ok d : Prop := in_u 16 (max_inline_action_depth (configuration (gpo d))).

(** Nothing that is stored or billed. *)
Record unseen d d' : Prop := {
  un_system : same_system d d';
  un_deferred : deferred d' = deferred d;
  un_corrections : ram_corrections d' = ram_corrections d;
  un_tables : same_tables (tbl d) (tbl d');
  un_usages : usages (resources (tbl d')) = usages (resources (tbl d));
  un_sequence : global_action_sequence d' = global_action_sequence d;
  un_depth : depth_ok d → depth_ok d' }.

Inductive change env w x : world → actx → Prop :=
  | change_none : change env w x w x
  | change_unseen d' : unseen (dbs w) d' → change env w x (with_dbs w d') x
  | change_metadata n m m' : metadata (dbs w) !! n = Some m → code_of m' = code_of m →
      change env w x (with_dbs w (with_metadata (dbs w) (<[n := m']> (metadata (dbs w))))) x
  | change_tables call r st : call_fits (tbl (dbs w)) call →
      api (table_env env x) (tbl (dbs w)) call = Ok (r, st) →
      change env w x (with_dbs w (with_tbl (dbs w) st)) x
  | change_notify a w' x' : in_u 64 a → require_recipient w x a = Ok (w', x') → change env w x w' x'
  | change_inline a w' x' : execute_inline decode env w x a = Ok (w', x') → change env w x w' x'
  | change_cfa a w' x' : execute_context_free_inline env w x a = Ok (w', x') → change env w x w' x'
  | change_deferred b t sid p rep w' x' : unpack_trx b = Ok t →
      schedule_deferred_transaction decode pack_context env w x sid p t rep = Ok (w', x') →
      change env w x w' x'
  | change_cancel sid b w' : cancel_deferred_transaction w sid (x_receiver x) = Ok (b, w') →
      change env w x w' x.

Lemma unseen_gpo d g : in_u 16 (max_inline_action_depth (configuration g)) → unseen d (with_gpo d g).
Proof. intros Hg. by split. Qed.
Lemma unseen_tbl d st : same_tables (tbl d) st → usages (resources st) = usages (resources (tbl d)) →
  unseen d (with_tbl d st).
Proof. intros. by split. Qed.

Lemma only_ret_change env w x (r : result host_result) h w' x' :
  only_ret w x r = Ok (h, w', x') → change env w x w' x'.
Proof. unfold only_ret. intros (? & _ & [= _ <- <-])%bind_Ok. apply change_none. Qed.

Lemma only_db_change env w x (r : result database) h w' x' : (∀ d, r = Ok d → change env w x (with_dbs w d) x) →
  only_db w x r = Ok (h, w', x') → change env w x w' x'.
Proof. unfold only_db. intros Hr (d & Hd & [= _ <- <-])%bind_Ok. by apply Hr. Qed.

Lemma only_ctx_change env w x (r : result (world * actx)) h w' x' :
  (∀ w1 x1, r = Ok (w1, x1) → change env w x w1 x1) →
  only_ctx r = Ok (h, w', x') → change env w x w' x'.
Proof. unfold only_ctx. intros Hr ([w1 x1] & Hd & [= _ <- <-])%bind_Ok. by apply Hr. Qed.

Lemma set_account_limits_usages r a ram net cpu r' b :
  set_account_limits r a ram net cpu = Ok (r', b) → usages r' = usages r.
Proof.
  unfold set_account_limits. intros H. apply bind_Ok in H as ([r1 l] & H1 & H).
  apply bind_Ok in H as (l' & _ & [= <- <-]). unfold find_or_create_pending_limits in H1.
  destruct (db_find _ _); [by simplify_eq|]. apply bind_Ok in H1 as (? & _ & H1).
  by apply bind_Ok in H1 as (? & _ & [= <- _]).
Qed.

Lemma set_limits_change env w x a ram net cpu d : host_set_resource_limits (dbs w) a ram net cpu = Ok d →
  change env w x (with_dbs w d) x.
Proof.
  unfold host_set_resource_limits. intros H. do 3 (apply bind_Ok in H as (? & _ & H)).
  apply bind_Ok in H as ([r b] & Hr%set_account_limits_usages & [= <-]). apply change_unseen, unseen_tbl.
  - by destruct b.
  - destruct b; exact Hr.
Qed.

Lemma set_privileged_change env w x n b d : set_privileged (dbs w) n b = Ok d → change env w x (with_dbs w d) x.
Proof.
  unfold set_privileged. intros H. apply bind_Ok in H as (? & _ & H). apply bind_Ok in H as (m & Hm & [= <-]).
  apply db_modify_Ok in Hm as (v & v' & Hv & [= <-] & ->). by eapply change_metadata.
Qed.

Lemma preactivate_change env w x g d : preactivate_feature env (dbs w) g = Ok d → change env w x (with_dbs w d) x.
Proof.
  unfold preactivate_feature. intros H. do 4 (apply bind_Ok in H as (? & _ & H)). injection H as <-.
  by apply change_unseen.
Qed.

Lemma set_producers_change env w x p v d : depth_ok (dbs w) →
  host_set_proposed_producers env (dbs w) p = Ok (v, d) → change env w x (with_dbs w d) x.
Proof.
  intros Hd. unfold host_set_proposed_producers. intros H. do 5 (apply bind_Ok in H as (? & _ & H)).
  unfold set_proposed_producers in H. destruct (_ || _ || _).
  - injection H as _ <-. by apply change_unseen.
  - injection H as _ <-. by apply change_unseen, unseen_gpo.
Qed.

Lemma set_parameters_change env w x p d : set_blockchain_parameters_packed (dbs w) p = Ok d →
  change env w x (with_dbs w d) x.
Proof.
  unfold set_blockchain_parameters_packed. intros H. apply bind_Ok in H as (c & Hc & H).
  apply bind_Ok in H as (? & _ & [= <-]). apply change_unseen, unseen_gpo. by eapply unpack_config_depth.
Qed.

Lemma host_db_change env w x c r w' : op_fits (h_db c) →
  host_db f64_rank f128_rank f64_is_nan f128_is_nan db_full env w x c = Ok (r, w') → change env w x w' x.
Proof.
  intros Hfit. unfold host_db. intros H. apply bind_Ok in H as (? & Hfull%EOS_ASSERT_Ok & H).
  apply bind_Ok in H as ([v st] & H & [= <- <-]). eapply change_tables; [|exact H].
  split; [|by destruct c]. intros Hr. apply not_full_rows. rewrite Hr in Hfull. by apply negb_true_iff in Hfull.
Qed.

Lemma host_call_change env w x op r w' x' : depth_ok (dbs w) → op_fits op →
  host env w x op = Ok (r, w', x') → change env w x w' x'.
Proof.
  intros Hdepth Hfit. unfold host_call. intros H. apply bind_Ok in H as (? & _ & H).
  destruct op; cbn [run_op] in H; try discriminate H;
    try exact (only_ret_change _ _ _ _ _ _ _ H); try (by simplify_eq; apply change_none).
  - eapply only_db_change, H. intros d. apply preactivate_change.
  - eapply only_db_change, H. intros d. apply set_limits_change.
  - eapply only_db_change, H. intros d [= <-]. by apply change_unseen, unseen_tbl.
  - apply bind_Ok in H as ([v d] & H & [= _ <- <-]). by eapply set_producers_change.
  - eapply only_db_change, H. intros d. apply set_parameters_change.
  - eapply only_db_change, H. intros d. apply set_privileged_change.
  - eapply only_ctx_change, H. intros w1 x1. by apply change_notify.
  - apply bind_Ok in H as ([v w1] & H & [= _ <- <-]). by eapply host_db_change.
  - eapply only_ctx_change, H. intros w1 x1. unfold send_inline. intros H1.
    do 2 (apply bind_Ok in H1 as (? & _ & H1)). by eapply change_inline.
  - eapply only_ctx_change, H. intros w1 x1. unfold send_context_free_inline. intros H1.
    do 2 (apply bind_Ok in H1 as (? & _ & H1)). by eapply change_cfa.
  - eapply only_ctx_change, H. intros w1 x1. unfold send_deferred. intros H1.
    apply bind_Ok in H1 as (t & Ht & H1). by eapply change_deferred.
  - apply bind_Ok in H as ([v w1] & H & [= _ <- <-]). by eapply change_cancel.
Qed.

(** ** What is sent *)

(** The ordinal of the next trace. *)
Definition new_ordinal w : Z := u32 (Z.of_nat (length (traces w)) + 1).

(** At most one trace is added, and its ordinal goes to one of the lists. *)
Inductive sends w x : world → actx → Prop :=
  | sends_nothing w' : traces w' = traces w → sends w x w' x
  | sends_notice w' t : traces w' = traces w ++ [t] → t_receipt t = None →
      t_receiver t ∉ (notified x).*1 → in_u 64 (t_receiver t) →
      sends w x w' (with_notified x (notified x ++ [(t_receiver t, new_ordinal w)]))
  | sends_cfa w' t : traces w' = traces w ++ [t] → t_receipt t = None →
      sends w x w' (with_cfa_inline x (cfa_inline_actions x ++ [new_ordinal w]))
  | sends_inline w' t : traces w' = traces w ++ [t] → t_receipt t = None →
      sends w x w' (with_inline x (inline_actions x ++ [new_ordinal w])).

(** What stays: the receipts of the block, the sequence number, the depth. *)
Record steady w w' : Prop := {
  st_executed : executed w' = executed w;
  st_sequence : global_action_sequence (dbs w') = global_action_sequence (dbs w);
  st_depth : depth_ok (dbs w) → depth_ok (dbs w') }.

Lemma beside_steady w w' : beside w w' → steady w w'.
Proof. intros [_ He [Hg Hs]]. split; [done..|]. unfold depth_ok. by rewrite Hg. Qed.

Lemma same_dbs_steady w w' : executed w' = executed w → dbs w' = dbs w → steady w w'.
Proof. intros He Hd. split; [done|by rewrite Hd..]. Qed.

Lemma has_recipient_false x a : has_recipient x a = false → a ∉ (notified x).*1.
Proof.
  unfold has_recipient. intros H ([r o] & -> & Hin)%list_elem_of_fmap.
  apply not_true_iff_false in H. destruct H. apply existsb_exists. exists (r, o).
  split; [by apply list_elem_of_In|]. cbn. lia.
Qed.

Lemma require_recipient_sends w x a w' x' : in_u 64 a → require_recipient w x a = Ok (w', x') →
  sends w x w' x' ∧ executed w' = executed w ∧ dbs w' = dbs w.
Proof.
  intros Ha H. unfold require_recipient in H. destruct (has_recipient x a) eqn:E.
  - injection H as <- <-. split_and!; [by apply sends_nothing|done..].
  - apply bind_Ok in H as ([o w1] & H & [= <- <-]). unfold schedule_ordinal in H.
    apply bind_Ok in H as (t & _ & [= <- <-]). split_and!; [|done..].
    by eapply (sends_notice w x _ (mk_trace _ _ _ None a _ _ _)), Ha; [..|apply has_recipient_false].
Qed.

Lemma process_fee_frame w env a w' : process_fee w env a = Ok w' →
  traces w' = traces w ∧ executed w' = executed w ∧ dbs w' = dbs w.
Proof. unfold process_fee. by intros (f & _ & [= <-])%bind_Ok. Qed.

Lemma execute_inline_sends env w x a w' x' : execute_inline decode env w x a = Ok (w', x') →
  sends w x w' x' ∧ executed w' = executed w ∧ dbs w' = dbs w.
Proof.
  unfold execute_inline. intros H. do 4 (apply bind_Ok in H as (? & _ & H)).
  apply bind_Ok in H as (w1 & (Et & Ee & Ed)%process_fee_frame & [= <- <-]).
  cbn [executed dbs with_traces]. split_and!; [|done..]. rewrite Et.
  by eapply (sends_inline w x _ (mk_trace _ _ _ None _ a _ _)); [done|].
Qed.

Lemma execute_cfa_sends env w x a w' x' : execute_context_free_inline env w x a = Ok (w', x') →
  sends w x w' x' ∧ executed w' = executed w ∧ dbs w' = dbs w.
Proof.
  unfold execute_context_free_inline. intros H. do 2 (apply bind_Ok in H as (? & _ & H)).
  apply bind_Ok in H as (w1 & (Et & Ee & Ed)%process_fee_frame & [= <- <-]).
  cbn [executed dbs with_traces]. split_and!; [|done..]. rewrite Et.
  by eapply (sends_cfa w x _ (mk_trace _ _ _ None _ a _ _)); [done|].
Qed.

Lemma store_generated_globals env d x sid p delay t rep d' :
  store_generated env d x sid p delay t rep = Ok d' → same_globals d d'.
Proof.
  unfold store_generated. intros H. apply bind_Ok in H as ([d1 i] & H1 & H).
  apply bind_Ok in H as (d2 & H2 & H). apply bind_Ok in H as (? & _ & (st & ->)%db_add_ram_frame).
  unfold create_generated in H2. apply bind_Ok in H2 as (? & _ & H2). apply bind_Ok in H2 as (m & _ & [= <-]).
  destruct (db_find _ _); [|by simplify_eq]. apply bind_Ok in H1 as (d3 & H1 & [= <- _]).
  unfold replace_generated in H1. do 2 (apply bind_Ok in H1 as (? & _ & H1)).
  apply bind_Ok in H1 as (d4 & H1 & [= <-]). destruct (replace_deferred env).
  - by apply bind_Ok in H1 as (? & _ & (st' & ->)%db_add_ram_frame).
  - unfold add_to_ram_correction in H1. destruct (db_find _ _); by apply bind_Ok in H1 as (? & _ & [= <-]).
Qed.

Lemma schedule_deferred_frame env w x sid p t rep w' x' :
  schedule_deferred_transaction decode pack_context env w x sid p t rep = Ok (w', x') → x' = x ∧ beside w w'.
Proof.
  unfold schedule_deferred_transaction. intros H. do 3 (apply bind_Ok in H as (? & _ & H)).
  apply bind_Ok in H as (w1 & Hw & H). apply bind_Ok in H as (? & _ & H).
  apply bind_Ok in H as (d & H%store_generated_globals & [= <- <-]).
  unfold charge_retirement in Hw. apply bind_Ok in Hw as (n & _ & [= <-]). by split.
Qed.

Lemma change_sends env w x w' x' : change env w x w' x' → sends w x w' x' ∧ steady w w'.
Proof.
  intros [|d' Hu|n m m' Hm Hk|c r st Hc H|a w1 x1 Ha H|a w1 x1 H|a w1 x1 H|b t sid p rep w1 x1 Ht H|sid b w1 H].
  - split; [by apply sends_nothing|done].
  - destruct Hu. split; [by apply sends_nothing|by split].
  - split; [by apply sends_nothing|done].
  - split; [by apply sends_nothing|done].
  - apply require_recipient_sends in H as (Hs & He & Hd); [|done]. split; [done|by apply same_dbs_steady].
  - apply execute_inline_sends in H as (Hs & He & Hd). split; [done|by apply same_dbs_steady].
  - apply execute_cfa_sends in H as (Hs & He & Hd). split; [done|by apply same_dbs_steady].
  - apply schedule_deferred_frame in H as [-> Hb]. split; [by apply sends_nothing, Hb|by apply beside_steady].
  - apply cancel_beside in H as Hb. split; [by apply sends_nothing, Hb|by apply beside_steady].
Qed.

Lemma change_kept env w x w' x' : chain_inv (dbs w) → change env w x w' x' → chain_kept (dbs w) (dbs w').
Proof.
  intros Hinv
    [|d' Hu|n m m' Hm Hk|c r st Hc H|a w1 x1 Ha H|a w1 x1 H|a w1 x1 H|b t sid p rep w1 x1 Ht H|sid b w1 H].
  - by apply chain_kept_refl.
  - destruct Hu. by apply frame_kept.
  - by eapply metadata_kept.
  - apply (chain_step_kept decode pack_context f64_rank f128_rank f64_is_nan f128_is_nan); [done|].
    apply chain_ram, ram_tables. by eapply step_call.
  - apply require_recipient_sends in H as (_ & _ & ->); [|done]. by apply chain_kept_refl.
  - apply execute_inline_sends in H as (_ & _ & ->). by apply chain_kept_refl.
  - apply execute_cfa_sends in H as (_ & _ & ->). by apply chain_kept_refl.
  - apply (chain_step_kept decode pack_context f64_rank f128_rank f64_is_nan f128_is_nan); [done|].
    eapply chain_ram, ram_schedule, H. intros t'. by eapply stamped_size.
  - apply (chain_step_kept decode pack_context f64_rank f128_rank f64_is_nan f128_is_nan); [done|].
    by eapply chain_ram, ram_cancel.
Qed.

(** ** One receiver *)
Abbreviation run_prog' := (run_prog decode pack_context f64_rank f128_rank f64_is_nan f128_is_nan milliseconds db_full).
Abbreviation run_receiver' := (run_receiver decode pack_context f64_rank f128_rank f64_is_nan f128_is_nan
  milliseconds db_full engine).
Abbreviation exec_one' := (exec_one decode pack_context f64_rank f128_rank f64_is_nan f128_is_nan
  milliseconds db_full engine).
Abbreviation notify' := (notify decode pack_context f64_rank f128_rank f64_is_nan f128_is_nan
  milliseconds db_full engine).
Abbreviation execute_action' := (execute_action decode pack_context f64_rank f128_rank f64_is_nan f128_is_nan
  milliseconds db_full engine).
Abbreviation exec' := (exec decode pack_context f64_rank f128_rank f64_is_nan f128_is_nan
  milliseconds db_full engine pack_transfer_fee).

Definition send_step (a b : world * actx) : Prop := sends a.1 a.2 b.1 b.2 ∧ steady a.1 b.1.
Abbreviation sent := (rtc send_step).
Definition kept_if w w' : Prop := chain_inv (dbs w) → chain_kept (dbs w) (dbs w').

Lemma kept_if_refl w w' : dbs w' = dbs w → kept_if w w'.
Proof. intros E H. rewrite E. by apply chain_kept_refl. Qed.
Lemma kept_if_trans w1 w2 w3 : kept_if w1 w2 → kept_if w2 w3 → kept_if w1 w3.
Proof. intros H1 H2 Hinv. pose proof (H1 Hinv) as Hk. eapply chain_kept_trans, H2; [done|apply Hk]. Qed.

Lemma sent_depth a b : sent a b → depth_ok (dbs a.1) → depth_ok (dbs b.1).
Proof. induction 1 as [|a b c [_ Hs] _ IH]; [done|]. intros Hd. by apply IH, Hs. Qed.

Lemma sent_nothing w w' x : beside w w' → sent (w, x) (w', x).
Proof. intros Hb. apply rtc_once. split; [by apply sends_nothing, Hb|by apply beside_steady]. Qed.

Lemma run_prog_sent env p : ∀ w x w' x', prog_fits p → depth_ok (dbs w) →
  run_prog' env w x p = Ok (w', x') → sent (w, x) (w', x') ∧ kept_if w w'.
Proof.
  induction p as [| |e|op k IH]; intros w x w' x' Hfit Hd H; cbn [run_prog] in H.
  1,2: injection H as <- <-; split; [apply rtc_refl|by apply kept_if_refl].
  - done.
  - destruct Hfit as [Hop Hk]. apply bind_Ok in H as ([[r w1] x1] & H1 & H).
    apply host_call_change in H1 as Hc; [|done..]. destruct (change_sends _ _ _ _ _ Hc) as [Hs Hst].
    destruct (IH _ _ _ _ _ (Hk r) (st_depth _ _ Hst Hd) H) as [Hsent Hkept].
    split; [by apply (rtc_l _ _ (w1, x1))|]. eapply kept_if_trans, Hkept. intros Hinv. by eapply change_kept.
Qed.

Lemma handler_kept_if r s a h env w x w' : find_apply_handler r s a = Some h → h env w x = Ok w' → kept_if w w'.
Proof.
  intros Hh H Hinv. eapply handler_kept; [done..| |done]. intros act _. split.
  - intros Hb. by apply code_hash_nonzero.
  - intros k o _. apply code_hash_inj.
Qed.

Lemma apply_native_contract_same n w x w' : apply_native_contract n w x = Ok w' → w' = w.
Proof.
  unfold apply_native_contract. destruct (_ =? _); [|done]. by intros (? & _ & [= <-])%bind_Ok.
Qed.

Lemma run_receiver_sent env w x w' x' : depth_ok (dbs w) → run_receiver' env w x = Ok (w', x') →
  (∃ b, sent (w, with_privileged x b) (w', x')) ∧ kept_if w w'.
Proof.
  intros Hd H. unfold run_receiver in H. apply bind_Ok in H as (m & _ & H).
  apply bind_Ok in H as (w1 & H1 & H). apply bind_Ok in H as (w2 & H2 & H).
  assert (w2 = w1) as -> by (destruct (_ =? _); [by eapply apply_native_contract_same|by simplify_eq]).
  assert (beside w w1 ∧ kept_if w w1) as [Hb Hk1].
  { destruct (find_apply_handler _ _ _) eqn:Eh.
    - apply bind_Ok in H1 as (? & _ & H1). split; [by eapply handler_beside|by eapply handler_kept_if].
    - injection H1 as <-. split; [done|by apply kept_if_refl]. }
  apply bind_Ok in H as (m' & _ & H). apply bind_Ok in H as ([w3 x3] & H & Hr).
  apply bind_Ok in Hr as (? & _ & [= <- <-]). set (x1 := with_privileged x (is_privileged m)) in *.
  assert (sent (w1, x1) (w3, x3) ∧ kept_if w1 w3) as [Hs Hk].
  { destruct (has_code_to_run _ _ _).
    - apply bind_Ok in H as (? & _ & H). unfold wasm_apply in H. apply bind_Ok in H as (o & _ & H).
      eapply run_prog_sent; [apply engine_fits| |exact H]. by apply (beside_steady _ _ Hb).
    - injection H as <- <-. split; [apply rtc_refl|by apply kept_if_refl]. }
  split; [|by eapply kept_if_trans]. exists (is_privileged m). fold x1.
  etrans; [by apply sent_nothing|done].
Qed.

Lemma chain_kept_then d1 d2 d3 : chain_kept d1 d2 → (chain_inv d2 → chain_kept d2 d3) → chain_kept d1 d3.
Proof. intros Hk H. eapply chain_kept_trans, H; [done|apply Hk]. Qed.

(** The receipt counts: the sequence numbers change, and nothing else. *)
Lemma next_auth_sequences_kept l : ∀ (s : gmap Z Z) d s' d',
  fold_res (λ '(s, d) auth, '(n, d) ← next_auth_sequence d (actor auth); Ok (<[actor auth := n]> s, d)) (s, d) l = Ok (s', d') →
  same_globals d d' ∧ (chain_inv d → chain_kept d d').
Proof.
  induction l as [|a l IH]; intros s d s' d' H; cbn [fold_res] in H.
  { injection H as _ <-. split; [done|]. apply chain_kept_refl. }
  apply bind_Ok in H as ([s1 d1] & H1 & H). apply bind_Ok in H1 as ([n d2] & H1 & [= _ <-]).
  apply IH in H as [[E1 E2] Hk]. unfold next_auth_sequence in H1. apply bind_Ok in H1 as (? & _ & H1).
  apply bind_Ok in H1 as (m & Hm & H1). apply bind_Ok in H1 as (v & _ & [= _ <-]).
  apply db_modify_Ok in Hm as (u & u' & Hu & [= <-] & ->). split; [by split|]. intros Hinv.
  eapply chain_kept_then, Hk. by eapply metadata_kept.
Qed.

Lemma make_receipt_kept d x r d' : make_receipt d x = Ok (r, d') →
  r_receiver r = x_receiver x ∧ r_global_sequence r = u64 (global_action_sequence d + 1) ∧
  gpo d' = gpo d ∧ global_action_sequence d' = u64 (global_action_sequence d + 1) ∧
  (chain_inv d → chain_kept d d').
Proof.
  unfold make_receipt. cbn [next_global_sequence]. intros H. apply bind_Ok in H as ([recv d1] & H1 & H).
  apply bind_Ok in H as (first & _ & H). apply bind_Ok in H as ([au d2] & H2 & [= <- <-]).
  apply next_auth_sequences_kept in H2 as [[E1 E2] Hk2]. unfold next_recv_sequence in H1.
  apply bind_Ok in H1 as (m & Hm & H1). apply bind_Ok in H1 as (v & _ & [= _ <-]).
  apply db_modify_Ok in Hm as (u & u' & Hu & [= <-] & ->). split_and!; [done..|]. intros Hinv.
  set (d0 := with_sequence d (u64 (global_action_sequence d + 1))) in *.
  assert (chain_kept d d0) as Hk0 by (by apply frame_kept).
  eapply chain_kept_then, Hk2. eapply chain_kept_then; [exact Hk0|]. intros Hinv0. by eapply metadata_kept.
Qed.
End theory.
