(* ===== verification/HostSafety.v ===== *)
(** * What contracts cannot do

    Every access of a contract to the chain is a call of a host function, and
    the classes that implement them check the context first.  A context-free
    action changes nothing, and an account without privilege cannot touch what
    only privileged accounts may set, whatever its contract does. *)

From S2P Require Import Prelude Chainbase Names Assets Config Merkle BlockHeader ProtocolFeatures ChainConfig ConfigOnChain TxFee Accumulator.
From S2P Require Import ResourceLimits ControllerLists Authority AuthorityChecker Permissions.
From S2P Require Import BlockTimestamp Transaction AccessLists TransactionContext ContractTables TableTheory DatabaseApi ActionContext Deferred DeferredRam.
From S2P Require Import SystemActions SystemTheory SystemRam HostApi ActionExec ActionTheory.
Local Open Scope Z_scope.

Section theory.
Context {db : Chainbase} {laws : ChainbaseLaws db} {fc : TrxFc} {cr : Crypto} {hf : HostFc}.
Context (decode : Transaction.action → native_data) (pack_context : generation_context → list Z).
Context (f64_rank f128_rank : Z → Z) (f64_is_nan f128_is_nan : Z → bool).
Context (milliseconds : Z → Z) (db_full : database → bool).
Implicit Types (env : exec_env) (w : world) (x : actx) (d : database).

Abbreviation host := (host_call decode pack_context f64_rank f128_rank f64_is_nan f128_is_nan milliseconds db_full).

(** ** Context-free actions *)
Lemma only_ret_same w x r h w' x' : only_ret w x r = Ok (h, w', x') → w' = w ∧ x' = x.
Proof. unfold only_ret. by intros (? & _ & [= _ <- <-])%bind_Ok. Qed.

Lemma context_free_call env w x op r w' x' : x_context_free x = true →
  host env w x op = Ok (r, w', x') → w' = w ∧ x' = x.
Proof.
  intros Hc H. unfold host_call, may_call in H. apply bind_Ok in H as (? & Hm & H).
  apply bind_Ok in Hm as (? & Hcf%EOS_ASSERT_Ok & _). rewrite Hc in Hcf.
  destruct op; try discriminate Hcf; cbn [run_op] in H; try discriminate H;
    try exact (only_ret_same _ _ _ _ _ _ H); by injection H as _ <- <-.
Qed.

(** C17.  A context-free action is a function of the transaction: whatever the
    contract calls, it sees no state it could change, and when it returns the
    database, the traces, the limits and the context are what they were. *)
Theorem context_free_pure env p : ∀ w x w' x', x_context_free x = true →
  run_prog decode pack_context f64_rank f128_rank f64_is_nan f128_is_nan milliseconds db_full
    env w x p = Ok (w', x') → w' = w ∧ x' = x.
Proof.
  induction p as [| |e|op k IH]; intros w x w' x' Hc H; cbn [run_prog] in H; try done.
  1,2: by injection H as <- <-.
  apply bind_Ok in H as ([[r w1] x1] & H1%(context_free_call _ _ _ _ _ _ _ Hc) & H).
  destruct H1 as [-> ->]. by eapply IH.
Qed.

(** ** Accounts without privilege *)

(** What the system actions and the privileged functions set. *)
Record protected d d' : Prop := {
  pr_gpo : gpo d' = gpo d;
  pr_preactivated : preactivated d' = preactivated d;
  pr_metadata : metadata d' = metadata d;
  pr_accounts : account_objects d' = account_objects d;
  pr_codes : codes d' = codes d;
  pr_auths : auths d' = auths d;
  pr_forced : forced d' = forced d;
  pr_fees : fee_objects d' = fee_objects d }.

Lemma protected_refl d : protected d d.
Proof. by split. Qed.
Lemma protected_trans d1 d2 d3 : protected d1 d2 → protected d2 d3 → protected d1 d3.
Proof. intros [] []. split; congruence. Qed.
Lemma protected_rows d t g c : protected d (with_corrections (with_deferred (with_tbl d t) g) c).
Proof. by split. Qed.

Lemma db_add_ram_protected d p delta d' : db_add_ram d p delta = Ok d' → protected d d'.
Proof. intros (t & ->)%db_add_ram_frame. by split. Qed.

Lemma store_generated_protected env d x sid p delay t rep d' :
  store_generated env d x sid p delay t rep = Ok d' → protected d d'.
Proof.
  unfold store_generated. intros H. apply bind_Ok in H as ([d1 i] & H1 & H).
  apply bind_Ok in H as (d2 & H2 & H). apply bind_Ok in H as (? & _ & H%db_add_ram_protected).
  unfold create_generated in H2. apply bind_Ok in H2 as (? & _ & H2). apply bind_Ok in H2 as (m & _ & [= <-]).
  apply (protected_trans _ d1); [|apply (protected_trans _ (with_deferred d1 m)); [by split|exact H]].
  destruct (db_find _ _); [|simplify_eq; apply protected_refl]. apply bind_Ok in H1 as (d3 & H1 & [= <- _]).
  unfold replace_generated in H1. do 2 (apply bind_Ok in H1 as (? & _ & H1)).
  apply bind_Ok in H1 as (d4 & H1 & [= <-]). apply (protected_trans _ d4); [|by split].
  destruct (replace_deferred env).
  - apply bind_Ok in H1 as (? & _ & H1). by eapply db_add_ram_protected.
  - unfold add_to_ram_correction in H1. destruct (db_find _ _); by apply bind_Ok in H1 as (? & _ & [= <-]).
Qed.

Lemma schedule_deferred_protected env w x sid p t rep w' x' :
  schedule_deferred_transaction decode pack_context env w x sid p t rep = Ok (w', x') →
  protected (dbs w) (dbs w') ∧ x' = x.
Proof.
  unfold schedule_deferred_transaction. intros H. do 3 (apply bind_Ok in H as (? & _ & H)).
  apply bind_Ok in H as (w1 & Hw & H). apply bind_Ok in H as (? & _ & H).
  apply bind_Ok in H as (d & H%store_generated_protected & [= <- <-]).
  unfold charge_retirement in Hw. by apply bind_Ok in Hw as (n & _ & [= <-]).
Qed.

Lemma only_ctx_inv (r : result (world * actx)) h w' x' : only_ctx r = Ok (h, w', x') → r = Ok (w', x').
Proof. unfold only_ctx. by intros ([w1 x1] & -> & [= _ <- <-])%bind_Ok. Qed.

Lemma unprivileged_call env w x op r w' x' : x_privileged x = false → host env w x op = Ok (r, w', x') →
  protected (dbs w) (dbs w') ∧ conf w' = conf w ∧ x_privileged x' = false.
Proof.
  intros Hp H. unfold host_call, may_call in H. apply bind_Ok in H as (? & Hm & H).
  do 2 (apply bind_Ok in Hm as (? & _ & Hm)). apply EOS_ASSERT_Ok in Hm. rewrite Hp, orb_false_r in Hm.
  assert (w' = w ∧ x' = x → protected (dbs w) (dbs w') ∧ conf w' = conf w ∧ x_privileged x' = false) as Hsame
    by (intros [-> ->]; by split_and!; [apply protected_refl|..]).
  destruct op; try discriminate Hm; cbn [run_op] in H; try discriminate H;
    try exact (Hsame (only_ret_same _ _ _ _ _ _ H)); try (apply Hsame; by injection H as _ <- <-).
  - apply only_ctx_inv in H. unfold require_recipient in H. destruct (has_recipient _ _).
    + by injection H as <- <-.
    + apply bind_Ok in H as ([o w1] & H & [= <- <-]). unfold schedule_ordinal in H.
      by apply bind_Ok in H as (t & _ & [= _ <-]).
  - apply bind_Ok in H as ([v w1] & H & [= _ <- <-]). unfold host_db in H. apply bind_Ok in H as (? & _ & H).
    by apply bind_Ok in H as ([? ?] & _ & [= _ <-]).
  - apply only_ctx_inv in H. unfold send_inline in H. do 2 (apply bind_Ok in H as (? & _ & H)).
    unfold execute_inline in H. do 4 (apply bind_Ok in H as (? & _ & H)).
    apply bind_Ok in H as (w1 & Hf & [= <- <-]). unfold process_fee in Hf. by apply bind_Ok in Hf as (? & _ & [= <-]).
  - apply only_ctx_inv in H. unfold send_context_free_inline in H. do 2 (apply bind_Ok in H as (? & _ & H)).
    unfold execute_context_free_inline in H. do 2 (apply bind_Ok in H as (? & _ & H)).
    apply bind_Ok in H as (w1 & Hf & [= <- <-]). unfold process_fee in Hf. by apply bind_Ok in Hf as (? & _ & [= <-]).
  - apply only_ctx_inv in H. unfold send_deferred in H. apply bind_Ok in H as (t & _ & H).
    assert (conf w' = conf w) as ->.
    { unfold schedule_deferred_transaction in H. do 3 (apply bind_Ok in H as (? & _ & H)).
      apply bind_Ok in H as (w1 & Hw & H). apply bind_Ok in H as (? & _ & H).
      apply bind_Ok in H as (d & _ & [= <- _]). unfold charge_retirement in Hw.
      by apply bind_Ok in Hw as (n & _ & [= <-]). }
    apply schedule_deferred_protected in H as [H ->]. done.
  - apply bind_Ok in H as ([v w1] & H & [= _ <- <-]). unfold cancel_deferred_transaction in H.
    destruct (db_find _ _); [|by injection H as _ <-]. apply bind_Ok in H as (d & Hd & [= _ <-]).
    split_and!; [|done..]. apply db_add_ram_protected in Hd. eapply protected_trans; [exact Hd|]. by split.
Qed.

(** C16.  Without privilege a contract cannot change, by any sequence of calls,
    the chain configuration and the proposed schedule, the features to be
    activated, the privilege flags, code and sequences of accounts, their
    permissions and links, the fees and the lists of the node. *)
Theorem unprivileged_cannot_govern env p : ∀ w x w' x', x_privileged x = false →
  run_prog decode pack_context f64_rank f128_rank f64_is_nan f128_is_nan milliseconds db_full
    env w x p = Ok (w', x') → protected (dbs w) (dbs w') ∧ conf w' = conf w.
Proof.
  induction p as [| |e|op k IH]; intros w x w' x' Hp H; cbn [run_prog] in H; try done.
  1,2: injection H as <- <-; split; [apply protected_refl|done].
  apply bind_Ok in H as ([[r w1] x1] & (H1 & H2 & H3)%(unprivileged_call _ _ _ _ _ _ _ Hp) & H).
  destruct (IH _ _ _ _ _ H3 H) as [H4 H5]. split; [by eapply protected_trans|congruence].
Qed.
End theory.
