(* ===== verification/ActionLog.v ===== *)
(** * The log of a transaction

    Traces are scheduled while actions run; a trace without a receipt is open.
    Running an action closes its trace and, before it returns, every trace that
    it opened: when a transaction ends no trace is open, and the receipts of
    the block are those of the traces, in the order of their global sequence
    numbers.  All of it keeps the invariant of the database. *)

From S2P Require Import Prelude Chainbase Names Assets Config Merkle BlockHeader ProtocolFeatures ChainConfig ConfigOnChain TxFee Accumulator.
From S2P Require Import ResourceLimits ControllerLists Authority AuthorityChecker Permissions.
From S2P Require Import BlockTimestamp Transaction AccessLists TransactionContext ContractTables TableTheory DatabaseApi ActionContext Deferred DeferredRam.
From S2P Require Import SystemActions SystemTheory SystemRam HostApi ActionExec ActionTheory.
Local Open Scope Z_scope.

(** ** Open traces *)
Fixpoint open_from (n : Z) (l : list action_trace) : list Z :=
  match l with
  | [] => []
  | t :: l => match t_receipt t with None => n :: open_from (n + 1) l | Some _ => open_from (n + 1) l end
  end.
Definition open_traces (w : world) : list Z := open_from 1 (traces w).

Lemma open_from_app l1 l2 : ∀ n,
  open_from n (l1 ++ l2) = open_from n l1 ++ open_from (n + Z.of_nat (length l1)) l2.
Proof.
  induction l1 as [|t l1 IH]; intros n; cbn [open_from app length].
  - by rewrite Z.add_0_r.
  - rewrite IH. replace (n + 1 + Z.of_nat (length l1)) with (n + Z.of_nat (S (length l1))) by lia.
    by destruct (t_receipt t).
Qed.

Lemma open_from_close l : ∀ n k t t', l !! k = Some t → t_receipt t = None → is_Some (t_receipt t') →
  open_from n l ≡ₚ (n + Z.of_nat k) :: open_from n (<[k := t']> l).
Proof.
  induction l as [|s l IH]; intros n k t t' Hk Ht [r Ht']; [done|]. destruct k as [|k]; cbn [insert list_insert open_from]; cbn in Hk.
  - injection Hk as ->. replace (n + Z.of_nat 0) with n by lia. by rewrite Ht, Ht'.
  - assert (open_from (n + 1) l ≡ₚ (n + Z.of_nat (S k)) :: open_from (n + 1) (<[k := t']> l)) as Hp.
    { rewrite (IH (n + 1) k t t' Hk Ht) by done. by replace (n + 1 + Z.of_nat k) with (n + Z.of_nat (S k)) by lia. }
    destruct (t_receipt s); [exact Hp|]. rewrite Hp. apply Permutation_swap.
Qed.

Lemma open_from_lookup l : ∀ n o, o ∈ open_from n l →
  n ≤ o ∧ ∃ t, l !! Z.to_nat (o - n) = Some t ∧ t_receipt t = None.
Proof.
  induction l as [|s l IH]; intros n o Ho; cbn [open_from] in Ho; [by apply elem_of_nil in Ho|].
  assert (o ∈ open_from (n + 1) l → n ≤ o ∧ ∃ t, (s :: l) !! Z.to_nat (o - n) = Some t ∧ t_receipt t = None) as Hl.
  { intros (Hle & t & Ht & Hn)%IH. split; [lia|]. exists t.
    by replace (Z.to_nat (o - n)) with (S (Z.to_nat (o - (n + 1)))) by lia. }
  destruct (t_receipt s) eqn:Es; [auto|]. apply elem_of_cons in Ho as [->|Ho]; [|auto].
  split; [lia|]. exists s. by rewrite Z.sub_diag.
Qed.

Lemma receipts_close l : ∀ k t t' r, l !! k = Some t → t_receipt t = None → t_receipt t' = Some r →
  omap t_receipt (<[k := t']> l) ≡ₚ r :: omap t_receipt l.
Proof.
  induction l as [|s l IH]; intros k t t' r Hk Ht Ht'; [done|]. destruct k as [|k]; cbn in Hk |- *.
  - injection Hk as ->. by rewrite Ht, Ht'.
  - pose proof (IH k t t' r Hk Ht Ht') as Hp. destruct (t_receipt s); [|exact Hp].
    etrans; [by apply Permutation_cons|]. apply Permutation_swap.
Qed.

Section theory.
Context {db : Chainbase} {laws : ChainbaseLaws db} {fc : TrxFc} {cr : Crypto}.
Context {sf : SystemFc} {sfl : SystemFcLaws sf} {hf : HostFc}.
Context (decode : Transaction.action → native_data) (pack_context : generation_context → list Z).
Context (f64_rank f128_rank : Z → Z) (f64_is_nan f128_is_nan : Z → bool).
Context (milliseconds : Z → Z) (db_full : database → bool).
Context (engine : list Z → Z → Z → Z → prog) (pack_transfer_fee : Z → asset → list Z).
Context {el : ExecLaws pack_context db_full engine}.
Implicit Types (env : exec_env) (w : world) (x : actx) (d : database).

Abbreviation exec_one' := (exec_one decode pack_context f64_rank f128_rank f64_is_nan f128_is_nan
  milliseconds db_full engine).
Abbreviation notify' := (notify decode pack_context f64_rank f128_rank f64_is_nan f128_is_nan
  milliseconds db_full engine).
Abbreviation execute_action' := (execute_action decode pack_context f64_rank f128_rank f64_is_nan f128_is_nan
  milliseconds db_full engine).
Abbreviation exec' := (exec decode pack_context f64_rank f128_rank f64_is_nan f128_is_nan
  milliseconds db_full engine pack_transfer_fee).
Abbreviation sent := (rtc send_step).

(** ** What every stage keeps *)
Record fine w w' : Prop := {
  fi_depth : depth_ok (dbs w) → depth_ok (dbs w');
  fi_kept : kept_if w w';
  fi_len : (length (traces w) ≤ length (traces w'))%nat }.

Lemma fine_refl w : fine w w.
Proof. split; [done|by apply kept_if_refl|done]. Qed.
Lemma fine_trans w1 w2 w3 : fine w1 w2 → fine w2 w3 → fine w1 w3.
Proof. intros [? ? ?] [? ? ?]. split; [auto|by eapply kept_if_trans|lia]. Qed.

Lemma sends_len w x w' x' : sends w x w' x' → (length (traces w) ≤ length (traces w'))%nat.
Proof. intros [? E|? ? E|? ? E|? ? E]; rewrite E, ?length_app; lia. Qed.
Lemma sent_len a b : sent a b → (length (traces a.1) ≤ length (traces b.1))%nat.
Proof. induction 1 as [|a b c [H%sends_len _] _ IH]; lia. Qed.

Lemma record_receipt_Ok w x r w' : record_receipt w x r = Ok w' →
  ∃ t, traces w !! Z.to_nat (action_ordinal x - 1) = Some t ∧ 0 < action_ordinal x ∧
    traces w' = <[Z.to_nat (action_ordinal x - 1) := with_receipt t r (account_ram_deltas (tbl (dbs w)))]> (traces w) ∧
    executed w' = executed w ++ [r] ∧ dbs w' = with_tbl (dbs w) (with_deltas (tbl (dbs w)) ∅).
Proof.
  unfold record_receipt, get_action_trace. intros H. apply bind_Ok in H as (t & Ht & [= <-]).
  apply bind_Ok in Ht as (? & Hb%EOS_ASSERT_Ok & Ht%of_option_Ok). exists t. split_and!; [done|lia|done..].
Qed.

Lemma unbilled_tbl d st : chain_inv d → same_tables (tbl d) st →
  usages (resources st) = usages (resources (tbl d)) → chain_kept d (with_tbl d st).
Proof. intros. by apply frame_kept. Qed.

Lemma exec_one_fine env w x w' x' : depth_ok (dbs w) → exec_one' env w x = Ok (w', x') → fine w w'.
Proof.
  intros Hd H. unfold exec_one in H. apply bind_Ok in H as ([w1 x1] & H1 & H).
  apply bind_Ok in H as ([r d] & H2 & H). apply bind_Ok in H as (w2 & H3 & [= <- <-]).
  apply run_receiver_sent in H1 as [(b & Hs) Hk1]; [|done..].
  apply make_receipt_kept in H2 as (_ & _ & Eg & _ & Hk2).
  apply record_receipt_Ok in H3 as (t & _ & _ & Et & _ & Ed). cbn [dbs with_dbs traces] in *. split.
  - intros _. rewrite Ed. unfold depth_ok. cbn. rewrite Eg. apply (sent_depth _ _ Hs Hd).
  - intros Hinv. eapply chain_kept_then; [by apply Hk1|]. intros Hinv1. eapply chain_kept_then; [by apply Hk2|].
    intros Hinv2. rewrite Ed. by apply unbilled_tbl.
  - rewrite Et, length_insert. apply (sent_len _ _ Hs).
Qed.

Lemma notify_fine fuel env : ∀ w x i w' x', depth_ok (dbs w) →
  notify' fuel env w x i = Some (Ok (w', x')) → fine w w'.
Proof.
  induction fuel as [|fuel IH]; intros w x i w' x' Hd H; cbn [notify] in H;
    destruct (notified x !! i) as [[r o]|]; try done; try (by simplify_eq; apply fine_refl).
  destruct (exec_one' _ _ _) as [[w1 x1]|e] eqn:E; [|done]. cbn [run_bind] in H.
  apply exec_one_fine in E as Hf; [|done]. eapply fine_trans; [done|]. eapply IH; [|done]. by apply Hf.
Qed.

Lemma fold_run_fine {A} (f : world → A → run world) l : ∀ w w',
  (∀ w a w', depth_ok (dbs w) → f w a = Some (Ok w') → fine w w') →
  depth_ok (dbs w) → fold_run f w l = Some (Ok w') → fine w w'.
Proof.
  induction l as [|a l IH]; intros w w' Hf Hd H; cbn [fold_run] in H; [simplify_eq; apply fine_refl|].
  destruct (f w a) as [[w1|e]|] eqn:E; try done. cbn [run_bind] in H. pose proof (Hf _ _ _ Hd E) as Hf1.
  eapply fine_trans; [done|]. apply IH; [done| |done]. by apply Hf1.
Qed.

Lemma new_apply_context_Ok w o depth w' x : new_apply_context w o depth = Ok (w', x) →
  fine w w' ∧ traces w' = traces w ∧ executed w' = executed w ∧ same_globals (dbs w) (dbs w') ∧
  ∃ t, traces w !! Z.to_nat (o - 1) = Some t ∧
    x = mk_actx (t_receiver t) (t_act t) depth o o false (t_context_free t) [] [] [].
Proof.
  unfold new_apply_context, get_action_trace. intros H. apply bind_Ok in H as (t & Ht & [= <- <-]).
  apply bind_Ok in Ht as (? & _ & Ht%of_option_Ok). split_and!; [|done..|by exists t].
  split; [done| |done]. intros Hinv. cbn [dbs with_dbs].
  eapply (chain_step_kept decode pack_context f64_rank f128_rank f64_is_nan f128_is_nan); [done|].
  apply chain_ram, ram_tables, step_context.
Qed.

Lemma execute_action_fine fuel env : ∀ w o depth w', depth_ok (dbs w) →
  execute_action' fuel env w o depth = Some (Ok w') → fine w w'.
Proof.
  induction fuel as [|fuel IH]; intros w o depth w' Hd H; cbn [execute_action] in H; [done|].
  destruct (new_apply_context w o depth) as [[w1 x1]|] eqn:E1; [|done]. cbn [run_bind] in H.
  apply new_apply_context_Ok in E1 as (Hf1 & _). pose proof (fi_depth _ _ Hf1 Hd) as Hd1.
  destruct (exec_one' _ _ _) as [[w2 x2]|] eqn:E2; [|done]. cbn [run_bind] in H.
  apply exec_one_fine in E2 as Hf2; [|done]. pose proof (fi_depth _ _ Hf2 Hd1) as Hd2.
  destruct (notify' _ _ _ _ _) as [[[w3 x3]|]|] eqn:E3; try done. cbn [run_bind] in H.
  apply notify_fine in E3 as Hf3; [|done]. pose proof (fi_depth _ _ Hf3 Hd2) as Hd3.
  destruct (check_depth _ _); [|done]. cbn [run_bind] in H.
  destruct (fold_run _ _ (cfa_inline_actions x3)) as [[w4|]|] eqn:E4; try done. cbn [run_bind] in H.
  apply fold_run_fine in E4 as Hf4; [|intros ? ? ? ?; by apply IH|done].
  apply fold_run_fine in H as Hf5; [|intros ? ? ? ?; by apply IH|by apply Hf4].
  do 4 (eapply fine_trans; [eassumption|]). done.
Qed.

(** ** The log *)

(** [g] is the global sequence number before the transaction. *)
Record log_inv (g : Z) w : Prop := {
  lg_receipts : executed w ≡ₚ omap t_receipt (traces w);
  lg_numbers : ∀ i r, executed w !! i = Some r → r_global_sequence r = u64 (g + 1 + Z.of_nat i);
  lg_next : global_action_sequence (dbs w) = u64 (g + Z.of_nat (length (executed w)));
  lg_receivers : ∀ k t r, traces w !! k = Some t → t_receipt t = Some r → r_receiver r = t_receiver t }.

Lemma log_inv_grow g w w' ts : log_inv g w → executed w' = executed w →
  global_action_sequence (dbs w') = global_action_sequence (dbs w) →
  traces w' = traces w ++ ts → Forall (λ t, t_receipt t = None) ts → log_inv g w'.
Proof.
  intros [Hr Hn Hx Hv] Ee Es Et Hts. split; rewrite ?Ee, ?Es, ?Et; try done.
  - rewrite omap_app, Hr. replace (omap t_receipt ts) with (@nil action_receipt); [by rewrite app_nil_r|].
    clear Et. induction Hts as [|t ts E _ IH]; [done|]. cbn. by rewrite E.
  - intros k t r [Hk|[_ Hk]]%lookup_app_Some Ht; [by eapply Hv|].
    apply list_elem_of_lookup_2 in Hk. rewrite Forall_forall in Hts. specialize (Hts _ Hk). congruence.
Qed.

(** The traces that wait for the context, from the [i]-th account on, and [rest]. *)
Definition waiting (i : nat) x (rest : list Z) : list Z :=
  drop i (notified x).*2 ++ cfa_inline_actions x ++ inline_actions x ++ rest.

Record ctx_inv (g : Z) (rest : list Z) (i : nat) w x : Prop := {
  cx_log : log_inv g w;
  cx_open : open_traces w ≡ₚ waiting i x rest;
  cx_names : ∀ r o, (r, o) ∈ notified x → ∃ t, traces w !! Z.to_nat (o - 1) = Some t ∧ t_receiver t = r;
  cx_len : (i ≤ length (notified x))%nat }.

Definition fits w : Prop := Z.of_nat (length (traces w)) < 2 ^ 32.

Lemma new_ordinal_eq w t l : fits w → traces w = l ++ [t] →
  u32 (Z.of_nat (length l) + 1) = 1 + Z.of_nat (length l).
Proof. unfold fits. intros Hf E. rewrite E, length_app in Hf. cbn in Hf. rewrite wrap_small; [lia|unfold in_u; lia]. Qed.

Lemma open_traces_add w w' t : traces w' = traces w ++ [t] → t_receipt t = None →
  open_traces w' ≡ₚ (1 + Z.of_nat (length (traces w))) :: open_traces w.
Proof.
  intros E Ht. unfold open_traces. rewrite E, open_from_app. cbn [open_from]. rewrite Ht. symmetry.
  apply Permutation_cons_append.
Qed.

Lemma waiting_notice i x rest p : (i ≤ length (notified x))%nat →
  p.2 :: waiting i x rest ≡ₚ waiting i (with_notified x (notified x ++ [p])) rest.
Proof.
  intros Hi. unfold waiting. cbn [notified with_notified cfa_inline_actions inline_actions].
  rewrite fmap_app, drop_app_le by (by rewrite length_fmap). cbn [fmap list_fmap].
  rewrite <- (app_assoc _ [p.2]). cbn [app]. apply Permutation_middle.
Qed.
Lemma waiting_cfa i x rest o :
  o :: waiting i x rest ≡ₚ waiting i (with_cfa_inline x (cfa_inline_actions x ++ [o])) rest.
Proof.
  unfold waiting. cbn [notified with_cfa_inline cfa_inline_actions inline_actions].
  rewrite <- (app_assoc _ [o]). cbn [app]. by rewrite <- !Permutation_middle.
Qed.
Lemma waiting_inline i x rest o :
  o :: waiting i x rest ≡ₚ waiting i (with_inline x (inline_actions x ++ [o])) rest.
Proof.
  unfold waiting. cbn [notified with_inline cfa_inline_actions inline_actions].
  rewrite <- (app_assoc _ [o]). cbn [app]. by rewrite <- !Permutation_middle.
Qed.

Lemma names_grow w w' ts (l : list (Z * Z)) : traces w' = traces w ++ ts →
  (∀ r o, (r, o) ∈ l → ∃ t, traces w !! Z.to_nat (o - 1) = Some t ∧ t_receiver t = r) →
  ∀ r o, (r, o) ∈ l → ∃ t, traces w' !! Z.to_nat (o - 1) = Some t ∧ t_receiver t = r.
Proof. intros E H r o (t & Ht & Hr)%H. exists t. by rewrite E, (lookup_app_l_Some _ _ _ _ Ht). Qed.

Lemma sends_ctx g rest i w x w' x' : sends w x w' x' → steady w w' → fits w' →
  ctx_inv g rest i w x → ctx_inv g rest i w' x'.
Proof.
  intros Hs [Ee Es _] Hfit [Hl Ho Hn Hi].
  destruct Hs as [w' E|w' t E Ht _ _|w' t E Ht|w' t E Ht]; unfold new_ordinal; rewrite ?(new_ordinal_eq _ _ _ Hfit E).
  - split; try done; [|by unfold open_traces; rewrite E|by rewrite E].
    apply (log_inv_grow g w w' []); try done. by rewrite app_nil_r.
  - split; [by eapply log_inv_grow; [..|by apply Forall_singleton]| | |].
    + rewrite (open_traces_add _ _ _ E Ht), Ho. by apply (waiting_notice i x rest (_, _)).
    + cbn [notified with_notified]. intros r o [Hr|Hr]%elem_of_app; [by eapply names_grow|].
      apply list_elem_of_singleton in Hr as [= -> ->]. exists t. split; [|done].
      rewrite E. replace (Z.to_nat _) with (length (traces w)) by lia. by rewrite list_lookup_middle.
    + cbn [notified with_notified]. rewrite length_app. lia.
  - split; [by eapply log_inv_grow; [..|by apply Forall_singleton]| |by eapply names_grow|done].
    rewrite (open_traces_add _ _ _ E Ht), Ho. apply waiting_cfa.
  - split; [by eapply log_inv_grow; [..|by apply Forall_singleton]| |by eapply names_grow|done].
    rewrite (open_traces_add _ _ _ E Ht), Ho. apply waiting_inline.
Qed.

(** What the sending of notices and actions leaves of the context. *)
Definition same_place x x' : Prop :=
  x_receiver x' = x_receiver x ∧ action_ordinal x' = action_ordinal x ∧ recurse_depth x' = recurse_depth x.

Lemma sent_ctx a b : sent a b → ∀ g rest i, fits b.1 → ctx_inv g rest i a.1 a.2 →
  ctx_inv g rest i b.1 b.2 ∧ same_place a.2 b.2 ∧ ∃ ts, traces b.1 = traces a.1 ++ ts.
Proof.
  induction 1 as [a|a b c [Hs Hst] Hbc IH]; intros g rest i Hfit Hc.
  - split_and!; [done..|]. exists []. by rewrite app_nil_r.
  - assert (fits b.1) as Hfb by (unfold fits in *; pose proof (sent_len _ _ Hbc); lia).
    destruct (IH g rest i Hfit) as (Hc' & (P1 & P2 & P3) & ts & Et); [by eapply sends_ctx|].
    destruct Hs as [w' E|w' t E _ _ _|w' t E _|w' t E _]; (split_and!; [done|by split_and!|]); rewrite Et, E;
      eauto; rewrite <- app_assoc; eauto.
Qed.

(** ** Closing a trace *)
Lemma close_log g w w' k t t' r : log_inv g w → traces w !! k = Some t → t_receipt t = None →
  t_receipt t' = Some r → t_receiver t' = r_receiver r →
  r_global_sequence r = u64 (global_action_sequence (dbs w) + 1) →
  global_action_sequence (dbs w') = u64 (global_action_sequence (dbs w) + 1) →
  traces w' = <[k := t']> (traces w) → executed w' = executed w ++ [r] → log_inv g w'.
Proof.
  intros [Hr Hn Hx Hv] Hk Ht Ht' Hrc Hg Hs Et Ee.
  assert (u64 (global_action_sequence (dbs w) + 1) = u64 (g + 1 + Z.of_nat (length (executed w)))) as Eg.
  { rewrite Hx. unfold wrap. rewrite Zplus_mod_idemp_l. f_equal. lia. }
  split; rewrite ?Et, ?Ee.
  - rewrite (receipts_close _ _ _ _ _ Hk Ht Ht'), Hr. symmetry. apply Permutation_cons_append.
  - intros i r' [Hi|[Hle Hi]]%lookup_app_Some; [by apply Hn|]. apply list_lookup_singleton_Some in Hi as [Hi <-].
    rewrite Hg, Eg. do 2 f_equal. lia.
  - rewrite Hs, Eg, length_app. f_equal. cbn. lia.
  - intros k' t0 r0 H0 Hr0. destruct (decide (k = k')) as [<-|Hne].
    + rewrite list_lookup_insert_eq in H0 by (by eapply lookup_lt_Some). simplify_eq. congruence.
    + rewrite list_lookup_insert_ne in H0 by done. by eapply Hv.
Qed.

Lemma record_receipt_ctx g rest i w w1 x r w' d : ctx_inv g (action_ordinal x :: rest) i w x →
  (∃ t, traces w !! Z.to_nat (action_ordinal x - 1) = Some t ∧ t_receiver t = x_receiver x) →
  make_receipt (dbs w) x = Ok (r, d) → w1 = with_dbs w d → record_receipt w1 x r = Ok w' →
  ctx_inv g rest i w' x.
Proof.
  intros [Hl Ho Hn Hi] (t & Ht & Hrcv) (Hrr & Hrg & _ & Hgs & _)%make_receipt_kept -> H.
  apply record_receipt_Ok in H as (t1 & Ht1 & Hpos & Et & Ee & Ed).
  cbn [traces with_dbs executed dbs] in *. assert (t1 = t) as -> by congruence.
  assert (action_ordinal x ∈ open_traces w) as Hin.
  { rewrite Ho. unfold waiting. rewrite !elem_of_app, elem_of_cons. tauto. }
  apply open_from_lookup in Hin as (_ & t2 & Ht2 & Hnone). assert (t2 = t) as -> by congruence.
  split; [|rewrite ?Et..|done].
  - eapply close_log; [exact Hl|exact Ht|exact Hnone| | |exact Hrg| |exact Et|exact Ee];
      [done|cbn; congruence|by rewrite Ed].
  - apply (Permutation_cons_inv (a := action_ordinal x)). etrans; [|etrans; [apply Ho|]].
    + unfold open_traces. rewrite Et. symmetry.
      rewrite (open_from_close _ 1 _ t (with_receipt t r (account_ram_deltas (tbl d))) Ht Hnone) by (by eexists).
      by replace (1 + _) with (action_ordinal x) by lia.
    + unfold waiting. by rewrite <- !Permutation_middle.
  - intros r0 o Hr0. destruct (Hn r0 o Hr0) as (t3 & H3 & E3).
    destruct (decide (Z.to_nat (action_ordinal x - 1) = Z.to_nat (o - 1))) as [E|E].
    + rewrite <- E, list_lookup_insert_eq by (by eapply lookup_lt_Some). eexists. split; [done|].
      rewrite <- E in H3. cbn. congruence.
    + rewrite list_lookup_insert_ne by done. eauto.
Qed.

Lemma exec_one_ctx g rest i env w x w' x' : depth_ok (dbs w) → exec_one' env w x = Ok (w', x') → fits w' →
  ctx_inv g (action_ordinal x :: rest) i w x →
  (∃ t, traces w !! Z.to_nat (action_ordinal x - 1) = Some t ∧ t_receiver t = x_receiver x) →
  ctx_inv g rest i w' x'.
Proof.
  intros Hd H Hfit Hc (t & Ht & Hrcv). unfold exec_one in H. apply bind_Ok in H as ([w1 x1] & H1 & H).
  apply bind_Ok in H as ([r d] & H2 & H). apply bind_Ok in H as (w2 & H3 & [= <- <-]).
  apply run_receiver_sent in H1 as [(b & Hs) _]; [|done..].
  assert (fits w1) as Hfit1.
  { unfold fits in *. apply record_receipt_Ok in H3 as (? & _ & _ & Et & _). rewrite Et, length_insert in Hfit. done. }
  destruct (sent_ctx _ _ Hs g (action_ordinal x :: rest) i) as (Hc1 & (P1 & P2 & _) & ts & Ets); [done| |].
  { destruct Hc as [C1 C2 C3 C4]. by split. }
  cbn [fst snd x_receiver action_ordinal with_privileged] in *. rewrite <- P2 in Hc1.
  eapply record_receipt_ctx; [done| |exact H2|done|exact H3]. exists t. rewrite P1, P2, Ets.
  split; [by apply lookup_app_l_Some|done].
Qed.

Lemma notify_ctx fuel env g rest : ∀ w x i w' x', depth_ok (dbs w) →
  notify' fuel env w x i = Some (Ok (w', x')) → fits w' → ctx_inv g rest i w x →
  log_inv g w' ∧ open_traces w' ≡ₚ cfa_inline_actions x' ++ inline_actions x' ++ rest.
Proof.
  assert (∀ w x i, notified x !! i = None → ctx_inv g rest i w x →
    log_inv g w ∧ open_traces w ≡ₚ cfa_inline_actions x ++ inline_actions x ++ rest) as Hend.
  { intros w x i Hi%lookup_ge_None [Hl Ho _ _]. split; [done|]. rewrite Ho. unfold waiting.
    by rewrite drop_ge by (by rewrite length_fmap). }
  induction fuel as [|fuel IH]; intros w x i w' x' Hd H Hfit Hc; cbn [notify] in H;
    destruct (notified x !! i) as [[r o]|] eqn:Ei; try done; try (injection H as <- <-; by eapply Hend).
  destruct (exec_one' _ _ _) as [[w1 x1]|e] eqn:E; [|done]. cbn [run_bind] in H.
  apply exec_one_fine in E as Hf; [|done..]. pose proof (fi_depth _ _ Hf Hd) as Hd1.
  apply (IH _ _ _ _ _ Hd1 H Hfit). destruct Hc as [Hl Ho Hn Hi].
  eapply (exec_one_ctx g rest (S i) env w (with_receiver x r o)); [done|exact E| | |].
  - apply notify_fine in H as Hf1; [|done..]. unfold fits in *. pose proof (fi_len _ _ Hf1). lia.
  - split; [done| |done|cbn; by eapply lookup_lt_Some]. rewrite Ho. unfold waiting.
    cbn [action_ordinal with_receiver notified cfa_inline_actions inline_actions].
    erewrite (drop_S _ o) by (by rewrite list_lookup_fmap, Ei). cbn [app]. by rewrite <- !Permutation_middle.
  - cbn. apply Hn. by eapply list_elem_of_lookup_2.
Qed.

Lemma fold_run_log {A} (f : world → A → run world) (ord : A → Z) g l : ∀ w w' rest,
  (∀ w a w', depth_ok (dbs w) → f w a = Some (Ok w') → fine w w') →
  (∀ w a w' rest, a ∈ l → depth_ok (dbs w) → f w a = Some (Ok w') → fits w' → log_inv g w →
     open_traces w ≡ₚ ord a :: rest → log_inv g w' ∧ open_traces w' ≡ₚ rest) →
  depth_ok (dbs w) → fold_run f w l = Some (Ok w') → fits w' → log_inv g w →
  open_traces w ≡ₚ (ord <$> l) ++ rest → log_inv g w' ∧ open_traces w' ≡ₚ rest.
Proof.
  induction l as [|a l IH]; intros w w' rest Hfine Hf Hd H Hfit Hl Ho; cbn [fold_run] in H.
  { injection H as <-. done. }
  destruct (f w a) as [[w1|e]|] eqn:E; try done. cbn [run_bind] in H.
  pose proof (Hfine _ _ _ Hd E) as Hf1. pose proof (fi_depth _ _ Hf1 Hd) as Hd1.
  assert (fits w1) as Hfit1.
  { pose proof (fold_run_fine f l w1 w' Hfine Hd1 H) as [_ _ Hlen]. unfold fits in *. lia. }
  destruct (Hf w a w1 ((ord <$> l) ++ rest)) as [Hl1 Ho1]; [by left|done..|].
  eapply IH; try done. intros. eapply Hf; try done. by right.
Qed.

Lemma execute_action_log fuel env g : ∀ w o depth w' rest, depth_ok (dbs w) →
  execute_action' fuel env w o depth = Some (Ok w') → fits w' → log_inv g w →
  open_traces w ≡ₚ o :: rest → log_inv g w' ∧ open_traces w' ≡ₚ rest.
Proof.
  induction fuel as [|fuel IH]; intros w o depth w' rest Hd H Hfit Hl Ho; cbn [execute_action] in H; [done|].
  destruct (new_apply_context w o depth) as [[w1 x1]|] eqn:E1; [|done]. cbn [run_bind] in H.
  apply new_apply_context_Ok in E1 as (Hf1 & Et1 & Ee1 & [_ Es1] & t & Ht & Ex).
  pose proof (fi_depth _ _ Hf1 Hd) as Hd1.
  destruct (exec_one' _ _ _) as [[w2 x2]|] eqn:E2; [|done]. cbn [run_bind] in H.
  apply exec_one_fine in E2 as Hf2; [|done..]. pose proof (fi_depth _ _ Hf2 Hd1) as Hd2.
  destruct (notify' _ _ _ _ _) as [[[w3 x3]|]|] eqn:E3; try done. cbn [run_bind] in H.
  apply notify_fine in E3 as Hf3; [|done..]. pose proof (fi_depth _ _ Hf3 Hd2) as Hd3.
  destruct (check_depth _ _); [|done]. cbn [run_bind] in H.
  destruct (fold_run _ _ (cfa_inline_actions x3)) as [[w4|]|] eqn:E4; try done. cbn [run_bind] in H.
  assert (∀ w a w', depth_ok (dbs w) →
    execute_action' fuel env w a (u32 (recurse_depth x3 + 1)) = Some (Ok w') → fine w w') as Hfine.
  { intros ? ? ? ?. by apply execute_action_fine. }
  pose proof (fold_run_fine _ _ _ _ Hfine Hd3 E4) as Hf4. pose proof (fi_depth _ _ Hf4 Hd3) as Hd4.
  pose proof (fold_run_fine _ _ _ _ Hfine Hd4 H) as Hf5.
  pose proof (fi_len _ _ Hf3). pose proof (fi_len _ _ Hf4). pose proof (fi_len _ _ Hf5). unfold fits in *.
  assert (ctx_inv g rest 1 w2 x2) as Hc2.
  { eapply exec_one_ctx; [exact Hd1|exact E2|unfold fits; lia| |]; subst x1; cbn; [|by rewrite Et1; exists t].
    split; [|cbn; by unfold open_traces; rewrite Et1| |done].
    - apply (log_inv_grow g w w1 []); try done. by rewrite app_nil_r.
    - cbn. intros r o' [= -> ->]%list_elem_of_singleton. rewrite Et1. by exists t. }
  destruct (notify_ctx fuel env g rest _ _ _ _ _ Hd2 E3) as [Hl3 Ho3]; [unfold fits; lia|done|].
  destruct (fold_run_log _ Datatypes.id g _ _ _ (inline_actions x3 ++ rest) Hfine
    (λ w a w' rest _, IH w a _ w' rest) Hd3 E4) as [Hl4 Ho4]; [unfold fits; lia|done|by rewrite list_fmap_id|].
  apply (fold_run_log _ Datatypes.id g _ _ _ rest Hfine (λ w a w' rest _, IH w a _ w' rest) Hd4 H);
    [done..|by rewrite list_fmap_id].
Qed.

(** ** The whole transaction *)
Lemma schedule_original_Ok env cf w a w' : schedule_original env cf w a = Ok w' →
  dbs w' = dbs w ∧ executed w' = executed w ∧ ∃ t, traces w' = traces w ++ [t] ∧ t_receipt t = None.
Proof.
  unfold schedule_original. intros (w1 & (Et & Ee & Ed)%process_fee_frame & [= <-])%bind_Ok.
  cbn. rewrite Et, Ee, Ed. eauto.
Qed.

Lemma schedule_originals_Ok env cf l : ∀ w w', fold_res (schedule_original env cf) w l = Ok w' →
  dbs w' = dbs w ∧ executed w' = executed w ∧
  ∃ ts, traces w' = traces w ++ ts ∧ Forall (λ t, t_receipt t = None) ts.
Proof.
  induction l as [|a l IH]; intros w w' H; cbn [fold_res] in H.
  { injection H as <-. split_and!; [done..|]. exists []. by rewrite app_nil_r. }
  apply bind_Ok in H as (w1 & (Ed & Ee & t & Et & Ht)%schedule_original_Ok & H).
  apply IH in H as (Ed' & Ee' & ts & Et' & Hts). split_and!; [congruence..|].
  exists (t :: ts). rewrite Et', Et, <- app_assoc. split; [done|by constructor].
Qed.

Lemma fine_grow w w' ts : dbs w' = dbs w → traces w' = traces w ++ ts → fine w w'.
Proof.
  intros Ed Et. split; [by rewrite Ed|by apply kept_if_refl|]. rewrite Et, length_app. lia.
Qed.

Lemma schedule_fee_fine fuel env w w' : depth_ok (dbs w) →
  schedule_fee_action decode pack_context f64_rank f128_rank f64_is_nan f128_is_nan milliseconds db_full
    engine pack_transfer_fee fuel env w = Some (Ok w') → fine w w'.
Proof.
  intros Hd H. unfold schedule_fee_action in H. destruct (_ =? 0); [simplify_eq; apply fine_refl|].
  destruct (check_fee_limit _); [|done]. cbn [run_bind trx_schedule_action] in H.
  eapply fine_trans; [|eapply execute_action_fine; [|exact H]; done]. by eapply fine_grow.
Qed.

Lemma schedule_transaction_frame env w t delay w' : schedule_transaction env w t delay = Ok w' → beside w w'.
Proof.
  unfold schedule_transaction. intros H. apply bind_Ok in H as (w1 & H1 & H).
  apply bind_Ok in H as (d & H2 & H). apply bind_Ok in H as (st & _ & [= <-]).
  unfold create_generated in H2. apply bind_Ok in H2 as (? & _ & H2). apply bind_Ok in H2 as (m & _ & [= <-]).
  destruct (_ =? 0); [|by simplify_eq]. unfold charge_retirement in H1. by apply bind_Ok in H1 as (? & _ & [= <-]).
Qed.

Lemma open_from_all l : ∀ n, Forall (λ t, t_receipt t = None) l → open_from n l = seqZ n (Z.of_nat (length l)).
Proof.
  induction l as [|t l IH]; intros n H; [done|]. apply Forall_cons in H as [Ht H]. cbn [open_from length].
  rewrite Ht, IH by done. rewrite (seqZ_cons n (Z.of_nat (S (length l)))) by lia.
  f_equal. f_equal; lia.
Qed.

(** The stages: the actions of the transaction are scheduled, they run, the fee
    action runs, and a delayed transaction is stored. *)
Lemma exec_stages fuel env w t cf delay w' : exec' fuel env w t cf delay = Some (Ok w') →
  ∃ w1 w2 w3 ts, dbs w1 = dbs w ∧ executed w1 = executed w ∧ traces w1 = traces w ++ ts ∧
    Forall (λ t, t_receipt t = None) ts ∧
    fold_run (λ w o, execute_action' fuel env w o 0) w1 (seqZ 1 (u32 (Z.of_nat (length (traces w1))))) = Some (Ok w2) ∧
    schedule_fee_action decode pack_context f64_rank f128_rank f64_is_nan f128_is_nan milliseconds db_full
      engine pack_transfer_fee fuel env w2 = Some (Ok w3) ∧
    (delay = 0 ∧ w' = w3 ∨ schedule_transaction env w3 t delay = Ok w').
Proof.
  unfold exec. intros H. destruct (EOS_ASSERT _ _); [|done]. cbn [run_bind] in H.
  destruct (if cf then _ else _) as [wa|] eqn:Ea; [|done]. cbn [run_bind] in H.
  destruct (if delay =? 0 then fold_res _ _ _ else _) as [w1|] eqn:Eb; [|done]. cbn [run_bind] in H.
  destruct (fold_run _ _ _) as [[w2|]|] eqn:E2; try done. cbn [run_bind] in H.
  destruct (schedule_fee_action _ _ _ _ _ _ _ _ _ _ _ _ _) as [[w3|]|] eqn:E3; try done. cbn [run_bind] in H.
  assert (∃ ts, dbs wa = dbs w ∧ executed wa = executed w ∧ traces wa = traces w ++ ts ∧
    Forall (λ t, t_receipt t = None) ts) as (ta & A1 & A2 & A3 & A4).
  { destruct cf; [apply schedule_originals_Ok in Ea as (? & ? & ts & ? & ?); by exists ts|].
    injection Ea as <-. exists []. by rewrite app_nil_r. }
  assert (∃ ts, dbs w1 = dbs wa ∧ executed w1 = executed wa ∧ traces w1 = traces wa ++ ts ∧
    Forall (λ t, t_receipt t = None) ts) as (tb & B1 & B2 & B3 & B4).
  { destruct (delay =? 0); [apply schedule_originals_Ok in Eb as (? & ? & ts & ? & ?); by exists ts|].
    injection Eb as <-. exists []. by rewrite app_nil_r. }
  exists w1, w2, w3, (ta ++ tb). split_and!; [congruence..| | |done|done|].
  - by rewrite B3, A3, app_assoc.
  - by apply Forall_app.
  - destruct (Z.eqb_spec delay 0); [left; by simplify_eq|right; congruence].
Qed.

Lemma execute_originals_fine fuel env w os w' : depth_ok (dbs w) →
  fold_run (λ w o, execute_action' fuel env w o 0) w os = Some (Ok w') → fine w w'.
Proof. apply fold_run_fine. intros ? ? ? ?. by apply execute_action_fine. Qed.

(** C3.  A transaction, whatever its actions and whatever the contracts that run
    do through the host functions, keeps the database consistent: permissions,
    codes, tables and deferred transactions stay well formed, and the RAM usage
    of every account changes by exactly what is stored for it. *)
Theorem transaction_keeps_chain fuel env w t cf delay w' :
  chain_inv (dbs w) → depth_ok (dbs w) → Z.of_nat (length (pack_trx t)) < 2 ^ 32 →
  exec' fuel env w t cf delay = Some (Ok w') →
  chain_inv (dbs w') ∧ ∀ a, unexplained (dbs w') a = unexplained (dbs w) a.
Proof.
  intros Hinv Hd Hlen (w1 & w2 & w3 & ts & Ed & _ & Et & _ & E2 & E3 & H)%exec_stages.
  assert (depth_ok (dbs w1)) as Hd1 by (by rewrite Ed).
  apply execute_originals_fine in E2 as Hf2; [|done]. pose proof (fi_depth _ _ Hf2 Hd1) as Hd2.
  apply schedule_fee_fine in E3 as Hf3; [|done]. rewrite <- Ed in Hinv.
  pose proof (fi_kept _ _ Hf2 Hinv) as Hk2. pose proof (fi_kept _ _ Hf3 (proj1 Hk2)) as Hk3.
  rewrite <- Ed. enough (chain_kept (dbs w1) (dbs w')) as [? ?] by done.
  eapply chain_kept_trans; [exact Hk2|]. eapply chain_kept_trans; [exact Hk3|].
  destruct H as [[_ ->]|H]; [apply chain_kept_refl, Hk3|].
  eapply (chain_step_kept decode pack_context f64_rank f128_rank f64_is_nan f128_is_nan); [apply Hk3|].
  by eapply chain_ram, ram_delay.
Qed.

(** C4.  Every action runs exactly once: when a transaction ends, each scheduled
    trace (the actions of the transaction, the notified accounts, the inline
    actions, the fee action) has a receipt for its receiver, the receipts of
    the block are exactly those of the traces, and they are numbered one after
    the other in the order in which they are recorded. *)
Theorem actions_run_once fuel env w t cf delay w' :
  traces w = [] → executed w = [] → in_u 64 (global_action_sequence (dbs w)) → depth_ok (dbs w) →
  exec' fuel env w t cf delay = Some (Ok w') → Z.of_nat (length (traces w')) < 2 ^ 32 →
  Forall (λ t, ∃ r, t_receipt t = Some r ∧ r_receiver r = t_receiver t) (traces w') ∧
  executed w' ≡ₚ omap t_receipt (traces w') ∧
  ∀ i r, executed w' !! i = Some r →
    r_global_sequence r = u64 (global_action_sequence (dbs w) + 1 + Z.of_nat i).
Proof.
  intros Htr Hex Hg Hd (w1 & w2 & w3 & ts & Ed & Ee & Et & Hts & E2 & E3 & H)%exec_stages Hlen.
  set (g := global_action_sequence (dbs w)) in *. rewrite Htr in Et. rewrite Hex in Ee. cbn [app] in Et.
  assert (traces w' = traces w3 ∧ executed w' = executed w3) as [Et3 Ee3].
  { destruct H as [[_ ->]|H%schedule_transaction_frame]; [done|]. split; apply H. }
  rewrite Et3, Ee3 in *. clear Et3 Ee3 H.
  assert (depth_ok (dbs w1)) as Hd1 by (by rewrite Ed).
  apply execute_originals_fine in E2 as Hf2; [|done]. pose proof (fi_depth _ _ Hf2 Hd1) as Hd2.
  apply schedule_fee_fine in E3 as Hf3; [|done]. pose proof (fi_len _ _ Hf2). pose proof (fi_len _ _ Hf3).
  assert (log_inv g w1) as Hl1.
  { apply (log_inv_grow g w w1 ts); try done; [|by rewrite Ee, Hex|by rewrite Ed|by rewrite Et, Htr].
    split; rewrite ?Hex, ?Htr; [done..|rewrite Z.add_0_r, wrap_small; done|done]. }
  destruct (fold_run_log (λ w o, execute_action' fuel env w o 0) Datatypes.id g
      (seqZ 1 (u32 (Z.of_nat (length (traces w1))))) w1 w2 []
      (λ w a w', execute_action_fine fuel env w a 0 w')
      (λ w a w' rest _, execute_action_log fuel env g w a 0 w' rest) Hd1 E2) as [Hl2 Ho2];
    [unfold fits; lia|exact Hl1| |].
  { rewrite list_fmap_id, app_nil_r, wrap_small by (unfold in_u; lia). unfold open_traces.
    by rewrite open_from_all by (by rewrite Et). }
  assert (log_inv g w3 ∧ open_traces w3 ≡ₚ []) as [[Hr Hn _ Hv] Ho3].
  { unfold schedule_fee_action in E3. destruct (_ =? 0); [by simplify_eq|].
    destruct (check_fee_limit _); [|done]. cbn [run_bind trx_schedule_action] in E3.
    pose proof E3 as E4. apply execute_action_fine in E4 as [_ _ Hl4]; [|done]. cbn [traces with_traces] in Hl4.
    rewrite length_app in Hl4. cbn [length] in Hl4.
    eapply execute_action_log; [|exact E3|exact Hlen| |];
      [done|eapply log_inv_grow; [exact Hl2|done|done|reflexivity|by apply Forall_singleton]|].
    rewrite wrap_small by (unfold in_u; lia). rewrite open_traces_add by done. rewrite Ho2.
    by replace (1 + _) with (Z.of_nat (length (traces w2)) + 1) by lia. }
  split_and!; [|done|done]. apply Forall_lookup. intros k tr Hk. destruct (t_receipt tr) as [r|] eqn:Er.
  - exists r. split; [done|]. by eapply Hv.
  - exfalso. pose proof (open_from_close _ 1 k tr (with_receipt tr (mk_receipt 0 zero_digest 0 0 ∅ 0 0) ∅) Hk Er) as Hp.
    fold (open_traces w3) in Hp. rewrite Ho3 in Hp. by apply Permutation_nil_cons in Hp; [|eexists].
Qed.
End theory.
