(* ===== verification/ActionEnds.v ===== *)
(** * Transactions end

    An action notifies an account at most once, and inline actions nest at most
    as deep as a 16-bit field of the configuration: the loops of [ActionExec]
    have enough fuel, whatever the contracts do. *)

From S2P Require Import Prelude Chainbase Names Assets Config Merkle BlockHeader ProtocolFeatures ChainConfig ConfigOnChain TxFee Accumulator.
From S2P Require Import ResourceLimits ControllerLists Authority AuthorityChecker Permissions.
From S2P Require Import BlockTimestamp Transaction AccessLists TransactionContext ContractTables TableTheory DatabaseApi ActionContext Deferred DeferredRam.
From S2P Require Import SystemActions SystemTheory SystemRam HostApi ActionExec ActionTheory ActionLog.
Local Open Scope Z_scope.

(** More fuel than accounts, and than levels of inline actions. *)
Definition notices_fuel : nat := Z.to_nat (2 ^ 64 + 2).
Definition enough_fuel : nat := Z.to_nat (2 ^ 16) + notices_fuel.

(** The accounts are distinct, and those that contracts name are words. *)
Record notices_ok (x : actx) : Prop := {
  no_dup : NoDup (notified x).*1;
  no_words : Forall (in_u 64) (tail (notified x).*1);
  no_first : notified x ≠ [] }.

Lemma words_length (l : list Z) : NoDup l → Forall (in_u 64) l → (length l ≤ Z.to_nat (2 ^ 64))%nat.
Proof.
  intros Hnd Hl. assert (l ⊆+ seqZ 0 (2 ^ 64)) as Hs.
  { apply NoDup_submseteq; [done|]. intros a Ha. apply elem_of_seqZ. rewrite Forall_forall in Hl.
    apply Hl in Ha. unfold in_u in Ha. lia. }
  apply submseteq_length in Hs. by rewrite length_seqZ in Hs.
Qed.

Lemma notices_length x : notices_ok x → (length (notified x) < notices_fuel)%nat.
Proof.
  intros [Hnd Hw Hne]. rewrite <- (length_fmap fst). destruct ((notified x).*1) as [|a l] eqn:E.
  - unfold notices_fuel. cbn. lia.
  - apply NoDup_cons in Hnd as [_ Hnd]. pose proof (words_length l Hnd Hw). unfold notices_fuel. cbn [length]. lia.
Qed.

Lemma sends_notices w x w' x' : sends w x w' x' → notices_ok x →
  notices_ok x' ∧ recurse_depth x' = recurse_depth x.
Proof.
  intros Hs [Hnd Hw Hne]. destruct Hs as [w' E|w' t E _ Hnew Hin|w' t E _|w' t E _]; try (split; [by split|done]).
  split; [|done]. split; cbn [notified with_notified].
  - rewrite fmap_app. apply NoDup_app. split_and!; [done| |apply NoDup_singleton].
    intros a Ha Ha'. apply list_elem_of_singleton in Ha' as ->. done.
  - destruct (notified x) as [|p l]; [done|]. cbn in *. rewrite fmap_app. apply Forall_app. split; [done|].
    by apply Forall_singleton.
  - by destruct (notified x).
Qed.

Lemma sent_notices a b : rtc send_step a b → notices_ok a.2 →
  notices_ok b.2 ∧ recurse_depth b.2 = recurse_depth a.2.
Proof.
  induction 1 as [|a b c [Hs _] _ IH]; intros Hn; [done|].
  destruct (sends_notices _ _ _ _ Hs Hn) as [Hn1 E1]. destruct (IH Hn1) as [Hn2 E2]. split; [done|congruence].
Qed.

(** ** Fuel *)
Lemma run_bind_more {A B} (m : run A) (k k' : A → run B) r :
  (∀ a r, k a = Some r → k' a = Some r) → run_bind m k = Some r → run_bind m k' = Some r.
Proof. destruct m as [[a|e]|]; cbn; auto. Qed.

Lemma fold_run_more {S A} (f f' : S → A → run S) l : (∀ s a r, f s a = Some r → f' s a = Some r) →
  ∀ s r, fold_run f s l = Some r → fold_run f' s l = Some r.
Proof.
  intros Hf. induction l as [|a l IH]; intros s r H; cbn [fold_run] in *; [done|].
  destruct (f s a) as [v|] eqn:E; [|done]. rewrite (Hf _ _ _ E). eapply run_bind_more; [|exact H]. auto.
Qed.

Section theory.
Context {db : Chainbase} {laws : ChainbaseLaws db} {fc : TrxFc} {cr : Crypto}.
Context {sf : SystemFc} {sfl : SystemFcLaws sf} {hf : HostFc}.
Context (decode : Transaction.action → native_data) (pack_context : generation_context → list Z).
Context (f64_rank f128_rank : Z → Z) (f64_is_nan f128_is_nan : Z → bool).
Context (milliseconds : Z → Z) (db_full : database → bool).
Context (engine : list Z → Z → Z → Z → prog) (pack_transfer_fee : Z → asset → list Z).
Context {el : ExecLaws pack_context db_full engine}.
Implicit Types (env : exec_env) (w : world) (x : actx) (d : database).

Abbreviation exec_one' := (exec_one decode pack_context f64_rank f128_rank f64_is_nan f128_is_nan
  milliseconds db_full engine).
Abbreviation notify' := (notify decode pack_context f64_rank f128_rank f64_is_nan f128_is_nan
  milliseconds db_full engine).
Abbreviation execute_action' := (execute_action decode pack_context f64_rank f128_rank f64_is_nan f128_is_nan
  milliseconds db_full engine).
Abbreviation exec' := (exec decode pack_context f64_rank f128_rank f64_is_nan f128_is_nan
  milliseconds db_full engine pack_transfer_fee).

Lemma notify_more env fuel : ∀ fuel' w x i r, (fuel ≤ fuel')%nat →
  notify' fuel env w x i = Some r → notify' fuel' env w x i = Some r.
Proof.
  induction fuel as [|fuel IH]; intros fuel' w x i r Hf H; destruct fuel' as [|fuel']; try lia;
    cbn [notify] in *; destruct (notified x !! i) as [[a o]|]; try done.
  eapply run_bind_more; [|exact H]. intros [w1 x1] r1. apply IH. lia.
Qed.

Lemma execute_action_more env fuel : ∀ fuel' w o depth r, (fuel ≤ fuel')%nat →
  execute_action' fuel env w o depth = Some r → execute_action' fuel' env w o depth = Some r.
Proof.
  induction fuel as [|fuel IH]; intros fuel' w o depth r Hf H; [done|]. destruct fuel' as [|fuel']; [lia|].
  cbn [execute_action] in *. eapply run_bind_more; [|exact H]. intros [w1 x1] r1 H1.
  eapply run_bind_more; [|exact H1]. intros [w2 x2] r2 H2.
  destruct (notify' fuel env w2 x2 1) as [v|] eqn:E; [|done]. rewrite (notify_more env fuel fuel' _ _ _ v) by (done || lia).
  eapply run_bind_more; [|exact H2]. intros [w3 x3] r3 H3. eapply run_bind_more; [|exact H3]. intros [] r4 H4.
  assert (∀ s a r, execute_action' fuel env s a (u32 (recurse_depth x3 + 1)) = Some r →
    execute_action' fuel' env s a (u32 (recurse_depth x3 + 1)) = Some r) as Hm by (intros; apply IH; [lia|done]).
  destruct (fold_run _ w3 (cfa_inline_actions x3)) as [v4|] eqn:E4; [|done].
  rewrite (fold_run_more _ _ _ Hm _ _ E4). eapply run_bind_more; [|exact H4].
  intros w5 r5. by apply fold_run_more.
Qed.

Lemma exec_more env fuel fuel' w t cf delay r : (fuel ≤ fuel')%nat →
  exec' fuel env w t cf delay = Some r → exec' fuel' env w t cf delay = Some r.
Proof.
  intros Hf H. unfold exec in *. do 3 (eapply run_bind_more; [|exact H]; clear H; intros ? ? H). cbv beta in H |- *.
  destruct (fold_run (λ w o, execute_action' fuel env w o 0) _ _) as [v|] eqn:E; [|done].
  rewrite (fold_run_more _ (λ w o, execute_action' fuel' env w o 0) _
    (λ w o r, execute_action_more env fuel fuel' w o 0 r Hf) _ _ E).
  eapply run_bind_more; [|exact H]. clear H. intros w1 v1 H. cbv beta in H |- *.
  destruct (schedule_fee_action _ _ _ _ _ _ _ _ _ _ fuel _ _) as [v2|] eqn:E2; [|done].
  assert (schedule_fee_action decode pack_context f64_rank f128_rank f64_is_nan f128_is_nan milliseconds db_full
    engine pack_transfer_fee fuel' env w1 = Some v2) as ->; [|done].
  unfold schedule_fee_action in *. destruct (_ =? 0); [done|]. eapply run_bind_more; [|exact E2].
  intros u v3. by apply execute_action_more.
Qed.

(** ** Enough of it *)
Lemma exec_one_notices env w x w' x' : depth_ok (dbs w) → notices_ok x → exec_one' env w x = Ok (w', x') →
  notices_ok x' ∧ recurse_depth x' = recurse_depth x.
Proof.
  intros Hd Hn H. unfold exec_one in H. apply bind_Ok in H as ([w1 x1] & H1 & H).
  apply bind_Ok in H as ([r d] & _ & H). apply bind_Ok in H as (w2 & _ & [= <- <-]).
  apply run_receiver_sent in H1 as [(b & Hs) _]; [|done..]. apply sent_notices in Hs; [done|].
  destruct Hn. by split.
Qed.

Lemma notify_total env fuel : ∀ w x i, depth_ok (dbs w) → notices_ok x → (notices_fuel ≤ fuel + i)%nat →
  ∃ v, notify' fuel env w x i = Some v ∧
    ∀ w' x', v = Ok (w', x') → recurse_depth x' = recurse_depth x.
Proof.
  induction fuel as [|fuel IH]; intros w x i Hd Hn Hf; cbn [notify].
  - rewrite (proj2 (lookup_ge_None _ _)); [|pose proof (notices_length x Hn); lia].
    eexists. split; [done|]. by intros ? ? [= _ <-].
  - destruct (notified x !! i) as [[r o]|]; [|eexists; split; [done|by intros ? ? [= _ <-]]].
    destruct (exec_one' env w (with_receiver x r o)) as [[w1 x1]|e] eqn:E; [|by eexists].
    cbn [run_bind]. apply exec_one_notices in E as H; [|done|destruct Hn; by split]. destruct H as [Hn1 E1].
    apply exec_one_fine in E as Hf1; [|done..]. pose proof (fi_depth _ _ Hf1 Hd) as Hd1.
    destruct (IH w1 x1 (S i) Hd1 Hn1) as (v & -> & Hv); [lia|]. eexists. split; [done|].
    intros w' x' Hx. rewrite (Hv _ _ Hx). done.
Qed.

Lemma fold_run_total {A} (f : world → A → run world) l : ∀ w,
  (∀ w a, depth_ok (dbs w) → is_Some (f w a)) →
  (∀ w a w', depth_ok (dbs w) → f w a = Some (Ok w') → fine w w') → depth_ok (dbs w) → is_Some (fold_run f w l).
Proof.
  induction l as [|a l IH]; intros w Ht Hf Hd; cbn [fold_run]; [done|].
  destruct (Ht w a Hd) as [[w1|e] E]; rewrite E; cbn [run_bind]; [|done]. apply IH; [done..|]. by eapply Hf.
Qed.

Lemma execute_action_total env fuel : ∀ w o depth, depth_ok (dbs w) → 0 ≤ depth →
  (Z.to_nat (2 ^ 16 - depth) + notices_fuel ≤ fuel)%nat → is_Some (execute_action' fuel env w o depth).
Proof.
  induction fuel as [|fuel IH]; intros w o depth Hd H0 Hf; [unfold notices_fuel in Hf; lia|]. cbn [execute_action].
  destruct (new_apply_context w o depth) as [[w1 x1]|] eqn:E1; [|done]. cbn [run_bind].
  apply (new_apply_context_Ok decode pack_context f64_rank f128_rank f64_is_nan f128_is_nan) in E1 as (Hf1 & _ & _ & _ & t & _ & ->).
  pose proof (fi_depth _ _ Hf1 Hd) as Hd1.
  set (x1 := with_notified _ _). assert (notices_ok x1) as Hn1.
  { split; cbn; [apply NoDup_singleton|constructor|done]. }
  destruct (exec_one' env w1 x1) as [[w2 x2]|] eqn:E2; [|done]. cbn [run_bind].
  apply exec_one_fine in E2 as Hf2; [|done..]. pose proof (fi_depth _ _ Hf2 Hd1) as Hd2.
  apply exec_one_notices in E2 as [Hn2 Er2]; [|done..].
  destruct (notify_total env fuel w2 x2 1 Hd2 Hn2) as (v & E3 & Hv); [lia|]. rewrite E3.
  destruct v as [[w3 x3]|]; [|done]. cbn [run_bind]. specialize (Hv _ _ eq_refl).
  apply notify_fine in E3 as Hf3; [|done..]. pose proof (fi_depth _ _ Hf3 Hd2) as Hd3.
  destruct (check_depth w3 x3) as [[]|] eqn:E4; [|done]. cbn [run_bind].
  assert (recurse_depth x3 = depth) as Ed by (by rewrite Hv, Er2).
  assert (cfa_inline_actions x3 = [] ∧ inline_actions x3 = [] ∨ depth < 2 ^ 16 - 1) as [[-> ->]|Hlt]; [|done|].
  { unfold check_depth in E4. unfold depth_ok, in_u in Hd3. rewrite Ed in E4.
    destruct (cfa_inline_actions x3); [destruct (inline_actions x3); [auto|]|];
      apply EOS_ASSERT_Ok in E4; right; lia. }
  rewrite Ed, wrap_small by (unfold in_u; lia).
  assert (∀ w o, depth_ok (dbs w) → is_Some (execute_action' fuel env w o (depth + 1))) as Ht.
  { intros w' o' Hd'. apply IH; [done|lia..]. }
  assert (∀ w o w', depth_ok (dbs w) → execute_action' fuel env w o (depth + 1) = Some (Ok w') → fine w w') as Hfi.
  { intros ? ? ? ?. by apply execute_action_fine. }
  destruct (fold_run_total _ (cfa_inline_actions x3) w3 Ht Hfi Hd3) as [v4 E5]. rewrite E5.
  destruct v4 as [w4|]; [|done]. cbn [run_bind]. apply fold_run_total; [done..|].
  pose proof (fold_run_fine _ _ _ _ Hfi Hd3 E5) as Hf4. by apply Hf4.
Qed.

(** C15.  A transaction always ends, with a result or an exception, and the fuel
    of the model plays no part in it: from [enough_fuel] on the outcome is the
    same. *)
Theorem transaction_ends env w t cf delay : depth_ok (dbs w) →
  ∃ r, ∀ fuel, (enough_fuel ≤ fuel)%nat → exec' fuel env w t cf delay = Some r.
Proof.
  intros Hd. enough (is_Some (exec' enough_fuel env w t cf delay)) as [r Hr].
  { exists r. intros fuel Hf. by eapply exec_more. }
  assert (∀ w o, depth_ok (dbs w) → is_Some (execute_action' enough_fuel env w o 0)) as Ht.
  { intros w' o Hd'. by apply execute_action_total. }
  assert (∀ w o w', depth_ok (dbs w) → execute_action' enough_fuel env w o 0 = Some (Ok w') → fine w w') as Hfi.
  { intros ? ? ? ?. by apply execute_action_fine. }
  unfold exec. destruct (EOS_ASSERT _ _); [|done]. cbn [run_bind].
  destruct (if cf then _ else _) as [wa|] eqn:Ea; [|done]. cbn [run_bind].
  assert (depth_ok (dbs wa)) as Hda.
  { destruct cf; [apply schedule_originals_Ok in Ea as (-> & _)|injection Ea as <-]; done. }
  destruct (if delay =? 0 then _ else _) as [wb|] eqn:Eb; [|done]. cbn [run_bind].
  assert (depth_ok (dbs wb)) as Hdb.
  { destruct (delay =? 0); [apply schedule_originals_Ok in Eb as (-> & _)|injection Eb as <-]; done. }
  destruct (fold_run_total _ (seqZ 1 (u32 (Z.of_nat (length (traces wb))))) wb Ht Hfi Hdb) as [[wc|] Ec];
    rewrite Ec; cbn [run_bind]; [|done].
  pose proof (fi_depth _ _ (fold_run_fine _ _ _ _ Hfi Hdb Ec) Hdb) as Hdc.
  assert (∃ v, schedule_fee_action decode pack_context f64_rank f128_rank f64_is_nan f128_is_nan milliseconds db_full
    engine pack_transfer_fee enough_fuel env wc = Some v) as [v ->].
  { unfold schedule_fee_action. destruct (fee_payer _ =? 0); [eexists; reflexivity|]. destruct (check_fee_limit _); [|eexists; reflexivity].
    cbn [run_bind trx_schedule_action]. by apply Ht. }
  destruct v as [wd|]; cbn [run_bind]; [|done]. by destruct (delay =? 0).
Qed.
End theory.
