(* ===== verification/FeeAction.v ===== *)
(** * The fee action ([transaction_context.cpp])

    At the end of a transaction [schedule_fee_action] schedules the action
    [fee] of the token account, to take the fee from its payer.  Its receiver is
    the payer and not the token account, so what runs is the payer's contract,
    if there is one; the token contract, which keeps the balances, does not. *)

From S2P Require Import Prelude Chainbase Names Assets Config Merkle BlockHeader ProtocolFeatures ChainConfig ConfigOnChain TxFee Accumulator.
From S2P Require Import ResourceLimits ControllerLists Authority AuthorityChecker Permissions.
From S2P Require Import BlockTimestamp Transaction AccessLists TransactionContext ContractTables DatabaseApi ActionContext Deferred.
From S2P Require Import SystemActions HostApi ActionExec.
Local Open Scope Z_scope.

Section fee.
Context {db : Chainbase} {laws : ChainbaseLaws db} {fc : TrxFc} {cr : Crypto} {sf : SystemFc} {hf : HostFc}.
Context (decode : Transaction.action → native_data) (pack_context : generation_context → list Z).
Context (f64_rank f128_rank : Z → Z) (f64_is_nan f128_is_nan : Z → bool).
Context (milliseconds : Z → Z) (db_full : database → bool).
Context (engine : list Z → Z → Z → Z → prog) (pack_transfer_fee : Z → asset → list Z).
Implicit Types (env : exec_env) (w : world) (x : actx) (d : database).

Abbreviation exec_one' := (exec_one decode pack_context f64_rank f128_rank f64_is_nan f128_is_nan
  milliseconds db_full engine).
Abbreviation schedule_fee := (schedule_fee_action decode pack_context f64_rank f128_rank f64_is_nan f128_is_nan
  milliseconds db_full engine pack_transfer_fee).

(** The contents of the database that a contract can see or that is billed. *)
Definition same_contents d d' : Prop :=
  tables (tbl d') = tables (tbl d) ∧ rows (tbl d') = rows (tbl d) ∧ resources (tbl d') = resources (tbl d) ∧
  auths d' = auths d ∧ account_objects d' = account_objects d ∧ codes d' = codes d ∧ deferred d' = deferred d.

(** An action on behalf of an account without a contract runs nothing. *)
Lemma run_receiver_idle env w x m : metadata (dbs w) !! x_receiver x = Some m → code_hash m = zero_digest →
  a_account (x_act x) ≠ system_account_name → a_account (x_act x) ≠ native_account_name →
  account_ram_deltas (tbl (dbs w)) = ∅ →
  run_receiver decode pack_context f64_rank f128_rank f64_is_nan f128_is_nan milliseconds db_full engine env w x
    = Ok (w, with_privileged x (is_privileged m)).
Proof.
  intros Hm Hz Hs Hn Hd. unfold run_receiver. rewrite db_get_spec, Hm. cbn [of_option mbind result_bind].
  unfold find_apply_handler. rewrite (proj2 (Z.eqb_neq (a_account _) _) Hs), andb_false_r.
  cbn [mbind result_bind]. rewrite (proj2 (Z.eqb_neq (a_account _) _) Hn). cbn [mbind result_bind].
  cbn [x_receiver with_privileged]. rewrite db_get_spec, Hm. cbn [of_option mbind result_bind].
  unfold has_code_to_run. rewrite bool_decide_true by done. cbn [negb andb mbind result_bind].
  unfold check_ram_deltas. rewrite Hd, map_to_list_empty. by destruct (_ && _).
Qed.

(** The numbers of the receipt are given, and nothing else changes. *)
Lemma make_receipt_numbers d x p m m' : metadata d !! x_receiver x = Some m →
  metadata d !! a_account (x_act x) = Some m' → a_authorization (x_act x) = [p] → actor p = x_receiver x →
  ∃ r d', make_receipt d x = Ok (r, d') ∧ r_receiver r = x_receiver x ∧
    same_contents d d' ∧ tbl d' = tbl d ∧ gpo d' = gpo d.
Proof.
  intros Hm Hm' Ha Hp. unfold make_receipt, next_global_sequence, next_recv_sequence.
  cbn [metadata with_sequence]. rewrite db_modify_spec, Hm. cbn [of_option mbind result_bind].
  rewrite db_get_spec, lookup_insert_eq. cbn [of_option mbind result_bind metadata with_metadata].
  rewrite db_get_spec. set (m1 := <[x_receiver x := _]> (metadata d)).
  assert (is_Some (m1 !! a_account (x_act x))) as [v Hv].
  { unfold m1. destruct (decide (x_receiver x = a_account (x_act x))) as [<-|];
      [by rewrite lookup_insert_eq|by rewrite lookup_insert_ne]. }
  rewrite Hv, Ha. cbn [of_option mbind result_bind]. unfold next_auth_sequences. cbn [fold_res].
  unfold next_auth_sequence. cbn [metadata with_metadata]. rewrite Hp, db_get_spec. unfold m1.
  rewrite lookup_insert_eq. cbn [of_option mbind result_bind]. rewrite db_modify_spec, lookup_insert_eq.
  cbn [of_option mbind result_bind]. rewrite db_get_spec, lookup_insert_eq. cbn [of_option mbind result_bind].
  eexists _, _. by split_and!.
Qed.

(** C38.  The fee action never reaches the token contract: when the account that
    pays has no contract, the action succeeds whatever its balance, one receipt
    for the payer is recorded, and no table, row or resource of any account
    changes.  The fee that the transaction cost is not collected. *)
Theorem fee_action_bypasses_token fuel env w m m' :
  fee_payer (fees (tctx w)) ≠ 0 → check_fee_limit (fees (tctx w)) = Ok tt →
  metadata (dbs w) !! fee_payer (fees (tctx w)) = Some m → code_hash m = zero_digest →
  metadata (dbs w) !! token_account_name = Some m' → Z.of_nat (length (traces w)) < 2 ^ 32 - 1 →
  ∃ w' r, schedule_fee (S fuel) env w = Some (Ok w') ∧ executed w' = executed w ++ [r] ∧
    r_receiver r = fee_payer (fees (tctx w)) ∧ same_contents (dbs w) (dbs w').
Proof.
  intros H0 Hlim Hm Hz Hm' Hlen. set (p := fee_payer (fees (tctx w))) in *. unfold schedule_fee_action.
  fold p. rewrite (proj2 (Z.eqb_neq p 0) H0), Hlim. cbn [run_bind trx_schedule_action execute_action].
  rewrite wrap_small by (unfold in_u; lia). set (o := Z.of_nat (length (traces w)) + 1).
  set (t := mk_trace o 0 0 None p (transfer_fee_action pack_transfer_fee (fees (tctx w))) false ∅).
  assert (∀ ts, length ts = length (traces w) → (ts ++ [t]) !! Z.to_nat (o - 1) = Some t) as Ht.
  { intros ts Hts. replace (Z.to_nat (o - 1)) with (length ts) by (unfold o; lia). by rewrite list_lookup_middle. }
  assert ((0 <? o) && (o <=? Z.of_nat (length (traces w ++ [t]))) = true) as Hin
    by (rewrite length_app; cbn [length]; unfold o; apply andb_true_intro; split; [apply Z.ltb_lt|apply Z.leb_le]; lia).
  unfold new_apply_context, get_action_trace. cbn [traces with_traces]. rewrite Hin, (Ht (traces w) eq_refl).
  cbn [EOS_ASSERT of_option mbind result_bind run_bind with_notified x_receiver action_ordinal t t_receiver t_act
       t_context_free dbs with_dbs with_traces x_act recurse_depth first_receiver_action_ordinal x_privileged
       x_context_free notified inline_actions cfa_inline_actions].
  set (w1 := with_dbs _ _). set (x1 := with_notified _ _).
  unfold exec_one. rewrite (run_receiver_idle env w1 x1 m); [|done..]. cbn [mbind result_bind].
  destruct (make_receipt_numbers (dbs w1) (with_privileged x1 (is_privileged m))
    (PermissionLevel p active_name) m m') as (r & d' & -> & Hr & Hsame & Etbl & Eg); [done..|].
  cbn [mbind result_bind]. unfold record_receipt, get_action_trace. cbn [traces with_dbs w1 with_traces].
  change (action_ordinal (with_privileged x1 (is_privileged m))) with o. rewrite Hin, (Ht (traces w) eq_refl).
  cbn [EOS_ASSERT of_option mbind result_bind run_bind].
  assert (∀ f w x, notified x = [(p, o)] →
    notify decode pack_context f64_rank f128_rank f64_is_nan f128_is_nan milliseconds db_full engine f env w x 1
    = Some (Ok (w, x))) as Hnot by (intros [|f] w0 x0 E; cbn [notify]; by rewrite E).
  rewrite Hnot by done. cbn [run_bind check_depth cfa_inline_actions inline_actions with_privileged with_notified x1 fold_run].
  eexists _, r. split; [reflexivity|]. split_and!; [done|exact Hr|].
  destruct Hsame as (E1 & E2 & E3 & E4 & E5 & E6 & E7). by split_and!; rewrite ?E1, ?E2, ?E3, ?E4, ?E5, ?E6, ?E7.
Qed.
End fee.
