(* ===== verification/ActionExamples.v ===== *)
(** * A transaction on a concrete chain

    The theorems on running actions at the chain of [ChainExamples]: the
    contract of [bob] stores a row, notifies [alice], who runs the same code,
    and sends an inline action; [alice], before having a contract, pays a fee. *)

From S2P Require Import Prelude Chainbase Names Assets Config Merkle BlockHeader ProtocolFeatures ChainConfig ConfigOnChain TxFee Accumulator.
From S2P Require Import ResourceLimits ControllerLists Authority AuthorityChecker Permissions HeaderExamples.
From S2P Require Import BlockTimestamp Transaction AccessLists TransactionContext Billing ContractTables TableTheory DatabaseApi ActionContext Deferred DeferredRam.
From S2P Require Import SystemActions SystemTheory SystemRam Genesis GenesisTheory ChainExamples HostApi ActionExec ActionTheory HostSafety ActionLog ActionEnds FeeAction.
Local Open Scope Z_scope.

(** ** Instances *)
#[export] Instance demo_host_fc : HostFc := {|
  unpack_action l := match l with
    | [a; n] => Ok (mk_action a n [PermissionLevel a active_name] []) | _ => Throw std_out_of_range end;
  pack_action a := [a_account a; a_name a];
  unpack_producers _ := Throw std_out_of_range;
  key_valid _ := true;
  hash_of _ b := b;
  unpack_config _ := Throw std_out_of_range;
  pack_config _ := [];
  unpack_signature _ := Throw std_out_of_range;
  unpack_public_key _ := Throw std_out_of_range;
  pack_public_key k := [k];
  unpack_keys _ := Throw std_out_of_range;
  unpack_levels _ := Throw std_out_of_range;
|}.

Definition rows_full (d : database) : bool := negb (Z.of_nat (size (rows (tbl d))) + 1 <? 2 ^ 32).

(** On [go]: a row, a notice and an inline action; else nothing. *)
Definition demo_engine (code : list Z) (receiver account name : Z) : prog :=
  if (receiver =? account) && (name =? N_ "go") then
    p_call (h_db (call_store_i64 receiver (N_ "log") receiver 1 [4; 2])) (λ _,
    p_call (h_require_recipient alice) (λ _,
    p_call (h_send_inline [bob; N_ "again"]) (λ _, p_return)))
  else p_exit.

#[export] Instance demo_exec_laws : ExecLaws (λ _, []) rows_full demo_engine.
Proof.
  split.
  - apply chain_hash_inj.
  - intros b _. apply chain_hash_nonzero.
  - done.
  - intros b t env x sid t' _ _. cbn. lia.
  - unfold rows_full. intros d. lia.
  - intros c r a n. unfold demo_engine. destruct (_ && _); [|done]. cbn. repeat split; try done; lia.
Qed.

(** ** The transaction *)
Definition go_trx : transaction :=
  mk_transaction plain_header [] [mk_action bob (N_ "go") [PermissionLevel bob active_name] []] [].
Definition ready : transaction_context :=
  mk_context (setup bill_context) (mk_net 1000 true false 1000 0) (cpu bill_context) (fees bill_context) ∅ true.
Definition go_world : world := mk_world played_db ready [] [] no_lists.

Abbreviation demo_exec := (exec (λ _, DOther) (λ _, []) Datatypes.id Datatypes.id (λ _, false) (λ _, false)
  Datatypes.id rows_full demo_engine (λ _ _, [])).
Definition go : run world := demo_exec 5 run_env go_world go_trx true 0.
Definition went : world := match go with Some (Ok w) => w | _ => go_world end.

Lemma run_checked {A} (r : run A) a :
  match r with Some (Ok _) => true | _ => false end = true →
  r = Some (Ok (match r with Some (Ok x) => x | _ => a end)).
Proof. by destruct r as [[]|]. Qed.

Lemma went_Ok : demo_exec 5 run_env go_world go_trx true 0 = Some (Ok went).
Proof. apply run_checked. vm_compute. reflexivity. Qed.

Lemma played_inv : chain_inv played_db.
Proof.
  apply (chain_steps_kept (λ _, DOther) (λ _, []) Datatypes.id Datatypes.id (λ _, false) (λ _, false)
    genesis_db played_db genesis_db_chain played).
Qed.
Lemma played_depth : depth_ok played_db.
Proof. vm_compute. split; congruence. Qed.

(** ** Witnesses *)
Lemma transaction_keeps_chain_witness :
  chain_inv (dbs went) ∧ unexplained (dbs went) bob = unexplained played_db bob ∧
  billed (tbl (dbs went)) bob = 226 ∧ usage (tbl (dbs went)) bob = usage (tbl played_db) bob + 226.
Proof.
  destruct (transaction_keeps_chain (λ _, DOther) (λ _, []) Datatypes.id Datatypes.id (λ _, false) (λ _, false)
    Datatypes.id rows_full demo_engine (λ _ _, []) 5 run_env go_world go_trx true 0 went
    played_inv played_depth ltac:(cbn; lia) went_Ok) as [H1 H2].
  split; [exact H1|split; [exact (H2 bob)|vm_compute; split; reflexivity]].
Defined.

(** The receivers: [bob], [alice] who is notified, and [bob] again. *)
Lemma actions_run_once_witness :
  Forall (λ t, ∃ r, t_receipt t = Some r ∧ r_receiver r = t_receiver t) (traces went) ∧
  executed went ≡ₚ omap t_receipt (traces went) ∧
  (∀ i r, executed went !! i = Some r →
    r_global_sequence r = u64 (global_action_sequence played_db + 1 + Z.of_nat i)) ∧
  t_receiver <$> traces went = [bob; alice; bob].
Proof.
  destruct (actions_run_once (λ _, DOther) (λ _, []) Datatypes.id Datatypes.id (λ _, false) (λ _, false)
    Datatypes.id rows_full demo_engine (λ _ _, []) 5 run_env go_world go_trx true 0 went
    eq_refl eq_refl ltac:(vm_compute; split; congruence) played_depth went_Ok ltac:(vm_compute; reflexivity))
    as (H1 & H2 & H3).
  split; [exact H1|split; [exact H2|split; [exact H3|vm_compute; reflexivity]]].
Defined.

Lemma transaction_ends_witness :
  depth_ok (dbs go_world) ∧
  ∃ r, ∀ fuel, (enough_fuel ≤ fuel)%nat → demo_exec fuel run_env go_world go_trx true 0 = Some r.
Proof.
  split; [exact played_depth|].
  exact (transaction_ends (λ _, DOther) (λ _, []) Datatypes.id Datatypes.id (λ _, false) (λ _, false)
    Datatypes.id rows_full demo_engine (λ _ _, []) run_env go_world go_trx true 0 played_depth).
Defined.

(** [alice] pays a fee of one token. *)
Definition fee_world : world :=
  mk_world genesis_db (with_fees ready (mk_fee alice (Asset 10000 CORE_SYMBOL) asset_zero 0 0 false)) [] [] no_lists.
Definition alice_metadata : account_metadata := or_else (db_get (metadata genesis_db) alice) new_metadata.
Definition token_metadata : account_metadata := or_else (db_get (metadata genesis_db) token_account_name) new_metadata.

Lemma metadata_checked (d : database) n : bool_decide (is_Some (metadata d !! n)) = true →
  metadata d !! n = Some (or_else (db_get (metadata d) n) new_metadata).
Proof. rewrite db_get_spec. intros [m ->]%bool_decide_eq_true. done. Qed.

Lemma fee_action_bypasses_token_witness :
  ∃ w' r, schedule_fee_action (λ _, DOther) (λ _, []) Datatypes.id Datatypes.id (λ _, false) (λ _, false)
      Datatypes.id rows_full demo_engine (λ _ _, []) 1 run_env fee_world = Some (Ok w') ∧
    executed w' = executed fee_world ++ [r] ∧ r_receiver r = alice ∧ same_contents genesis_db (dbs w').
Proof.
  refine (fee_action_bypasses_token (λ _, DOther) (λ _, []) Datatypes.id Datatypes.id (λ _, false) (λ _, false)
    Datatypes.id rows_full demo_engine (λ _ _, []) 0 run_env fee_world alice_metadata token_metadata _ _ _ _ _ _).
  - vm_compute. congruence.
  - vm_compute. reflexivity.
  - apply metadata_checked. vm_compute. reflexivity.
  - vm_compute. reflexivity.
  - apply metadata_checked. vm_compute. reflexivity.
  - vm_compute. reflexivity.
Defined.

(** A context-free action that hashes, and the contract of [bob] on [go]. *)
Definition free_actx : actx := mk_actx bob (mk_action bob (N_ "check") [] [3]) 0 1 1 false true [(bob, 1)] [] [].
Definition free_prog : prog :=
  p_call (h_read_action_data 10) (λ r, p_call (h_sha256 (h_out r)) (λ _, p_call h_current_receiver (λ _, p_return))).
Definition go_actx : actx :=
  mk_actx bob (mk_action bob (N_ "go") [PermissionLevel bob active_name] []) 0 1 1 false false [(bob, 1)] [] [].
Definition go_traces : world :=
  with_traces go_world [mk_trace 1 0 0 None bob (x_act go_actx) false ∅].
Abbreviation demo_run := (run_prog (λ _, DOther) (λ _, []) Datatypes.id Datatypes.id (λ _, false) (λ _, false)
  Datatypes.id rows_full run_env).

Lemma context_free_pure_witness :
  ∃ w' x', demo_run go_world free_actx free_prog = Ok (w', x') ∧ w' = go_world ∧ x' = free_actx.
Proof.
  destruct (result_checked (demo_run go_world free_actx free_prog) (λ _, true)) as ([w' x'] & H & _);
    [vm_compute; reflexivity|].
  exists w', x'. split; [exact H|].
  exact (context_free_pure (λ _, DOther) (λ _, []) Datatypes.id Datatypes.id (λ _, false) (λ _, false)
    Datatypes.id rows_full run_env free_prog go_world free_actx w' x' eq_refl H).
Defined.

Lemma unprivileged_cannot_govern_witness :
  ∃ w' x', demo_run go_traces go_actx (demo_engine [] bob bob (N_ "go")) = Ok (w', x') ∧
    length (traces w') = 3%nat ∧ protected (dbs go_traces) (dbs w') ∧ conf w' = conf go_traces.
Proof.
  destruct (result_checked (demo_run go_traces go_actx (demo_engine [] bob bob (N_ "go")))
    (λ r, bool_decide (length (traces r.1) = 3%nat))) as ([w' x'] & H & Hl%bool_decide_eq_true);
    [vm_compute; reflexivity|].
  exists w', x'. split; [exact H|]. split; [exact Hl|].
  exact (unprivileged_cannot_govern (λ _, DOther) (λ _, []) Datatypes.id Datatypes.id (λ _, false) (λ _, false)
    Datatypes.id rows_full run_env (demo_engine [] bob bob (N_ "go")) go_traces go_actx w' x' eq_refl H).
Defined.
